(* ===== verification/_CoqProject ===== *)
-Q . S2P
Prelude.v
Domain.v
DeadLetter.v
DLQStore.v
SchemaChange.v
Decoder.v
TypeMap.v
Reader.v
ReaderLive.v
ReaderSetup.v
Backfill.v
DBLog.v
Lanes.v
Urls.v
BackfillDB.v
Service.v
Pipeline.v
Resilience.v
Transform.v
Meili.v
Triage.v
Keys.v
RedisSinks.v
Publish.v
Config.v
MeiliSetup.v
Sinks.v
Gateway.v
Assembly.v
Metrics.v
Server.v
Wiring.v
Delivered.v
Routing.v
Doctor.v
