(* ===== verification/Prelude.v ===== *)
(** * GTC: a change-data-capture gateway for PostgreSQL

    GTC reads a PostgreSQL replication slot, decodes the write-ahead log into change
    events and delivers them, at least once and in order, to a set of sinks (Redis,
    Meilisearch, NATS, webhooks, an outbox).  Existing rows are copied by a backfill
    that interleaves chunks of the table with the live stream between two watermarks.

    ** The program's parts and the files that model them

    The reader (adapters/primary/wal) receives messages, decodes them and hands
    batches to a delivery goroutine, which calls the service and, when a batch is
    handled, confirms positions to the server; the backfill coordinator
    (adapters/primary/backfill) hooks into the same stream.  The service
    (core/services) gives each batch to every registered sink; each sink is wrapped,
    from the inside out, in retries with a circuit breaker, the dead-letter queue, and
    transforms (infrastructure/resilience, dlq, transform).  The composition root
    (cmd/gateway) builds all of it from the configuration (infrastructure/config) and
    serves an API over it (infrastructure/server, metrics); the doctor
    (infrastructure/doctor) checks beforehand that it can work.

    - [Prelude]: the state monad [ST] the handlers are written in, list and string
      lemmas, the tactics and hint databases.
    - [Domain] (core/domain): errors as trees with [Is] and [IsPermanent], column
      values with their printed form and their JSON round trip, events, contexts and
      clocks ([World]), the [Sink] interface as a record of operations, and sinks
      that log their calls.
    - [DeadLetter] (dlq/sink.go, manager.go): failure counts, bisection of a failing
      batch, parking, and the triage API, over any sink and store.
    - [DLQStore] (dlq/store.go): the Redis store behind the [Store] interface.
    - [SchemaChange] (domain/schema.go, schema/recorder.go, schema/publisher.go):
      schema changes, what makes one breaking, the bounded history and the stream the
      changes are published to.
    - [Decoder] (wal/decoder.go): messages to events, schema diffs, positions that may
      be acknowledged.  [TypeMap] (wal/typemap.go): the types its values decode with.
    - [Reader] (wal/reader.go, streamLoop): the two goroutines of a session as a
      labelled step function; labels are what the network, the clock, the handler and
      the scheduler do.  [ReaderLive]: its progress.  [ReaderSetup]: the connection,
      the slot, its retries, the reconnect loop ([Start]) and [Stop].
    - [Backfill] (backfill/coordinator.go): requests, queue, lanes, chunk windows and
      watermarks.  [DBLog]: chunk selection (backfill/db.go) and what a backfilled
      sink ends up with.  [Lanes]: the lanes, their wake-ups and the callers as one
      interleaving, and how long a table's backfill takes.  [BackfillDB]: the rest of
      db.go, over an interface of SQL statements, with the progress table.  [Urls]:
      the rewriting of the database URL, with net/url's query strings.
    - [Service] (core/services): the registry and the batch handler.
    - [Pipeline]: sessions of the reader with the real decoder and batch handler, one
      after another through reconnects and restarts.
    - [Resilience] (resilience/circuit_breaker.go), [Transform] (transform/*.go,
      TransformSpec of config/sinks.go): the decorators.
    - [Meili] (meilisearch/sink.go, the Meilisearch part of config/sinks.go): the plan
      of a batch, its tasks and the wait for them.  [MeiliSetup]: starting the sink
      (applyIndexSettings, ensureIndex) and mapper.go.
    - [Triage]: manager, store and Meilisearch sink together on one concrete entry.
    - [Keys] (redis/key_template.go, KeyedSinkConfig of config/sinks.go): patterns,
      fields and the template cache.  [RedisSinks] (redis, redisjson, outbox):
      pipelines of commands, the outbox, the excluding decorator.  [Publish] (nats,
      webhook): publish windows and requests.  [Sinks]: the constructors and life
      cycles of all of them, and their routers.
    - [Config] (config/*.go and the sinks' config.go): parsers, variables, defaults
      and validation rules.
    - [Gateway] (cmd/gateway): the wiring in [newSinks] and the other constructors, the
      start and stop hooks, the command line.  [Assembly]: what the layers around a
      destination account for.  [Wiring]: the destinations' own sinks in [newSinks], the
      registry, the service and the server over them ([Module], [run]), and the whole
      gateway along a lifetime.  [Delivered]: that gateway over a Redis whose executed
      commands are recorded.  [Routing]: the tables a backfill over its sinks skips.
    - [Metrics] (metrics/metrics.go, server/stats.go, server/history.go): counters, the
      sample ring and the statistics document.  [Server] (server/server.go, health.go,
      schema.go): handlers, routes and the health monitor.  [Doctor] (doctor/doctor.go).

    A definition keeps the name of the Go function or type it models where Rocq
    allows it; a name used by several packages is prefixed ([DLQ_Process],
    [BF_ObserveEvent], [Meili_Process], [Store_Park]).  A loop of a function is a
    separate [Fixpoint] named after it ([retry_from], [admit_loop], [emit_rows]).

    ** What the theorems show

    - Positions: along any session of the decoder an acknowledgeable position comes
      only at a transaction boundary; in every interleaving of the reader, what is
      reported to the server is a position all of whose earlier events were handled,
      reports never move back, events stay in order, lookahead is bounded, every
      healthy state can catch up, and teardown ends; reconnecting leaks no connection.
    - End to end: over any sequence of sessions, failures and restarts, every
      transaction up to the position the server holds as confirmed was accepted by
      every sink ([Pipeline]), and in the gateway as [Module] builds it, what each
      configured destination's transforms keep of it was accepted by that destination
      or parked for it ([Wiring]); for the Redis sinks, down to the command each event
      stands for ([Delivered]); with accepting sinks the whole system catches up.
    - Delivery: the handler succeeds only if every sink has the whole batch; the
      dead-letter queue accounts for every event of a batch, isolates bad ones with
      logarithmically many calls, and parks nothing during an outage; the store
      behind it refines a map; retries are bounded and an open circuit costs no call;
      through all layers of an assembled sink nothing is lost, doubled or reordered.
    - Backfill: the window from low to high watermark refines its specification
      (live events, then the rows no live event touched), chunks follow each other
      without gap, no table runs twice at once, under the stated conditions the sink
      ends equal to the table, and the progress table refines a map; a lane's work on a
      table ends, and no queued table is forgotten although signals may be dropped.
    - Transforms leave shared rows alone, hide what they are configured to hide, and
      reject statically only what they would reject anyway; in the assembled gateway
      no destination and no dead-letter entry sees what they hide.
    - The Meilisearch plan has the effect of applying the events one by one; a
      batch is done only when all its tasks are, waits end, resumed batches are not
      enqueued again, and starting twice changes nothing the second time.
    - The Redis sinks send a batch as one pipeline in order, whole or not at all; the
      outbox deletes only rows it published; NATS batches succeed only when every
      message is acknowledged; webhooks post in order and classify failures; routers
      turn away only what their sink ignores, so a backfill skips only tables that no
      destination, behind all its layers, would take a row of; failed starts leave
      nothing open.
    - Operation: a configuration loads exactly when it is well-formed, settings are
      read exactly and fit the parts they configure; a rewritten database URL differs in
      the replication parameter only; readiness is the last check's
      result, API answers, refusals included, say what happened, statistics add up, and
      a clean report of the doctor means that what it checks was found in order.
    - Some theorems record behaviour that is not wanted: a teardown that completes a
      chunk with a row missing, changes a backfill window does not see, rows of one
      multi-row insert sharing an event id, filter errors that bypass the dead-letter
      queue, retried changes with large integer keys, a lane count of zero, a backfill
      of its own progress table, transforms the doctor does not compile, and servers too
      old for the protocol it passes.

    ** Parameters, fuel and bounds

    Code of other projects is a parameter with its documented behaviour as named
    hypotheses or classes of laws: pgtype's value decoding, pglogrepl's messages (as
    data), the SQL of the database, gobreaker, CEL, the digests, JSON and YAML
    decoders, templates, the validation library, Redis, Meilisearch, NATS and HTTP
    clients, and what the doctor's probes answer.  Each theorem with such a hypothesis
    has a witness that instantiates it.  Time is a number of nanoseconds read from the
    world, and cancellation is read from it too.  Metric values are whole numbers.
    The bisection recurses with the batch's length as fuel, enough because each
    half is shorter; the watermark slices and the retry loops recurse on their own
    bound; the slot retry and the wait for tasks take fuel, and theorems state how
    much is enough.  A position is a [Z]; the decoder, the reader and the
    coordinator only compare and print positions.  Where Go ranges over a map, the
    order is that of [map_to_list] or a parameter that may be any order.

    Along a lifetime PostgreSQL is assumed to send, from the position a session starts
    at, whole transactions in commit order, and in a keepalive no position beyond a
    transaction it has still to send; what other goroutines do to the world meanwhile
    is any change that keeps the log of what destinations accepted.

    ** Not modelled

    Log lines; serving HTTP (routing middleware, timeouts, the dashboard's files), which
    is the libraries'; the dependency-injection container, which [Module] replaces by
    the order its providers need; splitting a URL into its parts, which is net/url's.
    Parallel sinks run in any order but each sink's delivery is one step; a request of
    the API is one step too, except where [Lanes] and the queue's invariant in
    [Backfill] take its critical sections apart.  When a [select] has several ready
    cases Go picks any; the reconnect loop's is modelled with the context first.  A wait for
    Meilisearch's tasks that never ends, and a panic, count in the packaged sink as a
    batch that was not accepted. *)

From Stdlib Require Import ZArith Lia Ascii String.
From stdpp Require Import base list gmap strings pretty.

Create HintDb gtc.
Create Rewrite HintDb gtc_rw.

Declare Scope go_scope.
Delimit Scope go_scope with go.

Definition isSome {A} (o : option A) : bool := match o with Some _ => true | None => false end.

(** ** Stateful computations

    Go code that reads and writes a world [W] is a function from the world to a
    result and the next world. *)
Definition ST (W A : Type) : Type := W -> A * W.

Definition ret {W A} (a : A) : ST W A := fun w => (a, w).
Definition bind {W A B} (m : ST W A) (k : A -> ST W B) : ST W B :=
  fun w => let '(a, w') := m w in k a w'.
Definition get {W} : ST W W := fun w => (w, w).
Definition put {W} (w : W) : ST W unit := fun _ => (tt, w).
Definition modify {W} (f : W -> W) : ST W unit := fun w => (tt, f w).

Notation "'let!' x := m 'in' k" := (bind m (fun x => k))
  (at level 10, x name, m at level 200, k at level 200) : go_scope.
Notation "'let!' ' pat := m 'in' k" := (bind m (fun x => match x with pat => k end))
  (at level 10, pat pattern, m at level 200, k at level 200) : go_scope.
Notation "'seq!' m 'in' k" := (bind m (fun _ => k))
  (at level 10, m at level 200, k at level 200) : go_scope.

(** [try! m in k] is Go's [if err := m; err != nil { return err }; k]. *)
Definition guard {W E} (m k : ST W (option E)) : ST W (option E) :=
  bind m (fun r => match r with Some e => ret (Some e) | None => k end).
Notation "'try!' m 'in' k" := (guard m k)
  (at level 10, m at level 200, k at level 200) : go_scope.

(** A computation on the second half of a pair of worlds: a decorator keeps its
    own state in the first half and calls the decorated component in the second. *)
Definition inner {S W A} (m : ST W A) : ST (S * W) A :=
  fun '(s, w) => let '(a, w') := m w in (a, (s, w')).
(** A computation on the first half. *)
Definition own {S W A} (m : ST S A) : ST (S * W) A :=
  fun '(s, w) => let '(a, s') := m s in (a, (s', w)).

(** [for _, x := range l { if err := f(x); err != nil { return err } }] *)
Fixpoint for_each {W E A} (f : A -> ST W (option E)) (l : list A) : ST W (option E) :=
  match l with
  | [] => ret None
  | x :: l' => guard (f x) (for_each f l')
  end.

(** ** Lemmas on the state monad *)
Section monad_facts.
Context {W A B E : Type}.

Lemma bind_run (m : ST W A) (k : A -> ST W B) w a w' :
  m w = (a, w') -> bind m k w = k a w'.
Proof. unfold bind; intros ->; reflexivity. Qed.

Lemma guard_None (m k : ST W (option E)) w w' :
  guard m k w = (None, w') <-> exists w1, m w = (None, w1) /\ k w1 = (None, w').
Proof.
  unfold guard, bind. destruct (m w) as [[e|] w1] eqn:Hm; unfold ret; split.
  - congruence.
  - intros (w2 & [=] & _).
  - eauto.
  - intros (w2 & [= ->] & Hk); exact Hk.
Qed.

Lemma guard_Some (m k : ST W (option E)) w e w' :
  guard m k w = (Some e, w') <->
    m w = (Some e, w') \/ exists w1, m w = (None, w1) /\ k w1 = (Some e, w').
Proof.
  unfold guard, bind. destruct (m w) as [[e0|] w1] eqn:Hm; unfold ret; split.
  - intros [= -> ->]. left; reflexivity.
  - intros [H|(w2 & [=] & _)]; exact H.
  - right; eauto.
  - intros [[=]|(w2 & [= ->] & Hk)]; exact Hk.
Qed.
End monad_facts.

(** ** Slices: a loop that cuts a list into pieces of at most [n]

    [for start := 0; start < len(l); start += n { ... l[start:min(start+n, len(l))] ... }] *)
Fixpoint slices_from {A} (fuel n : nat) (l : list A) : list (list A) :=
  match fuel, l with
  | 0, _ | _, [] => []
  | S fuel', _ => take n l :: slices_from fuel' n (drop n l)
  end.
Definition slices {A} (n : nat) (l : list A) : list (list A) := slices_from (length l) n l.

Section slices_facts.
Context {A : Type}.
Implicit Types l : list A.

Lemma slices_from_concat fuel n l :
  n <> 0 -> length l <= fuel -> concat (slices_from fuel n l) = l.
Proof.
  intros Hn. revert l; induction fuel as [|fuel IH]; intros l Hl; simpl.
  - destruct l; [reflexivity | simpl in Hl; lia].
  - destruct l as [|x l]; [reflexivity|].
    simpl. rewrite IH; [apply take_drop|].
    rewrite length_drop; simpl in *; lia.
Qed.

Lemma slices_concat n l : n <> 0 -> concat (slices n l) = l.
Proof. intros Hn; apply slices_from_concat; [exact Hn | reflexivity]. Qed.

Lemma slices_length n l : Forall (fun p => length p <= n) (slices n l).
Proof.
  unfold slices. generalize (length l) as fuel; intros fuel.
  revert l; induction fuel as [|fuel IH]; intros l; simpl; [constructor|].
  destruct l; constructor; [|apply IH].
  rewrite length_take; lia.
Qed.

Lemma slices_nonempty n l : n <> 0 -> Forall (fun p => p <> []) (slices n l).
Proof.
  intros Hn. unfold slices. generalize (length l) as fuel; intros fuel.
  revert l; induction fuel as [|fuel IH]; intros l; simpl; [constructor|].
  destruct l; constructor; [|apply IH]. destruct n; simpl; congruence.
Qed.

Lemma slices_small n l : l <> [] -> length l <= n -> slices n l = [l].
Proof.
  intros Hne Hl. unfold slices. destruct l as [|x l]; [congruence|]. simpl.
  rewrite drop_ge, take_ge by (simpl in *; lia). destruct (length l); reflexivity.
Qed.
End slices_facts.

(** ** Halves of a batch *)
Lemma half_lengths {A} (l : list A) :
  2 <= length l ->
  length (take (length l / 2) l) < length l /\ length (drop (length l / 2) l) < length l /\
  1 <= length (take (length l / 2) l) /\ 1 <= length (drop (length l / 2) l).
Proof.
  intros Hl. rewrite length_take, length_drop.
  pose proof (Nat.div_lt (length l) 2 ltac:(lia) ltac:(lia)).
  pose proof (Nat.div_le_lower_bound (length l) 2 1 ltac:(lia) ltac:(lia)).
  lia.
Qed.

(** Elements of a list with distinct images are determined by them. *)
Lemma NoDup_map_elem_inj {A B} (f : A -> B) (l : list A) x y :
  NoDup (map f l) -> x ∈ l -> y ∈ l -> f x = f y -> x = y.
Proof.
  induction l as [|z l IH]; simpl; [by intros _ []%not_elem_of_nil|].
  inversion_clear 1 as [|? ? Hz Hnd]. intros Hx Hy Hf.
  apply elem_of_cons in Hx as [->|Hx]; apply elem_of_cons in Hy as [->|Hy]; auto; exfalso;
    apply Hz; apply list_elem_of_fmap; eauto.
Qed.

(** ** Bounded histories *)
(** A ring buffer that appends and keeps the last [cap] elements. *)
Definition keep_last {A} (cap : nat) (l : list A) : list A :=
  if decide (cap < length l) then drop (length l - cap) l else l.

Lemma keep_last_length {A} cap (l : list A) : length (keep_last cap l) <= cap.
Proof. unfold keep_last. destruct (decide _); [rewrite length_drop|]; lia. Qed.

(** Appending to a trimmed buffer and trimming again is trimming the whole
    sequence: nothing but the oldest elements is ever lost. *)
Lemma keep_last_snoc {A} cap (l : list A) x :
  keep_last cap (keep_last cap l ++ [x]) = keep_last cap (l ++ [x]).
Proof.
  unfold keep_last. rewrite !length_app. simpl.
  destruct (decide (cap < length l)) as [Hl|Hl]; [|reflexivity].
  rewrite length_drop. replace (length l - (length l - cap)) with cap by lia.
  rewrite (decide_True (P := cap < cap + 1)) by lia.
  rewrite (decide_True (P := cap < length l + 1)) by lia.
  replace (length l + 1 - cap) with (S (length l - cap)) by lia.
  destruct (decide (cap = 0)) as [->|Hc].
  - rewrite !drop_ge; [reflexivity | | ]; rewrite ?length_app, ?length_drop; simpl; lia.
  - rewrite !drop_app_le by (rewrite ?length_drop; lia).
    rewrite drop_drop. do 2 f_equal. lia.
Qed.

(** ** Strings *)
Definition sep (a s b : string) : string := (a +:+ s +:+ b)%string.

(** The ASCII unit separator, which joins the parts of composite keys. *)
Definition unit_sep : string := String "031"%char EmptyString.

(** [%q] of a name that needs no escaping. *)
Definition quoted (s : string) : string :=
  String "034"%char (s +:+ String "034"%char EmptyString)%string.

Fixpoint join (s : string) (l : list string) : string :=
  match l with
  | [] => ""
  | [x] => x
  | x :: l' => (x +:+ s +:+ join s l')%string
  end.

Lemma string_app_assoc (a b c : string) : ((a +:+ b) +:+ c = a +:+ (b +:+ c))%string.
Proof. induction a as [|x a IH]; [reflexivity|]. exact (f_equal (String x) IH). Qed.

Fixpoint has_char (c : Ascii.ascii) (s : string) : bool :=
  match s with
  | EmptyString => false
  | String d s' => Ascii.eqb c d || has_char c s'
  end.

(** A separator that does not occur in the left part splits uniquely. *)
Lemma sep_char_inj (c : Ascii.ascii) (a a' b b' : string) :
  has_char c a = false -> has_char c a' = false ->
  (a +:+ String c b = a' +:+ String c b')%string -> a = a' /\ b = b'.
Proof.
  revert a'. induction a as [|x a IH]; intros [|x' a'] Ha Ha' Heq; simpl in *.
  - injection Heq as ->. auto.
  - injection Heq as -> _. by rewrite Ascii.eqb_refl in Ha'.
  - injection Heq as -> _. by rewrite Ascii.eqb_refl in Ha.
  - apply orb_false_iff in Ha as [_ Ha]. apply orb_false_iff in Ha' as [_ Ha'].
    injection Heq as -> Heq. destruct (IH _ Ha Ha' Heq) as [-> ->]. auto.
Qed.

(** ** Small tactics *)

(** Split conjunctions and existentials in the context. *)
Ltac split_hyps :=
  repeat match goal with
         | H : _ /\ _ |- _ => let H1 := fresh H in destruct H as [H H1]
         | H : exists _, _ |- _ => let x := fresh "x" in destruct H as [x H]
         end.

(** Case on the scrutinee of the innermost [match] or [let] of a hypothesis. *)
Ltac case_match_in H :=
  match type of H with
  | context [match ?x with _ => _ end] =>
      lazymatch x with
      | context [match _ with _ => _ end] => fail
      | _ => destruct x eqn:?
      end
  end.
Ltac cases_in H := repeat case_match_in H.

(** Unfold the state monad in a hypothesis or in the goal. *)
Ltac run_st_in H := cbv [bind guard get put modify inner own ret] in H; simpl in H.
Ltac run_st := cbv [bind guard get put modify inner own ret]; simpl.
