(* ===== verification/Domain.v ===== *)
(** * The core domain (src/internal/core/domain)

    Go errors as trees, the dynamically typed column values a row holds, change
    events, dead-letter entries, and the [Sink] interface with its optional
    [BatchLimiter] and [Router] extensions.  What the standard library does with
    these values ([errors.Is], [errors.As], [fmt]'s [%v] verb, the round trip
    through [encoding/json]) is written out where the code relies on it. *)

From Stdlib Require Import ZArith Lia Ascii String.
From stdpp Require Import base list gmap strings pretty.
From S2P Require Import Prelude.

Set Warnings "-register-all".
Open Scope go_scope.

(** ** Errors (errors.go) *)
Module Errors.

(** The package-level [errors.New] values the code compares against. *)
Inductive sentinel :=
  | ErrSinkNotFound | ErrSinkAlreadyExists | ErrSinkInitFailed | ErrSinkProcessFailed
  | ErrSinkShutdownFailed | ErrWALConnectionLost | ErrInvalidEvent | ErrCircuitOpen
  | ErrShuttingDown
  | DeadlineExceeded | Canceled              (* package context *)
  | ErrFull | ErrNotFound                    (* package dlq *)
  | ErrOpenState | ErrTooManyRequests        (* package gobreaker *)
  | ErrTaskFailed | ErrTasksLost.            (* package meilisearch *)

#[export] Instance sentinel_eq_dec : EqDecision sentinel.
Proof. solve_decision. Defined.

(** An error value: a sentinel, a message, a [%w] wrap with the text around it,
    several wrapped errors ([errors.Join], or a format with several [%w]), or a
    [*PermanentError]. *)
Inductive error :=
  | ESentinel (s : sentinel)
  | EMsg (text : string)
  | EWrap (before : string) (err : error) (after : string)
  | EMulti (separator : string) (errs : list error)
  | EPermanent (err : error).

Definition sentinel_text (s : sentinel) : string :=
  match s with
  | ErrSinkNotFound => "sink not found"
  | ErrSinkAlreadyExists => "sink already registered"
  | ErrSinkInitFailed => "sink initialization failed"
  | ErrSinkProcessFailed => "sink processing failed"
  | ErrSinkShutdownFailed => "sink shutdown failed"
  | ErrWALConnectionLost => "WAL connection lost"
  | ErrInvalidEvent => "invalid CDC event"
  | ErrCircuitOpen => "circuit breaker is open"
  | ErrShuttingDown => "service is shutting down"
  | DeadlineExceeded => "context deadline exceeded"
  | Canceled => "context canceled"
  | ErrFull => "dead-letter queue is full"
  | ErrNotFound => "dead-letter entry not found"
  | ErrOpenState => "circuit breaker is open"
  | ErrTooManyRequests => "too many requests"
  | ErrTaskFailed => "meilisearch task failed"
  | ErrTasksLost => "meilisearch tasks lost"
  end.

(** [err.Error()]; a [PermanentError] prints as the error it wraps. *)
Fixpoint Error (e : error) : string :=
  match e with
  | ESentinel s => sentinel_text s
  | EMsg t => t
  | EWrap pre e' post => (pre +:+ Error e' +:+ post)%string
  | EMulti sepr es => join sepr (map Error es)
  | EPermanent e' => Error e'
  end.

(** [errors.Is(err, target)]: the target occurs in the tree of wrapped errors. *)
Fixpoint Is (e : error) (target : sentinel) : bool :=
  match e with
  | ESentinel s => bool_decide (s = target)
  | EMsg _ => false
  | EWrap _ e' _ => Is e' target
  | EMulti _ es => existsb (fun e' => Is e' target) es
  | EPermanent e' => Is e' target
  end.

(** [IsPermanent]: [errors.As] finds a [*PermanentError] in the tree. *)
Fixpoint IsPermanent (e : error) : bool :=
  match e with
  | ESentinel _ | EMsg _ => false
  | EWrap _ e' _ => IsPermanent e'
  | EMulti _ es => existsb IsPermanent es
  | EPermanent _ => true
  end.

(** [Permanent] keeps nil nil. *)
Definition Permanent (e : option error) : option error := EPermanent <$> e.

(** [errors.Join] drops nil errors and is nil when nothing is left. *)
Definition Join (es : list (option error)) : option error :=
  match omap (fun e => e) es with
  | [] => None
  | es' => Some (EMulti (String "010"%char EmptyString) es')
  end.

Lemma Permanent_nil e : Permanent e = None <-> e = None.
Proof. destruct e; simpl; split; congruence. Qed.

Lemma Permanent_Is e target : Is (EPermanent e) target = Is e target.
Proof. reflexivity. Qed.

Lemma Join_None es : Join es = None <-> Forall (eq None) es.
Proof.
  unfold Join. induction es as [|[e|] es IH]; simpl.
  - split; [constructor | reflexivity].
  - split; [congruence|]. inversion 1; congruence.
  - rewrite IH. split; [constructor; auto | inversion 1; auto].
Qed.

End Errors.

Export Errors.

(** ** Values of decoded columns

    The dynamic values a [map[string]any] of column values holds: what pgtype
    decodes ([int64], [bool], [string], [[]byte], JSON documents), [float64]
    numbers with an integral value (what JSON numbers decode to), and any other
    Go type, given by the text [%v] prints for it and the value its JSON form
    decodes back to. *)
Module Value.

Inductive any :=
  | ANil
  | ABool (b : bool)
  | AInt (z : Z)
  | AFloat (z : Z)
  | AStr (s : string)
  | ABytes (b : string)
  | AArr (l : list any)
  | AMap (entries : list (string * any))
  | AOther (type vtext : string) (json : any).

Fixpoint string_to_list (s : string) : list Ascii.ascii :=
  match s with EmptyString => [] | String c s' => c :: string_to_list s' end.
Fixpoint list_to_string (l : list Ascii.ascii) : string :=
  match l with [] => EmptyString | c :: l' => String c (list_to_string l') end.

(** Significant digits: the decimal digits without trailing zeros. *)
Fixpoint strip_zeros (rev_digits : list Ascii.ascii) : list Ascii.ascii :=
  match rev_digits with
  | "0"%char :: l => strip_zeros l
  | l => l
  end.

(** [%v] of a [float64] holding the integer [z]: the shortest [%g] form, which
    switches to the exponent form from a million up. *)
Definition format_float (z : Z) : string :=
  let digits := string_to_list (pretty (Z.abs z)) in
  let exp := (length digits - 1)%nat in
  let body :=
    if decide (exp < 6)%nat then list_to_string digits
    else
      let sig := reverse (strip_zeros (reverse digits)) in
      let mantissa :=
        match sig with
        | [] => "0"
        | [d] => String d EmptyString
        | d :: rest => String d (String "."%char (list_to_string rest))
        end in
      let e := pretty (Z.of_nat exp) in
      let e2 := if decide (exp < 10)%nat then ("0" +:+ e)%string else e in
      (mantissa +:+ "e+" +:+ e2)%string in
  if decide (z < 0)%Z then ("-" +:+ body)%string else body.

(** [fmt.Sprintf("%v", v)]. *)
Fixpoint fmtV (v : any) : string :=
  match v with
  | ANil => "<nil>"
  | ABool b => if b then "true" else "false"
  | AInt z => pretty z
  | AFloat z => format_float z
  | AStr s => s
  | ABytes b => ("[" +:+ join " " (map (fun c => pretty (Ascii.nat_of_ascii c)) (string_to_list b)) +:+ "]")%string
  | AArr l => ("[" +:+ join " " (map fmtV l) +:+ "]")%string
  | AMap es => ("map[" +:+ join " " (map (fun kv => fst kv +:+ ":" +:+ fmtV (snd kv)) es) +:+ "]")%string
  | AOther _ t _ => t
  end.

(** The [float64] nearest to an integer (ties to even): 53 significant bits. *)
Definition round_float (z : Z) : Z :=
  let a := Z.abs z in
  if decide (a <= 2 ^ 53)%Z then z
  else
    let k := (Z.log2 a - 52)%Z in
    let q := (a / 2 ^ k)%Z in
    let r := (a mod 2 ^ k)%Z in
    let half := (2 ^ (k - 1))%Z in
    let up := (if decide (r < half)%Z then 0
               else if decide (half < r)%Z then 1 else q mod 2)%Z in
    (Z.sgn z * ((q + up) * 2 ^ k))%Z.

Definition base64_alphabet : string :=
  "ABCDEFGHIJKLMNOPQRSTUVWXYZabcdefghijklmnopqrstuvwxyz0123456789+/".
Definition base64_char (n : nat) : Ascii.ascii :=
  default "="%char (string_to_list base64_alphabet !! n).
Fixpoint base64 (l : list nat) : list Ascii.ascii :=
  match l with
  | [] => []
  | [a] => [base64_char (a / 4); base64_char (a mod 4 * 16); "="%char; "="%char]
  | [a; b] => [base64_char (a / 4); base64_char (a mod 4 * 16 + b / 16);
               base64_char (b mod 16 * 4); "="%char]
  | a :: b :: c :: l' =>
      base64_char (a / 4) :: base64_char (a mod 4 * 16 + b / 16)
        :: base64_char (b mod 16 * 4 + c / 64) :: base64_char (c mod 64) :: base64 l'
  end.
Definition base64_string (b : string) : string :=
  list_to_string (base64 (map Ascii.nat_of_ascii (string_to_list b))).

(** [json.Marshal] followed by [json.Unmarshal] into an [any]: every number comes
    back as a [float64], bytes as their base64 text. *)
Fixpoint json_rt (v : any) : any :=
  match v with
  | ANil => ANil
  | ABool b => ABool b
  | AInt z => AFloat (round_float z)
  | AFloat z => AFloat z
  | AStr s => AStr s
  | ABytes b => AStr (base64_string b)
  | AArr l => AArr (map json_rt l)
  | AMap es => AMap (map (fun kv => (fst kv, json_rt (snd kv))) es)
  | AOther _ _ j => j
  end.

Definition is_nil (v : any) : bool := match v with ANil => true | _ => false end.

End Value.

Export Value.

(** A row's data: Go's [map[string]any], which may be nil. *)
Abbreviation columns := (gmap string any).
Abbreviation data := (option (gmap string any)).

(** ** Change events (event.go) *)
Module Event.

Inductive Operation :=
  | OperationInsert | OperationUpdate | OperationDelete | OperationTruncate | OperationRead
  | OperationInvalid (n : Z). (* any other value of the int type *)

#[export] Instance Operation_eq_dec : EqDecision Operation.
Proof. solve_decision. Defined.

Definition Operation_String (o : Operation) : string :=
  match o with
  | OperationInsert => "INSERT"
  | OperationUpdate => "UPDATE"
  | OperationDelete => "DELETE"
  | OperationTruncate => "TRUNCATE"
  | OperationRead => "READ"
  | OperationInvalid _ => "UNKNOWN"
  end.

(** [UnmarshalJSON] once the JSON string is read. *)
Definition Operation_Unmarshal (s : string) : Operation :=
  if decide (s = "INSERT") then OperationInsert
  else if decide (s = "UPDATE") then OperationUpdate
  else if decide (s = "DELETE") then OperationDelete
  else if decide (s = "TRUNCATE") then OperationTruncate
  else if decide (s = "READ") then OperationRead
  else OperationInsert.

(** [MarshalJSON] writes the operation as its string. *)
Definition Operation_Marshal (o : Operation) : string := Operation_String o.

Definition known_operation (o : Operation) : bool :=
  match o with OperationInvalid _ => false | _ => true end.

Record EventMetadata := {
  LSN : string;
  TransactionID : Z;
  Timestamp : Z;
}.

Record CDCEvent := {
  ID : string;
  Op : Operation;
  Schema : string;
  Table : string;
  OldData : data;
  NewData : data;
  UnchangedToastColumns : list string;
  Metadata : EventMetadata;
}.

Definition FullTableName (e : CDCEvent) : string := (Schema e +:+ "." +:+ Table e)%string.

Definition set_NewData (d : data) (e : CDCEvent) : CDCEvent :=
  {| ID := ID e; Op := Op e; Schema := Schema e; Table := Table e; OldData := OldData e;
     NewData := d; UnchangedToastColumns := UnchangedToastColumns e; Metadata := Metadata e |}.
Definition set_OldData (d : data) (e : CDCEvent) : CDCEvent :=
  {| ID := ID e; Op := Op e; Schema := Schema e; Table := Table e; OldData := d;
     NewData := NewData e; UnchangedToastColumns := UnchangedToastColumns e; Metadata := Metadata e |}.

Definition data_json_rt (d : data) : data :=
  option_map (fun m : gmap string any => json_rt <$> m) d.

(** An event after [encoding/json] wrote and read it back (dlq.go). *)
Definition event_json_rt (e : CDCEvent) : CDCEvent :=
  {| ID := ID e; Op := Operation_Unmarshal (Operation_Marshal (Op e));
     Schema := Schema e; Table := Table e;
     OldData := data_json_rt (OldData e); NewData := data_json_rt (NewData e);
     UnchangedToastColumns := UnchangedToastColumns e; Metadata := Metadata e |}.

Lemma Operation_roundtrip o :
  Operation_Unmarshal (Operation_Marshal o) =
  if known_operation o then o else OperationInsert.
Proof. destruct o; reflexivity. Qed.

End Event.

Export Event.

(** ** Dead-letter entries (dlq.go) *)
Record DeadLetterEntry := {
  dl_ID : string;
  dl_SinkName : string;
  dl_Schema : string;
  dl_Table : string;
  dl_Operation : string;
  dl_LSN : string;
  dl_Error : string;
  dl_Attempts : Z;
  dl_FirstFailedAt : Z;
  dl_LastFailedAt : Z;
  dl_Event : CDCEvent;
}.

Record RetryResult := { Retried : Z; Succeeded : Z; Failed : Z }.

(** A [time.Duration] is an int64: arithmetic on it wraps. *)
Definition Duration (d : Z) : Z := ((d + 2 ^ 63) mod 2 ^ 64 - 2 ^ 63)%Z.
#[global] Arguments Duration : simpl never.
Lemma Duration_id d : (- 2 ^ 63 <= d < 2 ^ 63)%Z -> Duration d = d.
Proof. intros Hd. unfold Duration. rewrite Z.mod_small by lia. lia. Qed.

(** ** Contexts and time

    A context is what the callers here derive from a root context: the root's
    cancellation flag, read from the world, and an optional deadline. *)
Class World (W : Type) := {
  now : W -> Z;          (* the clock, in nanoseconds *)
  cancelled : W -> bool; (* the root context was cancelled *)
}.

#[export] Instance World_pair {S W} `{!World W} : World (S * W) :=
  {| now := fun w => now w.2; cancelled := fun w => cancelled w.2 |}.

Record Ctx := { deadline : option Z }.

Definition Background : Ctx := {| deadline := None |}.

Definition ctx_err {W} `{!World W} (c : Ctx) (w : W) : option error :=
  if cancelled w then Some (ESentinel Canceled)
  else match deadline c with
       | Some d => if decide (d <= now w)%Z then Some (ESentinel DeadlineExceeded) else None
       | None => None
       end.

Definition WithTimeout {W} `{!World W} (c : Ctx) (w : W) (timeout : Z) : Ctx :=
  let d := (now w + timeout)%Z in
  {| deadline := Some (match deadline c with Some d' => Z.min d d' | None => d end) |}.

(** ** The [Sink] interface (sink.go) *)
Record Sink (W : Type) := {
  Name : string;
  Initialize : ST W (option error);
  Process : Ctx -> list CDCEvent -> ST W (option error);
  Shutdown : ST W (option error);
  HealthCheck : ST W (option error);
  (* [BatchLimiter] and [Router], when the sink implements them *)
  batch_limiter : option Z;
  router : option (string -> string -> Operation -> bool);
}.
Arguments Name {W}. Arguments Initialize {W}. Arguments Process {W}.
Arguments Shutdown {W}. Arguments HealthCheck {W}.
Arguments batch_limiter {W}. Arguments router {W}.

Definition MaxBatchEvents {W} (s : Sink W) : Z :=
  match batch_limiter s with Some n => n | None => 0 end.

Definition Wants {W} (s : Sink W) (schema table : string) (op : Operation) : bool :=
  match router s with Some r => r schema table op | None => true end.

Record SinkResult := {
  sr_SinkName : string;
  sr_Success : bool;
  sr_Error : option error;
  sr_Duration : Z;
}.

(** A value or an error: Go's [(T, error)]. *)
Definition res (A : Type) : Type := A + error.

(** ** Observing a sink

    [logged s] behaves as [s] and appends every [Process] call with its result to
    a log, so that a decorator's theorem can speak of the calls it made, for
    every inner sink. *)
Definition call : Type := list CDCEvent * option error.

Definition logged_process {W} (s : Sink W) (c : Ctx) (events : list CDCEvent)
    : ST (list call * W) (option error) :=
  fun '(log, w) =>
    let '(r, w') := Process s c events w in (r, (log ++ [(events, r)], w')).

Definition logged {W} (s : Sink W) : Sink (list call * W) :=
  {| Name := Name s;
     Initialize := inner (Initialize s);
     Process := logged_process s;
     Shutdown := inner (Shutdown s);
     HealthCheck := inner (HealthCheck s);
     batch_limiter := batch_limiter s;
     router := router s |}.

(** The events of the successful calls of a log, in call order. *)
Definition delivered (log : list call) : list CDCEvent :=
  concat (map (fun c => match c.2 with None => c.1 | Some _ => [] end) log).

Lemma delivered_app l1 l2 : delivered (l1 ++ l2) = delivered l1 ++ delivered l2.
Proof. unfold delivered. by rewrite map_app, concat_app. Qed.

#[export] Hint Rewrite delivered_app : gtc_rw.

(** ** Sample values for the witnesses *)
#[export] Instance World_unit : World unit := {| now := fun _ => 0%Z; cancelled := fun _ => false |}.

Definition sample_event (id schema table : string) (op : Operation) (old new : data) : CDCEvent :=
  {| ID := id; Op := op; Schema := schema; Table := table; OldData := old; NewData := new;
     UnchangedToastColumns := [];
     Metadata := {| LSN := id; TransactionID := 7; Timestamp := 0 |} |}.

Definition sample_insert (id : string) : CDCEvent :=
  sample_event id "public" "users" OperationInsert None (Some {[ "id" := AStr id ]}).

(** A sink that answers every batch with [reply]. *)
Definition constant_sink (name : string) (reply : list CDCEvent -> option error) : Sink unit :=
  {| Name := name; Initialize := ret None; Process := fun _ events => ret (reply events);
     Shutdown := ret None; HealthCheck := ret None; batch_limiter := None; router := None |}.
