(* ===== verification/DeadLetter.v ===== *)
(** * Dead-lettering (src/internal/infrastructure/dlq: sink.go, manager.go)

    [Manager] counts failures per sink and event and serves the triage API; the
    sink decorator [Process] isolates the events that fail on their own by
    bisection and parks them.  The decorated sink and the [Store] are arbitrary:
    they act on a shared world [W].  The main theorem accounts for every event of
    a batch: what the sink accepted and what was parked, in order, is the batch. *)

From Stdlib Require Import ZArith Lia Ascii String.
From stdpp Require Import base list gmap strings pretty.
From S2P Require Import Prelude Domain.

Open Scope go_scope.

(** ** The [Store] interface (store.go, lines 20-31) *)
Record Store (W : Type) := {
  st_Park : Ctx -> DeadLetterEntry -> ST W (option error);
  st_Get : Ctx -> string -> ST W (res DeadLetterEntry);
  st_List : Ctx -> Z -> ST W (res (list DeadLetterEntry));
  st_Remove : Ctx -> string -> ST W (option error);
  st_Len : Ctx -> ST W (res Z);
}.
Arguments st_Park {W}. Arguments st_Get {W}. Arguments st_List {W}.
Arguments st_Remove {W}. Arguments st_Len {W}.

(** ** The manager's state *)
Record failureRecord := { fr_count : Z; fr_first : Z }.
Definition zero_record : failureRecord := {| fr_count := 0; fr_first := 0 |}.

Record Manager (W : Type) := {
  m_threshold : Z;
  m_retryTimeout : Z;
  m_failures : gmap string failureRecord;
  m_sinks : gmap string (Sink W);
}.
Arguments m_threshold {W}. Arguments m_retryTimeout {W}.
Arguments m_failures {W}. Arguments m_sinks {W}.

Definition NewManager {W} (threshold retryTimeout : Z) : Manager W :=
  {| m_threshold := if decide (threshold <= 0)%Z then 3 else threshold;
     m_retryTimeout := if decide (retryTimeout <= 0)%Z then 10 * 1000000000 else retryTimeout;
     m_failures := ∅;
     m_sinks := ∅ |}.

Definition set_failures {W} (f : gmap string failureRecord) (m : Manager W) : Manager W :=
  {| m_threshold := m_threshold m; m_retryTimeout := m_retryTimeout m;
     m_failures := f; m_sinks := m_sinks m |}.

(** The failure map's key and the entry id: ["<sink>:<event_id>"]. *)
Definition entry_key (sinkName eventID : string) : string :=
  (sinkName +:+ ":" +:+ eventID)%string.

Section manager.
Context {W : Type} `{!World W}.

Definition recordFailure (sinkName eventID : string) : ST (Manager W * W) (Z * Z * bool) :=
  fun '(m, w) =>
    let key := entry_key sinkName eventID in
    let rec := default zero_record (m_failures m !! key) in
    let first := if decide (fr_count rec = 0)%Z then now w else fr_first rec in
    let rec' := {| fr_count := fr_count rec + 1; fr_first := first |} in
    ((fr_count rec', fr_first rec', bool_decide (m_threshold m <= fr_count rec')%Z),
     (set_failures (<[key := rec']> (m_failures m)) m, w)).

Definition clearFailure (sinkName eventID : string) (m : Manager W) : Manager W :=
  set_failures (delete (entry_key sinkName eventID) (m_failures m)) m.

Definition failureInfo (sinkName eventID : string) (m : Manager W) (w : W) : Z * Z :=
  match m_failures m !! entry_key sinkName eventID with
  | Some rec => if decide (0 < fr_count rec)%Z then (fr_count rec, fr_first rec) else (1%Z, now w)
  | None => (1%Z, now w)
  end.

Definition clearFailures (sinkName : string) (events : list CDCEvent) (m : Manager W)
    : Manager W :=
  if decide (m_failures m = ∅) then m
  else set_failures
         (foldl (fun f e => delete (entry_key sinkName (ID e)) f) (m_failures m) events) m.

Variable store : Store W.

Definition updateDepthGauge (c : Ctx) : ST W unit :=
  seq! st_Len store c in ret tt.

(** [Manager.park]. *)
Definition park (c : Ctx) (sinkName : string) (event : CDCEvent) (cause : error)
    (attempts firstFailed : Z) : ST (Manager W * W) (option error) :=
  let! '(_, w) := get in
  let entry :=
    {| dl_ID := entry_key sinkName (ID event);
       dl_SinkName := sinkName;
       dl_Schema := Schema event;
       dl_Table := Table event;
       dl_Operation := Operation_String (Op event);
       dl_LSN := LSN (Metadata event);
       dl_Error := Error cause;
       dl_Attempts := attempts;
       dl_FirstFailedAt := firstFailed;
       dl_LastFailedAt := now w;
       dl_Event := event |} in
  try! inner (st_Park store c entry) in
  seq! own (modify (clearFailure sinkName (ID event))) in
  seq! inner (updateDepthGauge c) in
  ret None.

(** ** The decorator (sink.go) *)
Variable s : Sink W.

(** [stalls]: failures that must never park anything. *)
Definition stalls (c : Ctx) (err : error) (w : W) : bool :=
  Is err ErrCircuitOpen || Is err DeadlineExceeded || isSome (ctx_err c w).

(** [Sink.park]. *)
Definition Sink_park (c : Ctx) (event : CDCEvent) (cause : error)
    : ST (Manager W * W) (option error) :=
  let! '(m, w) := get in
  let '(attempts, firstFailed) := failureInfo (Name s) (ID event) m w in
  let! parkErr := park c (Name s) event cause attempts firstFailed in
  ret (match parkErr with
       | Some e => Join [Some cause; Some e]
       | None => None
       end).

(** [Sink.isolate]; the recursion halves the batch, so its length is enough fuel. *)
Fixpoint isolate_fuel (fuel : nat) (c : Ctx) (events : list CDCEvent) (err : error)
    : ST (Manager W * W) (option error) :=
  match fuel with
  | 0 => ret (Some err)
  | S fuel' =>
      match events with
      | [event] => Sink_park c event err
      | _ =>
          let mid := length events / 2 in
          for_each (fun half =>
            let! herr := inner (Process s c half) in
            match herr with
            | None => seq! own (modify (clearFailures (Name s) half)) in ret None
            | Some herr =>
                let! '(_, w) := get in
                if stalls c herr w then ret (Some herr)
                else isolate_fuel fuel' c half herr
            end) [take mid events; drop mid events]
      end
  end.

Definition isolate (c : Ctx) (events : list CDCEvent) (err : error) :=
  isolate_fuel (length events) c events err.

Definition DLQ_Process (c : Ctx) (events : list CDCEvent) : ST (Manager W * W) (option error) :=
  match events with
  | [] => ret None
  | first :: _ =>
      let! r := inner (Process s c events) in
      match r with
      | None => seq! own (modify (clearFailures (Name s) events)) in ret None
      | Some err =>
          let! '(_, w) := get in
          if stalls c err w then ret (Some err)
          else if IsPermanent err then isolate c events err
          else
            let! '(_, _, reached) := recordFailure (Name s) (ID first) in
            if reached : bool then isolate c events err else ret (Some err)
      end
  end.

(** The decorated sink, as [WrapSink] returns it. *)
Definition DLQ_Sink : Sink (Manager W * W) :=
  {| Name := Name s;
     Initialize := inner (Initialize s);
     Process := DLQ_Process;
     Shutdown := inner (Shutdown s);
     HealthCheck := inner (HealthCheck s);
     batch_limiter := Some (MaxBatchEvents s);
     router := Some (Wants s) |}.

Definition WrapSink (m : Manager W) : Manager W * Sink (Manager W * W) :=
  ({| m_threshold := m_threshold m; m_retryTimeout := m_retryTimeout m;
      m_failures := m_failures m; m_sinks := <[Name s := s]> (m_sinks m) |}, DLQ_Sink).

(** ** Triage (manager.go, lines 160-237) *)
Definition Retry (c : Ctx) (id : string) : ST (Manager W * W) (option error) :=
  let! r := inner (st_Get store c id) in
  match r with
  | inr err => ret (Some err)
  | inl entry =>
      let! '(m, w) := get in
      match m_sinks m !! dl_SinkName entry with
      | None => ret (Some (EMsg ("sink " +:+ quoted (dl_SinkName entry) +:+ " is not active in this instance")))
      | Some sink =>
          let retryCtx := WithTimeout c w (m_retryTimeout m) in
          let! procErr := inner (Process sink retryCtx [dl_Event entry]) in
          match procErr with
          | Some pe =>
              let! '(_, w') := get in
              let entry' :=
                {| dl_ID := dl_ID entry; dl_SinkName := dl_SinkName entry;
                   dl_Schema := dl_Schema entry; dl_Table := dl_Table entry;
                   dl_Operation := dl_Operation entry; dl_LSN := dl_LSN entry;
                   dl_Error := Error pe; dl_Attempts := dl_Attempts entry + 1;
                   dl_FirstFailedAt := dl_FirstFailedAt entry; dl_LastFailedAt := now w';
                   dl_Event := dl_Event entry |} in
              seq! inner (st_Park store c entry') in
              ret (Some (EWrap "retry failed: " pe ""))
          | None =>
              let! rm := inner (st_Remove store c id) in
              match rm with
              | Some err =>
                  ret (Some (EWrap "retry succeeded but entry removal failed: " err ""))
              | None => seq! inner (updateDepthGauge c) in ret None
              end
          end
      end
  end.

(** The loop of [RetryAll] over the listed entries; [Some] is [ctx.Err()]. *)
Fixpoint retry_loop (c : Ctx) (entries : list DeadLetterEntry) (acc : RetryResult)
    : ST (Manager W * W) (RetryResult * option error) :=
  match entries with
  | [] => ret (acc, None)
  | entry :: rest =>
      let! '(_, w) := get in
      match ctx_err c w with
      | Some e => ret (acc, Some e)
      | None =>
          let! err := Retry c (dl_ID entry) in
          retry_loop c rest
            (match err with
             | Some _ => {| Retried := Retried acc + 1; Succeeded := Succeeded acc; Failed := Failed acc + 1 |}
             | None => {| Retried := Retried acc + 1; Succeeded := Succeeded acc + 1; Failed := Failed acc |}
             end)
      end
  end.

Definition RetryAll (c : Ctx) : ST (Manager W * W) (RetryResult * option error) :=
  let! r := inner (st_List store c 0) in
  match r with
  | inr err => ret ({| Retried := 0; Succeeded := 0; Failed := 0 |}, Some err)
  | inl entries => retry_loop c entries {| Retried := 0; Succeeded := 0; Failed := 0 |}
  end.

Definition Discard (c : Ctx) (id : string) : ST (Manager W * W) (option error) :=
  try! inner (st_Remove store c id) in
  seq! inner (updateDepthGauge c) in
  ret None.
End manager.

(** ** Observing the decorator

    The same inner sink and store, with every [Process] and [Park] call recorded. *)
Inductive obs :=
  | Called (sink : string) (events : list CDCEvent) (r : option error)
  | Parked (entry : DeadLetterEntry) (r : option error).

(** The events an observed call took responsibility for. *)
Definition accepted1 (o : obs) : list CDCEvent :=
  match o with
  | Called _ events None => events
  | Parked entry None => [dl_Event entry]
  | _ => []
  end.
Definition accepted (log : list obs) : list CDCEvent := concat (map accepted1 log).

Definition is_call (o : obs) : bool := match o with Called _ _ _ => true | _ => false end.
Definition calls (log : list obs) : nat := length (List.filter is_call log).

Definition obs_sink {W} (s : Sink W) : Sink (list obs * W) :=
  {| Name := Name s;
     Initialize := inner (Initialize s);
     Process := fun c events '(log, w) =>
       let '(r, w') := Process s c events w in (r, (log ++ [Called (Name s) events r], w'));
     Shutdown := inner (Shutdown s);
     HealthCheck := inner (HealthCheck s);
     batch_limiter := batch_limiter s;
     router := router s |}.

Definition obs_store {W} (st : Store W) : Store (list obs * W) :=
  {| st_Park := fun c entry '(log, w) =>
       let '(r, w') := st_Park st c entry w in (r, (log ++ [Parked entry r], w'));
     st_Get := fun c id => inner (st_Get st c id);
     st_List := fun c n => inner (st_List st c n);
     st_Remove := fun c id => inner (st_Remove st c id);
     st_Len := fun c => inner (st_Len st c) |}.

Lemma accepted_app l1 l2 : accepted (l1 ++ l2) = accepted l1 ++ accepted l2.
Proof. unfold accepted. by rewrite map_app, concat_app. Qed.
Lemma accepted_one o : accepted [o] = accepted1 o.
Proof. apply app_nil_r. Qed.
Lemma calls_app l1 l2 : calls (l1 ++ l2) = calls l1 + calls l2.
Proof. unfold calls. by rewrite List.filter_app, length_app. Qed.
#[export] Hint Rewrite accepted_app accepted_one calls_app : gtc_rw.

(** Result [r] for a batch whose accepted events are [acc]: on success all of
    them, in order; on failure an initial segment. *)
Definition accounts (r : option error) (events acc : list CDCEvent) : Prop :=
  match r with None => acc = events | Some _ => acc `prefix_of` events end.

(** [m] extends the log [lg] reads, and what it adds accounts for [events]. *)
Definition accounts_for {S} (lg : S -> list obs) (m : ST S (option error)) (events : list CDCEvent) : Prop :=
  forall s r s', m s = (r, s') -> exists new, lg s' = lg s ++ new /\ accounts r events (accepted new).

Lemma accounts_for_nil {S} (lg : S -> list obs) : accounts_for lg (ret None) [].
Proof. intros s r s' [= <- <-]. exists []. by rewrite app_nil_r. Qed.

Lemma accounts_for_guard {S} (lg : S -> list obs) m1 m2 e1 e2 :
  accounts_for lg m1 e1 -> accounts_for lg m2 e2 -> accounts_for lg (guard m1 m2) (e1 ++ e2).
Proof.
  intros H1 H2 s r s' Hrun. unfold guard, bind in Hrun. destruct (m1 s) as [r1 s1] eqn:Hm1.
  destruct (H1 _ _ _ Hm1) as (new1 & E1 & Hacc1). destruct r1 as [e|]; simpl in Hacc1.
  - injection Hrun as <- <-. exists new1. split; [done|]. simpl. by apply prefix_app_r.
  - destruct (H2 _ _ _ Hrun) as (new2 & E2 & Hacc2).
    exists (new1 ++ new2). rewrite E2, E1, accepted_app, Hacc1, app_assoc. split; [done|].
    destruct r; simpl in *; [by apply prefix_app | by rewrite Hacc2].
Qed.

Lemma accounts_for_each {S A} (lg : S -> list obs) (f : A -> ST S (option error)) (g : A -> list CDCEvent) l :
  (forall x, x ∈ l -> accounts_for lg (f x) (g x)) ->
  accounts_for lg (for_each f l) (concat (map g l)).
Proof.
  induction l as [|x l IH]; simpl; intros Hf; [apply accounts_for_nil|].
  apply accounts_for_guard; [apply Hf; set_solver | apply IH; set_solver].
Qed.

(** A call that takes all of [events] on success and none of them on failure. *)
Definition takes_whole {S} (lg : S -> list obs) (m : ST S (option error)) (events : list CDCEvent) : Prop :=
  forall s r s', m s = (r, s') ->
    exists new, lg s' = lg s ++ new /\ accepted new = match r with None => events | Some _ => [] end.

(** A sink that does so, and a store that does for the entries of one sink. *)
Definition whole_sink {W} (lg : W -> list obs) (s : Sink W) : Prop :=
  forall c events, takes_whole lg (Process s c events) events.
Definition whole_store {W} (lg : W -> list obs) (name : string) (st : Store W) : Prop :=
  (forall c entry, dl_SinkName entry = name -> takes_whole lg (st_Park st c entry) [dl_Event entry]) /\
  (forall c w, lg (st_Len st c w).2 = lg w).

(** The part of the log that is about one sink: its calls, and what was parked for it. *)
Definition about (name : string) (o : obs) : bool :=
  match o with
  | Called n _ _ => bool_decide (n = name)
  | Parked entry _ => bool_decide (dl_SinkName entry = name)
  end.
Definition of_sink (name : string) (log : list obs) : list obs := filter (fun o => about name o = true) log.

Lemma of_sink_app name l1 l2 : of_sink name (l1 ++ l2) = of_sink name l1 ++ of_sink name l2.
Proof. apply filter_app. Qed.
Lemma of_sink_one name o : about name o = true -> of_sink name [o] = [o].
Proof. intros H. unfold of_sink. by rewrite filter_cons, decide_True, filter_nil. Qed.
Lemma of_sink_prefix name l1 l2 : l1 `prefix_of` l2 -> of_sink name l1 `prefix_of` of_sink name l2.
Proof. intros [k ->]. rewrite of_sink_app. by eexists. Qed.

(** Both the whole log and the sink's part of it record what the sink takes. *)
Definition logs_sink (name : string) (view : list obs -> list obs) : Prop :=
  forall log o, about name o = true -> view (log ++ [o]) = view log ++ [o].
Lemma logs_all name : logs_sink name (fun log => log).
Proof. done. Qed.
Lemma logs_own name : logs_sink name (of_sink name).
Proof. intros log o Ho. by rewrite of_sink_app, of_sink_one. Qed.

Lemma obs_sink_whole {W} view (s : Sink W) :
  logs_sink (Name s) view -> whole_sink (fun w => view w.1) (obs_sink s).
Proof.
  intros Hv c events [log w] r [log' w'] H. simpl in H. destruct (Process s c events w) as [r0 w0].
  injection H as <- <- <-. exists [Called (Name s) events r0]. simpl.
  rewrite Hv by apply bool_decide_eq_true_2, eq_refl. split; [done|].
  autorewrite with gtc_rw. by destruct r0.
Qed.
Lemma obs_store_whole {W} view name (st : Store W) :
  logs_sink name view -> whole_store (fun w => view w.1) name (obs_store st).
Proof.
  intros Hv. split.
  - intros c entry Hn [log w] r [log' w'] H. simpl in H. destruct (st_Park st c entry w) as [r0 w0].
    injection H as <- <- <-. exists [Parked entry r0]. simpl.
    rewrite Hv by by apply bool_decide_eq_true_2. split; [done|]. autorewrite with gtc_rw. by destruct r0.
  - intros c [log w]. simpl. unfold inner. by destruct (st_Len st c w).
Qed.

Section accounting.
Context {W : Type} `{!World W} (lg : W -> list obs) (s : Sink W) (store : Store W).
Hypothesis s_whole : whole_sink lg s.
Hypothesis store_is_whole : whole_store lg (Name s) store.

Abbreviation mlg := (fun mw : Manager W * W => lg mw.2).

Lemma park_accounts c e err : accounts_for mlg (Sink_park store s c e err) [e].
Proof using store_is_whole.
  intros [mg w] r [mg' w'] Hrun. unfold Sink_park, park, updateDepthGauge in Hrun. run_st_in Hrun.
  destruct (failureInfo _ _ _ _) as [att ff]. run_st_in Hrun. destruct store_is_whole as [Hp Hl].
  destruct (st_Park store c _ w) as [[e1|] w1] eqn:Hpk; (edestruct Hp as (new & E & Hacc); [|exact Hpk|]; [done|]).
  - simplify_eq. exists new. simpl in *. split; [done|]. rewrite Hacc. apply prefix_nil.
  - pose proof (Hl c w1) as Hlen. destruct (st_Len store c w1) as [n w2]. simplify_eq. simpl in *.
    exists new. split; [congruence | exact Hacc].
Qed.

(** One round of [isolate] on a half, given how the recursive call behaves. *)
Lemma half_accounts c half (rec : error -> ST (Manager W * W) (option error)) :
  (forall herr, accounts_for mlg (rec herr) half) ->
  accounts_for mlg
    (let! herr := inner (Process s c half) in
     match herr with
     | None => seq! own (modify (clearFailures (Name s) half)) in ret None
     | Some herr =>
         let! '(_, w) := get in
         if stalls c herr w then ret (Some herr) else rec herr
     end) half.
Proof using s_whole.
  intros Hrec [mg w] r [mg' w'] Hrun. run_st_in Hrun.
  destruct (Process s c half w) as [[herr|] w1] eqn:Hp; destruct (s_whole _ _ _ _ _ Hp) as (new & E & Hacc).
  - destruct (stalls c herr _).
    + simplify_eq. exists new. split; [done|]. rewrite Hacc. apply prefix_nil.
    + destruct (Hrec _ _ _ _ Hrun) as (new2 & E2 & Hacc2). simpl in *.
      exists (new ++ new2). rewrite E2, E, accepted_app, Hacc, app_assoc. done.
  - simplify_eq. exists new. done.
Qed.

Lemma isolate_accounts fuel c events err :
  events <> [] -> length events <= fuel ->
  accounts_for mlg (isolate_fuel store s fuel c events err) events.
Proof using s_whole store_is_whole.
  revert events err. induction fuel as [|fuel IH]; intros events err Hne Hlen.
  { destruct events; simpl in Hlen; [congruence | lia]. }
  destruct events as [|e1 [|e2 rest]]; [congruence | apply park_accounts |].
  cbn [isolate_fuel]. set (events := e1 :: e2 :: rest) in *.
  destruct (half_lengths events) as (H1 & H2 & H3 & H4); [simpl; lia|].
  assert (Hcat : concat (map (fun half => half)
      [take (length events / 2) events; drop (length events / 2) events]) = events)
    by (simpl concat; by rewrite app_nil_r, take_drop).
  refine (eq_rect _ (accounts_for mlg _) _ _ Hcat).
  apply (accounts_for_each mlg _ (fun half => half)).
  intros half Hin. apply half_accounts. intros herr.
  apply elem_of_cons in Hin as [->|Hin%list_elem_of_singleton]; [|subst half];
    apply IH; try lia; intros Heq; rewrite Heq in *; simpl in *; lia.
Qed.

Lemma process_accounts c events : accounts_for mlg (DLQ_Process store s c events) events.
Proof using s_whole store_is_whole.
  destruct events as [|first rest]; [apply accounts_for_nil|].
  cbn [DLQ_Process]. set (events := first :: rest).
  apply half_accounts. intros err.
  assert (Hiso : accounts_for mlg (isolate store s c events err) events)
    by (apply isolate_accounts; done).
  destruct (IsPermanent err); [exact Hiso|].
  intros [mg w] r [mg' w'] Hrun. cbv [bind recordFailure] in Hrun.
  destruct (bool_decide _); [exact (Hiso _ _ _ Hrun)|].
  unfold ret in Hrun. simplify_eq. exists []. rewrite app_nil_r. split; [done|].
  apply prefix_nil.
Qed.
End accounting.

(** ** The cost of isolation

    A sink that rejects exactly the batches holding a bad event, with an error
    about the data, and a store that accepts every entry. *)
Section cost.
Context {W : Type} `{!World W} (s : Sink W) (store : Store W) (bad : CDCEvent -> bool).

Definition data_error (e : error) : Prop :=
  IsPermanent e = true /\ Is e ErrCircuitOpen = false /\ Is e DeadlineExceeded = false.

Definition rejects_bad (c : Ctx) : Prop :=
  forall events w,
    ctx_err c (Process s c events w).2 = None /\
    match (Process s c events w).1 with
    | None => existsb bad events = false
    | Some e => existsb bad events = true /\ data_error e
    end.

Definition bads (events : list CDCEvent) : nat := length (List.filter bad events).

Lemma bads_app l1 l2 : bads (l1 ++ l2) = bads l1 + bads l2.
Proof. unfold bads. by rewrite List.filter_app, length_app. Qed.

Lemma bads_none l : existsb bad l = false <-> bads l = 0.
Proof.
  unfold bads. induction l as [|x l IH]; simpl; [tauto|].
  destruct (bad x); simpl; [split; congruence | exact IH].
Qed.

(** [m] succeeds with at most [n] calls to the inner sink. *)
Definition costs (m : ST (Manager (list obs * W) * (list obs * W)) (option error)) (n : nat) : Prop :=
  forall mg log w, exists mg' new w',
    m (mg, (log, w)) = (None, (mg', (log ++ new, w'))) /\ calls new <= n.

Lemma costs_guard m1 m2 n1 n2 : costs m1 n1 -> costs m2 n2 -> costs (guard m1 m2) (n1 + n2).
Proof.
  intros H1 H2 mg log w.
  destruct (H1 mg log w) as (mg1 & new1 & w1 & E1 & L1).
  destruct (H2 mg1 (log ++ new1) w1) as (mg2 & new2 & w2 & E2 & L2).
  exists mg2, (new1 ++ new2), w2. unfold guard, bind. rewrite E1, E2, app_assoc.
  split; [done|]. rewrite calls_app. lia.
Qed.

Lemma costs_weaken m n n' : costs m n -> n <= n' -> costs m n'.
Proof.
  intros H Hle mg log w. destruct (H mg log w) as (mg' & new & w' & E & L).
  exists mg', new, w'. split; [done | lia].
Qed.

Variable c : Ctx.
Hypothesis Hsink : rejects_bad c.
Hypothesis Hstore : forall e w, (st_Park store c e w).1 = None.

Lemma park_costs e err : costs (Sink_park (obs_store store) (obs_sink s) c e err) 0.
Proof.
  intros mg log w. unfold Sink_park, park, updateDepthGauge. run_st.
  destruct (failureInfo _ _ _ _) as [att ff]. run_st.
  match goal with |- context [st_Park store c ?entry w] =>
    pose proof (Hstore entry w) as Hp; destruct (st_Park store c entry w) as [r w1] end.
  simpl in Hp. subst r. destruct (st_Len store c w1) as [n w2].
  eexists _, [_], _. split; [reflexivity|]. reflexivity.
Qed.

Lemma half_costs half (rec : error -> ST _ (option error)) n :
  (existsb bad half = true -> forall herr, data_error herr -> costs (rec herr) n) ->
  costs
    (let! herr := inner (Process (obs_sink s) c half) in
     match herr with
     | None => seq! own (modify (clearFailures (Name (obs_sink s)) half)) in ret None
     | Some herr =>
         let! '(_, w) := get in
         if stalls c herr w then ret (Some herr) else rec herr
     end) (if existsb bad half then S n else 1).
Proof.
  intros Hrec mg log w. run_st.
  destruct (Hsink half w) as [Hctx Hr].
  destruct (Process s c half w) as [[herr|] w1]; simpl in Hctx, Hr.
  - destruct Hr as [Hbad He]. rewrite Hbad.
    pose proof He as (_ & Ho & Hd).
    unfold stalls, ctx_err in *. simpl. rewrite Ho, Hd. simpl.
    simpl. rewrite Hctx. simpl.
    destruct (Hrec Hbad herr He mg (log ++ [Called (Name s) half (Some herr)]) w1)
      as (mg' & new & w' & E & L).
    exists mg', (Called (Name s) half (Some herr) :: new), w'. rewrite E, <- app_assoc.
    split; [done|]. unfold calls in *. simpl. lia.
  - rewrite Hr. eexists _, [_], _. split; [reflexivity|]. reflexivity.
Qed.

Lemma log2_up_half n h : 2 <= n -> h <= n - n / 2 -> S (Nat.log2_up h) <= Nat.log2_up n.
Proof.
  intros Hn Hh. pose proof (Nat.div_mod_eq n 2). pose proof (Nat.mod_upper_bound n 2).
  assert (Hup : Nat.log2_up (2 * (n - n / 2)) <= Nat.log2_up n).
  { destruct (Nat.eq_dec (n mod 2) 0); [apply Nat.log2_up_le_mono; lia|].
    apply Nat.log2_up_le_pow2; [lia|].
    destruct (Nat.log2_up_spec n) as [_ Hs]; [lia|].
    assert (n <> 2 ^ Nat.log2_up n).
    { intros Heq. assert (Nat.log2_up n <> 0) by (intros H0'; rewrite H0' in Heq; simpl in Heq; lia).
      destruct (Nat.log2_up n) as [|k]; [congruence|]. rewrite Nat.pow_succ_r' in Heq.
      rewrite Heq, Nat.mul_comm, Nat.Div0.mod_mul in n0. congruence. }
    lia. }
  rewrite Nat.log2_up_double in Hup by lia.
  pose proof (Nat.log2_up_le_mono h (n - n / 2) Hh). lia.
Qed.

(** The calls one half contributes, against its share of the bound. *)
Lemma half_bound (half : list CDCEvent) L :
  S (Nat.log2_up (length half)) <= L ->
  (if existsb bad half then S (2 * bads half * Nat.log2_up (length half)) else 1)
    <= 1 + 2 * bads half * (L - 1).
Proof.
  intros HL. destruct (existsb bad half) eqn:Hb; [|apply Nat.le_add_r].
  assert (2 * bads half * Nat.log2_up (length half) <= 2 * bads half * (L - 1))
    by (apply Nat.mul_le_mono_l; lia).
  lia.
Qed.

Lemma isolate_costs fuel events err :
  existsb bad events = true -> length events <= fuel ->
  costs (isolate_fuel (obs_store store) (obs_sink s) fuel c events err)
    (2 * bads events * Nat.log2_up (length events)).
Proof.
  revert events err. induction fuel as [|fuel IH]; intros events err Hbad Hlen.
  { destruct events; simpl in *; [congruence | lia]. }
  destruct events as [|e1 [|e2 rest]]; [discriminate | |].
  { eapply costs_weaken; [apply park_costs | lia]. }
  cbn [isolate_fuel]. set (events := e1 :: e2 :: rest) in *.
  destruct (half_lengths events) as (H1 & H2 & H3 & H4); [simpl; lia|].
  assert (Hn : 2 <= length events) by (simpl; lia).
  set (L := Nat.log2_up (length events)).
  assert (HL1 : S (Nat.log2_up (length (take (length events / 2) events))) <= L).
  { apply log2_up_half; [lia|]. rewrite length_take.
    pose proof (Nat.div_mod_eq (length events) 2). lia. }
  assert (HL2 : S (Nat.log2_up (length (drop (length events / 2) events))) <= L).
  { apply log2_up_half; [lia|]. rewrite length_drop. lia. }
  assert (Hsum : bads events = bads (take (length events / 2) events)
                             + bads (drop (length events / 2) events))
    by (rewrite <- bads_app, take_drop; reflexivity).
  assert (Hpos : 1 <= bads events).
  { destruct (bads events) eqn:E; [apply bads_none in E; congruence | lia]. }
  cbn [for_each].
  eapply costs_weaken.
  - apply costs_guard; [|apply costs_guard].
    + apply half_costs. intros Hb herr _. apply IH; [exact Hb | lia].
    + apply half_costs. intros Hb herr _. apply IH; [exact Hb | lia].
    + intros mg log w. exists mg, [], w. rewrite app_nil_r. split; [reflexivity|].
      apply (Nat.le_refl 0).
  - pose proof (half_bound _ L HL1). pose proof (half_bound _ L HL2).
    rewrite Hsum in *. nia.
Qed.

Lemma process_costs events :
  existsb bad events = true ->
  costs (DLQ_Process (obs_store store) (obs_sink s) c events)
    (1 + 2 * bads events * Nat.log2_up (length events)).
Proof.
  intros Hbad. destruct events as [|e rest]; [discriminate|]. cbn [DLQ_Process].
  set (events := e :: rest) in *.
  pose proof (half_costs events (fun err =>
      if IsPermanent err then isolate (obs_store store) (obs_sink s) c events err
      else let! '(_, _, reached) := recordFailure (Name (obs_sink s)) (ID e) in
           if reached : bool then isolate (obs_store store) (obs_sink s) c events err
           else ret (Some err)) (2 * bads events * Nat.log2_up (length events))) as H.
  rewrite Hbad in H. apply H. intros _ herr (-> & _). by apply isolate_costs.
Qed.
End cost.

(** ** Properties of the decorator *)

(** C5: A batch is fully accounted for.  For every inner sink, store and starting
    state, the events the sink accepted and the events parked during one [Process]
    call, concatenated in the order the calls were made, are exactly the batch when
    [Process] returns nil, and an initial segment of it when it returns an error:
    nothing is lost, skipped, duplicated or reordered. *)
Theorem dlq_accounts_for_every_event {W} `{!World W} (s : Sink W) (store : Store W)
    (c : Ctx) (events : list CDCEvent) mg log w :
  let '(r, (_, (log', _))) :=
    DLQ_Process (obs_store store) (obs_sink s) c events (mg, (log, w)) in
  exists new, log' = log ++ new /\
    match r with
    | None => accepted new = events
    | Some _ => accepted new `prefix_of` events
    end.
Proof.
  destruct (DLQ_Process _ _ _ _ _) as [r [mg' [log' w']]] eqn:Hrun.
  exact (process_accounts fst (obs_sink s) (obs_store store) (obs_sink_whole _ s (logs_all _))
           (obs_store_whole _ _ store (logs_all _)) c events _ _ _ Hrun).
Qed.

(** C22: Isolating [k] bad events of a batch of [n], where the sink rejects each
    permanently and the store accepts what is parked, takes at most [1 + 2 k log2(n)]
    calls to the inner sink, the logarithm rounded up, and succeeds: with a single
    poison row the cost is logarithmic in the batch, as sink.go promises. *)
Theorem dlq_isolation_cost {W} `{!World W} (s : Sink W) (store : Store W)
    (bad : CDCEvent -> bool) (c : Ctx) (events : list CDCEvent) mg w :
  rejects_bad s bad c ->
  (forall e w, (st_Park store c e w).1 = None) ->
  existsb bad events = true ->
  let '(r, (_, (log, _))) :=
    DLQ_Process (obs_store store) (obs_sink s) c events (mg, ([], w)) in
  r = None /\ calls log <= 1 + 2 * bads bad events * Nat.log2_up (length events).
Proof.
  intros Hs Hst Hbad.
  destruct (process_costs s store bad c Hs Hst events Hbad mg [] w)
    as (mg' & new & w' & -> & Hle).
  auto.
Qed.

(** An outage never parks anything.  When the inner sink's error says the
    circuit is open or the attempt timed out, or the context is done, [Process]
    returns that error, the failure counts are untouched, and neither the sink nor
    the store is called again. *)
Theorem dlq_outage_stalls {W} `{!World W} (s : Sink W) (store : Store W)
    (c : Ctx) (e : CDCEvent) (rest : list CDCEvent) mg w err w' :
  Process s c (e :: rest) w = (Some err, w') ->
  stalls c err w' = true ->
  DLQ_Process store s c (e :: rest) (mg, w) = (Some err, (mg, w')).
Proof. intros Hp Hst. cbn [DLQ_Process]. run_st. by rewrite Hp, Hst. Qed.

(** Failures recorded for one event of one sink. *)
Definition failure_count {W} (mg : Manager W) (sinkName eventID : string) : Z :=
  fr_count (default zero_record (m_failures mg !! entry_key sinkName eventID)).

(** A transient failure gets [threshold] full cycles.  When the batch fails
    with an error that neither stalls nor is about the data, the count of its first
    event goes up by one; below the threshold the error propagates (the stream
    replays the batch), and from the threshold on the batch is isolated. *)
Theorem dlq_transient_threshold {W} `{!World W} (s : Sink W) (store : Store W)
    (c : Ctx) (e : CDCEvent) (rest : list CDCEvent) mg w err w' :
  Process s c (e :: rest) w = (Some err, w') ->
  stalls c err w' = false -> IsPermanent err = false ->
  exists mg',
    failure_count mg' (Name s) (ID e) = (failure_count mg (Name s) (ID e) + 1)%Z /\
    (forall k, k <> entry_key (Name s) (ID e) -> m_failures mg' !! k = m_failures mg !! k) /\
    DLQ_Process store s c (e :: rest) (mg, w) =
      if bool_decide (m_threshold mg <= failure_count mg' (Name s) (ID e))%Z
      then isolate store s c (e :: rest) err (mg', w')
      else (Some err, (mg', w')).
Proof.
  intros Hp Hst Hperm. exists (recordFailure (Name s) (ID e) (mg, w')).2.1.
  assert (Hc : failure_count (recordFailure (Name s) (ID e) (mg, w')).2.1 (Name s) (ID e)
               = (failure_count mg (Name s) (ID e) + 1)%Z)
    by (unfold failure_count; simpl; by rewrite lookup_insert_eq).
  split; [exact Hc | split].
  - intros k Hk. simpl. by rewrite lookup_insert_ne.
  - rewrite Hc. cbn [DLQ_Process]. run_st. rewrite Hp, Hst, Hperm.
    unfold recordFailure, failure_count. by destruct (bool_decide _).
Qed.

(** ** Witnesses *)
Definition poison (e : CDCEvent) : bool := bool_decide (ID e = "0/3").
Definition poison_sink : Sink unit :=
  constant_sink "meilisearch"
    (fun events => if existsb poison events then Some (EPermanent (EMsg "bad document")) else None).
Definition sick_sink (err : error) : Sink unit := constant_sink "nats" (fun _ => Some err).
Definition open_store : Store unit :=
  {| st_Park := fun _ _ => ret None; st_Get := fun _ _ => ret (inr (ESentinel ErrNotFound));
     st_List := fun _ _ => ret (inl []); st_Remove := fun _ _ => ret None;
     st_Len := fun _ => ret (inl 0%Z) |}.
Definition five_inserts : list CDCEvent := map sample_insert ["0/1"; "0/2"; "0/3"; "0/4"; "0/5"].

Lemma poison_sink_rejects : rejects_bad poison_sink poison Background.
Proof.
  intros events []. split; [reflexivity|]. simpl. unfold data_error.
  by destruct (existsb poison events).
Qed.

Lemma dlq_isolation_cost_witness :
  let '(r, (_, (log, _))) :=
    DLQ_Process (obs_store open_store) (obs_sink poison_sink) Background five_inserts
      (NewManager 3 0, ([], tt)) in
  r = None /\ calls log <= 1 + 2 * bads poison five_inserts * Nat.log2_up (length five_inserts).
Proof.
  apply (dlq_isolation_cost poison_sink open_store poison Background five_inserts
           (NewManager 3 0) tt).
  - exact poison_sink_rejects.
  - reflexivity.
  - vm_compute. reflexivity.
Defined.

Lemma dlq_outage_stalls_witness :
  DLQ_Process open_store (sick_sink (EWrap "" (ESentinel ErrCircuitOpen) ": open")) Background
    five_inserts (NewManager 3 0, tt)
  = (Some (EWrap "" (ESentinel ErrCircuitOpen) ": open"), (NewManager 3 0, tt)).
Proof. apply dlq_outage_stalls; vm_compute; reflexivity. Defined.

Lemma dlq_transient_threshold_witness :
  exists mg',
    failure_count mg' "nats" "0/1" = 1%Z /\
    (forall k, k <> entry_key "nats" "0/1" -> m_failures mg' !! k = None) /\
    DLQ_Process open_store (sick_sink (EMsg "503")) Background five_inserts (NewManager 3 0, tt)
    = (Some (EMsg "503"), (mg', tt)).
Proof.
  destruct (dlq_transient_threshold (sick_sink (EMsg "503")) open_store Background
              (sample_insert "0/1") (map sample_insert ["0/2"; "0/3"; "0/4"; "0/5"])
              (NewManager 3 0) tt (EMsg "503") tt)
    as (mg' & Hc & Hk & Hrun); [reflexivity | reflexivity | reflexivity |].
  exists mg'. split; [exact Hc | split].
  - intros k Hne. rewrite (Hk k Hne). reflexivity.
  - rewrite Hc in Hrun. exact Hrun.
Defined.
