(* ===== verification/DLQStore.v ===== *)
(** * The dead-letter store in Redis (src/internal/infrastructure/dlq/store.go)

    Entries in a hash from id to JSON, indexed by a sorted set of ids scored by the
    time of the last failure.  Redis is a parameter: each round trip may fail, and a
    failed transaction may have been applied or not.  The store refines a map from
    ids to entries, as JSON reads them back, and its listing is newest first. *)

From Stdlib Require Import ZArith Lia Ascii String.
From stdpp Require Import base list gmap strings pretty sorting.
From S2P Require Import Prelude Domain DeadLetter.

Open Scope go_scope.

(** The hash (what [json.Unmarshal] makes of each value) and the index. *)
Record redis_keys := { rd_hash : gmap string (res DeadLetterEntry); rd_index : gmap string Z }.
Definition empty_keys : redis_keys := {| rd_hash := ∅; rd_index := ∅ |}.

(** An entry after [json.Marshal] and [json.Unmarshal]. *)
Definition entry_json_rt (e : DeadLetterEntry) : DeadLetterEntry :=
  {| dl_ID := dl_ID e; dl_SinkName := dl_SinkName e; dl_Schema := dl_Schema e; dl_Table := dl_Table e;
     dl_Operation := dl_Operation e; dl_LSN := dl_LSN e; dl_Error := dl_Error e;
     dl_Attempts := dl_Attempts e; dl_FirstFailedAt := dl_FirstFailedAt e;
     dl_LastFailedAt := dl_LastFailedAt e; dl_Event := event_json_rt (dl_Event e) |}.

(** [time.UnixMilli] of a time in nanoseconds. *)
Definition UnixMilli (t : Z) : Z := (t / 1000000)%Z.

(** The order of a sorted set read backwards: by score, then by member bytes. *)
Definition newer (a b : string * Z) : Prop :=
  (b.2 < a.2)%Z \/ (b.2 = a.2 /\ (b.1 <=? a.1)%string = true).
#[export] Instance newer_dec a b : Decision (newer a b).
Proof. unfold newer. apply _. Defined.
#[export] Instance newer_total : Total newer.
Proof.
  intros a b. unfold newer. destruct (Z.lt_total a.2 b.2) as [?|[?|?]]; [by right; left | | by left; left].
  destruct (leb_total b.1 a.1); [by left; right | by right; right].
Qed.

(** [ZREVRANGE index 0 stop] *)
Definition ZRevRange (index : gmap string Z) (limit : Z) : list string :=
  let all := map fst (merge_sort newer (map_to_list index)) in
  if decide (0 < limit)%Z then take (Z.to_nat limit) all else all.

Section store.
Context {W : Type} (maxEntries : Z).
(** A read's error, a transaction's fate (applied, and the error), and what
    [json.Marshal] refuses. *)
Context (reply : ST W (option error)) (exec : ST W (bool * option error)).
Context (marshal_err : DeadLetterEntry -> option error).

Definition put_entry (entry : DeadLetterEntry) (k : redis_keys) : redis_keys :=
  {| rd_hash := <[dl_ID entry := inl (entry_json_rt entry)]> (rd_hash k);
     rd_index := <[dl_ID entry := UnixMilli (dl_LastFailedAt entry)]> (rd_index k) |}.
Definition drop_entry (id : string) (k : redis_keys) : redis_keys :=
  {| rd_hash := delete id (rd_hash k); rd_index := delete id (rd_index k) |}.

(** One [TxPipeline]: all of [f] or nothing. *)
Definition transaction (f : redis_keys -> redis_keys) : ST (redis_keys * W) (option error) :=
  fun '(k, w) => let '((applied, err), w') := exec w in (err, (if (applied : bool) then f k else k, w')).

Definition park_write (entry : DeadLetterEntry) : ST (redis_keys * W) (option error) :=
  match marshal_err entry with
  | Some e => ret (Some (EWrap "dlq: marshal entry: " e ""))
  | None =>
      let! err := transaction (put_entry entry) in
      ret ((fun e => EWrap "dlq: park entry: " e "") <$> err)
  end.

Definition Store_Park (c : Ctx) (entry : DeadLetterEntry) : ST (redis_keys * W) (option error) :=
  let! err := inner reply in
  match err with
  | Some e => ret (Some (EWrap "dlq: check entry: " e ""))
  | None =>
      let! '(k, _) := get in
      if negb (isSome (rd_hash k !! dl_ID entry)) && bool_decide (0 < maxEntries)%Z then
        let! err := inner reply in
        match err with
        | Some e => ret (Some (EWrap "dlq: size check: " e ""))
        | None =>
            let! '(k, _) := get in
            let size := Z.of_nat (base.size (rd_index k)) in
            if decide (maxEntries <= size)%Z
            then ret (Some (EWrap "" (ESentinel ErrFull) (" (" +:+ pretty size +:+ " entries)")%string))
            else park_write entry
        end
      else park_write entry
  end.

Definition Store_Get (c : Ctx) (id : string) : ST (redis_keys * W) (res DeadLetterEntry) :=
  let! err := inner reply in
  match err with
  | Some e => ret (inr (EWrap "dlq: get entry: " e ""))
  | None =>
      let! '(k, _) := get in
      ret match rd_hash k !! id with
          | None => inr (ESentinel ErrNotFound)
          | Some (inr e) => inr (EWrap ("dlq: corrupt entry " +:+ id +:+ ": ")%string e "")
          | Some (inl entry) => inl entry
          end
  end.

(** [HMGET], with the ids it does not know and the values that do not decode skipped. *)
Definition fetched (k : redis_keys) (id : string) : option DeadLetterEntry :=
  match rd_hash k !! id with Some (inl entry) => Some entry | _ => None end.
Definition Store_List (c : Ctx) (limit : Z) : ST (redis_keys * W) (res (list DeadLetterEntry)) :=
  let! err := inner reply in
  match err with
  | Some e => ret (inr (EWrap "dlq: list index: " e ""))
  | None =>
      let! '(k, _) := get in
      match ZRevRange (rd_index k) limit with
      | [] => ret (inl [])
      | ids =>
          let! err := inner reply in
          match err with
          | Some e => ret (inr (EWrap "dlq: fetch entries: " e ""))
          | None => let! '(k, _) := get in ret (inl (omap (fetched k) ids))
          end
      end
  end.

Definition Store_Remove (c : Ctx) (id : string) : ST (redis_keys * W) (option error) :=
  let! '(k, _) := get in
  let! err := transaction (drop_entry id) in
  ret match err with
      | Some e => Some (EWrap "dlq: remove entry: " e "")
      | None => match rd_hash k !! id with None => Some (ESentinel ErrNotFound) | Some _ => None end
      end.

Definition Store_Len (c : Ctx) : ST (redis_keys * W) (res Z) :=
  let! err := inner reply in
  match err with
  | Some e => ret (inr e)
  | None => let! '(k, _) := get in ret (inl (Z.of_nat (base.size (rd_index k))))
  end.

Definition redisStore : Store (redis_keys * W) :=
  {| st_Park := Store_Park; st_Get := Store_Get; st_List := Store_List; st_Remove := Store_Remove;
     st_Len := Store_Len |}.

(** ** The store as a map *)
Definition stamp (e : DeadLetterEntry) : string * Z := (dl_ID e, UnixMilli (dl_LastFailedAt e)).

(** The keys that hold a map of entries: every value decodes, and the index lists
    exactly the entries, each scored by its time. *)
Record store_repr (k : redis_keys) (m : gmap string DeadLetterEntry) : Prop := {
  sr_hash : rd_hash k = inl <$> m;
  sr_index : rd_index k = (fun e => UnixMilli (dl_LastFailedAt e)) <$> m;
  sr_ids : map_Forall (fun id e => dl_ID e = id) m;
}.

(** Redis's own errors are not the store's, and a transaction acknowledged is applied. *)
Record redis_client : Prop := {
  rc_reply : forall w e w', reply w = (Some e, w') -> Is e ErrNotFound = false /\ Is e ErrFull = false;
  rc_exec : forall w b e w', exec w = ((b, e), w') ->
    match e with None => b = true | Some e => Is e ErrNotFound = false /\ Is e ErrFull = false end;
  rc_marshal : forall entry e, marshal_err entry = Some e -> Is e ErrFull = false;
}.

Definition parked_map (entry : DeadLetterEntry) (m : gmap string DeadLetterEntry) : gmap string DeadLetterEntry :=
  <[dl_ID entry := entry_json_rt entry]> m.

Lemma repr_put entry k m : store_repr k m -> store_repr (put_entry entry k) (parked_map entry m).
Proof.
  intros [Hh Hi Hids]. split; simpl; unfold parked_map; [by rewrite Hh, fmap_insert | by rewrite Hi, fmap_insert |].
  by apply map_Forall_insert_2.
Qed.
Lemma repr_drop id k m : store_repr k m -> store_repr (drop_entry id k) (delete id m).
Proof.
  intros [Hh Hi Hids]. split; simpl; [by rewrite Hh, fmap_delete | by rewrite Hi, fmap_delete | by apply map_Forall_delete].
Qed.

Lemma repr_lookup k m id : store_repr k m -> rd_hash k !! id = inl <$> (m !! id).
Proof. intros [-> _ _]. apply lookup_fmap. Qed.
Lemma repr_fetched k m id : store_repr k m -> fetched k id = m !! id.
Proof. intros H. unfold fetched. rewrite (repr_lookup _ _ _ H). by destruct (m !! id). Qed.
Lemma index_size k m : store_repr k m -> base.size (rd_index k) = base.size m.
Proof. intros [_ -> _]. apply map_size_fmap. Qed.

(** The entries in listing order. *)
Definition listing (m : gmap string DeadLetterEntry) (index : gmap string Z) : list DeadLetterEntry :=
  omap (fun id => m !! id) (map fst (merge_sort newer (map_to_list index))).

Lemma omap_lookup_stamps (m : gmap string DeadLetterEntry) l :
  map_Forall (fun id e => dl_ID e = id) m ->
  Forall (fun p => exists e, m !! p.1 = Some e /\ p.2 = UnixMilli (dl_LastFailedAt e)) l ->
  map stamp (omap (fun id => m !! id) (map fst l)) = l.
Proof.
  intros Hids Hl. induction Hl as [|[id s] l (e & He & Hs) Hl IH]; [done|]. simpl in *. rewrite He. simpl.
  f_equal; [|exact IH]. unfold stamp. by rewrite (Hids _ _ He), Hs.
Qed.
Lemma omap_lookup_values (m : gmap string DeadLetterEntry) l :
  Forall (fun p => m !! p.1 = Some p.2) l -> omap (fun id => m !! id) (map fst l) = map snd l.
Proof.
  intros Hl. induction Hl as [|[id e] l He Hl IH]; [done|]. simpl in *. rewrite He. simpl. by f_equal.
Qed.

Lemma omap_take_all {A B C} (f : A -> option B) (l : list (A * C)) n :
  Forall (fun p => is_Some (f p.1)) l -> omap f (take n (map fst l)) = take n (omap f (map fst l)).
Proof.
  intros Hl. revert n. induction Hl as [|[a x] l [b Hb] Hl IH]; intros [|n]; try done. simpl in *.
  rewrite Hb. simpl. f_equal. apply IH.
Qed.

Lemma sorted_known k m : store_repr k m ->
  Forall (fun p => exists e, m !! p.1 = Some e /\ p.2 = UnixMilli (dl_LastFailedAt e))
    (merge_sort newer (map_to_list (rd_index k))).
Proof.
  intros [_ Hi _]. apply Forall_forall. intros [id s] Hin.
  rewrite merge_sort_Permutation in Hin. apply elem_of_map_to_list in Hin. simpl.
  rewrite Hi, lookup_fmap in Hin. apply fmap_Some in Hin as (e & ? & ?). eauto.
Qed.

Lemma listing_spec k m : store_repr k m ->
  Sorted newer (map stamp (listing m (rd_index k))) /\ listing m (rd_index k) ≡ₚ map snd (map_to_list m).
Proof.
  intros Hk. pose proof (omap_lookup_stamps m _ (sr_ids _ _ Hk) (sorted_known k m Hk)) as Hst.
  unfold listing. rewrite Hst. split; [apply Sorted_merge_sort; apply _|].
  transitivity (omap (fun id => m !! id) (map fst (map_to_list (rd_index k)))).
  { apply omap_Permutation, Permutation_map, merge_sort_Permutation. }
  rewrite (sr_index _ _ Hk), map_to_list_fmap.
  change (map fst (?f <$> ?l)) with (fst <$> (f <$> l)). rewrite <- list_fmap_compose.
  rewrite <- (omap_lookup_values m (map_to_list m)); [done|]. apply Forall_forall. intros [id e]. apply elem_of_map_to_list.
Qed.

Lemma park_write_spec entry k m w :
  store_repr k m -> redis_client ->
  let '(r, (k', _)) := park_write entry (k, w) in
  match r with
  | None => store_repr k' (parked_map entry m)
  | Some e => (store_repr k' m \/ store_repr k' (parked_map entry m)) /\ Is e ErrFull = false
  end.
Proof.
  intros Hk Hc. unfold park_write. destruct (marshal_err entry) as [e|] eqn:Hm.
  - simpl. split; [by left | by eapply rc_marshal].
  - unfold bind, transaction, ret. destruct (exec w) as [[b err] w'] eqn:He.
    pose proof (rc_exec Hc _ _ _ _ He) as Hb. destruct err as [e|]; simpl.
    + destruct Hb as [_ Hf]. destruct b; auto using repr_put.
    + subst b. by apply repr_put.
Qed.

(** What each operation answers of the map [m] it finds, and what it leaves. *)
Definition park_answer (entry : DeadLetterEntry) (m : gmap string DeadLetterEntry) (r : option error)
    (m' : gmap string DeadLetterEntry) : Prop :=
  let parked := parked_map entry m in
  let full := m !! dl_ID entry = None /\ (0 < maxEntries <= Z.of_nat (base.size m))%Z in
  match r with
  | None => m' = parked /\ ~ full
  | Some e => if Is e ErrFull then m' = m /\ full else m' = m \/ (m' = parked /\ ~ full)
  end.
Definition get_answer (id : string) (m : gmap string DeadLetterEntry) (r : res DeadLetterEntry) : Prop :=
  match r with
  | inl e => m !! id = Some e
  | inr e => Is e ErrNotFound = true -> m !! id = None
  end.
Definition remove_answer (id : string) (m : gmap string DeadLetterEntry) (r : option error)
    (m' : gmap string DeadLetterEntry) : Prop :=
  match r with
  | None => is_Some (m !! id) /\ m' = delete id m
  | Some e => if Is e ErrNotFound then m !! id = None /\ m' = m else m' = m \/ m' = delete id m
  end.
Definition list_answer (limit : Z) (m : gmap string DeadLetterEntry) (r : res (list DeadLetterEntry)) : Prop :=
  forall l, r = inl l -> exists all,
    l = (if decide (0 < limit)%Z then take (Z.to_nat limit) all else all) /\
    Sorted newer (map stamp all) /\ all ≡ₚ map snd (map_to_list m).

Lemma Park_answers c entry k m w : store_repr k m -> redis_client ->
  let '(r, (k', _)) := Store_Park c entry (k, w) in exists m', store_repr k' m' /\ park_answer entry m r m'.
Proof.
  intros Hk Hc. unfold Store_Park. unfold bind at 1. simpl.
  destruct (reply w) as [[e|] w1] eqn:Hr; simpl.
  { destruct (rc_reply Hc _ _ _ Hr) as [_ Hf]. exists m. unfold park_answer. simpl. rewrite Hf. auto. }
  assert (Hwrite : forall w, ~ (m !! dl_ID entry = None /\ (0 < maxEntries <= Z.of_nat (base.size m))%Z) ->
    let '(r, (k', _)) := park_write entry (k, w) in exists m', store_repr k' m' /\ park_answer entry m r m').
  { intros w2 Hn. pose proof (park_write_spec entry k m w2 Hk Hc) as Hp.
    destruct (park_write entry (k, w2)) as [r [k' w3]]. unfold park_answer. destruct r as [e|]; [|eauto].
    destruct Hp as [[Hp|Hp] ->]; eauto. }
  unfold bind at 1, get. simpl. rewrite (repr_lookup _ _ _ Hk). destruct (m !! dl_ID entry) as [old|] eqn:Hold; simpl.
  { apply Hwrite. by intros [? _]. }
  destruct (bool_decide_reflect (0 < maxEntries)%Z) as [Hm|Hm]; cycle 1.
  { apply Hwrite. lia. }
  unfold bind at 1. simpl. destruct (reply w1) as [[e|] w2] eqn:Hr2; simpl.
  { destruct (rc_reply Hc _ _ _ Hr2) as [_ Hf]. exists m. unfold park_answer. simpl. rewrite Hf. auto. }
  unfold bind at 1. simpl. rewrite (index_size _ _ Hk). destruct (decide _) as [Hfull|Hfull].
  - exists m. split; [done|]. unfold park_answer. simpl. split_and!; [done | done | lia | lia].
  - apply Hwrite. lia.
Qed.

Lemma Get_answers c id k m w : store_repr k m -> redis_client ->
  let '(r, (k', _)) := Store_Get c id (k, w) in k' = k /\ get_answer id m r.
Proof.
  intros Hk Hc. unfold Store_Get. unfold bind at 1. simpl. destruct (reply w) as [[e|] w1] eqn:Hr; simpl.
  - destruct (rc_reply Hc _ _ _ Hr) as [Hn _]. split; [done|]. unfold get_answer. simpl. congruence.
  - unfold bind, get, ret, get_answer. rewrite (repr_lookup _ _ _ Hk). by destruct (m !! id).
Qed.

Lemma Remove_answers c id k m w : store_repr k m -> redis_client ->
  let '(r, (k', _)) := Store_Remove c id (k, w) in exists m', store_repr k' m' /\ remove_answer id m r m'.
Proof.
  intros Hk Hc. unfold Store_Remove, bind, get, transaction, ret. destruct (exec w) as [[b err] w1] eqn:He.
  pose proof (rc_exec Hc _ _ _ _ He) as Hb. unfold remove_answer. destruct err as [e|].
  - destruct Hb as [Hn _]. simpl. rewrite Hn. destruct b; eauto using repr_drop.
  - subst b. exists (delete id m). split; [by apply repr_drop|]. rewrite (repr_lookup _ _ _ Hk).
    destruct (m !! id) eqn:Hid; simpl; [by eauto|]. split; [done | by apply delete_id].
Qed.

Lemma Len_answers c k m w : store_repr k m ->
  let '(r, (k', _)) := Store_Len c (k, w) in k' = k /\ forall n, r = inl n -> n = Z.of_nat (base.size m).
Proof.
  intros Hk. unfold Store_Len. unfold bind at 1. simpl. destruct (reply w) as [[e|] w1]; simpl; [done|].
  unfold bind, get, ret. split; [done|]. intros n [= <-]. by rewrite (index_size _ _ Hk).
Qed.

Lemma List_answers c limit k m w : store_repr k m ->
  let '(r, (k', _)) := Store_List c limit (k, w) in k' = k /\ list_answer limit m r.
Proof.
  intros Hk. destruct (listing_spec k m Hk) as [Hs Hp].
  assert (Hl : omap (fetched k) (ZRevRange (rd_index k) limit) =
    if decide (0 < limit)%Z then take (Z.to_nat limit) (listing m (rd_index k)) else listing m (rd_index k)).
  { assert (Hf : forall ids : list string, omap (fetched k) ids = omap (fun id => m !! id) ids).
    { induction ids as [|id ids IH]; [done|]. cbn [omap list_omap] in *. by rewrite (repr_fetched _ _ _ Hk), IH. }
    rewrite Hf. unfold ZRevRange, listing. destruct (decide _); [|done]. apply omap_take_all.
    eapply Forall_impl; [apply (sorted_known k m Hk)|]. intros p (e & -> & _). by eauto. }
  unfold Store_List. unfold bind at 1. simpl. destruct (reply w) as [[e|] w1]; simpl; [done|].
  unfold bind at 1, get. simpl. destruct (ZRevRange (rd_index k) limit) as [|id0 ids] eqn:Hz.
  - split; [done|]. intros l [= <-]. exists (listing m (rd_index k)). by rewrite <- Hl.
  - unfold bind at 1. simpl. destruct (reply w1) as [[e|] w2]; simpl; [done|].
    unfold bind, ret. split; [done|]. intros l [= <-]. exists (listing m (rd_index k)). by rewrite <- Hl.
Qed.

(** C21: Over any Redis that fails now and then, the store is a map from entry ids to
    entries as JSON reads them back: parking inserts, and refuses a new entry exactly
    when the limit is reached; reading returns the entry or not found; removing
    deletes; the length is the map's; and a listing is the newest entries first, up to
    the limit.  A failed call leaves the map alone or, if only the reply was lost,
    has its effect. *)
Theorem redis_store_refines_a_map c k m w :
  store_repr k m -> redis_client ->
  (forall entry, let '(r, (k', _)) := Store_Park c entry (k, w) in
     exists m', store_repr k' m' /\ park_answer entry m r m') /\
  (forall id, let '(r, (k', _)) := Store_Get c id (k, w) in k' = k /\ get_answer id m r) /\
  (forall id, let '(r, (k', _)) := Store_Remove c id (k, w) in
     exists m', store_repr k' m' /\ remove_answer id m r m') /\
  (let '(r, (k', _)) := Store_Len c (k, w) in
     k' = k /\ forall n, r = inl n -> n = Z.of_nat (base.size m)) /\
  (forall limit, let '(r, (k', _)) := Store_List c limit (k, w) in k' = k /\ list_answer limit m r).
Proof.
  intros Hk Hc. split_and!.
  - intros entry. by apply Park_answers.
  - intros id. by apply Get_answers.
  - intros id. by apply Remove_answers.
  - by apply Len_answers.
  - intros limit. by apply List_answers.
Qed.
End store.

(** ** A Redis that answers every time *)
Definition up_reply : ST unit (option error) := ret None.
Definition up_exec : ST unit (bool * option error) := ret (true, None).
Definition no_marshal_err (_ : DeadLetterEntry) : option error := None.
Definition sample_entry (id : string) (t : Z) : DeadLetterEntry :=
  {| dl_ID := id; dl_SinkName := "s"; dl_Schema := "public"; dl_Table := "users"; dl_Operation := "INSERT";
     dl_LSN := "0/1"; dl_Error := "boom"; dl_Attempts := 1; dl_FirstFailedAt := t; dl_LastFailedAt := t;
     dl_Event := sample_insert id |}.

Lemma empty_repr : store_repr empty_keys ∅.
Proof. split; [symmetry; apply fmap_empty | symmetry; apply fmap_empty | apply map_Forall_empty]. Qed.

Definition two_parked : redis_keys :=
  put_entry (sample_entry "s:2" 9000000) (put_entry (sample_entry "s:1" 5000000) empty_keys).
Definition two_entries : gmap string DeadLetterEntry :=
  parked_map (sample_entry "s:2" 9000000) (parked_map (sample_entry "s:1" 5000000) ∅).

Lemma redis_store_refines_a_map_witness :
  (exists e, (Store_Park 2 up_reply up_exec no_marshal_err Background (sample_entry "s:3" 1) (two_parked, tt)).1
     = Some e /\ Is e ErrFull = true) /\
  exists l, (Store_List up_reply Background 1 (two_parked, tt)).1 = inl l /\ map dl_ID l = ["s:2"] /\
    list_answer 1 two_entries (inl l).
Proof.
  split; [eexists; split; vm_compute; reflexivity|].
  assert (Hk : store_repr two_parked two_entries) by (by apply repr_put, repr_put, empty_repr).
  assert (Hc : redis_client up_reply up_exec no_marshal_err) by (split; [done | by intros w b e w' [= <- <- <-] | done]).
  destruct (redis_store_refines_a_map 2 up_reply up_exec no_marshal_err Background two_parked two_entries tt Hk Hc)
    as (_ & _ & _ & _ & Hl). specialize (Hl 1%Z).
  destruct (Store_List up_reply Background 1 (two_parked, tt)) as [r [k' w']] eqn:E. destruct Hl as [_ Hl].
  assert (Hr : exists l, r = inl l /\ map dl_ID l = ["s:2"]).
  { change r with ((r, (k', w')).1). rewrite <- E. eexists. split; [vm_compute; reflexivity | reflexivity]. }
  destruct Hr as (l & -> & Hids). exists l. split_and!; [reflexivity | exact Hids | exact Hl].
Defined.
