(* ===== verification/SchemaChange.v ===== *)
(** * Schema changes (src/internal/core/domain/schema.go and
      src/internal/infrastructure/schema/recorder.go)

    The description of a detected DDL change, its classification and summary, the
    bounded in-memory history the recorder keeps of it, and its publication to a Redis
    stream (schema/publisher.go). *)

From Stdlib Require Import ZArith Lia Ascii String.
From stdpp Require Import base list gmap strings pretty.
From S2P Require Import Prelude Domain.

Open Scope go_scope.

(** ** Schema-change kinds *)
Inductive change_kind :=
  | SchemaChangeColumnAdded
  | SchemaChangeColumnDropped
  | SchemaChangeColumnTypeChanged
  | SchemaChangeKeyChanged
  | SchemaChangeReplicaIdentity
  | SchemaChangeTableRenamed.

#[export] Instance change_kind_eq_dec : EqDecision change_kind.
Proof. solve_decision. Defined.

Definition kind_string (k : change_kind) : string :=
  match k with
  | SchemaChangeColumnAdded => "column_added"
  | SchemaChangeColumnDropped => "column_dropped"
  | SchemaChangeColumnTypeChanged => "column_type_changed"
  | SchemaChangeKeyChanged => "key_changed"
  | SchemaChangeReplicaIdentity => "replica_identity_changed"
  | SchemaChangeTableRenamed => "table_renamed"
  end.

Record ColumnDef := {
  cd_Name : string;
  cd_Type : string;
  cd_TypeOID : Z;
  cd_PartOfKey : bool;
}.

Record ColumnTypeChange := {
  tc_Name : string;
  tc_From : ColumnDef;
  tc_To : ColumnDef;
}.

Record SchemaChange := {
  sc_Schema : string;
  sc_Table : string;
  sc_RelationID : Z;
  sc_PreviousSchema : string;
  sc_PreviousTable : string;
  sc_AddedColumns : list ColumnDef;
  sc_DroppedColumns : list ColumnDef;
  sc_ChangedColumns : list ColumnTypeChange;
  sc_KeyColumns : list string;
  sc_PreviousKeyColumns : list string;
  sc_ReplicaIdentity : string;
  sc_PreviousReplicaIdentity : string;
  sc_Kinds : list change_kind;
  sc_LSN : string;
  sc_TransactionID : Z;
  sc_Timestamp : Z;
}.

Definition change_FullTableName (s : SchemaChange) : string :=
  (sc_Schema s +:+ "." +:+ sc_Table s)%string.

Definition breaking_kind (k : change_kind) : bool :=
  match k with SchemaChangeColumnAdded => false | _ => true end.

(** [SchemaChange.Breaking]: the loop over the kinds. *)
Fixpoint breaking_loop (kinds : list change_kind) : bool :=
  match kinds with
  | [] => false
  | k :: rest => if breaking_kind k then true else breaking_loop rest
  end.
Definition Breaking (s : SchemaChange) : bool := breaking_loop (sc_Kinds s).

Definition columnNames (cols : list ColumnDef) : list string := map cd_Name cols.

(** The element loop of [slicesDiffer]. *)
Fixpoint differ_loop (a b : list string) : bool :=
  match a, b with
  | x :: a', y :: b' => if decide (x <> y) then true else differ_loop a' b'
  | _, _ => false
  end.
Definition slicesDiffer (a b : list string) : bool :=
  if decide (length a <> length b) then true else differ_loop a b.

Lemma slicesDiffer_spec a b : slicesDiffer a b = false <-> a = b.
Proof.
  unfold slicesDiffer. revert b. induction a as [|x a IH]; intros [|y b]; simpl;
    try (split; congruence).
  destruct (decide (S (length a) <> S (length b))) as [Hl|Hl].
  - split; [congruence | intros [= -> ->]; congruence].
  - destruct (decide (x <> y)) as [Hx|Hx%dec_stable]; [split; congruence|].
    specialize (IH b). destruct (decide (length a <> length b)); [lia|].
    rewrite IH. split; congruence.
Qed.

Definition Summary (s : SchemaChange) : string :=
  let renamed :=
    if decide (sc_PreviousTable s = "") then []
    else [("renamed from " +:+ sc_PreviousSchema s +:+ "." +:+ sc_PreviousTable s)%string] in
  let added :=
    match columnNames (sc_AddedColumns s) with
    | [] => [] | names => [("added " +:+ join ", " names)%string]
    end in
  let dropped :=
    match columnNames (sc_DroppedColumns s) with
    | [] => [] | names => [("dropped " +:+ join ", " names)%string]
    end in
  let changed :=
    map (fun c => (tc_Name c +:+ " " +:+ cd_Type (tc_From c) +:+ "->" +:+ cd_Type (tc_To c))%string)
      (sc_ChangedColumns s) in
  let identity :=
    if decide (sc_PreviousReplicaIdentity s <> "") then
      [("replica identity " +:+ sc_PreviousReplicaIdentity s +:+ "->" +:+ sc_ReplicaIdentity s)%string]
    else if slicesDiffer (sc_PreviousKeyColumns s) (sc_KeyColumns s) then
      [("key [" +:+ join " " (sc_PreviousKeyColumns s) +:+ "]->[" +:+ join " " (sc_KeyColumns s) +:+ "]")%string]
    else [] in
  match (renamed ++ added ++ dropped ++ changed ++ identity)%list with
  | [] => "no change"
  | parts => join "; " parts
  end.

Lemma Breaking_spec s : Breaking s = existsb breaking_kind (sc_Kinds s).
Proof.
  unfold Breaking. induction (sc_Kinds s) as [|k ks IH]; [reflexivity|].
  simpl. destruct (breaking_kind k); [reflexivity | exact IH].
Qed.

(** ** The recorder's history (recorder.go) *)
Definition historyCapacity : nat := 200.

Record Recorder := { rec_history : list SchemaChange }.

Definition NewRecorder : Recorder := {| rec_history := [] |}.

Definition Recorder_OnSchemaChange (change : SchemaChange) (r : Recorder) : Recorder :=
  let h := rec_history r ++ [change] in
  {| rec_history :=
       if decide (historyCapacity < length h) then drop (length h - historyCapacity) h else h |}.

(** [History]: newest first, filled index by index from the end. *)
Definition History (r : Recorder) : list SchemaChange := reverse (rec_history r).

(** Feeding changes one by one. *)
Definition record_all (changes : list SchemaChange) (r : Recorder) : Recorder :=
  foldl (fun r c => Recorder_OnSchemaChange c r) r changes.

Lemma record_all_history changes :
  rec_history (record_all changes NewRecorder) = keep_last historyCapacity changes.
Proof.
  induction changes as [|c cs IH] using rev_ind; [reflexivity|].
  unfold record_all in *. rewrite foldl_app. simpl. rewrite IH.
  apply (keep_last_snoc historyCapacity).
Qed.

(** ** Publishing changes (publisher.go) *)
Record XAddArgs := { xa_Stream : string; xa_MaxLen : Z; xa_Approx : bool; xa_Values : list (string * string) }.
Record RedisPublisher := { rp_stream : string; rp_maxLen : Z }.

Definition NewRedisPublisher (ParseURL : string -> res unit) (url prefix : string) (maxLen : Z) : res RedisPublisher :=
  match ParseURL url with
  | inr err => inr (EWrap "invalid redis URL: " err "")
  | inl _ => inl {| rp_stream := (prefix +:+ ":schema")%string; rp_maxLen := maxLen |}
  end.

Definition publishTimeout : Z := 5 * 1000000000.

Section publisher.
Context {W : Type} `{!World W} (Marshal : SchemaChange -> res string) (XAdd : Ctx -> XAddArgs -> ST W (option error)).

Definition publish_args (p : RedisPublisher) (change : SchemaChange) (payload : string) : XAddArgs :=
  {| xa_Stream := rp_stream p; xa_MaxLen := rp_maxLen p; xa_Approx := true;
     xa_Values := [("table", change_FullTableName change); ("lsn", sc_LSN change);
                   ("breaking", if Breaking change then "true" else "false"); ("payload", payload)] |}.

(** Failures are counted, never returned; the first half of the world is the counter. *)
Definition publish_fail : ST (Z * W) unit := own (modify (Z.add 1)).
Definition Publisher_OnSchemaChange (p : RedisPublisher) (c : Ctx) (change : SchemaChange) : ST (Z * W) unit :=
  match Marshal change with
  | inr _ => publish_fail
  | inl payload =>
      let! w := get in
      let! err := inner (XAdd (WithTimeout c w.2 publishTimeout) (publish_args p change payload)) in
      match err with Some _ => publish_fail | None => ret tt end
  end.
End publisher.

(** An observer is told of a change and has no error to return (ports/schema.go). *)
Definition SchemaObserver (W : Type) : Type := Ctx -> SchemaChange -> ST W unit.

(** [Observers]: each observer in order. *)
Fixpoint Observers_OnSchemaChange {W} (observers : list (SchemaObserver W)) (c : Ctx)
    (change : SchemaChange) : ST W unit :=
  match observers with
  | [] => ret tt
  | o :: rest => seq! o c change in Observers_OnSchemaChange rest c change
  end.

(** The schema history served to the dashboard is, after any sequence of
    detected changes, the last [historyCapacity] of them, newest first: its size is
    bounded and it never loses a recent change or reorders one. *)
Theorem schema_history_is_recent (changes : list SchemaChange) :
  History (record_all changes NewRecorder)
    = reverse (drop (length changes - historyCapacity) changes) /\
  length (History (record_all changes NewRecorder)) <= historyCapacity.
Proof.
  unfold History. rewrite length_reverse, record_all_history. split.
  - unfold keep_last. destruct (decide _); [reflexivity|].
    by replace (length changes - historyCapacity) with 0 by lia.
  - apply keep_last_length.
Qed.
