(* ===== verification/Decoder.v ===== *)
(** * The WAL decoder (src/internal/adapters/primary/wal/decoder.go)

    The decoder turns replication messages into change events, schema changes,
    logical messages and acknowledgeable positions.  The wire parsers and the type
    map are third-party code (pglogrepl, pgtype): the parsed messages are data types
    with the fields the decoder reads, and the parsers, the textual form of an LSN
    and the column codecs are parameters. *)

From Stdlib Require Import ZArith Lia Ascii String.
From stdpp Require Import base list gmap strings pretty.
From S2P Require Import Prelude Domain SchemaChange.

Open Scope go_scope.
Set Warnings "-clear-no-such-hyp".

(** ** Parsed replication messages *)
Record RelationMessageColumn := {
  col_Flags : Z;
  col_Name : string;
  col_DataType : Z;
}.
#[export] Instance RelationMessageColumn_eq_dec : EqDecision RelationMessageColumn.
Proof. solve_decision. Defined.

Record RelationMessage := {
  rel_RelationID : Z;
  rel_Namespace : string;
  rel_RelationName : string;
  rel_ReplicaIdentity : ascii;
  rel_Columns : list RelationMessageColumn;
}.

Record TupleDataColumn := { tup_DataType : ascii; tup_Data : string }.
Definition TupleDataTypeNull : ascii := "n".
Definition TupleDataTypeToast : ascii := "u".
Definition TupleDataTypeText : ascii := "t".

Definition TupleData : Type := list TupleDataColumn.

Inductive Message :=
  | BeginMessage (finalLSN commitTime xid : Z)
  | CommitMessage (transactionEndLSN : Z)
  | RelationMessageV2 (rel : RelationMessage)
  | InsertMessageV2 (relationID : Z) (tuple : option TupleData)
  | UpdateMessageV2 (relationID : Z) (oldTuple newTuple : option TupleData)
  | DeleteMessageV2 (relationID : Z) (oldTuple : option TupleData)
  | TruncateMessageV2 (relationIDs : list Z)
  | LogicalDecodingMessageV2 (prefix content : string) (lsn : Z)
  | StreamMessageV2 (type_name : string) (* stream start, stop, commit, abort *)
  | OtherMessageV2. (* type, origin: no case in the switch *)

Record PrimaryKeepaliveMessage := { pkm_ServerWALEnd : Z; pkm_ReplyRequested : bool }.
Record XLogData := { xld_WALStart : Z; xld_ServerWALEnd : Z; xld_WALData : string }.

(** [pgproto3.BackendMessage]: a [CopyData] with its bytes, or anything else. *)
Inductive BackendMessage := CopyData (data : string) | OtherBackendMessage.

(** ** The decoder's own types *)
Record txnState := {
  inTxn : bool;
  txn_xid : Z;
  txn_commitTime : Z;
  txn_finalLSN : Z;
}.

Record Decoder := {
  relations : gmap Z RelationMessage;
  txn : txnState;
}.

Definition NewDecoder : Decoder :=
  {| relations := ∅;
     txn := {| inTxn := false; txn_xid := 0; txn_commitTime := 0; txn_finalLSN := 0 |} |}.

Record LogicalMessage := { lm_Prefix : string; lm_Content : string; lm_LSN : Z }.

Record DecodeResult := {
  Events : list CDCEvent;
  SchemaChanges : list SchemaChange;
  dr_Message : option LogicalMessage;
  AckLSN : Z;
  ServerWALEnd : Z;
  RequestReply : bool;
}.

Definition emptyResult : DecodeResult :=
  {| Events := []; SchemaChanges := []; dr_Message := None; AckLSN := 0; ServerWALEnd := 0;
     RequestReply := false |}.

(** A Go call that returns, returns an error, or panics. *)
Inductive outcome (A : Type) := Ok (a : A) | Err (e : error) | Panic.
Arguments Ok {A}. Arguments Err {A}. Arguments Panic {A}.

Definition obind {A B} (o : outcome A) (k : A -> outcome B) : outcome B :=
  match o with Ok a => k a | Err e => Err e | Panic => Panic end.
Notation "'let*' x := m 'in' k" := (obind m (fun x => k))
  (at level 10, x name, m at level 200, k at level 200) : go_scope.
Notation "'let*' ' pat := m 'in' k" := (obind m (fun x => match x with pat => k end))
  (at level 10, pat pattern, m at level 200, k at level 200) : go_scope.

(** Go's [string(b)] of a byte: the UTF-8 form of the code point. *)
Definition byte_string (b : ascii) : string :=
  let n := nat_of_ascii b in
  if decide (n < 128) then String b EmptyString
  else String (ascii_of_nat (192 + n / 64)) (String (ascii_of_nat (128 + n mod 64)) EmptyString).

(** [keyColumns]: the columns flagged as replica identity. *)
Definition is_key (c : RelationMessageColumn) : bool := (Z.land (col_Flags c) 1 =? 1)%Z.
Fixpoint key_loop (cols : list RelationMessageColumn) : list string :=
  match cols with
  | [] => []
  | c :: rest => if is_key c then col_Name c :: key_loop rest else key_loop rest
  end.
Definition keyColumns (rel : RelationMessage) : list string := key_loop (rel_Columns rel).

(** The element loop of [equalStrings]. *)
Fixpoint equal_loop (a b : list string) : bool :=
  match a, b with
  | x :: a', y :: b' => if decide (x <> y) then false else equal_loop a' b'
  | _, _ => true
  end.
Definition equalStrings (a b : list string) : bool :=
  if decide (length a <> length b) then false else equal_loop a b.

(** The name-to-column map both relation descriptions are indexed with; a later
    column of the same name wins. *)
Definition column_map (cols : list RelationMessageColumn) : gmap string RelationMessageColumn :=
  foldl (fun acc c => <[col_Name c := c]> acc) ∅ cols.

(** ** The column diff, on its own *)
Definition renamed (prev cur : RelationMessage) : bool :=
  bool_decide (rel_Namespace prev <> rel_Namespace cur) ||
  bool_decide (rel_RelationName prev <> rel_RelationName cur).

Definition when {A} (b : bool) (x : A) : list A := if b then [x] else [].
Definition nonempty {A} (l : list A) : bool := match l with [] => false | _ => true end.

Lemma key_loop_filter cols : key_loop cols = map col_Name (filter (fun c => is_key c = true) cols).
Proof.
  induction cols as [|c cols IH]; [reflexivity|].
  simpl. rewrite filter_cons. destruct (is_key c); simpl; rewrite IH; reflexivity.
Qed.

Lemma equalStrings_spec a b : equalStrings a b = true <-> a = b.
Proof.
  unfold equalStrings. revert b. induction a as [|x a IH]; intros [|y b]; simpl; try (split; congruence).
  destruct (decide (S (length a) <> S (length b))) as [Hl|Hl].
  - split; [congruence | intros [= -> ->]; congruence].
  - destruct (decide (x <> y)) as [Hx|Hx%dec_stable]; [split; congruence|].
    specialize (IH b). destruct (decide (length a <> length b)); [lia|].
    rewrite IH. split; congruence.
Qed.

Lemma column_map_snoc cols c :
  column_map (cols ++ [c]) = <[col_Name c := c]> (column_map cols).
Proof. unfold column_map. by rewrite foldl_app. Qed.

Lemma column_map_None cols n : column_map cols !! n = None <-> n ∉ map col_Name cols.
Proof.
  induction cols as [|c cols IH] using rev_ind.
  - split; [intros _; apply not_elem_of_nil | reflexivity].
  - rewrite column_map_snoc, lookup_insert_None, IH, map_app, elem_of_app.
    simpl. rewrite list_elem_of_singleton. naive_solver.
Qed.

Lemma column_map_Some cols n c :
  NoDup (map col_Name cols) -> column_map cols !! n = Some c <-> c ∈ cols /\ col_Name c = n.
Proof.
  induction cols as [|c' cols IH] using rev_ind; intros Hnd.
  - split; [discriminate | intros [[]%not_elem_of_nil _]].
  - rewrite map_app, NoDup_app in Hnd. destruct Hnd as (Hnd & Hdisj & _).
    assert (Hc : col_Name c' ∉ map col_Name cols).
    { intros Hin. apply (Hdisj _ Hin). simpl. set_solver. }
    rewrite column_map_snoc, lookup_insert_Some, elem_of_app, list_elem_of_singleton, (IH Hnd).
    split; [naive_solver|]. intros [[Hin| ->] Hn]; [right | by left].
    split; [|done]. intros <-. apply Hc. rewrite <- Hn. by apply list_elem_of_fmap_2.
Qed.

(** The diff of the columns, as filters on the two descriptions. *)
Definition added_columns (prev cur : list RelationMessageColumn) : list RelationMessageColumn :=
  filter (fun c => col_Name c ∉ map col_Name prev) cur.

(** The previous description of a column that kept its name and changed its type. *)
Definition retyped (prev : list RelationMessageColumn) (c : RelationMessageColumn)
    : option RelationMessageColumn :=
  match column_map prev !! col_Name c with
  | Some b => if decide (col_DataType b <> col_DataType c) then Some b else None
  | None => None
  end.

Lemma elem_of_when {A} (b : bool) (x y : A) : x ∈ when b y <-> b = true /\ x = y.
Proof. destruct b; simpl; [rewrite list_elem_of_singleton | rewrite elem_of_nil]; naive_solver. Qed.

Lemma nonempty_map {A B} (f : A -> B) l : nonempty (map f l) = nonempty l.
Proof. by destruct l. Qed.

Lemma nonempty_true {A} (l : list A) : nonempty l = true <-> exists x, x ∈ l.
Proof.
  destruct l as [|x l]; simpl; split; try naive_solver.
  - intros [x []%not_elem_of_nil].
  - intros _. exists x. by left.
Qed.

Lemma nonempty_omap {A B} (f : A -> option B) l :
  nonempty (omap f l) = true <-> exists x y, x ∈ l /\ f x = Some y.
Proof.
  rewrite nonempty_true. split.
  - intros [y Hy]. apply list_elem_of_omap in Hy. naive_solver.
  - intros (x & y & Hx & Hy). exists y. apply list_elem_of_omap. naive_solver.
Qed.

Lemma renamed_true prev cur :
  renamed prev cur = true <->
  rel_Namespace prev <> rel_Namespace cur \/ rel_RelationName prev <> rel_RelationName cur.
Proof. unfold renamed. by rewrite orb_true_iff, !bool_decide_eq_true. Qed.

(** What a kind says of the two descriptions. *)
Definition kind_holds (prev cur : RelationMessage) (k : change_kind) : Prop :=
  match k with
  | SchemaChangeTableRenamed =>
      rel_Namespace prev <> rel_Namespace cur \/ rel_RelationName prev <> rel_RelationName cur
  | SchemaChangeColumnAdded =>
      exists c, c ∈ rel_Columns cur /\ col_Name c ∉ map col_Name (rel_Columns prev)
  | SchemaChangeColumnDropped =>
      exists c, c ∈ rel_Columns prev /\ col_Name c ∉ map col_Name (rel_Columns cur)
  | SchemaChangeColumnTypeChanged =>
      exists b c, b ∈ rel_Columns prev /\ c ∈ rel_Columns cur /\
        col_Name b = col_Name c /\ col_DataType b <> col_DataType c
  | SchemaChangeReplicaIdentity => rel_ReplicaIdentity prev <> rel_ReplicaIdentity cur
  | SchemaChangeKeyChanged =>
      rel_ReplicaIdentity prev = rel_ReplicaIdentity cur /\ keyColumns prev <> keyColumns cur
  end.

Lemma retyped_Some prev c b :
  NoDup (map col_Name prev) ->
  retyped prev c = Some b <->
  b ∈ prev /\ col_Name b = col_Name c /\ col_DataType b <> col_DataType c.
Proof.
  intros Hnd. unfold retyped.
  transitivity (column_map prev !! col_Name c = Some b /\ col_DataType b <> col_DataType c).
  - destruct (column_map prev !! col_Name c) as [b'|]; [|naive_solver].
    destruct (decide _); naive_solver.
  - rewrite (column_map_Some _ _ _ Hnd). naive_solver.
Qed.

Section decoder.
(** The third-party parameters: the printed form of an LSN and the type map. *)
Context (LSN_String : Z -> string).
Context (TypeForOID : Z -> option (string * (string -> res any))).

Definition UUIDOID : Z := 2950.
Definition NumericOID : Z := 1700.

Definition DecodeText (dataType : Z) (data : string) : res any :=
  if decide (dataType = UUIDOID \/ dataType = NumericOID) then inl (AStr data)
  else match TypeForOID dataType with
       | Some (_, decodeValue) => decodeValue data
       | None => inl (AStr data)
       end.

Definition decodeTextColumn (data : string) (dataType : Z) : res any := DecodeText dataType data.

(** [typeName]: the type's name, or its raw OID. *)
Definition typeName (oid : Z) : string :=
  match TypeForOID oid with
  | Some (name, _) => name
  | None => ("oid:" +:+ pretty oid)%string
  end.

Definition columnDef (col : RelationMessageColumn) : ColumnDef :=
  {| cd_Name := col_Name col; cd_Type := typeName (col_DataType col);
     cd_TypeOID := col_DataType col; cd_PartOfKey := is_key col |}.

(** What one column of a tuple adds to the values and to the unchanged list. *)
Definition decodeColumn (col : TupleDataColumn) (rcol : RelationMessageColumn)
    (values : columns) (unchangedToast : list string) : columns * list string :=
  let colName := col_Name rcol in
  if decide (tup_DataType col = TupleDataTypeNull) then (<[colName := ANil]> values, unchangedToast)
  else if decide (tup_DataType col = TupleDataTypeToast) then (values, unchangedToast ++ [colName])
  else if decide (tup_DataType col = TupleDataTypeText) then
    match decodeTextColumn (tup_Data col) (col_DataType rcol) with
    | inr _ => (<[colName := AStr (tup_Data col)]> values, unchangedToast)
    | inl v => (<[colName := v]> values, unchangedToast)
    end
  else (values, unchangedToast).

(** The loop of [decodeTuple] from index [idx]; [rel.Columns[idx]] panics out of
    range. *)
Fixpoint tuple_loop (tuple : TupleData) (idx : nat) (rel : RelationMessage)
    (values : columns) (unchangedToast : list string) : outcome (columns * list string) :=
  match tuple with
  | [] => Ok (values, unchangedToast)
  | col :: rest =>
      match rel_Columns rel !! idx with
      | None => Panic
      | Some rcol =>
          let '(values', toast') := decodeColumn col rcol values unchangedToast in
          tuple_loop rest (S idx) rel values' toast'
      end
  end.

Definition decodeTuple (tuple : option TupleData) (rel : RelationMessage)
    : outcome (data * list string) :=
  match tuple with
  | None => Ok (None, [])
  | Some cols =>
      let* ' (values, toast) := tuple_loop cols 0 rel ∅ [] in
      Ok (Some values, toast)
  end.

Definition relation (d : Decoder) (relationID : Z) : outcome RelationMessage :=
  match relations d !! relationID with
  | Some rel => Ok rel
  | None => Err (EMsg ("no relation message received for relation ID " +:+ pretty relationID)%string)
  end.

Definition newEvent (d : Decoder) (lsn : Z) (op : Operation) (rel : RelationMessage)
    (oldData newData : data) (unchangedToast : list string) : CDCEvent :=
  {| ID := LSN_String lsn;
     Op := op;
     Schema := rel_Namespace rel;
     Table := rel_RelationName rel;
     OldData := oldData;
     NewData := newData;
     UnchangedToastColumns := unchangedToast;
     Metadata := {| LSN := LSN_String lsn; TransactionID := txn_xid (txn d);
                    Timestamp := txn_commitTime (txn d) |} |}.

(** The loop over the current columns: additions and type changes. *)
Fixpoint diff_columns (prevCols : gmap string RelationMessageColumn)
    (cols : list RelationMessageColumn) : list ColumnDef * list ColumnTypeChange :=
  match cols with
  | [] => ([], [])
  | col :: rest =>
      let '(added, changed) := diff_columns prevCols rest in
      match prevCols !! col_Name col with
      | None => (columnDef col :: added, changed)
      | Some before =>
          if decide (col_DataType before <> col_DataType col) then
            (added, {| tc_Name := col_Name col; tc_From := columnDef before; tc_To := columnDef col |}
                      :: changed)
          else (added, changed)
      end
  end.

(** The loop over the previous columns: drops. *)
Fixpoint dropped_columns (curCols : gmap string RelationMessageColumn)
    (cols : list RelationMessageColumn) : list ColumnDef :=
  match cols with
  | [] => []
  | col :: rest =>
      match curCols !! col_Name col with
      | None => columnDef col :: dropped_columns curCols rest
      | Some _ => dropped_columns curCols rest
      end
  end.

Definition diffRelation (d : Decoder) (prev cur : RelationMessage) (lsn0 : Z)
    : option SchemaChange :=
  let lsn := (if decide (lsn0 = 0)%Z then txn_finalLSN (txn d) else lsn0) in
  let '(added, changed) := diff_columns (column_map (rel_Columns prev)) (rel_Columns cur) in
  let dropped := dropped_columns (column_map (rel_Columns cur)) (rel_Columns prev) in
  let identity := bool_decide (rel_ReplicaIdentity prev <> rel_ReplicaIdentity cur) in
  let kinds :=
    when (renamed prev cur) SchemaChangeTableRenamed ++
    when (nonempty added) SchemaChangeColumnAdded ++
    when (nonempty dropped) SchemaChangeColumnDropped ++
    when (nonempty changed) SchemaChangeColumnTypeChanged ++
    (if identity then [SchemaChangeReplicaIdentity]
     else when (negb (equalStrings (keyColumns prev) (keyColumns cur))) SchemaChangeKeyChanged) in
  match kinds with
  | [] => None
  | _ => Some {|
      sc_Schema := rel_Namespace cur;
      sc_Table := rel_RelationName cur;
      sc_RelationID := rel_RelationID cur;
      sc_PreviousSchema := if renamed prev cur then rel_Namespace prev else "";
      sc_PreviousTable := if renamed prev cur then rel_RelationName prev else "";
      sc_AddedColumns := added;
      sc_DroppedColumns := dropped;
      sc_ChangedColumns := changed;
      sc_KeyColumns := keyColumns cur;
      sc_PreviousKeyColumns := keyColumns prev;
      sc_ReplicaIdentity := byte_string (rel_ReplicaIdentity cur);
      sc_PreviousReplicaIdentity := if identity then byte_string (rel_ReplicaIdentity prev) else "";
      sc_Kinds := kinds;
      sc_LSN := LSN_String lsn;
      sc_TransactionID := txn_xid (txn d);
      sc_Timestamp := txn_commitTime (txn d) |}
  end.

Definition with_events (events : list CDCEvent) : DecodeResult :=
  {| Events := events; SchemaChanges := []; dr_Message := None; AckLSN := 0; ServerWALEnd := 0;
     RequestReply := false |}.

Definition set_ID (id : string) (e : CDCEvent) : CDCEvent :=
  {| ID := id; Op := Op e; Schema := Schema e; Table := Table e; OldData := OldData e;
     NewData := NewData e; UnchangedToastColumns := UnchangedToastColumns e; Metadata := Metadata e |}.

(** The truncate loop from index [i]. *)
Fixpoint truncate_loop (d : Decoder) (lsn : Z) (i : nat) (ids : list Z) : outcome (list CDCEvent) :=
  match ids with
  | [] => Ok []
  | relID :: rest =>
      let* rel := relation d relID in
      let event := set_ID (LSN_String lsn +:+ "-" +:+ pretty i)%string
                     (newEvent d lsn OperationTruncate rel None None []) in
      let* events := truncate_loop d lsn (S i) rest in
      Ok (event :: events)
  end.

(** The parsed message's case of [decodeWALData]. *)
Definition decodeMessage (d : Decoder) (msg : Message) (lsn : Z)
    : outcome DecodeResult * Decoder :=
  match msg with
  | BeginMessage finalLSN commitTime xid =>
      (Ok emptyResult,
       {| relations := relations d;
          txn := {| inTxn := true; txn_xid := xid; txn_commitTime := commitTime;
                    txn_finalLSN := finalLSN |} |})
  | CommitMessage endLSN =>
      (Ok {| Events := []; SchemaChanges := []; dr_Message := None; AckLSN := endLSN;
             ServerWALEnd := 0; RequestReply := false |},
       {| relations := relations d;
          txn := {| inTxn := false; txn_xid := txn_xid (txn d);
                    txn_commitTime := txn_commitTime (txn d);
                    txn_finalLSN := txn_finalLSN (txn d) |} |})
  | RelationMessageV2 rel =>
      let changes :=
        match relations d !! rel_RelationID rel with
        | Some prev => match diffRelation d prev rel lsn with Some c => [c] | None => [] end
        | None => []
        end in
      (Ok {| Events := []; SchemaChanges := changes; dr_Message := None; AckLSN := 0;
             ServerWALEnd := 0; RequestReply := false |},
       {| relations := <[rel_RelationID rel := rel]> (relations d); txn := txn d |})
  | InsertMessageV2 id tuple =>
      (let* rel := relation d id in
       let* ' (newData, _) := decodeTuple tuple rel in
       Ok (with_events [newEvent d lsn OperationInsert rel None newData []]), d)
  | UpdateMessageV2 id oldTuple newTuple =>
      (let* rel := relation d id in
       let* ' (newData, toast) := decodeTuple newTuple rel in
       let* ' (oldData, _) := decodeTuple oldTuple rel in
       Ok (with_events [newEvent d lsn OperationUpdate rel oldData newData toast]), d)
  | DeleteMessageV2 id oldTuple =>
      (let* rel := relation d id in
       let* ' (oldData, _) := decodeTuple oldTuple rel in
       Ok (with_events [newEvent d lsn OperationDelete rel oldData None []]), d)
  | TruncateMessageV2 ids =>
      (let* events := truncate_loop d lsn 0 ids in Ok (with_events events), d)
  | LogicalDecodingMessageV2 prefix content msgLSN =>
      (Ok {| Events := []; SchemaChanges := [];
             dr_Message := Some {| lm_Prefix := prefix; lm_Content := content; lm_LSN := msgLSN |};
             AckLSN := 0; ServerWALEnd := 0; RequestReply := false |}, d)
  | StreamMessageV2 type_name =>
      (Err (EMsg ("unexpected streamed-transaction message " +:+ type_name
                    +:+ " (streaming is disabled)")%string), d)
  | OtherMessageV2 => (Ok emptyResult, d)
  end.

(** ** Lemmas on one message *)
Lemma decodeMessage_ack d msg lsn r d' :
  decodeMessage d msg lsn = (Ok r, d') -> AckLSN r <> 0%Z ->
  Events r = [] /\ exists lsn', msg = CommitMessage lsn'.
Proof.
  destruct msg; simpl; intros [= Hr Hd] Hack; unfold obind in *;
    repeat case_match; simplify_eq; simpl in *; try congruence; eauto.
Qed.

Lemma decodeMessage_inTxn d msg lsn o d' :
  decodeMessage d msg lsn = (o, d') ->
  inTxn (txn d') = match msg with
                   | BeginMessage _ _ _ => true | CommitMessage _ => false | _ => inTxn (txn d)
                   end.
Proof. destruct msg; simpl; intros [= _ <-]; reflexivity. Qed.

Lemma truncate_loop_stamped d lsn i ids evs e :
  truncate_loop d lsn i ids = Ok evs -> e ∈ evs ->
  Op e = OperationTruncate /\ LSN (Metadata e) = LSN_String lsn /\
  TransactionID (Metadata e) = txn_xid (txn d) /\ Timestamp (Metadata e) = txn_commitTime (txn d).
Proof.
  revert i evs. induction ids as [|id ids IH]; intros i evs; simpl.
  - intros [= <-] []%not_elem_of_nil.
  - destruct (relation d id) as [rel| |]; simpl; [|discriminate..].
    destruct (truncate_loop d lsn (S i) ids) as [evs'| |] eqn:Hl; simpl; [|discriminate..].
    intros [= <-] [->|He]%elem_of_cons; [done | by eapply IH].
Qed.

(** Every event of one message is stamped with the state of the decoder. *)
Lemma decodeMessage_stamped d msg lsn r d' e :
  decodeMessage d msg lsn = (Ok r, d') -> e ∈ Events r ->
  (Op e <> OperationTruncate -> ID e = LSN_String lsn) /\ LSN (Metadata e) = LSN_String lsn /\
  TransactionID (Metadata e) = txn_xid (txn d) /\ Timestamp (Metadata e) = txn_commitTime (txn d).
Proof.
  destruct msg; simpl; intros [= Hr _]; unfold obind in Hr;
    try (repeat case_match; simplify_eq; simpl; intros []%not_elem_of_nil; fail).
  4: { destruct (truncate_loop _ _ _ _) eqn:Hl; [|discriminate..]. injection Hr as <-. simpl.
       intros He. pose proof (truncate_loop_stamped _ _ _ _ _ _ Hl He). naive_solver. }
  all: repeat case_match; simplify_eq; simpl; intros ->%list_elem_of_singleton; done.
Qed.

Lemma diff_columns_spec prev cur :
  diff_columns (column_map prev) cur =
    (map columnDef (added_columns prev cur),
     omap (fun c => (fun b => {| tc_Name := col_Name c; tc_From := columnDef b; tc_To := columnDef c |})
                      <$> retyped prev c) cur).
Proof.
  induction cur as [|c cur IH]; [reflexivity|]. simpl. rewrite IH. clear IH.
  unfold added_columns, retyped. rewrite filter_cons.
  destruct (column_map prev !! col_Name c) as [b|] eqn:Hc.
  - rewrite (decide_False (P := col_Name c ∉ map col_Name prev))
      by (rewrite <- column_map_None; congruence).
    destruct (decide (col_DataType b <> col_DataType c)); reflexivity.
  - rewrite decide_True by (by apply column_map_None). reflexivity.
Qed.

Lemma dropped_columns_spec prev cur :
  dropped_columns (column_map cur) prev = map columnDef (added_columns cur prev).
Proof.
  induction prev as [|c prev IH]; [reflexivity|]. simpl. rewrite IH.
  unfold added_columns at 3. rewrite filter_cons.
  destruct (column_map cur !! col_Name c) as [b|] eqn:Hc.
  - rewrite (decide_False (P := col_Name c ∉ map col_Name cur))
      by (rewrite <- column_map_None; congruence). reflexivity.
  - rewrite decide_True by (by apply column_map_None). reflexivity.
Qed.

(** The kinds [diffRelation] computes. *)
Definition diff_kinds (prev cur : RelationMessage) : list change_kind :=
  let '(added, changed) := diff_columns (column_map (rel_Columns prev)) (rel_Columns cur) in
  when (renamed prev cur) SchemaChangeTableRenamed ++
  when (nonempty added) SchemaChangeColumnAdded ++
  when (nonempty (dropped_columns (column_map (rel_Columns cur)) (rel_Columns prev)))
    SchemaChangeColumnDropped ++
  when (nonempty changed) SchemaChangeColumnTypeChanged ++
  (if bool_decide (rel_ReplicaIdentity prev <> rel_ReplicaIdentity cur)
   then [SchemaChangeReplicaIdentity]
   else when (negb (equalStrings (keyColumns prev) (keyColumns cur))) SchemaChangeKeyChanged).

Lemma diffRelation_kinds d prev cur lsn :
  match diffRelation d prev cur lsn with
  | None => diff_kinds prev cur = []
  | Some ch => diff_kinds prev cur = sc_Kinds ch /\ sc_Kinds ch <> []
  end.
Proof.
  unfold diffRelation, diff_kinds. destruct (diff_columns _ _) as [added changed].
  lazymatch goal with
  | |- context [match ?k with [] => None | _ => _ end] => destruct k; simpl; [reflexivity|]
  end.
  split; [reflexivity | discriminate].
Qed.

Lemma diff_kinds_holds prev cur k :
  NoDup (map col_Name (rel_Columns prev)) ->
  k ∈ diff_kinds prev cur <-> kind_holds prev cur k.
Proof.
  intros Hnd. unfold diff_kinds. rewrite diff_columns_spec, dropped_columns_spec.
  rewrite !elem_of_app, !elem_of_when, !nonempty_map, !nonempty_true, renamed_true.
  assert (Hident : k ∈ (if bool_decide (rel_ReplicaIdentity prev <> rel_ReplicaIdentity cur)
      then [SchemaChangeReplicaIdentity]
      else when (negb (equalStrings (keyColumns prev) (keyColumns cur))) SchemaChangeKeyChanged) <->
    (rel_ReplicaIdentity prev <> rel_ReplicaIdentity cur /\ k = SchemaChangeReplicaIdentity) \/
    ((rel_ReplicaIdentity prev = rel_ReplicaIdentity cur /\ keyColumns prev <> keyColumns cur) /\
     k = SchemaChangeKeyChanged)).
  { case_bool_decide as Hi; [rewrite list_elem_of_singleton; naive_solver|].
    rewrite elem_of_when, negb_true_iff, <- not_true_iff_false, equalStrings_spec.
    naive_solver. }
  rewrite Hident. unfold added_columns. setoid_rewrite list_elem_of_filter.
  setoid_rewrite list_elem_of_omap. setoid_rewrite fmap_Some. setoid_rewrite (retyped_Some _ _ _ Hnd).
  destruct k; simpl; naive_solver.
Qed.

(** *** Tuples *)
Definition decode_pair (acc : columns * list string) (p : TupleDataColumn * RelationMessageColumn)
    : columns * list string :=
  decodeColumn p.1 p.2 acc.1 acc.2.

(** The value a present cell decodes to: the codec's, or the raw text when the
    codec fails. *)
Definition cell (p : TupleDataColumn * RelationMessageColumn) : option any :=
  if decide (tup_DataType p.1 = TupleDataTypeNull) then Some ANil
  else if decide (tup_DataType p.1 = TupleDataTypeText) then
    Some match DecodeText (col_DataType p.2) (tup_Data p.1) with
         | inl v => v | inr _ => AStr (tup_Data p.1)
         end
  else None.

Definition is_toast (p : TupleDataColumn * RelationMessageColumn) : Prop :=
  tup_DataType p.1 = TupleDataTypeToast.

Lemma decodeColumn_spec p values toast :
  decodeColumn p.1 p.2 values toast =
    (match cell p with Some v => <[col_Name p.2 := v]> values | None => values end,
     if decide (tup_DataType p.1 = TupleDataTypeToast) then toast ++ [col_Name p.2] else toast).
Proof.
  unfold decodeColumn, cell, decodeTextColumn.
  destruct (decide (tup_DataType p.1 = TupleDataTypeNull)) as [->|].
  - rewrite decide_False by discriminate. reflexivity.
  - destruct (decide (tup_DataType p.1 = TupleDataTypeToast)) as [->|].
    + rewrite (decide_False (P := TupleDataTypeToast = TupleDataTypeText)) by discriminate. reflexivity.
    + destruct (decide (tup_DataType p.1 = TupleDataTypeText)); [|reflexivity].
      by destruct (DecodeText _ _).
Qed.

Lemma tuple_loop_spec tuple idx rel values toast :
  tuple_loop tuple idx rel values toast =
    if decide (length tuple <= length (drop idx (rel_Columns rel)))
    then Ok (foldl decode_pair (values, toast) (zip tuple (drop idx (rel_Columns rel))))
    else Panic.
Proof.
  revert idx values toast. induction tuple as [|col tuple IH]; intros idx values toast.
  - rewrite decide_True by (simpl; lia). reflexivity.
  - simpl. destruct (rel_Columns rel !! idx) as [rcol|] eqn:Hr.
    + rewrite (drop_S _ _ _ Hr). simpl.
      change (decodeColumn col rcol values toast) with (decode_pair (values, toast) (col, rcol)).
      destruct (decode_pair _ _) as [v' t'] eqn:Hp. rewrite IH.
      destruct (decide (length tuple <= _)); [rewrite decide_True by lia | rewrite decide_False by lia];
        reflexivity.
    + apply lookup_ge_None in Hr. rewrite drop_ge by exact Hr. rewrite decide_False by (simpl; lia).
      reflexivity.
Qed.

Lemma decode_pairs_spec (ps : list (TupleDataColumn * RelationMessageColumn)) :
  NoDup (map (fun p => col_Name p.2) ps) ->
  (forall n v, (foldl decode_pair (∅, []) ps).1 !! n = Some v <->
     exists p, p ∈ ps /\ col_Name p.2 = n /\ cell p = Some v) /\
  (foldl decode_pair (∅, []) ps).2 = map (fun p => col_Name p.2) (filter is_toast ps).
Proof.
  induction ps as [|p ps IH] using rev_ind; intros Hnd.
  { split; [|reflexivity]. intros n v. simpl. rewrite lookup_empty. split; [discriminate|].
    intros (p & []%not_elem_of_nil & _). }
  rewrite map_app, NoDup_app in Hnd. destruct Hnd as (Hnd & Hdisj & _).
  specialize (IH Hnd) as [IHv IHt]. rewrite foldl_app. simpl.
  unfold decode_pair at 1 3. rewrite decodeColumn_spec, IHt. simpl. split.
  - intros n v. setoid_rewrite elem_of_app. setoid_rewrite list_elem_of_singleton.
    assert (Hfresh : forall q, q ∈ ps -> col_Name q.2 <> col_Name p.2).
    { intros q Hq Heq. apply (Hdisj (col_Name q.2)).
      - apply list_elem_of_fmap. eauto.
      - simpl. rewrite Heq. by left. }
    destruct (cell p) as [vp|] eqn:Hcell; [rewrite lookup_insert_Some|]; rewrite IHv; naive_solver.
  - rewrite filter_app, map_app. f_equal. rewrite filter_cons. unfold is_toast at 2.
    destruct (decide _); [reflexivity | by rewrite app_nil_r].
Qed.

Lemma zip_names (tuple : TupleData) (cols : list RelationMessageColumn) :
  NoDup (map col_Name cols) -> NoDup (map (fun p => col_Name p.2) (zip tuple cols)).
Proof.
  revert cols. induction tuple as [|t tuple IH]; intros [|c cols] Hnd; simpl; [constructor..|].
  inversion_clear Hnd as [|? ? Hc Hnd']. constructor; [|by apply IH].
  intros Hin. apply Hc. apply list_elem_of_fmap in Hin as ((t' & c') & -> & Hz).
  apply list_elem_of_fmap. exists c'. split; [reflexivity|].
  by apply elem_of_zip_r in Hz.
Qed.

(** ** Properties of one message *)

(** C32: Diffing two descriptions of a table reports exactly what differs: nothing
    when they agree, otherwise each kind if and only if its condition holds, with
    the added, dropped and retyped columns in their relation's order, at the
    message's position or, when it has none, at the transaction's commit. *)
Theorem schema_diff_is_exact d prev cur lsn :
  NoDup (map col_Name (rel_Columns prev)) ->
  match diffRelation d prev cur lsn with
  | None => forall k, ~ kind_holds prev cur k
  | Some ch =>
      (forall k, k ∈ sc_Kinds ch <-> kind_holds prev cur k) /\
      sc_AddedColumns ch = map columnDef (added_columns (rel_Columns prev) (rel_Columns cur)) /\
      sc_DroppedColumns ch = map columnDef (added_columns (rel_Columns cur) (rel_Columns prev)) /\
      (forall t, t ∈ sc_ChangedColumns ch <->
         exists b c, b ∈ rel_Columns prev /\ c ∈ rel_Columns cur /\ col_Name b = col_Name c /\
           col_DataType b <> col_DataType c /\
           t = {| tc_Name := col_Name c; tc_From := columnDef b; tc_To := columnDef c |}) /\
      sc_LSN ch = LSN_String (if decide (lsn = 0)%Z then txn_finalLSN (txn d) else lsn)
  end.
Proof.
  intros Hnd. pose proof (diffRelation_kinds d prev cur lsn) as Hk.
  destruct (diffRelation d prev cur lsn) as [ch|] eqn:Hd.
  - destruct Hk as [Hk _]. split; [intros k; rewrite <- Hk; by apply diff_kinds_holds|].
    unfold diffRelation in Hd. rewrite diff_columns_spec, dropped_columns_spec in Hd.
    case_match; [discriminate|]. injection Hd as <-. simpl. split_and!; [done..| | done].
    intros t. rewrite list_elem_of_omap. setoid_rewrite fmap_Some.
    setoid_rewrite (retyped_Some _ _ _ Hnd). naive_solver.
  - intros k Hh. apply (diff_kinds_holds _ _ _ Hnd) in Hh. rewrite Hk in Hh.
    by apply not_elem_of_nil in Hh.
Qed.

(** C31: Decoding a tuple against its relation panics exactly when the tuple is wider
    than the relation; otherwise the map holds exactly the null and text cells under
    their column names, decoded by the codec or as raw text when it fails, and the
    unchanged TOAST columns are listed in order and absent from the map. *)
Theorem tuple_decoding_is_exact (tuple : TupleData) rel :
  NoDup (map col_Name (rel_Columns rel)) ->
  match decodeTuple (Some tuple) rel with
  | Panic => length (rel_Columns rel) < length tuple
  | Err _ => False
  | Ok (values, toast) =>
      length tuple <= length (rel_Columns rel) /\
      exists m, values = Some m /\
      (forall n v, m !! n = Some v <->
         exists p, p ∈ zip tuple (rel_Columns rel) /\ col_Name p.2 = n /\ cell p = Some v) /\
      toast = map (fun p => col_Name p.2) (filter is_toast (zip tuple (rel_Columns rel))) /\
      (forall n, n ∈ toast -> m !! n = None)
  end.
Proof.
  intros Hnd. unfold decodeTuple. rewrite tuple_loop_spec, drop_0.
  destruct (decide _) as [Hlen|]; simpl; [|lia].
  destruct (decode_pairs_spec _ (zip_names tuple _ Hnd)) as [Hv Ht].
  destruct (foldl _ _ _) as [m toast]. simpl in Hv, Ht. split; [exact Hlen|].
  exists m. split_and!; [done | exact Hv | exact Ht |]. intros n Hn.
  destruct (m !! n) as [v|] eqn:Hm; [exfalso | reflexivity].
  apply Hv in Hm as (p & Hp & Hpn & Hc). rewrite Ht in Hn.
  apply list_elem_of_fmap in Hn as (q & Hqn & [Hq Hqin]%list_elem_of_filter).
  assert (p = q) as <-.
  { apply (NoDup_map_elem_inj _ _ _ _ (zip_names tuple _ Hnd)); auto; simpl; congruence. }
  unfold cell in Hc. rewrite Hq in Hc. by simpl in Hc.
Qed.

(** Two row changes at the same WAL position get the same event id, whatever
    their tables and data. *)
Theorem rows_at_one_position_share_their_id d1 m1 r1 d2 m2 r2 lsn e1 e2 d1' d2' :
  decodeMessage d1 m1 lsn = (Ok r1, d1') -> e1 ∈ Events r1 -> Op e1 <> OperationTruncate ->
  decodeMessage d2 m2 lsn = (Ok r2, d2') -> e2 ∈ Events r2 -> Op e2 <> OperationTruncate ->
  ID e1 = ID e2.
Proof.
  intros H1 He1 Ho1 H2 He2 Ho2.
  destruct (decodeMessage_stamped _ _ _ _ _ _ H1 He1) as [Hi1 _].
  destruct (decodeMessage_stamped _ _ _ _ _ _ H2 He2) as [Hi2 _].
  rewrite Hi1, Hi2; auto.
Qed.

(** ** Whole messages and streams *)

(** The wire parsers. *)
Context (ParsePrimaryKeepaliveMessage : string -> res PrimaryKeepaliveMessage).
Context (ParseXLogData : string -> res XLogData).
Context (ParseV2 : string -> res Message).

Definition decodeWALData (d : Decoder) (walData : string) (lsn : Z)
    : outcome DecodeResult * Decoder :=
  match ParseV2 walData with
  | inr e => (Err e, d)
  | inl msg => decodeMessage d msg lsn
  end.

Definition PrimaryKeepaliveMessageByteID : ascii := "k".
Definition XLogDataByteID : ascii := "w".

Definition set_ServerWALEnd (lsn : Z) (r : DecodeResult) : DecodeResult :=
  {| Events := Events r; SchemaChanges := SchemaChanges r; dr_Message := dr_Message r;
     AckLSN := AckLSN r; ServerWALEnd := lsn; RequestReply := RequestReply r |}.

Definition Decode (d : Decoder) (rawMsg : BackendMessage) : outcome DecodeResult * Decoder :=
  match rawMsg with
  | OtherBackendMessage => (Ok emptyResult, d)
  | CopyData EmptyString => (Panic, d)
  | CopyData (String b data) =>
      if decide (b = PrimaryKeepaliveMessageByteID) then
        match ParsePrimaryKeepaliveMessage data with
        | inr e => (Err e, d)
        | inl pkm =>
            (Ok {| Events := []; SchemaChanges := []; dr_Message := None;
                   AckLSN := if inTxn (txn d) then 0%Z else pkm_ServerWALEnd pkm;
                   ServerWALEnd := pkm_ServerWALEnd pkm;
                   RequestReply := pkm_ReplyRequested pkm |}, d)
        end
      else if decide (b = XLogDataByteID) then
        match ParseXLogData data with
        | inr e => (Err e, d)
        | inl xld =>
            let '(r, d') := decodeWALData d (xld_WALData xld) (xld_WALStart xld) in
            (let* result := r in Ok (set_ServerWALEnd (xld_ServerWALEnd xld) result), d')
        end
      else (Ok emptyResult, d)
  end.

(** ** Streams of messages *)

(** Decoding the messages of one session; a message that fails ends it.  The reader
    keeps its decoder across sessions, so a session starts from any state. *)
Fixpoint decode_all (d : Decoder) (msgs : list BackendMessage) : list DecodeResult * Decoder :=
  match msgs with
  | [] => ([], d)
  | m :: rest =>
      match Decode d m with
      | (Ok r, d') => let '(rs, d'') := decode_all d' rest in (r :: rs, d'')
      | (_, d') => ([], d')
      end
  end.

(** The logical message a raw message carries, if any. *)
Definition parsed (m : BackendMessage) : option Message :=
  match m with
  | CopyData (String b data) =>
      if decide (b = XLogDataByteID) then
        match ParseXLogData data with
        | inl xld => match ParseV2 (xld_WALData xld) with inl msg => Some msg | inr _ => None end
        | inr _ => None
        end
      else None
  | _ => None
  end.

(** Whether a transaction is open after a stream of messages, from the messages
    alone. *)
Definition opens (open : bool) (m : BackendMessage) : bool :=
  match parsed m with
  | Some (BeginMessage _ _ _) => true
  | Some (CommitMessage _) => false
  | _ => open
  end.

Lemma Decode_inTxn d m r d' :
  Decode d m = (Ok r, d') -> inTxn (txn d') = opens (inTxn (txn d)) m.
Proof.
  unfold opens, parsed. destruct m as [[|b data]|]; simpl; [congruence | | congruence].
  destruct (decide (b = PrimaryKeepaliveMessageByteID)) as [->|].
  - rewrite decide_False by discriminate. repeat case_match; congruence.
  - destruct (decide (b = XLogDataByteID)); [|congruence].
    destruct (ParseXLogData data); [|congruence]. unfold decodeWALData.
    destruct (ParseV2 _) as [msg|]; [|intros [=]].
    destruct (decodeMessage _ _ _) as [o d1] eqn:Hm. intros [= _ <-].
    rewrite (decodeMessage_inTxn _ _ _ _ _ Hm). by destruct msg.
Qed.

Lemma Decode_ack d m r d' :
  Decode d m = (Ok r, d') -> AckLSN r <> 0%Z -> Events r = [] /\ inTxn (txn d') = false.
Proof.
  destruct m as [[|b data]|]; simpl.
  - congruence.
  - destruct (decide _).
    { destruct (ParsePrimaryKeepaliveMessage data); [|congruence].
      intros [= <- <-]; simpl. destruct (inTxn (txn d)); naive_solver. }
    destruct (decide _); [|intros [= <- <-]; simpl; lia].
    destruct (ParseXLogData data); [|congruence]. unfold decodeWALData.
    destruct (ParseV2 _) as [msg|]; [|intros [=]].
    destruct (decodeMessage _ _ _) as [[r1| |] d1] eqn:Hm; intros [= <- <-]; simpl.
    intros Hack. destruct (decodeMessage_ack _ _ _ _ _ Hm Hack) as [He [l ->]].
    by rewrite (decodeMessage_inTxn _ _ _ _ _ Hm).
  - intros [= <- <-]; simpl; lia.
Qed.

(** Whatever of the decoder's state one message updates by [g], a stream updates by
    the fold of [g]. *)
Lemma decode_all_lookup {A} (f : Decoder -> A) (g : A -> BackendMessage -> A) d msgs rs d' i r :
  (forall d m r d', Decode d m = (Ok r, d') -> f d' = g (f d) m) ->
  decode_all d msgs = (rs, d') -> rs !! i = Some r ->
  exists m d1 d2, msgs !! i = Some m /\ Decode d1 m = (Ok r, d2) /\
    f d1 = foldl g (f d) (take i msgs).
Proof.
  intros Hstep. revert d rs i.
  induction msgs as [|m msgs IH]; intros d rs i Hrun Hi; simpl in Hrun.
  { injection Hrun as <- <-. by rewrite lookup_nil in Hi. }
  destruct (Decode d m) as [[r1| |] d1] eqn:Hd; [|by injection Hrun as <- _..].
  destruct (decode_all d1 msgs) as [rs1 d2] eqn:Hrest. injection Hrun as <- <-.
  destruct i as [|i]; simpl in *.
  - injection Hi as <-. eauto 6.
  - destruct (IH _ _ _ Hrest Hi) as (m' & da & db & ? & ? & Hopen).
    exists m', da, db. split_and!; [done..|].
    by rewrite Hopen, (Hstep _ _ _ _ Hd).
Qed.

(** The transaction id and commit time of the last Begin of a stream. *)
Definition begun (b : Z * Z) (m : BackendMessage) : Z * Z :=
  match parsed m with Some (BeginMessage _ time xid) => (xid, time) | _ => b end.

Lemma Decode_begun d m r d' :
  Decode d m = (Ok r, d') ->
  (txn_xid (txn d'), txn_commitTime (txn d')) = begun (txn_xid (txn d), txn_commitTime (txn d)) m.
Proof.
  unfold begun, parsed. destruct m as [[|b data]|]; simpl; [congruence | | congruence].
  destruct (decide (b = PrimaryKeepaliveMessageByteID)) as [->|].
  - rewrite decide_False by discriminate. repeat case_match; congruence.
  - destruct (decide (b = XLogDataByteID)); [|congruence].
    destruct (ParseXLogData data); [|congruence]. unfold decodeWALData.
    destruct (ParseV2 _) as [msg|]; [|intros [=]].
    destruct (decodeMessage _ _ _) as [o d1] eqn:Hm. intros [= _ <-].
    destruct msg; simpl in Hm; injection Hm as <- <-; reflexivity.
Qed.

Lemma Decode_stamped d m r d' e :
  Decode d m = (Ok r, d') -> e ∈ Events r ->
  TransactionID (Metadata e) = txn_xid (txn d) /\ Timestamp (Metadata e) = txn_commitTime (txn d).
Proof.
  destruct m as [[|b data]|]; simpl; [congruence | | intros [= <- <-] []%not_elem_of_nil].
  destruct (decide _); [repeat case_match; intros [= <- <-] []%not_elem_of_nil|].
  destruct (decide _); [|intros [= <- <-] []%not_elem_of_nil].
  destruct (ParseXLogData data); [|congruence]. unfold decodeWALData.
  destruct (ParseV2 _) as [msg|]; [|intros [=]].
  destruct (decodeMessage _ _ _) as [[r1| |] d1] eqn:Hm; intros [= <- <-]; simpl. intros He.
  by destruct (decodeMessage_stamped _ _ _ _ _ _ Hm He) as (_ & _ & ? & ?).
Qed.

(** ** Properties of a stream *)

(** C13: Along any session of replication messages, from any decoder state, a
    non-zero acknowledgeable position comes with no event and only where every
    transaction that began has also committed: a position inside an open transaction
    is never offered. *)
Theorem decode_acks_only_at_boundaries d0 msgs i r :
  (decode_all d0 msgs).1 !! i = Some r -> AckLSN r <> 0%Z ->
  Events r = [] /\ foldl opens (inTxn (txn d0)) (take (S i) msgs) = false.
Proof.
  destruct (decode_all d0 msgs) as [rs d] eqn:Hrun. intros Hi Hack.
  destruct (decode_all_lookup (fun d => inTxn (txn d)) opens _ _ _ _ _ _ Decode_inTxn Hrun Hi)
    as (m & d1 & d2 & Hm & Hd & Hopen).
  destruct (Decode_ack _ _ _ _ Hd Hack) as [He Hin]. split; [exact He|].
  rewrite (take_S_r _ _ _ Hm), foldl_app. simpl in *. rewrite <- Hopen.
  by rewrite <- (Decode_inTxn _ _ _ _ Hd).
Qed.

(** Every event a session yields carries the transaction id and commit time of
    the last Begin message before it. *)
Theorem events_carry_their_transaction d0 msgs i r e :
  (decode_all d0 msgs).1 !! i = Some r -> e ∈ Events r ->
  (TransactionID (Metadata e), Timestamp (Metadata e)) =
    foldl begun (txn_xid (txn d0), txn_commitTime (txn d0)) (take i msgs).
Proof.
  destruct (decode_all d0 msgs) as [rs d] eqn:Hrun. intros Hi He.
  destruct (decode_all_lookup (fun d => (txn_xid (txn d), txn_commitTime (txn d))) begun
              _ _ _ _ _ _ Decode_begun Hrun Hi) as (m & d1 & d2 & Hm & Hd & Hbegun).
  destruct (Decode_stamped _ _ _ _ _ Hd He) as [-> ->]. exact Hbegun.
Qed.

End decoder.

(** ** A concrete instance for the witnesses *)
Definition demo_relation : RelationMessage :=
  {| rel_RelationID := 1; rel_Namespace := "public"; rel_RelationName := "users";
     rel_ReplicaIdentity := "d";
     rel_Columns := [ {| col_Flags := 1; col_Name := "id"; col_DataType := 23 |};
                      {| col_Flags := 0; col_Name := "bio"; col_DataType := 25 |} ] |}.
Definition demo_retyped : RelationMessage :=
  {| rel_RelationID := 1; rel_Namespace := "public"; rel_RelationName := "users";
     rel_ReplicaIdentity := "d";
     rel_Columns := [ {| col_Flags := 1; col_Name := "id"; col_DataType := 20 |};
                      {| col_Flags := 0; col_Name := "name"; col_DataType := 25 |} ] |}.
Definition demo_tuple (id : string) : TupleData :=
  [ {| tup_DataType := "t"; tup_Data := id |}; {| tup_DataType := "u"; tup_Data := "" |} ].

(** Messages of one letter each. *)
Definition demo_parse (s : string) : res Message :=
  if decide (s = "B") then inl (BeginMessage 110 5 7)
  else if decide (s = "C") then inl (CommitMessage 120)
  else if decide (s = "R") then inl (RelationMessageV2 demo_relation)
  else if decide (s = "1") then inl (InsertMessageV2 1 (Some (demo_tuple "1")))
  else if decide (s = "2") then inl (InsertMessageV2 1 (Some (demo_tuple "2")))
  else inr (EMsg "unknown message").
Definition demo_keepalive (s : string) : res PrimaryKeepaliveMessage :=
  inl {| pkm_ServerWALEnd := 300; pkm_ReplyRequested := false |}.
Definition demo_xlog (s : string) : res XLogData :=
  inl {| xld_WALStart := 100; xld_ServerWALEnd := 200; xld_WALData := s |}.
Definition demo_types (oid : Z) : option (string * (string -> res any)) :=
  if decide (oid = 23)%Z then Some ("int4", fun s => inl (AInt (Z.of_nat (String.length s))))
  else None.
Definition demo_stream : list BackendMessage :=
  map (fun s => CopyData s) ["wB"; "wR"; "w1"; "k"; "w2"; "wC"; "k"].

Lemma decode_acks_only_at_boundaries_witness :
  exists r, (decode_all pretty demo_types demo_keepalive demo_xlog demo_parse
               NewDecoder demo_stream).1 !! 5 = Some r /\ AckLSN r = 120%Z /\
    Events r = [] /\
    foldl (opens demo_xlog demo_parse) false (take 6 demo_stream) = false.
Proof.
  eexists. split; [vm_compute; reflexivity|]. split; [reflexivity|].
  apply (decode_acks_only_at_boundaries pretty demo_types demo_keepalive demo_xlog demo_parse
           NewDecoder demo_stream 5); [vm_compute; reflexivity | vm_compute; discriminate].
Defined.

Lemma events_carry_their_transaction_witness :
  exists r e, (decode_all pretty demo_types demo_keepalive demo_xlog demo_parse
                 NewDecoder demo_stream).1 !! 4 = Some r /\ Events r = [e] /\
    (TransactionID (Metadata e), Timestamp (Metadata e)) =
      foldl (begun demo_xlog demo_parse) (0, 0)%Z (take 4 demo_stream).
Proof.
  eexists _, _. split; [vm_compute; reflexivity|]. split; [reflexivity|].
  eapply (events_carry_their_transaction pretty demo_types demo_keepalive demo_xlog demo_parse
           NewDecoder demo_stream 4); [vm_compute; reflexivity | apply list_elem_of_here].
Defined.

Lemma schema_diff_is_exact_witness :
  exists ch, diffRelation pretty demo_types NewDecoder demo_relation demo_retyped 0 = Some ch /\
    sc_Kinds ch = [SchemaChangeColumnAdded; SchemaChangeColumnDropped; SchemaChangeColumnTypeChanged] /\
    (forall k, k ∈ sc_Kinds ch <-> kind_holds demo_relation demo_retyped k).
Proof.
  eexists. split; [vm_compute; reflexivity|]. split; [reflexivity|].
  assert (Hnd : NoDup (map col_Name (rel_Columns demo_relation))) by (apply NoDup_cons; split; [set_solver | apply NoDup_singleton]).
  exact (proj1 (schema_diff_is_exact pretty demo_types NewDecoder demo_relation demo_retyped 0 Hnd)).
Defined.

Lemma tuple_decoding_is_exact_witness :
  exists m, decodeTuple demo_types (Some (demo_tuple "1")) demo_relation = Ok (Some m, ["bio"]) /\
    m !! "id" = Some (AInt 1) /\ m !! "bio" = None.
Proof.
  assert (Hnd : NoDup (map col_Name (rel_Columns demo_relation))) by (apply NoDup_cons; split; [set_solver | apply NoDup_singleton]).
  destruct (tuple_decoding_is_exact demo_types (demo_tuple "1") demo_relation Hnd)
    as (_ & m & Hm & _ & _ & Ht).
  injection Hm as <-. eexists. split; [reflexivity|]. split; [reflexivity|].
  apply Ht. apply list_elem_of_here.
Defined.

Lemma rows_at_one_position_share_their_id_witness :
  exists d e1 e2, e1 <> e2 /\ ID e1 = ID e2 /\
    decodeMessage pretty demo_types d (InsertMessageV2 1 (Some (demo_tuple "1"))) 100
      = (Ok (with_events [e1]), d) /\
    decodeMessage pretty demo_types d (InsertMessageV2 1 (Some (demo_tuple "22"))) 100
      = (Ok (with_events [e2]), d).
Proof.
  set (d := (decode_all pretty demo_types demo_keepalive demo_xlog demo_parse
               NewDecoder (take 2 demo_stream)).2).
  eexists d, _, _. split; [|split; [|split; vm_compute; reflexivity]].
  - intros [= H].
  - eapply (rows_at_one_position_share_their_id pretty demo_types
              d (InsertMessageV2 1 (Some (demo_tuple "1"))) _
              d (InsertMessageV2 1 (Some (demo_tuple "22"))) _ 100);
      [vm_compute; reflexivity | apply list_elem_of_here | discriminate
       | vm_compute; reflexivity | apply list_elem_of_here | discriminate].
Defined.
