(* ===== verification/TypeMap.v ===== *)
(** * The column type map (src/internal/adapters/primary/wal/typemap.go)

    [NewTypeMap] starts from pgx's map and replaces the types of JSON columns, and of
    arrays of them, by ones whose codec is sonic's.  The map and its codecs are pgx's,
    an interface with the law of registration: a type is found under its number until
    another is registered for it.  The decoder's parameter [TypeForOID] is this map's
    lookup, for the WAL and for the backfill's selects alike. *)

From Stdlib Require Import ZArith Lia Ascii String.
From stdpp Require Import base list gmap strings.
From S2P Require Import Prelude Domain Decoder.

Open Scope go_scope.
Set Warnings "-clear-no-such-hyp".

Definition JSONOID : Z := 114.
Definition JSONBOID : Z := 3802.
Definition JSONArrayOID : Z := 199.
Definition JSONBArrayOID : Z := 3807.

Section typemap.
Context {Codec M : Type} (Marshal : any -> res string) (Unmarshal : string -> res any). (* sonic's *)

(** A registered type; [OtherCodec] is one of pgx's own. *)
Inductive pgType := PgType (name : string) (oid : Z) (codec : pgCodec)
with pgCodec :=
  | JSONCodec (marshal : any -> res string) (unmarshal : string -> res any)
  | JSONBCodec (marshal : any -> res string) (unmarshal : string -> res any)
  | ArrayCodec (element : pgType)
  | OtherCodec (c : Codec).
Definition pg_OID (t : pgType) : Z := let '(PgType _ oid _) := t in oid.

Context (NewMap : M) (RegisterType : M -> pgType -> M) (find : M -> Z -> option pgType).
Context (DecodeValue : M -> pgCodec -> Z -> string -> res any).

Definition jsonType : pgType := PgType "json" JSONOID (JSONCodec Marshal Unmarshal).
Definition jsonbType : pgType := PgType "jsonb" JSONBOID (JSONBCodec Marshal Unmarshal).

Definition NewTypeMap : M :=
  let m := RegisterType NewMap jsonType in
  let m := RegisterType m jsonbType in
  let m := RegisterType m (PgType "_json" JSONArrayOID (ArrayCodec jsonType)) in
  RegisterType m (PgType "_jsonb" JSONBArrayOID (ArrayCodec jsonbType)).

(** What the decoder and the backfill look up. *)
Definition types_of (m : M) (oid : Z) : option (string * (string -> res any)) :=
  '(PgType name _ codec) ← find m oid; Some (name, DecodeValue m codec oid).

Hypothesis registered : forall m t oid,
  find (RegisterType m t) oid = if decide (oid = pg_OID t) then Some t else find m oid.

(** A type that is not JSON keeps pgx's codec; JSON and its arrays have sonic's, the
    arrays through the new element types. *)
Lemma type_map_is_exact oid :
  find NewTypeMap oid =
    if decide (oid = JSONBArrayOID) then Some (PgType "_jsonb" JSONBArrayOID (ArrayCodec jsonbType))
    else if decide (oid = JSONArrayOID) then Some (PgType "_json" JSONArrayOID (ArrayCodec jsonType))
    else if decide (oid = JSONBOID) then Some jsonbType
    else if decide (oid = JSONOID) then Some jsonType
    else find NewMap oid.
Proof using registered. unfold NewTypeMap. by rewrite !registered. Qed.

(** What a cell of a JSON column, or of an array of them, becomes on either path, and
    the type's name in schema changes. *)
Lemma json_columns_use_sonic data :
  DecodeText (types_of NewTypeMap) JSONOID data = DecodeValue NewTypeMap (JSONCodec Marshal Unmarshal) JSONOID data /\
  DecodeText (types_of NewTypeMap) JSONBOID data = DecodeValue NewTypeMap (JSONBCodec Marshal Unmarshal) JSONBOID data /\
  DecodeText (types_of NewTypeMap) JSONArrayOID data = DecodeValue NewTypeMap (ArrayCodec jsonType) JSONArrayOID data /\
  DecodeText (types_of NewTypeMap) JSONBArrayOID data = DecodeValue NewTypeMap (ArrayCodec jsonbType) JSONBArrayOID data /\
  map (typeName (types_of NewTypeMap)) [JSONOID; JSONBOID; JSONArrayOID; JSONBArrayOID] = ["json"; "jsonb"; "_json"; "_jsonb"].
Proof using registered.
  unfold DecodeText, typeName, types_of. cbn [map]. rewrite !type_map_is_exact. done.
Qed.

(** Any other column is decoded as pgx's own map would have it. *)
Lemma other_columns_keep_their_codec oid :
  oid ∉ [JSONOID; JSONBOID; JSONArrayOID; JSONBArrayOID] -> find NewTypeMap oid = find NewMap oid.
Proof using registered.
  clear DecodeValue. intros H. rewrite type_map_is_exact. repeat (destruct (decide _); [set_solver|]). done.
Qed.
End typemap.
