(* ===== verification/Reader.v ===== *)
(** * The WAL reader (src/internal/adapters/primary/wal/reader.go)

    The streaming session ([streamLoop]) is two goroutines: the main one receives and
    decodes messages, collects batches and talks to the server; the delivery one runs
    the handler on the queued batches and confirms positions.  The model interleaves
    them at every access to the state they share (the queue, the failure channel, the
    outstanding counter, the confirmed position): [step] executes one such action,
    chosen by a label, and a run is a sequence of labels.  Time, the network and the
    handler's answers are in the labels, so a theorem over all runs holds for every
    timing and every handler.  The decoder and the backfill controller are parameters
    of the session. *)

From Stdlib Require Import ZArith Lia Ascii String.
From stdpp Require Import base list gmap strings pretty.
From S2P Require Import Prelude Domain SchemaChange Decoder.

Open Scope go_scope.
Set Warnings "-clear-no-such-hyp".
Set Default Proof Using "Type".

Definition WatermarkPrefix : string := "gtc-backfill".
Definition deliveryQueueDepth : nat := 2.
Definition defaultMaxBatchEvents : Z := 5000.

(** The [BackfillController] port: what the reader calls, on a state [C]. *)
Record Controller (C : Type) := {
  ObserveEvent : CDCEvent -> C -> C;
  HandleWatermark : Z -> string -> C -> list CDCEvent * C;
  WatermarkDelivered : string -> C -> C;
  OnStreamStart : C -> C;
  OnStreamStop : C -> C;
}.
Arguments OnStreamStart {C}. Arguments OnStreamStop {C}.
Arguments ObserveEvent {C}. Arguments HandleWatermark {C}. Arguments WatermarkDelivered {C}.

(** One unit of work for the delivery goroutine. *)
Record delivery := {
  events : list CDCEvent;
  ack : Z;
  watermark : option string;
}.

(** What is left to do of the message the main goroutine is working on. *)
Inductive op :=
  | OpFlush
  | OpPending                               (* confirm a pending ack if nothing is outstanding *)
  | OpKeepalive
  | OpReceive
  | OpEvent (e : CDCEvent)
  | OpWatermark (lsn : Z) (content : string)
  | OpAck (lsn : Z).

(** The call the main goroutine is inside of, if any. *)
Inductive sub :=
  | SNone
  | SEnqueue (counted : bool) (ds : list delivery) (* [enqueue] of each, head first *)
  | SConfirmLoad (lsn : Z)                         (* [confirm]: load and compare *)
  | SConfirmStore (lsn : Z)                        (* [confirm]: store *)
  | SConfirmDone.                                  (* [pendingAck = 0] *)

(** Where the delivery goroutine is. *)
Inductive gstate :=
  | GIdle | GHandle (d : delivery) | GMark (d : delivery) | GAck (d : delivery)
  | GStore (lsn : Z) | GDone
  | GExited (failing : option delivery). (* with the batch the handler rejected, or closed *)

(** Where the session is: streaming, draining the queue on the way out (a panic
    unwinds through the same deferred function), waiting for the delivery goroutine
    with the queue closed, or returned. *)
Inductive mode := Running | Draining | Closed | Returned.

Section session.
Context {DS C : Type}.

(** The main goroutine's variables; [decoder] belongs to the reader. *)
Record Main := {
  todo : list op;
  insub : sub;
  batch : list CDCEvent;
  pendingAck : Z;
  decoder : DS;
}.

(** What the goroutines share. *)
Record Shared := {
  queue : list delivery;
  failed : option error;
  outstanding : Z;
  clientLSN : Z;
  ctrl : C;
}.

(** What happened so far. *)
Record Log := {
  emitted : list CDCEvent;        (* events the main goroutine batched or took from a chunk *)
  handled : list CDCEvent;        (* events of the batches the handler accepted *)
  acks : list (Z * nat);          (* positions acknowledged, with the number of events before *)
  chunks : list (string * nat);   (* watermarks handled, with the number of events up to them *)
  sent : list Z;                  (* positions passed to SendStandbyStatusUpdate *)
  marked : list (string * list CDCEvent); (* watermarks delivered, with [handled] then *)
  observed : list SchemaChange;   (* what the schema observer was told *)
}.

Record session := {
  smode : mode;
  main : Main;
  shared : Shared;
  delivering : gstate;
  log : Log;
}.

Definition set_todo v (s : Main) : Main :=
  {| todo := v; insub := insub s; batch := batch s; pendingAck := pendingAck s; decoder := decoder s |}.
Definition set_insub v (s : Main) : Main :=
  {| todo := todo s; insub := v; batch := batch s; pendingAck := pendingAck s; decoder := decoder s |}.
Definition set_batch v (s : Main) : Main :=
  {| todo := todo s; insub := insub s; batch := v; pendingAck := pendingAck s; decoder := decoder s |}.
Definition set_pendingAck v (s : Main) : Main :=
  {| todo := todo s; insub := insub s; batch := batch s; pendingAck := v; decoder := decoder s |}.
Definition set_decoder v (s : Main) : Main :=
  {| todo := todo s; insub := insub s; batch := batch s; pendingAck := pendingAck s; decoder := v |}.

Definition set_queue v (s : Shared) : Shared :=
  {| queue := v; failed := failed s; outstanding := outstanding s; clientLSN := clientLSN s; ctrl := ctrl s |}.
Definition set_failed v (s : Shared) : Shared :=
  {| queue := queue s; failed := v; outstanding := outstanding s; clientLSN := clientLSN s; ctrl := ctrl s |}.
Definition set_outstanding v (s : Shared) : Shared :=
  {| queue := queue s; failed := failed s; outstanding := v; clientLSN := clientLSN s; ctrl := ctrl s |}.
Definition set_clientLSN v (s : Shared) : Shared :=
  {| queue := queue s; failed := failed s; outstanding := outstanding s; clientLSN := v; ctrl := ctrl s |}.
Definition set_ctrl v (s : Shared) : Shared :=
  {| queue := queue s; failed := failed s; outstanding := outstanding s; clientLSN := clientLSN s; ctrl := v |}.

Definition set_emitted v (s : Log) : Log :=
  {| emitted := v; handled := handled s; acks := acks s; chunks := chunks s; sent := sent s;
     marked := marked s; observed := observed s |}.
Definition set_handled v (s : Log) : Log :=
  {| emitted := emitted s; handled := v; acks := acks s; chunks := chunks s; sent := sent s;
     marked := marked s; observed := observed s |}.
Definition set_acks v (s : Log) : Log :=
  {| emitted := emitted s; handled := handled s; acks := v; chunks := chunks s; sent := sent s;
     marked := marked s; observed := observed s |}.
Definition set_chunks v (s : Log) : Log :=
  {| emitted := emitted s; handled := handled s; acks := acks s; chunks := v; sent := sent s;
     marked := marked s; observed := observed s |}.
Definition set_sent v (s : Log) : Log :=
  {| emitted := emitted s; handled := handled s; acks := acks s; chunks := chunks s; sent := v;
     marked := marked s; observed := observed s |}.
Definition set_marked v (s : Log) : Log :=
  {| emitted := emitted s; handled := handled s; acks := acks s; chunks := chunks s; sent := sent s;
     marked := v; observed := observed s |}.
Definition set_observed v (s : Log) : Log :=
  {| emitted := emitted s; handled := handled s; acks := acks s; chunks := chunks s; sent := sent s;
     marked := marked s; observed := v |}.

Definition set_smode v (s : session) : session :=
  {| smode := v; main := main s; shared := shared s; delivering := delivering s; log := log s |}.
Definition set_main v (s : session) : session :=
  {| smode := smode s; main := v; shared := shared s; delivering := delivering s; log := log s |}.
Definition set_shared v (s : session) : session :=
  {| smode := smode s; main := main s; shared := v; delivering := delivering s; log := log s |}.
Definition set_delivering v (s : session) : session :=
  {| smode := smode s; main := main s; shared := shared s; delivering := v; log := log s |}.
Definition set_log v (s : session) : session :=
  {| smode := smode s; main := main s; shared := shared s; delivering := delivering s; log := v |}.

End session.
Arguments Main : clear implicits.
Arguments Shared : clear implicits.
Arguments session : clear implicits.

(** [for start := 0; ; start += maxBatch]: the chunk in pieces of at most [maxBatch];
    the last piece, possibly the only and empty one, carries the watermark. *)
Fixpoint watermark_slices (fuel maxBatch : nat) (evs : list CDCEvent) (content : string)
    : list delivery :=
  match fuel with
  | 0 => []
  | S fuel' =>
      if decide (length evs <= maxBatch) then
        [{| events := evs; ack := 0; watermark := Some content |}]
      else {| events := take maxBatch evs; ack := 0; watermark := None |}
             :: watermark_slices fuel' maxBatch (drop maxBatch evs) content
  end.

(** The labels: a choice of the main goroutine or of the delivery goroutine. *)
Inductive exit := ExShutdown | ExCancelled | ExFailed | ExReceive | ExErrorResponse (text : string).
Inductive main_label :=
  | MLoop (flush_due keepalive_due : bool) (* no reason to leave at the top of the loop *)
  | MExit (why : exit)
  | MStep                                  (* the next action that needs no choice *)
  | MSend                                  (* [queue <- d] *)
  | MKeepalive (err : option error)        (* a standby status update and its result *)
  | MTimeout                               (* nothing received in time *)
  | MReceived (raw : BackendMessage)
  | MDrain | MClose | MReturn.
Inductive label := LMain (l : main_label) | LDeliver (result : option error).

Section steps.
Context {DS C : Type}.
Context (decode : DS -> BackendMessage -> outcome DecodeResult * DS).
Context (controller : option (Controller C)).
Context (MaxBatchEvents : Z).

Implicit Types s : session DS C.

Definition maxBatch : nat :=
  Z.to_nat (if decide (MaxBatchEvents <= 0)%Z then defaultMaxBatchEvents else MaxBatchEvents).

Definition on_main (f : Main DS -> Main DS) s := set_main (f (main s)) s.
Definition on_shared (f : Shared C -> Shared C) s := set_shared (f (shared s)) s.
Definition on_log (f : Log -> Log) s := set_log (f (log s)) s.

(** Leaving the loop runs the deferred drain. *)
Definition leave s := set_smode Draining (on_main (fun m => set_todo [] (set_insub SNone m)) s).

(** [sendStandbyStatus]: report the confirmed position. *)
Definition sendStandbyStatus s : session DS C :=
  on_log (fun l => set_sent (sent l ++ [clientLSN (shared s)]) l) s.

(** [keepalive]: a status update whose error leaves the loop. *)
Definition keepalive (err : option error) s : session DS C :=
  let s' := sendStandbyStatus s in
  match err with None => s' | Some _ => leave s' end.

(** [flush]: hand the batch over, if there is one. *)
Definition flush s : session DS C :=
  match batch (main s) with
  | [] => s
  | evs =>
      on_main (fun m =>
        set_insub (SEnqueue false [{| events := evs; ack := pendingAck m; watermark := None |}])
          (set_batch [] (set_pendingAck 0%Z m))) s
  end.

(** The body of the loop over the decoded events. *)
Definition take_event (e : CDCEvent) s : session DS C :=
  let s1 := match controller with
            | Some c => on_shared (fun h => set_ctrl (ObserveEvent c e (ctrl h)) h) s
            | None => s
            end in
  let s2 := on_log (fun l => set_emitted (emitted l ++ [e]) l)
              (on_main (fun m => set_batch (batch m ++ [e]) m) s1) in
  if decide (maxBatch <= length (batch (main s2))) then flush s2 else s2.

(** A watermark message, once the batch before it was handed over: the chunk's rows
    follow it, in pieces. *)
Definition take_watermark (lsn : Z) (content : string) s : session DS C :=
  match controller with
  | None => s
  | Some c =>
      let '(evs, ctrl') := HandleWatermark c lsn content (ctrl (shared s)) in
      on_log (fun l => set_chunks (chunks l ++ [(content, length (emitted l ++ evs))])
                         (set_emitted (emitted l ++ evs) l))
        (on_main (set_insub (SEnqueue false (watermark_slices (S (length evs)) maxBatch evs content)))
           (on_shared (set_ctrl ctrl') s))
  end.

(** The part of the loop body after a message was decoded, as what is left to do. *)
Definition message_ops (r : DecodeResult) : list op :=
  map OpEvent (Events r) ++
  match dr_Message r, controller with
  | Some msg, Some _ =>
      if decide (lm_Prefix msg = WatermarkPrefix)
      then [OpWatermark (lm_LSN msg) (lm_Content msg)] else []
  | _, _ => []
  end ++
  [OpAck (AckLSN r)] ++
  (if RequestReply r then [OpKeepalive] else []).

(** A received message: decode it, tell the schema observer, and take the rest. *)
Definition received (raw : BackendMessage) s : session DS C :=
  let '(r, d') := decode (decoder (main s)) raw in
  let s1 := on_main (set_decoder d') s in
  match r with
  | Panic | Err _ => leave s1
  | Ok r =>
      on_log (fun l => set_observed (observed l ++ SchemaChanges r) l)
        (on_main (set_todo (message_ops r)) s1)
  end.

(** One action of the main goroutine between its calls. *)
Definition main_op (o : op) (rest : list op) (l : main_label) s : option (session DS C) :=
  let s := on_main (set_todo rest) s in
  match o, l with
  | OpFlush, MStep => Some (flush s)
  | OpPending, MStep =>
      Some (if decide (0 < pendingAck (main s) /\ batch (main s) = [] /\ outstanding (shared s) = 0)%Z
            then on_main (set_insub (SConfirmLoad (pendingAck (main s)))) s else s)
  | OpKeepalive, MKeepalive err => Some (keepalive err s)
  | OpReceive, MTimeout => Some s
  | OpReceive, MExit (ExReceive | ExCancelled | ExErrorResponse _) => Some (leave s)
  | OpReceive, MReceived raw => Some (received raw s)
  | OpEvent e, MStep => Some (take_event e s)
  | OpWatermark lsn content, MStep =>
      Some (match batch (main s) with
            | [] => take_watermark lsn content s
            | _ => flush (on_main (set_todo (o :: rest)) s) (* first hand the batch over *)
            end)
  | OpAck lsn, MStep =>
      Some (if decide (0 < lsn)%Z then
              on_log (fun l => set_acks (acks l ++ [(lsn, length (emitted l))]) l)
                (on_main (fun m => set_pendingAck (Z.max (pendingAck m) lsn) m) s)
            else s)
  | _, _ => None
  end.

(** One action inside a call of the main goroutine. *)
Definition sub_step (l : main_label) s : option (session DS C) :=
  match insub (main s), l with
  | SEnqueue false (d :: ds), MStep =>
      Some (on_shared (fun h => set_outstanding (outstanding h + 1)%Z h)
              (on_main (set_insub (SEnqueue true (d :: ds))) s))
  | SEnqueue true (d :: ds), MSend =>
      if decide (length (queue (shared s)) < deliveryQueueDepth) then
        Some (on_shared (fun h => set_queue (queue h ++ [d]) h)
                (on_main (set_insub (match ds with [] => SNone | _ => SEnqueue false ds end)) s))
      else None
  | SEnqueue true _, MExit ExFailed => match failed (shared s) with Some _ => Some (leave s) | None => None end
  | SEnqueue true _, MExit ExCancelled => Some (leave s)
  | SEnqueue true _, MKeepalive err => Some (keepalive err s)
  | SConfirmLoad lsn, MStep =>
      Some (on_main (set_insub (if decide (clientLSN (shared s) < lsn)%Z
                                then SConfirmStore lsn else SConfirmDone)) s)
  | SConfirmStore lsn, MStep =>
      Some (on_shared (set_clientLSN lsn) (on_main (set_insub SConfirmDone) s))
  | SConfirmDone, MStep => Some (on_main (fun m => set_insub SNone (set_pendingAck 0%Z m)) s)
  | _, _ => None
  end.

(** The top of the loop: leave it, or go through one more iteration. *)
Definition loop_top (l : main_label) s : option (session DS C) :=
  match l with
  | MExit ExShutdown | MExit ExCancelled => Some (leave s)
  | MExit ExFailed => match failed (shared s) with Some _ => Some (leave s) | None => None end
  | MLoop flush_due keepalive_due =>
      match failed (shared s) with
      | Some _ => None
      | None =>
          Some (on_main (set_todo ((if flush_due then [OpFlush] else []) ++ [OpPending] ++
                                   (if keepalive_due then [OpKeepalive] else []) ++ [OpReceive])) s)
      end
  | _ => None
  end.

Definition main_step (l : main_label) s : option (session DS C) :=
  match smode s with
  | Running =>
      match insub (main s), todo (main s) with
      | SNone, [] => loop_top l s
      | SNone, o :: rest => main_op o rest l s
      | _, _ => sub_step l s
      end
  | Draining =>
      match l, queue (shared s) with
      | MDrain, _ :: q => Some (on_shared (set_queue q) s)
      | MClose, [] => Some (set_smode Closed s)
      | _, _ => None
      end
  | Closed =>
      match l, delivering s with
      | MReturn, GExited _ =>
          Some (set_smode Returned
                  (match controller with
                   | Some c => on_shared (fun h => set_ctrl (OnStreamStop c (ctrl h)) h) s
                   | None => s
                   end))
      | _, _ => None
      end
  | Returned => None
  end.

Definition confirms (lsn : Z) s : bool := bool_decide (clientLSN (shared s) < lsn)%Z.

(** [deliver]: what a batch's delivery returns, given the handler's answer. *)
Definition reader_deliver (result : option error) : option error :=
  match result with Some e => Some (EWrap "handler failed: " e "") | None => None end.

(** One action of the delivery goroutine; [result] is what the handler returns. *)
Definition deliver_step (result : option error) s : option (session DS C) :=
  match delivering s with
  | GIdle =>
      match queue (shared s) with
      | d :: q => Some (set_delivering (GHandle d) (on_shared (set_queue q) s))
      | [] => match smode s with
              | Closed => Some (set_delivering (GExited None) s)
              | _ => None
              end
      end
  | GHandle d =>
      match events d, reader_deliver result with
      | [], _ => Some (set_delivering (GMark d) s)
      | _, Some e => Some (set_delivering (GExited (Some d)) (on_shared (set_failed (Some e)) s))
      | evs, None =>
          Some (set_delivering (GMark d) (on_log (fun l => set_handled (handled l ++ evs) l) s))
      end
  | GMark d =>
      let s' := set_delivering (GAck d) s in
      Some match watermark d, controller with
           | Some content, Some c =>
               on_log (fun l => set_marked (marked l ++ [(content, handled l)]) l)
                 (on_shared (fun h => set_ctrl (WatermarkDelivered c content (ctrl h)) h) s')
           | _, _ => s'
           end
  | GAck d =>
      Some (set_delivering (if decide (0 < ack d)%Z then
                              if confirms (ack d) s then GStore (ack d) else GDone
                            else GDone) s)
  | GStore lsn => Some (set_delivering GDone (on_shared (set_clientLSN lsn) s))
  | GDone => Some (set_delivering GIdle (on_shared (fun h => set_outstanding (outstanding h - 1)%Z h) s))
  | GExited _ => None
  end.

Definition step (l : label) s : option (session DS C) :=
  match l with
  | LMain ml => main_step ml s
  | LDeliver result => deliver_step result s
  end.

Fixpoint run (ls : list label) s : option (session DS C) :=
  match ls with
  | [] => Some s
  | l :: rest => match step l s with Some s' => run rest s' | None => None end
  end.

(** The flag [Streaming] reads: set for as long as [streamLoop] runs. *)
Definition Streaming_flag s : bool := match smode s with Returned => false | _ => true end.

(** The state [streamLoop] starts from. *)
Definition initial (start : Z) (d : DS) (c : C) : session DS C :=
  {| smode := Running;
     main := {| todo := []; insub := SNone; batch := []; pendingAck := 0; decoder := d |};
     shared := {| queue := []; failed := None; outstanding := 0; clientLSN := start;
                  ctrl := match controller with Some k => OnStreamStart k c | None => c end |};
     delivering := GIdle;
     log := {| emitted := []; handled := []; acks := []; chunks := []; sent := [];
             marked := []; observed := [] |} |}.

End steps.

(** ** The session invariant *)
Section invariant.
Context {DS C : Type}.
Context (decode : DS -> BackendMessage -> outcome DecodeResult * DS).
Context (controller : option (Controller C)).
Context (MaxBatchEvents : Z).
Context (start : Z).

Implicit Types (s : session DS C) (L : Log).

Definition evs (ds : list delivery) : list CDCEvent := concat (map events ds).

(** The batches handed over and not yet accepted by the handler, oldest first. *)
Definition unhandled (g : gstate) : list delivery :=
  match g with GHandle d | GExited (Some d) => [d] | _ => [] end.
Definition sub_ds (u : sub) : list delivery :=
  match u with SEnqueue _ ds => ds | _ => [] end.
Definition pipeline s : list delivery :=
  unhandled (delivering s) ++ queue (shared s) ++ sub_ds (insub (main s)).

Definition busy (g : gstate) : Z :=
  match g with GIdle | GExited None => 0 | _ => 1 end.
Definition counted (u : sub) : Z := match u with SEnqueue true _ => 1 | _ => 0 end.

(** [k] was recorded with at most [n] events before it. *)
Definition within {K} (book : list (K * nat)) (k : K) (n : nat) : Prop :=
  exists m, (k, m) ∈ book /\ m <= n.

(** What a delivery promises holds once [n] events are handled. *)
Definition kept L (d : delivery) (n : nat) : Prop :=
  ((0 < ack d)%Z -> within (acks L) (ack d) n) /\
  (forall c, watermark d = Some c -> within (chunks L) c n).

Fixpoint promises L (n : nat) (ds : list delivery) : Prop :=
  match ds with
  | [] => True
  | d :: ds' => kept L d (n + length (events d)) /\ promises L (n + length (events d)) ds'
  end.

(** A position is safe to report: it is the start position, or an acknowledged one
    all of whose earlier events were handled, in order. *)
Definition safe L (lsn : Z) : Prop :=
  lsn = start \/
  exists n, (lsn, n) ∈ acks L /\ n <= length (handled L) /\ take n (handled L) = take n (emitted L).

Definition quiet s : Prop := batch (main s) = [] /\ outstanding (shared s) = 0%Z.

Definition sub_ok s : Prop :=
  match insub (main s) with
  | SNone => True
  | SEnqueue _ ds => ds <> [] /\ batch (main s) = []
  | SConfirmLoad l | SConfirmStore l => l = pendingAck (main s) /\ (0 < l)%Z /\ quiet s
  | SConfirmDone => quiet s
  end.

Definition deliver_ok s : Prop :=
  match delivering s with
  | GMark d | GAck d => kept (log s) d (length (handled (log s)))
  | GStore l => within (acks (log s)) l (length (handled (log s)))
  | _ => True
  end.

Record Streaming s : Prop := {
  str_order : emitted (log s) = handled (log s) ++ evs (pipeline s) ++ batch (main s);
  str_sub : sub_ok s;
  str_outstanding :
    outstanding (shared s) =
      (counted (insub (main s)) + Z.of_nat (length (queue (shared s))) + busy (delivering s))%Z;
  str_pending : (0 < pendingAck (main s))%Z ->
    within (acks (log s)) (pendingAck (main s)) (length (emitted (log s)));
  str_promises : promises (log s) (length (handled (log s))) (pipeline s);
  str_deliver : deliver_ok s;
  str_confirmed : clientLSN (shared s) = start \/
    within (acks (log s)) (clientLSN (shared s)) (length (handled (log s)));
  str_marked : forall c h, (c, h) ∈ marked (log s) ->
    exists n, (c, n) ∈ chunks (log s) /\ n <= length h /\ h `prefix_of` handled (log s);
}.

Record Inv s : Prop := {
  inv_sent : forall l, l ∈ sent (log s) -> safe (log s) l;
  inv_streaming : smode s = Running -> Streaming s;
}.

(** *** Monotonicity *)
Lemma evs_app a b : evs (a ++ b) = evs a ++ evs b.
Proof. unfold evs. by rewrite map_app, concat_app. Qed.

Lemma evs_one d : evs [d] = events d.
Proof. apply app_nil_r. Qed.

Lemma within_mono {K} (b b' : list (K * nat)) k n n' :
  within b k n -> n <= n' -> (forall x, x ∈ b -> x ∈ b') -> within b' k n'.
Proof. intros (m & Hin & Hm) Hn Hb. exists m. split; [auto | lia]. Qed.

Definition grows L L' : Prop :=
  (forall x, x ∈ acks L -> x ∈ acks L') /\ (forall x, x ∈ chunks L -> x ∈ chunks L').

Lemma kept_mono L L' d n n' : kept L d n -> n <= n' -> grows L L' -> kept L' d n'.
Proof. intros [Ha Hc] Hn [Hga Hgc]. split; eauto using within_mono. Qed.

Lemma promises_mono L L' n ds : promises L n ds -> grows L L' -> promises L' n ds.
Proof.
  revert n. induction ds as [|d ds IH]; intros n; simpl; [done|].
  intros [Hd Hds] Hg. split; [by eapply kept_mono | by apply IH].
Qed.

Lemma promises_app L n a b :
  promises L n (a ++ b) <-> promises L n a /\ promises L (n + length (evs a)) b.
Proof.
  revert n. induction a as [|d a IH]; intros n; simpl.
  - rewrite Nat.add_0_r. tauto.
  - rewrite IH. unfold evs. simpl. rewrite length_app, Nat.add_assoc. unfold evs. tauto.
Qed.

(** A position that became safe stays so while the logs grow. *)
Lemma safe_mono L L' lsn :
  safe L lsn -> (forall x, x ∈ acks L -> x ∈ acks L') ->
  handled L `prefix_of` handled L' -> emitted L `prefix_of` emitted L' -> safe L' lsn.
Proof.
  intros [->|(n & Hin & Hn & Heq)] Ha [h Hh] [e He]; [by left | right].
  assert (n <= length (emitted L)).
  { apply (f_equal length) in Heq. rewrite !length_take in Heq. lia. }
  exists n. rewrite Hh, He, length_app, !take_app_le by lia. split_and!; auto. lia.
Qed.

Lemma confirmed_safe s : Streaming s -> safe (log s) (clientLSN (shared s)).
Proof.
  intros Hs. destruct (str_confirmed _ Hs) as [->|(n & Hin & Hn)]; [by left | right].
  exists n. split_and!; [done..|]. rewrite (str_order _ Hs), take_app_le by lia. reflexivity.
Qed.

(** *** The main goroutine's actions keep the invariant *)
Lemma streaming_todo s t : Streaming s -> Streaming (on_main (set_todo t) s).
Proof. intros []; constructor; assumption. Qed.

(** Logging a status update or a schema change. *)
Lemma streaming_log s f :
  Streaming s ->
  (forall L, emitted (f L) = emitted L /\ handled (f L) = handled L /\ acks (f L) = acks L /\
     chunks (f L) = chunks L /\ marked (f L) = marked L) ->
  Streaming (on_log f s).
Proof.
  intros [Ho Hsub Hout Hp Hpr Hd Hc Hm] Hf. destruct (Hf (log s)) as (E1 & E2 & E3 & E4 & E5).
  assert (Hg : grows (log s) (f (log s))) by (split; intros x; rewrite ?E3, ?E4; done).
  constructor; simpl; rewrite ?E1, ?E2, ?E3, ?E4, ?E5; try assumption.
  - by eapply promises_mono.
  - unfold deliver_ok in *. simpl. rewrite E2. destruct (delivering s); try done;
      [by eapply kept_mono | by eapply kept_mono | rewrite E3; exact Hd].
Qed.

Lemma streaming_sub_irrelevant s u :
  Streaming s -> sub_ds (insub (main s)) = [] -> counted (insub (main s)) = 0%Z ->
  sub_ds u = [] -> counted u = 0%Z -> sub_ok (on_main (set_insub u) s) ->
  Streaming (on_main (set_insub u) s).
Proof.
  intros [Ho _ Hout Hp Hpr Hd Hc Hm] H1 H2 H3 H4 Hu.
  constructor; try assumption; unfold pipeline in *; simpl; rewrite ?H3, ?H4, ?H1, ?H2 in *; assumption.
Qed.

Lemma streaming_flush s : Streaming s -> insub (main s) = SNone -> Streaming (flush s).
Proof.
  intros Hs Hsub. unfold flush. destruct (batch (main s)) as [|e b] eqn:Hb; [exact Hs|].
  destruct Hs as [Ho _ Hout Hp Hpr Hd Hc Hm]. unfold pipeline in *. rewrite Hsub in *. simpl in *.
  rewrite app_nil_r in Ho, Hpr.
  constructor; simpl; try assumption.
  - unfold pipeline. simpl. rewrite Ho, !evs_app, <- !app_assoc. rewrite evs_one. simpl.
    by rewrite app_nil_r, Hb.
  - unfold sub_ok. simpl. split; done.
  - lia.
  - unfold pipeline. simpl. rewrite app_assoc, promises_app. split; [exact Hpr|]. simpl. split; [|done].
    split; simpl; [|done]. intros Ha. eapply within_mono; [by apply Hp | | done].
    rewrite Ho, Hb, !length_app. simpl. lia.
Qed.

Lemma streaming_append s e :
  Streaming s -> insub (main s) = SNone ->
  Streaming (on_log (fun l => set_emitted (emitted l ++ [e]) l)
               (on_main (fun m => set_batch (batch m ++ [e]) m) s)).
Proof.
  intros [Ho _ Hout Hp Hpr Hd Hc Hm] Hsub. constructor; simpl; try assumption.
  - rewrite Ho. unfold pipeline. simpl. by rewrite !app_assoc.
  - unfold sub_ok. simpl. by rewrite Hsub.
  - intros Ha. eapply within_mono; [by apply Hp | rewrite length_app; lia | done].
  - eapply promises_mono; [exact Hpr | done].
Qed.

Lemma streaming_ctrl s c : Streaming s -> Streaming (on_shared (set_ctrl c) s).
Proof. intros []; constructor; assumption. Qed.

Lemma streaming_take_event s e :
  Streaming s -> insub (main s) = SNone ->
  Streaming (take_event controller MaxBatchEvents e s).
Proof.
  intros Hs Hsub. unfold take_event.
  set (s1 := match controller with Some c => _ | None => s end).
  assert (Streaming s1 /\ insub (main s1) = SNone) as [Hs1 Hsub1].
  { subst s1. destruct controller; [split; [by apply streaming_ctrl | done] | done]. }
  pose proof (streaming_append s1 e Hs1 Hsub1) as H2.
  destruct (decide _); [apply streaming_flush; [exact H2 | exact Hsub1] | exact H2].
Qed.

Lemma maxBatch_pos : maxBatch MaxBatchEvents <> 0.
Proof. unfold maxBatch, defaultMaxBatchEvents. destruct (decide _); lia. Qed.

Lemma watermark_slices_spec fuel mb l c :
  mb <> 0 -> length l < fuel ->
  evs (watermark_slices fuel mb l c) = l /\ watermark_slices fuel mb l c <> [] /\
  Forall (fun d => length (events d) <= mb) (watermark_slices fuel mb l c) /\
  (forall L n, within (chunks L) c (n + length l) -> promises L n (watermark_slices fuel mb l c)).
Proof.
  intros Hmb. revert l. induction fuel as [|fuel IH]; intros l Hl; [lia|]. simpl.
  destruct (decide (length l <= mb)) as [Hs|Hs].
  - split_and!; [apply evs_one | done | by constructor |].
    intros L n Hw. split; [|done]. split; simpl; [lia | by intros ? [= <-]].
  - destruct (IH (drop mb l)) as (He & Hne & Hf & Hp); [rewrite length_drop; lia|].
    assert (Ht : length (take mb l) = mb) by (rewrite length_take; lia).
    split_and!.
    + unfold evs in *. simpl. by rewrite He, take_drop.
    + done.
    + constructor; [simpl; lia | exact Hf].
    + intros L n Hw. split; [split; simpl; [lia | done]|]. simpl. apply Hp.
      rewrite Ht, length_drop. by replace (n + mb + (length l - mb)) with (n + length l) by lia.
Qed.

Lemma streaming_take_watermark s lsn content :
  Streaming s -> insub (main s) = SNone -> batch (main s) = [] ->
  Streaming (take_watermark controller MaxBatchEvents lsn content s).
Proof.
  intros Hs Hsub Hb. unfold take_watermark. destruct controller as [k|]; [|exact Hs].
  destruct (HandleWatermark k lsn content (ctrl (shared s))) as [rows c'].
  destruct (watermark_slices_spec (S (length rows)) (maxBatch MaxBatchEvents) rows content
              maxBatch_pos ltac:(lia)) as (He & Hne & _ & Hpw).
  generalize dependent (watermark_slices (S (length rows)) (maxBatch MaxBatchEvents) rows content).
  intros ds He Hne Hpw.
  destruct Hs as [Ho _ Hout Hp Hpr Hd Hc Hm]. unfold pipeline in *. rewrite Hsub, Hb in *.
  simpl in *. rewrite app_nil_r in Ho, Hpr. rewrite app_nil_r in Ho.
  constructor; simpl; try assumption.
  - unfold pipeline. simpl. rewrite Hb, app_nil_r, app_assoc, evs_app, He, Ho.
    by rewrite !app_assoc.
  - unfold sub_ok. simpl. done.
  - intros Ha. eapply within_mono; [by apply Hp | rewrite length_app; lia | done].
  - unfold pipeline. simpl. rewrite app_assoc. apply promises_app. split.
    + eapply promises_mono; [exact Hpr|]. split; simpl; [done|]. intros x Hx. apply elem_of_app. by left.
    + apply Hpw. simpl. exists (length (emitted (log s) ++ rows)). split.
      * apply elem_of_app. right. by left.
      * rewrite Ho, !length_app. lia.
  - unfold deliver_ok in *. simpl. destruct (delivering s); try done; eapply kept_mono; try exact Hd;
      try reflexivity; (split; simpl; [done|]; intros x Hx; apply elem_of_app; by left).
  - intros c h Hin. destruct (Hm c h Hin) as (n & Hn & Hrest). exists n. split; [|exact Hrest].
    apply elem_of_app. by left.
Qed.

Lemma streaming_ack s lsn :
  Streaming s -> insub (main s) = SNone ->
  Streaming (on_log (fun l => set_acks (acks l ++ [(lsn, length (emitted l))]) l)
               (on_main (fun m => set_pendingAck (Z.max (pendingAck m) lsn) m) s)).
Proof.
  intros [Ho _ Hout Hp Hpr Hd Hc Hm] Hsub.
  assert (Hg : forall x, x ∈ acks (log s) -> x ∈ acks (log s) ++ [(lsn, length (emitted (log s)))]).
  { intros x Hx. apply elem_of_app. by left. }
  constructor; simpl; try assumption.
  - unfold sub_ok. simpl. by rewrite Hsub.
  - intros Ha. destruct (Z.max_spec (pendingAck (main s)) lsn) as [[Hlt ->]|[Hge Heq]].
    + exists (length (emitted (log s))). split; [|lia]. apply elem_of_app. right. by left.
    + rewrite Heq in *. eapply within_mono; [by apply Hp | reflexivity | exact Hg].
  - eapply promises_mono; [exact Hpr | done].
  - unfold deliver_ok in *. simpl. destruct (delivering s); try done;
      [eapply kept_mono | eapply kept_mono | eapply within_mono]; try exact Hd; done.
  - destruct Hc as [Hc|Hc]; [by left | right]. eapply within_mono; [exact Hc | reflexivity | exact Hg].
Qed.

(** *** Preservation *)
Record log_grows L L' : Prop := {
  lg_sent : sent L' = sent L;
  lg_acks : forall x, x ∈ acks L -> x ∈ acks L';
  lg_handled : handled L `prefix_of` handled L';
  lg_emitted : emitted L `prefix_of` emitted L';
}.

Lemma log_grows_refl L : log_grows L L.
Proof. by constructor. Qed.

Lemma inv_step s s' :
  Inv s -> log_grows (log s) (log s') -> (smode s' = Running -> Streaming s') -> Inv s'.
Proof.
  intros [Hsent _] [Hs Ha Hh He] Hrun. constructor; [|exact Hrun].
  intros l Hl. rewrite Hs in Hl. eapply safe_mono; eauto.
Qed.

Lemma inv_leave s : Inv s -> Inv (leave s).
Proof. intros Hi. eapply inv_step; [exact Hi | apply log_grows_refl | discriminate]. Qed.

Lemma inv_keepalive s err : Inv s -> smode s = Running -> Inv (keepalive err s).
Proof.
  intros Hi Hm. assert (Hs : Streaming s) by (by apply inv_streaming).
  assert (Hi' : Inv (on_log (fun l => set_sent (sent l ++ [clientLSN (shared s)]) l) s)).
  { constructor; simpl.
    - intros l [Hl|Hl]%elem_of_app.
      + eapply safe_mono; [by apply (inv_sent _ Hi) | done..].
      + apply list_elem_of_singleton in Hl as ->.
        eapply safe_mono; [by apply confirmed_safe | done..].
    - intros _. by apply (streaming_log s). }
  unfold keepalive. destruct err; [by apply inv_leave | exact Hi'].
Qed.

Lemma inv_flush s : Inv s -> smode s = Running -> insub (main s) = SNone -> Inv (flush s).
Proof.
  intros Hi Hm Hsub. eapply inv_step; [exact Hi | |].
  - unfold flush. destruct (batch (main s)); apply log_grows_refl.
  - intros _. apply streaming_flush; [by apply inv_streaming | exact Hsub].
Qed.

Lemma inv_received s raw :
  Inv s -> smode s = Running -> Inv (received decode controller raw s).
Proof.
  intros Hi Hm. unfold received. destruct (decode _ raw) as [r d'].
  assert (Hi' : Inv (on_main (set_decoder d') s)).
  { eapply inv_step; [exact Hi | apply log_grows_refl|]. intros _.
    destruct (inv_streaming _ Hi Hm). constructor; assumption. }
  destruct r; [|by apply inv_leave..].
  eapply inv_step; [exact Hi' | by constructor|]. intros _. apply streaming_log; [|done].
  apply streaming_todo. by apply inv_streaming.
Qed.

Lemma inv_take_event s e :
  Inv s -> smode s = Running -> insub (main s) = SNone ->
  Inv (take_event controller MaxBatchEvents e s).
Proof.
  intros Hi Hm Hsub. eapply inv_step; [exact Hi | |].
  - unfold take_event, flush. repeat case_match; constructor; simpl; try done; by apply prefix_app_r.
  - intros _. apply streaming_take_event; [by apply inv_streaming | exact Hsub].
Qed.

Lemma inv_take_watermark s lsn content :
  Inv s -> smode s = Running -> insub (main s) = SNone -> batch (main s) = [] ->
  Inv (take_watermark controller MaxBatchEvents lsn content s).
Proof.
  intros Hi Hm Hsub Hb. eapply inv_step; [exact Hi | |].
  - unfold take_watermark. repeat case_match; constructor; simpl; try done; by apply prefix_app_r.
  - intros _. apply streaming_take_watermark; [by apply inv_streaming | exact Hsub | exact Hb].
Qed.

Lemma inv_todo s t : Inv s -> Inv (on_main (set_todo t) s).
Proof.
  intros Hi. eapply inv_step; [exact Hi | apply log_grows_refl|].
  intros Hm. apply streaming_todo. by apply inv_streaming.
Qed.

Lemma inv_main_op o rest l s s' :
  Inv s -> smode s = Running -> insub (main s) = SNone ->
  main_op decode controller MaxBatchEvents o rest l s = Some s' -> Inv s'.
Proof.
  intros Hi Hm Hsub. unfold main_op.
  pose proof (inv_todo s rest Hi) as Hi'. revert Hi'.
  set (s1 := on_main (set_todo rest) s). intros Hi1.
  assert (Hm1 : smode s1 = Running) by exact Hm.
  assert (Hsub1 : insub (main s1) = SNone) by exact Hsub.
  destruct o, l as [| [| | | |] | | | | | | | |]; intros [= <-];
    auto using inv_flush, inv_leave, inv_keepalive, inv_received, inv_take_event.
  - destruct (decide _) as [(Hp & Hb & Ho)|]; [|exact Hi1].
    eapply inv_step; [exact Hi1 | apply log_grows_refl|]. intros _.
    apply streaming_sub_irrelevant; rewrite ?Hsub1; try done. by apply inv_streaming.
  - destruct (batch (main s)) eqn:Hb; [by apply inv_take_watermark|].
    apply inv_flush; [by apply inv_todo | done..].
  - destruct (decide _); [|exact Hi1]. eapply inv_step; [exact Hi1 | |].
    + constructor; simpl; try done. intros x Hx. apply elem_of_app. by left.
    + intros _. apply streaming_ack; [by apply inv_streaming | exact Hsub1].
Qed.

Lemma streaming_count s d ds :
  Streaming s -> insub (main s) = SEnqueue false (d :: ds) ->
  Streaming (on_shared (fun h => set_outstanding (outstanding h + 1)%Z h)
               (on_main (set_insub (SEnqueue true (d :: ds))) s)).
Proof.
  intros [Ho Hsub Hout Hp Hpr Hd Hc Hm] Hin. unfold sub_ok, pipeline in *. rewrite Hin in *.
  constructor; try assumption. simpl in *. lia.
Qed.

Lemma streaming_send s d ds :
  Streaming s -> insub (main s) = SEnqueue true (d :: ds) ->
  Streaming (on_shared (fun h => set_queue (queue h ++ [d]) h)
               (on_main (set_insub (match ds with [] => SNone | _ => SEnqueue false ds end)) s)).
Proof.
  intros [Ho Hsub Hout Hp Hpr Hd Hc Hm] Hin. unfold sub_ok, pipeline in *. rewrite Hin in *.
  destruct Hsub as [_ Hb]. simpl in *.
  assert (Hds : sub_ds (match ds with [] => SNone | _ => SEnqueue false ds end) = ds) by (by destruct ds).
  constructor; simpl; try assumption.
  - unfold pipeline. simpl. rewrite Hds, <- (app_assoc _ [d] ds). exact Ho.
  - unfold sub_ok. simpl. by destruct ds.
  - rewrite length_app. simpl. destruct ds; simpl; lia.
  - unfold pipeline. simpl. rewrite Hds, <- (app_assoc _ [d] ds). exact Hpr.
Qed.

(** With nothing outstanding and no batch, everything emitted was handled. *)
Lemma quiet_all_handled s :
  Streaming s -> quiet s -> sub_ds (insub (main s)) = [] -> emitted (log s) = handled (log s).
Proof.
  intros [Ho _ Hout _ _ _ _ _] [Hb Hq] Hsub.
  assert (Hcnt : (0 <= counted (insub (main s)))%Z) by (destruct (insub (main s)) as [| [] | | |]; simpl; lia).
  assert (Hbusy : (0 <= busy (delivering s))%Z) by (destruct (delivering s) as [| | | | | |[]]; simpl; lia).
  assert (Hq0 : queue (shared s) = []) by (apply nil_length_inv; lia).
  assert (Hg : unhandled (delivering s) = []).
  { assert (busy (delivering s) = 0%Z) as H0 by lia. destruct (delivering s) as [| | | | | |[]]; done. }
  rewrite Ho. unfold pipeline. rewrite Hq0, Hg, Hsub, Hb. simpl. by rewrite !app_nil_r.
Qed.

Lemma streaming_confirm s lsn :
  Streaming s -> insub (main s) = SConfirmStore lsn ->
  Streaming (on_shared (set_clientLSN lsn) (on_main (set_insub SConfirmDone) s)).
Proof.
  intros Hs Hin. pose proof (str_sub _ Hs) as Hsub. unfold sub_ok in Hsub. rewrite Hin in Hsub.
  destruct Hsub as (-> & Hp0 & Hq).
  pose proof (quiet_all_handled s Hs Hq ltac:(by rewrite Hin)) as Hall.
  destruct Hs as [Ho _ Hout Hp Hpr Hd Hc Hm]. unfold pipeline in *. rewrite Hin in *.
  constructor; simpl; try assumption. right. rewrite <- Hall. by apply Hp.
Qed.

Lemma inv_sub_step l s s' :
  Inv s -> smode s = Running -> sub_step l s = Some s' -> Inv s'.
Proof.
  intros Hi Hm. pose proof (inv_streaming _ Hi Hm) as Hs. pose proof (str_sub _ Hs) as Hsub.
  unfold sub_ok in Hsub. unfold sub_step. destruct (insub (main s)) as [|[] [|d ds]|lsn|lsn|] eqn:Hin;
    destruct l as [| [| | | |] | | | | | | | |]; try discriminate;
    try (destruct (failed (shared s)); [|discriminate]);
    try (destruct (decide _); [|discriminate]);
    intros [= <-]; auto using inv_leave, inv_keepalive;
    (eapply inv_step; [exact Hi | apply log_grows_refl | intros _]).
  - by apply streaming_send.
  - by apply streaming_count.
  - destruct Hsub as (-> & Hp & Hq). apply streaming_sub_irrelevant; rewrite ?Hin; try done;
      destruct (decide _); done.
  - by apply streaming_confirm.
  - destruct Hs as [Ho _ Hout Hp Hpr Hd Hc Hmk]. unfold pipeline in *. rewrite Hin in *.
    constructor; simpl; try assumption; done.
Qed.

Lemma inv_main_step l s s' :
  Inv s -> main_step decode controller MaxBatchEvents l s = Some s' -> Inv s'.
Proof.
  intros Hi. unfold main_step. destruct (smode s) eqn:Hm; [| | |discriminate].
  - destruct (insub (main s)) eqn:Hin; [|by apply inv_sub_step..].
    destruct (todo (main s)) as [|o rest]; [|by apply inv_main_op].
    unfold loop_top. destruct l as [| [| | | |] | | | | | | | |]; try discriminate;
      try (destruct (failed (shared s)); try discriminate);
      intros [= <-]; auto using inv_leave, inv_todo.
  - destruct l, (queue (shared s)); try discriminate; intros [= <-];
      (eapply inv_step; [exact Hi | apply log_grows_refl | simpl; congruence]).
  - destruct l, (delivering s); try discriminate; intros [= <-].
    destruct controller; (eapply inv_step; [exact Hi | apply log_grows_refl | simpl; congruence]).
Qed.

(** *** The delivery goroutine's actions keep the invariant *)
Lemma streaming_dequeue s d q :
  Streaming s -> delivering s = GIdle -> queue (shared s) = d :: q ->
  Streaming (set_delivering (GHandle d) (on_shared (set_queue q) s)).
Proof.
  intros [Ho Hsub Hout Hp Hpr Hd Hc Hm] Hg Hq. unfold pipeline in *. rewrite Hg, Hq in *. simpl in *.
  constructor; simpl; try assumption; [simpl; lia | done].
Qed.

Lemma streaming_handled s d :
  Streaming s -> delivering s = GHandle d ->
  Streaming (set_delivering (GMark d) (on_log (fun l => set_handled (handled l ++ events d) l) s)).
Proof.
  intros [Ho Hsub Hout Hp Hpr Hd Hc Hm] Hg. unfold pipeline in *. rewrite Hg in *. simpl in *.
  destruct Hpr as [Hk Hpr].
  constructor; simpl; rewrite ?length_app; try assumption.
  - rewrite Ho. unfold evs, pipeline. simpl. by rewrite !app_assoc.
  - eapply promises_mono; [exact Hpr | done].
  - unfold deliver_ok. simpl. rewrite length_app. eapply kept_mono; [exact Hk | lia | done].
  - destruct Hc as [Hc|Hc]; [by left | right]. eapply within_mono; [exact Hc | lia | done].
  - intros c h Hin. destruct (Hm c h Hin) as (n & Hn & Hle & Hpre). exists n.
    split_and!; [done..|]. by apply prefix_app_r.
Qed.

Lemma streaming_failed s d e :
  Streaming s -> delivering s = GHandle d ->
  Streaming (set_delivering (GExited (Some d)) (on_shared (set_failed e) s)).
Proof.
  intros [Ho Hsub Hout Hp Hpr Hd Hc Hm] Hg. unfold pipeline in *. rewrite Hg in *.
  constructor; simpl; try assumption. done.
Qed.

Lemma streaming_marked s d :
  Streaming s -> delivering s = GMark d ->
  Streaming (match watermark d, controller with
             | Some content, Some c =>
                 on_log (fun l => set_marked (marked l ++ [(content, handled l)]) l)
                   (on_shared (fun h => set_ctrl (WatermarkDelivered c content (ctrl h)) h)
                      (set_delivering (GAck d) s))
             | _, _ => set_delivering (GAck d) s
             end).
Proof.
  intros Hs Hg. assert (H1 : Streaming (set_delivering (GAck d) s)).
  { destruct Hs as [Ho Hsub Hout Hp Hpr Hd Hc Hm]. unfold pipeline, deliver_ok in *. rewrite Hg in *.
    constructor; try assumption. }
  destruct (watermark d) as [c|] eqn:Hw; [|exact H1]. destruct controller; [|exact H1].
  pose proof (str_deliver _ Hs) as Hd. unfold deliver_ok in Hd. rewrite Hg in Hd. clear Hs.
  destruct Hd as [_ Hd]. destruct H1 as [Ho Hsub Hout Hp Hpr Hdl Hc Hm].
  constructor; simpl; try assumption.
  - eapply promises_mono; [exact Hpr | done].
  - intros c' h [Hin|Hin]%elem_of_app; [by apply Hm|].
    apply list_elem_of_singleton in Hin as [= -> ->]. destruct (Hd c Hw) as (n & Hn & Hle). eauto.
Qed.

Lemma streaming_load s d :
  Streaming s -> delivering s = GAck d ->
  Streaming (set_delivering (if decide (0 < ack d)%Z then
                               if confirms (ack d) s then GStore (ack d) else GDone
                             else GDone) s).
Proof.
  intros [Ho Hsub Hout Hp Hpr Hd Hc Hm] Hg. unfold pipeline, deliver_ok in *. rewrite Hg in *.
  destruct (decide _); [destruct (confirms _ _)|]; constructor; try assumption; try done.
  by apply Hd.
Qed.

Lemma streaming_store s lsn :
  Streaming s -> delivering s = GStore lsn ->
  Streaming (set_delivering GDone (on_shared (set_clientLSN lsn) s)).
Proof.
  intros [Ho Hsub Hout Hp Hpr Hd Hc Hm] Hg. unfold pipeline, deliver_ok in *. rewrite Hg in *.
  constructor; try assumption; simpl; [done | right; exact Hd].
Qed.

Lemma streaming_decrement s :
  Streaming s -> delivering s = GDone ->
  Streaming (set_delivering GIdle (on_shared (fun h => set_outstanding (outstanding h - 1)%Z h) s)).
Proof.
  intros [Ho Hsub Hout Hp Hpr Hd Hc Hm] Hg. unfold pipeline, deliver_ok in *. rewrite Hg in *.
  simpl in *. constructor; try assumption; simpl; [| lia].
  assert (Hcnt : (0 <= counted (insub (main s)))%Z) by (destruct (insub (main s)) as [| [] | | |]; simpl; lia).
  unfold sub_ok, quiet in *. simpl. destruct (insub (main s)); try done; exfalso; destruct Hsub; simpl in *; lia.
Qed.

Lemma deliver_log_grows r s s' :
  deliver_step controller r s = Some s' -> log_grows (log s) (log s').
Proof.
  unfold deliver_step. intros H. repeat case_match; simplify_eq; constructor; simpl; try done;
    by apply prefix_app_r.
Qed.

Lemma deliver_mode r s s' : deliver_step controller r s = Some s' -> smode s' = smode s.
Proof. unfold deliver_step. intros H. repeat case_match; simplify_eq; simpl; congruence. Qed.

Lemma inv_deliver_step r s s' : Inv s -> deliver_step controller r s = Some s' -> Inv s'.
Proof.
  intros Hi Hstep. eapply inv_step; [exact Hi | by eapply deliver_log_grows|].
  rewrite (deliver_mode _ _ _ Hstep). intros Hm. pose proof (inv_streaming _ Hi Hm) as Hs. revert Hstep.
  unfold deliver_step. destruct (delivering s) eqn:Hg.
  - destruct (queue (shared s)) eqn:Hq; [rewrite Hm; discriminate|]. intros [= <-]. by apply streaming_dequeue.
  - destruct (events d) as [|e es] eqn:He; [|destruct r]; intros [= <-].
    + pose proof (streaming_handled s d Hs Hg) as H. rewrite He in H.
      destruct H as [Ho Hsub Hout Hp Hpr Hd Hc Hmk]. simpl in *. rewrite app_nil_r in *.
      constructor; try assumption; simpl.
      * eapply promises_mono; [exact Hpr | done].
      * unfold deliver_ok in *. simpl in *. by rewrite app_nil_r in Hd.
    + by apply streaming_failed.
    + rewrite <- He. by apply streaming_handled.
  - intros [= <-]. by apply streaming_marked.
  - intros [= <-]. by apply streaming_load.
  - intros [= <-]. by apply streaming_store.
  - intros [= <-]. by apply streaming_decrement.
  - discriminate.
Qed.

Lemma inv_run ls s s' :
  Inv s -> run decode controller MaxBatchEvents ls s = Some s' -> Inv s'.
Proof.
  revert s. induction ls as [|l ls IH]; intros s Hi; simpl; [by intros [= <-]|].
  destruct (step _ _ _ l s) as [s1|] eqn:Hstep; [|discriminate]. apply IH.
  destruct l; simpl in Hstep; [by eapply inv_main_step | by eapply inv_deliver_step].
Qed.

Lemma inv_initial d c : Inv (initial controller start d c).
Proof.
  constructor; simpl; [by intros l []%not_elem_of_nil|]. intros _.
  constructor; simpl; try done; try (by left). by intros ? ? []%not_elem_of_nil.
Qed.

(** *** Bounds *)
Definition small (d : delivery) : Prop := length (events d) <= maxBatch MaxBatchEvents.

Record Bounded s : Prop := {
  bnd_queue : length (queue (shared s)) <= deliveryQueueDepth;
  bnd_pipeline : Forall small (pipeline s);
  bnd_batch : length (batch (main s)) < maxBatch MaxBatchEvents;
}.

Lemma bounded_same s s' :
  Bounded s -> queue (shared s') = queue (shared s) -> batch (main s') = batch (main s) ->
  (Forall small (pipeline s) -> Forall small (pipeline s')) -> Bounded s'.
Proof. intros [Hq Hp Hb] Eq Eb Hpp. constructor; rewrite ?Eq, ?Eb; auto. Qed.

Lemma pipeline_small s :
  Forall small (pipeline s) <->
  Forall small (unhandled (delivering s)) /\ Forall small (queue (shared s)) /\
  Forall small (sub_ds (insub (main s))).
Proof. unfold pipeline. by rewrite !Forall_app. Qed.

Lemma bounded_leave s : Bounded s -> Bounded (leave s).
Proof.
  intros Hb. eapply bounded_same; [exact Hb | done..|]. rewrite !pipeline_small. simpl. naive_solver.
Qed.

Lemma bounded_flush s :
  length (queue (shared s)) <= deliveryQueueDepth -> Forall small (pipeline s) ->
  length (batch (main s)) <= maxBatch MaxBatchEvents -> insub (main s) = SNone -> Bounded (flush s).
Proof.
  intros Hq Hp Hb Hsub. pose proof maxBatch_pos. unfold flush.
  destruct (batch (main s)) as [|e b] eqn:Eb.
  - constructor; [done | done | rewrite Eb; simpl; lia].
  - constructor; simpl; [done | | lia]. rewrite pipeline_small in *. simpl. rewrite Hsub in Hp.
    destruct Hp as (? & ? & _). split_and!; [done..|]. by constructor.
Qed.

Lemma bounded_take_event s e :
  Bounded s -> insub (main s) = SNone -> Bounded (take_event controller MaxBatchEvents e s).
Proof.
  intros [Hq Hp Hb] Hsub. unfold take_event.
  assert (Hlen : length (batch (main s) ++ [e]) <= maxBatch MaxBatchEvents) by (rewrite length_app; simpl; lia).
  destruct controller; (destruct (decide _) as [Hd|Hd];
    [apply bounded_flush; assumption | constructor; simpl in *; [done | exact Hp | lia]]).
Qed.

Lemma bounded_take_watermark s lsn content :
  Bounded s -> insub (main s) = SNone ->
  Bounded (take_watermark controller MaxBatchEvents lsn content s).
Proof.
  intros Hb Hsub. unfold take_watermark. destruct controller as [k|]; [|exact Hb].
  destruct (HandleWatermark k lsn content (ctrl (shared s))) as [rows c'].
  eapply bounded_same; [exact Hb | done..|]. rewrite !pipeline_small. intros (? & ? & _).
  split_and!; [done..|]. apply watermark_slices_spec; [apply maxBatch_pos | lia].
Qed.

Lemma bounded_todo s t : Bounded s -> Bounded (on_main (set_todo t) s).
Proof. by intros []. Qed.

Lemma bounded_keepalive s err : Bounded s -> Bounded (keepalive err s).
Proof.
  intros Hb. assert (Hb' : Bounded (on_log (fun l => set_sent (sent l ++ [clientLSN (shared s)]) l) s)) by (by destruct Hb).
  unfold keepalive. destruct err; [by apply bounded_leave | exact Hb'].
Qed.

Lemma bounded_received s raw : Bounded s -> Bounded (received decode controller raw s).
Proof.
  intros Hb. unfold received. destruct (decode _ raw) as [[r| |] d'].
  - by destruct Hb.
  - apply bounded_leave. by destruct Hb.
  - apply bounded_leave. by destruct Hb.
Qed.

Lemma bounded_main_op o rest l s s' :
  Bounded s -> insub (main s) = SNone ->
  main_op decode controller MaxBatchEvents o rest l s = Some s' -> Bounded s'.
Proof.
  intros Hb Hsub. unfold main_op. pose proof (bounded_todo s rest Hb) as Hb1. revert Hb1.
  set (s1 := on_main (set_todo rest) s). intros Hb1.
  assert (Hsub1 : insub (main s1) = SNone) by exact Hsub.
  assert (Hfl : forall t, Bounded (flush (on_main (set_todo t) s1))).
  { intros t. destruct Hb1 as [Hq Hp Hbt]. apply bounded_flush; [exact Hq | exact Hp | simpl in *; lia | exact Hsub1]. }
  destruct o, l as [| [| | | |] | | | | | | | |]; intros [= <-];
    auto using bounded_leave, bounded_keepalive, bounded_received, bounded_take_event.
  - exact (Hfl rest).
  - destruct (decide _); [|exact Hb1]. eapply bounded_same; [exact Hb1 | done..|].
    rewrite !pipeline_small. simpl. naive_solver.
  - destruct (batch (main s)); [by apply bounded_take_watermark | apply Hfl].
  - destruct (decide _); [by destruct Hb1 | exact Hb1].
Qed.

Lemma bounded_sub_step l s s' : Bounded s -> sub_step l s = Some s' -> Bounded s'.
Proof.
  intros Hb. unfold sub_step. pose proof (bnd_pipeline _ Hb) as Hp. rewrite pipeline_small in Hp.
  destruct (insub (main s)) as [|[] [|d ds]|lsn|lsn|] eqn:Hin;
    destruct l as [| [| | | |] | | | | | | | |]; try discriminate;
    try (destruct (failed (shared s)); [|discriminate]);
    try (destruct (decide _); [|discriminate]);
    intros [= <-]; auto using bounded_leave, bounded_keepalive;
    try (eapply bounded_same; [exact Hb | done..|]; intros _; rewrite pipeline_small; simpl in *;
         try (destruct (decide _)); naive_solver).
  destruct Hp as (Hu & Hq & Hds). simpl in Hds. inversion_clear Hds as [|? ? Hd Hds'].
  constructor; simpl; [rewrite length_app; simpl; unfold deliveryQueueDepth in *; lia | | apply Hb].
  rewrite pipeline_small. simpl. split_and!; [done | apply Forall_app; split; [done | by constructor] |].
  by destruct ds.
Qed.

Lemma bounded_step l s s' :
  Bounded s -> step decode controller MaxBatchEvents l s = Some s' -> Bounded s'.
Proof.
  intros Hb. pose proof (bnd_pipeline _ Hb) as Hp. rewrite pipeline_small in Hp. destruct l; simpl.
  - unfold main_step. destruct (smode s).
    + destruct (insub (main s)) eqn:Hin; [|by apply bounded_sub_step..].
      destruct (todo (main s)) as [|o rest]; [|by apply bounded_main_op].
      unfold loop_top. destruct l as [| [| | | |] | | | | | | | |]; try discriminate;
        try (destruct (failed (shared s)); try discriminate);
        intros [= <-]; auto using bounded_leave, bounded_todo.
    + destruct l, (queue (shared s)) eqn:Hq; try discriminate; intros [= <-]; [|by destruct Hb].
      destruct Hb as [Hbq _ Hbb]. destruct Hp as (? & Hqq & ?). inversion_clear Hqq.
      constructor; simpl in *; [rewrite Hq in Hbq; simpl in Hbq; lia | by rewrite pipeline_small | exact Hbb].
    + destruct l, (delivering s); try discriminate; intros [= <-]. destruct controller; by destruct Hb.
    + discriminate.
  - unfold deliver_step. intros H.
    destruct Hb as [Hbq _ Hbb]. destruct Hp as (Hu & Hqq & Hs).
    destruct (delivering s) eqn:Hg.
    { destruct (queue (shared s)) as [|d q] eqn:Hq.
      - destruct (smode s); try discriminate. injection H as <-.
        constructor; simpl; [by rewrite Hq | | done]. by rewrite pipeline_small; simpl; rewrite Hq.
      - injection H as <-. simpl in Hbq. inversion_clear Hqq.
        constructor; simpl; [lia | | done]. rewrite pipeline_small. simpl. split_and!; [by constructor | done..]. }
    all: repeat case_match; simplify_eq;
      constructor; simpl in *; try assumption; rewrite pipeline_small; simpl; by split_and!.
Qed.

End invariant.

(** ** Properties of a streaming session *)
Section properties.
Context {DS C : Type}.
Context (decode : DS -> BackendMessage -> outcome DecodeResult * DS).
Context (controller : option (Controller C)).
Context (MaxBatchEvents : Z).

Lemma bounded_run ls s s' :
  Bounded MaxBatchEvents s -> run decode controller MaxBatchEvents ls s = Some s' ->
  Bounded MaxBatchEvents s'.
Proof.
  revert s. induction ls as [|l ls IH]; intros s Hb; simpl; [by intros [= <-]|].
  destruct (step _ _ _ l s) as [s1|] eqn:Hstep; [|discriminate].
  apply IH. eapply bounded_step; [exact Hb | exact Hstep].
Qed.

Lemma bounded_initial start (d : DS) (c : C) : Bounded MaxBatchEvents (initial controller start d c).
Proof.
  pose proof (maxBatch_pos MaxBatchEvents).
  constructor; simpl; [unfold deliveryQueueDepth; lia | constructor | lia].
Qed.

(** C4: In every interleaving of the two goroutines, with any handler, any backfill
    controller and any network behaviour, each position a session reports to the
    server is the position it started from or one the decoder acknowledged, and at
    that point every event that preceded the acknowledgement had been handled,
    successfully and in order: delivery is at least once. *)
Theorem reported_positions_are_safe start d c ls s lsn :
  run decode controller MaxBatchEvents ls (initial controller start d c) = Some s ->
  lsn ∈ sent (log s) ->
  lsn = start \/
  exists n, (lsn, n) ∈ acks (log s) /\ n <= length (handled (log s)) /\
    take n (handled (log s)) = take n (emitted (log s)).
Proof.
  intros Hrun Hin.
  exact (inv_sent _ _ (inv_run _ _ _ start _ _ _ (inv_initial controller start d c) Hrun) _ Hin).
Qed.

(** C12: While a session streams, the events handled, the batch in delivery, the
    queued batches, the batch being handed over and the open batch are together, in
    this order, exactly the events decoded and the chunk rows emitted: nothing is
    lost, repeated or reordered; and a watermark is reported delivered only once
    every event up to and including its chunk was handled. *)
Theorem streaming_keeps_every_event_in_order start d c ls s :
  run decode controller MaxBatchEvents ls (initial controller start d c) = Some s ->
  smode s = Running ->
  emitted (log s) = handled (log s) ++ evs (pipeline s) ++ batch (main s) /\
  (forall w h, (w, h) ∈ marked (log s) ->
     exists n, (w, n) ∈ chunks (log s) /\ n <= length h /\ h `prefix_of` emitted (log s)).
Proof.
  intros Hrun Hm.
  pose proof (inv_streaming _ _ (inv_run _ _ _ start _ _ _ (inv_initial controller start d c) Hrun) Hm) as Hs.
  split; [exact (str_order _ _ Hs)|]. intros w h Hin.
  destruct (str_marked _ _ Hs w h Hin) as (n & Hn & Hle & Hpre). exists n. split_and!; [done..|].
  rewrite (str_order _ _ Hs). by apply prefix_app_r.
Qed.

(** C34: At any moment the open batch is below the batch limit, at most two batches
    wait, and the batch in delivery and every waiting one hold at most the batch
    limit: how far decoding runs ahead of delivery is bounded. *)
Theorem lookahead_is_bounded start d c ls s :
  run decode controller MaxBatchEvents ls (initial controller start d c) = Some s ->
  length (batch (main s)) < maxBatch MaxBatchEvents /\
  length (queue (shared s)) <= deliveryQueueDepth /\
  Forall (fun u => length (events u) <= maxBatch MaxBatchEvents)
    (unhandled (delivering s) ++ queue (shared s)).
Proof.
  intros Hrun. destruct (bounded_run _ _ _ (bounded_initial start d c) Hrun) as [Hq Hp Hb].
  split_and!; [exact Hb | exact Hq|]. unfold pipeline in Hp. rewrite app_assoc in Hp.
  by apply Forall_app in Hp as [Hp _].
Qed.

(** *** Leaving the loop *)
Definition gmeasure (g : gstate) : nat :=
  match g with
  | GExited _ => 0 | GIdle => 1 | GDone => 2 | GStore _ => 3 | GAck _ => 4 | GMark _ => 5
  | GHandle _ => 6
  end.
Definition mmeasure (m : mode) : nat :=
  match m with Running => 3 | Draining => 2 | Closed => 1 | Returned => 0 end.
Definition measure (s : session DS C) : nat :=
  6 * length (queue (shared s)) + gmeasure (delivering s) + mmeasure (smode s).

Lemma teardown_step l s s' :
  smode s <> Running -> step decode controller MaxBatchEvents l s = Some s' ->
  smode s' <> Running /\ measure s' < measure s.
Proof.
  intros Hm. unfold measure. destruct l; simpl.
  - unfold main_step. destruct (smode s) eqn:Em; [done | | | discriminate].
    + destruct l, (queue (shared s)) as [|d q] eqn:Hq; try discriminate; intros [= <-]; simpl;
        rewrite ?Em, ?Hq; simpl; split; try done; lia.
    + destruct l, (delivering s) eqn:Hg; try discriminate; intros [= <-].
      destruct controller; simpl; rewrite Hg; simpl; split; try done; lia.
  - intros Hd. rewrite (deliver_mode _ _ _ _ Hd). split; [exact Hm|]. revert Hd. unfold deliver_step.
    destruct (delivering s) eqn:Hg; simpl.
    + destruct (queue (shared s)) as [|d q] eqn:Hq; [destruct (smode s) eqn:Em|]; try discriminate;
        intros [= <-]; simpl; rewrite ?Hq, ?Em; simpl; lia.
    + repeat case_match; intros [= <-]; simpl; lia.
    + repeat case_match; intros [= <-]; simpl; lia.
    + repeat case_match; intros [= <-]; simpl; lia.
    + intros [= <-]; simpl; lia.
    + intros [= <-]; simpl; lia.
    + discriminate.
Qed.

Lemma teardown_progress s :
  smode s <> Running -> smode s <> Returned ->
  exists l s', step decode controller MaxBatchEvents l s = Some s'.
Proof.
  intros Hr Hn. destruct (smode s) eqn:Em; [done | | | done].
  - destruct (queue (shared s)) eqn:Hq;
      [exists (LMain MClose) | exists (LMain MDrain)]; simpl; unfold main_step; rewrite Em, Hq; eauto.
  - destruct (delivering s) eqn:Hg;
      [..|exists (LMain MReturn); simpl; unfold main_step; rewrite Em, Hg; eauto];
      exists (LDeliver None); simpl; unfold deliver_step; rewrite Hg, ?Em; eauto.
    + destruct (queue (shared s)); eauto.
    + destruct (events d); eauto.
Qed.

(** Once the loop is left, in whatever state, the session ends: no run of the
    deferred drain and of the delivery goroutine is longer than a bound fixed by the
    state it starts from, and it can always go on until the session has returned. *)
Theorem teardown_terminates s :
  smode s <> Running ->
  (forall ls s', run decode controller MaxBatchEvents ls s = Some s' -> length ls <= measure s) /\
  exists ls s', run decode controller MaxBatchEvents ls s = Some s' /\ smode s' = Returned.
Proof.
  intros Hm. split.
  - intros ls. revert s Hm. induction ls as [|l ls IH]; intros s Hm s'; simpl; [lia|].
    destruct (step _ _ _ l s) as [s1|] eqn:Hs; [|discriminate].
    destruct (teardown_step _ _ _ Hm Hs) as [Hm1 Hlt]. intros Hr. specialize (IH s1 Hm1 s' Hr). lia.
  - remember (measure s) as n eqn:Hn. revert s Hm Hn.
    induction n as [n IH] using lt_wf_ind; intros s Hm Hn.
    destruct (smode s) eqn:Em; [done | | |]; cycle 2.
    { exists [], s. simpl. by rewrite Em. }
    all: destruct (teardown_progress s ltac:(congruence) ltac:(congruence)) as (l & s1 & Hs);
      destruct (teardown_step _ _ _ ltac:(rewrite Em; discriminate) Hs) as [Hm1 Hlt];
      destruct (IH (measure s1) ltac:(lia) s1 Hm1 eq_refl) as (ls & s' & Hr & Hret);
      exists (l :: ls), s'; simpl; by rewrite Hs.
Qed.

End properties.

(** ** Concrete sessions *)
Definition toy_decode (d : unit) (raw : BackendMessage) : outcome DecodeResult * unit :=
  (match raw with
   | CopyData "A" =>
       Ok {| Events := []; SchemaChanges := []; dr_Message := None; AckLSN := 20;
             ServerWALEnd := 20; RequestReply := false |}
   | CopyData "W" =>
       Ok {| Events := []; SchemaChanges := [];
             dr_Message := Some {| lm_Prefix := WatermarkPrefix; lm_Content := "w"; lm_LSN := 15 |};
             AckLSN := 0; ServerWALEnd := 20; RequestReply := false |}
   | CopyData s => Ok (with_events [sample_insert s])
   | OtherBackendMessage => Ok emptyResult
   end, d).

(** A controller that answers a watermark with three rows and remembers which
    watermarks were reported delivered. *)
Definition toy_controller : Controller (list string) :=
  {| ObserveEvent := fun _ c => c;
     HandleWatermark := fun _ _ c => (map sample_insert ["r1"; "r2"; "r3"], c);
     WatermarkDelivered := fun w c => c ++ [w];
     OnStreamStart := fun c => c;
     OnStreamStop := fun c => c |}.

Definition mains (ls : list main_label) : list label := map LMain ls.
Definition loop_for (raw : string) : list main_label :=
  [MLoop false false; MStep; MReceived (CopyData raw)].

(** One event, its commit, its delivery, the confirmation and a status update. *)
Definition quiet_run : list label :=
  mains (loop_for "1" ++ [MStep; MStep; MSend; MStep] ++ loop_for "A" ++ [MStep]) ++
  replicate 5 (LDeliver None) ++
  mains [MLoop false true; MStep; MStep; MStep; MStep; MKeepalive None; MTimeout].

Lemma reported_positions_are_safe_witness :
  exists s, run toy_decode (Some toy_controller) 1 quiet_run
              (initial (Some toy_controller) 5 tt []) = Some s /\ sent (log s) = [20]%Z /\
    (20 = 5 \/ exists n, (20, n) ∈ acks (log s) /\ (n <= length (handled (log s)))%nat /\
       take n (handled (log s)) = take n (emitted (log s)))%Z.
Proof.
  eexists. split; [vm_compute; reflexivity|]. split; [reflexivity|].
  eapply (reported_positions_are_safe toy_decode (Some toy_controller) 1 5 tt [] quiet_run);
    [vm_compute; reflexivity | apply list_elem_of_here].
Defined.

Lemma streaming_keeps_every_event_in_order_witness :
  exists s, run toy_decode (Some toy_controller) 1 quiet_run
              (initial (Some toy_controller) 5 tt []) = Some s /\ smode s = Running /\
    emitted (log s) = handled (log s) ++ evs (pipeline s) ++ batch (main s).
Proof.
  eexists. split; [vm_compute; reflexivity|]. split; [reflexivity|].
  eapply (streaming_keeps_every_event_in_order toy_decode (Some toy_controller) 1 5 tt [] quiet_run);
    [vm_compute; reflexivity | reflexivity].
Defined.

Lemma lookahead_is_bounded_witness :
  exists s, run toy_decode (Some toy_controller) 1 quiet_run
              (initial (Some toy_controller) 5 tt []) = Some s /\
    length (queue (shared s)) <= deliveryQueueDepth.
Proof.
  eexists. split; [vm_compute; reflexivity|].
  eapply (lookahead_is_bounded toy_decode (Some toy_controller) 1 5 tt [] quiet_run);
    vm_compute; reflexivity.
Defined.

Lemma teardown_terminates_witness :
  exists ls s', run toy_decode (Some toy_controller) 1 ls
                  (leave (initial (Some toy_controller) 5 tt [])) = Some s' /\ smode s' = Returned.
Proof.
  apply (teardown_terminates toy_decode (Some toy_controller) 1
           (leave (initial (Some toy_controller) 5 tt []))). discriminate.
Defined.

(** A chunk of three rows in three batches: the first is being delivered, the other
    two wait, and a shutdown drains the queue while the delivery goroutine takes
    from it too. *)
Definition chunk_race : list label :=
  mains (loop_for "W" ++ [MStep; MStep; MSend]) ++ [LDeliver None] ++
  mains [MStep; MSend; MStep; MSend; MStep; MExit ExShutdown; MDrain] ++
  replicate 9 (LDeliver None) ++ mains [MClose] ++ [LDeliver None] ++ mains [MReturn].

(** The drain on the way out and the delivery goroutine take from the same queue,
    so a shutdown can drop a middle piece of a chunk and still deliver the last one:
    a session exists that ends with the chunk's watermark reported delivered to the
    controller although one of its rows never reached the handler. *)
Theorem teardown_can_complete_a_chunk_with_a_row_missing :
  exists s, run toy_decode (Some toy_controller) 1 chunk_race
              (initial (Some toy_controller) 5 tt []) = Some s /\
    smode s = Returned /\ ctrl (shared s) = ["w"] /\
    map ID (emitted (log s)) = ["r1"; "r2"; "r3"] /\ map ID (handled (log s)) = ["r1"; "r3"].
Proof. eexists. split; [vm_compute; reflexivity|]. split_and!; reflexivity. Qed.
