(* ===== verification/ReaderLive.v ===== *)
(** * Progress of a replication session

    On top of the two-goroutine session of [Reader] (reader.go, [streamLoop]): the
    confirmed position only ever rises, every acknowledged position is on its way to
    it, and from every healthy state of a session the stream catches up. *)
From Stdlib Require Import ZArith Lia Ascii String Sorted.
From stdpp Require Import base list gmap strings sorting.
From S2P Require Import Prelude Domain SchemaChange Decoder Reader.

Open Scope go_scope.
Set Warnings "-clear-no-such-hyp".
Set Default Proof Using "Type".

Section live.
Context {DS C : Type}.
Context (decode : DS -> BackendMessage -> outcome DecodeResult * DS).
Context (controller : option (Controller C)).
Context (MaxBatchEvents : Z).
Context (start : Z).

Implicit Types (s : session DS C).
Abbreviation step' := (step decode controller MaxBatchEvents).
Abbreviation run' := (run decode controller MaxBatchEvents).

(** ** The confirmed position only rises *)

(** The positions the delivery goroutine still has to look at. *)
Definition in_hand (g : gstate) : list Z :=
  match g with
  | GHandle d | GMark d | GAck d | GExited (Some d) => [ack d]
  | GStore l => [l]
  | _ => []
  end.

(** The positions an acknowledgement can be covered by. *)
Definition pledged s : list Z :=
  clientLSN (shared s) :: pendingAck (main s) ::
  in_hand (delivering s) ++ map ack (queue (shared s)) ++ map ack (sub_ds (insub (main s))).

Definition covered s (l : Z) : Prop := exists p, p ∈ pledged s /\ (l <= p)%Z.

(** A store the main goroutine decided on raises the confirmed position, and it drops
    the pending acknowledgement only once that is confirmed. *)
Definition confirming s : Prop :=
  match insub (main s) with
  | SConfirmStore l => (clientLSN (shared s) < l)%Z
  | SConfirmDone => (pendingAck (main s) <= clientLSN (shared s))%Z
  | _ => True
  end.

Definition rising s : Prop :=
  (forall l, delivering s = GStore l -> (clientLSN (shared s) < l)%Z) /\
  (smode s = Running -> confirming s).

Record Live s : Prop := {
  lv_exit : smode s = Running -> failed (shared s) = None -> forall x, delivering s <> GExited x;
  lv_acks : smode s = Running -> forall l n, (l, n) ∈ acks (log s) -> (0 < l)%Z /\ covered s l;
  lv_rising : rising s;
  lv_sorted : StronglySorted Z.le (sent (log s));
  lv_sent : Forall (fun l => l <= clientLSN (shared s))%Z (sent (log s));
}.

(** What a step that sends nothing and acknowledges nothing has to keep. *)
Record carries s s' : Prop := {
  ca_acks : acks (log s') = acks (log s);
  ca_sent : sent (log s') = sent (log s);
  ca_lsn : (clientLSN (shared s) <= clientLSN (shared s'))%Z;
  ca_cover : smode s' = Running -> forall l, (0 < l)%Z -> covered s l -> covered s' l;
  ca_mode : smode s' = Running -> smode s = Running;
}.

Lemma covered_incl s s' l : pledged s ⊆ pledged s' -> covered s l -> covered s' l.
Proof. intros H (p & Hp & Hl). exists p. split; [by apply H | done]. Qed.

Lemma live_carries s s' :
  Live s -> carries s s' -> rising s' ->
  (smode s' = Running -> failed (shared s') = None -> forall x, delivering s' <> GExited x) -> Live s'.
Proof.
  intros [He Ha Hr Hs Hf] [Ca Cs Cl Cc Cm] Hr' He'. constructor; try assumption.
  - intros Hm l n. rewrite Ca. intros Hin. destruct (Ha (Cm Hm) l n Hin) as [Hp Hc].
    split; [done | by apply Cc].
  - by rewrite Cs.
  - rewrite Cs. eapply Forall_impl; [exact Hf|]. simpl. lia.
Qed.

(** The main goroutine leaves [failed] and the delivery goroutine alone, so a step of
    it that neither confirms nor sends nor acknowledges only has to keep the pledges. *)
Lemma live_main s s' :
  Live s -> acks (log s') = acks (log s) -> sent (log s') = sent (log s) ->
  delivering s' = delivering s -> failed (shared s') = failed (shared s) ->
  clientLSN (shared s') = clientLSN (shared s) ->
  match insub (main s') with SConfirmStore _ | SConfirmDone => False | _ => True end ->
  (smode s' = Running -> smode s = Running /\ forall l, (0 < l)%Z -> covered s l -> covered s' l) ->
  Live s'.
Proof.
  intros Hl Ea Es Ed Ef Ec Hns Hm. eapply live_carries; [exact Hl|..].
  - constructor; try assumption; [rewrite Ec; lia | |]; intros Hr; by apply Hm.
  - split; [|by unfold confirming; destruct (insub (main s'))]. rewrite Ed, Ec. apply (lv_rising _ Hl).
  - intros Hr. rewrite Ef, Ed. apply (lv_exit _ Hl). by apply Hm.
Qed.

Lemma live_leave s : Live s -> Live (leave s).
Proof. intros Hl. by eapply live_main; [exact Hl|..]. Qed.

Lemma live_todo s t : Live s -> Live (on_main (set_todo t) s).
Proof. intros [He Ha Hr Hs Hf]. by constructor. Qed.

Lemma live_keepalive s err : Live s -> Live (keepalive err s).
Proof.
  intros Hl. assert (H : Live (on_log (fun l => set_sent (sent l ++ [clientLSN (shared s)]) l) s)).
  { destruct Hl as [He Ha Hr Hs Hf]. constructor; simpl; try assumption.
    - apply StronglySorted_app_2; [|done | by repeat constructor].
      intros x y Hx Hy. apply list_elem_of_singleton in Hy as ->.
      by apply (proj1 (Forall_forall _ _) Hf).
    - apply Forall_app. split; [done | by repeat constructor]. }
  unfold keepalive. destruct err; [by apply live_leave | exact H].
Qed.

Lemma live_flush s : Live s -> insub (main s) = SNone -> Live (flush s).
Proof.
  intros Hl Hi. unfold flush. destruct (batch (main s)) as [|e es]; [exact Hl|].
  eapply live_main; [exact Hl | done..|]. intros Hm. split; [exact Hm|]. intros l Hpos.
  apply covered_incl. unfold pledged. rewrite Hi. simpl. set_solver.
Qed.

Lemma live_take_event s e :
  Live s -> insub (main s) = SNone -> Live (take_event controller MaxBatchEvents e s).
Proof.
  intros Hl Hi. unfold take_event.
  set (s1 := match controller with Some c => _ | None => s end).
  assert (H1 : Live s1 /\ insub (main s1) = SNone).
  { unfold s1. destruct controller; [|done]. split; [|done].
    destruct Hl as [He Ha Hr Hs Hf]. by constructor. }
  clearbody s1. clear Hl Hi. destruct H1 as [Hl Hi]. cbv zeta.
  set (s2 := on_log _ _).
  assert (H2 : Live s2 /\ insub (main s2) = SNone)
    by (split; [destruct Hl as [He Ha Hr Hs Hf]; by constructor | done]).
  clearbody s2. destruct H2. destruct (decide _); [by apply live_flush | done].
Qed.

Lemma live_take_watermark s lsn content :
  Live s -> insub (main s) = SNone -> Live (take_watermark controller MaxBatchEvents lsn content s).
Proof.
  intros Hl Hi. unfold take_watermark. destruct controller as [c|]; [|done].
  destruct (HandleWatermark _ _ _ _) as [evs ctrl'].
  eapply live_main; [exact Hl | done..|]. intros Hm. split; [exact Hm|]. intros l Hpos.
  apply covered_incl. unfold pledged. rewrite Hi. simpl. set_solver.
Qed.

Lemma live_received s raw : Live s -> insub (main s) = SNone -> Live (received decode controller raw s).
Proof.
  intros Hl Hi. unfold received. destruct (decode _ _) as [r d'].
  assert (H : Live (on_main (set_decoder d') s)) by (destruct Hl as [He Ha Hr Hs Hf]; by constructor).
  destruct r as [r| |]; [|by apply live_leave..].
  destruct H as [He Ha Hr Hs Hf]. by constructor.
Qed.

Lemma live_ack s lsn :
  Live s -> insub (main s) = SNone -> (0 < lsn)%Z ->
  Live (on_log (fun l => set_acks (acks l ++ [(lsn, length (emitted l))]) l)
          (on_main (fun m => set_pendingAck (Z.max (pendingAck m) lsn) m) s)).
Proof.
  intros [He Ha Hr Hs Hf] Hi Hpos. constructor; simpl; try assumption.
  2: { destruct Hr as [Hr _]. split; [exact Hr|]. unfold confirming. simpl. by rewrite Hi. }
  intros Hm l n [Hin|Hin]%elem_of_app.
  - destruct (Ha Hm l n Hin) as [Hp (p & Hin' & Hle)]. split; [done|].
    apply elem_of_cons in Hin' as [Hp'|Hin'].
    { exists p. split; [|done]. rewrite Hp'. apply list_elem_of_here. }
    apply elem_of_cons in Hin' as [Hp'|Hin'].
    { exists (Z.max (pendingAck (main s)) lsn). unfold pledged. simpl. split; [set_solver | lia]. }
    exists p. unfold pledged. simpl. split; [set_solver | done].
  - apply list_elem_of_singleton in Hin as [= -> ->]. split; [done|].
    exists (Z.max (pendingAck (main s)) lsn). unfold pledged. simpl. split; [set_solver | lia].
Qed.

Lemma live_confirm s l :
  Live s -> insub (main s) = SNone -> Live (on_main (set_insub (SConfirmLoad l)) s).
Proof.
  intros Hl Hi. eapply live_main; [exact Hl | done..|]. intros Hm. split; [exact Hm|]. intros l' Hpos.
  apply covered_incl. unfold pledged. rewrite Hi. simpl. set_solver.
Qed.

Lemma live_main_op o rest l s s' :
  Live s -> insub (main s) = SNone -> main_op decode controller MaxBatchEvents o rest l s = Some s' -> Live s'.
Proof.
  intros Hl Hi. unfold main_op. apply (live_todo _ rest) in Hl.
  change (insub (main (on_main (set_todo rest) s)) = SNone) in Hi.
  set (s0 := on_main (set_todo rest) s) in *. clearbody s0.
  destruct o, l; try discriminate; try (destruct why; try discriminate); intros [= <-];
    auto using live_flush, live_keepalive, live_leave, live_received, live_take_event.
  - destruct (decide _); [by apply live_confirm | done].
  - destruct (batch (main s0)); [by apply live_take_watermark|].
    apply live_flush; [by apply live_todo | done].
  - destruct (decide _); [by apply live_ack | done].
Qed.

Lemma live_sub_step l s s' :
  Live s -> Streaming start s -> smode s = Running -> sub_step l s = Some s' -> Live s'.
Proof.
  intros Hl Hs Hm. unfold sub_step. pose proof (str_sub _ _ Hs) as Hsub. unfold sub_ok in Hsub.
  destruct (insub (main s)) as [|cnt ds|lsn|lsn|] eqn:Hi; [discriminate|..].
  - destruct cnt, ds as [|d ds], l; try discriminate; try (destruct why; try discriminate);
      try (case_match; try discriminate); intros [= <-]; auto using live_leave, live_keepalive;
      (eapply live_main; [exact Hl | try done; by destruct ds..|]; intros _; split; [exact Hm|];
       intros p _; apply covered_incl; unfold pledged; rewrite Hi; destruct ds; simpl; set_solver).
  - destruct l; try discriminate. intros [= <-]. destruct Hsub as (-> & Hpos & Hq).
    destruct Hl as [He Ha [Hr _] Hss Hf]. constructor; simpl; try assumption.
    + intros _ p n Hin. destruct (Ha Hm p n Hin) as [Hp Hc]. split; [done|]. revert Hc.
      apply covered_incl. unfold pledged. rewrite Hi. simpl. destruct (decide _); simpl; set_solver.
    + split; [exact Hr|]. unfold confirming. simpl. destruct (decide _); lia.
  - destruct l; try discriminate. intros [= <-]. destruct Hsub as (Hlsn & Hpos & Hq).
    pose proof (proj2 (lv_rising _ Hl) Hm) as Hlt. unfold confirming in Hlt. rewrite Hi in Hlt.
    eapply live_carries; [exact Hl|..].
    + constructor; simpl; try done; [lia|]. intros _ p _ (q & Hq' & Hle). unfold pledged in *.
      rewrite Hi in Hq'. simpl in *. apply elem_of_cons in Hq' as [Heq|Hq'].
      * exists lsn. unfold pledged. simpl. split; [set_solver | lia].
      * exists q. unfold pledged. simpl. split; [set_solver | done].
    + split; unfold confirming; simpl; [|lia]. intros p Hg. exfalso.
      pose proof (str_outstanding _ _ Hs) as Ho. rewrite Hi, Hg in Ho. destruct Hq as [_ Hq].
      simpl in Ho. lia.
    + exact (lv_exit _ Hl).
  - destruct l; try discriminate. intros [= <-].
    pose proof (proj2 (lv_rising _ Hl) Hm) as Hle. unfold confirming in Hle. rewrite Hi in Hle.
    eapply live_main; [exact Hl | done..|]. intros _. split; [exact Hm|].
    intros p Hpos (q & Hq & Hpq). unfold pledged in Hq. rewrite Hi in Hq. simpl in Hq.
    unfold covered, pledged. simpl. apply elem_of_cons in Hq as [Heq|Hq].
    { exists q. split; [set_solver | done]. }
    apply elem_of_cons in Hq as [Heq|Hq].
    { exists (clientLSN (shared s)). split; [set_solver | lia]. }
    exists q. split; [set_solver | done].
Qed.

Lemma live_main_step l s s' :
  Live s -> Inv start s -> main_step decode controller MaxBatchEvents l s = Some s' -> Live s'.
Proof.
  intros Hl HI. unfold main_step. destruct (smode s) eqn:Hm.
  - pose proof (inv_streaming _ _ HI Hm) as Hs.
    destruct (insub (main s)) eqn:Hi; [|by apply live_sub_step..].
    destruct (todo (main s)); [|by apply live_main_op]. unfold loop_top.
    destruct l; try discriminate; try (destruct why; try discriminate); repeat case_match;
      try discriminate; intros [= <-]; auto using live_leave, live_todo.
  - repeat case_match; try discriminate; intros [= <-];
      destruct Hl as [He Ha Hr Hss Hf]; constructor; simpl; try assumption; try congruence;
      (split; [exact (proj1 Hr) | simpl; congruence]).
  - repeat case_match; try discriminate; intros [= <-];
      destruct Hl as [He Ha Hr Hss Hf]; constructor; simpl; try assumption; try done;
      (split; [exact (proj1 Hr) | done]).
  - discriminate.
Qed.

(** Two goroutines never race for the confirmed position: the main one stores only
    when nothing is outstanding. *)
Lemma rising_deliver r s s' :
  Live s -> Inv start s -> deliver_step controller r s = Some s' -> rising s'.
Proof.
  intros Hl HI. destruct (lv_rising _ Hl) as [Hr1 Hr2]. unfold deliver_step.
  destruct (delivering s) eqn:Hg.
  - repeat case_match; try discriminate; intros [= <-]; split; simpl; try done; congruence.
  - repeat case_match; intros [= <-]; split; simpl; try done.
  - repeat case_match; intros [= <-]; split; simpl; try done.
  - intros [= <-]. split; [|exact Hr2]. simpl. unfold confirms. intros l.
    repeat case_match; try done. intros [= <-]. by eapply bool_decide_eq_true.
  - intros [= <-]. split; [done|]. unfold confirming. simpl. intros Hm.
    pose proof (inv_streaming _ _ HI Hm) as Hs. pose proof (str_outstanding _ _ Hs) as Ho.
    pose proof (str_sub _ _ Hs) as Hsub. unfold sub_ok, quiet in Hsub. rewrite Hg in Ho. simpl in Ho.
    destruct (insub (main s)); try done; simpl in Ho; exfalso; destruct_and?; lia.
  - intros [= <-]. by split.
  - discriminate.
Qed.

Lemma deliver_carries r s s' :
  Live s -> deliver_step controller r s = Some s' -> carries s s'.
Proof.
  intros Hl Hstep. constructor.
  - revert Hstep. unfold deliver_step. repeat case_match; try discriminate; intros [= <-]; done.
  - revert Hstep. unfold deliver_step. repeat case_match; try discriminate; intros [= <-]; done.
  - pose proof (proj1 (lv_rising _ Hl)) as Hr. revert Hstep. unfold deliver_step.
    destruct (delivering s); repeat case_match; try discriminate; intros [= <-]; simpl; try lia.
    specialize (Hr _ eq_refl). lia.
  - intros _ l Hpos. pose proof (proj1 (lv_rising _ Hl)) as Hr. revert Hstep. unfold deliver_step.
    unfold covered, pledged.
    destruct (delivering s) eqn:Hg.
    + repeat case_match; try discriminate; intros [= <-]; simpl; try done. intros (p & Hp & Hle).
      exists p. split; [set_solver | done].
    + repeat case_match; intros [= <-]; simpl; done.
    + repeat case_match; intros [= <-]; simpl; done.
    + intros [= <-] (p & Hp & Hle). simpl in *. unfold confirms. 
      destruct (decide _) as [Ha|Ha]; [case_bool_decide as Hc|].
      * by exists p.
      * destruct (decide (p = ack d)) as [->|Hne]; [|exists p; simpl; set_solver].
        exists (clientLSN (shared s)). simpl. split; [set_solver | lia].
      * exists p. split; [|done]. simpl. assert (p <> ack d) by lia. set_solver.
    + intros [= <-] (p & Hp & Hle). simpl in *.
      destruct (decide (p = clientLSN (shared s))) as [->|Hne].
      * exists lsn. specialize (Hr _ eq_refl). split; [set_solver | lia].
      * exists p. split; [set_solver | done].
    + intros [= <-]. done.
    + discriminate.
  - by rewrite (deliver_mode _ _ _ _ Hstep).
Qed.

Lemma live_deliver_step r s s' :
  Live s -> Inv start s -> deliver_step controller r s = Some s' -> Live s'.
Proof.
  intros Hl HI Hstep. eapply live_carries; [exact Hl|..].
  - by apply deliver_carries with r.
  - by eapply rising_deliver.
  - rewrite (deliver_mode _ _ _ _ Hstep). intros Hm. pose proof (lv_exit _ Hl Hm) as He. revert Hstep He.
    unfold deliver_step. rewrite Hm. intros Hstep He. repeat case_match; simplify_eq; simpl; try done;
      intros Hf x; repeat case_match; try done; simplify_eq.
Qed.

Lemma live_run ls s s' : Live s -> Inv start s -> run' ls s = Some s' -> Live s'.
Proof.
  revert s. induction ls as [|l ls IH]; intros s Hl HI; simpl; [by intros [= <-]|].
  destruct (step _ _ _ l s) as [s1|] eqn:Hstep; [|discriminate].
  apply IH; [|eapply (inv_run decode controller MaxBatchEvents start [l]); [exact HI | simpl; by rewrite Hstep]].
  destruct l; simpl in Hstep; [by eapply live_main_step | by eapply live_deliver_step].
Qed.

Lemma live_initial d c : Live (initial controller start d c).
Proof.
  constructor; simpl; try (by constructor); try done.
  by intros _ l n []%not_elem_of_nil.
Qed.

(** A state a session can be in. *)
Definition reachable d c s : Prop := exists ls, run' ls (initial controller start d c) = Some s.

Lemma reachable_live d c s : reachable d c s -> Live s /\ Inv start s.
Proof.
  intros [ls H]. pose proof (inv_initial controller start d c) as HI.
  split; [by eapply live_run, H; [apply live_initial|] | by eapply inv_run].
Qed.

Lemma run_app ls1 ls2 s s1 : run' ls1 s = Some s1 -> run' (ls1 ++ ls2) s = run' ls2 s1.
Proof.
  revert s. induction ls1 as [|l ls1 IH]; intros s; simpl; [by intros [= <-]|].
  destruct (step _ _ _ l s); [apply IH | discriminate].
Qed.

(** ** The stream catches up *)

(** What happens when no message arrives and nothing fails. *)
Definition smooth (l : label) : Prop :=
  match l with
  | LDeliver r => r = None
  | LMain (MLoop _ _ | MStep | MSend | MTimeout) => True
  | LMain (MKeepalive err) => err = None
  | LMain _ => False
  end.

(** A smooth stretch of a session, which emits and acknowledges nothing new. *)
Record stretch s s' : Prop := {
  st_run : exists ls, Forall smooth ls /\ run' ls s = Some s';
  st_mode : smode s' = smode s;
  st_failed : failed (shared s') = failed (shared s);
  st_emitted : emitted (log s') = emitted (log s);
  st_acks : acks (log s') = acks (log s);
}.

#[export] Instance stretch_refl : Reflexive stretch.
Proof. intros s. constructor; try done. by exists []. Qed.

#[export] Instance stretch_trans : Transitive stretch.
Proof.
  intros s1 s2 s3 [(l1 & F1 & R1) M1 E1 A1 K1] [(l2 & F2 & R2) M2 E2 A2 K2].
  constructor; try congruence. exists (l1 ++ l2).
  split; [by apply Forall_app | by rewrite (run_app _ _ _ _ R1)].
Qed.

Lemma stretch_step l s s' :
  smooth l -> step' l s = Some s' -> smode s' = smode s -> failed (shared s') = failed (shared s) ->
  emitted (log s') = emitted (log s) -> acks (log s') = acks (log s) -> stretch s s'.
Proof.
  intros Hl Hs ? ? ? ?. constructor; try done. exists [l]. split; [by repeat constructor|].
  simpl. by rewrite Hs.
Qed.

(** With a handler that accepts, the delivery goroutine gets to wait for work. *)
Lemma deliver_advances s :
  (forall x, delivering s <> GExited x) -> ~ (delivering s = GIdle /\ queue (shared s) = []) ->
  exists s', stretch s s' /\ main s' = main s /\ measure s' < measure s /\
    (forall x, delivering s' <> GExited x).
Proof.
  intros Hx Hb. destruct (deliver_step controller None s) as [s'|] eqn:Hd.
  - exists s'. split; [apply (stretch_step (LDeliver None)); try done|];
      revert Hd; unfold deliver_step, measure; destruct (delivering s) eqn:Hg;
      repeat case_match; try discriminate; intros [= <-]; simpl; rewrite ?Hg; simpl;
      try (split_and!; [done | lia | done]); try done; try (exfalso; naive_solver).
  - exfalso. revert Hd. unfold deliver_step. repeat case_match; try discriminate; naive_solver.
Qed.

Lemma deliveries_drain s :
  (forall x, delivering s <> GExited x) ->
  exists s', stretch s s' /\ main s' = main s /\ delivering s' = GIdle /\ queue (shared s') = [].
Proof.
  remember (measure s) as n eqn:Hn. revert s Hn.
  induction n as [n IH] using lt_wf_ind; intros s Hn Hx.
  destruct (decide (queue (shared s) = [] /\ gmeasure (delivering s) = 1)) as [[Hq Hg]|Hb].
  { exists s. split; [done|]. destruct (delivering s); try discriminate. done. }
  destruct (deliver_advances s Hx) as (s1 & H1 & Hm & Hlt & Hx1).
  { intros [Hg Hq]. apply Hb. by rewrite Hg. }
  destruct (IH (measure s1) ltac:(lia) s1 eq_refl Hx1) as (s' & H2 & Hm2 & Hrest).
  exists s'. split; [by etrans|]. split; [congruence | exact Hrest].
Qed.

Lemma stretch_live s s' : stretch s s' -> Live s /\ Inv start s -> Live s' /\ Inv start s'.
Proof.
  intros [(ls & _ & H) _ _ _ _] [Hl HI]. split; [by eapply live_run | by eapply inv_run].
Qed.

(** The main goroutine is between two calls, with [ops] left to do. *)
Definition between (ops : list op) s : Prop :=
  smode s = Running /\ failed (shared s) = None /\ insub (main s) = SNone /\ todo (main s) = ops.

Ltac open_session s :=
  destruct s as [? [? ? ? ? ?] [? ? ? ? ?] ? ?]; unfold between in *; simpl in *; destruct_and?; subst.
Ltac smooth_run ls tac :=
  constructor; [exists ls; split; [repeat constructor; done | simpl; unfold main_step; simpl; tac; reflexivity]
               | done..].

Lemma batch_is_handed_over s :
  between [] s -> queue (shared s) = [] ->
  exists s', stretch s s' /\ between [OpPending; OpKeepalive; OpReceive] s' /\
    batch (main s') = [] /\ delivering s' = delivering s.
Proof.
  intros Hb Hq. destruct (batch (main s)) as [|e es] eqn:Eb; open_session s.
  - eexists. split; [smooth_run [LMain (MLoop true true); LMain MStep] idtac | done].
  - eexists. split; [smooth_run [LMain (MLoop true true); LMain MStep; LMain MStep; LMain MSend] idtac | done].
Qed.

Lemma pending_is_confirmed rest s :
  between (OpPending :: rest) s -> batch (main s) = [] -> outstanding (shared s) = 0%Z ->
  exists s', stretch s s' /\ between rest s' /\ batch (main s') = [] /\ (pendingAck (main s') <= 0)%Z /\
    delivering s' = delivering s /\ queue (shared s') = queue (shared s).
Proof.
  intros Hb Hba Ho. destruct (decide (0 < pendingAck (main s))%Z) as [Hp|Hp].
  - destruct (decide (clientLSN (shared s) < pendingAck (main s))%Z) as [Hc|Hc]; open_session s.
    + eexists. split; [smooth_run [LMain MStep; LMain MStep; LMain MStep; LMain MStep]
        ltac:(rewrite decide_True by done; simpl; rewrite decide_True by done) | done].
    + eexists. split; [smooth_run [LMain MStep; LMain MStep; LMain MStep]
        ltac:(rewrite decide_True by done; simpl; rewrite decide_False by done) | done].
  - open_session s. eexists. split; [smooth_run [LMain MStep] ltac:(rewrite decide_False by tauto)|].
    simpl. split_and!; try done. lia.
Qed.

Lemma position_is_reported s :
  between [OpKeepalive; OpReceive] s ->
  exists s', stretch s s' /\ between [] s' /\ batch (main s') = batch (main s) /\
    pendingAck (main s') = pendingAck (main s) /\ delivering s' = delivering s /\
    queue (shared s') = queue (shared s) /\
    list.last (sent (log s')) = Some (clientLSN (shared s')).
Proof.
  intros Hb. open_session s. eexists. split; [smooth_run [LMain (MKeepalive None); LMain MTimeout] idtac|].
  simpl. split_and!; try done. apply last_snoc.
Qed.

(** Where the stream has caught up. *)
Lemma idle_has_handled_everything s :
  Inv start s -> between [] s -> batch (main s) = [] -> delivering s = GIdle -> queue (shared s) = [] ->
  handled (log s) = emitted (log s) /\ outstanding (shared s) = 0%Z.
Proof.
  intros HI (Hm & _ & Hi & _) Hb Hg Hq. pose proof (inv_streaming _ _ HI Hm) as Hs.
  pose proof (str_order _ _ Hs) as Ho. pose proof (str_outstanding _ _ Hs) as Hout.
  unfold pipeline in Ho. rewrite Hi, Hb, Hg, Hq in *. simpl in *. rewrite !app_nil_r in Ho. by split.
Qed.

Lemma idle_covers s l :
  Live s -> between [] s -> delivering s = GIdle -> queue (shared s) = [] ->
  (pendingAck (main s) <= 0)%Z -> l ∈ (acks (log s)).*1 -> (l <= clientLSN (shared s))%Z.
Proof.
  intros Hl (Hm & _ & Hi & _) Hg Hq Hp Hin. apply list_elem_of_fmap in Hin as ((l' & n) & -> & Hin).
  destruct (lv_acks _ Hl Hm _ _ Hin) as [Hpos (p & Hp' & Hle)]. unfold pledged in Hp'.
  rewrite Hi, Hg, Hq in Hp'. simpl in *.
  apply elem_of_cons in Hp' as [->|Hp']; [done|]. apply list_elem_of_singleton in Hp'. lia.
Qed.

Lemma catches_up s :
  Live s -> Inv start s -> between [] s ->
  exists s', stretch s s' /\ between [] s' /\ handled (log s') = emitted (log s') /\
    (forall l, l ∈ (acks (log s')).*1 -> (l <= clientLSN (shared s'))%Z) /\
    list.last (sent (log s')) = Some (clientLSN (shared s')).
Proof.
  intros Hl HI Hb.
  destruct (deliveries_drain s (lv_exit _ Hl (proj1 Hb) (proj1 (proj2 Hb)))) as (s1 & R1 & M1 & G1 & Q1).
  assert (B1 : between [] s1).
  { destruct Hb as (? & ? & ? & ?). unfold between. rewrite M1, (st_mode _ _ R1), (st_failed _ _ R1). done. }
  destruct (batch_is_handed_over s1 B1 Q1) as (s2 & R2 & B2 & Hb2 & G2).
  assert (X2 : forall x, delivering s2 <> GExited x) by (rewrite G2, G1; discriminate).
  destruct (deliveries_drain s2 X2) as (s3 & R3 & M3 & G3 & Q3).
  assert (B3 : between [OpPending; OpKeepalive; OpReceive] s3).
  { destruct B2 as (? & ? & ? & ?). unfold between. rewrite M3, (st_mode _ _ R3), (st_failed _ _ R3). done. }
  assert (R : stretch s s3) by (etrans; [exact R1 | by etrans]).
  destruct (stretch_live _ _ R (conj Hl HI)) as [L3 I3].
  assert (O3 : outstanding (shared s3) = 0%Z).
  { rewrite (str_outstanding _ _ (inv_streaming _ _ I3 (proj1 B3))).
    destruct B3 as (_ & _ & Hi & _). by rewrite Hi, G3, Q3. }
  destruct (pending_is_confirmed _ s3 B3 ltac:(by rewrite M3) O3) as (s4 & R4 & B4 & Hb4 & P4 & G4 & Q4).
  destruct (position_is_reported s4 B4) as (s5 & R5 & B5 & Hb5 & P5 & G5 & Q5 & S5).
  assert (R' : stretch s s5) by (etrans; [exact R | by etrans]).
  destruct (stretch_live _ _ R' (conj Hl HI)) as [L5 I5].
  exists s5. split_and!; try done.
  - apply idle_has_handled_everything; congruence.
  - intros l. apply idle_covers; congruence.
Qed.

(** A session that is between two messages and has met no failure can always
    catch up: when no further message arrives and the handler accepts what it is
    given, some run of the two goroutines ends between two messages again with every
    event emitted so far handled, every position acknowledged so far confirmed, and
    the confirmed position reported to the server.  No reachable state is a deadlock
    and no acknowledgement is forgotten. *)
Theorem stream_catches_up d c ls s :
  run' ls (initial controller start d c) = Some s ->
  between [] s ->
  exists ls' s', Forall smooth ls' /\ run' ls' s = Some s' /\ between [] s' /\
    emitted (log s') = emitted (log s) /\ handled (log s') = emitted (log s) /\
    (forall l n, (l, n) ∈ acks (log s) -> (l <= clientLSN (shared s'))%Z) /\
    list.last (sent (log s')) = Some (clientLSN (shared s')).
Proof.
  intros Hrun Hb. destruct (reachable_live d c s (ex_intro _ ls Hrun)) as [Hl HI].
  destruct (catches_up s Hl HI Hb) as (s' & [(ls' & F & R) M E A K] & B & H & Hc & Hlast).
  exists ls', s'. split_and!; try done; [congruence|].
  intros l n Hin. apply Hc. rewrite K. apply list_elem_of_fmap. by exists (l, n).
Qed.

(** In every interleaving, the positions a session reports never move back, and
    none is ahead of the confirmed position; the goroutines never undo each other's
    confirmations although neither holds a lock across its load and store. *)
Theorem reported_positions_never_regress d c s :
  reachable d c s ->
  StronglySorted Z.le (sent (log s)) /\
  Forall (fun l => l <= clientLSN (shared s))%Z (sent (log s)).
Proof.
  intros Hrun. destruct (reachable_live d c s Hrun) as [Hl _].
  split; [exact (lv_sorted _ Hl) | exact (lv_sent _ Hl)].
Qed.
End live.

(** One event and its commit are decoded; nothing is delivered yet. *)
Definition busy_run : list label :=
  mains (loop_for "1" ++ [MStep; MStep; MSend; MStep] ++ loop_for "A" ++ [MStep]).

Lemma stream_catches_up_witness :
  exists s ls' s',
    run toy_decode (Some toy_controller) 1 busy_run (initial (Some toy_controller) 5 tt []) = Some s /\
    handled (log s) = [] /\ acks (log s) = [(20%Z, 1)] /\
    run toy_decode (Some toy_controller) 1 ls' s = Some s' /\
    handled (log s') = emitted (log s) /\ (20 <= clientLSN (shared s'))%Z.
Proof.
  destruct (run toy_decode (Some toy_controller) 1 busy_run (initial (Some toy_controller) 5 tt []))
    as [s|] eqn:Hrun; [|vm_compute in Hrun; discriminate].
  assert (Hacks : acks (log s) = [(20%Z, 1)]) by (vm_compute in Hrun; injection Hrun as <-; reflexivity).
  assert (Hnone : handled (log s) = []) by (vm_compute in Hrun; injection Hrun as <-; reflexivity).
  destruct (stream_catches_up toy_decode (Some toy_controller) 1 5 tt [] busy_run s Hrun)
    as (ls' & s' & _ & R & _ & _ & H & Hc & _).
  { vm_compute in Hrun. injection Hrun as <-. by vm_compute. }
  exists s, ls', s'. split_and!; try done. apply (Hc 20%Z 1). rewrite Hacks. apply list_elem_of_here.
Defined.

Lemma reported_positions_never_regress_witness :
  exists s, run toy_decode (Some toy_controller) 1 quiet_run (initial (Some toy_controller) 5 tt []) = Some s /\
    sent (log s) = [20]%Z /\ StronglySorted Z.le (sent (log s)).
Proof.
  eexists. split; [vm_compute; reflexivity|]. split; [reflexivity|].
  eapply (reported_positions_never_regress toy_decode (Some toy_controller) 1 5 tt []).
  exists quiet_run. vm_compute. reflexivity.
Defined.
