(* ===== verification/ReaderSetup.v ===== *)
(** * Connecting the WAL reader (src/internal/adapters/primary/wal/reader.go)

    The reconnect loop of [Start] with its backoff, and the setup of a session: the
    publication, the replication slot, and the start of replication with its retries.
    The PostgreSQL connection is a record of the calls the code makes on it
    (pgconn, pglogrepl), over an arbitrary world. *)

From Stdlib Require Import ZArith Lia Ascii String.
From stdpp Require Import base list gmap strings pretty.
From S2P Require Import Prelude Domain.

Open Scope go_scope.
Set Default Proof Using "Type".

(** ** Quoting *)

(** [strings.ReplaceAll(s, "'", "''")] *)
Fixpoint double_quotes (s : string) : string :=
  match s with
  | EmptyString => EmptyString
  | String c s' =>
      if decide (c = "'"%char) then String c (String c (double_quotes s')) else String c (double_quotes s')
  end.

Definition quoteLiteral (s : string) : string := ("'" +:+ double_quotes s +:+ "'")%string.

(** How PostgreSQL reads a string literal (standard_conforming_strings): from the
    opening quote to the first quote that is not doubled; the value and what follows
    the literal. *)
Fixpoint literal_body (s : string) : option (string * string) :=
  match s with
  | EmptyString => None
  | String c s' =>
      if decide (c = "'"%char) then
        match s' with
        | String c' s'' =>
            if decide (c' = "'"%char) then
              match literal_body s'' with Some (v, rest) => Some (String "'" v, rest) | None => None end
            else Some (EmptyString, s')
        | EmptyString => Some (EmptyString, EmptyString)
        end
      else match literal_body s' with Some (v, rest) => Some (String c v, rest) | None => None end
  end.
Definition read_literal (s : string) : option (string * string) :=
  match s with
  | String c s' => if decide (c = "'"%char) then literal_body s' else None
  | EmptyString => None
  end.

Definition starts_with_quote (s : string) : bool :=
  match s with String c _ => bool_decide (c = "'"%char) | EmptyString => false end.

Lemma literal_body_close rest :
  starts_with_quote rest = false -> literal_body ("'" +:+ rest)%string = Some (EmptyString, rest).
Proof.
  destruct rest as [|c rest]; [reflexivity|]. simpl. intros Hc. apply bool_decide_eq_false in Hc.
  by destruct (decide (c = "'"%char)).
Qed.

Lemma literal_body_quoted s rest :
  starts_with_quote rest = false ->
  literal_body (double_quotes s +:+ "'" +:+ rest)%string = Some (s, rest).
Proof.
  intros Hrest. induction s as [|c s IH]; [by apply literal_body_close|]. simpl.
  destruct (decide (c = "'"%char)) as [->|Hc].
  - change (literal_body (String "'" (String "'" (double_quotes s +:+ "'" +:+ rest)%string))
      = Some (String "'" s, rest)).
    simpl. by rewrite IH.
  - change (literal_body (String c (double_quotes s +:+ "'" +:+ rest)%string) = Some (String c s, rest)).
    simpl. rewrite decide_False by done. by rewrite IH.
Qed.

(** A quoted name embedded in a query is read back by PostgreSQL as exactly that
    name, and the literal ends where the query text goes on, whatever characters the
    name holds: a configured name cannot inject SQL. *)
Theorem quoteLiteral_roundtrip s rest :
  starts_with_quote rest = false ->
  read_literal (quoteLiteral s +:+ rest)%string = Some (s, rest).
Proof.
  intros Hrest. unfold quoteLiteral. rewrite string_app_assoc, string_app_assoc. simpl.
  by apply literal_body_quoted.
Qed.

Lemma quoteLiteral_roundtrip_witness :
  read_literal (quoteLiteral "a'; DROP TABLE x; --" +:+ " AND 1")%string
    = Some ("a'; DROP TABLE x; --", " AND 1")%string.
Proof. apply (quoteLiteral_roundtrip "a'; DROP TABLE x; --" " AND 1"). reflexivity. Defined.

(** ** The connection *)
Record Postgres (W : Type) := {
  pg_Connect : ST W (option error);
  pg_Close : ST W unit;
  pg_IdentifySystem : ST W (option error);
  pg_Exec : string -> ST W (res (list (list (list string)))); (* results, rows, columns *)
  pg_CreateReplicationSlot : string -> ST W (res string);    (* its consistent point *)
  pg_StartReplication : string -> Z -> list string -> ST W (option error);
  pg_ParseLSN : string -> res Z;
  pg_Sanitize : string -> string;                            (* [pgx.Identifier.Sanitize] *)
  pg_Wait : Z -> ST W (option error); (* [time.After] against [ctx.Done] *)
}.
Arguments pg_Connect {W}. Arguments pg_Close {W}. Arguments pg_IdentifySystem {W}.
Arguments pg_Exec {W}. Arguments pg_CreateReplicationSlot {W}. Arguments pg_StartReplication {W}.
Arguments pg_ParseLSN {W}. Arguments pg_Sanitize {W}. Arguments pg_Wait {W}.

Record Config := {
  SlotName : string;
  PublicationName : string;
  ReconnectBackoff : Z;
  MaxReconnectBackoff : Z;
  AutoCreateSlot : bool;
  AutoCreatePub : bool;
  SlotRetryInterval : Z;
  SlotRetryTimeout : Z;
}.

(** The reader's fields the setup touches. *)
Record Reader := { conn : bool; reader_clientLSN : Z; slotCreated : bool }.

Section setup.
Context {W : Type} `{!World W}.
Context (pg : Postgres W) (config : Config).

Definition readSimpleQuery (sql : string) : ST W (res (list (list string))) :=
  let! r := pg_Exec pg sql in
  ret match r with
      | inr e => inr e
      | inl [] => inl []
      | inl (rows :: _) => inl rows
      end.

Definition ensurePublication : ST W (option error) :=
  let! r := readSimpleQuery ("SELECT 1 FROM pg_publication WHERE pubname = "
                               +:+ quoteLiteral (PublicationName config))%string in
  match r with
  | inr e => ret (Some (EWrap "check publication failed: " e ""))
  | inl (_ :: _) => ret None
  | inl [] =>
      if negb (AutoCreatePub config) then
        ret (Some (EMsg ("publication " +:+ quoted (PublicationName config)
                           +:+ " does not exist and auto-create is disabled")%string))
      else
        let! r := pg_Exec pg ("CREATE PUBLICATION " +:+ pg_Sanitize pg (PublicationName config)
                                +:+ " FOR ALL TABLES")%string in
        ret match r with
            | inr e => Some (EWrap "create publication failed: " e "")
            | inl _ => None
            end
  end.

Definition ensureReplicationSlot : ST (Reader * W) (res Z) :=
  let! r := inner (readSimpleQuery ("SELECT confirmed_flush_lsn FROM pg_replication_slots WHERE slot_name = "
                                      +:+ quoteLiteral (SlotName config))%string) in
  match r with
  | inr e => ret (inr (EWrap "check replication slot failed: " e ""))
  | inl ((lsnStr :: _) :: _) =>
      ret match pg_ParseLSN pg lsnStr with
          | inr e => inr (EWrap "parse confirmed_flush_lsn failed: " e "")
          | inl startLSN => inl startLSN
          end
  | inl _ =>
      if negb (AutoCreateSlot config) then
        ret (inr (EMsg ("replication slot " +:+ quoted (SlotName config)
                          +:+ " does not exist and auto-create is disabled")%string))
      else
        let! slot := inner (pg_CreateReplicationSlot pg (SlotName config)) in
        match slot with
        | inr e => ret (inr (EWrap "create replication slot failed: " e ""))
        | inl point =>
            seq! own (modify (fun r => {| conn := conn r; reader_clientLSN := reader_clientLSN r;
                                          slotCreated := true |})) in
            ret match pg_ParseLSN pg point with
                | inr e => inr (EWrap "parse consistent_point failed: " e "")
                | inl startLSN => inl startLSN
                end
        end
  end.

Definition pluginArguments : list string :=
  ["proto_version '2'"; ("publication_names '" +:+ PublicationName config +:+ "'")%string;
   "messages 'true'"].

(** The retry loop; [None] when the fuel is used up. *)
Fixpoint start_retry (fuel : nat) (startLSN deadline : Z) : ST W (option (option error)) :=
  match fuel with
  | 0 => ret None
  | S fuel' =>
      let! err := pg_StartReplication pg (SlotName config) startLSN pluginArguments in
      match err with
      | None => ret (Some None)
      | Some e =>
          let! w := get in
          if decide (deadline < now w)%Z then
            ret (Some (Some (EWrap "start replication failed after timeout: " e "")))
          else
            let! done := pg_Wait pg (SlotRetryInterval config) in
            match done with
            | Some e => ret (Some (Some e))
            | None => start_retry fuel' startLSN deadline
            end
      end
  end.

Definition startReplicationWithRetry (fuel : nat) (startLSN : Z) : ST W (option (option error)) :=
  let! w := get in
  start_retry fuel startLSN (now w + SlotRetryTimeout config)%Z.

Definition setupReplication (fuel : nat) : ST (Reader * W) (option (option error)) :=
  let! ident := inner (pg_IdentifySystem pg) in
  match ident with
  | Some e => ret (Some (Some (EWrap "identify system failed: " e "")))
  | None =>
      let! pub := inner ensurePublication in
      match pub with
      | Some e => ret (Some (Some e))
      | None =>
          let! slot := ensureReplicationSlot in
          match slot with
          | inr e => ret (Some (Some e))
          | inl startLSN =>
              let! started := inner (startReplicationWithRetry fuel startLSN) in
              match started with
              | None => ret None
              | Some (Some e) => ret (Some (Some e))
              | Some None =>
                  seq! own (modify (fun r => {| conn := conn r; reader_clientLSN := startLSN;
                                                slotCreated := slotCreated r |})) in
                  ret (Some None)
              end
          end
      end
  end.

(** ** The connection's life *)
Definition set_connected (b : bool) (r : Reader) : Reader :=
  {| conn := b; reader_clientLSN := reader_clientLSN r; slotCreated := slotCreated r |}.

Definition connect : ST (Reader * W) (option error) :=
  let! e := inner (pg_Connect pg) in
  match e with
  | Some e => ret (Some (EWrap "failed to connect to PostgreSQL: " e ""))
  | None => seq! own (modify (set_connected true)) in ret None
  end.

Definition closeConnection : ST (Reader * W) unit :=
  let! s := get in
  if conn s.1 then seq! inner (pg_Close pg) in own (modify (set_connected false)) else ret tt.

(** One pass of the loop up to the stream: connect and set up, closing the connection
    again when the setup fails. *)
Definition open_stream (fuel : nat) : ST (Reader * W) (option (option error)) :=
  let! e := connect in
  match e with
  | Some e => ret (Some (Some e))
  | None =>
      let! r := setupReplication fuel in
      match r with
      | Some (Some e) => seq! closeConnection in ret (Some (Some e))
      | _ => ret r
      end
  end.

Lemma closeConnection_closes s : conn (closeConnection s).2.1 = false.
Proof.
  unfold closeConnection, bind, get, inner, own, modify, ret. destruct s as [r w]. simpl.
  destruct (conn r) eqn:Hc; [|done]. by destruct (pg_Close pg w).
Qed.

(** A pass that fails leaves no connection behind, when it started without one. *)
Lemma open_stream_failure fuel r w e s' :
  conn r = false -> open_stream fuel (r, w) = (Some (Some e), s') -> conn s'.1 = false.
Proof.
  intros Hr. unfold open_stream, bind at 1. destruct (connect (r, w)) as [[e1|] s1] eqn:Hc.
  - intros [= _ <-]. revert Hc. unfold connect, bind, inner, own, modify, ret.
    destruct (pg_Connect pg w) as [[e2|] w1]; [intros [= _ <-]; exact Hr | discriminate].
  - unfold bind. destruct (setupReplication fuel s1) as [[[e2|]|] s2]; [|discriminate..].
    pose proof (closeConnection_closes s2) as Hcl. destruct (closeConnection s2) as [[] s3].
    intros [= _ <-]. exact Hcl.
Qed.

(** ** The reconnect loop of [Start]

    One iteration's outcome is all the loop decides on: how the connection, the setup
    and the streaming session went. *)
Inductive iteration :=
  | ContextDone (e : error) | ShutdownSignalled          (* at the top of the loop *)
  | ConnectFailed | SetupFailed
  | StreamFailed (ctx_done : option error) | StreamEnded.

Definition first_backoff : Z :=
  if decide (ReconnectBackoff config = 0)%Z then 1000000000%Z else ReconnectBackoff config.
Definition max_backoff : Z :=
  if decide (MaxReconnectBackoff config = 0)%Z then 30000000000%Z else MaxReconnectBackoff config.

(** [Start]'s loop over the iterations that happen: the waits it makes and, once it
    returns, its result. *)
Fixpoint start_loop (backoff : Z) (its : list iteration) : list Z * option (option error) :=
  match its with
  | [] => ([], None)
  | it :: rest =>
      let again b :=
        let '(waits, r) := start_loop (Z.min (Duration (b * 2)) max_backoff) rest in (b :: waits, r) in
      match it with
      | ContextDone e => ([], Some (Some e))
      | ShutdownSignalled => ([], Some None)
      | ConnectFailed | SetupFailed => again backoff
      | StreamFailed (Some e) => ([], Some (Some e))
      | StreamFailed None => again first_backoff
      | StreamEnded => ([], Some None)
      end
  end.
Definition Start_waits (its : list iteration) : list Z * option (option error) :=
  start_loop first_backoff its.

(** ** Properties *)

Lemma start_loop_waits b its :
  (0 <= first_backoff <= max_backoff /\ max_backoff < 2 ^ 62)%Z -> (first_backoff <= b <= max_backoff)%Z ->
  Forall (fun b => first_backoff <= b <= max_backoff)%Z (start_loop b its).1.
Proof.
  intros Hb. revert b. induction its as [|it its IH]; intros b Hr; simpl; [constructor|].
  assert (Hagain : forall b, (first_backoff <= b <= max_backoff)%Z ->
    Forall (fun b => first_backoff <= b <= max_backoff)%Z
      (let '(waits, r) := start_loop (Z.min (Duration (b * 2)) max_backoff) its in (b :: waits, r)).1).
  { intros b' Hb'. specialize (IH (Z.min (Duration (b' * 2)) max_backoff) ltac:(rewrite Duration_id by lia; lia)).
    destruct (start_loop _ its). by constructor. }
  destruct it as [e| | | |[e|]|]; try constructor; apply Hagain; lia.
Qed.

(** Every wait of the reconnect loop lies between the first backoff and the
    largest one, whatever sequence of failures occurs. *)
Theorem reconnect_waits_are_bounded its :
  (0 <= first_backoff <= max_backoff /\ max_backoff < 2 ^ 62)%Z ->
  Forall (fun b => first_backoff <= b <= max_backoff)%Z (Start_waits its).1.
Proof. intros Hb. apply start_loop_waits; lia. Qed.

(** What the code relies on of the clock: a wait that ends without the context being
    done has lasted its duration, and starting replication does not turn time back. *)
Definition waits_elapse : Prop :=
  forall d w w', pg_Wait pg d w = (None, w') -> (now w + d <= now w')%Z.
Definition start_keeps_time : Prop :=
  forall n l a w r w', pg_StartReplication pg n l a w = (r, w') -> (now w <= now w')%Z.

Lemma start_retry_returns fuel startLSN deadline w :
  waits_elapse -> start_keeps_time -> (0 < SlotRetryInterval config)%Z ->
  (deadline - now w < Z.of_nat fuel * SlotRetryInterval config)%Z ->
  exists r w', start_retry (S fuel) startLSN deadline w = (Some r, w').
Proof.
  intros Hw Hs Hi. revert w. induction fuel as [|fuel IH]; intros w Hd.
  - simpl. unfold bind, get, ret.
    destruct (pg_StartReplication _ _ _ _ w) as [[e|] w1] eqn:Hst; [|eauto].
    specialize (Hs _ _ _ _ _ _ Hst). destruct (decide _); [eauto | lia].
  - remember (S fuel) as k eqn:Hk. simpl. unfold bind, get, ret.
    destruct (pg_StartReplication _ _ _ _ w) as [[e|] w1] eqn:Hst; [|eauto].
    destruct (decide _); [eauto|].
    destruct (pg_Wait pg _ w1) as [[e'|] w2] eqn:Hwait; [eauto|].
    specialize (Hw _ _ _ Hwait). specialize (Hs _ _ _ _ _ _ Hst). subst k. apply IH; lia.
Qed.

(** Waiting for a busy slot ends: with a positive retry interval, the retry loop
    returns a result within as many attempts as intervals fit the retry timeout, plus
    two. *)
Theorem slot_retry_terminates startLSN w :
  waits_elapse -> start_keeps_time -> (0 < SlotRetryInterval config)%Z ->
  (0 <= SlotRetryTimeout config)%Z ->
  exists r w', startReplicationWithRetry
    (S (S (Z.to_nat (SlotRetryTimeout config / SlotRetryInterval config)))) startLSN w = (Some r, w').
Proof.
  intros Hw Hs Hi Ht. unfold startReplicationWithRetry, bind, get.
  apply start_retry_returns; [done..|].
  pose proof (Z.mul_succ_div_gt (SlotRetryTimeout config) (SlotRetryInterval config) Hi).
  pose proof (Z.div_pos (SlotRetryTimeout config) (SlotRetryInterval config) Ht Hi). nia.
Qed.

(** A replication slot is created only when the catalog shows none of that name
    and automatic creation is on; an existing slot's confirmed position is what the
    session resumes from. *)
Theorem slot_created_only_when_absent r w res r' w' :
  ensureReplicationSlot (r, w) = (res, (r', w')) ->
  (slotCreated r = false -> slotCreated r' = true ->
     AutoCreateSlot config = true /\
     exists rows w1, readSimpleQuery
       ("SELECT confirmed_flush_lsn FROM pg_replication_slots WHERE slot_name = "
          +:+ quoteLiteral (SlotName config))%string w = (inl rows, w1) /\
       (forall lsn cols rest, rows <> (lsn :: cols) :: rest)) /\
  (forall lsn cols rest w1, readSimpleQuery
       ("SELECT confirmed_flush_lsn FROM pg_replication_slots WHERE slot_name = "
          +:+ quoteLiteral (SlotName config))%string w = (inl ((lsn :: cols) :: rest), w1) ->
     w' = w1 /\ r' = r /\ forall l, res = inl l <-> pg_ParseLSN pg lsn = inl l).
Proof.
  unfold ensureReplicationSlot. unfold bind at 1, inner at 1.
  destruct (readSimpleQuery _ w) as [[rows|e] w1].
  - destruct rows as [|[|lsn cols] rest].
    3: { intros [= <- <- <-]. split; [congruence|]. intros ? ? ? ? [= <- <- <- <-].
         split_and!; [done..|]. intros l. destruct (pg_ParseLSN pg lsn); split; congruence. }
    all: intros H; split; [|intros; congruence]; intros H1 H2;
      (destruct (AutoCreateSlot config); simpl in H; [split; [done|] | injection H as <- <- <-; congruence]);
      eexists _, _; split; [done | intros; discriminate].
  - intros [= <- <- <-]. split; [congruence|]. intros; discriminate.
Qed.

End setup.

(** ** [Start]: the loop itself *)
Definition NewReader : Reader := {| conn := false; reader_clientLSN := 0; slotCreated := false |}.

Definition CurrentLSN (LSN_String : Z -> string) (r : Reader) : string := LSN_String (reader_clientLSN r).

Section start.
Context {W : Type} `{!World W}.
Context (pg : Postgres W) (config : Config).
(** The context and the shutdown channel as the loop finds them, the stream-started
    hook, and one streaming session: its error and the position confirmed when it ends. *)
Context (ctx_Err : W -> option error) (shutdown_signalled : W -> bool).
Context (StreamStarted : bool -> ST W unit) (streamLoop : Z -> ST W (option error * Z)).
(** [waitWithBackoff]'s select: the context, the shutdown channel or the timer. *)
Context (select_wait : Z -> ST W unit).

Definition waitWithBackoff (backoff : Z) : ST (Reader * W) unit := inner (select_wait backoff).

Definition set_clientLSN (lsn : Z) (r : Reader) : Reader :=
  {| conn := conn r; reader_clientLSN := lsn; slotCreated := slotCreated r |}.

(** Wait, double the backoff up to its bound, and go round again. *)
Definition wait_again (next : Z -> ST (Reader * W) (list Z * option (option error))) (b : Z)
    : ST (Reader * W) (list Z * option (option error)) :=
  seq! waitWithBackoff b in
  let! r := next (Z.min (Duration (b * 2)) (max_backoff config)) in
  ret (b :: r.1, r.2).

(** The loop, with the waits it makes; its result is [None] when the fuel (or that of
    the slot's retries) is used up. *)
Fixpoint start_iterations (fuel slot_fuel : nat) (backoff : Z)
    : ST (Reader * W) (list Z * option (option error)) :=
  match fuel with
  | 0 => ret ([], None)
  | S fuel' =>
      let again := wait_again (start_iterations fuel' slot_fuel) in
      let! s := get in
      match ctx_Err s.2 with
      | Some e => ret ([], Some (Some e))
      | None =>
          if shutdown_signalled s.2 then ret ([], Some None)
          else
            let! connected := connect pg in
            match connected with
            | Some _ => again backoff
            | None =>
                let! ready := setupReplication pg config slot_fuel in
                match ready with
                | None => ret ([], None)
                | Some (Some _) => seq! closeConnection pg in again backoff
                | Some None =>
                    let backoff := first_backoff config in
                    let! s := get in
                    seq! inner (StreamStarted (slotCreated s.1)) in
                    let! r := inner (streamLoop (reader_clientLSN s.1)) in
                    seq! own (modify (set_clientLSN r.2)) in
                    match r.1 with
                    | None => ret ([], Some None)
                    | Some _ =>
                        let! s := get in
                        match ctx_Err s.2 with
                        | Some e => ret ([], Some (Some e))
                        | None => seq! closeConnection pg in again backoff
                        end
                    end
                end
            end
      end
  end.

(** The deferred [closeConnection] runs whatever the loop returned. *)
Definition Reader_Start (fuel slot_fuel : nat) : ST (Reader * W) (list Z * option (option error)) :=
  let! r := start_iterations fuel slot_fuel (first_backoff config) in
  seq! closeConnection pg in ret r.

(** *** What happens in an iteration

    From the conditions at the top of the loop, [connect], [setupReplication] and the
    session alone, whatever the loop makes of it. *)
Definition enters (s : Reader * W) : Prop := ctx_Err s.2 = None /\ shutdown_signalled s.2 = false.
Definition session : ST (Reader * W) (option error) :=
  let! s := get in
  seq! inner (StreamStarted (slotCreated s.1)) in
  let! r := inner (streamLoop (reader_clientLSN s.1)) in
  seq! own (modify (set_clientLSN r.2)) in
  ret r.1.

Inductive outcome (slot_fuel : nat) (s : Reader * W) : iteration -> Reader * W -> Prop :=
  | context_done e : ctx_Err s.2 = Some e -> outcome slot_fuel s (ContextDone e) s
  | shut_down : ctx_Err s.2 = None -> shutdown_signalled s.2 = true -> outcome slot_fuel s ShutdownSignalled s
  | connect_failed e s1 : enters s -> connect pg s = (Some e, s1) -> outcome slot_fuel s ConnectFailed s1
  | setup_failed s1 e s2 s3 :
      enters s -> connect pg s = (None, s1) -> setupReplication pg config slot_fuel s1 = (Some (Some e), s2) ->
      closeConnection pg s2 = (tt, s3) -> outcome slot_fuel s SetupFailed s3
  | stream_ended s1 s2 s3 :
      enters s -> connect pg s = (None, s1) -> setupReplication pg config slot_fuel s1 = (Some None, s2) ->
      session s2 = (None, s3) -> outcome slot_fuel s StreamEnded s3
  | stream_cancelled s1 s2 err s3 e :
      enters s -> connect pg s = (None, s1) -> setupReplication pg config slot_fuel s1 = (Some None, s2) ->
      session s2 = (Some err, s3) -> ctx_Err s3.2 = Some e -> outcome slot_fuel s (StreamFailed (Some e)) s3
  | stream_failed s1 s2 err s3 s4 :
      enters s -> connect pg s = (None, s1) -> setupReplication pg config slot_fuel s1 = (Some None, s2) ->
      session s2 = (Some err, s3) -> ctx_Err s3.2 = None -> closeConnection pg s3 = (tt, s4) ->
      outcome slot_fuel s (StreamFailed None) s4.

(** The iterations after which the loop waits and goes on. *)
Definition goes_on (it : iteration) : bool :=
  match it with ConnectFailed | SetupFailed | StreamFailed None => true | _ => false end.

(** [happened slot_fuel fuel s waits its s']: from [s], with [waits] between them, these
    were the outcomes of the iterations, up to one that ends the loop, to the last the
    fuel follows, or to a setup whose retries for the slot outlast theirs. *)
Inductive happened (slot_fuel : nat) : nat -> Reader * W -> list Z -> list iteration -> Reader * W -> Prop :=
  | followed s : happened slot_fuel 0 s [] [] s
  | slot_unsettled fuel s s1 s2 :
      enters s -> connect pg s = (None, s1) -> setupReplication pg config slot_fuel s1 = (None, s2) ->
      happened slot_fuel (S fuel) s [] [] s2
  | ended fuel s it s' :
      outcome slot_fuel s it s' -> goes_on it = false -> happened slot_fuel (S fuel) s [] [it] s'
  | went_on fuel s it s1 b u s2 waits its s' :
      outcome slot_fuel s it s1 -> goes_on it = true -> waitWithBackoff b s1 = (u, s2) ->
      happened slot_fuel fuel s2 waits its s' -> happened slot_fuel (S fuel) s (b :: waits) (it :: its) s'.

(** The loop's waits and result are those of the abstract loop on the outcomes that
    happened. *)
Lemma start_iterations_refine fuel slot_fuel backoff s :
  let '(res, s') := start_iterations fuel slot_fuel backoff s in
  exists its, happened slot_fuel fuel s res.1 its s' /\ res = start_loop config backoff its.
Proof.
  revert backoff s. induction fuel as [|fuel IH]; intros backoff s; [exists []; split; [constructor | done]|].
  cbn [start_iterations]. unfold bind, get, ret.
  destruct (ctx_Err s.2) as [e|] eqn:Hc; [exists [ContextDone e]; split; [by repeat constructor | done]|].
  destruct (shutdown_signalled s.2) eqn:Hsd; [exists [ShutdownSignalled]; split; [by repeat constructor | done]|].
  assert (Hagain : forall b s1 it, outcome slot_fuel s it s1 -> goes_on it = true ->
    (forall rest, start_loop config backoff (it :: rest) =
       (let '(waits, r) := start_loop config (Z.min (Duration (b * 2)) (max_backoff config)) rest in (b :: waits, r))) ->
    let '(res, s') := wait_again (start_iterations fuel slot_fuel) b s1 in
    exists its, happened slot_fuel (S fuel) s res.1 its s' /\ res = start_loop config backoff its).
  { intros b s1 it Ho Hg Hit. unfold wait_again, bind, ret. destruct (waitWithBackoff b s1) as [u s2] eqn:Hw.
    specialize (IH (Z.min (Duration (b * 2)) (max_backoff config)) s2).
    destruct (start_iterations fuel slot_fuel _ s2) as [[ws r] s3]. destruct IH as (its & Hh & He).
    exists (it :: its). split; [by eapply went_on|]. by rewrite Hit, <- He. }
  assert (Hen : enters s) by done.
  destruct (connect pg s) as [[e|] s1] eqn:Hcon; [by apply (Hagain backoff s1 ConnectFailed); [by econstructor|..]|].
  destruct (setupReplication pg config slot_fuel s1) as [[[e|]|] s2] eqn:Hset;
    [| |by exists []; split; [by econstructor|]].
  { destruct (closeConnection pg s2) as [[] s3] eqn:Hcl.
    by apply (Hagain backoff s3 SetupFailed); [by econstructor|..]. }
  assert (Hses : session s2 = (let '(_, s3) := inner (StreamStarted (slotCreated s2.1)) s2 in
    let '(r, s4) := inner (streamLoop (reader_clientLSN s2.1)) s3 in
    let '(_, s5) := own (modify (set_clientLSN r.2)) s4 in (r.1, s5))) by reflexivity.
  destruct (inner (StreamStarted _) s2) as [u3 s3]. destruct (inner (streamLoop _) s3) as [[[e|] lsn] s4];
    destruct (own (modify _) s4) as [u5 s5]; simpl in Hses |- *;
    [|by exists [StreamEnded]; split; [by eapply ended; [by econstructor|]|]].
  destruct (ctx_Err s5.2) as [e'|] eqn:Hc5;
    [by exists [StreamFailed (Some e')]; split; [by eapply ended; [by econstructor|]|]|].
  destruct (closeConnection pg s5) as [[] s6] eqn:Hcl.
  by apply (Hagain (first_backoff config) s6 (StreamFailed None)); [by econstructor|..].
Qed.

Lemma Start_refines fuel slot_fuel s :
  let '(res, s') := Reader_Start fuel slot_fuel s in
  exists its s1, happened slot_fuel fuel s res.1 its s1 /\ s' = (closeConnection pg s1).2 /\ res = Start_waits config its.
Proof.
  pose proof (start_iterations_refine fuel slot_fuel (first_backoff config) s) as H. unfold Reader_Start, bind, ret.
  destruct (start_iterations _ _ _ s) as [res s1]. destruct H as (its & Hh & He).
  destruct (closeConnection pg s1) as [u s2] eqn:Hcl. exists its, s1. by rewrite Hcl.
Qed.
End start.

(** *** Connections opened and closed *)

(** [m] keeps the condition [I]. *)
Definition keeps {S A} (I : S -> Prop) (m : ST S A) : Prop := forall s, I s -> I (m s).2.

Create HintDb reader_keeps.

(** A connection that counts what is open. *)
Definition counted_pg {W} (pg : Postgres W) : Postgres (nat * W) :=
  {| pg_Connect := fun '(n, w) =>
       let '(e, w') := pg_Connect pg w in (e, (match e with None => S n | Some _ => n end, w'));
     pg_Close := fun '(n, w) => let '(u, w') := pg_Close pg w in (u, (pred n, w'));
     pg_IdentifySystem := inner (pg_IdentifySystem pg);
     pg_Exec := fun sql => inner (pg_Exec pg sql);
     pg_CreateReplicationSlot := fun name => inner (pg_CreateReplicationSlot pg name);
     pg_StartReplication := fun n l a => inner (pg_StartReplication pg n l a);
     pg_ParseLSN := pg_ParseLSN pg; pg_Sanitize := pg_Sanitize pg;
     pg_Wait := fun d => inner (pg_Wait pg d) |}.

Section connections.
Context {W : Type} `{!World W}.
Context (pg : Postgres W) (config : Config).
Context (ctx_Err : W -> option error) (shutdown_signalled : W -> bool).
Context (StreamStarted : bool -> ST W unit) (streamLoop : Z -> ST W (option error * Z)).
Context (select_wait : Z -> ST W unit).

Abbreviation cpg := (counted_pg pg).
Abbreviation state := (Reader * (nat * W))%type.

(** Exactly the connection the reader holds is open. *)
Definition open_matches (s : state) : Prop := s.2.1 = if conn s.1 then 1 else 0.
Definition disconnected (s : state) : Prop := conn s.1 = false /\ s.2.1 = 0.

(** What changes no connection keeps both conditions. *)
Definition neutral {A} (m : ST state A) : Prop :=
  forall r n w, let '(_, (r', (n', _))) := m (r, (n, w)) in conn r' = conn r /\ n' = n.

Lemma neutral_keeps {A} (m : ST state A) : neutral m -> keeps open_matches m.
Proof.
  intros Hn [r [n w]] Hs. specialize (Hn r n w). destruct (m (r, (n, w))) as [a [r' [n' w']]].
  destruct Hn as [Hc ->]. unfold open_matches in *. simpl in *. by rewrite Hc.
Qed.
Lemma neutral_ret {A} (a : A) : neutral (ret a).
Proof. by intros r n w. Qed.
Lemma neutral_get : neutral get.
Proof. by intros r n w. Qed.
Lemma neutral_bind {A B} (m : ST state A) (k : A -> ST state B) :
  neutral m -> (forall a, neutral (k a)) -> neutral (bind m k).
Proof.
  intros Hm Hk r n w. unfold bind. specialize (Hm r n w). destruct (m (r, (n, w))) as [a [r1 [n1 w1]]].
  destruct Hm as [H1 H2]. specialize (Hk a r1 n1 w1). destruct (k a (r1, (n1, w1))) as [b [r2 [n2 w2]]].
  destruct Hk. split; congruence.
Qed.
Lemma neutral_inner {A} (m : ST (nat * W) A) :
  (forall n w, (m (n, w)).2.1 = n) -> neutral (inner m).
Proof.
  intros Hm r n w. unfold inner. specialize (Hm n w). destruct (m (n, w)) as [a [n' w']]. by split.
Qed.
Lemma neutral_behind {A} (m : ST W A) : neutral (inner (inner m)).
Proof. apply neutral_inner. intros n w. unfold inner. by destruct (m w). Qed.
Lemma neutral_own (f : Reader -> Reader) : (forall r, conn (f r) = conn r) -> neutral (own (modify f)).
Proof. intros Hf r n w. simpl. by rewrite Hf. Qed.
#[local] Hint Resolve neutral_ret neutral_get neutral_bind neutral_behind : reader_keeps.

Lemma readSimpleQuery_counts sql n w : (readSimpleQuery cpg sql (n, w)).2.1 = n.
Proof. unfold readSimpleQuery, bind, ret. simpl. unfold inner. by destruct (pg_Exec pg sql w). Qed.

Lemma ensurePublication_counts n w : (ensurePublication cpg config (n, w)).2.1 = n.
Proof.
  unfold ensurePublication, bind. pose proof (readSimpleQuery_counts
    ("SELECT 1 FROM pg_publication WHERE pubname = " +:+ quoteLiteral (PublicationName config))%string n w) as H.
  destruct (readSimpleQuery cpg _ (n, w)) as [[[|row rows]|e] [n1 w1]]; simpl in H; subst n1; simpl; try done.
  destruct (negb (AutoCreatePub config)); [done|]. simpl. unfold inner. by destruct (pg_Exec pg _ w1).
Qed.

Lemma start_retry_counts fuel lsn dl n w : (start_retry cpg config fuel lsn dl (n, w)).2.1 = n.
Proof.
  revert w. induction fuel as [|fuel IH]; intros w; [done|]. simpl. unfold bind, inner, get, ret.
  destruct (pg_StartReplication pg _ _ _ w) as [[e|] w1]; [|done]. simpl.
  destruct (decide _); [done|]. unfold bind. destruct (pg_Wait pg _ w1) as [[e'|] w2]; [done | apply IH].
Qed.

Lemma ensureReplicationSlot_neutral : neutral (ensureReplicationSlot cpg config).
Proof.
  unfold ensureReplicationSlot. apply neutral_bind; [apply neutral_inner; intros; apply readSimpleQuery_counts|].
  intros [[|[|lsn cols] rest]|e]; eauto with reader_keeps.
  all: destruct (negb (AutoCreateSlot config)); [eauto with reader_keeps|].
  all: apply neutral_bind; [apply neutral_behind|]; intros [point|e]; eauto with reader_keeps.
  all: apply neutral_bind; [by apply neutral_own | eauto with reader_keeps].
Qed.

Lemma setupReplication_neutral fuel : neutral (setupReplication cpg config fuel).
Proof.
  unfold setupReplication. apply neutral_bind; [apply neutral_behind|]. intros [e|]; [apply neutral_ret|].
  apply neutral_bind; [apply neutral_inner, ensurePublication_counts|]. intros [e|]; [apply neutral_ret|].
  apply neutral_bind; [apply ensureReplicationSlot_neutral|]. intros [lsn|e]; [|apply neutral_ret].
  apply neutral_bind; [apply neutral_inner; intros; apply start_retry_counts|].
  intros [[e|]|]; [apply neutral_ret | | apply neutral_ret].
  apply neutral_bind; [by apply neutral_own | intros; apply neutral_ret].
Qed.

Lemma closeConnection_disconnects s : open_matches s -> disconnected (closeConnection cpg s).2.
Proof.
  destruct s as [r [n w]]. unfold open_matches, closeConnection, disconnected, bind, get, inner, own, modify, ret.
  simpl. destruct (conn r) eqn:Hc; simpl; [|done]. intros ->. by destruct (pg_Close pg w).
Qed.

Lemma connect_opens s : disconnected s -> open_matches (connect cpg s).2 /\
  (forall e, (connect cpg s).1 = Some e -> disconnected (connect cpg s).2).
Proof.
  destruct s as [r [n w]]. intros [Hc Hn]. simpl in *. subst n.
  unfold connect, bind, inner, own, modify, ret, open_matches, disconnected. simpl.
  destruct (pg_Connect pg w) as [[e|] w1]; simpl; rewrite ?Hc; split; try done; by intros.
Qed.

Abbreviation iterations := (start_iterations cpg config (fun w => ctx_Err w.2) (fun w => shutdown_signalled w.2)
  (fun b => inner (StreamStarted b)) (fun l => inner (streamLoop l)) (fun d => inner (select_wait d))).

Lemma disconnected_matches s : disconnected s -> open_matches s.
Proof. intros [Hc Hn]. unfold open_matches. by rewrite Hc. Qed.

Lemma wait_disconnected b s : disconnected s ->
  disconnected (waitWithBackoff (fun d => inner (select_wait d)) b s).2.
Proof.
  destruct s as [r [n w]]. unfold waitWithBackoff, inner, disconnected. simpl. by destruct (select_wait b w).
Qed.

Lemma iterations_match fuel slot_fuel b s :
  disconnected s -> open_matches (iterations fuel slot_fuel b s).2.
Proof.
  revert b s. induction fuel as [|fuel IH]; intros b s Hs; [by apply disconnected_matches|].
  cbn [start_iterations]. unfold bind at 1, get at 1.
  destruct (ctx_Err s.2.2) as [e|]; [by apply disconnected_matches|].
  destruct (shutdown_signalled s.2.2); [by apply disconnected_matches|].
  assert (Hagain : forall b s1, disconnected s1 ->
    open_matches (wait_again config (fun d => inner (select_wait d)) (iterations fuel slot_fuel) b s1).2).
  { intros b1 s1 H1. unfold wait_again, bind, ret. pose proof (wait_disconnected b1 s1 H1) as H2.
    destruct (waitWithBackoff _ b1 s1) as [u s2]. simpl in H2. specialize (IH (Z.min (Duration (b1 * 2)) (max_backoff config)) s2 H2).
    by destruct (iterations fuel slot_fuel _ s2) as [[ws r] s3]. }
  destruct (connect_opens s Hs) as [Ho Hf]. unfold bind at 1.
  destruct (connect cpg s) as [[e|] s1]; simpl in *; [by apply Hagain, (Hf e)|].
  pose proof (neutral_keeps _ (setupReplication_neutral slot_fuel) s1 Ho) as H2. unfold bind at 1.
  destruct (setupReplication cpg config slot_fuel s1) as [[[e|]|] s2]; simpl in *; [| |exact H2].
  { unfold bind. pose proof (closeConnection_disconnects s2 H2) as H3.
    destruct (closeConnection cpg s2) as [u s3]. by apply Hagain. }
  unfold bind at 1, get at 1. unfold bind at 1.
  pose proof (neutral_keeps _ (neutral_behind (StreamStarted (slotCreated s2.1))) s2 H2) as H3.
  destruct (inner (inner (StreamStarted _)) s2) as [u s3]. simpl in H3. unfold bind at 1.
  pose proof (neutral_keeps _ (neutral_behind (streamLoop (reader_clientLSN s2.1))) s3 H3) as H4.
  destruct (inner (inner (streamLoop _)) s3) as [[err lsn] s4]. simpl in H4. unfold bind at 1.
  pose proof (neutral_keeps _ (neutral_own (set_clientLSN lsn) (fun _ => eq_refl)) s4 H4) as H5.
  simpl. destruct (own (modify (set_clientLSN lsn)) s4) as [u5 s5]. simpl in H5.
  destruct err as [e|]; [|exact H5]. unfold bind at 1, get at 1.
  destruct (ctx_Err s5.2.2); [exact H5|]. unfold bind. pose proof (closeConnection_disconnects s5 H5) as H6.
  destruct (closeConnection cpg s5) as [u6 s6]. by apply Hagain.
Qed.

(** C38: The reconnect loop leaks no connection and never waits out of bounds: over any
    number of failed connections, setups and sessions, when [Start] returns every
    connection it opened is closed, and its waits lie between the first backoff and the
    largest one, if that can be doubled in an int64.  Its waits and its result are those of the loop's specification on the
    outcomes that happened, read off the states it went through: the context's error
    when the context was done at the top of the loop or after a session that failed,
    nil when the shutdown was signalled or a session ended, and the backoff doubled
    after each failed connection or setup and reset by each session. *)
Theorem reconnecting_leaks_nothing fuel slot_fuel r w :
  conn r = false -> (0 <= first_backoff config <= max_backoff config /\ max_backoff config < 2 ^ 62)%Z ->
  let '(res, s') := Reader_Start cpg config (fun w => ctx_Err w.2) (fun w => shutdown_signalled w.2)
    (fun b => inner (StreamStarted b)) (fun l => inner (streamLoop l)) (fun d => inner (select_wait d))
    fuel slot_fuel (r, (0, w)) in
  conn s'.1 = false /\ s'.2.1 = 0 /\
  Forall (fun b => first_backoff config <= b <= max_backoff config)%Z res.1 /\
  exists its s1,
    happened cpg config (fun w => ctx_Err w.2) (fun w => shutdown_signalled w.2)
      (fun b => inner (StreamStarted b)) (fun l => inner (streamLoop l)) (fun d => inner (select_wait d))
      slot_fuel fuel (r, (0, w)) res.1 its s1 /\
    s' = (closeConnection cpg s1).2 /\ res = Start_waits config its.
Proof.
  intros Hc Hb. set (m := Reader_Start _ _ _ _ _ _ _ _ _).
  assert (Hd : disconnected (m (r, (0, w))).2).
  { unfold m, Reader_Start, bind, ret. pose proof (iterations_match fuel slot_fuel (first_backoff config) (r, (0, w))
      (conj Hc eq_refl)) as H1. destruct (iterations fuel slot_fuel _ (r, (0, w))) as [res s1]. simpl in H1.
    pose proof (closeConnection_disconnects s1 H1) as H2. by destruct (closeConnection cpg s1). }
  pose proof (Start_refines cpg config (fun w => ctx_Err w.2) (fun w => shutdown_signalled w.2)
    (fun b => inner (StreamStarted b)) (fun l => inner (streamLoop l)) (fun d => inner (select_wait d))
    fuel slot_fuel (r, (0, w))) as Href. fold m in Href.
  destruct (m (r, (0, w))) as [res s']. destruct Hd as [H1 H2]. destruct Href as (its & s1 & Hh & Hs & He).
  split_and!; [done | done | rewrite He; apply start_loop_waits; lia | by exists its, s1].
Qed.
End connections.

(** *** [Stop] *)

(** The shutdown channel and the [sync.Once] that guards its close; closing a closed
    channel panics. *)
Record Control := { stopOnce : bool; shutdown_closed : bool }.
Definition close_shutdown (c : Control) : option Control :=
  if shutdown_closed c then None else Some {| stopOnce := stopOnce c; shutdown_closed := true |}.

(** [finished] is what the wait ends with: the reader is done, or the context's error. *)
Definition Reader_Stop (finished : option error) (c : Control) : option (option error * Control) :=
  if stopOnce c then Some (finished, c)
  else c' ← close_shutdown {| stopOnce := true; shutdown_closed := shutdown_closed c |}; Some (finished, c').

Fixpoint stop_all (fs : list (option error)) (c : Control) : option Control :=
  match fs with [] => Some c | f :: rest => r ← Reader_Stop f c; stop_all rest r.2 end.

(** Stopping any number of times signals the shutdown once and never panics. *)
Lemma stop_is_idempotent f fs :
  stop_all (f :: fs) {| stopOnce := false; shutdown_closed := false |}
    = Some {| stopOnce := true; shutdown_closed := true |}.
Proof. simpl. induction fs as [|g fs IH]; [done|]. exact IH. Qed.

(** ** A connection whose slot is busy twice *)
Definition toy_pg : Postgres (Z * nat) :=
  {| pg_Connect := ret None; pg_Close := ret tt; pg_IdentifySystem := ret None;
     pg_Exec := fun sql => ret (inl []);
     pg_CreateReplicationSlot := fun _ => ret (inl "0/10");
     pg_StartReplication := fun _ _ _ '(t, n) =>
       match n with 0 => (None, (t, 0)) | S n' => (Some (EMsg "busy"), (t, n')) end;
     pg_ParseLSN := fun _ => inl 16%Z; pg_Sanitize := fun s => s;
     pg_Wait := fun d '(t, n) => (None, ((t + Z.max d 0)%Z, n)) |}.
#[local] Instance toy_world : World (Z * nat) := {| now := fst; cancelled := fun _ => false |}.
Definition toy_config : Config :=
  {| SlotName := "s"; PublicationName := "p"; ReconnectBackoff := 0; MaxReconnectBackoff := 0;
     AutoCreateSlot := true; AutoCreatePub := true; SlotRetryInterval := 5; SlotRetryTimeout := 30 |}.

Lemma reconnect_waits_are_bounded_witness :
  (Start_waits toy_config [ConnectFailed; SetupFailed; StreamFailed None; StreamEnded]).1
    = [1000000000; 2000000000; 1000000000]%Z /\
  Forall (fun b => first_backoff toy_config <= b <= max_backoff toy_config)%Z
    (Start_waits toy_config [ConnectFailed; SetupFailed; StreamFailed None; StreamEnded]).1.
Proof. split; [reflexivity|]. apply (reconnect_waits_are_bounded toy_config). split; [split|]; by vm_compute. Defined.

Lemma slot_retry_terminates_witness :
  exists r w', startReplicationWithRetry toy_pg toy_config 8 16 (0%Z, 2) = (Some r, w').
Proof.
  apply (slot_retry_terminates toy_pg toy_config 16 (0%Z, 2)).
  - intros d [t n] [t' n'] [= <- <-]. simpl. lia.
  - intros nm l a [t n] r [t' n'] H. destruct n; injection H as <- <- <-; simpl; lia.
  - reflexivity.
  - discriminate.
Defined.

Lemma slot_created_only_when_absent_witness :
  exists r', ensureReplicationSlot toy_pg toy_config
      ({| conn := true; reader_clientLSN := 0; slotCreated := false |}, (0%Z, 0)) = (inl 16%Z, (r', (0%Z, 0))) /\
    slotCreated r' = true /\ AutoCreateSlot toy_config = true.
Proof.
  eexists. split; [reflexivity|]. split; [reflexivity|].
  eapply (slot_created_only_when_absent toy_pg toy_config
    {| conn := true; reader_clientLSN := 0; slotCreated := false |} (0%Z, 0)); reflexivity.
Defined.

(** The first session breaks, the second ends with the shutdown. *)
Definition toy_stream (lsn : Z) : ST (Z * nat) (option error * Z) :=
  fun '(t, n) => if decide (t < 1000)%Z then ((Some (EMsg "reset"), lsn), (t + 1000, n)%Z) else ((None, lsn), (t, n)).
Definition toy_start (s : Reader * (nat * (Z * nat))) :=
  Reader_Start (counted_pg toy_pg) toy_config (fun _ => None) (fun _ => false) (fun b => inner (ret tt))
    (fun l => inner (toy_stream l)) (fun d => inner (ret tt)) 5 8 s.

Lemma reconnecting_leaks_nothing_witness :
  (toy_start (NewReader, (0, (0%Z, 0)))).1 = ([1000000000%Z], Some None) /\
  conn (toy_start (NewReader, (0, (0%Z, 0)))).2.1 = false /\
  (toy_start (NewReader, (0, (0%Z, 0)))).2.2.1 = 0.
Proof.
  split; [vm_compute; reflexivity|].
  pose proof (reconnecting_leaks_nothing toy_pg toy_config (fun _ => None) (fun _ => false) (fun b => ret tt)
    toy_stream (fun d => ret tt) 5 8 NewReader (0%Z, 0) eq_refl ltac:(split; [split|]; by vm_compute)) as H.
  unfold toy_start. destruct (Reader_Start _ _ _ _ _ _ _ _ _ _) as [res s']. split; apply H.
Defined.
