(* ===== verification/Backfill.v ===== *)
(** * The backfill coordinator (src/internal/adapters/primary/backfill/coordinator.go)

    The coordinator's state behind its mutex, with one definition per critical
    section or operation: the manager surface that queues tables, and the controller
    surface the WAL reader calls.  Chunks are shared between the coordinator's
    in-flight map and the lane that waits for them, so they live in a heap indexed by
    their id, and the in-flight map is the set of ids it holds.  A channel that is
    closed and replaced ([restart]) is a generation counter: a chunk's copy is closed
    once the counter moved past the generation it was created in.  The database is the
    [DB] interface of db.go; decoding a watermark's JSON payload is the parameter
    [Unmarshal]. *)

From Stdlib Require Import ZArith Lia Ascii String.
From stdpp Require Import base list gmap strings pretty.
From S2P Require Import Prelude Domain SchemaChange Decoder Reader.

Open Scope go_scope.
Set Warnings "-clear-no-such-hyp".
Set Default Proof Using "Type".

(** ** Data *)
Record tableRef := { tr_Schema : string; tr_Table : string }.
#[export] Instance tableRef_eq_dec : EqDecision tableRef.
Proof. solve_decision. Defined.
#[export] Instance tableRef_countable : Countable tableRef.
Proof.
  refine (inj_countable' (fun r => (tr_Schema r, tr_Table r))
            (fun p => {| tr_Schema := p.1; tr_Table := p.2 |}) _).
  by intros [].
Defined.

Definition ref_String (t : tableRef) : string := (tr_Schema t +:+ "." +:+ tr_Table t)%string.

Record Row := { row_Key : string; row_Values : columns }.
Record Chunk := { chunk_Rows : list Row; chunk_LastCursor : list string }.
Record TableState := {
  ts_Cursor : list string;
  ts_Done : bool;
  ts_RowsCopied : Z;
  ts_UpdatedAt : Z;
}.

Inductive BackfillState :=
  | BackfillPending | BackfillRunning | BackfillDone | BackfillSkipped | BackfillFailed
  | BackfillUnset. (* the zero value of the string type *)
#[export] Instance BackfillState_eq_dec : EqDecision BackfillState.
Proof. solve_decision. Defined.

Record BackfillTableStatus := {
  bs_Schema : string;
  bs_Table : string;
  bs_State : BackfillState;
  bs_RowsCopied : Z;
  bs_StartedAt : option Z;
  bs_CompletedAt : option Z;
  bs_Error : string;
}.

(** A chunk object; [ch_done] tells whether its channel was closed, [ch_restart] is
    the generation of the restart channel it holds. *)
Record chunkInFlight := {
  ch_table : tableRef;
  ch_id : string;
  ch_collecting : bool;
  ch_seen : gset string;
  ch_pending : list Row;
  ch_pkCols : list string;
  ch_rowCount : nat;
  ch_lastCursor : list string;
  ch_delivered : nat;
  ch_done : bool;
  ch_restart : nat;
}.

Record watermarkPayload := { wp_Slot : string; wp_Chunk : string; wp_Mark : string }.

Record BackfillConfig := {
  bf_SlotName : string;
  bf_PublicationName : string;
  bf_ChunkSize : Z;
  bf_ChunkDelay : Z;
  bf_Lanes : Z;
  bf_ExcludedTables : gset string;
  bf_Wanted : option (string -> string -> bool);
}.

Definition DefaultChunkSize : Z := 5000.
Definition DefaultLanes : Z := 4.
Definition pipelineDepth : nat := 2.

(** The defaults [NewCoordinator] fills in. *)
Definition with_defaults (cfg : BackfillConfig) : BackfillConfig :=
  {| bf_SlotName := bf_SlotName cfg;
     bf_PublicationName := bf_PublicationName cfg;
     bf_ChunkSize := if decide (bf_ChunkSize cfg <= 0)%Z then DefaultChunkSize else bf_ChunkSize cfg;
     bf_ChunkDelay := bf_ChunkDelay cfg;
     bf_Lanes := if decide (bf_Lanes cfg <= 0)%Z then DefaultLanes else bf_Lanes cfg;
     bf_ExcludedTables := bf_ExcludedTables cfg;
     bf_Wanted := bf_Wanted cfg |}.

Record Coordinator := {
  bq : list tableRef;
  running : gset tableRef;
  state : gmap string TableState;
  status : gmap string BackfillTableStatus;
  chunkheap : gmap string chunkInFlight;
  inflight : gset string;
  wakes : nat;
  chunkSeq : Z;
  streaming : bool;
  restarts : nat;
}.

Definition NewCoordinator : Coordinator :=
  {| bq := []; running := ∅; state := ∅; status := ∅; chunkheap := ∅; inflight := ∅;
     wakes := 0; chunkSeq := 0; streaming := false; restarts := 0 |}.

Definition set_bq v (c : Coordinator) : Coordinator :=
  {| bq := v; running := running c; state := state c; status := status c; chunkheap := chunkheap c;
     inflight := inflight c; wakes := wakes c; chunkSeq := chunkSeq c; streaming := streaming c;
     restarts := restarts c |}.
Definition set_running v (c : Coordinator) : Coordinator :=
  {| bq := bq c; running := v; state := state c; status := status c; chunkheap := chunkheap c;
     inflight := inflight c; wakes := wakes c; chunkSeq := chunkSeq c; streaming := streaming c;
     restarts := restarts c |}.
Definition set_state v (c : Coordinator) : Coordinator :=
  {| bq := bq c; running := running c; state := v; status := status c; chunkheap := chunkheap c;
     inflight := inflight c; wakes := wakes c; chunkSeq := chunkSeq c; streaming := streaming c;
     restarts := restarts c |}.
Definition set_status v (c : Coordinator) : Coordinator :=
  {| bq := bq c; running := running c; state := state c; status := v; chunkheap := chunkheap c;
     inflight := inflight c; wakes := wakes c; chunkSeq := chunkSeq c; streaming := streaming c;
     restarts := restarts c |}.
Definition set_chunks (heap : gmap string chunkInFlight) (ids : gset string) (c : Coordinator)
    : Coordinator :=
  {| bq := bq c; running := running c; state := state c; status := status c; chunkheap := heap;
     inflight := ids; wakes := wakes c; chunkSeq := chunkSeq c; streaming := streaming c;
     restarts := restarts c |}.
Definition set_wakes v (c : Coordinator) : Coordinator :=
  {| bq := bq c; running := running c; state := state c; status := status c; chunkheap := chunkheap c;
     inflight := inflight c; wakes := v; chunkSeq := chunkSeq c; streaming := streaming c;
     restarts := restarts c |}.
Definition set_stream (up : bool) (gen : nat) (c : Coordinator) : Coordinator :=
  {| bq := bq c; running := running c; state := state c; status := status c; chunkheap := chunkheap c;
     inflight := inflight c; wakes := wakes c; chunkSeq := chunkSeq c; streaming := up;
     restarts := gen |}.
Definition set_chunkSeq v (c : Coordinator) : Coordinator :=
  {| bq := bq c; running := running c; state := state c; status := status c; chunkheap := chunkheap c;
     inflight := inflight c; wakes := wakes c; chunkSeq := v; streaming := streaming c;
     restarts := restarts c |}.

(** ** Helpers *)

(** [parts[i] = fmt.Sprintf("%v", data[col])], or not found. *)
Fixpoint key_parts (data : columns) (pkCols : list string) : option (list string) :=
  match pkCols with
  | [] => Some []
  | col :: rest =>
      match data !! col with
      | None => None
      | Some v => match key_parts data rest with Some ps => Some (fmtV v :: ps) | None => None end
      end
  end.

(** [pkKeyFromData]; the code indexes [parts[0]], so it is only called with a
    non-empty key. *)
Definition pkKeyFromData (data : columns) (pkCols : list string) : option string :=
  match key_parts data pkCols with
  | Some (p :: ps) => Some (foldl (fun key p => (key +:+ unit_sep +:+ p)%string) p ps)
  | _ => None
  end.

(** [splitTableName]: at the first dot. *)
Fixpoint splitTableName (name : string) : option tableRef :=
  match name with
  | EmptyString => None
  | String ch rest =>
      if decide (ch = "."%char) then Some {| tr_Schema := EmptyString; tr_Table := rest |}
      else match splitTableName rest with
           | Some r => Some {| tr_Schema := String ch (tr_Schema r); tr_Table := tr_Table r |}
           | None => None
           end
  end.

Definition tableNames (refs : list tableRef) : list string := map ref_String refs.

Definition empty_status (ref : tableRef) (s : BackfillState) : BackfillTableStatus :=
  {| bs_Schema := tr_Schema ref; bs_Table := tr_Table ref; bs_State := s; bs_RowsCopied := 0;
     bs_StartedAt := None; bs_CompletedAt := None; bs_Error := "" |}.

(** [setStatus]: update the table's status, from a fresh one if there is none. *)
Definition setStatus (ref : tableRef) (update : BackfillTableStatus -> BackfillTableStatus)
    (c : Coordinator) : Coordinator :=
  let s := default (empty_status ref BackfillUnset) (status c !! ref_String ref) in
  set_status (<[ref_String ref := update s]> (status c)) c.

(** [busyLocked] *)
Definition busy_table (ref : tableRef) (c : Coordinator) : bool :=
  bool_decide (ref ∈ running c) || bool_decide (ref ∈ bq c).

Definition upd_status (st : BackfillState) (copied : Z) (started completed : option Z) (err : string)
    (s : BackfillTableStatus) : BackfillTableStatus :=
  {| bs_Schema := bs_Schema s; bs_Table := bs_Table s; bs_State := st; bs_RowsCopied := copied;
     bs_StartedAt := started; bs_CompletedAt := completed; bs_Error := err |}.

(** ** The source database (db.go's [DB] interface) *)
Record DB (W : Type) := {
  db_EmitWatermark : watermarkPayload -> ST W (option error);
  db_PrimaryKey : string -> string -> ST W (res (list string));
  db_SelectChunk : string -> string -> list string -> list string -> nat -> ST W (res Chunk);
  db_PublicationTables : string -> ST W (res (list (string * string)));
  db_EnsureStateTable : ST W (option error);
  db_LoadState : ST W (res (gmap string TableState));
  db_LoadTableState : string -> ST W (res (option TableState));
  db_SaveState : string -> TableState -> ST W (option error);
  db_MarkPending : list string -> ST W (option error);
}.
Arguments db_EmitWatermark {W}. Arguments db_PrimaryKey {W}. Arguments db_SelectChunk {W}.
Arguments db_PublicationTables {W}. Arguments db_EnsureStateTable {W}. Arguments db_LoadState {W}.
Arguments db_LoadTableState {W}. Arguments db_SaveState {W}. Arguments db_MarkPending {W}.

Section coordinator.
Context {W : Type} `{!World W}.
Context (db : DB W) (cfg : BackfillConfig).
(** The instance tag of this process and the payload decoder. *)
Context (instance : string) (Unmarshal : string -> option watermarkPayload).

Definition isExcluded (ref : tableRef) : bool :=
  bool_decide (ref_String ref ∈ bf_ExcludedTables cfg) || bool_decide (tr_Table ref ∈ bf_ExcludedTables cfg).

Definition wanted (ref : tableRef) : bool :=
  match bf_Wanted cfg with None => true | Some f => f (tr_Schema ref) (tr_Table ref) end.

(** A send on [wake] that is dropped when the channel is full. *)
Definition signal (c : Coordinator) : Coordinator :=
  set_wakes (if decide (Z.of_nat (wakes c) < bf_Lanes cfg)%Z then S (wakes c) else wakes c) c.

Definition enqueueLocked (ref : tableRef) (c : Coordinator) : Coordinator :=
  let c1 := set_bq (bq c ++ [ref]) c in
  let keep := match status c1 !! ref_String ref with
              | Some s => bool_decide (bs_State s = BackfillRunning)
              | None => false
              end in
  signal (if keep then c1
          else set_status (<[ref_String ref := empty_status ref BackfillPending]> (status c1)) c1).

(** [pop]: take the head of the queue and mark it running. *)
Definition pop (c : Coordinator) : option tableRef * Coordinator :=
  match bq c with
  | [] => (None, c)
  | ref :: rest => (Some ref, set_running ({[ref]} ∪ running c) (set_bq rest c))
  end.

(** What [lane] does once a table's backfill returned. *)
Definition lane_finish (ref : tableRef) (err : option error) (ctx_done : bool) (c : Coordinator)
    : Coordinator :=
  let c1 := set_running (running c ∖ {[ref]}) c in
  match err with
  | None => c1
  | Some e =>
      if ctx_done then c1
      else setStatus ref (fun s => upd_status BackfillFailed (bs_RowsCopied s) (bs_StartedAt s)
                                     (bs_CompletedAt s) (Error e) s) c1
  end.

(** *** The manager surface *)

(** The second critical section of [EnqueueTable]. *)
Definition requeue (ref : tableRef) (c : Coordinator) : option error * Coordinator :=
  if busy_table ref c then
    (Some (EMsg ("backfill for " +:+ ref_String ref +:+ " is already running or queued")%string), c)
  else (None, enqueueLocked ref (set_state (delete (ref_String ref) (state c)) c)).

Definition EnqueueTable (schema table : string) : ST (Coordinator * W) (option error) :=
  let ref := {| tr_Schema := schema; tr_Table := table |} in
  if isExcluded ref then
    ret (Some (EMsg ("table " +:+ ref_String ref +:+ " is excluded from CDC")%string))
  else if negb (wanted ref) then
    ret (Some (EMsg ("no sink consumes rows of " +:+ ref_String ref +:+ ", nothing to backfill")%string))
  else
    let! w := get in
    if busy_table ref w.1 then
      ret (Some (EMsg ("backfill for " +:+ ref_String ref +:+ " is already running or queued")%string))
    else
      seq! inner (db_MarkPending db [ref_String ref]) in
      own (requeue ref).

Definition to_ref (t : string * string) : tableRef := {| tr_Schema := t.1; tr_Table := t.2 |}.

(** The tables a replay considers. *)
Definition replay_candidates (tables : list (string * string)) (c : Coordinator) : list tableRef :=
  filter (fun ref => isExcluded ref = false /\ wanted ref = true /\ busy_table ref c = false)
    (map to_ref tables).

(** The last loop of [ReplayAll]: queue those still idle, dropping their progress. *)
Fixpoint replay_loop (refs : list tableRef) (c : Coordinator) : Z * Coordinator :=
  match refs with
  | [] => (0%Z, c)
  | ref :: rest =>
      if busy_table ref c then replay_loop rest c
      else
        let '(n, c') := replay_loop rest (enqueueLocked ref (set_state (delete (ref_String ref) (state c)) c)) in
        ((1 + n)%Z, c')
  end.

Definition ReplayAll : ST (Coordinator * W) (res Z) :=
  let! tables := inner (db_PublicationTables db (bf_PublicationName cfg)) in
  match tables with
  | inr e => ret (inr e)
  | inl tables =>
      let! w := get in
      let replay := replay_candidates tables w.1 in
      seq! inner (db_MarkPending db (tableNames replay)) in
      let! queued := own (replay_loop replay) in
      ret (inl queued)
  end.

(** The tables that have not completed. *)
Definition enqueue_candidates (tables : list (string * string)) (c : Coordinator) : list tableRef :=
  filter (fun ref => isExcluded ref = false /\ wanted ref = true /\ busy_table ref c = false /\
                     match state c !! ref_String ref with Some ts => ts_Done ts | None => false end = false)
    (map to_ref tables).

Fixpoint enqueue_loop (refs : list tableRef) (c : Coordinator) : unit * Coordinator :=
  match refs with
  | [] => (tt, c)
  | ref :: rest => if busy_table ref c then enqueue_loop rest c else enqueue_loop rest (enqueueLocked ref c)
  end.

Definition EnqueueAll : ST (Coordinator * W) (option error) :=
  let! tables := inner (db_PublicationTables db (bf_PublicationName cfg)) in
  match tables with
  | inr e => ret (Some e)
  | inl tables =>
      let! w := get in
      let candidates := enqueue_candidates tables w.1 in
      seq! inner (db_MarkPending db (tableNames candidates)) in
      seq! own (enqueue_loop candidates) in
      ret None
  end.

(** [Start]'s loop over the loaded progress. *)
Definition start_entry (c : Coordinator) (entry : string * TableState) : Coordinator :=
  let '(name, ts) := entry in
  match splitTableName name with
  | None => c
  | Some ref =>
      if ts_Done ts then
        set_status (<[name := upd_status BackfillDone (ts_RowsCopied ts) None (Some (ts_UpdatedAt ts)) ""
                                (empty_status ref BackfillDone)]> (status c)) c
      else if isExcluded ref || negb (wanted ref) then c
      else
        let c1 := enqueueLocked ref c in
        match status c1 !! name with
        | Some s =>
            set_status (<[name := upd_status (bs_State s) (ts_RowsCopied ts) (bs_StartedAt s)
                                    (bs_CompletedAt s) (bs_Error s) s]> (status c1)) c1
        | None => c1 (* unreachable: [enqueueLocked] has just stored one *)
        end
  end.

Definition resume (st : gmap string TableState) (c : Coordinator) : Coordinator :=
  foldl start_entry (set_state st c) (map_to_list st).

Definition Start : ST (Coordinator * W) unit :=
  let! ensured := inner (db_EnsureStateTable db) in
  match ensured with
  | Some _ => ret tt
  | None =>
      let! loaded := inner (db_LoadState db) in
      match loaded with
      | inr _ => ret tt
      | inl st => own (modify (resume st))
      end
  end.

(** *** The controller surface *)
Definition mark_seen (key : string) (ch : chunkInFlight) : chunkInFlight :=
  {| ch_table := ch_table ch; ch_id := ch_id ch; ch_collecting := ch_collecting ch;
     ch_seen := {[key]} ∪ ch_seen ch; ch_pending := ch_pending ch; ch_pkCols := ch_pkCols ch;
     ch_rowCount := ch_rowCount ch; ch_lastCursor := ch_lastCursor ch; ch_delivered := ch_delivered ch;
     ch_done := ch_done ch; ch_restart := ch_restart ch |}.
Definition set_collecting (b : bool) (ch : chunkInFlight) : chunkInFlight :=
  {| ch_table := ch_table ch; ch_id := ch_id ch; ch_collecting := b;
     ch_seen := ch_seen ch; ch_pending := ch_pending ch; ch_pkCols := ch_pkCols ch;
     ch_rowCount := ch_rowCount ch; ch_lastCursor := ch_lastCursor ch; ch_delivered := ch_delivered ch;
     ch_done := ch_done ch; ch_restart := ch_restart ch |}.
Definition set_emitted_rows (n : nat) (ch : chunkInFlight) : chunkInFlight :=
  {| ch_table := ch_table ch; ch_id := ch_id ch; ch_collecting := false;
     ch_seen := ch_seen ch; ch_pending := []; ch_pkCols := ch_pkCols ch;
     ch_rowCount := ch_rowCount ch; ch_lastCursor := ch_lastCursor ch; ch_delivered := n;
     ch_done := ch_done ch; ch_restart := ch_restart ch |}.
Definition close_done (ch : chunkInFlight) : chunkInFlight :=
  {| ch_table := ch_table ch; ch_id := ch_id ch; ch_collecting := ch_collecting ch;
     ch_seen := ch_seen ch; ch_pending := ch_pending ch; ch_pkCols := ch_pkCols ch;
     ch_rowCount := ch_rowCount ch; ch_lastCursor := ch_lastCursor ch; ch_delivered := ch_delivered ch;
     ch_done := true; ch_restart := ch_restart ch |}.
Definition set_selected (sel : Chunk) (ch : chunkInFlight) : chunkInFlight :=
  {| ch_table := ch_table ch; ch_id := ch_id ch; ch_collecting := ch_collecting ch;
     ch_seen := ch_seen ch; ch_pending := chunk_Rows sel; ch_pkCols := ch_pkCols ch;
     ch_rowCount := length (chunk_Rows sel); ch_lastCursor := chunk_LastCursor sel;
     ch_delivered := ch_delivered ch; ch_done := ch_done ch; ch_restart := ch_restart ch |}.

(** The row a live event is about: the old one for a delete. *)
Definition event_row (e : CDCEvent) : data :=
  if decide (Op e = OperationDelete) then OldData e else NewData e.

Definition on_table (e : CDCEvent) (ch : chunkInFlight) : bool :=
  bool_decide (Schema e = tr_Schema (ch_table ch)) && bool_decide (Table e = tr_Table (ch_table ch)).

(** The loop of [ObserveEvent] over the in-flight chunks, in some order: the key is
    computed once, with the first matching chunk's columns. *)
Fixpoint observe_loop (e : CDCEvent) (key : option string) (ids : list string)
    (heap : gmap string chunkInFlight) : gmap string chunkInFlight :=
  match ids with
  | [] => heap
  | id :: rest =>
      match heap !! id with
      | None => observe_loop e key rest heap
      | Some ch =>
          if negb (ch_collecting ch && on_table e ch) then observe_loop e key rest heap
          else
            let key' := match key with
                        | Some k => Some k
                        | None => match event_row e with
                                  | None => None
                                  | Some row => pkKeyFromData row (ch_pkCols ch)
                                  end
                        end in
            match key' with
            | None => heap (* nothing to match on: the code returns *)
            | Some k => observe_loop e (Some k) rest (<[id := mark_seen k ch]> heap)
            end
      end
  end.

Definition BF_ObserveEvent (e : CDCEvent) (c : Coordinator) : Coordinator :=
  set_chunks (observe_loop e None (elements (inflight c)) (chunkheap c)) (inflight c) c.

(** The event a chunk row becomes at the high watermark's position. *)
Definition read_event (lsn : string) (tm : Z) (ch : chunkInFlight) (row : Row) : CDCEvent :=
  {| ID := ("bf:" +:+ ch_id ch +:+ ":" +:+ row_Key row)%string;
     Op := OperationRead;
     Schema := tr_Schema (ch_table ch);
     Table := tr_Table (ch_table ch);
     OldData := None;
     NewData := Some (row_Values row);
     UnchangedToastColumns := [];
     Metadata := {| LSN := lsn; TransactionID := 0; Timestamp := tm |} |}.

(** The loop over the pending rows: those seen on the live stream are dropped. *)
Fixpoint emit_rows (lsn : string) (tm : Z) (ch : chunkInFlight) (rows : list Row) : list CDCEvent :=
  match rows with
  | [] => []
  | row :: rest =>
      if decide (row_Key row ∈ ch_seen ch) then emit_rows lsn tm ch rest
      else read_event lsn tm ch row :: emit_rows lsn tm ch rest
  end.

Definition BF_HandleWatermark (tm : Z) (lsn : string) (content : string) (c : Coordinator)
    : list CDCEvent * Coordinator :=
  match Unmarshal content with
  | None => ([], c)
  | Some payload =>
      if decide (wp_Slot payload <> bf_SlotName cfg) then ([], c)
      else
        let id := wp_Chunk payload in
        match (if decide (id ∈ inflight c) then chunkheap c !! id else None) with
        | None => ([], c)
        | Some ch =>
            if decide (wp_Mark payload = "low") then
              ([], set_chunks (<[id := set_collecting true ch]> (chunkheap c)) (inflight c) c)
            else if decide (wp_Mark payload = "high") then
              let events := emit_rows lsn tm ch (ch_pending ch) in
              (events, set_chunks (<[id := set_emitted_rows (length events) ch]> (chunkheap c)) (inflight c) c)
            else ([], c)
        end
  end.

Definition BF_WatermarkDelivered (content : string) (c : Coordinator) : Coordinator :=
  match Unmarshal content with
  | None => c
  | Some payload =>
      if decide (wp_Mark payload <> "high") then c
      else
        let id := wp_Chunk payload in
        match (if decide (id ∈ inflight c) then chunkheap c !! id else None) with
        | None => c
        | Some ch => set_chunks (<[id := close_done ch]> (chunkheap c)) (inflight c ∖ {[id]}) c
        end
  end.

(** [restartLocked]: forget every in-flight chunk and close the restart channel. *)
Definition restartLocked (c : Coordinator) : Coordinator :=
  set_stream (streaming c) (S (restarts c)) (set_chunks (chunkheap c) ∅ c).

Definition restart_if_inflight (c : Coordinator) : Coordinator :=
  if decide (inflight c = ∅) then c else restartLocked c.

Definition BF_OnStreamStart (c : Coordinator) : Coordinator :=
  restart_if_inflight (set_stream true (restarts c) c).
Definition BF_OnStreamStop (c : Coordinator) : Coordinator :=
  restart_if_inflight (set_stream false (restarts c) c).

(** The coordinator as the reader's controller, at a given clock reading. *)
Definition controller (LSN_String : Z -> string) (tm : Z) : Controller Coordinator :=
  {| ObserveEvent := BF_ObserveEvent;
     HandleWatermark := fun lsn content => BF_HandleWatermark tm (LSN_String lsn) content;
     WatermarkDelivered := BF_WatermarkDelivered;
     OnStreamStart := BF_OnStreamStart;
     OnStreamStop := BF_OnStreamStop |}.

(** *** Starting and abandoning chunks *)
Definition abandon (ids : list string) (c : Coordinator) : Coordinator :=
  set_chunks (chunkheap c) (inflight c ∖ list_to_set ids) c.

Definition new_chunk (ref : tableRef) (pkCols : list string) (id : string) (gen : nat) : chunkInFlight :=
  {| ch_table := ref; ch_id := id; ch_collecting := false; ch_seen := ∅; ch_pending := [];
     ch_pkCols := pkCols; ch_rowCount := 0; ch_lastCursor := []; ch_delivered := 0; ch_done := false;
     ch_restart := gen |}.

Definition chunk_id (ref : tableRef) (seq : Z) : string :=
  (instance +:+ "-" +:+ ref_String ref +:+ "-" +:+ pretty seq)%string.

(** Registering a chunk: [startChunk]'s first critical section. *)
Definition register_chunk (ref : tableRef) (pkCols : list string) (c : Coordinator)
    : string * Coordinator :=
  let seq := (chunkSeq c + 1)%Z in
  let id := chunk_id ref seq in
  (id, set_chunks (<[id := new_chunk ref pkCols id (restarts c)]> (chunkheap c)) ({[id]} ∪ inflight c)
         (set_chunkSeq seq c)).

(** Storing the selected rows: its second critical section; an empty chunk is done
    at once. *)
Definition store_selected (id : string) (sel : Chunk) (c : Coordinator) : unit * Coordinator :=
  match chunkheap c !! id with
  | None => (tt, c)
  | Some ch =>
      let ch' := set_selected sel ch in
      if decide (length (chunk_Rows sel) = 0)
      then (tt, set_chunks (<[id := close_done ch']> (chunkheap c)) (inflight c ∖ {[id]}) c)
      else (tt, set_chunks (<[id := ch']> (chunkheap c)) (inflight c) c)
  end.

Definition emitWatermark (id mark : string) : ST W (option error) :=
  let! err := db_EmitWatermark db {| wp_Slot := bf_SlotName cfg; wp_Chunk := id; wp_Mark := mark |} in
  ret match err with
      | Some e => Some (EWrap ("emit " +:+ mark +:+ " watermark: ")%string e "")
      | None => None
      end.

(** A chunk in a lane's window: the fields that no one changes once [startChunk]
    returned; what others change ([delivered], [done]) is read from the heap.
    [wc_from] is the cursor the chunk was selected from. *)
Record wchunk := {
  wc_id : string;
  wc_from : list string;
  wc_rowCount : nat;
  wc_lastCursor : list string;
  wc_restart : nat;
}.

(** Where [startChunk] is between two of its critical sections and database calls:
    [waitForStream] has returned, the chunk is registered, its low watermark is
    written, its rows are stored. *)
Inductive chunk_stage :=
  | StUp
  | StRegistered (id : string) (gen : nat)
  | StLow (id : string) (gen : nat)
  | StStored (id : string) (gen rows : nat) (last : list string).
Inductive chunk_result := Goes (st : chunk_stage) | Started (w : wchunk) | Failed (e : error).

(** [startChunk] from one such point to the next; [None] is its start, which it leaves
    once [waitForStream] finds the stream up ([lane_step] has the guard).  The select and
    the critical section that stores its rows are one step: the select does not touch
    the coordinator. *)
Definition startChunk (ref : tableRef) (pkCols cursor : list string) (stage : option chunk_stage)
    : ST (Coordinator * W) chunk_result :=
  match stage with
  | None => ret (Goes StUp)
  | Some StUp =>
      let! s := get in
      let! id := own (register_chunk ref pkCols) in
      ret (Goes (StRegistered id (restarts s.1)))
  | Some (StRegistered id gen) =>
      let! low := inner (emitWatermark id "low") in
      match low with
      | Some e => seq! own (modify (abandon [id])) in ret (Failed e)
      | None => ret (Goes (StLow id gen))
      end
  | Some (StLow id gen) =>
      let! sel := inner (db_SelectChunk db (tr_Schema ref) (tr_Table ref) pkCols cursor
                           (Z.to_nat (bf_ChunkSize cfg))) in
      match sel with
      | inr e => seq! own (modify (abandon [id])) in ret (Failed e)
      | inl sel =>
          seq! own (store_selected id sel) in
          let rows := length (chunk_Rows sel) in
          if decide (rows = 0)
          then ret (Started {| wc_id := id; wc_from := cursor; wc_rowCount := rows;
                               wc_lastCursor := chunk_LastCursor sel; wc_restart := gen |})
          else ret (Goes (StStored id gen rows (chunk_LastCursor sel)))
      end
  | Some (StStored id gen rows last) =>
      let! high := inner (emitWatermark id "high") in
      match high with
      | Some e => seq! own (modify (abandon [id])) in ret (Failed e)
      | None => ret (Started {| wc_id := id; wc_from := cursor; wc_rowCount := rows;
                                wc_lastCursor := last; wc_restart := gen |})
      end
  end.

(** *** A lane's work on one table ([backfillTable])

    The loop's local variables, with how far the inner loop's [startChunk] is;
    [ln_delivered] are the chunks completed so far. *)
Record Lane := {
  ln_cursor : list string;
  ln_next : list string;
  ln_exhausted : bool;
  ln_window : list wchunk;
  ln_stage : option chunk_stage;
  ln_copied : Z;
  ln_delivered : list wchunk;
  ln_result : option (option error); (* once [backfillTable] returned *)
}.

Definition short (n : nat) : bool := bool_decide (Z.of_nat n < bf_ChunkSize cfg)%Z.

(** What precedes the loop: the primary key, and the persisted progress. *)
Definition lane_start (now : Z) (ref : tableRef)
    : ST (Coordinator * W) ((list string * Lane) + option error) :=
  let! pk := inner (db_PrimaryKey db (tr_Schema ref) (tr_Table ref)) in
  match pk with
  | inr e => ret (inr (Some e))
  | inl [] =>
      seq! own (modify (setStatus ref (fun s => upd_status BackfillSkipped (bs_RowsCopied s)
             (bs_StartedAt s) (bs_CompletedAt s) "no primary key" s))) in
      ret (inr None)
  | inl pkCols =>
      let! loaded := inner (db_LoadTableState db (ref_String ref)) in
      seq! own (modify (fun c =>
        match loaded with
        | inr _ => c
        | inl (Some ts) => set_state (<[ref_String ref := ts]> (state c)) c
        | inl None => set_state (delete (ref_String ref) (state c)) c
        end)) in
      match loaded with
      | inl (Some {| ts_Done := true; ts_RowsCopied := n; ts_UpdatedAt := t |}) =>
          seq! own (modify (setStatus ref (fun s => upd_status BackfillDone n (bs_StartedAt s) (Some t) "" s))) in
          ret (inr None)
      | _ =>
          let! w := get in
          let prev := default {| ts_Cursor := []; ts_Done := false; ts_RowsCopied := 0; ts_UpdatedAt := 0 |}
                        (state w.1 !! ref_String ref) in
          let copied := match ts_Cursor prev with [] => 0%Z | _ => ts_RowsCopied prev end in
          seq! own (modify (setStatus ref (fun s => upd_status BackfillRunning copied
                 (match bs_StartedAt s with None => Some now | t => t end) (bs_CompletedAt s) "" s))) in
          ret (inl (pkCols,
            {| ln_cursor := ts_Cursor prev; ln_next := ts_Cursor prev; ln_exhausted := false;
               ln_window := []; ln_stage := None; ln_copied := copied; ln_delivered := []; ln_result := None |}))
      end
  end.

(** Returning runs the deferred [abandon] of the window. *)
Definition lane_return (err : option error) (l : Lane) : ST (Coordinator * W) Lane :=
  seq! own (modify (abandon (map wc_id (ln_window l)))) in
  ret {| ln_cursor := ln_cursor l; ln_next := ln_next l; ln_exhausted := ln_exhausted l;
         ln_window := ln_window l; ln_stage := None; ln_copied := ln_copied l; ln_delivered := ln_delivered l;
         ln_result := Some err |}.

(** The inner loop's body, a step of it: start one more chunk. *)
Definition lane_fill (ref : tableRef) (pkCols : list string) (l : Lane) : ST (Coordinator * W) Lane :=
  let! r := startChunk ref pkCols (ln_next l) (ln_stage l) in
  match r with
  | Failed e => lane_return (Some e) l
  | Goes stage =>
      ret {| ln_cursor := ln_cursor l; ln_next := ln_next l; ln_exhausted := ln_exhausted l;
             ln_window := ln_window l; ln_stage := Some stage; ln_copied := ln_copied l;
             ln_delivered := ln_delivered l; ln_result := None |}
  | Started ch =>
      ret {| ln_cursor := ln_cursor l; ln_next := wc_lastCursor ch;
             ln_exhausted := ln_exhausted l || short (wc_rowCount ch);
             ln_window := ln_window l ++ [ch]; ln_stage := None;
             ln_copied := ln_copied l; ln_delivered := ln_delivered l; ln_result := None |}
  end.

(** The head's restart channel was closed: start over after the last delivered chunk. *)
Definition lane_restart (l : Lane) : ST (Coordinator * W) Lane :=
  seq! own (modify (abandon (map wc_id (ln_window l)))) in
  ret {| ln_cursor := ln_cursor l; ln_next := ln_cursor l; ln_exhausted := false; ln_window := [];
         ln_stage := None; ln_copied := ln_copied l; ln_delivered := ln_delivered l; ln_result := None |}.

(** The head's chunk was delivered. *)
Definition lane_done (now : Z) (ref : tableRef) (head : wchunk) (rest : list wchunk) (l : Lane)
    : ST (Coordinator * W) Lane :=
  let! w := get in
  let n := match chunkheap w.1 !! wc_id head with Some ch => ch_delivered ch | None => 0 end in
  let copied := (ln_copied l + Z.of_nat n)%Z in
  if short (wc_rowCount head) then
    let final := {| ts_Cursor := []; ts_Done := true; ts_RowsCopied := copied; ts_UpdatedAt := 0 |} in
    seq! own (modify (fun c => set_state (<[ref_String ref := final]> (state c)) c)) in
    seq! inner (db_SaveState db (ref_String ref) final) in
    seq! own (modify (setStatus ref (fun s => upd_status BackfillDone copied (bs_StartedAt s) (Some now) "" s))) in
    lane_return None
      {| ln_cursor := ln_cursor l; ln_next := ln_next l; ln_exhausted := ln_exhausted l;
         ln_window := rest; ln_stage := None; ln_copied := copied; ln_delivered := ln_delivered l ++ [head];
         ln_result := None |}
  else
    let progress := {| ts_Cursor := wc_lastCursor head; ts_Done := false; ts_RowsCopied := copied;
                       ts_UpdatedAt := 0 |} in
    seq! own (modify (fun c => set_state (<[ref_String ref := progress]> (state c)) c)) in
    seq! inner (db_SaveState db (ref_String ref) progress) in
    seq! own (modify (setStatus ref (fun s => upd_status (bs_State s) copied (bs_StartedAt s)
                                               (bs_CompletedAt s) (bs_Error s) s))) in
    ret {| ln_cursor := wc_lastCursor head; ln_next := ln_next l; ln_exhausted := ln_exhausted l;
           ln_window := rest; ln_stage := None; ln_copied := copied; ln_delivered := ln_delivered l ++ [head];
           ln_result := None |}.

(** What the lane may do next: start a chunk, the choices of its [select], and the
    context being done.  A chunk is started only once the stream is up. *)
Inductive lane_label := LnFill | LnRestart | LnDone | LnCancelled.

Definition lane_step (now : Z) (ref : tableRef) (pkCols : list string) (lab : lane_label) (l : Lane)
    (s : Coordinator * W) : option (Lane * (Coordinator * W)) :=
  if isSome (ln_result l) then None
  else if negb (ln_exhausted l) && bool_decide (length (ln_window l) < pipelineDepth) then
    match lab with
    | LnFill => if isSome (ln_stage l) || streaming s.1 then Some (lane_fill ref pkCols l s) else None
    | LnCancelled => (* while waiting for the stream *)
        if isSome (ln_stage l) then None else Some (lane_return (Some (ESentinel Canceled)) l s)
    | _ => None
    end
  else
    match lab, ln_window l with
    | LnRestart, head :: _ => if decide (wc_restart head < restarts s.1) then Some (lane_restart l s) else None
    | LnDone, head :: rest =>
        match chunkheap s.1 !! wc_id head with
        | Some ch => if ch_done ch then Some (lane_done now ref head rest l s) else None
        | None => None
        end
    | LnCancelled, _ => Some (lane_return (Some (ESentinel Canceled)) l s)
    | _, _ => None
    end.

(** ** Queueing: lemmas *)
Definition QInv (c : Coordinator) : Prop :=
  NoDup (bq c) /\ forall ref, ref ∈ bq c -> ref ∉ running c.

Lemma busy_false ref c : busy_table ref c = false <-> ~ (ref ∈ running c) /\ ~ (ref ∈ bq c).
Proof. unfold busy_table. by rewrite orb_false_iff, !bool_decide_eq_false. Qed.

Lemma enqueueLocked_bq ref c : bq (enqueueLocked ref c) = bq c ++ [ref].
Proof. unfold enqueueLocked, signal. by repeat case_match. Qed.
Lemma enqueueLocked_running ref c : running (enqueueLocked ref c) = running c.
Proof. unfold enqueueLocked, signal. by repeat case_match. Qed.

Lemma QInv_enqueue ref c : QInv c -> busy_table ref c = false -> QInv (enqueueLocked ref c).
Proof.
  intros [Hnd Hdis] [Hr Hq]%busy_false. unfold QInv. rewrite enqueueLocked_bq, enqueueLocked_running.
  split.
  - apply NoDup_app. split_and!; [done | | apply NoDup_singleton].
    intros x Hx ->%list_elem_of_singleton. done.
  - intros x [Hx| ->%list_elem_of_singleton]%elem_of_app; auto.
Qed.

Lemma QInv_state v c : QInv c -> QInv (set_state v c).
Proof. done. Qed.

Lemma busy_state v ref c : busy_table ref (set_state v c) = busy_table ref c.
Proof. done. Qed.

Lemma QInv_replay refs c : QInv c -> QInv (replay_loop refs c).2.
Proof.
  revert c. induction refs as [|ref refs IH]; intros c Hc; simpl; [exact Hc|].
  destruct (busy_table ref c) eqn:Hb; [by apply IH|].
  specialize (IH (enqueueLocked ref (set_state (delete (ref_String ref) (state c)) c))).
  destruct (replay_loop refs _) as [n c']. apply IH. by apply QInv_enqueue.
Qed.

Lemma QInv_enqueue_loop refs c : QInv c -> QInv (enqueue_loop refs c).2.
Proof.
  revert c. induction refs as [|ref refs IH]; intros c Hc; simpl; [exact Hc|].
  destruct (busy_table ref c) eqn:Hb; [by apply IH|]. apply IH. by apply QInv_enqueue.
Qed.

Lemma QInv_pop c : QInv c -> QInv (pop c).2.
Proof.
  intros [Hnd Hdis]. unfold pop. destruct (bq c) as [|ref rest] eqn:Hq; [split; simpl; rewrite Hq; [constructor | by intros ? []%not_elem_of_nil]|].
  inversion_clear Hnd as [|? ? Hnin Hnd']. split; simpl; [done|].
  intros x Hx [Hs|Hr]%elem_of_union.
  - apply elem_of_singleton in Hs as ->. done.
  - apply (Hdis x); [by right | exact Hr].
Qed.

Lemma QInv_finish ref err b c : QInv c -> QInv (lane_finish ref err b c).
Proof.
  intros [Hnd Hdis]. unfold lane_finish, QInv.
  destruct err as [e|]; [destruct b|]; simpl; (split; [done|]; intros x Hx Hin;
    apply elem_of_difference in Hin as [Hin _]; by apply (Hdis x Hx)).
Qed.

(** The critical sections that touch the queue, as the manager's callers and the
    lanes may interleave them. *)
Inductive queue_op :=
  | QRequeue (ref : tableRef) | QReplay (refs : list tableRef) | QEnqueueAll (refs : list tableRef)
  | QPop | QFinish (ref : tableRef) (err : option error) (ctx_done : bool).

Definition queue_step (c : Coordinator) (o : queue_op) : Coordinator :=
  match o with
  | QRequeue ref => (requeue ref c).2
  | QReplay refs => (replay_loop refs c).2
  | QEnqueueAll refs => (enqueue_loop refs c).2
  | QPop => (pop c).2
  | QFinish ref err b => lane_finish ref err b c
  end.

Lemma QInv_step c o : QInv c -> QInv (queue_step c o).
Proof.
  intros Hc. destruct o; simpl.
  - unfold requeue. destruct (busy_table ref c) eqn:Hb; [exact Hc|]. by apply QInv_enqueue.
  - by apply QInv_replay.
  - by apply QInv_enqueue_loop.
  - by apply QInv_pop.
  - by apply QInv_finish.
Qed.

Lemma QInv_run ops c : QInv c -> QInv (foldl queue_step c ops).
Proof. revert c. induction ops; intros c Hc; simpl; [done|]. by apply IHops, QInv_step. Qed.

(** [Start] queues each unfinished table of the saved progress once: the names are the
    keys of a map, and a table's name is its reference. *)
Lemma splitTableName_String name ref : splitTableName name = Some ref -> ref_String ref = name.
Proof.
  revert ref. induction name as [|ch name IH]; intros ref; simpl; [discriminate|].
  destruct (decide (ch = "."%char)) as [->|Hn]; [by intros [= <-]|].
  destruct (splitTableName name) as [r|]; [|discriminate]. intros [= <-].
  specialize (IH r eq_refl). unfold ref_String in *. simpl. by rewrite <- IH.
Qed.

Lemma start_entry_running c entry : running (start_entry c entry) = running c.
Proof. unfold start_entry, enqueueLocked, signal. by repeat case_match; simplify_eq. Qed.
Lemma start_entry_bq c name ts :
  bq (start_entry c (name, ts)) = bq c \/
  exists ref, ref_String ref = name /\ bq (start_entry c (name, ts)) = bq c ++ [ref].
Proof.
  unfold start_entry. destruct (splitTableName name) as [ref|] eqn:Hn; [|by left].
  destruct (ts_Done ts); [by left|]. destruct (_ || _); [by left|]. right. exists ref.
  split; [by apply splitTableName_String|]. rewrite <- enqueueLocked_bq. by destruct (status _ !! name).
Qed.

Lemma resume_loop_QInv entries c :
  NoDup entries.*1 -> running c = ∅ -> NoDup (bq c) -> (forall ref, ref ∈ bq c -> ref_String ref ∉ entries.*1) ->
  QInv (foldl start_entry c entries).
Proof.
  revert c. induction entries as [|[name ts] entries IH]; intros c Hnd Hr Hq Hfresh; cbn [foldl].
  { split; [done|]. intros ref _. rewrite Hr. apply not_elem_of_empty. }
  apply NoDup_cons in Hnd as [Hn Hnd]. apply IH; [done | by rewrite start_entry_running | |].
  - destruct (start_entry_bq c name ts) as [->|(ref & Href & ->)]; [done|].
    apply NoDup_app. split_and!; [done | | apply NoDup_singleton].
    intros x Hx ->%list_elem_of_singleton. apply (Hfresh ref Hx). rewrite Href. by left.
  - intros ref. destruct (start_entry_bq c name ts) as [->|(ref' & Href & ->)].
    + intros Hin Hin'. apply (Hfresh ref Hin). by right.
    + intros [Hin| ->%list_elem_of_singleton]%elem_of_app; [|by rewrite Href].
      intros Hin'. apply (Hfresh ref Hin). by right.
Qed.

Lemma resume_QInv tables : QInv (resume tables NewCoordinator).
Proof.
  apply resume_loop_QInv; [apply NoDup_fst_map_to_list | done | constructor | by intros ref []%not_elem_of_nil].
Qed.

(** C33: From a start that queued the unfinished tables of any saved progress, however
    the manager's callers and the lanes interleave, no table is queued twice or queued
    while it runs, so two lanes never work on one table: the table a lane takes is not
    being run by another. *)
Theorem no_table_is_backfilled_twice_at_once tables ops :
  let c := foldl queue_step (resume tables NewCoordinator) ops in
  NoDup (bq c) /\ (forall ref, ref ∈ bq c -> ref ∉ running c) /\
  (forall ref c', pop c = (Some ref, c') -> (ref ∉ running c) /\ (ref ∉ bq c')).
Proof.
  intros c. assert (Hi : QInv c) by apply QInv_run, resume_QInv.
  destruct Hi as [Hnd Hdis]. split_and!; [done..|]. intros ref c'. unfold pop.
  destruct (bq c) as [|r rest] eqn:Hq; [discriminate|]. intros [= <- <-]. simpl.
  inversion_clear Hnd. split; [apply Hdis; by left | done].
Qed.

(** ** What one chunk's window delivers *)

(** The key of a live event of a table, as the coordinator computes it. *)
Definition event_key (ref : tableRef) (pkCols : list string) (e : CDCEvent) : option string :=
  if decide (Schema e = tr_Schema ref /\ Table e = tr_Table ref) then
    match event_row e with Some row => pkKeyFromData row pkCols | None => None end
  else None.

(** Every in-flight chunk of a table was started with the same key columns. *)
Definition same_key (ref : tableRef) (pkCols : list string) (c : Coordinator) : Prop :=
  forall id ch, id ∈ inflight c -> chunkheap c !! id = Some ch -> ch_table ch = ref -> ch_pkCols ch = pkCols.

Lemma on_table_true e ch :
  on_table e ch = true <-> Schema e = tr_Schema (ch_table ch) /\ Table e = tr_Table (ch_table ch).
Proof. unfold on_table. by rewrite andb_true_iff, !bool_decide_eq_true. Qed.

Lemma ref_ext (a b : tableRef) : tr_Schema a = tr_Schema b -> tr_Table a = tr_Table b -> a = b.
Proof. destruct a, b; simpl; congruence. Qed.

Lemma observe_loop_other e key ids heap x :
  x ∉ ids -> observe_loop e key ids heap !! x = heap !! x.
Proof.
  revert key heap. induction ids as [|id ids IH]; intros key heap Hx; simpl; [done|].
  apply not_elem_of_cons in Hx as [Hne Hx].
  destruct (heap !! id) as [ch|]; [|by apply IH]. destruct (negb _); [by apply IH|].
  case_match; [|done]. rewrite IH by done. by rewrite lookup_insert_ne.
Qed.

Lemma observe_loop_idle e key ids heap x ch :
  heap !! x = Some ch -> ch_collecting ch && on_table e ch = false ->
  observe_loop e key ids heap !! x = Some ch.
Proof.
  revert key heap. induction ids as [|id ids IH]; intros key heap Hx Hc; simpl; [done|].
  destruct (heap !! id) as [ch'|] eqn:Hid; [|by apply IH].
  destruct (negb _) eqn:Hn; [by apply IH|].
  case_match; [|done]. apply IH; [|done]. rewrite lookup_insert_ne; [done|].
  intros ->. apply negb_false_iff in Hn. congruence.
Qed.

Lemma observe_loop_marks e key ids heap x ch k pk :
  heap !! x = Some ch -> ch_collecting ch = true -> on_table e ch = true -> x ∈ ids -> NoDup ids ->
  (forall id ch', id ∈ ids -> heap !! id = Some ch' -> ch_table ch' = ch_table ch -> ch_pkCols ch' = pk) -> event_key (ch_table ch) pk e = Some k ->
  (key = None \/ key = Some k) ->
  observe_loop e key ids heap !! x = Some (mark_seen k ch).
Proof.
  intros Hx Hcol Hon Hin Hnd Hsame Hk. revert key heap Hx Hin Hsame.
  pose proof (proj1 (on_table_true _ _) Hon) as Hst.
  assert (Hrow : match event_row e with Some row => pkKeyFromData row pk | None => None end = Some k).
  { unfold event_key in Hk. by rewrite decide_True in Hk. }
  induction Hnd as [|id ids Hid Hnd IH]; intros key heap Hx Hin Hsame Hkey; simpl;
    [by apply not_elem_of_nil in Hin|].
  assert (Hcomp : forall ch', heap !! id = Some ch' -> on_table e ch' = true ->
    match key with
    | Some k0 => Some k0
    | None => match event_row e with Some row => pkKeyFromData row (ch_pkCols ch') | None => None end
    end = Some k).
  { intros ch' Hch' Hon'. destruct Hkey as [->| ->]; [|done].
    rewrite (Hsame id ch' (list_elem_of_here _ _) Hch'); [exact Hrow|]. apply on_table_true in Hon' as [? ?].
    apply ref_ext; destruct Hst; congruence. }
  assert (Hrest : forall id0 ch', id0 ∈ ids -> heap !! id0 = Some ch' -> ch_table ch' = ch_table ch -> ch_pkCols ch' = pk)
    by (intros id0 ch' H0; by apply Hsame; right).
  destruct (decide (x = id)) as [->|Hne].
  - rewrite Hx, Hcol, Hon. simpl. rewrite (Hcomp ch Hx Hon), observe_loop_other by done.
    by rewrite lookup_insert_eq.
  - apply elem_of_cons in Hin as [->|Hin]; [done|].
    destruct (heap !! id) as [ch'|] eqn:Hch'; [|by apply IH].
    destruct (negb _) eqn:Hn; [by apply IH|].
    apply negb_false_iff, andb_true_iff in Hn as [_ Hon'].
    rewrite (Hcomp ch' eq_refl Hon'). apply IH; [by rewrite lookup_insert_ne | done | | by right].
    intros id0 ch0 Hi0 H0 Ht. rewrite lookup_insert_ne in H0 by (by intros ->). by apply (Hrest id0 ch0).
Qed.

Lemma observe_loop_nokey e key ids heap x ch :
  heap !! x = Some ch -> key = None ->
  (forall id ch', id ∈ ids -> heap !! id = Some ch' -> on_table e ch' = true ->
     match event_row e with Some row => pkKeyFromData row (ch_pkCols ch') | None => None end = None) ->
  observe_loop e key ids heap !! x = Some ch.
Proof.
  intros Hx -> Hnone. induction ids as [|id ids IH]; simpl; [done|].
  assert (Hrest := IH (fun id0 ch' Hi => Hnone id0 ch' (list_elem_of_further _ _ _ Hi))).
  destruct (heap !! id) as [ch'|] eqn:Hid; [|exact Hrest].
  destruct (negb _) eqn:Hn; [exact Hrest|].
  apply negb_false_iff, andb_true_iff in Hn as [_ Hon]. by rewrite (Hnone id ch' (list_elem_of_here _ _) Hid Hon).
Qed.

(** What happens while a chunk is between its watermarks: a live event, the storing
    of its selected rows, or any action that leaves the chunk alone (other tables'
    chunks, the manager, the lanes). *)
Inductive window_step :=
  | WLive (e : CDCEvent)
  | WSelect (sel : Chunk)
  | WOther (f : Coordinator -> Coordinator).

Definition leaves_alone (x : string) (ref : tableRef) (pk : list string)
    (f : Coordinator -> Coordinator) : Prop :=
  forall c, chunkheap (f c) !! x = chunkheap c !! x /\ (x ∈ inflight (f c) <-> x ∈ inflight c) /\
    (same_key ref pk c -> same_key ref pk (f c)).

(** The events the reader passes on, and the coordinator after the step. *)
Definition window_exec (x : string) (c : Coordinator) (st : window_step) : list CDCEvent * Coordinator :=
  match st with
  | WLive e => ([e], BF_ObserveEvent e c)
  | WSelect sel => ([], (store_selected x sel c).2)
  | WOther f => ([], f c)
  end.
Fixpoint window_run (x : string) (c : Coordinator) (sts : list window_step)
    : list CDCEvent * Coordinator :=
  match sts with
  | [] => ([], c)
  | st :: rest =>
      let '(out, c') := window_exec x c st in
      let '(outs, c'') := window_run x c' rest in
      ((out ++ outs)%list, c'')
  end.

Definition live_events (sts : list window_step) : list CDCEvent :=
  omap (fun st => match st with WLive e => Some e | _ => None end) sts.
Definition rows_after (rows : list Row) (sts : list window_step) : list Row :=
  foldl (fun rows st => match st with WSelect sel => chunk_Rows sel | _ => rows end) rows sts.
Definition keys_of (ref : tableRef) (pk : list string) (es : list CDCEvent) : gset string :=
  list_to_set (omap (event_key ref pk) es).

Definition step_ok (x : string) (ref : tableRef) (pk : list string) (st : window_step) : Prop :=
  match st with
  | WLive _ => True
  | WSelect sel => chunk_Rows sel <> []
  | WOther f => leaves_alone x ref pk f
  end.

Lemma observe_loop_meta e key ids heap id ch' :
  observe_loop e key ids heap !! id = Some ch' ->
  exists ch, heap !! id = Some ch /\ ch_table ch' = ch_table ch /\ ch_pkCols ch' = ch_pkCols ch.
Proof.
  revert key heap. induction ids as [|i ids IH]; intros key heap; simpl; [eauto|].
  destruct (heap !! i) as [ch|] eqn:Hi; [|apply IH]. destruct (negb _); [apply IH|].
  case_match; [|eauto]. intros H0. destruct (IH _ _ H0) as (ch0 & Hch0 & Ht & Hp).
  destruct (decide (id = i)) as [->|Hn].
  - rewrite lookup_insert_eq in Hch0. injection Hch0 as <-. simpl in *. eauto.
  - rewrite lookup_insert_ne in Hch0 by done. eauto.
Qed.

Lemma same_key_observe ref pk e c :
  same_key ref pk c -> same_key ref pk (BF_ObserveEvent e c).
Proof.
  intros Hs id ch' Hi H0 Ht. apply observe_loop_meta in H0 as (ch & Hch & Ht' & Hp).
  rewrite Hp. apply (Hs id ch Hi Hch). congruence.
Qed.

(** One live event marks its key on a collecting chunk of its table. *)
Lemma observe_seen x ref pk e c ch :
  x ∈ inflight c -> chunkheap c !! x = Some ch -> ch_table ch = ref -> ch_collecting ch = true ->
  same_key ref pk c ->
  chunkheap (BF_ObserveEvent e c) !! x =
    Some (match event_key ref pk e with Some k => mark_seen k ch | None => ch end).
Proof.
  intros Hin Hx Ht Hcol Hsame. subst ref. unfold BF_ObserveEvent. simpl.
  destruct (on_table e ch) eqn:Hon.
  - destruct (event_key (ch_table ch) pk e) as [k|] eqn:Hk.
    + eapply observe_loop_marks; eauto; [by apply elem_of_elements | apply NoDup_elements |].
      intros id ch' Hi%elem_of_elements. by apply Hsame.
    + apply observe_loop_nokey; [done..|]. intros id ch' Hi%elem_of_elements Hch' Hon'.
      apply on_table_true in Hon as [? ?]. apply on_table_true in Hon' as [? ?].
      assert (ch_table ch' = ch_table ch) as Ht' by (apply ref_ext; congruence).
      rewrite (Hsame id ch' Hi Hch' Ht'). unfold event_key in Hk. by rewrite decide_True in Hk.
  - assert (event_key (ch_table ch) pk e = None) as ->.
    { unfold event_key. rewrite decide_False; [done|]. intros Hst.
      apply on_table_true in Hst. congruence. }
    apply observe_loop_idle; [done|]. by rewrite Hon, andb_false_r.
Qed.

Record collecting_chunk (x : string) (ref : tableRef) (pk : list string) (c : Coordinator)
    (ch : chunkInFlight) : Prop := {
  cc_inflight : x ∈ inflight c;
  cc_heap : chunkheap c !! x = Some ch;
  cc_table : ch_table ch = ref;
  cc_collecting : ch_collecting ch = true;
  cc_same : same_key ref pk c;
}.

Lemma window_exec_spec x ref pk st c ch :
  step_ok x ref pk st -> collecting_chunk x ref pk c ch ->
  (window_exec x c st).1 = live_events [st] /\
  exists ch', collecting_chunk x ref pk (window_exec x c st).2 ch' /\ ch_id ch' = ch_id ch /\
    ch_seen ch' = ch_seen ch ∪ keys_of ref pk (live_events [st]) /\
    ch_pending ch' = rows_after (ch_pending ch) [st].
Proof.
  clear Unmarshal. intros Hok [Hin Hx Ht Hcol Hsame]. destruct st as [e|sel|f]; simpl.
  - split; [done|]. eexists. split; [constructor; [exact Hin | by eapply observe_seen | | | by apply same_key_observe]|];
      unfold keys_of; simpl; destruct (event_key ref pk e); simpl; try done;
      (split_and!; [done | set_solver | done]).
  - split; [done|]. unfold store_selected. rewrite Hx. simpl in Hok.
    rewrite decide_False by (by destruct (chunk_Rows sel)). simpl.
    eexists. split; [constructor; [exact Hin | by apply lookup_insert_eq | done | done |]|].
    + intros id0 ch0 Hi0 H0 Ht0. simpl in Hi0, H0. destruct (decide (id0 = x)) as [->|Hn0].
      * rewrite lookup_insert_eq in H0. injection H0 as <-. simpl in *. by apply (Hsame x ch).
      * rewrite lookup_insert_ne in H0 by done. by apply (Hsame id0 ch0).
    + unfold keys_of. simpl. split_and!; [done | set_solver | done].
  - split; [done|]. destruct (Hok c) as (Hh & Hi & Hs). exists ch. split.
    + constructor; [by apply Hi | by rewrite Hh | done | done | by apply Hs].
    + unfold keys_of. simpl. split_and!; [done | set_solver | done].
Qed.

Lemma live_events_cons st sts : live_events (st :: sts) = live_events [st] ++ live_events sts.
Proof. by destruct st. Qed.
Lemma keys_of_app ref pk a b : keys_of ref pk (a ++ b) = keys_of ref pk a ∪ keys_of ref pk b.
Proof. unfold keys_of. by rewrite omap_app, list_to_set_app_L. Qed.

Lemma window_run_spec x ref pk sts c ch :
  Forall (step_ok x ref pk) sts -> collecting_chunk x ref pk c ch ->
  (window_run x c sts).1 = live_events sts /\
  exists ch', collecting_chunk x ref pk (window_run x c sts).2 ch' /\ ch_id ch' = ch_id ch /\
    ch_seen ch' = ch_seen ch ∪ keys_of ref pk (live_events sts) /\
    ch_pending ch' = rows_after (ch_pending ch) sts.
Proof.
  clear Unmarshal. intros Hok. revert c ch. induction Hok as [|st sts Hst Hok IH]; intros c ch Hc.
  - simpl. split; [done|]. exists ch. unfold keys_of. simpl. split_and!; [done | done | set_solver | done].
  - destruct (window_exec_spec _ _ _ _ _ _ Hst Hc) as (Hout & ch1 & Hc1 & Hid1 & Hs1 & Hp1).
    rewrite live_events_cons. simpl. destruct (window_exec x c st) as [out c1]. simpl in *.
    destruct (IH _ _ Hc1) as (Hout' & ch' & Hc' & Hid' & Hs' & Hp').
    destruct (window_run x c1 sts) as [outs c2]. simpl in *. split; [congruence|].
    exists ch'. split_and!; [done | congruence | | by rewrite Hp', Hp1].
    rewrite Hs', Hs1, keys_of_app. set_solver.
Qed.

Lemma emit_rows_filter lsn tm ch rows :
  emit_rows lsn tm ch rows = map (read_event lsn tm ch) (filter (fun r => row_Key r ∉ ch_seen ch) rows).
Proof.
  induction rows as [|r rows IH]; [done|]. simpl. rewrite filter_cons, IH.
  destruct (decide (row_Key r ∈ ch_seen ch)) as [Hr|Hr].
  - by rewrite decide_False by (intros Hn; exact (Hn Hr)).
  - by rewrite decide_True by done.
Qed.

(** The payloads of a chunk's two watermarks. *)
Definition low_mark (x : string) : watermarkPayload :=
  {| wp_Slot := bf_SlotName cfg; wp_Chunk := x; wp_Mark := "low" |}.
Definition high_mark (x : string) : watermarkPayload :=
  {| wp_Slot := bf_SlotName cfg; wp_Chunk := x; wp_Mark := "high" |}.

(** The specification of a window: the live events, then the selected rows no live
    event touched. *)
Definition window_output (lsn : string) (tm : Z) (ch : chunkInFlight) (pk : list string)
    (rows : list Row) (lives : list CDCEvent) : list CDCEvent :=
  lives ++ map (read_event lsn tm ch)
             (filter (fun r => row_Key r ∉ keys_of (ch_table ch) pk lives) rows).

Lemma read_event_ext lsn tm ch ch' r :
  ch_id ch = ch_id ch' -> ch_table ch = ch_table ch' -> read_event lsn tm ch r = read_event lsn tm ch' r.
Proof. unfold read_event. by intros -> ->. Qed.

(** C6: From a chunk's low watermark to its high one, whatever live events, other
    chunks and other operations interleave, the reader passes on exactly the live
    events in order followed by the chunk's selected rows less those whose key a live
    event of the table touched since the low watermark. *)
Theorem window_refines_its_specification x pk sts c ch lsn tm low high :
  Unmarshal low = Some (low_mark x) -> Unmarshal high = Some (high_mark x) ->
  x ∈ inflight c -> chunkheap c !! x = Some ch -> ch_seen ch = ∅ ->
  same_key (ch_table ch) pk c -> Forall (step_ok x (ch_table ch) pk) sts ->
  let '(o1, c1) := BF_HandleWatermark tm lsn low c in
  let '(o2, c2) := window_run x c1 sts in
  let '(o3, c3) := BF_HandleWatermark tm lsn high c2 in
  o1 ++ o2 ++ o3 = window_output lsn tm ch pk (rows_after (ch_pending ch) sts) (live_events sts).
Proof.
  intros Hl Hh Hin Hx Hseen Hsame Hok. unfold BF_HandleWatermark at 1. rewrite Hl.
  rewrite decide_False by (simpl; tauto). simpl. rewrite decide_True by done. rewrite Hx. simpl.
  assert (Hc : collecting_chunk x (ch_table ch) pk
    (set_chunks (<[x := set_collecting true ch]> (chunkheap c)) (inflight c) c) (set_collecting true ch)).
  { constructor; simpl; [done | apply lookup_insert_eq | done | done |].
    intros id0 ch0 Hi0 H0 Ht0. simpl in Hi0, H0. destruct (decide (id0 = x)) as [->|Hn0].
    - rewrite lookup_insert_eq in H0. injection H0 as <-. by apply (Hsame x ch).
    - rewrite lookup_insert_ne in H0 by done. by apply (Hsame id0 ch0). }
  destruct (window_run_spec _ _ _ _ _ _ Hok Hc) as (Hout & ch' & Hc' & Hid & Hs & Hp).
  destruct (window_run x _ sts) as [o2 c2]. simpl in *. destruct Hc' as [Hin' Hx' Ht' _ _].
  unfold BF_HandleWatermark. rewrite Hh. rewrite decide_False by (simpl; tauto). simpl.
  rewrite decide_True by done. rewrite Hx'. simpl.
  rewrite emit_rows_filter, Hout, Hp, Hs, Hseen. unfold window_output. f_equal.
  rewrite (left_id_L ∅ (∪)). apply map_ext. intros r. by apply read_event_ext.
Qed.

(** ** A lane's progress *)

(** Chunks that follow one another: each is selected from where the previous ended. *)
Fixpoint chain (from : list string) (ws : list wchunk) (to : list string) : Prop :=
  match ws with
  | [] => from = to
  | w :: ws' => wc_from w = from /\ chain (wc_lastCursor w) ws' to
  end.

Definition full (w : wchunk) : Prop := short (wc_rowCount w) = false.

Record LaneInv (start : list string) (l : Lane) : Prop := {
  li_window : chain (ln_cursor l) (ln_window l) (ln_next l);
  li_more : ln_exhausted l = false -> Forall full (ln_window l);
  li_last : ln_exhausted l = true ->
    exists ws w, ln_window l = ws ++ [w] /\ Forall full ws /\ short (wc_rowCount w) = true;
  li_delivered : chain start (ln_delivered l) (ln_cursor l) /\ Forall full (ln_delivered l);
}.

(** Returned with success: the chunks delivered run from the start without a gap,
    all full but the last, which is short. *)
Definition covered (start : list string) (l : Lane) : Prop :=
  exists ws w, ln_delivered l = ws ++ [w] /\ chain start ws (wc_from w) /\ Forall full ws /\
    short (wc_rowCount w) = true.

Lemma chain_app a ws1 b ws2 c : chain a ws1 b -> chain b ws2 c -> chain a (ws1 ++ ws2) c.
Proof.
  revert a. induction ws1 as [|w ws IH]; intros a; simpl; [by intros ->|].
  intros [? ?] ?. split; [done|]. by apply IH.
Qed.

Definition lane_inv (start : list string) (l : Lane) : Prop :=
  match ln_result l with
  | None => LaneInv start l
  | Some None => covered start l
  | Some (Some _) => chain start (ln_delivered l) (ln_cursor l) /\ Forall full (ln_delivered l)
  end.

Lemma lane_return_result err l s l' s' :
  lane_return err l s = (l', s') ->
  ln_result l' = Some err /\ ln_delivered l' = ln_delivered l /\ ln_cursor l' = ln_cursor l.
Proof. unfold lane_return. destruct s. run_st. intros [= <- _]. done. Qed.

Lemma startChunk_from ref pk cursor stage s w s' :
  startChunk ref pk cursor stage s = (Started w, s') -> wc_from w = cursor.
Proof.
  unfold startChunk. destruct s as [c w0], stage as [[|id gen|id gen|id gen rows last]|]; run_st; intros H;
    repeat case_match; simplify_eq; done.
Qed.

Lemma lane_fill_inv start ref pk l s l' s' :
  LaneInv start l -> ln_exhausted l = false -> ln_result l = None -> lane_fill ref pk l s = (l', s') ->
  lane_inv start l'.
Proof.
  intros [Hw Hm Hl Hd] Hex Hr. unfold lane_fill. unfold bind at 1.
  destruct (startChunk ref pk (ln_next l) (ln_stage l) s) as [[stage|ch|e] s1] eqn:Hst.
  - intros [= <- _]. unfold lane_inv. simpl. by constructor.
  - apply startChunk_from in Hst. intros [= <- _]. unfold lane_inv. simpl. rewrite Hex. simpl.
    specialize (Hm Hex). constructor; simpl.
    + eapply chain_app; [exact Hw|]. by simpl.
    + intros Hs. apply Forall_app. split; [done|]. by constructor.
    + intros Hs. eexists _, _. split_and!; [reflexivity | done | done].
    + exact Hd.
  - intros H. destruct (lane_return_result _ _ _ _ _ H) as (Hres & Hdel & Hc).
    unfold lane_inv. by rewrite Hres, Hdel, Hc.
Qed.

Lemma lane_done_inv start tm ref head rest l s l' s' :
  LaneInv start l -> ln_window l = head :: rest -> lane_done tm ref head rest l s = (l', s') ->
  lane_inv start l' /\
  (ln_result l' = None -> exists ts, state s'.1 !! ref_String ref = Some ts /\ ts_Done ts = false /\
     ts_Cursor ts = ln_cursor l') /\
  (ln_result l' = Some None -> exists ts, state s'.1 !! ref_String ref = Some ts /\ ts_Done ts = true).
Proof.
  intros [Hw Hm Hl [Hd Hfull]] Hwin. rewrite Hwin in *. destruct Hw as [Hfrom Hw].
  unfold lane_done. destruct s as [c w]. run_st. destruct (short (wc_rowCount head)) eqn:Hs.
  - destruct (db_SaveState db _ _ w) as [r w1] eqn:Hsave. intros [= <- <-]. simpl.
    split_and!; [| discriminate | intros _; eexists; split; [apply lookup_insert_eq | done]].
    unfold lane_inv. simpl. eexists _, head. split_and!; [reflexivity | | done | done].
    by rewrite Hfrom.
  - destruct (db_SaveState db _ _ w) as [r w1] eqn:Hsave. intros [= <- <-]. simpl.
    split_and!; [| intros _; eexists; split; [apply lookup_insert_eq | done] | discriminate].
    unfold lane_inv. simpl. constructor; simpl.
    + exact Hw.
    + intros Hex. specialize (Hm Hex). by inversion_clear Hm.
    + intros Hex. destruct (Hl Hex) as (ws & w0 & Heq & Hf & Hsh).
      destruct ws as [|w1' ws]; simpl in Heq; injection Heq as -> Heq; [congruence|].
      inversion_clear Hf. eauto.
    + split; [|apply Forall_app; split; [done | by constructor]].
      eapply chain_app; [exact Hd|]. simpl. done.
Qed.

Lemma lane_step_inv start tm ref pk lab l s l' s' :
  lane_inv start l -> lane_step tm ref pk lab l s = Some (l', s') -> lane_inv start l'.
Proof.
  unfold lane_step. destruct (ln_result l) eqn:Hr; simpl; [discriminate|].
  unfold lane_inv at 1. rewrite Hr. intros Hi.
  assert (Hret : forall e, lane_return (Some e) l s = (l', s') -> lane_inv start l').
  { intros e H. destruct (lane_return_result _ _ _ _ _ H) as (Hres & Hdel & Hc).
    unfold lane_inv. rewrite Hres, Hdel, Hc. apply Hi. }
  destruct (negb (ln_exhausted l) && _) eqn:Hfill.
  - apply andb_true_iff in Hfill as [Hex%negb_true_iff _].
    destruct lab; try discriminate; destruct (isSome (ln_stage l)); simpl;
      try (destruct (streaming s.1)); try discriminate; intros [= Hgo]; try (by eapply lane_fill_inv);
      by eapply Hret.
  - destruct lab; try discriminate.
    + destruct (ln_window l) eqn:Hw; [discriminate|]. destruct (decide _); [|discriminate].
      unfold lane_restart. destruct s. run_st. intros [= <- _]. unfold lane_inv. simpl.
      constructor; simpl; [done | by constructor | discriminate | apply Hi].
    + destruct (ln_window l) as [|head rest] eqn:Hw; [discriminate|].
      destruct (chunkheap s.1 !! wc_id head) as [ch|]; [|discriminate].
      destruct (ch_done ch); [|discriminate]. intros [= H]. by eapply lane_done_inv.
    + intros [= H]. by eapply Hret.
Qed.

(** A lane's run: at each step the coordinator and the database may be in any state
    the other goroutines and other clients left them in. *)
Fixpoint lane_run (tm : Z) (ref : tableRef) (pk : list string)
    (steps : list (lane_label * (Coordinator * W))) (l : Lane) : option Lane :=
  match steps with
  | [] => Some l
  | (lab, s) :: rest =>
      match lane_step tm ref pk lab l s with
      | Some (l', _) => lane_run tm ref pk rest l'
      | None => None
      end
  end.

Lemma lane_run_inv start tm ref pk steps l l' :
  lane_inv start l -> lane_run tm ref pk steps l = Some l' -> lane_inv start l'.
Proof.
  revert l. induction steps as [|[lab s] steps IH]; intros l Hi; simpl; [by intros [= <-]|].
  destruct (lane_step _ _ _ _ _ _) as [[l1 s1]|] eqn:Hs; [|discriminate].
  apply IH. by eapply lane_step_inv.
Qed.

(** The state [backfillTable]'s loop starts in. *)
Definition fresh_lane (cursor : list string) (copied : Z) : Lane :=
  {| ln_cursor := cursor; ln_next := cursor; ln_exhausted := false; ln_window := [];
     ln_stage := None; ln_copied := copied; ln_delivered := []; ln_result := None |}.

(** C14: Whatever stream restarts, failures and pipelining a table's backfill goes
    through, the chunks it counts as delivered follow one another from the cursor it
    started at without a gap or an overlap, every one of them full; it reports
    completion only after a short chunk, the last, was delivered too; and the resume
    cursor is always the end of the last delivered chunk. *)
Theorem backfill_progress_has_no_gap tm ref pk steps cursor copied l :
  lane_run tm ref pk steps (fresh_lane cursor copied) = Some l ->
  match ln_result l with
  | Some None =>
      exists ws w, ln_delivered l = ws ++ [w] /\ chain cursor ws (wc_from w) /\
        Forall full ws /\ short (wc_rowCount w) = true
  | _ => chain cursor (ln_delivered l) (ln_cursor l) /\ Forall full (ln_delivered l)
  end.
Proof.
  intros Hrun.
  assert (Hi : lane_inv cursor (fresh_lane cursor copied)).
  { unfold lane_inv, fresh_lane. simpl. constructor; simpl; [done | by constructor | done |]. by split. }
  pose proof (lane_run_inv _ _ _ _ _ _ _ Hi Hrun) as H. unfold lane_inv in H.
  destruct (ln_result l) as [[e|]|]; [exact H | exact H | apply H].
Qed.

End coordinator.

(** ** Table names *)
(** The persisted name of a table and its reference translate into each other: a
    stored name that splits gives back the same name, and a table whose schema name
    has no dot is found again from its stored name, so its progress is resumed. *)
Theorem table_names_roundtrip :
  (forall name ref, splitTableName name = Some ref -> ref_String ref = name) /\
  (forall ref, has_char "."%char (tr_Schema ref) = false -> splitTableName (ref_String ref) = Some ref).
Proof.
  split; [exact splitTableName_String|]. intros [schema table]. unfold ref_String. simpl.
  induction schema as [|ch schema IH]; intros Hs; [done|].
  simpl in Hs. apply orb_false_iff in Hs as [Hc Hs]. simpl.
  destruct (decide (ch = "."%char)) as [->|Hn]; [done|].
  change (match splitTableName (schema +:+ "." +:+ table)%string with
          | Some r => Some {| tr_Schema := String ch (tr_Schema r); tr_Table := tr_Table r |}
          | None => None end = Some {| tr_Schema := String ch schema; tr_Table := table |}).
  by rewrite (IH Hs).
Qed.
