(* ===== verification/DBLog.v ===== *)
(** * Correctness of the watermark algorithm
      (src/internal/adapters/primary/backfill/coordinator.go and db.go)

    The chunk reader of db.go, the effect of events on a table, and the theorem the
    algorithm rests on: interleaving chunks of existing rows with the live stream
    brings a sink that starts empty to the table's current contents.  The last part
    shows, on concrete windows, the changes for which this fails. *)

From Stdlib Require Import ZArith Lia Ascii String.
From stdpp Require Import base list gmap strings pretty.
From S2P Require Import Prelude Domain SchemaChange Decoder Reader Backfill.

Open Scope go_scope.
Set Warnings "-clear-no-such-hyp".
Set Default Proof Using "Type".

(** ** Reading a chunk (db.go) *)
Record FieldDescription := { fd_Name : string; fd_DataTypeOID : Z }.

Section select.
Context (TypeForOID : Z -> option (string * (string -> res any))).
(** [pgx.Identifier.Sanitize] *)
Context (quoteIdent : string -> string).

(** The text of the chunk query and its arguments. *)
Definition chunk_query (schema table : string) (pkCols cursor : list string) (limit : nat)
    : string * list string :=
  let pkList := join ", " (map quoteIdent pkCols) in
  let base := ("SELECT * FROM " +:+ quoteIdent schema +:+ "." +:+ quoteIdent table)%string in
  let condition :=
    match cursor with
    | [] => ""
    | _ => (" WHERE (" +:+ pkList +:+ ") > ("
              +:+ join ", " (imap (fun i _ => ("$" +:+ pretty (S i))%string) cursor) +:+ ")")%string
    end in
  ((base +:+ condition +:+ " ORDER BY " +:+ pkList +:+ " LIMIT " +:+ pretty limit)%string, cursor).

(** One column of a row: NULL, the decoded value, or the raw text when decoding
    fails. *)
Definition field_value (f : FieldDescription) (raw : option string) : any :=
  match raw with
  | None => ANil
  | Some text => match DecodeText TypeForOID (fd_DataTypeOID f) text with
                 | inl v => v
                 | inr _ => AStr text
                 end
  end.

Definition row_values (fields : list FieldDescription) (raw : list (option string)) : columns :=
  foldl (fun values p => <[fd_Name p.1 := field_value p.1 p.2]> values) ∅ (zip fields raw).

(** [values[col]] of a map that lacks the key is nil. *)
Definition lookup_any (values : columns) (col : string) : any := default ANil (values !! col).

(** [colIdx]: the index of each column; a later column of the same name wins. *)
Definition colIdx (fields : list FieldDescription) : gmap string nat :=
  foldl (fun idx p => <[fd_Name p.2 := p.1]> idx) ∅ (imap pair fields).

Definition raw_text (fields : list FieldDescription) (raw : list (option string)) (col : string) : string :=
  match colIdx fields !! col with
  | Some i => match raw !! i with Some (Some t) => t | _ => "" end
  | None => ""
  end.

(** One row of the result, and the cursor it leaves. *)
Definition chunk_row (fields : list FieldDescription) (pkCols : list string)
    (raw : list (option string)) : Row * list string :=
  let values := row_values fields raw in
  ({| row_Key := join unit_sep (map (fun col => fmtV (lookup_any values col)) pkCols);
      row_Values := values |},
   map (raw_text fields raw) pkCols).

(** The loop over the rows. *)
Fixpoint read_rows (fields : list FieldDescription) (pkCols : list string)
    (raws : list (list (option string))) (acc : Chunk) : Chunk :=
  match raws with
  | [] => acc
  | raw :: rest =>
      let '(row, cursor) := chunk_row fields pkCols raw in
      read_rows fields pkCols rest
        {| chunk_Rows := chunk_Rows acc ++ [row]; chunk_LastCursor := cursor |}
  end.

(** What the query gave: its fields, its rows' raw values, and the error the iteration
    ended with. *)
Record query_result := {
  qr_fields : list FieldDescription;
  qr_rows : list (list (option string));
  qr_err : option error;
}.

(** [SelectChunk]; [query] runs the query text with its arguments. *)
Definition SelectChunk (query : string * list string -> res query_result) (schema table : string)
    (pkCols cursor : list string) (limit : nat) : res Chunk :=
  match query (chunk_query schema table pkCols cursor limit) with
  | inr e => inr (EWrap ("select chunk from " +:+ schema +:+ "." +:+ table +:+ ": ")%string e "")
  | inl q =>
      match filter (fun col => colIdx (qr_fields q) !! col = None) pkCols with
      | col :: _ =>
          inr (EMsg ("primary key column " +:+ quoted col +:+ " missing from " +:+ schema +:+ "."
                       +:+ table +:+ " select")%string)
      | [] =>
          let chunk := read_rows (qr_fields q) pkCols (qr_rows q)
                         {| chunk_Rows := []; chunk_LastCursor := [] |} in
          match qr_err q with Some e => inr e | None => inl chunk end
      end
  end.

Lemma join_foldl p ps :
  foldl (fun key p => (key +:+ unit_sep +:+ p)%string) p ps = join unit_sep (p :: ps).
Proof.
  revert p. induction ps as [|q ps IH]; intros p; [done|]. simpl foldl. rewrite IH.
  destruct ps as [|r ps]; [done|]. cbn [join]. by rewrite !string_app_assoc.
Qed.

Lemma row_values_lookup fields raw col :
  length fields <= length raw -> col ∈ map fd_Name fields -> is_Some (row_values fields raw !! col).
Proof.
  intros Hl Hin. unfold row_values.
  assert (Hz : exists r, r ∈ zip fields raw /\ fd_Name r.1 = col).
  { apply list_elem_of_fmap in Hin as (f & -> & Hf). apply list_elem_of_lookup in Hf as [i Hi].
    destruct (lookup_lt_is_Some_2 raw i) as [t Ht]; [apply lookup_lt_Some in Hi; lia|].
    exists (f, t). split; [|done]. apply list_elem_of_lookup. exists i. by rewrite lookup_zip_with, Hi, Ht. }
  destruct Hz as (r & Hr & <-). clear Hin Hl. revert Hr.
  induction (zip fields raw) as [|p l IH] using rev_ind; intros Hr; [by apply not_elem_of_nil in Hr|].
  rewrite foldl_app. simpl. destruct (decide (fd_Name p.1 = fd_Name r.1)) as [->|Hn].
  - rewrite lookup_insert_eq. eauto.
  - rewrite lookup_insert_ne by done. apply IH.
    apply elem_of_app in Hr as [Hr| ->%list_elem_of_singleton]; done.
Qed.

Lemma key_parts_some values pk :
  (forall col, col ∈ pk -> is_Some (values !! col)) ->
  key_parts values pk = Some (map (fun col => fmtV (lookup_any values col)) pk).
Proof.
  induction pk as [|col pk IH]; intros Hall; [done|]. simpl.
  destruct (Hall col ltac:(by left)) as [v Hv]. unfold lookup_any at 1. rewrite Hv. simpl.
  rewrite IH; [done|]. intros c Hc. apply Hall. by right.
Qed.

(** A backfilled row carries the very key the coordinator computes from a live
    event with the same column values, so a live change of a row is recognised as
    superseding it. *)
Theorem chunk_rows_match_live_keys fields pkCols raw :
  length fields <= length raw -> pkCols <> [] -> (forall col, col ∈ pkCols -> col ∈ map fd_Name fields) ->
  let row := (chunk_row fields pkCols raw).1 in
  pkKeyFromData (row_Values row) pkCols = Some (row_Key row).
Proof.
  intros Hl Hne Hall. simpl. unfold pkKeyFromData. rewrite key_parts_some.
  - destruct pkCols as [|col pk]; [done|]. exact (f_equal Some (join_foldl _ _)).
  - intros col Hc. apply row_values_lookup; auto.
Qed.
End select.

(** ** Tables and the effect of events *)
Abbreviation rows_by_key := (gmap string (gmap string any)).

Section table.
Context (ref : tableRef) (pk : list string).

Definition on_ref (e : CDCEvent) : bool :=
  bool_decide (Schema e = tr_Schema ref /\ Table e = tr_Table ref).

(** The row an insert, update or backfilled row leaves: its columns, with the
    unchanged TOAST columns kept from the row before. *)
Definition merged (e : CDCEvent) (row : columns) (before : option columns) : columns :=
  row ∪ filter (fun kv => kv.1 ∈ UnchangedToastColumns e) (default ∅ before).

(** The key the row had before an update. *)
Definition old_key (e : CDCEvent) : option string :=
  match OldData e with Some old => pkKeyFromData old pk | None => None end.

(** The effect of an event on the table's rows, by key: what it did to the source
    and what a sink that mirrors rows does with it. *)
Definition apply_event (e : CDCEvent) (m : rows_by_key) : rows_by_key :=
  if negb (on_ref e) then m
  else match Op e with
       | OperationTruncate => ∅
       | OperationDelete => match event_key ref pk e with Some k => delete k m | None => m end
       | OperationInsert | OperationUpdate | OperationRead =>
           match NewData e, event_key ref pk e with
           | Some row, Some k =>
               let moved := match Op e, old_key e with
                            | OperationUpdate, Some k0 => if decide (k0 = k) then m else delete k0 m
                            | _, _ => m
                            end in
               <[k := merged e row (m !! default k (old_key e))]> moved
           | _, _ => m
           end
       | OperationInvalid _ => m
       end.

Definition apply_all (es : list CDCEvent) (m : rows_by_key) : rows_by_key := foldl (fun m e => apply_event e m) m es.

(** A change that touches one key and carries the whole row: every insert, update or
    delete, but not an update of the key, a truncate, or an update that leaves TOAST
    columns out. *)
Definition plain_change (e : CDCEvent) : Prop :=
  on_ref e = true ->
  (Op e = OperationInsert \/ Op e = OperationUpdate \/ Op e = OperationDelete) /\
  (exists k, event_key ref pk e = Some k /\
     (Op e = OperationUpdate -> old_key e = None \/ old_key e = Some k)) /\
  UnchangedToastColumns e = [].

Lemma event_key_on_ref e k : event_key ref pk e = Some k -> on_ref e = true.
Proof. unfold event_key, on_ref. destruct (decide _); [by rewrite bool_decide_eq_true_2 | done]. Qed.

Lemma merged_plain e row before : UnchangedToastColumns e = [] -> merged e row before = row.
Proof.
  intros He. unfold merged. rewrite He.
  assert (filter (fun kv : string * any => kv.1 ∈ @nil string) (default ∅ before) = ∅) as ->.
  { apply map_empty. intros i. apply map_lookup_filter_None. right. intros x _ Hin. by apply not_elem_of_nil in Hin. }
  by rewrite (right_id_L ∅ (∪)).
Qed.

(** A plain change sets one key to a value that does not depend on the table. *)
Lemma apply_plain e :
  plain_change e ->
  match event_key ref pk e with
  | None => forall m, apply_event e m = m
  | Some k => exists v, forall m, apply_event e m !! k = v /\
                (forall k', k' <> k -> apply_event e m !! k' = m !! k')
  end.
Proof.
  intros Hp. unfold apply_event. destruct (event_key ref pk e) as [k|] eqn:Hk.
  - pose proof (event_key_on_ref _ _ Hk) as Hon. rewrite Hon. simpl.
    destruct (Hp Hon) as (Hop & (k' & Hk' & Hold) & Htoast). rewrite Hk in Hk'. injection Hk' as <-.
    destruct Hop as [Hop|[Hop|Hop]]; rewrite Hop.
    + unfold event_key, event_row in Hk. rewrite Hop in Hk. simpl in Hk.
      destruct (NewData e) as [row|]; [|by destruct (decide _)].
      exists (Some row). intros m. rewrite merged_plain by done. rewrite lookup_insert_eq. split; [done|].
      intros k' Hne. by rewrite lookup_insert_ne.
    + unfold event_key, event_row in Hk. rewrite Hop in Hk. simpl in Hk.
      destruct (NewData e) as [row|]; [|by destruct (decide _)].
      exists (Some row). intros m. rewrite merged_plain by done. rewrite lookup_insert_eq. split; [done|].
      intros k' Hne. rewrite lookup_insert_ne by done.
      destruct (Hold Hop) as [-> | ->]; [done|]. by rewrite decide_True.
    + exists None. intros m. rewrite lookup_delete_eq. split; [done|].
      intros k' Hne. by rewrite lookup_delete_ne.
  - intros m. destruct (on_ref e) eqn:Hon; [|done]. simpl.
    destruct (Hp Hon) as (_ & (k' & Hk' & _) & _). congruence.
Qed.

(** Plain changes: untouched keys keep their value, touched keys end with a value
    that does not depend on where the table started. *)
Lemma apply_all_untouched es m k :
  Forall plain_change es -> k ∉ keys_of ref pk es -> apply_all es m !! k = m !! k.
Proof.
  intros Hp. revert m. induction Hp as [|e es He Hp IH]; intros m Hk; [done|].
  change (e :: es) with ([e] ++ es) in Hk. rewrite keys_of_app in Hk.
  simpl. rewrite IH by set_solver. pose proof (apply_plain e He) as Ha. unfold keys_of in Hk. simpl in Hk.
  destruct (event_key ref pk e) as [k'|]; [|by rewrite Ha].
  destruct Ha as [v Hv]. apply Hv. set_solver.
Qed.

Lemma apply_all_touched es m m' k :
  Forall plain_change es -> k ∈ keys_of ref pk es -> apply_all es m !! k = apply_all es m' !! k.
Proof.
  intros Hp. revert m m'. induction es as [|e es IH] using rev_ind; intros m m' Hk; [by apply elem_of_empty in Hk|].
  apply Forall_app in Hp as [Hp He]. inversion_clear He as [|? ? He' _].
  unfold apply_all in *. rewrite !foldl_app. simpl. rewrite keys_of_app in Hk.
  pose proof (apply_plain e He') as Ha. unfold keys_of at 2 in Hk. simpl in Hk.
  destruct (event_key ref pk e) as [k'|].
  - destruct Ha as [v Hv]. destruct (decide (k = k')) as [->|Hne].
    + by rewrite (proj1 (Hv _)), (proj1 (Hv _)).
    + rewrite !(proj2 (Hv _)) by done. apply IH; [done|]. set_solver.
  - rewrite !Ha. apply IH; [done|]. set_solver.
Qed.

(** ** Convergence *)

(** One chunk as the stream sees it: the live events from its low watermark to the
    moment its rows were selected, those from there to its high watermark, the rows,
    and the range of keys the select covered. *)
Record window := {
  w_chunk : chunkInFlight;
  w_lsn : string;
  w_time : Z;
  w_before : list CDCEvent;
  w_after : list CDCEvent;
  w_rows : list Row;
  w_range : string -> Prop;
}.

Definition w_lives (w : window) : list CDCEvent := w_before w ++ w_after w.
Definition w_output (w : window) : list CDCEvent :=
  window_output (w_lsn w) (w_time w) (w_chunk w) pk (w_rows w) (w_lives w).

(** The select returned exactly the rows of its range, as the table was at that
    moment. *)
Record window_ok (db : rows_by_key) (w : window) : Prop := {
  wk_table : ch_table (w_chunk w) = ref;
  wk_plain : Forall plain_change (w_lives w);
  wk_keys : forall r, r ∈ w_rows w -> pkKeyFromData (row_Values r) pk = Some (row_Key r);
  wk_rows : forall k v, (exists r, r ∈ w_rows w /\ row_Key r = k /\ row_Values r = v) <->
    w_range w k /\ apply_all (w_before w) db !! k = Some v;
}.

Lemma apply_read lsn tm ch r m :
  ch_table ch = ref -> pkKeyFromData (row_Values r) pk = Some (row_Key r) ->
  apply_event (read_event lsn tm ch r) m = <[row_Key r := row_Values r]> m.
Proof.
  intros Ht Hk. unfold apply_event, on_ref, event_key, event_row. simpl. rewrite Ht, Hk.
  rewrite bool_decide_eq_true_2 by done. simpl. rewrite decide_True by done.
  by rewrite merged_plain.
Qed.

Lemma apply_reads lsn tm ch rows m f k :
  ch_table ch = ref -> (forall r, r ∈ rows -> pkKeyFromData (row_Values r) pk = Some (row_Key r)) ->
  (forall r, r ∈ rows -> f (row_Key r) = Some (row_Values r)) ->
  apply_all (map (read_event lsn tm ch) rows) m !! k =
    (if decide (k ∈ map row_Key rows) then f k else m !! k).
Proof.
  intros Ht Hk Hf. revert m. induction rows as [|r rows IH]; intros m; [done|].
  simpl. rewrite apply_read by (auto using list_elem_of_here).
  rewrite IH by (intros; first [apply Hk | apply Hf]; by right).
  destruct (decide (k ∈ map row_Key rows)) as [Hin|Hin].
  - by rewrite decide_True by (by right).
  - destruct (decide (row_Key r = k)) as [<-|Hne].
    + rewrite lookup_insert_eq, decide_True by (by left). symmetry. apply Hf. by left.
    + rewrite lookup_insert_ne by done. rewrite decide_False; [done|].
      intros [?|?]%elem_of_cons; congruence.
Qed.

(** Every key of the sink either mirrors the table or is still missing. *)
Definition lagging (sink db : rows_by_key) : Prop := forall k, sink !! k = db !! k \/ sink !! k = None.

Lemma window_converges sink db w k :
  window_ok db w -> lagging sink db ->
  let sink' := apply_all (w_output w) sink in
  let db' := apply_all (w_lives w) db in
  (sink' !! k = db' !! k \/ sink' !! k = None) /\
  (w_range w k \/ sink !! k = db !! k -> sink' !! k = db' !! k).
Proof.
  intros [Ht Hp Hk Hr] Hlag sink' db'.
  assert (Hb : Forall plain_change (w_before w)) by (by apply Forall_app in Hp as [? _]).
  set (kept := filter (fun r => row_Key r ∉ keys_of ref pk (w_lives w)) (w_rows w)).
  assert (Hsink : forall k, sink' !! k =
    if decide (k ∈ map row_Key kept) then apply_all (w_before w) db !! k
    else apply_all (w_lives w) sink !! k).
  { intros k0. subst sink'. unfold w_output, window_output. rewrite Ht. unfold apply_all at 1.
    rewrite foldl_app.
    apply (apply_reads (w_lsn w) (w_time w) (w_chunk w) kept _ (fun k => apply_all (w_before w) db !! k));
      [done | |]; intros r [_ Hin]%list_elem_of_filter; [by apply Hk|]. apply Hr. eauto. }
  assert (Hkept : forall k, k ∈ map row_Key kept -> k ∉ keys_of ref pk (w_lives w)).
  { intros k0 (r & -> & [Hn _]%list_elem_of_filter)%list_elem_of_fmap. exact Hn. }
  rewrite Hsink. destruct (decide (k ∈ keys_of ref pk (w_lives w))) as [Htouched|Huntouched].
  - rewrite decide_False by (intros Hin; by apply (Hkept k)).
    pose proof (apply_all_touched _ sink db k Hp Htouched) as ->. auto.
  - assert (Hdb : db' !! k = apply_all (w_before w) db !! k).
    { subst db'. rewrite apply_all_untouched by done. symmetry. apply apply_all_untouched; [done|].
      unfold w_lives in Huntouched. rewrite keys_of_app in Huntouched. set_solver. }
    destruct (decide (k ∈ map row_Key kept)) as [Hin|Hin]; [rewrite Hdb; auto|].
    rewrite (apply_all_untouched (w_lives w) sink) by done.
    assert (Hdb0 : db' !! k = db !! k) by (subst db'; by apply apply_all_untouched).
    rewrite Hdb0. split; [apply Hlag|]. intros [Hrange|Heq]; [|exact Heq].
    assert (db !! k = None) as Hnone.
    { rewrite <- Hdb0, Hdb. destruct (apply_all (w_before w) db !! k) as [v|] eqn:Hv; [exfalso|done].
      destruct (proj2 (Hr k v) (conj Hrange Hv)) as (r & Hrin & Hrk & _). apply Hin.
      apply list_elem_of_fmap. exists r. split; [done|]. apply list_elem_of_filter. by rewrite Hrk. }
    destruct (Hlag k) as [->| ->]; congruence.
Qed.

Lemma lives_lagging es sink db :
  Forall plain_change es -> lagging sink db ->
  lagging (apply_all es sink) (apply_all es db).
Proof.
  intros Hp Hlag k. destruct (decide (k ∈ keys_of ref pk es)) as [Hk|Hk].
  - left. by apply apply_all_touched.
  - rewrite !apply_all_untouched by done. apply Hlag.
Qed.

Lemma lives_agree es sink db k :
  Forall plain_change es -> sink !! k = db !! k ->
  apply_all es sink !! k = apply_all es db !! k.
Proof.
  intros Hp Heq. destruct (decide (k ∈ keys_of ref pk es)) as [Hk|Hk].
  - by apply apply_all_touched.
  - by rewrite !apply_all_untouched.
Qed.

(** A whole backfill: live events, a chunk's window, live events, the next one. *)
Fixpoint stream_output (ws : list (list CDCEvent * window)) : list CDCEvent :=
  match ws with [] => [] | (gap, w) :: rest => gap ++ w_output w ++ stream_output rest end.
Fixpoint stream_source (ws : list (list CDCEvent * window)) : list CDCEvent :=
  match ws with [] => [] | (gap, w) :: rest => gap ++ w_lives w ++ stream_source rest end.
Fixpoint stream_ok (db : rows_by_key) (ws : list (list CDCEvent * window)) : Prop :=
  match ws with
  | [] => True
  | (gap, w) :: rest =>
      Forall plain_change gap /\ window_ok (apply_all gap db) w /\
      stream_ok (apply_all (w_lives w) (apply_all gap db)) rest
  end.

Lemma apply_all_app a b m : apply_all (a ++ b) m = apply_all b (apply_all a m).
Proof. apply foldl_app. Qed.

Lemma stream_converges ws sink db k :
  stream_ok db ws -> lagging sink db ->
  ((exists g w, (g, w) ∈ ws /\ w_range w k) \/ sink !! k = db !! k) ->
  apply_all (stream_output ws) sink !! k = apply_all (stream_source ws) db !! k.
Proof.
  revert sink db. induction ws as [|[gap w] ws IH]; intros sink db Hok Hlag Hk; simpl.
  - destruct Hk as [(g & w & []%not_elem_of_nil & _)|Hk]. exact Hk.
  - destruct Hok as (Hgap & Hw & Hok). rewrite !apply_all_app.
    pose proof (lives_lagging _ _ _ Hgap Hlag) as Hlag1.
    apply IH; [exact Hok | intros k'; by apply window_converges|].
    destruct Hk as [(g & w' & Hin & Hr)|Hk].
    + apply elem_of_cons in Hin as [[= -> ->]|Hin]; [right | by left; eauto].
      apply window_converges; auto.
    + right. apply window_converges; auto. right. by apply lives_agree.
Qed.

(** C11: A backfill that runs over a table from an empty sink, chunk by chunk while
    live changes keep streaming, ends with the sink holding exactly the table's
    current rows, and keeps mirroring it afterwards: provided the selects together
    cover every key, each saw the table as of some moment between its watermarks, and
    the live changes are inserts, deletes and updates that keep the key and carry
    the whole row. *)
Theorem backfill_converges ws db tail :
  stream_ok db ws -> (forall k, exists g w, (g, w) ∈ ws /\ w_range w k) ->
  Forall plain_change tail ->
  apply_all (stream_output ws ++ tail) ∅ = apply_all (stream_source ws ++ tail) db.
Proof.
  intros Hok Hcover Htail. apply map_eq. intros k. rewrite !apply_all_app.
  apply lives_agree; [done|]. apply stream_converges; [done | intros k'; right; apply lookup_empty | by left].
Qed.

End table.

(** ** Concrete windows *)
Definition users : tableRef := {| tr_Schema := "public"; tr_Table := "users" |}.
Definition user_row (id bio : string) : columns := {[ "id" := AStr id; "bio" := AStr bio ]}.
Definition user_key (id : string) : columns := {[ "id" := AStr id ]}.
Definition row1 : Row := {| row_Key := "1"; row_Values := user_row "1" "long" |}.
Definition users_db : rows_by_key := {[ "1" := user_row "1" "long" ]}.

Definition toy_bf : BackfillConfig :=
  {| bf_SlotName := "slot"; bf_PublicationName := "pub"; bf_ChunkSize := 2; bf_ChunkDelay := 0;
     bf_Lanes := 1; bf_ExcludedTables := ∅; bf_Wanted := None |}.
Definition toy_unmarshal (content : string) : option watermarkPayload :=
  if decide (content = "low") then Some (low_mark toy_bf "c1")
  else if decide (content = "high") then Some (high_mark toy_bf "c1") else None.

(** A coordinator with one chunk of one selected row in flight. *)
Definition chunk1 : chunkInFlight :=
  set_selected {| chunk_Rows := [row1]; chunk_LastCursor := ["1"] |} (new_chunk users ["id"] "c1" 0).
Definition one_chunk : Coordinator := set_chunks {[ "c1" := chunk1 ]} {[ "c1" ]} NewCoordinator.

(** What the reader passes on for the window of that chunk around some live events. *)
Definition window_events (lives : list CDCEvent) : list CDCEvent :=
  let '(o1, c1) := BF_HandleWatermark toy_bf toy_unmarshal 0 "0/2" "low" one_chunk in
  let '(o2, c2) := window_run "c1" c1 (map WLive lives) in
  let '(o3, c3) := BF_HandleWatermark toy_bf toy_unmarshal 0 "0/2" "high" c2 in
  o1 ++ o2 ++ o3.

Definition change (op : Operation) (old new : data) (toast : list string) : CDCEvent :=
  {| ID := "0/1"; Op := op; Schema := "public"; Table := "users"; OldData := old; NewData := new;
     UnchangedToastColumns := toast; Metadata := {| LSN := "0/1"; TransactionID := 7; Timestamp := 0 |} |}.
Definition plain_update : CDCEvent := change OperationUpdate None (Some (user_row "1" "new")) [].
Definition rekey : CDCEvent :=
  change OperationUpdate (Some (user_key "1")) (Some (user_row "2" "long")) [].
Definition truncate : CDCEvent := change OperationTruncate None None [].
Definition toast_update : CDCEvent := change OperationUpdate None (Some (user_key "1")) ["bio"].

(** A live change between the watermarks that does not touch exactly one key with
    its whole row breaks the mirroring: after an update of the key or a truncate the
    sink is given the old row again although the table no longer has it, and after an
    update that leaves an unchanged TOAST column out the selected row that has it is
    dropped, so the sink never gets the column. *)
Theorem window_misses_other_changes :
  (apply_all users ["id"] (window_events [rekey]) ∅ !! "1" = Some (user_row "1" "long") /\
   apply_all users ["id"] [rekey] users_db !! "1" = None) /\
  (apply_all users ["id"] (window_events [truncate]) ∅ !! "1" = Some (user_row "1" "long") /\
   apply_all users ["id"] [truncate] users_db !! "1" = None) /\
  (apply_all users ["id"] (window_events [toast_update]) ∅ !! "1" = Some (user_key "1") /\
   apply_all users ["id"] [toast_update] users_db !! "1" = Some (user_row "1" "long")).
Proof. split_and!; vm_compute; reflexivity. Qed.

Lemma chunk_rows_match_live_keys_witness :
  pkKeyFromData (row_Values (chunk_row (fun _ => None) [{| fd_Name := "id"; fd_DataTypeOID := 25 |}] ["id"]
                               [Some "1"]).1) ["id"] = Some "1".
Proof.
  apply (chunk_rows_match_live_keys (fun _ => None) [{| fd_Name := "id"; fd_DataTypeOID := 25 |}] ["id"]
           [Some "1"]); [simpl; lia | discriminate | intros col Hc; exact Hc].
Defined.

Lemma window_refines_its_specification_witness :
  window_events [plain_update] =
    window_output "0/2" 0 chunk1 ["id"] [row1] [plain_update].
Proof.
  pose proof (window_refines_its_specification toy_bf toy_unmarshal "c1" ["id"] [WLive plain_update]
    one_chunk chunk1 "0/2" 0 "low" "high") as H.
  apply H; clear H; [reflexivity | reflexivity | reflexivity | reflexivity | reflexivity | |
    by repeat constructor].
  intros id ch _ Hid _. simpl in Hid. apply lookup_singleton_Some in Hid as [_ <-]. reflexivity.
Defined.

Definition toy_window : window :=
  {| w_chunk := chunk1; w_lsn := "0/2"; w_time := 0; w_before := []; w_after := [plain_update];
     w_rows := [row1]; w_range := fun _ => True |}.

Lemma backfill_converges_witness :
  apply_all users ["id"] (stream_output ["id"] [([], toy_window)] ++ []) ∅ =
  apply_all users ["id"] (stream_source [([], toy_window)] ++ []) users_db.
Proof.
  apply (backfill_converges users ["id"] [([], toy_window)] users_db []).
  - split_and!; [constructor | | done]. constructor; simpl.
    + reflexivity.
    + constructor; [|constructor]. intros _. split_and!; [by right; left | | reflexivity].
      exists "1". split; [reflexivity | by left].
    + by intros r ->%list_elem_of_singleton.
    + intros k v. unfold users_db. rewrite lookup_singleton_Some. split.
      * intros (r & ->%list_elem_of_singleton & <- & <-). done.
      * intros (_ & <- & <-). exists row1. split_and!; [by left | done..].
  - intros k. exists [], toy_window. split; [by left | done].
  - constructor.
Defined.

(** A database whose table has three rows. *)
Definition toy_db : DB unit :=
  {| db_EmitWatermark := fun _ => ret None;
     db_PrimaryKey := fun _ _ => ret (inl ["id"]);
     db_SelectChunk := fun _ _ _ cursor _ =>
       ret (inl (match cursor with
                 | [] => {| chunk_Rows := [row1; row1]; chunk_LastCursor := ["2"] |}
                 | _ => {| chunk_Rows := [row1]; chunk_LastCursor := ["3"] |}
                 end));
     db_PublicationTables := fun _ => ret (inl [("public", "users")]);
     db_EnsureStateTable := ret None; db_LoadState := ret (inl ∅);
     db_LoadTableState := fun _ => ret (inl None);
     db_SaveState := fun _ _ => ret None; db_MarkPending := fun _ => ret None |}.

(** The coordinator as a step left it, with the listed chunks delivered. *)
Definition delivered_to (ids : list string) : Coordinator * unit :=
  (set_chunks (foldr (fun id h => <[id := close_done (new_chunk users ["id"] id 0)]> h) ∅ ids) ∅
     NewCoordinator, tt).
Definition id1 : string := chunk_id "n" users 1.
(** A chunk is started in five steps, of which the first needs the stream. *)
Definition fill_steps : list (lane_label * (Coordinator * unit)) :=
  (LnFill, (BF_OnStreamStart NewCoordinator, tt)) :: replicate 4 (LnFill, (NewCoordinator, tt)).
Definition lane_steps : list (lane_label * (Coordinator * unit)) :=
  fill_steps ++ fill_steps ++ [(LnDone, delivered_to [id1]); (LnDone, delivered_to [id1])].

Lemma backfill_progress_has_no_gap_witness :
  exists l, lane_run toy_db toy_bf "n" 0 users ["id"] lane_steps (fresh_lane [] 0) = Some l /\
    ln_result l = Some None /\
    exists ws w, ln_delivered l = ws ++ [w] /\ chain [] ws (wc_from w) /\
      Forall (full toy_bf) ws /\ short toy_bf (wc_rowCount w) = true.
Proof.
  eexists. split; [vm_compute; reflexivity|]. split; [reflexivity|].
  exact (backfill_progress_has_no_gap toy_db toy_bf "n" 0 users ["id"] lane_steps [] 0 _
           ltac:(vm_compute; reflexivity)).
Defined.
