(* ===== verification/Lanes.v ===== *)
(** * The backfill lanes (src/internal/adapters/primary/backfill/coordinator.go)

    The goroutines that run backfills: how they take tables from the queue and are woken
    ([lane]), how a chunk waits for the stream ([waitForStream]), and that the work on one
    table ends ([backfillTable], [Backfill.lane_run]).  The lanes and the manager's callers
    interleave at the coordinator's critical sections; [lanes_step] is one of these. *)

From Stdlib Require Import ZArith Lia Ascii String.
From stdpp Require Import base list gmap strings pretty.
From S2P Require Import Prelude Domain SchemaChange Decoder Reader Backfill DBLog.

Open Scope go_scope.
Set Warnings "-clear-no-such-hyp".
Set Default Proof Using "Type".

(** ** Process instances *)
Definition hex_digit (n : nat) : ascii := default "0"%char (string_to_list "0123456789abcdef" !! n).

(** [hex.EncodeToString] *)
Fixpoint hex_bytes (bs : list ascii) : string :=
  match bs with
  | [] => EmptyString
  | b :: rest =>
      let n := nat_of_ascii b in
      String (hex_digit (n / 16)) (String (hex_digit (n mod 16)) (hex_bytes rest))
  end.

(** [newInstanceID]: [random] is what [rand.Read] filled the four bytes with, [None]
    when it failed; [base36] prints the clock. *)
Definition newInstanceID (random : option (list ascii)) (base36 : string) : string :=
  match random with Some b => hex_bytes b | None => base36 end.

Lemma hex_digit_inj a b : a < 16 -> b < 16 -> hex_digit a = hex_digit b -> a = b.
Proof.
  intros Ha Hb. do 16 (destruct a as [|a]; [do 16 (destruct b as [|b]; [done || discriminate|]); lia|]). lia.
Qed.

Lemma hex_bytes_inj a b s t :
  length a = length b -> (hex_bytes a +:+ s = hex_bytes b +:+ t)%string -> a = b.
Proof.
  revert b. induction a as [|x a IH]; intros [|y b] Hlen; try discriminate; [done|].
  cbn [hex_bytes String.append]. intros H.
  assert (hex_digit (nat_of_ascii x / 16) = hex_digit (nat_of_ascii y / 16) /\
    hex_digit (nat_of_ascii x mod 16) = hex_digit (nat_of_ascii y mod 16) /\
    (hex_bytes a +:+ s = hex_bytes b +:+ t)%string) as (H1 & H2 & H3) by (by injection H). clear H.
  pose proof (nat_ascii_bounded x). pose proof (nat_ascii_bounded y).
  apply hex_digit_inj in H1; [|apply Nat.Div0.div_lt_upper_bound; lia..].
  apply hex_digit_inj in H2; [|apply Nat.mod_upper_bound; lia..].
  f_equal; [|apply IH; [by injection Hlen | exact H3]].
  rewrite <- (ascii_nat_embedding x), <- (ascii_nat_embedding y). f_equal.
  rewrite (Nat.div_mod_eq (nat_of_ascii x) 16), (Nat.div_mod_eq (nat_of_ascii y) 16). by rewrite H1, H2.
Qed.

(** Two processes on one slot that drew different random bytes never use the same
    chunk identifier, so neither takes the other's watermarks for its own. *)
Lemma instances_never_share_chunks a b r1 s1 r2 s2 base :
  length a = 4 -> length b = 4 -> a <> b ->
  chunk_id (newInstanceID (Some a) base) r1 s1 <> chunk_id (newInstanceID (Some b) base) r2 s2.
Proof.
  intros Ha Hb Hne H. apply Hne. unfold chunk_id in H. eapply hex_bytes_inj; [by rewrite Ha | exact H].
Qed.

(** ** Waiting for the stream *)

(** [waitForStream] over its iterations: the coordinator as each finds it, and the
    context's error when it is done before the stream comes up; [None] while it waits. *)
Fixpoint waitForStream (obs : list (Coordinator * option error)) : option (option error) :=
  match obs with
  | [] => None
  | (c, ctx) :: rest =>
      if streaming c then Some None
      else match ctx with Some e => Some (Some e) | None => waitForStream rest end
  end.

(** ** The lanes and the queue *)

(** Where a lane is: about to take a table, waiting for a signal or the context,
    running a table's backfill, or returned. *)
Inductive phase := Popping | Waiting | Working (ref : tableRef) | Exited.

Section lanes.
Context (cfg : BackfillConfig).

(** What the manager's callers do to the queue. *)
Definition enqueues (o : queue_op) : bool :=
  match o with QRequeue _ | QReplay _ | QEnqueueAll _ => true | QPop | QFinish _ _ _ => false end.

(** One critical section or channel operation of a lane, of a caller, or anything the
    others do that leaves the queue and its signals alone. *)
Inductive lanes_step : list phase * Coordinator -> list phase * Coordinator -> Prop :=
  | ls_take i ps c ref c' :
      ps !! i = Some Popping -> pop c = (Some ref, c') -> lanes_step (ps, c) (<[i := Working ref]> ps, c')
  | ls_none i ps c c' :
      ps !! i = Some Popping -> pop c = (None, c') -> lanes_step (ps, c) (<[i := Waiting]> ps, c')
  | ls_wake i ps c n :
      ps !! i = Some Waiting -> wakes c = S n -> lanes_step (ps, c) (<[i := Popping]> ps, set_wakes n c)
  | ls_cancelled i ps c :
      ps !! i = Some Waiting -> lanes_step (ps, c) (<[i := Exited]> ps, c)
  | ls_return i ps c ref err (ctx_done : bool) :
      ps !! i = Some (Working ref) ->
      lanes_step (ps, c)
        (<[i := if isSome err && ctx_done then Exited else Popping]> ps, lane_finish ref err ctx_done c)
  | ls_manage o ps c : enqueues o = true -> lanes_step (ps, c) (ps, queue_step cfg c o)
  | ls_other ps c c' :
      bq c' = bq c -> wakes c' = wakes c -> running c' = running c -> lanes_step (ps, c) (ps, c').

(** [Start] runs the configured number of lanes, on a queue filled from the saved
    progress. *)
Definition started (tables : gmap string TableState) : list phase * Coordinator :=
  (replicate (Z.to_nat (bf_Lanes cfg)) Popping,
   resume cfg tables NewCoordinator).

Definition lanes_reach : list phase * Coordinator -> list phase * Coordinator -> Prop := rtc lanes_step.

Definition active (p : phase) : Prop := match p with Popping | Working _ => True | _ => False end.

(** No signal is lost: while a table is queued, a signal is pending or a lane will
    look at the queue again (or the context was cancelled). *)
Definition Noticed (y : list phase * Coordinator) : Prop :=
  bq y.2 <> [] -> 0 < wakes y.2 \/ (exists i p, y.1 !! i = Some p /\ active p) \/ (exists i, y.1 !! i = Some Exited).

Hypothesis lanes_positive : (0 < bf_Lanes cfg)%Z.

Lemma enqueueLocked_wakes ref c : 0 < wakes (enqueueLocked cfg ref c).
Proof using lanes_positive.
  unfold enqueueLocked, signal. repeat case_match; simpl in *; repeat case_match; simpl in *; lia.
Qed.

Lemma replay_loop_wakes refs c : 0 < wakes c -> 0 < wakes (replay_loop cfg refs c).2.
Proof using lanes_positive.
  revert c. induction refs as [|ref refs IH]; intros c Hc; simpl; [done|].
  destruct (busy_table ref c); [by apply IH|].
  pose proof (IH (enqueueLocked cfg ref (set_state (delete (ref_String ref) (state c)) c)) (enqueueLocked_wakes _ _)).
  by destruct (replay_loop cfg refs _).
Qed.

Lemma enqueue_loop_wakes refs c : 0 < wakes c -> 0 < wakes (enqueue_loop cfg refs c).2.
Proof using lanes_positive.
  revert c. induction refs as [|ref refs IH]; intros c Hc; simpl; [done|].
  destruct (busy_table ref c); apply IH; [done | apply enqueueLocked_wakes].
Qed.

Lemma manage_signals c o :
  enqueues o = true -> queue_step cfg c o = c \/ 0 < wakes (queue_step cfg c o).
Proof using lanes_positive.
  destruct o as [ref|refs|refs| |]; try discriminate; intros _; simpl.
  - unfold requeue. destruct (busy_table ref c); [by left|]. right. apply enqueueLocked_wakes.
  - revert c. induction refs as [|ref refs IH]; intros c; simpl; [by left|].
    destruct (busy_table ref c); [apply IH|]. right.
    pose proof (replay_loop_wakes refs (enqueueLocked cfg ref (set_state (delete (ref_String ref) (state c)) c))
                  (enqueueLocked_wakes _ _)).
    by destruct (replay_loop cfg refs _).
  - revert c. induction refs as [|ref refs IH]; intros c; simpl; [by left|].
    destruct (busy_table ref c); [apply IH|]. right. apply enqueue_loop_wakes, enqueueLocked_wakes.
Qed.

(** A lane that is about to look at the queue, or has just exited, is enough. *)
Lemma Noticed_insert (i : nat) (p : phase) ps c :
  i < length ps -> active p \/ p = Exited -> Noticed (<[i := p]> ps, c).
Proof using Type.
  intros Hi Hp _. right. simpl. destruct Hp as [Hp| ->].
  - left. exists i, p. by rewrite list_lookup_insert_eq.
  - right. exists i. by rewrite list_lookup_insert_eq.
Qed.

Lemma lanes_step_noticed y y' : Noticed y -> lanes_step y y' -> Noticed y'.
Proof using lanes_positive.
  intros Hn Hs. destruct Hs as [i ps c ref c' Hi Hp|i ps c c' Hi Hp|i ps c n Hi Hw|i ps c Hi|i ps c ref err b Hi|o ps c Ho|ps c c' Hb Hw Hr].
  - apply Noticed_insert; [by eapply lookup_lt_Some | by left].
  - unfold pop in Hp. destruct (bq c) eqn:Hq; [|discriminate]. injection Hp as <-. intros H. simpl in H. by rewrite Hq in H.
  - apply Noticed_insert; [by eapply lookup_lt_Some | by left].
  - apply Noticed_insert; [by eapply lookup_lt_Some | by right].
  - apply Noticed_insert; [by eapply lookup_lt_Some |]. destruct (isSome err && b); [by right | by left].
  - destruct (manage_signals c o Ho) as [E|E]; [by rewrite E | intros _; by left].
  - intros H. simpl in *. rewrite Hb in H. rewrite Hw. by apply Hn.
Qed.

Lemma lanes_reach_noticed y y' : Noticed y -> lanes_reach y y' -> Noticed y'.
Proof using lanes_positive. intros Hn. induction 1; [done|]. eauto using lanes_step_noticed. Qed.

Lemma lanes_step_length y y' : lanes_step y y' -> length y'.1 = length y.1.
Proof using Type. destruct 1; simpl; by rewrite ?length_insert. Qed.

Lemma lanes_reach_length y y' : lanes_reach y y' -> length y'.1 = length y.1.
Proof using Type. induction 1 as [|? ? ? Hs _ IH]; [done|]. rewrite IH. by apply lanes_step_length. Qed.

(** A lane that looks at a queue with a table takes it. *)
Lemma popping_takes i ps c ref rest :
  ps !! i = Some Popping -> bq c = ref :: rest ->
  lanes_step (ps, c) (<[i := Working ref]> ps, (pop c).2).
Proof using Type. intros Hi Hq. apply ls_take; [done|]. unfold pop. by rewrite Hq. Qed.

(** C16: No queued table is forgotten.  However the lanes, the manager's callers and the
    streaming goroutine interleave, from any state in which a table is at the head of
    the queue and the context is not cancelled, some lane can go on to take it: one is
    about to look at the queue, or finishes the table it runs, or waits with a signal
    pending, although a signal is dropped whenever the channel is full. *)
Theorem queued_tables_are_never_forgotten tables ps c ref rest :
  lanes_reach (started tables) (ps, c) -> Exited ∉ ps -> bq c = ref :: rest ->
  exists i ps' c', lanes_reach (ps, c) (ps', c') /\ ps' !! i = Some (Working ref) /\ bq c' = rest.
Proof using lanes_positive.
  intros Hr Hex Hq.
  assert (Hlen : 0 < length ps).
  { pose proof (lanes_reach_length _ _ Hr) as Hl. simpl in Hl. rewrite length_replicate in Hl. lia. }
  assert (Hn : Noticed (ps, c)).
  { eapply lanes_reach_noticed, Hr. intros _. right. left. exists 0, Popping. simpl.
    split; [|done]. apply lookup_replicate. split; [done | lia]. }
  assert (Htake : forall i ps0 c0, ps0 !! i = Some Popping -> bq c0 = ref :: rest ->
    exists i ps' c', lanes_reach (ps0, c0) (ps', c') /\ ps' !! i = Some (Working ref) /\ bq c' = rest).
  { intros i ps0 c0 Hi Hq0. exists i, (<[i := Working ref]> ps0), (pop c0).2. split_and!.
    - by eapply rtc_once, popping_takes.
    - apply list_lookup_insert_eq. by eapply lookup_lt_Some.
    - unfold pop. by rewrite Hq0. }
  assert (Hback : forall i c0, i < length ps -> lanes_step (ps, c) (<[i := Popping]> ps, c0) -> bq c0 = bq c ->
    exists i ps' c', lanes_reach (ps, c) (ps', c') /\ ps' !! i = Some (Working ref) /\ bq c' = rest).
  { intros i c0 Hi Hs Hq0. destruct (Htake i (<[i := Popping]> ps) c0) as (j & ps' & c' & H1 & H2 & H3);
      [by apply list_lookup_insert_eq | congruence|].
    exists j, ps', c'. split_and!; [by eapply rtc_l | done..]. }
  destruct (Hn ltac:(simpl; by rewrite Hq)) as [Hw|[(i & p & Hi & Hp)|(i & Hi)]]; simpl in *.
  - destruct (ps !! 0) as [[| |r|]|] eqn:H0.
    + by eapply Htake.
    + destruct (wakes c) as [|n] eqn:Hwk; [lia|]. eapply (Hback 0); [lia | by eapply ls_wake | done].
    + eapply (Hback 0); [lia | by apply (ls_return 0 ps c r None false) | done].
    + exfalso. apply Hex. by eapply list_elem_of_lookup_2.
    + apply lookup_ge_None in H0. lia.
  - destruct p as [| |r|]; try done; [by eapply Htake|].
    eapply (Hback i); [by eapply lookup_lt_Some | by apply (ls_return i ps c r None false) | done].
  - exfalso. apply Hex. by eapply list_elem_of_lookup_2.
Qed.
End lanes.

(** ** The work on one table ends *)
Section termination.
Context {W : Type} `{!World W} (db : DB W) (cfg : BackfillConfig) (instance : string).
Context (tm : Z) (ref : tableRef) (pk : list string).
(** How many rows the table can have past a cursor. *)
Context (remaining : list string -> nat).

Abbreviation size := (Z.to_nat (bf_ChunkSize cfg)).

Hypothesis chunk_positive : (0 < bf_ChunkSize cfg)%Z.
(** Keyset pagination: a full chunk ends at its last row's key, past the rows it
    returned. *)
Hypothesis selects_advance : forall cursor w sel w',
  db_SelectChunk db (tr_Schema ref) (tr_Table ref) pk cursor size w = (inl sel, w') ->
  size <= length (chunk_Rows sel) -> remaining (chunk_LastCursor sel) + size <= remaining cursor.

(** Chunks that can still be selected, and the steps that remain: five to start a
    chunk, less those taken for the current one, and one when it is delivered. *)
Definition fills_left (l : Lane) : nat :=
  if ln_exhausted l then 0 else S (remaining (ln_next l) / size).
Definition stage_steps (st : option chunk_stage) : nat :=
  match st with
  | None => 0
  | Some StUp => 1
  | Some (StRegistered _ _) => 2
  | Some (StLow _ _) => 3
  | Some (StStored _ _ _ _) => 4
  end.
Definition potential (l : Lane) : nat :=
  match ln_result l with
  | Some _ => 0
  | None => S (6 * fills_left l + length (ln_window l)) - stage_steps (ln_stage l)
  end.

(** A full chunk past a cursor leaves a chunk's worth of rows less. *)
Definition advances (cursor : list string) (rows : nat) (last : list string) : Prop :=
  size <= rows -> remaining last + size <= remaining cursor.

(** What [startChunk] selected advances, from the step that stores it to its end. *)
Definition stage_ok (cursor : list string) (st : option chunk_stage) : Prop :=
  match st with Some (StStored _ _ rows last) => advances cursor rows last | _ => True end.

Lemma startChunk_stage cursor st s r s' :
  stage_ok cursor st -> startChunk db cfg instance ref pk cursor st s = (r, s') ->
  match r with
  | Goes st' => stage_steps (Some st') = S (stage_steps st) /\ stage_ok cursor (Some st')
  | Started w => advances cursor (wc_rowCount w) (wc_lastCursor w) /\
      (wc_rowCount w = 0 \/ stage_steps st = 4) /\ stage_steps st <= 4
  | Failed _ => True
  end.
Proof using selects_advance.
  intros Hst. unfold startChunk, emitWatermark. destruct s as [c w], st as [[|id gen|id gen|id gen rows last]|]; run_st.
  - intros [= <- _]. done.
  - destruct (db_EmitWatermark db _ w) as [[e|] w1]; intros [= <- _]; done.
  - destruct (db_SelectChunk db _ _ _ _ _ w) as [[sel|e] w1] eqn:Hsel; [|by intros [= <- _]].
    pose proof (selects_advance _ _ _ _ Hsel) as Hadv. destruct (store_selected id sel c) as [u c1]. simpl.
    destruct (decide _); intros [= <- _]; simpl; split; try done; split; [by left | lia].
  - destruct (db_EmitWatermark db _ w) as [[e|] w1]; intros [= <- _]; [done|]. simpl.
    split; [exact Hst|]. split; [by right | lia].
  - intros [= <- _]. done.
Qed.

(** Along the window's full chunks no cursor goes back; a short chunk is the last. *)
Fixpoint descends (from : nat) (ws : list wchunk) (to : nat) : Prop :=
  match ws with
  | [] => to <= from
  | w :: ws' =>
      if short cfg (wc_rowCount w) then ws' = []
      else remaining (wc_lastCursor w) <= from /\ descends (remaining (wc_lastCursor w)) ws' to
  end.

(** A chunk is being started only where the loop fills its window. *)
Definition filling (l : Lane) : bool :=
  negb (ln_exhausted l) && bool_decide (length (ln_window l) < pipelineDepth).

Record Settled (bound : nat) (l : Lane) : Prop := {
  se_cursor : remaining (ln_cursor l) <= bound;
  se_window : descends (remaining (ln_cursor l)) (ln_window l) (remaining (ln_next l));
  se_more : ln_exhausted l = false -> Forall (full cfg) (ln_window l);
  se_last : ln_exhausted l = true -> exists ws w, ln_window l = ws ++ [w] /\ short cfg (wc_rowCount w) = true;
  se_stage : stage_ok (ln_next l) (ln_stage l);
  se_idle : filling l = false -> ln_stage l = None;
}.

Lemma descends_snoc from ws to w to' :
  descends from ws to -> Forall (full cfg) ws ->
  (full cfg w -> remaining (wc_lastCursor w) <= to /\ to' <= remaining (wc_lastCursor w)) ->
  descends from (ws ++ [w]) to'.
Proof using Type.
  revert from. induction ws as [|x ws IH]; intros from; simpl.
  - intros ? _. unfold full. destruct (short cfg (wc_rowCount w)); [done | intros Hf; specialize (Hf eq_refl); lia].
  - intros H Hf. inversion_clear Hf as [|? ? Hx Hws]. rewrite Hx in *. intros Hw. destruct H. split; [done|].
    by apply IH.
Qed.

(** A chunk being started is one that could still be selected. *)
Lemma se_stage_fills bound l : Settled bound l -> stage_steps (ln_stage l) <= 6 * fills_left l.
Proof using Type.
  intros Hi. unfold fills_left. destruct (ln_exhausted l) eqn:Hex; [|destruct (ln_stage l) as [[]|]; simpl; lia].
  rewrite (se_idle _ _ Hi); [simpl; lia|]. unfold filling. by rewrite Hex.
Qed.

Lemma lane_return_potential err l (s : Coordinator * W) l' s' :
  lane_return err l s = (l', s') -> potential l' = 0 /\ isSome (ln_result l') = true.
Proof using Type.
  intros H. destruct (lane_return_result _ _ _ _ _ H) as (Hr & _ & _). unfold potential. by rewrite Hr.
Qed.

(** A step of the lane uses up potential, except where the stream was restarted. *)
Definition settles (bound : nat) (l l' : Lane) : Prop :=
  potential l' < potential l /\ (ln_result l' = None -> Settled bound l').

Lemma lane_fill_settles bound l s l' s' :
  Settled bound l -> ln_result l = None -> filling l = true ->
  lane_fill db cfg instance ref pk l s = (l', s') -> settles bound l l'.
Proof using selects_advance chunk_positive.
  intros [Hc Hw Hm _ Hst _] Hr Hfill. pose proof Hfill as [Hex%negb_true_iff _]%andb_true_iff. specialize (Hm Hex).
  unfold lane_fill. unfold bind at 1.
  destruct (startChunk db cfg instance ref pk (ln_next l) (ln_stage l) s) as [r s1] eqn:Hrun.
  pose proof (startChunk_stage _ _ _ _ _ Hst Hrun) as Hs. destruct r as [st|w|e].
  - destruct Hs as [Hn Hok]. intros [= <- _]. unfold settles, potential, fills_left. simpl ln_result.
    cbn [ln_stage ln_exhausted ln_next ln_window]. rewrite Hr, Hex, Hn. split.
    + assert (stage_steps (Some st) <= 4) by (destruct st; simpl; lia). lia.
    + intros _. constructor; simpl; [done | done | done | discriminate | done |].
      intros Hf. unfold filling in Hfill, Hf. rewrite Hex in Hfill. simpl in Hf, Hfill. by rewrite Hf in Hfill.
  - destruct Hs as (Hadv & _ & Hle). intros [= <- _]. unfold settles, potential, fills_left. simpl.
    rewrite Hr, Hex, length_app. simpl. split.
    + unfold short. case_bool_decide as Hs; [lia|]. unfold advances in Hadv.
      assert (Hd : remaining (wc_lastCursor w) / size + 1 <= remaining (ln_next l) / size).
      { rewrite <- (Nat.div_add _ 1 size) by lia. apply Nat.Div0.div_le_mono. lia. }
      lia.
    + intros _. constructor; simpl; try done.
      * apply (descends_snoc _ _ (remaining (ln_next l))); [exact Hw | done |].
        unfold full, short. rewrite bool_decide_eq_false. intros Hf. unfold advances in Hadv. lia.
      * intros Hs. apply Forall_app. split; [done | by constructor].
      * intros Hs. eexists _, _. split; [reflexivity | exact Hs].
  - intros H. destruct (lane_return_potential _ _ _ _ _ H) as [Hp Hres].
    unfold settles. rewrite Hp. unfold potential. rewrite Hr. split; [|intros Hn; by rewrite Hn in Hres].
    unfold fills_left. rewrite Hex. assert (stage_steps (ln_stage l) <= 4) by (destruct (ln_stage l) as [[]|]; simpl; lia). lia.
Qed.

Lemma lane_done_settles bound head rest l s l' s' :
  Settled bound l -> ln_result l = None -> filling l = false -> ln_window l = head :: rest ->
  lane_done db cfg tm ref head rest l s = (l', s') -> settles bound l l'.
Proof using Type.
  intros [Hc Hw Hm Hsh _ Hidle] Hr Hfill Hwin. specialize (Hidle Hfill). rewrite Hwin in Hw, Hm. simpl in Hw.
  unfold lane_done. destruct s as [c w]. run_st. destruct (short cfg (wc_rowCount head)) eqn:Hs;
    destruct (db_SaveState db _ _ w) as [r w1]; intros [= <- _]; unfold settles, potential, fills_left; simpl;
    rewrite Hr, Hwin, Hidle; simpl; (split; [destruct (ln_exhausted l); lia|]); [discriminate|].
  intros _. destruct Hw as [Hle Hw]. assert (Hmore : ln_exhausted l = true ->
    exists ws w0, rest = ws ++ [w0] /\ short cfg (wc_rowCount w0) = true).
  { intros Hex. destruct (Hsh Hex) as (ws & w0 & Heq & Hsw). rewrite Hwin in Heq.
    destruct ws as [|w' ws]; simpl in Heq; injection Heq as -> Heq; [congruence | eauto]. }
  constructor; simpl; [lia | exact Hw | | exact Hmore | done | done].
  intros Hex. specialize (Hm Hex). by inversion_clear Hm.
Qed.

(** The steps of a run between two restarts of the stream. *)
Definition is_restart (lab : lane_label) : bool := match lab with LnRestart => true | _ => false end.
Definition round (bound : nat) : nat := 6 * (bound / size) + 7.

Lemma potential_round bound l :
  remaining (ln_next l) <= bound -> ln_window l = [] -> potential l <= round bound.
Proof using chunk_positive.
  intros Hle Hw. unfold potential, round, fills_left. rewrite Hw. cbn [length].
  pose proof (Nat.Div0.div_le_mono _ _ size Hle). destruct (ln_result l), (ln_exhausted l); simpl; lia.
Qed.

Lemma lane_step_settles bound lab l s l' s' :
  Settled bound l -> lane_step db cfg instance tm ref pk lab l s = Some (l', s') ->
  if is_restart lab then potential l' <= round bound /\ Settled bound l' else settles bound l l'.
Proof using selects_advance chunk_positive.
  intros Hi. unfold lane_step. destruct (ln_result l) eqn:Hr; simpl; [discriminate|].
  assert (Hret : forall e, lane_return (Some e) l s = (l', s') -> settles bound l l').
  { intros e H. destruct (lane_return_potential _ _ _ _ _ H) as [Hp Hres].
    unfold settles. rewrite Hp. unfold potential. rewrite Hr. split; [|intros Hn; by rewrite Hn in Hres].
    pose proof (se_stage_fills _ _ Hi). lia. }
  change (negb (ln_exhausted l) && bool_decide (length (ln_window l) < pipelineDepth)) with (filling l).
  destruct (filling l) eqn:Hfill.
  - destruct lab; try discriminate; simpl; destruct (isSome (ln_stage l)); simpl;
      try (destruct (streaming s.1)); try discriminate; intros [= Hgo]; try (by eapply lane_fill_settles);
      by eapply Hret.
  - destruct lab; try discriminate; simpl.
    + destruct (ln_window l) eqn:Hw; [discriminate|]. destruct (decide _); [|discriminate].
      unfold lane_restart. destruct s. run_st. intros [= <- _]. pose proof (se_cursor _ _ Hi). split.
      * by apply potential_round.
      * constructor; simpl; [done | lia | by constructor | discriminate | done | done].
    + destruct (ln_window l) as [|head rest] eqn:Hw; [discriminate|].
      destruct (chunkheap s.1 !! wc_id head) as [ch|]; [|discriminate].
      destruct (ch_done ch); [|discriminate]. intros [= H]. by eapply lane_done_settles.
    + intros [= H]. by eapply Hret.
Qed.

Definition restarts_in (steps : list (lane_label * (Coordinator * W))) : nat :=
  length (filter (fun st => is_restart st.1 = true) steps).

Lemma lane_run_bounded bound steps l l' :
  (ln_result l = None -> Settled bound l) -> lane_run db cfg instance tm ref pk steps l = Some l' ->
  length steps <= potential l + restarts_in steps * (round bound + 1) /\
  (ln_result l' = None -> Settled bound l').
Proof using selects_advance chunk_positive.
  revert l. induction steps as [|[lab s] steps IH]; intros l Hi; simpl.
  { intros [= <-]. split; [lia | done]. }
  destruct (lane_step db cfg instance tm ref pk lab l s) as [[l1 s1]|] eqn:Hs; [|discriminate]. intros Hrun.
  assert (Hr : ln_result l = None).
  { revert Hs. unfold lane_step. by destruct (ln_result l). }
  pose proof (lane_step_settles bound _ _ _ _ _ (Hi Hr) Hs) as Hst.
  assert (Hp : length steps <= potential l1 + restarts_in steps * (round bound + 1) /\
    (ln_result l' = None -> Settled bound l')).
  { apply IH; [|done]. intros Hn. destruct (is_restart lab); [apply Hst | by apply Hst]. }
  destruct Hp as [Hp Hl]. split; [|exact Hl]. unfold restarts_in in *. rewrite filter_cons. simpl.
  destruct (is_restart lab) eqn:Hlab; [rewrite decide_True by done | rewrite decide_False by done]; simpl;
    destruct Hst; lia.
Qed.

(** C15: A table's backfill ends.  On a table whose full chunks each advance through at
    least their size of the at most [remaining cursor] rows past the cursor (so not
    one that keeps growing past it), a lane takes at most [round] steps
    between two restarts of the stream, where a round is six steps for each chunk of the
    configured size that fits, and seven more.  Until it has returned it can always go
    on: while it starts a chunk it takes the next step of that, once the stream is up
    where it waits for the stream; otherwise it waits for the chunk at the head of a
    window that is never empty (so the window's first element exists), and goes on as
    soon as that chunk is delivered or the stream restarts. *)
Theorem table_backfill_ends steps cursor copied l :
  lane_run db cfg instance tm ref pk steps (fresh_lane cursor copied) = Some l ->
  length steps <= (S (restarts_in steps)) * (round (remaining cursor) + 1) /\
  (ln_result l = None ->
     (forall s, isSome (ln_stage l) = true \/ streaming s.1 = true ->
        exists l' s', lane_step db cfg instance tm ref pk LnFill l s = Some (l', s')) \/
     exists head rest, ln_window l = head :: rest /\
       forall s, (exists ch, chunkheap s.1 !! wc_id head = Some ch /\ ch_done ch = true) \/
                 wc_restart head < restarts s.1 ->
         exists lab l' s', lane_step db cfg instance tm ref pk lab l s = Some (l', s')).
Proof using selects_advance chunk_positive.
  intros Hrun.
  assert (Hi : Settled (remaining cursor) (fresh_lane cursor copied))
    by (constructor; simpl; [lia | lia | by constructor | discriminate | done | done]).
  destruct (lane_run_bounded (remaining cursor) _ _ _ (fun _ => Hi) Hrun) as [Hle Hs]. split.
  - pose proof (potential_round (remaining cursor) (fresh_lane cursor copied) (le_n _) eq_refl). lia.
  - intros Hr. specialize (Hs Hr). unfold lane_step. rewrite Hr.
    change (negb (ln_exhausted l) && bool_decide (length (ln_window l) < pipelineDepth)) with (filling l).
    destruct (filling l) eqn:Hf.
    + left. intros s Hgo. simpl. rewrite (proj2 (orb_true_iff _ _) Hgo).
      destruct (lane_fill db cfg instance ref pk l s). eauto.
    + right. destruct (ln_window l) as [|head rest] eqn:Hw.
      * exfalso. unfold filling in Hf. rewrite Hw in Hf. destruct (ln_exhausted l) eqn:Hex; [|discriminate].
        destruct (se_last _ _ Hs Hex) as (ws & w & Heq & _). rewrite Hw in Heq. by destruct ws.
      * exists head, rest. split; [done|]. intros s. simpl. intros [(ch & Hch & Hd)|Hlt].
        -- exists LnDone. rewrite Hch, Hd. destruct (lane_done db cfg tm ref head rest l s). eauto.
        -- exists LnRestart. rewrite decide_True by done. destruct (lane_restart l s). eauto.
Qed.
End termination.

(** ** Concrete lanes *)

(** A table of three rows, selected two at a time. *)
Definition paged_db : DB unit :=
  {| db_EmitWatermark := fun _ => ret None;
     db_PrimaryKey := fun _ _ => ret (inl ["id"]);
     db_SelectChunk := fun _ _ _ cursor _ =>
       ret (inl (if decide (cursor = []) then {| chunk_Rows := [row1; row1]; chunk_LastCursor := ["2"] |}
                 else if decide (cursor = ["2"]) then {| chunk_Rows := [row1]; chunk_LastCursor := ["3"] |}
                 else {| chunk_Rows := []; chunk_LastCursor := [] |}));
     db_PublicationTables := fun _ => ret (inl [("public", "users")]);
     db_EnsureStateTable := ret None; db_LoadState := ret (inl ∅);
     db_LoadTableState := fun _ => ret (inl None);
     db_SaveState := fun _ _ => ret None; db_MarkPending := fun _ => ret None |}.
Definition rows_past (cursor : list string) : nat :=
  if decide (cursor = []) then 3 else if decide (cursor = ["2"]) then 1 else 0.

Lemma table_backfill_ends_witness :
  exists l, lane_run paged_db toy_bf "n" 0 users ["id"] lane_steps (fresh_lane [] 0) = Some l /\
    ln_result l = Some None /\
    length lane_steps <= S (restarts_in lane_steps) * (round toy_bf (rows_past []) + 1).
Proof.
  assert (Hadv : forall cursor w sel w',
    db_SelectChunk paged_db "public" "users" ["id"] cursor 2 w = (inl sel, w') ->
    2 <= length (chunk_Rows sel) -> rows_past (chunk_LastCursor sel) + 2 <= rows_past cursor).
  { intros cursor [] sel [] [= <-]. unfold rows_past.
    destruct (decide (cursor = [])); [simpl; lia|]. destruct (decide (cursor = ["2"])); simpl; lia. }
  eexists. split; [vm_compute; reflexivity|]. split; [reflexivity|].
  exact (proj1 (table_backfill_ends paged_db toy_bf "n" 0 users ["id"] rows_past eq_refl Hadv lane_steps [] 0 _
                  ltac:(vm_compute; reflexivity))).
Defined.

(** One lane waits on an empty queue; a table is queued. *)
Lemma queued_tables_are_never_forgotten_witness :
  exists i ps' c', lanes_reach toy_bf ([Waiting], queue_step toy_bf NewCoordinator (QRequeue users)) (ps', c') /\
    ps' !! i = Some (Working users) /\ bq c' = [].
Proof.
  apply (queued_tables_are_never_forgotten toy_bf eq_refl ∅ [Waiting]
           (queue_step toy_bf NewCoordinator (QRequeue users)) users []).
  - eapply rtc_l; [apply (ls_none toy_bf 0); reflexivity|].
    eapply rtc_l; [apply (ls_manage toy_bf (QRequeue users)); reflexivity|]. apply rtc_refl.
  - intros H%list_elem_of_singleton. discriminate.
  - vm_compute. reflexivity.
Defined.
