(* ===== verification/Urls.v ===== *)
(** * The database URL (NonReplicationURL of src/internal/adapters/primary/backfill/db.go,
      plainURL and replicationURL of src/internal/infrastructure/doctor/doctor.go)

    The gateway is given one DATABASE_URL, with the [replication] parameter its WAL
    session needs; the backfill, the outbox and the doctor take the parameter out to
    run ordinary SQL, and the doctor puts it in to test a replication session.  The
    query string's parser and printer of net/url are written out here; splitting a URL
    into its query and the rest, and putting it together again, is a pair of
    parameters. *)

From Stdlib Require Import ZArith Lia Ascii String.
From stdpp Require Import base list gmap strings sorting.
From S2P Require Import Prelude Domain.

Open Scope go_scope.
Set Warnings "-clear-no-such-hyp".
Set Default Proof Using "Type".

(** ** Escaping *)
Definition is_between (lo hi c : ascii) : bool :=
  (nat_of_ascii lo <=? nat_of_ascii c) && (nat_of_ascii c <=? nat_of_ascii hi).

(** The bytes [QueryEscape] leaves alone. *)
Definition unreserved (c : ascii) : bool :=
  is_between "a" "z" c || is_between "A" "Z" c || is_between "0" "9" c ||
  bool_decide (c = "-"%char) || bool_decide (c = "_"%char) || bool_decide (c = "."%char) || bool_decide (c = "~"%char).

Definition upperhex (n : nat) : ascii := default "0"%char (string_to_list "0123456789ABCDEF" !! n).
Definition unhex (c : ascii) : option nat :=
  let n := nat_of_ascii c in
  if is_between "0" "9" c then Some (n - nat_of_ascii "0")
  else if is_between "a" "f" c then Some (n - nat_of_ascii "a" + 10)
  else if is_between "A" "F" c then Some (n - nat_of_ascii "A" + 10)
  else None.

Definition escape_char (c : ascii) : string :=
  if unreserved c then String c EmptyString
  else if decide (c = " "%char) then "+"
  else let n := nat_of_ascii c in String "%" (String (upperhex (n / 16)) (String (upperhex (n mod 16)) EmptyString)).

Fixpoint QueryEscape (s : string) : string :=
  match s with EmptyString => "" | String c rest => (escape_char c +:+ QueryEscape rest)%string end.

(** An incomplete or malformed escape is an error. *)
Fixpoint QueryUnescape (s : string) : option string :=
  match s with
  | EmptyString => Some ""
  | String c rest =>
      if decide (c = "%"%char) then
        match rest with
        | String a (String b rest') =>
            x ← unhex a; y ← unhex b; String (ascii_of_nat (16 * x + y)) <$> QueryUnescape rest'
        | _ => None
        end
      else if decide (c = "+"%char) then String " " <$> QueryUnescape rest
      else String c <$> QueryUnescape rest
  end.

(** ** Splitting *)
Fixpoint has (c : ascii) (s : string) : bool :=
  match s with EmptyString => false | String a s' => bool_decide (a = c) || has c s' end.

(** [strings.Cut]: around the first [c], all and nothing without one. *)
Fixpoint cut (c : ascii) (s : string) : string * string :=
  match s with
  | EmptyString => ("", "")
  | String a s' => if decide (a = c) then ("", s') else let '(x, y) := cut c s' in (String a x, y)
  end.

(** The pieces the loop of [parseQuery] cuts off one by one. *)
Fixpoint split_on (c : ascii) (s : string) : list string :=
  match s with
  | EmptyString => [""]
  | String a s' =>
      if decide (a = c) then "" :: split_on c s'
      else match split_on c s' with p :: ps => String a p :: ps | [] => [String a EmptyString] end
  end.

Fixpoint join (c : ascii) (l : list string) : string :=
  match l with
  | [] => ""
  | [p] => p
  | p :: rest => (p +:+ String c (join c rest))%string
  end.

(** ** Query parameters *)
Abbreviation Values := (gmap string (list string)).

Definition Values_Add (k v : string) (m : Values) : Values := <[k := default [] (m !! k) ++ [v]]> m.
Definition Values_Set (k v : string) (m : Values) : Values := <[k := [v]]> m.
Definition Values_Del (k : string) (m : Values) : Values := delete k m.

(** One piece of a query: one with a semicolon or a bad escape is skipped, as
    [URL.Query] drops the error. *)
Definition parse_pair (m : Values) (piece : string) : Values :=
  if has ";" piece then m
  else if decide (piece = "") then m
  else
    let '(key, value) := cut "=" piece in
    match QueryUnescape key, QueryUnescape value with
    | Some k, Some v => Values_Add k v m
    | _, _ => m
    end.
Definition parseQuery (query : string) : Values := foldl parse_pair ∅ (split_on "&" query).

Definition key_le (a b : string) : Prop := String.leb a b = true.
#[export] Instance key_le_dec a b : Decision (key_le a b).
Proof. unfold key_le. apply _. Defined.

(** [Values.Encode]: the keys sorted, each with its values in order. *)
Definition sorted_keys (m : Values) : list string := merge_sort key_le (map fst (map_to_list m)).
Definition encode_pairs (m : Values) : list (string * string) :=
  concat (map (fun k => map (pair k) (default [] (m !! k))) (sorted_keys m)).
Definition encode_pair (p : string * string) : string := (QueryEscape p.1 +:+ "=" +:+ QueryEscape p.2)%string.
Definition Encode (m : Values) : string := join "&" (map encode_pair (encode_pairs m)).

(** ** The URLs *)
Record URL (R : Type) := { u_RawQuery : string; u_rest : R }.
Arguments u_RawQuery {R}. Arguments u_rest {R}.
Definition Query {R} (u : URL R) : Values := parseQuery (u_RawQuery u).
Definition set_RawQuery {R} (q : string) (u : URL R) : URL R := {| u_RawQuery := q; u_rest := u_rest u |}.

Section urls.
Context {R : Type} (url_Parse : string -> res (URL R)) (url_String : URL R -> string).

Definition NonReplicationURL (databaseURL : string) : string :=
  match url_Parse databaseURL with
  | inr _ => databaseURL
  | inl u => url_String (set_RawQuery (Encode (Values_Del "replication" (Query u))) u)
  end.
Definition plainURL (dbURL : string) : string :=
  match url_Parse dbURL with
  | inr _ => dbURL
  | inl u => url_String (set_RawQuery (Encode (Values_Del "replication" (Query u))) u)
  end.
Definition replicationURL (dbURL : string) : string :=
  match url_Parse dbURL with
  | inr _ => dbURL
  | inl u => url_String (set_RawQuery (Encode (Values_Set "replication" "database" (Query u))) u)
  end.
End urls.

(** ** Unescaping undoes escaping *)
Lemma unescape_escape_char c s : QueryUnescape (escape_char c +:+ s) = String c <$> QueryUnescape s.
Proof. destruct c as [[] [] [] [] [] [] [] []]; reflexivity. Qed.

Lemma unescape_escape s : QueryUnescape (QueryEscape s) = Some s.
Proof. induction s as [|c s IH]; [done|]. cbn [QueryEscape]. by rewrite unescape_escape_char, IH. Qed.

Lemma has_app c s t : has c (s +:+ t) = has c s || has c t.
Proof. induction s as [|a s IH]; [done|]. simpl. by rewrite IH, orb_assoc. Qed.

(** Nothing escaped reads as a separator. *)
Lemma escape_clean c s : c ∈ ["&"; "="; ";"]%char -> has c (QueryEscape s) = false.
Proof.
  intros Hc. induction s as [|a s IH]; [done|]. cbn [QueryEscape]. rewrite has_app, IH, orb_false_r.
  rewrite !elem_of_cons, elem_of_nil in Hc.
  destruct Hc as [->|[->|[->|[]]]]; destruct a as [[] [] [] [] [] [] [] []]; reflexivity.
Qed.

Lemma cut_clean c s t : has c s = false -> cut c (s +:+ String c t) = (s, t).
Proof.
  induction s as [|a s IH]; simpl; [by rewrite decide_True|].
  intros [Ha Hs]%orb_false_iff. rewrite decide_False by (by apply bool_decide_eq_false in Ha). by rewrite IH.
Qed.
Lemma split_clean c s : has c s = false -> split_on c s = [s].
Proof.
  induction s as [|a s IH]; simpl; [done|]. intros [Ha Hs]%orb_false_iff.
  rewrite decide_False by (by apply bool_decide_eq_false in Ha). by rewrite IH.
Qed.
Lemma split_cons c s t : has c s = false -> split_on c (s +:+ String c t) = s :: split_on c t.
Proof.
  induction s as [|a s IH]; simpl; [by rewrite decide_True|].
  intros [Ha Hs]%orb_false_iff. rewrite decide_False by (by apply bool_decide_eq_false in Ha). by rewrite IH.
Qed.
Lemma split_join c l : l <> [] -> Forall (fun p => has c p = false) l -> split_on c (join c l) = l.
Proof.
  intros Hne Hl. induction Hl as [|p l Hp Hl IH]; [done|]. destruct l as [|q l]; [by apply split_clean|].
  change (join c (p :: q :: l)) with (p +:+ String c (join c (q :: l)))%string.
  rewrite split_cons by done. f_equal. by apply IH.
Qed.

(** ** Parsing undoes encoding *)
Lemma parse_encoded m p : parse_pair m (encode_pair p) = Values_Add p.1 p.2 m.
Proof.
  destruct p as [k v]. unfold parse_pair, encode_pair. simpl fst. simpl snd.
  change ("=" +:+ QueryEscape v)%string with (String "=" (QueryEscape v)).
  assert (Heq : forall t, has ";" (QueryEscape k +:+ String "=" t)%string = has ";" t).
  { intros t. rewrite has_app, escape_clean by set_solver. done. }
  rewrite Heq, escape_clean by set_solver.
  rewrite decide_False by (by destruct (QueryEscape k)).
  rewrite (cut_clean "=" (QueryEscape k) (QueryEscape v)) by (apply escape_clean; set_solver).
  by rewrite !unescape_escape.
Qed.

Lemma parse_Encode m : parseQuery (Encode m) = foldl (fun acc p => Values_Add p.1 p.2 acc) ∅ (encode_pairs m).
Proof.
  unfold parseQuery, Encode. destruct (encode_pairs m) as [|p ps] eqn:E; [done|]. rewrite <- E.
  rewrite split_join.
  - generalize (∅ : Values). intros acc. clear E. revert acc.
    induction (encode_pairs m) as [|q l IH]; intros acc; [done|]. simpl. by rewrite parse_encoded.
  - by rewrite E.
  - apply Forall_map, Forall_true. intros q. unfold encode_pair. simpl.
    rewrite !has_app, !escape_clean by set_solver. done.
Qed.

(** The values of a key among pairs, in order. *)
Definition values_of (k : string) (ps : list (string * string)) : list string :=
  map snd (filter (fun p => p.1 = k) ps).

Lemma values_of_app k a b : values_of k (a ++ b) = values_of k a ++ values_of k b.
Proof. unfold values_of. by rewrite filter_app, map_app. Qed.
Lemma values_of_group k k' vs : values_of k (map (pair k') vs) = if decide (k' = k) then vs else [].
Proof.
  unfold values_of. induction vs as [|v vs IH]; [by destruct (decide _)|]. simpl. rewrite filter_cons. simpl.
  destruct (decide (k' = k)); simpl; by rewrite IH.
Qed.

Lemma add_all_lookup ps m k :
  foldl (fun acc p => Values_Add p.1 p.2 acc) m ps !! k =
  match values_of k ps with [] => m !! k | vs => Some (default [] (m !! k) ++ vs) end.
Proof.
  revert m. induction ps as [|[k' v] ps IH]; intros m; [done|]. simpl. rewrite IH.
  unfold values_of at 2. rewrite filter_cons. simpl. unfold Values_Add. fold (values_of k ps).
  destruct (decide (k' = k)) as [->|Hne].
  - rewrite lookup_insert_eq. simpl. fold (values_of k ps).
    destruct (values_of k ps) as [|x xs]; [done|]. by rewrite <- app_assoc.
  - rewrite lookup_insert_ne by done. done.
Qed.

Lemma sorted_keys_perm m : sorted_keys m ≡ₚ map fst (map_to_list m).
Proof. apply merge_sort_Permutation. Qed.

Lemma encode_values m k : values_of k (encode_pairs m) = default [] (m !! k).
Proof.
  unfold encode_pairs.
  assert (Hnd : NoDup (sorted_keys m)) by (rewrite sorted_keys_perm; apply NoDup_fst_map_to_list).
  assert (Hin : k ∈ sorted_keys m <-> is_Some (m !! k)).
  { rewrite sorted_keys_perm, list_elem_of_fmap. split.
    - intros ([k' v] & -> & H%elem_of_map_to_list). by exists v.
    - intros [v H]. exists (k, v). by rewrite elem_of_map_to_list. }
  assert (Hgen : forall l, NoDup l -> values_of k (concat (map (fun k => map (pair k) (default [] (m !! k))) l))
                   = if decide (k ∈ l) then default [] (m !! k) else []).
  { induction 1 as [|x l Hx Hl IH]; [done|]. simpl. rewrite values_of_app, values_of_group, IH.
    destruct (decide (x = k)) as [->|Hne].
    - rewrite (decide_False (P := k ∈ l)), app_nil_r, decide_True by set_solver. done.
    - simpl. destruct (decide (k ∈ l)), (decide (k ∈ x :: l)); set_solver. }
  rewrite Hgen by done. destruct (decide _) as [|Hn]; [done|].
  destruct (m !! k) eqn:E; [|done]. destruct Hn. apply Hin. eauto.
Qed.

(** Every parameter of a parsed query has a value. *)
Definition valued (m : Values) : Prop := map_Forall (fun _ vs => vs <> []) m.

Lemma parseQuery_valued q : valued (parseQuery q).
Proof.
  unfold parseQuery. assert (H : valued ∅) by apply map_Forall_empty. revert H. generalize (∅ : Values).
  induction (split_on "&" q) as [|p l IH]; intros m Hm; [done|]. simpl. apply IH. unfold parse_pair.
  destruct (has _ _); [done|]. destruct (decide _); [done|]. destruct (cut _ _) as [k v].
  destruct (QueryUnescape k), (QueryUnescape v); try done. apply map_Forall_insert_2; [|done].
  by destruct (default _ _).
Qed.

Lemma parse_Encode_valued m : valued m -> parseQuery (Encode m) = m.
Proof.
  intros Hm. apply map_eq. intros k. rewrite parse_Encode, add_all_lookup, encode_values, lookup_empty.
  destruct (m !! k) as [vs|] eqn:E; simpl; [|done]. specialize (Hm _ _ E). by destruct vs.
Qed.

(** C39: Rewriting the database URL changes its [replication] parameter and nothing
    else.  Of a URL that parses, the parts other than the query are kept; the backfill's
    and the doctor's rewritten URL has every other query parameter with all its values
    in order and no [replication], the doctor's replication URL has them and exactly
    [replication=database]; and printing any parameters and parsing them back gives the
    same parameters, whatever bytes they hold. *)
Theorem replication_parameter_is_exact {R} (Parse : string -> res (URL R)) (String_ : URL R -> string) url u :
  Parse url = inl u ->
  (exists q, NonReplicationURL Parse String_ url = String_ (set_RawQuery q u) /\
     parseQuery q = delete "replication" (Query u)) /\
  plainURL Parse String_ url = NonReplicationURL Parse String_ url /\
  (exists q, replicationURL Parse String_ url = String_ (set_RawQuery q u) /\
     parseQuery q = <["replication" := ["database"]]> (Query u)) /\
  (forall m : Values, valued m -> parseQuery (Encode m) = m).
Proof.
  intros Hp. unfold NonReplicationURL, plainURL, replicationURL. rewrite Hp.
  pose proof (parseQuery_valued (u_RawQuery u)) as Hv. fold (Query u) in Hv. split_and!; [|done| |].
  - eexists. split; [reflexivity|]. apply parse_Encode_valued. by apply map_Forall_delete.
  - eexists. split; [reflexivity|]. apply parse_Encode_valued. by apply map_Forall_insert_2.
  - apply parse_Encode_valued.
Qed.

(** A URL split at its question mark. *)
Definition toy_url (s : string) : res (URL string) := let '(rest, q) := cut "?" s in inl {| u_RawQuery := q; u_rest := rest |}.
Definition toy_url_String (u : URL string) : string :=
  if decide (u_RawQuery u = "") then u_rest u else (u_rest u +:+ "?" +:+ u_RawQuery u)%string.

Example urls_run :
  NonReplicationURL toy_url toy_url_String "postgres://u@h/db?sslmode=disable&replication=database&options=a+b%3Dc"
    = "postgres://u@h/db?options=a+b%3Dc&sslmode=disable" /\
  replicationURL toy_url toy_url_String "postgres://u@h/db" = "postgres://u@h/db?replication=database".
Proof. split; vm_compute; reflexivity. Qed.

Definition toy_parsed : URL string := {| u_RawQuery := "replication=database&a=%26"; u_rest := "postgres://h/db" |}.
Lemma replication_parameter_is_exact_witness :
  exists q, NonReplicationURL toy_url toy_url_String "postgres://h/db?replication=database&a=%26"
      = toy_url_String (set_RawQuery q toy_parsed) /\ parseQuery q !! "replication" = None /\
    parseQuery q !! "a" = Some ["&"].
Proof.
  destruct (replication_parameter_is_exact toy_url toy_url_String "postgres://h/db?replication=database&a=%26"
    toy_parsed) as ((q & H & Hq) & _); [vm_compute; reflexivity|].
  exists q. split; [exact H|]. rewrite Hq. split; vm_compute; reflexivity.
Defined.
