(* ===== verification/BackfillDB.v ===== *)
(** * The backfill's database access (src/internal/adapters/primary/backfill/db.go)

    The queries of [pgDB] over a connection pool, which is a parameter: statements are
    sent as texts with arguments and give rows or errors.  What PostgreSQL does with
    the four statements on the progress table is stated as laws about a table of rows
    the world holds; under them the progress operations refine a map from table names
    to resume points, and [pgDB] implements the [DB] interface of the coordinator.
    The layout of the statements' texts is collapsed to single spaces. *)

From Stdlib Require Import ZArith Lia Ascii String.
From stdpp Require Import base list gmap strings pretty.
From S2P Require Import Prelude Domain SchemaChange Decoder Reader Backfill DBLog.

Open Scope go_scope.
Set Warnings "-clear-no-such-hyp".

(** ** The connection pool *)
Inductive sql_value :=
  | SQLNull | SQLText (s : string) | SQLBool (b : bool) | SQLInt (z : Z) | SQLTime (t : Z)
  | SQLTexts (l : list string).

(** The rows of a query and the error its iteration ended with. *)
Record result_rows := { rr_rows : list (list sql_value); rr_err : option error }.

Record Pool (W : Type) := {
  Exec : string -> list sql_value -> ST W (option error);
  Query : string -> list sql_value -> ST W (res result_rows);
  SimpleQuery : string * list string -> ST W (res query_result);
  (* [pgx.BeginFunc]: the statements run in a transaction that commits when the
     function returns no error *)
  BeginFunc : list (string * list sql_value) -> ST W (option error);
}.
Arguments Exec {W}. Arguments Query {W}. Arguments SimpleQuery {W}. Arguments BeginFunc {W}.

Definition ErrScan : error := EMsg "cannot scan".

(** [int32(max(2, 2*lanes))] *)
Definition int32 (z : Z) : Z := ((z + 2 ^ 31) mod 2 ^ 32 - 2 ^ 31)%Z.
Definition pool_MaxConns (lanes : Z) : Z := int32 (Z.max 2 (2 * lanes)).

Record pgDB := { pg_stateTable : string; pg_flushArg : bool }.

(** [NewDB]: the pool's configuration, the pool, and the server's version. *)
Definition NewDB {C P} (ParseConfig : string -> res C) (NewWithConfig : C -> Z -> res P)
    (server_version : P -> res Z) (NonReplicationURL : string -> string)
    (databaseURL stateTable : string) (lanes : Z) : res (P * pgDB) :=
  match ParseConfig (NonReplicationURL databaseURL) with
  | inr err => inr (EWrap "parse backfill database URL: " err "")
  | inl cfg =>
      match NewWithConfig cfg (pool_MaxConns lanes) with
      | inr err => inr (EWrap "connect for backfill: " err "")
      | inl pool =>
          match server_version pool with
          | inr err => inr (EWrap "read server version: " err "")
          | inl versionNum =>
              inl (pool, {| pg_stateTable := stateTable; pg_flushArg := bool_decide (170000 <= versionNum)%Z |})
          end
      end
  end.

Section pgdb.
Context {W : Type} (pool : Pool W) (d : pgDB).
Context (quoteIdent : string -> string) (TypeForOID : Z -> option (string * (string -> res any))).
Context (MarshalPayload : watermarkPayload -> string).
(** [json.Marshal] and [json.Unmarshal] of a cursor. *)
Context (MarshalCursor : list string -> res string) (UnmarshalCursor : string -> res (list string)).

Definition EmitWatermark (payload : watermarkPayload) : ST W (option error) :=
  if pg_flushArg d then
    Exec pool "SELECT pg_logical_emit_message(false, $1, $2::text, true)"
      [SQLText WatermarkPrefix; SQLText (MarshalPayload payload)]
  else
    BeginFunc pool
      [("SET LOCAL synchronous_commit = on", []);
       ("SELECT pg_logical_emit_message(true, $1, $2::text)",
        [SQLText WatermarkPrefix; SQLText (MarshalPayload payload)])].

(** The loops over rows of one and of two text columns. *)
Fixpoint scan_texts (rows : list (list sql_value)) : res (list string) :=
  match rows with
  | [] => inl []
  | [SQLText col] :: rest => match scan_texts rest with inl cols => inl (col :: cols) | inr e => inr e end
  | _ => inr ErrScan
  end.
Fixpoint scan_pairs (rows : list (list sql_value)) : res (list (string * string)) :=
  match rows with
  | [] => inl []
  | [SQLText a; SQLText b] :: rest => match scan_pairs rest with inl l => inl ((a, b) :: l) | inr e => inr e end
  | _ => inr ErrScan
  end.
(** [return xs, rows.Err()] *)
Definition finish {A} (r : result_rows) (scanned : res A) : res A :=
  match scanned with inr e => inr e | inl a => match rr_err r with Some e => inr e | None => inl a end end.

Definition PrimaryKey (schema table : string) : ST W (res (list string)) :=
  let! r := Query pool ("SELECT a.attname FROM pg_index i JOIN pg_attribute a ON a.attrelid = i.indrelid AND "
    +:+ "a.attnum = ANY(i.indkey) WHERE i.indrelid = ($1 || '.' || $2)::regclass AND i.indisprimary "
    +:+ "ORDER BY array_position(i.indkey, a.attnum)")%string
    [SQLText (quoteIdent schema); SQLText (quoteIdent table)] in
  ret match r with
      | inr err => inr (EWrap ("primary key lookup for " +:+ schema +:+ "." +:+ table +:+ ": ")%string err "")
      | inl rows => finish rows (scan_texts (rr_rows rows))
      end.

Definition PublicationTables (publication : string) : ST W (res (list (string * string))) :=
  let! r := Query pool ("SELECT schemaname, tablename FROM pg_publication_tables WHERE pubname = $1 "
    +:+ "ORDER BY schemaname, tablename")%string [SQLText publication] in
  ret match r with
      | inr err => inr (EWrap "list publication tables: " err "")
      | inl rows => finish rows (scan_pairs (rr_rows rows))
      end.

(** ** The progress table *)
Definition create_sql (t : string) : string :=
  ("CREATE TABLE IF NOT EXISTS " +:+ t +:+ " ( table_name text PRIMARY KEY, cursor jsonb, "
     +:+ "done boolean NOT NULL DEFAULT false, updated_at timestamptz NOT NULL DEFAULT now() )")%string.
Definition alter_sql (t : string) : string :=
  ("ALTER TABLE " +:+ t +:+ " ADD COLUMN IF NOT EXISTS rows_copied bigint NOT NULL DEFAULT 0")%string.
Definition select_all_sql (t : string) : string :=
  ("SELECT table_name, cursor, done, rows_copied, updated_at FROM " +:+ t)%string.
Definition select_one_sql (t : string) : string :=
  ("SELECT cursor, done, rows_copied, updated_at FROM " +:+ t +:+ " WHERE table_name = $1")%string.
Definition upsert_sql (t : string) : string :=
  ("INSERT INTO " +:+ t +:+ " (table_name, cursor, done, rows_copied, updated_at) VALUES ($1, $2, $3, $4, now()) "
     +:+ "ON CONFLICT (table_name) DO UPDATE SET cursor = $2, done = $3, rows_copied = $4, updated_at = now()")%string.
Definition pending_sql (t : string) : string :=
  ("INSERT INTO " +:+ t +:+ " (table_name, cursor, done, rows_copied, updated_at) SELECT t, NULL, false, 0, now() "
     +:+ "FROM unnest($1::text[]) AS t ON CONFLICT (table_name) "
     +:+ "DO UPDATE SET cursor = NULL, done = false, rows_copied = 0, updated_at = now()")%string.

Abbreviation q := (quoteIdent (pg_stateTable d)).

Definition EnsureStateTable : ST W (option error) :=
  if decide (pg_stateTable d = "") then ret None
  else
    try! Exec pool (create_sql q) [] in
    Exec pool (alter_sql q) [].

(** A NULL cursor scans as no bytes. *)
Definition cursor_text (v : sql_value) : option string :=
  match v with SQLNull => Some "" | SQLText s => Some s | _ => None end.

Fixpoint load_rows (rows : list (list sql_value)) (state : gmap string TableState) : res (gmap string TableState) :=
  match rows with
  | [] => inl state
  | [SQLText name; cur; SQLBool done; SQLInt n; SQLTime t] :: rest =>
      match cursor_text cur with
      | None => inr ErrScan
      | Some json =>
          let ts c := {| ts_Cursor := c; ts_Done := done; ts_RowsCopied := n; ts_UpdatedAt := t |} in
          if decide (json = "") then load_rows rest (<[name := ts []]> state)
          else match UnmarshalCursor json with
               | inr err => inr (EWrap ("corrupt cursor for " +:+ name +:+ ": ")%string err "")
               | inl c => load_rows rest (<[name := ts c]> state)
               end
      end
  | _ => inr ErrScan
  end.

Definition LoadState : ST W (res (gmap string TableState)) :=
  if decide (pg_stateTable d = "") then ret (inl ∅)
  else
    let! r := Query pool (select_all_sql q) [] in
    ret match r with inr err => inr err | inl rows => finish rows (load_rows (rr_rows rows) ∅) end.

(** [QueryRow(...).Scan]: the first row, [ErrNoRows] without one. *)
Definition LoadTableState (table : string) : ST W (res (option TableState)) :=
  if decide (pg_stateTable d = "") then ret (inl None)
  else
    let! r := Query pool (select_one_sql q) [SQLText table] in
    ret match r with
        | inr err => inr err
        | inl rows =>
            match rr_err rows, rr_rows rows with
            | Some e, _ => inr e
            | None, [] => inl None
            | None, [cur; SQLBool done; SQLInt n; SQLTime t] :: _ =>
                match cursor_text cur with
                | None => inr ErrScan
                | Some json =>
                    let ts c := {| ts_Cursor := c; ts_Done := done; ts_RowsCopied := n; ts_UpdatedAt := t |} in
                    if decide (json = "" \/ json = "null") then inl (Some (ts []))
                    else match UnmarshalCursor json with
                         | inr err => inr (EWrap ("corrupt cursor for " +:+ table +:+ ": ")%string err "")
                         | inl c => inl (Some (ts c))
                         end
                end
            | None, _ :: _ => inr ErrScan
            end
        end.

Definition SaveState (table : string) (state : TableState) : ST W (option error) :=
  if decide (pg_stateTable d = "") then ret None
  else match MarshalCursor (ts_Cursor state) with
       | inr err => ret (Some err)
       | inl cursorJSON =>
           Exec pool (upsert_sql q)
             [SQLText table; SQLText cursorJSON; SQLBool (ts_Done state); SQLInt (ts_RowsCopied state)]
       end.

Definition MarkPending (tables : list string) : ST W (option error) :=
  if decide (pg_stateTable d = "" \/ tables = []) then ret None
  else Exec pool (pending_sql q) [SQLTexts tables].

(** [SelectChunk] over the pool. *)
Definition pg_SelectChunk (schema table : string) (pkCols cursor : list string) (limit : nat) : ST W (res Chunk) :=
  let! r := SimpleQuery pool (chunk_query quoteIdent schema table pkCols cursor limit) in
  ret (SelectChunk TypeForOID quoteIdent (fun _ => r) schema table pkCols cursor limit).

(** The interface the coordinator uses. *)
Definition pg_DB : DB W :=
  {| db_EmitWatermark := EmitWatermark; db_PrimaryKey := PrimaryKey; db_SelectChunk := pg_SelectChunk;
     db_PublicationTables := PublicationTables; db_EnsureStateTable := EnsureStateTable;
     db_LoadState := LoadState; db_LoadTableState := LoadTableState; db_SaveState := SaveState;
     db_MarkPending := MarkPending |}.
End pgdb.

(** ** The progress table as a map *)
Record progress_row := { pr_cursor : option string; pr_done : bool; pr_rows : Z; pr_updated : Z }.

Definition row_values4 (r : progress_row) : list sql_value :=
  [match pr_cursor r with Some j => SQLText j | None => SQLNull end;
   SQLBool (pr_done r); SQLInt (pr_rows r); SQLTime (pr_updated r)].
Definition pending_row (t : Z) : progress_row :=
  {| pr_cursor := None; pr_done := false; pr_rows := 0; pr_updated := t |}.

(** Text as PostgreSQL holds it: valid UTF-8 without a NUL byte. *)
Definition cont (b : nat) : bool := (128 <=? b) && (b <? 192).
Fixpoint utf8_text (bs : list nat) : bool :=
  match bs with
  | [] => true
  | a :: r =>
      if a <? 128 then (0 <? a) && utf8_text r
      else match r with
      | [] => false
      | b :: r1 =>
          if a <? 224 then (194 <=? a) && cont b && utf8_text r1
          else match r1 with
          | [] => false
          | c :: r2 =>
              if a <? 240 then
                ((if a =? 224 then 160 <=? b else true) && (if a =? 237 then b <? 160 else true)) &&
                cont b && cont c && utf8_text r2
              else match r2 with
              | [] => false
              | d :: r3 =>
                  (a <? 245) && ((if a =? 240 then 144 <=? b else true) && (if a =? 244 then b <? 144 else true)) &&
                  cont b && cont c && cont d && utf8_text r3
              end
          end
      end
  end.
Definition is_text (s : string) : Prop := utf8_text (map nat_of_ascii (string_to_list s)) = true.

Section progress.
Context {W : Type} (pool : Pool W) (d : pgDB) (quoteIdent : string -> string).
Context (MarshalCursor : list string -> res string) (UnmarshalCursor : string -> res (list string)).
(** The rows of the progress table, and [jsonb]'s own form of a text. *)
Context (progress : W -> gmap string progress_row) (jsonb : string -> string).
Abbreviation q := (quoteIdent (pg_stateTable d)).

(** A statement on a map: executed, or, only when it returned an error, not at all.  An
    error does not say which: the connection may be lost after the commit. *)
Definition executed_or_not {A} (r : option error) (old new now : A) : Prop :=
  now = new \/ (isSome r = true /\ now = old).

(** What PostgreSQL documents of the statements: single statements are atomic, and
    stamped by the server's clock; selects return all rows and one; and JSON encodes a
    cursor of text so that [jsonb]'s form of it decodes to the same, with null for none. *)
Class ProgressLaws := {
  upsert_law w name json done n r w' :
    Exec pool (upsert_sql q) [SQLText name; SQLText json; SQLBool done; SQLInt n] w = (r, w') ->
    exists t, executed_or_not r (progress w)
      (<[name := {| pr_cursor := Some (jsonb json); pr_done := done; pr_rows := n; pr_updated := t |}]> (progress w))
      (progress w');
  pending_law w names r w' :
    Exec pool (pending_sql q) [SQLTexts names] w = (r, w') ->
    exists t, executed_or_not r (progress w) (foldr (fun n => <[n := pending_row t]>) (progress w) names) (progress w');
  select_all_law w rows w' :
    Query pool (select_all_sql q) [] w = (inl rows, w') -> rr_err rows = None ->
    progress w' = progress w /\
    rr_rows rows ≡ₚ map (fun p => SQLText p.1 :: row_values4 p.2) (map_to_list (progress w));
  select_one_law w name rows w' :
    Query pool (select_one_sql q) [SQLText name] w = (inl rows, w') -> rr_err rows = None ->
    progress w' = progress w /\
    rr_rows rows = match progress w !! name with Some r => [row_values4 r] | None => [] end;
  marshal_law cursor : Forall is_text cursor -> exists json, MarshalCursor cursor = inl json /\ jsonb json <> "" /\
    UnmarshalCursor (jsonb json) = inl cursor;
  null_law : UnmarshalCursor "null" = inl [];
}.
Context {laws : ProgressLaws}.

(** The resume point a row stands for; [None] when its cursor is corrupt. *)
Definition row_state (r : progress_row) : option TableState :=
  let ts c := {| ts_Cursor := c; ts_Done := pr_done r; ts_RowsCopied := pr_rows r; ts_UpdatedAt := pr_updated r |} in
  match pr_cursor r with
  | None | Some "" => Some (ts [])
  | Some json => match UnmarshalCursor json with inl c => Some (ts c) | inr _ => None end
  end.

(** The map of resume points, when no row is corrupt. *)
Definition resume_points (w : W) : gmap string TableState := omap row_state (progress w).
Definition intact (w : W) : Prop := map_Forall (fun _ r => is_Some (row_state r)) (progress w).

Definition saved (t : Z) (state : TableState) : TableState :=
  {| ts_Cursor := ts_Cursor state; ts_Done := ts_Done state; ts_RowsCopied := ts_RowsCopied state; ts_UpdatedAt := t |}.
Definition queued (t : Z) : TableState :=
  {| ts_Cursor := []; ts_Done := false; ts_RowsCopied := 0; ts_UpdatedAt := t |}.

Lemma row_state_json json done n t :
  json <> "" -> row_state {| pr_cursor := Some json; pr_done := done; pr_rows := n; pr_updated := t |} =
    match UnmarshalCursor json with
    | inl c => Some {| ts_Cursor := c; ts_Done := done; ts_RowsCopied := n; ts_UpdatedAt := t |}
    | inr _ => None
    end.
Proof. intros Hj. unfold row_state. simpl. by destruct json. Qed.

(** Reading one row the way the loop does is [row_state]. *)
Lemma load_row name r rest st :
  load_rows UnmarshalCursor ((SQLText name :: row_values4 r) :: rest) st =
  match row_state r with
  | Some ts => load_rows UnmarshalCursor rest (<[name := ts]> st)
  | None => match UnmarshalCursor (default "" (pr_cursor r)) with
            | inr err => inr (EWrap ("corrupt cursor for " +:+ name +:+ ": ")%string err "")
            | inl _ => inr ErrScan
            end
  end.
Proof.
  destruct r as [[json|] dn n t]; cbn; [|done]. unfold row_state. cbn.
  destruct json as [|ch json]; [done|]. rewrite decide_False by done.
  by destruct (UnmarshalCursor (String ch json)).
Qed.

Lemma load_rows_spec l st :
  NoDup l.*1 -> Forall (fun p => is_Some (row_state p.2)) l ->
  load_rows UnmarshalCursor (map (fun p => SQLText p.1 :: row_values4 p.2) l) st =
    inl (omap row_state (list_to_map l : gmap string progress_row) ∪ st).
Proof.
  revert st. induction l as [|[name r] l IH]; intros st Hnd Hf.
  { cbn. by rewrite omap_empty, (left_id_L ∅ (∪)). }
  cbn [map fst snd]. rewrite load_row. inversion_clear Hnd as [|? ? Hn Hnd']. inversion_clear Hf as [|? ? [ts Hts] Hf'].
  simpl in Hts. rewrite Hts, IH by done. f_equal. apply map_eq. intros k. simpl.
  rewrite !lookup_union, !lookup_omap. destruct (decide (name = k)) as [->|Hne].
  - rewrite !lookup_insert_eq, not_elem_of_list_to_map_1 by done. simpl. rewrite Hts. by destruct (st !! k).
  - by rewrite !lookup_insert_ne.
Qed.

(** The operations, each as one on the map. *)
Lemma SaveState_spec table state w r w' :
  pg_stateTable d <> "" -> Forall is_text (ts_Cursor state) ->
  SaveState pool d quoteIdent MarshalCursor table state w = (r, w') ->
  exists t row, row_state row = Some (saved t state) /\
    executed_or_not r (progress w) (<[table := row]> (progress w)) (progress w').
Proof.
  intros Ht Htext. unfold SaveState. rewrite decide_False by done.
  destruct (marshal_law (ts_Cursor state) Htext) as (json & -> & Hne & Hun). intros [t H]%upsert_law.
  eexists t, _. split; [|exact H]. by rewrite row_state_json, Hun.
Qed.

(** Replacing rows is replacing resume points, and keeps the table intact. *)
Lemma resume_insert (m : gmap string progress_row) name row ts :
  row_state row = Some ts -> map_Forall (fun _ r => is_Some (row_state r)) m ->
  map_Forall (fun _ r => is_Some (row_state r)) (<[name := row]> m) /\
  omap row_state (<[name := row]> m) = <[name := ts]> (omap row_state m).
Proof.
  intros Hr Hm. split; [apply map_Forall_insert_2; [by eexists | done]|]. by apply omap_insert_Some.
Qed.

Lemma resume_pending (m : gmap string progress_row) names t :
  map_Forall (fun _ r => is_Some (row_state r)) m ->
  map_Forall (fun _ r => is_Some (row_state r)) (foldr (fun n => <[n := pending_row t]>) m names) /\
  omap row_state (foldr (fun n => <[n := pending_row t]>) m names) =
    foldr (fun n => <[n := queued t]>) (omap row_state m) names.
Proof.
  intros Hm. induction names as [|n names [IH1 IH2]]; simpl; [done|]. rewrite <- IH2. by apply resume_insert.
Qed.

Lemma LoadTableState_spec table w r w' :
  pg_stateTable d <> "" -> intact w ->
  LoadTableState pool d quoteIdent UnmarshalCursor table w = (inl r, w') ->
  r = resume_points w !! table /\ progress w' = progress w.
Proof.
  intros Ht Hi. unfold LoadTableState. rewrite decide_False by done. unfold bind.
  destruct (Query pool _ _ w) as [[rows|e] w1] eqn:Hq; [|discriminate].
  destruct (rr_err rows) eqn:He; [discriminate|].
  destruct (select_one_law _ _ _ _ Hq He) as [Hp Hr]. unfold ret. intros [= Hres <-]. split; [|done]. revert Hres.
  unfold resume_points. rewrite lookup_omap, Hr.
  destruct (progress w !! table) as [row|] eqn:Hrow; [|by intros [= <-]].
  specialize (Hi _ _ Hrow) as [ts Hts]. destruct row as [[json|] dn n t]; cbn in *; [|by intros [= <-]].
  rewrite Hts. unfold row_state in Hts. cbn in Hts. destruct json as [|ch json]; [by rewrite Hts; intros [= <-]|].
  destruct (decide _) as [[|Hnull]|]; [done| |].
  - rewrite Hnull, null_law in Hts. rewrite Hts. by intros [= <-].
  - destruct (UnmarshalCursor (String ch json)); [|done]. rewrite Hts. by intros [= <-].
Qed.

Lemma load_rows_perm rows l st m :
  rows ≡ₚ map (fun p => SQLText p.1 :: row_values4 p.2) (map_to_list l) ->
  map_Forall (fun _ r => is_Some (row_state r)) l ->
  load_rows UnmarshalCursor rows st = inl m -> m = omap row_state l ∪ st.
Proof.
  intros Hp Hf. apply Permutation_map_inv in Hp as (l' & -> & Hp).
  rewrite load_rows_spec.
  - assert ((list_to_map l' : gmap string progress_row) = l) as ->; [|by intros [= <-]].
    rewrite <- (list_to_map_to_list l). symmetry. apply list_to_map_proper; [apply NoDup_fst_map_to_list | done].
  - rewrite <- Hp. apply NoDup_fst_map_to_list.
  - rewrite <- Hp. apply Forall_forall. intros [k r] Hin%elem_of_map_to_list. exact (Hf _ _ Hin).
Qed.

Lemma LoadState_spec w r w' :
  pg_stateTable d <> "" -> intact w ->
  LoadState pool d quoteIdent UnmarshalCursor w = (inl r, w') ->
  r = resume_points w /\ progress w' = progress w.
Proof.
  intros Ht Hi. unfold LoadState. rewrite decide_False by done. unfold bind.
  destruct (Query pool _ _ w) as [[rows|e] w1] eqn:Hq; [|discriminate]. unfold finish.
  destruct (load_rows _ _ _) as [m|] eqn:Hl; [|discriminate]. destruct (rr_err rows) eqn:He; [discriminate|].
  destruct (select_all_law _ _ _ Hq He) as [Hp Hr]. intros [= <- <-]. split; [|done].
  rewrite (load_rows_perm _ _ _ _ Hr Hi Hl). apply (right_id_L ∅ (∪)).
Qed.

(** C20: The progress operations of the backfill refine a map from tables to resume
    points: a saved point is the one loaded, with its cursor, the text of a row's key,
    intact through JSON and [jsonb] and stamped by the server; tables marked pending
    start over from nothing; every other point is kept; a write that returned an error
    was done whole or not at all, and one that returned none was done; loading reads the
    map as it is; and no operation leaves a row that cannot be read. *)
Theorem progress_table_refines_a_map w :
  pg_stateTable d <> "" -> intact w ->
  (forall table state r w', Forall is_text (ts_Cursor state) ->
     SaveState pool d quoteIdent MarshalCursor table state w = (r, w') ->
     intact w' /\ exists t, executed_or_not r (resume_points w) (<[table := saved t state]> (resume_points w)) (resume_points w')) /\
  (forall tables r w', MarkPending pool d quoteIdent tables w = (r, w') ->
     intact w' /\ exists t, executed_or_not r (resume_points w) (foldr (fun n => <[n := queued t]>) (resume_points w) tables)
                              (resume_points w')) /\
  (forall m w', LoadState pool d quoteIdent UnmarshalCursor w = (inl m, w') ->
     m = resume_points w /\ resume_points w' = resume_points w) /\
  (forall table o w', LoadTableState pool d quoteIdent UnmarshalCursor table w = (inl o, w') ->
     o = resume_points w !! table /\ resume_points w' = resume_points w).
Proof.
  intros Ht Hi. unfold resume_points, intact in *. split; [|split; [|split]].
  - intros table state r w' Htext H.
    destruct (SaveState_spec _ _ _ _ _ Ht Htext H) as (t & row & Hrow & [->|[Hr ->]]).
    + destruct (resume_insert (progress w) table row _ Hrow Hi) as [Hi' ->]. split; [done|]. exists t. by left.
    + split; [done|]. exists t. by right.
  - intros tables r w'. unfold MarkPending. destruct (decide _) as [[|Hnil]|].
    + done.
    + rewrite Hnil. intros [= <- <-]. split; [done|]. exists 0%Z. by left.
    + intros [t [H|[Hr H]]]%pending_law; rewrite H.
      * destruct (resume_pending (progress w) tables t Hi) as [Hi' ->]. split; [done|]. exists t. by left.
      * split; [done|]. exists t. by right.
  - intros m w' H. apply LoadState_spec in H as [-> ->]; done.
  - intros table o w' H. apply LoadTableState_spec in H as [-> ->]; done.
Qed.
End progress.

(** ** A toy server with one progress table *)
Abbreviation toy_table := (gmap string progress_row).
#[export] Instance World_toy_table : World toy_table := {| now := fun _ => 7%Z; cancelled := fun _ => false |}.

Definition toy_Exec (sql : string) (args : list sql_value) : ST toy_table (option error) :=
  fun w =>
    if decide (sql = upsert_sql "t") then
      match args with
      | [SQLText name; SQLText json; SQLBool dn; SQLInt n] =>
          (None, <[name := {| pr_cursor := Some json; pr_done := dn; pr_rows := n; pr_updated := now w |}]> w)
      | _ => (Some (EMsg "bad arguments"), w)
      end
    else if decide (sql = pending_sql "t") then
      match args with
      | [SQLTexts names] => (None, foldr (fun n => <[n := pending_row (now w)]>) w names)
      | _ => (Some (EMsg "bad arguments"), w)
      end
    else (Some (EMsg "syntax error"), w).

Definition toy_Query (sql : string) (args : list sql_value) : ST toy_table (res result_rows) :=
  fun w =>
    (if decide (sql = select_all_sql "t") then
       inl {| rr_rows := map (fun p => SQLText p.1 :: row_values4 p.2) (map_to_list w); rr_err := None |}
     else if decide (sql = select_one_sql "t") then
       match args with
       | [SQLText name] =>
           inl {| rr_rows := match w !! name with Some r => [row_values4 r] | None => [] end; rr_err := None |}
       | _ => inr (EMsg "bad arguments")
       end
     else inr (EMsg "syntax error"), w).

Definition toy_pool : Pool toy_table :=
  {| Exec := toy_Exec; Query := toy_Query; SimpleQuery := fun _ => ret (inr (EMsg "no rows"));
     BeginFunc := fun _ => ret None |}.
Definition toy_pgDB : pgDB := {| pg_stateTable := "t"; pg_flushArg := true |}.

(** A toy encoding of cursors: every character marked, every value ended. *)
Fixpoint toy_value (s t : string) : string :=
  match s with EmptyString => String ";" t | String c s' => String "c" (String c (toy_value s' t)) end.
Definition toy_Marshal_cursor (l : list string) : res string :=
  match l with [] => inl "null" | _ => inl (foldr toy_value "" l) end.
Fixpoint toy_values (s : string) : option (list string) :=
  match s with
  | EmptyString => Some []
  | String ";" s' => match toy_values s' with Some l => Some ("" :: l) | None => None end
  | String "c" (String c s') =>
      match toy_values s' with Some (x :: l) => Some (String c x :: l) | _ => None end
  | _ => None
  end.
Definition toy_Unmarshal_cursor (s : string) : res (list string) :=
  if decide (s = "null") then inl []
  else match toy_values s with Some l => inl l | None => inr (EMsg "invalid character") end.

Lemma toy_values_value s t l : toy_values t = Some l -> toy_values (toy_value s t) = Some (s :: l).
Proof. intros Ht. induction s as [|c s IH]; simpl; [by rewrite Ht | by rewrite IH]. Qed.
Lemma toy_values_list l : toy_values (foldr toy_value "" l) = Some l.
Proof. induction l as [|s l IH]; [done|]. by apply toy_values_value. Qed.

#[export] Instance toy_laws :
  ProgressLaws toy_pool toy_pgDB (fun s => s) toy_Marshal_cursor toy_Unmarshal_cursor (fun w => w) (fun s => s).
Proof.
  split; try done.
  - intros w name json dn n r w' H. cbn in H. unfold toy_Exec in H. rewrite decide_True in H by done.
    injection H as <- <-. exists 7%Z. by left.
  - intros w names r w' H. cbn in H. unfold toy_Exec in H.
    rewrite decide_False, decide_True in H by done. injection H as <- <-. exists 7%Z. by left.
  - intros w rows w' H _. cbn in H. unfold toy_Query in H. rewrite decide_True in H by done.
    by injection H as <- <-.
  - intros w name rows w' H _. cbn in H. unfold toy_Query in H.
    rewrite decide_False, decide_True in H by done. by injection H as <- <-.
  - intros [|s l] _; [by exists "null"|]. exists (foldr toy_value "" (s :: l)).
    assert (Hne : foldr toy_value "" (s :: l) <> "" /\ foldr toy_value "" (s :: l) <> "null")
      by (simpl; by destruct s).
    split; [done|]. split; [apply Hne|]. unfold toy_Unmarshal_cursor.
    rewrite decide_False by apply Hne. by rewrite toy_values_list.
Qed.

Lemma progress_table_refines_a_map_witness :
  let state := {| ts_Cursor := ["42"; "x"]; ts_Done := false; ts_RowsCopied := 9; ts_UpdatedAt := 0 |} in
  let w1 := (SaveState toy_pool toy_pgDB (fun s => s) toy_Marshal_cursor "public.users" state ∅).2 in
  (exists t, resume_points toy_Unmarshal_cursor (fun w => w) w1 = {[ "public.users" := saved t state ]}) /\
  (LoadTableState toy_pool toy_pgDB (fun s => s) toy_Unmarshal_cursor "public.users" w1).1 =
    inl (Some (saved 7 state)).
Proof.
  intros state w1. split; [|vm_compute; reflexivity].
  destruct (progress_table_refines_a_map toy_pool toy_pgDB (fun s => s) toy_Marshal_cursor toy_Unmarshal_cursor
    (fun w => w) (fun s => s) (∅ : toy_table)) as [Hsave _]; [done | unfold intact; intros k r Hk; by rewrite lookup_empty in Hk |].
  destruct (Hsave "public.users" state None w1) as [_ [t [Hr|[Hr _]]]];
    [by repeat constructor | vm_compute; reflexivity | | discriminate]. exists t. exact Hr.
Defined.
