(* ===== verification/Service.v ===== *)
(** * The CDC service and the sink registry
      (src/internal/core/services/registry.go and cdc_service.go)

    The registry of sinks, and the batch handler the WAL reader calls: it drops the
    events of excluded tables, hands the rest to every sink in pieces of the sink's
    own size, and fails when any sink fails.  Sinks run one after another or, with
    [ParallelSinks], in an order the scheduler chooses: [schedule] is any
    permutation. *)

From Stdlib Require Import ZArith Lia Ascii String.
From stdpp Require Import base list gmap strings pretty.
From S2P Require Import Prelude Domain.

Open Scope go_scope.
Set Warnings "-clear-no-such-hyp".
Set Default Proof Using "Type".

(** ** The registry: the sinks by name *)
Abbreviation sinkRegistry W := (gmap string (Sink W)).

Section registry.
Context {W : Type}.

Definition NewSinkRegistry : sinkRegistry W := ∅.

Definition Register (sink : Sink W) (r : sinkRegistry W) : option error * sinkRegistry W :=
  match r !! Name sink with
  | Some _ => (Some (ESentinel ErrSinkAlreadyExists), r)
  | None => (None, <[Name sink := sink]> r)
  end.

Definition NewSinkRegistryWithSinks (sinks : list (Sink W)) : sinkRegistry W :=
  foldl (fun r s => (Register s r).2) ∅ sinks.

Definition Unregister (name : string) (r : sinkRegistry W) : option error * sinkRegistry W :=
  match r !! name with
  | None => (Some (ESentinel ErrSinkNotFound), r)
  | Some _ => (None, delete name r)
  end.

Definition Get (name : string) (r : sinkRegistry W) : res (Sink W) :=
  match r !! name with None => inr (ESentinel ErrSinkNotFound) | Some s => inl s end.

(** The map's values, in its iteration order. *)
Definition All (r : sinkRegistry W) : list (Sink W) := map snd (map_to_list r).

Definition InitializeAll (r : sinkRegistry W) : ST W (option error) :=
  for_each (fun s => Initialize s) (All r).

(** Every sink is shut down; the errors are joined. *)
Fixpoint shutdown_loop (sinks : list (Sink W)) : ST W (list (option error)) :=
  match sinks with
  | [] => ret []
  | s :: rest =>
      let! e := Shutdown s in
      let! es := shutdown_loop rest in
      ret (e :: es)
  end.
Definition ShutdownAll (r : sinkRegistry W) : ST W (option error) :=
  let! es := shutdown_loop (All r) in ret (Join es).

Fixpoint health_loop (sinks : list (string * Sink W)) : ST W (gmap string (option error)) :=
  match sinks with
  | [] => ret ∅
  | (name, s) :: rest =>
      let! e := HealthCheck s in
      let! m := health_loop rest in
      ret (<[name := e]> m)
  end.
Definition HealthCheckAll (r : sinkRegistry W) : ST W (gmap string (option error)) :=
  health_loop (map_to_list r).

(** Names and registered sinks agree, as every operation keeps them. *)
Definition registry_ok (r : sinkRegistry W) : Prop := forall n s, r !! n = Some s -> Name s = n.

Lemma Register_ok s r : registry_ok r -> registry_ok (Register s r).2.
Proof.
  unfold Register. intros Hr. destruct (r !! Name s); simpl; [done|].
  intros n s' [[<- <-]|[_ H]]%lookup_insert_Some; [done | by apply Hr].
Qed.
Lemma Unregister_ok n r : registry_ok r -> registry_ok (Unregister n r).2.
Proof.
  unfold Unregister. intros Hr. destruct (r !! n); simpl; [|done].
  intros n' s0 [_ H]%lookup_delete_Some. by apply Hr.
Qed.

Lemma registry_fold_ok sinks r :
  registry_ok r -> registry_ok (foldl (fun r s => (Register s r).2) r sinks).
Proof. revert r. induction sinks; intros r Hr; simpl; [done|]. by apply IHsinks, Register_ok. Qed.

Lemma All_names r : registry_ok r -> map Name (All r) = map fst (map_to_list r).
Proof.
  intros Hr. unfold All. rewrite map_map. apply map_ext_in. intros [n s] Hin.
  apply list_elem_of_In, elem_of_map_to_list in Hin. simpl. by apply Hr.
Qed.

Lemma All_NoDup r : registry_ok r -> NoDup (map Name (All r)).
Proof. intros Hr. rewrite All_names by done. apply NoDup_fst_map_to_list. Qed.

(** The first sink of a name stays; a later one of the same name is refused. *)
Lemma registry_fold_lookup sinks r n :
  foldl (fun r s => (Register s r).2) r sinks !! n =
  match r !! n with
  | Some s => Some s
  | None => snd <$> list_find (fun s => Name s = n) sinks
  end.
Proof.
  revert r. induction sinks as [|s sinks IH]; intros r; simpl; [by destruct (r !! n)|].
  rewrite IH. unfold Register. destruct (r !! Name s) as [s0|] eqn:Hs; simpl.
  - destruct (r !! n) as [s1|] eqn:Hn; [done|]. rewrite decide_False by congruence.
    by destruct (list_find _ sinks) as [[? ?]|].
  - destruct (decide (Name s = n)) as [<-|Hne].
    + by rewrite lookup_insert_eq, Hs.
    + rewrite lookup_insert_ne by done. destruct (r !! n); [done|].
      by destruct (list_find _ sinks) as [[? ?]|].
Qed.

(** A registry built from a list of sinks holds for each name the first sink of
    that name, under its own name, and [All] lists each name once. *)
Theorem registry_keeps_the_first_of_each_name (sinks : list (Sink W)) :
  let r := NewSinkRegistryWithSinks sinks in
  (forall n, Get n r = match list_find (fun s => Name s = n) sinks with
                       | Some (_, s) => inl s
                       | None => inr (ESentinel ErrSinkNotFound)
                       end) /\
  NoDup (map Name (All r)) /\
  (forall s, s ∈ All r <-> Get (Name s) r = inl s).
Proof.
  intros r. assert (Hok : registry_ok r).
  { apply registry_fold_ok. intros n s Hn. by rewrite lookup_empty in Hn. }
  split_and!.
  - intros n. unfold Get. subst r. unfold NewSinkRegistryWithSinks.
    rewrite registry_fold_lookup, lookup_empty. by destruct (list_find _ sinks) as [[i s]|].
  - by apply All_NoDup.
  - intros s. unfold All, Get. rewrite list_elem_of_fmap. split.
    + intros ([n s'] & -> & Hin%elem_of_map_to_list). simpl. by rewrite (Hok _ _ Hin), Hin.
    + intros H. exists (Name s, s). split; [done|]. apply elem_of_map_to_list.
      by destruct (r !! Name s); simplify_eq.
Qed.
End registry.

(** ** The batch handler *)
Section service.
Context {W : Type} `{!World W}.
Context (ParallelSinks : bool) (ExcludedTables : gset string).
(** The order in which the goroutines of a parallel batch get to run. *)
Context (schedule : list (nat * Sink W) -> list (nat * Sink W)).

Definition isTableExcluded (schema table : string) : bool :=
  if decide (ExcludedTables = ∅) then false
  else if decide (table ∈ ExcludedTables) then true
  else bool_decide ((schema +:+ "." +:+ table)%string ∈ ExcludedTables).

(** [admit_events]'s loop from index [i]: [kept] is the batch itself until something is
    dropped, and a copy from then on. *)
Fixpoint admit_loop (events : list CDCEvent) (i : nat) (rest kept : list CDCEvent) (copied : bool)
    : list CDCEvent :=
  match rest with
  | [] => kept
  | e :: rest' =>
      if isTableExcluded (Schema e) (Table e) then
        admit_loop events (S i) rest' (if copied then kept else take i events) true
      else admit_loop events (S i) rest' (if copied then kept ++ [e] else kept) copied
  end.
Definition admit_events (events : list CDCEvent) : list CDCEvent := admit_loop events 0 events events false.

(** [deliver]: the batch in pieces of the sink's own size, up to the first failure. *)
Definition deliver (c : Ctx) (sink : Sink W) (events : list CDCEvent) : ST W (option error) :=
  let limit := MaxBatchEvents sink in
  if decide (limit <= 0 \/ Z.of_nat (length events) <= limit)%Z then Process sink c events
  else for_each (fun piece => Process sink c piece) (slices (Z.to_nat limit) events).

Definition classifyError (e : error) : string :=
  if Is e ErrCircuitOpen then "circuit_open"
  else if IsPermanent e then "permanent"
  else if Is e DeadlineExceeded then "timeout"
  else if Is e Canceled then "canceled"
  else "other".

Definition processSink (c : Ctx) (sink : Sink W) (events : list CDCEvent) : ST W SinkResult :=
  let! w0 := get in
  let! err := deliver c sink events in
  let! w1 := get in
  ret {| sr_SinkName := Name sink; sr_Success := negb (isSome err); sr_Error := err;
         sr_Duration := (now w1 - now w0)%Z |}.

(** The sinks with their index in the results, in the order they run. *)
Fixpoint process_jobs (c : Ctx) (events : list CDCEvent) (jobs : list (nat * Sink W))
    : ST W (list (nat * SinkResult)) :=
  match jobs with
  | [] => ret []
  | (i, s) :: rest =>
      let! r := processSink c s events in
      let! rs := process_jobs c events rest in
      ret ((i, r) :: rs)
  end.

Definition zero_result : SinkResult :=
  {| sr_SinkName := ""; sr_Success := false; sr_Error := None; sr_Duration := 0 |}.

(** [results[i]]: what was stored at index [i]. *)
Definition result_at (rs : list (nat * SinkResult)) (i : nat) : SinkResult :=
  match list_find (fun p => p.1 = i) rs with Some (_, (_, r)) => r | None => zero_result end.

Definition ProcessBatch (c : Ctx) (sinks : list (Sink W)) (events : list CDCEvent)
    : ST W (list SinkResult) :=
  let jobs := imap pair sinks in
  let! rs := process_jobs c events
               (if ParallelSinks && bool_decide (1 < length sinks) then schedule jobs else jobs) in
  ret (map (result_at rs) (seq 0 (length sinks))).

(** The errors of the failed results, named after their sink. *)
Fixpoint batch_errors (results : list SinkResult) : list error :=
  match results with
  | [] => []
  | r :: rest =>
      if sr_Success r then batch_errors rest
      else EWrap ("sink " +:+ sr_SinkName r +:+ ": ")%string (default (EMsg "<nil>") (sr_Error r)) ""
             :: batch_errors rest
  end.

Definition handleBatch (shutdown : bool) (c : Ctx) (sinks : list (Sink W)) (events0 : list CDCEvent)
    : ST W (option error) :=
  if shutdown then ret (Some (ESentinel ErrShuttingDown))
  else match admit_events events0 with
       | [] => ret None
       | events =>
           let! results := ProcessBatch c sinks events in
           ret match batch_errors results with
               | [] => None
               | errs => Some (EMulti ": " [ESentinel ErrSinkProcessFailed;
                                            EMulti (String "010"%char EmptyString) errs])
               end
       end.

(** The WAL reader the service drives (ports/wal.go). *)
Record WALReader := {
  wal_Start : (Ctx -> list CDCEvent -> ST W (option error)) -> ST W (option error);
  wal_Stop : ST W (option error);
  wal_CurrentLSN : W -> string;
}.

(** The service's [shutdown] channel, read and closed through the world, and the
    wait for the handlers in flight, which ends with them or with the context. *)
Context (shutdown_closed : W -> bool) (close_shutdown : W -> W) (wait_in_flight : ST W unit).

Definition service_Start (reg : sinkRegistry W) (reader : WALReader) : ST W (option error) :=
  let! err := InitializeAll reg in
  match err with
  | Some e => ret (Some e)
  | None => wal_Start reader (fun c events =>
              let! w := get in handleBatch (shutdown_closed w) c (All reg) events)
  end.

(** The reader's error is logged; the sinks' errors are returned. *)
Definition service_Stop (reg : sinkRegistry W) (reader : WALReader) : ST W (option error) :=
  let! _ := (fun w => (tt, close_shutdown w)) in
  let! _ := wait_in_flight in
  let! _ := wal_Stop reader in
  ShutdownAll reg.

Lemma isTableExcluded_true schema table :
  isTableExcluded schema table = true <->
  table ∈ ExcludedTables \/ (schema +:+ "." +:+ table)%string ∈ ExcludedTables.
Proof.
  unfold isTableExcluded. destruct (decide (ExcludedTables = ∅)) as [->|].
  - split; [done | intros [[]%elem_of_empty|[]%elem_of_empty]].
  - destruct (decide (table ∈ ExcludedTables)).
    + split; auto.
    + rewrite bool_decide_eq_true. tauto.
Qed.

Lemma admit_loop_spec events i rest kept copied :
  (copied = false -> kept = events /\ events = take i events ++ rest) ->
  admit_loop events i rest kept copied =
    (if copied then kept else take i events) ++
    filter (fun e => isTableExcluded (Schema e) (Table e) = false) rest.
Proof.
  revert i kept copied. induction rest as [|e rest IH]; intros i kept copied Hk; simpl.
  - rewrite app_nil_r. destruct copied; [done|]. destruct (Hk eq_refl) as [-> He].
    by rewrite app_nil_r in He.
  - rewrite filter_cons. destruct (isTableExcluded (Schema e) (Table e)) eqn:He.
    + rewrite IH by done. by destruct copied.
    + rewrite decide_True by done. destruct copied.
      * rewrite IH by done. by rewrite <- app_assoc.
      * destruct (Hk eq_refl) as [-> Hev].
        assert (Hi : take (S i) events = take i events ++ [e]).
        { apply take_S_r. rewrite Hev at 1. rewrite lookup_app_r; rewrite length_take.
          - assert (i <= length events).
            { destruct (decide (i <= length events)); [done|]. exfalso.
              apply (f_equal length) in Hev. rewrite length_app, length_take in Hev. simpl in Hev. lia. }
            by replace (i - i `min` length events) with 0 by lia.
          - lia. }
        rewrite IH; [rewrite Hi, <- app_assoc; done|]. intros _. split; [done|].
        rewrite Hi, <- app_assoc. exact Hev.
Qed.

Lemma admit_filter events :
  admit_events events = filter (fun e => isTableExcluded (Schema e) (Table e) = false) events.
Proof. unfold admit_events. rewrite admit_loop_spec; [done|]. intros _. split; done. Qed.

Lemma batch_errors_nil results : batch_errors results = [] <-> Forall (fun r => sr_Success r = true) results.
Proof.
  induction results as [|r rs IH]; simpl; [split; [constructor | done]|].
  destruct (sr_Success r) eqn:Hs.
  - rewrite IH. split; [by constructor | by inversion 1].
  - split; [discriminate | inversion 1; congruence].
Qed.

End service.

(** ** Observing every sink *)

(** A log of every sink's [Process] calls under the sink's name. *)
Section observed.
Context {W : Type} `{!World W}.
Abbreviation book := (list (string * call)).

Definition tagged (s : Sink W) : Sink (book * W) :=
  {| Name := Name s;
     Initialize := inner (Initialize s);
     Process := fun c events '(log, w) =>
       let '(r, w') := Process s c events w in (r, (log ++ [(Name s, (events, r))], w'));
     Shutdown := inner (Shutdown s);
     HealthCheck := inner (HealthCheck s);
     batch_limiter := batch_limiter s;
     router := router s |}.

Definition calls_of (n : string) (log : book) : list call :=
  map snd (filter (fun p => p.1 = n) log).

Lemma calls_of_app n a b : calls_of n (a ++ b) = calls_of n a ++ calls_of n b.
Proof. unfold calls_of. by rewrite filter_app, map_app. Qed.

Lemma calls_of_tag n l : calls_of n (map (pair n) l) = l.
Proof.
  unfold calls_of. induction l as [|x l IH]; [done|]. simpl. rewrite filter_cons, decide_True by done.
  simpl. by rewrite IH.
Qed.
Lemma calls_of_other n m l : n <> m -> calls_of n (map (pair m) l) = [].
Proof.
  intros Hne. unfold calls_of. induction l as [|x l IH]; [done|]. simpl.
  by rewrite filter_cons, decide_False by (simpl; congruence).
Qed.

(** A sequence of calls of one sink that accepted [events] or a prefix of them. *)
Definition accepts (s : Sink W) (events : list CDCEvent) (err : option error) (cs : list call) : Prop :=
  match err with
  | None => delivered cs = events
  | Some e => exists pre p, cs = pre ++ [(p, Some e)] /\ delivered pre `prefix_of` events
  end /\
  (0 < MaxBatchEvents s -> Forall (fun c => Z.of_nat (length c.1) <= MaxBatchEvents s) cs)%Z.

Lemma for_each_tagged s c pieces log w r log' w' :
  for_each (fun p => Process (tagged s) c p) pieces (log, w) = (r, (log', w')) ->
  exists cs, log' = log ++ map (pair (Name s)) cs /\
    match r with
    | None => delivered cs = concat pieces
    | Some e => exists pre p, cs = pre ++ [(p, Some e)] /\ delivered pre `prefix_of` concat pieces
    end /\ Forall (fun c => c.1 ∈ pieces) cs.
Proof.
  revert log w. induction pieces as [|p ps IH]; intros log w; simpl.
  - intros [= <- <- <-]. exists []. rewrite app_nil_r. split_and!; [done..|constructor].
  - unfold guard, bind. simpl. destruct (Process s c p w) as [[e|] w1] eqn:Hp.
    + intros [= <- <- <-]. exists [(p, Some e)]. split_and!; [done | | constructor; [by left | constructor]].
      exists [], p. split; [done|]. apply prefix_nil.
    + intros H. destruct (IH _ _ H) as (cs & -> & Hr & Hf). exists ((p, None) :: cs).
      rewrite <- app_assoc. split_and!; [done| |].
      * destruct r as [e|].
        -- destruct Hr as (pre & q & -> & Hpre). exists ((p, None) :: pre), q. split; [done|].
           unfold delivered. simpl. by apply prefix_app.
        -- unfold delivered. simpl. f_equal. exact Hr.
      * constructor; [by left|]. eapply Forall_impl; [exact Hf|]. intros x Hx. by right.
Qed.

Lemma deliver_tagged s c events log w r log' w' :
  deliver c (tagged s) events (log, w) = (r, (log', w')) ->
  exists cs, log' = log ++ map (pair (Name s)) cs /\ accepts s events r cs.
Proof.
  unfold deliver. simpl. destruct (decide _) as [Hd|Hd].
  - destruct (Process s c events w) as [r0 w0]. intros [= <- <- <-]. exists [(events, r0)].
    split; [done|]. split.
    + destruct r0; [exists [], events; split; [done | apply prefix_nil]|].
      unfold delivered. simpl. apply app_nil_r.
    + intros Hpos. constructor; [|constructor]. simpl. unfold MaxBatchEvents in *. simpl in *. lia.
  - intros H. destruct (for_each_tagged _ _ _ _ _ _ _ _ H) as (cs & -> & Hr & Hf). exists cs.
    assert (Hlim : Z.to_nat (MaxBatchEvents (tagged s)) <> 0) by lia.
    split; [done|]. split.
    + by rewrite slices_concat in Hr.
    + intros _. eapply Forall_impl; [exact Hf|]. intros x Hx. simpl in Hx.
      pose proof (slices_length (Z.to_nat (MaxBatchEvents (tagged s))) events) as Hsl.
      rewrite Forall_forall in Hsl. specialize (Hsl _ Hx). unfold MaxBatchEvents in *. simpl in *. lia.
Qed.

Definition tag_job (j : nat * Sink W) : nat * Sink (book * W) := (j.1, tagged j.2).

Lemma processSink_tagged s c events log w r log' w' :
  processSink c (tagged s) events (log, w) = (r, (log', w')) ->
  sr_Success r = negb (isSome (sr_Error r)) /\
  exists cs, log' = log ++ map (pair (Name s)) cs /\ accepts s events (sr_Error r) cs.
Proof.
  unfold processSink. unfold bind, get, ret.
  destruct (deliver c (tagged s) events (log, w)) as [err [log1 w1]] eqn:Hd.
  intros [= <- <- <-]. simpl. split; [done|]. by eapply deliver_tagged.
Qed.

Lemma process_jobs_tagged c events jobs log w rs log' w' :
  NoDup (map (fun j => Name j.2) jobs) ->
  process_jobs c events (map tag_job jobs) (log, w) = (rs, (log', w')) ->
  map fst rs = map fst jobs /\
  exists ext, log' = log ++ ext /\
    (forall n, n ∉ map (fun j => Name j.2) jobs -> calls_of n ext = []) /\
    (forall i s, (i, s) ∈ jobs -> exists r, (i, r) ∈ rs /\
       sr_Success r = negb (isSome (sr_Error r)) /\ accepts s events (sr_Error r) (calls_of (Name s) ext)).
Proof.
  revert log w rs log' w'. induction jobs as [|[i s] jobs IH]; intros log w rs log' w' Hnd; simpl.
  - intros [= <- <- <-]. split; [done|]. exists []. rewrite app_nil_r. split_and!; [done..|].
    by intros ? ? []%not_elem_of_nil.
  - inversion_clear Hnd as [|? ? Hn Hnd']. unfold bind.
    destruct (processSink c (tagged s) events (log, w)) as [r [log1 w1]] eqn:Hp.
    destruct (process_jobs c events (map tag_job jobs) (log1, w1)) as [rs1 [log2 w2]] eqn:Hj.
    intros [= <- <- <-].
    destruct (processSink_tagged _ _ _ _ _ _ _ _ Hp) as (Hs & cs & -> & Hacc).
    destruct (IH _ _ _ _ _ Hnd' Hj) as (Hfst & ext & -> & Hother & Hall). simpl in *.
    split; [by rewrite Hfst|]. exists (map (pair (Name s)) cs ++ ext). rewrite app_assoc. split_and!; [done| |].
    + intros n [Hne Hin]%not_elem_of_cons. rewrite calls_of_app, calls_of_other by done. by apply Hother.
    + intros i0 s0 [[= -> ->]|Hin]%elem_of_cons.
      * exists r. split_and!; [by left | done |].
        rewrite calls_of_app, calls_of_tag, Hother, app_nil_r by done. exact Hacc.
      * destruct (Hall _ _ Hin) as (r0 & Hr0 & Hs0 & Ha0). exists r0. split_and!; [by right | done |].
        rewrite calls_of_app, calls_of_other; [exact Ha0|]. intros Heq. apply Hn. rewrite <- Heq.
        apply list_elem_of_fmap. by exists (i0, s0).
Qed.

Lemma result_at_elem rs i r : NoDup (map fst rs) -> (i, r) ∈ rs -> result_at rs i = r.
Proof.
  intros Hnd Hin. unfold result_at. destruct (list_find (fun p => p.1 = i) rs) as [[j [i' r']]|] eqn:Hf.
  - apply list_find_Some in Hf as (Hj & Hi & _). simpl in Hi. subst i'.
    apply list_elem_of_lookup_2 in Hj. assert ((i, r') = (i, r)) as [= ->]; [|done].
    by apply (NoDup_map_elem_inj fst rs).
  - apply list_find_None in Hf. rewrite Forall_forall in Hf. by destruct (Hf _ Hin).
Qed.

Lemma imap_pair_tagged (sinks : list (Sink W)) : imap pair (map tagged sinks) = map tag_job (imap pair sinks).
Proof.
  change (map tagged sinks) with (tagged <$> sinks). change (map tag_job) with (fmap (M:=list) tag_job).
  rewrite imap_fmap, fmap_imap. done.
Qed.

Lemma imap_pair_names (sinks : list (Sink W)) : map (fun j => Name j.2) (imap pair sinks) = map Name sinks.
Proof.
  change (map (fun j : nat * Sink W => Name j.2)) with (fmap (M:=list) (fun j : nat * Sink W => Name j.2)).
  rewrite fmap_imap. unfold compose. simpl.
  change (map Name sinks) with (Name <$> sinks). apply imap_const.
Qed.

Lemma imap_pair_index {A} (l : list A) : map fst (imap pair l) = seq 0 (length l).
Proof.
  apply list_eq. intros i. change (map fst (imap pair l)) with (fst <$> imap pair l).
  rewrite list_lookup_fmap, list_lookup_imap. destruct (l !! i) as [x|] eqn:Hi; simpl.
  - symmetry. apply lookup_seq. split; [lia|]. by apply lookup_lt_Some in Hi.
  - symmetry. apply lookup_seq_ge. by apply lookup_ge_None in Hi.
Qed.

(** The handler's outcome and every sink's calls, whatever the order they ran in. *)
Lemma ProcessBatch_tagged par sched c sinks events log w results log' w' :
  (forall l, sched l ≡ₚ l) -> NoDup (map Name sinks) ->
  ProcessBatch par sched c (map tagged sinks) events (log, w) = (results, (log', w')) ->
  exists ext, log' = log ++ ext /\ length results = length sinks /\
    forall i s, sinks !! i = Some s -> exists r, results !! i = Some r /\
      sr_Success r = negb (isSome (sr_Error r)) /\ accepts s events (sr_Error r) (calls_of (Name s) ext).
Proof.
  intros Hperm Hnd. unfold ProcessBatch. rewrite length_map, imap_pair_tagged.
  set (run := if par && bool_decide (1 < length sinks) then sched (map tag_job (imap pair sinks))
              else map tag_job (imap pair sinks)).
  assert (Hrun : run ≡ₚ map tag_job (imap pair sinks)) by (subst run; destruct (par && _); [apply Hperm | done]).
  apply Permutation_map_inv in Hrun as (jobs & -> & Hjobs). unfold bind.
  destruct (process_jobs c events (map tag_job jobs) (log, w)) as [rs [log1 w1]] eqn:Hj.
  intros [= <- <- <-]. rewrite length_map, length_seq.
  assert (Hnames : NoDup (map (fun j => Name j.2) jobs)).
  { rewrite <- (Permutation_map _ Hjobs), imap_pair_names. exact Hnd. }
  destruct (process_jobs_tagged _ _ _ _ _ _ _ _ Hnames Hj) as (Hfst & ext & -> & _ & Hall).
  exists ext. split_and!; [done..|]. intros i s Hi.
  assert (Hin : (i, s) ∈ jobs).
  { rewrite <- Hjobs. apply list_elem_of_lookup. exists i. by rewrite list_lookup_imap, Hi. }
  destruct (Hall i s Hin) as (r & Hr & Hs & Ha). exists r. split_and!; [|done..].
  change (map (result_at rs) (seq 0 (length sinks))) with (result_at rs <$> seq 0 (length sinks)).
  rewrite list_lookup_fmap. rewrite lookup_seq_lt by (by apply lookup_lt_Some in Hi). simpl. f_equal.
  apply result_at_elem; [|exact Hr]. rewrite Hfst, <- (Permutation_map _ Hjobs), imap_pair_index.
  apply NoDup_seq.
Qed.

(** The handler's result and every sink's calls, added to any earlier ones. *)
Lemma handleBatch_tagged par ex sched shutdown c sinks events log w r log' w' :
  (forall l, sched l ≡ₚ l) -> NoDup (map Name sinks) ->
  handleBatch par ex sched shutdown c (map tagged sinks) events (log, w) = (r, (log', w')) ->
  let admitted := filter (fun e => isTableExcluded ex (Schema e) (Table e) = false) events in
  exists ext, log' = log ++ ext /\
    match r with
    | None => forall s, s ∈ sinks -> accepts s admitted None (calls_of (Name s) ext)
    | Some e =>
        (forall s, s ∈ sinks -> exists err, accepts s admitted err (calls_of (Name s) ext)) /\
        (shutdown = false -> Is e ErrSinkProcessFailed = true /\
          exists s err, s ∈ sinks /\ accepts s admitted (Some err) (calls_of (Name s) ext)) \/
        shutdown = true /\ ext = []
    end.
Proof.
  intros Hperm Hnd. simpl. unfold handleBatch. destruct shutdown.
  { intros [= <- <- <-]. exists []. rewrite app_nil_r. split; [done|]. by right. }
  rewrite admit_filter. destruct (filter _ events) as [|e0 es] eqn:Hadm.
  { intros [= <- <- <-]. exists []. rewrite app_nil_r. split; [done|]. intros s _. split; [done | by constructor]. }
  rewrite <- Hadm. clear Hadm e0 es. set (adm := filter _ events). unfold bind.
  destruct (ProcessBatch par sched c (map tagged sinks) adm (log, w)) as [results [log1 w1]] eqn:Hp.
  destruct (ProcessBatch_tagged _ _ _ _ _ _ _ _ _ _ Hperm Hnd Hp) as (ext & -> & Hlen & Hall).
  intros [= <- <- <-]. exists ext. split; [done|].
  destruct (batch_errors results) as [|e es] eqn:Herr.
  - apply batch_errors_nil in Herr. intros s [i Hi]%list_elem_of_lookup.
    destruct (Hall i s Hi) as (r & Hr & Hs & Ha).
    rewrite (Forall_lookup_1 _ _ _ _ Herr Hr) in Hs. by destruct (sr_Error r).
  - left. split.
    + intros s [i Hi]%list_elem_of_lookup. destruct (Hall i s Hi) as (r & _ & _ & Ha). eauto.
    + intros _. split; [done|]. assert (Hfail : exists i r, results !! i = Some r /\ sr_Success r = false).
      { destruct (decide (Forall (fun r => sr_Success r = true) results)) as [Hf|Hf].
        - apply batch_errors_nil in Hf. congruence.
        - apply not_Forall_Exists in Hf; [|apply _]. apply Exists_exists in Hf as (r & Hin & Hr).
          apply list_elem_of_lookup in Hin as [i Hi]. exists i, r. split; [done|].
          by apply not_true_is_false. }
      destruct Hfail as (i & r & Hi & Hr).
      destruct (lookup_lt_is_Some_2 sinks i) as [s Hs]; [rewrite <- Hlen; by eapply lookup_lt_Some|].
      destruct (Hall i s Hs) as (r' & Hr' & Hsucc & Ha). rewrite Hi in Hr'. injection Hr' as <-.
      destruct (sr_Error r) as [err|] eqn:He; [|simpl in Hsucc; congruence].
      exists s, err. split; [by eapply list_elem_of_lookup_2 | exact Ha].
Qed.

(** C7: The batch handler succeeds only if every sink accepted every event of a
    non-excluded table, exactly once and in order, in pieces no larger than the sink
    asks for; otherwise it returns a sink-processing error, some sink failed, and each
    sink has accepted a prefix of those events.  This holds sequentially and in
    parallel, for any order the scheduler picks and any sinks. *)
Theorem batch_success_means_every_sink_has_it par ex sched c sinks events w :
  (forall l, sched l ≡ₚ l) -> NoDup (map Name sinks) ->
  let admitted := filter (fun e => isTableExcluded ex (Schema e) (Table e) = false) events in
  let '(r, (log, _)) := handleBatch par ex sched false c (map tagged sinks) events ([], w) in
  match r with
  | None => forall s, s ∈ sinks -> accepts s admitted None (calls_of (Name s) log)
  | Some e => Is e ErrSinkProcessFailed = true /\
      (forall s, s ∈ sinks -> exists err, accepts s admitted err (calls_of (Name s) log)) /\
      exists s err, s ∈ sinks /\ accepts s admitted (Some err) (calls_of (Name s) log)
  end.
Proof.
  intros Hperm Hnd admitted.
  destruct (handleBatch par ex sched false c (map tagged sinks) events ([], w)) as [r [log w']] eqn:H.
  destruct (handleBatch_tagged _ _ _ _ _ _ _ _ _ _ _ _ Hperm Hnd H) as (ext & -> & Hr). simpl.
  destruct r as [e|]; [|exact Hr]. destruct Hr as [(Hall & He)|[? _]]; [|discriminate].
  destruct (He eq_refl) as [? ?]. by split_and!.
Qed.

End observed.

(** ** What the sinks keep of the world, the service keeps *)
Section keeping.
Context {W : Type} `{!World W} (I : W -> Prop).

Definition keeps (s : Sink W) : Prop := forall c events w, I w -> I (Process s c events w).2.

Lemma deliver_keeps s c events w : keeps s -> I w -> I (deliver c s events w).2.
Proof.
  intros Hs Hw. unfold deliver. destruct (decide _); [by apply Hs|].
  generalize (slices (Z.to_nat (MaxBatchEvents s)) events). intros l. revert w Hw.
  induction l as [|p l IH]; intros w Hw; simpl; [done|]. unfold guard, bind.
  pose proof (Hs c p w Hw) as H1. destruct (Process s c p w) as [[e|] w1]; [exact H1 | by apply IH].
Qed.

Lemma process_jobs_keeps c events jobs w :
  Forall (fun j => keeps j.2) jobs -> I w -> I (process_jobs c events jobs w).2.
Proof.
  revert w. induction jobs as [|[i s] jobs IH]; intros w Hj Hw; simpl; [done|].
  inversion_clear Hj as [|? ? Hs Hj']. unfold processSink, bind, get, ret. simpl in *.
  pose proof (deliver_keeps s c events w Hs Hw) as H1.
  destruct (deliver c s events w) as [err w1]. simpl in *. specialize (IH w1 Hj' H1).
  by destruct (process_jobs c events jobs w1) as [rs w2].
Qed.

Lemma handleBatch_keeps par ex sched shut c sinks events w :
  (forall l, sched l ≡ₚ l) -> Forall keeps sinks -> I w ->
  I (handleBatch par ex sched shut c sinks events w).2.
Proof.
  intros Hperm Hs Hw. unfold handleBatch. destruct shut; [done|]. destruct (admit_events ex events) as [|e es]; [done|].
  unfold ProcessBatch, bind. set (jobs := if _ : bool then _ else _).
  assert (Hall : Forall (fun j => keeps j.2) jobs).
  { assert (Hp : jobs ≡ₚ imap pair sinks) by (subst jobs; destruct (par && _); [apply Hperm | done]).
    rewrite Hp. apply Forall_lookup. intros i [j s] Hi. rewrite list_lookup_imap in Hi.
    destruct (sinks !! i) as [s'|] eqn:Hsi; [|discriminate]. injection Hi as _ <-. by eapply Forall_lookup_1. }
  pose proof (process_jobs_keeps c (e :: es) jobs w Hall Hw) as R.
  by destruct (process_jobs c (e :: es) jobs w) as [rs w1].
Qed.
End keeping.

(** ** Sinks that accept

    [ready] is a condition of the world under which a sink accepts any batch and which
    it keeps. *)
Section accepting.
Context {W : Type} `{!World W} (ready : W -> Prop).

Definition accepting (s : Sink W) : Prop :=
  forall c events w, ready w -> (Process s c events w).1 = None /\ ready (Process s c events w).2.

Lemma deliver_accepts s c events w :
  accepting s -> ready w -> (deliver c s events w).1 = None /\ ready (deliver c s events w).2.
Proof.
  intros Hs Hw. unfold deliver. destruct (decide _); [by apply Hs|].
  generalize (slices (Z.to_nat (MaxBatchEvents s)) events). intros l. revert w Hw.
  induction l as [|p l IH]; intros w Hw; simpl; [done|]. unfold guard, bind.
  destruct (Hs c p w Hw) as [H1 H2]. destruct (Process s c p w) as [[e|] w1]; [discriminate|]. by apply IH.
Qed.

Lemma process_jobs_accept c events jobs w :
  Forall (fun j => accepting j.2) jobs -> ready w ->
  Forall (fun r => sr_Success r.2 = true) (process_jobs c events jobs w).1 /\
  map fst (process_jobs c events jobs w).1 = map fst jobs /\ ready (process_jobs c events jobs w).2.
Proof.
  revert w. induction jobs as [|[i s] jobs IH]; intros w Hj Hw; simpl; [done|].
  inversion_clear Hj as [|? ? Hs Hj']. unfold processSink, bind, get, ret. simpl in *.
  destruct (deliver_accepts s c events w Hs Hw) as [H1 H2].
  destruct (deliver c s events w) as [err w1]. simpl in *. subst err.
  destruct (IH w1 Hj' H2) as (F & E & R). destruct (process_jobs c events jobs w1) as [rs w2]. simpl in *.
  split_and!; [by constructor | by rewrite E | done].
Qed.

(** When every sink accepts, so does the handler. *)
Lemma handleBatch_accepts par ex sched c sinks events w :
  (forall l, sched l ≡ₚ l) -> Forall accepting sinks -> ready w ->
  (handleBatch par ex sched false c sinks events w).1 = None /\
  ready (handleBatch par ex sched false c sinks events w).2.
Proof.
  intros Hperm Hs Hw. unfold handleBatch. destruct (admit_events ex events) as [|e es]; [done|].
  unfold ProcessBatch, bind. set (jobs := if _ : bool then _ else _).
  assert (Hjobs : jobs ≡ₚ imap pair sinks) by (subst jobs; destruct (par && _); [apply Hperm | done]).
  assert (Hall : Forall (fun j => accepting j.2) jobs).
  { rewrite Hjobs. apply Forall_lookup. intros i [j s] Hi. rewrite list_lookup_imap in Hi.
    destruct (sinks !! i) as [s'|] eqn:Hsi; [|discriminate]. injection Hi as _ <-. simpl.
    by eapply Forall_lookup_1. }
  destruct (process_jobs_accept c (e :: es) jobs w Hall Hw) as (F & E & R).
  destruct (process_jobs c (e :: es) jobs w) as [rs w1]. simpl in *.
  assert (Hb : batch_errors (map (result_at rs) (seq 0 (length sinks))) = []).
  { apply batch_errors_nil, Forall_forall. intros r Hr. apply list_elem_of_fmap in Hr as (i & -> & Hi).
    assert (Hin : i ∈ map fst rs).
    { rewrite E, (Permutation_map fst Hjobs), imap_pair_index. done. }
    apply list_elem_of_fmap in Hin as ([i' r] & -> & Hin). simpl.
    rewrite (result_at_elem rs i' r); [| |done].
    - rewrite Forall_forall in F. exact (F _ Hin).
    - rewrite E, (Permutation_map fst Hjobs), imap_pair_index. apply NoDup_seq. }
  by rewrite Hb.
Qed.

End accepting.

Lemma tagged_accepting {W} (ready : W -> Prop) (s : Sink W) :
  accepting ready s -> accepting (fun w : list (string * call) * W => ready w.2) (tagged s).
Proof.
  intros Hs c events [log w] Hw. simpl in *. destruct (Hs c events w Hw) as [H1 H2].
  by destruct (Process s c events w) as [r w'].
Qed.

(** ** A concrete batch *)
Definition ok_sink (name : string) (limit : Z) : Sink unit :=
  {| Name := name; Initialize := ret None; Process := fun _ _ => ret None; Shutdown := ret None;
     HealthCheck := ret None; batch_limiter := Some limit; router := None |}.

Definition two_sinks : list (Sink unit) := [ok_sink "a" 1; ok_sink "b" 0].
Definition two_events : list CDCEvent := [sample_insert "1"; sample_insert "2"].

Lemma batch_success_means_every_sink_has_it_witness :
  exists log, handleBatch true {[ "audit" ]} (fun l => reverse l) false Background
      (map tagged two_sinks) two_events ([], tt) = (None, (log, tt)) /\
    accepts (ok_sink "a" 1) two_events None (calls_of "a" log).
Proof.
  assert (Hnd : NoDup (map Name two_sinks)) by (apply NoDup_cons; split; [set_solver | apply NoDup_singleton]).
  assert (Hperm : forall l : list (nat * Sink (list (string * call) * unit)), reverse l ≡ₚ l)
    by (intros l; by rewrite reverse_Permutation).
  pose proof (batch_success_means_every_sink_has_it true {[ "audit" ]} (fun l => reverse l) Background
    two_sinks two_events tt Hperm Hnd) as H.
  eexists. split; [vm_compute; reflexivity|].
  exact ((H : forall s, s ∈ two_sinks -> accepts s two_events None (calls_of (Name s) _))
           (ok_sink "a" 1) (list_elem_of_here _ _)).
Defined.
