(* ===== verification/Pipeline.v ===== *)
(** * The stream end to end: PostgreSQL, the WAL reader, the CDC service and the sinks

    The composition of the components the other files model one by one.  A session of
    the reader ([Reader]) runs with the real decoder ([Decoder]) and with the service's
    batch handler ([Service.handleBatch]) in the place of the handler's answers, over a
    world that holds the sinks; a lifetime is a sequence of such sessions, each started
    by the server at a position an earlier one reported, as the reconnect loop of
    wal/reader.go does, with crashes of the process in between.

    - [Section trace]: what a session has decoded so far and how its acknowledgements
      lie in it;
    - [Section composed]: the product of a session and the service, and what every sink
      holds of the handled events;
    - [Section server]: what the server sends, transaction by transaction;
    - [Section lifetime]: the reconnecting gateway. *)

From Stdlib Require Import ZArith Lia Ascii String.
From stdpp Require Import base list gmap strings pretty sorting.
From S2P Require Import Prelude Domain SchemaChange Decoder Reader ReaderLive Service.

Open Scope go_scope.
Set Warnings "-clear-no-such-hyp".
Set Default Proof Using "Type".

(** ** What a session has decoded *)

(** The message a step receives, if any. *)
Definition received_by (l : label) : list BackendMessage :=
  match l with LMain (MReceived raw) => [raw] | _ => [] end.
Definition received_in (ls : list label) : list BackendMessage := concat (map received_by ls).

Definition decoded (rs : list DecodeResult) : list CDCEvent := concat (map Events rs).

Lemma decoded_app a b : decoded (a ++ b) = decoded a ++ decoded b.
Proof. unfold decoded. by rewrite map_app, concat_app. Qed.

Section trace.
Context {DS C : Type}.
Context (decode : DS -> BackendMessage -> outcome DecodeResult * DS).
Context (controller : option (Controller C)).
Context (MaxBatchEvents : Z).

Implicit Types s : session DS C.

(** Decoding the messages of a session up to the first that fails. *)
Fixpoint results (d : DS) (raws : list BackendMessage) : list DecodeResult * DS :=
  match raws with
  | [] => ([], d)
  | m :: rest =>
      match decode d m with
      | (Ok r, d') => let '(rs, d'') := results d' rest in (r :: rs, d'')
      | (_, d') => ([], d')
      end
  end.

Lemma results_snoc d raws m :
  length (results d raws).1 = length raws ->
  results d (raws ++ [m]) =
    match decode (results d raws).2 m with
    | (Ok r, d') => ((results d raws).1 ++ [r], d')
    | (_, d') => ((results d raws).1, d')
    end.
Proof.
  revert d. induction raws as [|m0 raws IH]; intros d Hlen; simpl in *.
  - by destruct (decode d m) as [[r| |] d'].
  - destruct (decode d m0) as [[r0| |] d1]; [|discriminate..].
    destruct (results d1 raws) as [rs d2] eqn:Hr. simpl in *.
    rewrite IH by (rewrite Hr; simpl; lia). rewrite Hr. simpl.
    by destruct (decode d2 m) as [[r| |] d'].
Qed.

Definition is_event (o : op) : bool := match o with OpEvent _ => true | _ => false end.

(** The events of [rs] are those already emitted, in order, and those still to do; an
    acknowledgement still to do is the last result's. *)
Record Progress (rs : list DecodeResult) s : Prop := {
  pg_todo : exists streamed pending rest,
    todo (main s) = map OpEvent pending ++ rest /\ Forall (fun o => is_event o = false) rest /\
    decoded rs = streamed ++ pending /\ streamed `sublist_of` emitted (log s) /\
    forall lsn, OpAck lsn ∈ rest -> exists rs' r, rs = rs' ++ [r] /\ AckLSN r = lsn;
}.

(** An acknowledged position is that of a decoded message, and every event decoded up
    to that message is among those counted before it. *)
Definition Acked (rs : list DecodeResult) (L : Log) : Prop :=
  forall lsn n, (lsn, n) ∈ acks L ->
    (0 < lsn)%Z /\ n <= length (emitted L) /\
    exists k r, rs !! k = Some r /\ AckLSN r = lsn /\
      decoded (take (S k) rs) `sublist_of` take n (emitted L).

Record Traced (d : DS) (raws : list BackendMessage) s : Prop := {
  tr_running : smode s = Running ->
    length (results d raws).1 = length raws /\ decoder (main s) = (results d raws).2 /\
    Progress (results d raws).1 s;
  tr_acks : Acked (results d raws).1 (log s);
}.

(** A step that leaves the messages, the events and the acknowledgements alone. *)
Definition same_view s s' : Prop :=
  todo (main s') = todo (main s) /\ decoder (main s') = decoder (main s) /\
  emitted (log s') = emitted (log s) /\ acks (log s') = acks (log s) /\
  (smode s' = Running -> smode s = Running).

Lemma Acked_same rs L L' :
  emitted L' = emitted L -> acks L' = acks L -> Acked rs L -> Acked rs L'.
Proof. unfold Acked. intros -> ->. done. Qed.

Lemma Traced_same d raws s s' : same_view s s' -> Traced d raws s -> Traced d raws s'.
Proof.
  intros (Ht & Hd & He & Ha & Hm) [Hr Hk]. constructor.
  - intros Hm'. destruct (Hr (Hm Hm')) as (Hlen & Hdec & [Hp]). rewrite Hd. split_and!; [done..|].
    constructor. by rewrite Ht, He.
  - by eapply Acked_same.
Qed.

Lemma Traced_leave d raws s : Traced d raws s -> Traced d raws (leave s).
Proof. intros [_ Hk]. constructor; [discriminate | exact Hk]. Qed.

Lemma Traced_keepalive d raws err s : Traced d raws s -> Traced d raws (keepalive err s).
Proof.
  intros H. assert (Traced d raws (on_log (fun l => set_sent (sent l ++ [clientLSN (shared s)]) l) s))
    as H' by (by apply (Traced_same _ _ s)).
  unfold keepalive. destruct err; [by apply Traced_leave | exact H'].
Qed.

Lemma same_flush s : same_view s (flush s).
Proof. unfold flush. destruct (batch (main s)); done. Qed.

Lemma same_refl_shared f s : same_view s (on_shared f s).
Proof. done. Qed.

Lemma Acked_emit rs L es :
  Acked rs L -> Acked rs (set_emitted (emitted L ++ es) L).
Proof.
  intros H lsn n Hin. destruct (H lsn n Hin) as (Hpos & Hle & k & r & ? & ? & Hs). simpl.
  rewrite length_app. split_and!; [done | lia |]. exists k, r. rewrite take_app_le by done. done.
Qed.

Lemma Acked_more rs r L : Acked rs L -> Acked (rs ++ [r]) L.
Proof.
  intros H lsn n Hin. destruct (H lsn n Hin) as (Hpos & Hle & k & r' & Hk & Ha & Hs). split_and!; [done..|].
  exists k, r'. pose proof (lookup_lt_Some _ _ _ Hk). rewrite lookup_app_l, take_app_le by lia. done.
Qed.

(** What is left to do of a message: its events, and then no event. *)
Lemma message_ops_split r :
  exists rest, message_ops controller r = map OpEvent (Events r) ++ rest /\
    Forall (fun o => is_event o = false) rest /\
    (forall lsn, OpAck lsn ∈ rest -> lsn = AckLSN r).
Proof.
  unfold message_ops. eexists. split; [reflexivity|]. split.
  - repeat (apply Forall_app; split); repeat case_match; repeat constructor.
  - intros lsn. rewrite !elem_of_app. repeat case_match; set_solver.
Qed.

Lemma Traced_received d raws raw s rest :
  Traced d raws s -> smode s = Running -> todo (main s) = OpReceive :: rest ->
  Traced d (raws ++ [raw]) (received decode controller raw (on_main (set_todo rest) s)).
Proof.
  intros [Hr Hk] Hm Ht. destruct (Hr Hm) as (Hlen & Hdec & [(st & pe & re & Htodo & _ & Hev & Hsub & _)]).
  assert (pe = []) as -> by (destruct pe; [done | rewrite Ht in Htodo; discriminate]).
  rewrite app_nil_r in Hev. unfold received. simpl.
  pose proof (results_snoc d raws raw Hlen) as Hs. rewrite <- Hdec in Hs.
  destruct (decode (decoder (main s)) raw) as [[r| |] d'] eqn:Hd.
  2,3: constructor; [discriminate | rewrite Hs; exact Hk].
  constructor; simpl; rewrite Hs; simpl.
  - intros _. rewrite !length_app, Hlen. split_and!; [done..|]. constructor. simpl.
    destruct (message_ops_split r) as (rest' & -> & Hne & Hack).
    exists st, (Events r), rest'. rewrite decoded_app, Hev. unfold decoded. simpl. rewrite app_nil_r.
    split_and!; [done..|]. intros lsn Hin. exists (results d raws).1, r. split; [done|].
    by rewrite (Hack _ Hin).
  - apply Acked_more. by eapply Acked_same; [| |exact Hk].
Qed.

Lemma Traced_take_event d raws e s rest :
  Traced d raws s -> smode s = Running -> todo (main s) = OpEvent e :: rest ->
  Traced d raws (take_event controller MaxBatchEvents e (on_main (set_todo rest) s)).
Proof.
  intros [Hr Hk] Hm Ht. destruct (Hr Hm) as (Hlen & Hdec & [(st & pe & re & Htodo & Hne & Hev & Hsub & Hack)]).
  rewrite Ht in Htodo. destruct pe as [|e' pe].
  { simpl in Htodo. subst re. inversion Hne; discriminate. }
  injection Htodo as <- Htodo.
  set (s0 := on_log (fun l => set_emitted (emitted l ++ [e]) l) (on_main (set_todo rest) s)).
  assert (H0 : Traced d raws s0).
  { constructor; simpl; [|by apply Acked_emit]. intros _. split_and!; [done..|]. constructor. simpl.
    exists (st ++ [e]), pe, re. rewrite Hev, <- app_assoc. split_and!; [done..| |done].
    by apply sublist_app. }
  unfold take_event. set (s2 := on_log _ _).
  assert (H2 : Traced d raws s2) by (apply (Traced_same _ _ s0); [subst s2; destruct controller; done | done]).
  destruct (decide _); [|exact H2]. by apply (Traced_same _ _ s2); [apply same_flush|].
Qed.

Lemma Traced_take_watermark d raws lsn content s rest :
  Traced d raws s -> smode s = Running -> todo (main s) = OpWatermark lsn content :: rest ->
  Traced d raws (take_watermark controller MaxBatchEvents lsn content (on_main (set_todo rest) s)).
Proof.
  intros [Hr Hk] Hm Ht. destruct (Hr Hm) as (Hlen & Hdec & [(st & pe & re & Htodo & Hne & Hev & Hsub & Hack)]).
  rewrite Ht in Htodo. destruct pe as [|e' pe]; [|discriminate]. simpl in Htodo. subst re.
  inversion_clear Hne as [|? ? _ Hne'].
  assert (Hmore : forall es, Progress (results d raws).1
            (on_log (fun l => set_emitted (emitted l ++ es) l) (on_main (set_todo rest) s))).
  { intros es. constructor. simpl. exists st, [], rest. rewrite Hev. split_and!; try done.
    - by apply sublist_inserts_r.
    - intros l Hin. apply Hack. by right. }
  unfold take_watermark. destruct controller as [c|].
  - simpl. destruct (HandleWatermark c lsn content (ctrl (shared s))) as [es c'].
    constructor; simpl.
    + intros _. split_and!; [done..|]. constructor. exact (pg_todo _ _ (Hmore es)).
    + eapply Acked_same; [| |exact (Acked_emit _ _ es Hk)]; done.
  - constructor; simpl; [|done]. intros _. split_and!; [done..|].
    specialize (Hmore []). destruct Hmore as [Hp]. constructor. simpl in *. by rewrite app_nil_r in Hp.
Qed.

Lemma Traced_ops d raws s o rest :
  Traced d raws s -> smode s = Running -> todo (main s) = o :: rest -> is_event o = false ->
  Traced d raws (on_main (set_todo rest) s).
Proof.
  intros [Hr Hk] Hm Ht Ho. destruct (Hr Hm) as (Hlen & Hdec & [(st & pe & re & Htodo & Hne & Hev & Hsub & Hack)]).
  rewrite Ht in Htodo. destruct pe as [|e' pe]; [|injection Htodo as -> _; discriminate]. simpl in Htodo. subst re.
  inversion_clear Hne as [|? ? _ Hne'].
  constructor; [|exact Hk]. intros _. split_and!; [done..|]. constructor. simpl.
  exists st, [], rest. split_and!; try done. intros l Hin. apply Hack. by right.
Qed.

Lemma Traced_ack d raws s lsn rest :
  Traced d raws s -> smode s = Running -> todo (main s) = OpAck lsn :: rest -> (0 < lsn)%Z ->
  Traced d raws (on_log (fun l => set_acks (acks l ++ [(lsn, length (emitted l))]) l)
    (on_main (fun m => set_pendingAck (Z.max (pendingAck m) lsn) m) (on_main (set_todo rest) s))).
Proof.
  intros H Hm Ht Hpos. pose proof (Traced_ops _ _ _ _ _ H Hm Ht eq_refl) as [Hr1 _]. destruct H as [Hr Hk].
  destruct (Hr Hm) as (Hlen & Hdec & [(st & pe & re & Htodo & Hne & Hev & Hsub & Hack)]).
  rewrite Ht in Htodo. destruct pe as [|e' pe]; [|simplify_eq]. simpl in Htodo. subst re.
  rewrite app_nil_r in Hev. constructor; simpl.
  - intros _. destruct (Hr1 Hm) as (? & ? & [Hp]). split_and!; [done..|]. by constructor.
  - intros l n [Hin|[= -> ->]%list_elem_of_singleton]%elem_of_app; [by apply Hk|]. simpl. split_and!; [done..|].
    destruct (Hack lsn ltac:(by left)) as (rs' & r & Hrs & Ha). exists (length rs'), r.
    rewrite Hrs, list_lookup_middle by done. split_and!; [done..|].
    rewrite take_ge by (rewrite length_app; simpl; lia). rewrite <- Hrs, Hev, firstn_all. exact Hsub.
Qed.

Lemma Traced_main_op d raws o rest l s s' :
  Traced d raws s -> smode s = Running -> todo (main s) = o :: rest ->
  main_op decode controller MaxBatchEvents o rest l s = Some s' ->
  Traced d (raws ++ received_by (LMain l)) s'.
Proof.
  intros H Hm Ht. pose proof (Traced_ops _ _ _ _ _ H Hm Ht) as Hops. unfold main_op.
  destruct o, l as [| [| | | |] | | | | | | | |]; intros [= <-];
    cbn [received_by]; rewrite ?app_nil_r; try specialize (Hops eq_refl);
    auto using Traced_leave, Traced_keepalive, Traced_received, Traced_take_event.
  - by eapply Traced_same, Hops; [apply same_flush|..].
  - destruct (decide _); [by eapply Traced_same, Hops | exact Hops].
  - destruct (batch (main s)) eqn:Hb; [by apply Traced_take_watermark|].
    eapply Traced_same, H. destruct (same_flush (on_main (set_todo (OpWatermark lsn content :: rest))
      (on_main (set_todo rest) s))) as (Ht' & ? & ? & ? & ?). repeat split; try done. by rewrite Ht', Ht.
  - destruct (decide _); [by apply Traced_ack | exact Hops].
Qed.

Lemma Traced_sub_step d raws l s s' :
  Traced d raws s -> sub_step l s = Some s' -> Traced d raws s'.
Proof.
  intros H. unfold sub_step. destruct (insub (main s)) as [|[] [|]| | |];
    destruct l as [| [| | | |] | | | | | | | |]; try discriminate;
    try (destruct (failed (shared s)); [|discriminate]); try (destruct (decide _); [|discriminate]);
    intros [= <-]; auto using Traced_leave, Traced_keepalive; by apply (Traced_same _ _ s).
Qed.

Lemma sub_step_receives l s s' : sub_step l s = Some s' -> received_by (LMain l) = [].
Proof.
  unfold sub_step. destruct (insub (main s)) as [|[] [|]| | |];
    destruct l as [| [| | | |] | | | | | | | |]; done.
Qed.

Lemma deliver_same r s s' : deliver_step controller r s = Some s' -> same_view s s'.
Proof.
  unfold deliver_step. destruct (delivering s); repeat case_match; try discriminate; intros [= <-]; done.
Qed.

Lemma Traced_step d raws l s s' :
  Traced d raws s -> step decode controller MaxBatchEvents l s = Some s' ->
  Traced d (raws ++ received_by l) s'.
Proof.
  intros H. destruct l as [l|r]; simpl step.
  2: { intros Hd. cbn [received_by]. rewrite app_nil_r. apply (Traced_same _ _ s); [by apply (deliver_same r) | exact H]. }
  unfold main_step. destruct (smode s) eqn:Hm.
  - destruct (insub (main s)) eqn:Hi.
    2-5: intros Hs; rewrite (sub_step_receives _ _ _ Hs), app_nil_r; by eapply Traced_sub_step.
    destruct (todo (main s)) as [|o rest] eqn:Ht; [|by apply Traced_main_op].
    destruct H as [Hr Hk]. destruct (Hr Hm) as (Hlen & Hdec & [(st & pe & re & Htodo & Hne & Hev & Hsub & Hack)]).
    rewrite Ht in Htodo. destruct pe; [|discriminate]. simpl in Htodo. subst re.
    unfold loop_top. destruct l as [fd kd| [| | | |] | | | | | | | |]; try discriminate;
      try (destruct (failed (shared s)); try discriminate);
      intros [= <-]; cbn [received_by]; rewrite app_nil_r;
      try (apply Traced_leave; constructor; [|exact Hk]; intros _; split_and!; [done..|];
           constructor; exists st, [], []; rewrite Ht; by split_and!).
    constructor; [|exact Hk]. intros _. split_and!; [done..|]. constructor. simpl.
    exists st, [], ((if fd then [OpFlush] else []) ++ OpPending :: (if kd then [OpKeepalive] else []) ++ [OpReceive]).
    split_and!; try done.
    + destruct fd, kd; repeat constructor.
    + intros lsn. destruct fd, kd; set_solver.
  - destruct l, (queue (shared s)); try discriminate; intros [= <-]; cbn [received_by]; rewrite app_nil_r;
      by apply (Traced_same _ _ s).
  - destruct l, (delivering s); try discriminate; intros [= <-]; cbn [received_by]; rewrite app_nil_r.
    by apply (Traced_same _ _ s); [destruct controller|].
  - discriminate.
Qed.

Lemma Traced_initial start d c : Traced d [] (initial controller start d c).
Proof.
  constructor; simpl; [|by intros ? ? []%not_elem_of_nil]. intros _. split_and!; [done..|].
  constructor. exists [], [], []. split_and!; try done. by intros ? []%not_elem_of_nil.
Qed.

Lemma Traced_run d raws ls s s' :
  Traced d raws s -> run decode controller MaxBatchEvents ls s = Some s' ->
  Traced d (raws ++ received_in ls) s'.
Proof.
  revert raws s. induction ls as [|l ls IH]; intros raws s H; simpl.
  - intros [= <-]. by rewrite app_nil_r.
  - destruct (step _ _ _ l s) as [s1|] eqn:Hs; [|discriminate]. intros Hr.
    unfold received_in. simpl. rewrite app_assoc. apply (IH _ s1); [by eapply Traced_step | done].
Qed.

(** Decoding a stream in two parts. *)
Lemma results_app d a b :
  length a <= length (results d (a ++ b)).1 ->
  length (results d a).1 = length a /\
  (results d (a ++ b)).1 = (results d a).1 ++ (results (results d a).2 b).1.
Proof.
  revert d. induction a as [|m a IH]; intros d; simpl; [done|].
  destruct (decode d m) as [[r| |] d1]; simpl; [|lia..].
  specialize (IH d1). destruct (results d1 (a ++ b)) as [rs d2], (results d1 a) as [rs1 d3]. simpl in *.
  intros Hle. destruct (IH ltac:(lia)) as [H1 H2]. rewrite H1, H2. done.
Qed.

Lemma results_prefix d a b k r :
  (results d (a ++ b)).1 !! k = Some r -> k < length a -> (results d a).1 !! k = Some r.
Proof.
  revert d k. induction a as [|m a IH]; intros d k; simpl; [lia|].
  destruct (decode d m) as [[r0| |] d1]; simpl; [|done..].
  specialize (IH d1). destruct (results d1 (a ++ b)) as [rs d2], (results d1 a) as [rs1 d3]. simpl in *.
  intros Hk Hlt. destruct k as [|k]; [done|]. simpl in *. apply IH; [done | lia].
Qed.

Lemma results_length d raws : length (results d raws).1 <= length raws.
Proof.
  revert d. induction raws as [|m raws IH]; intros d; simpl; [lia|].
  destruct (decode d m) as [[r| |] d1]; simpl; [|lia..]. specialize (IH d1).
  destruct (results d1 raws). simpl in *. lia.
Qed.
End trace.

(** ** A session with the service's handler *)

(** A choice of the composed system: an action of the main goroutine, the next action
    of the delivery goroutine, or any change of the world by others (time, the API). *)
Inductive system_label (W : Type) := PMain (l : main_label) | PDeliver | PWorld (f : W -> W).
Arguments PMain {W}. Arguments PDeliver {W}. Arguments PWorld {W}.

Definition system_receives {W} (ls : list (system_label W)) : list BackendMessage :=
  concat (map (fun l => match l with PMain ml => received_by (LMain ml) | _ => [] end) ls).

Section composed.
Context {DS C W : Type} `{!World W}.
Context (decode : DS -> BackendMessage -> outcome DecodeResult * DS).
Context (controller : option (Controller C)).
Context (MaxBatchEvents : Z).
Context (ParallelSinks : bool) (ExcludedTables : gset string).
Context (schedule : list (nat * Sink (list (string * call) * W)) -> list (nat * Sink (list (string * call) * W))).
Context (shutdown_closed : W -> bool) (deliverCtx : Ctx) (sinks : list (Sink W)).

(** The world with the record of every sink's calls. *)
Abbreviation TW := (list (string * call) * W)%type.

(** The handler [service_Start] passes to the reader. *)
Definition handler (events : list CDCEvent) : ST TW (option error) :=
  let! w := get in
  handleBatch ParallelSinks ExcludedTables schedule (shutdown_closed w.2) deliverCtx (map tagged sinks) events.

Record system := { sess : session DS C; world : TW }.

(** What the handler answers where the delivery goroutine calls it. *)
Definition answer (g : gstate) : ST TW (option error) :=
  match g with
  | GHandle d => match events d with [] => ret None | evs => handler evs end
  | _ => ret None
  end.

Definition system_step (l : system_label W) (y : system) : option system :=
  match l with
  | PMain ml =>
      s' ← main_step decode controller MaxBatchEvents ml (sess y);
      Some {| sess := s'; world := world y |}
  | PDeliver =>
      let '(r, w') := answer (delivering (sess y)) (world y) in
      s' ← deliver_step controller r (sess y);
      Some {| sess := s'; world := w' |}
  | PWorld f => Some {| sess := sess y; world := ((world y).1, f (world y).2) |}
  end.

Fixpoint system_run (ls : list (system_label W)) (y : system) : option system :=
  match ls with
  | [] => Some y
  | l :: rest => y' ← system_step l y; system_run rest y'
  end.

(** The composed system's runs project to runs of the session, and keep whatever the
    steps of a session keep. *)
Lemma system_step_session l y y' :
  system_step l y = Some y' ->
  (exists f, l = PWorld f) /\ sess y' = sess y \/
  exists l', step decode controller MaxBatchEvents l' (sess y) = Some (sess y') /\
    received_by l' = match l with PMain ml => received_by (LMain ml) | _ => [] end.
Proof.
  destruct l as [ml| |f]; simpl.
  - destruct (main_step _ _ _ ml (sess y)) as [s'|] eqn:Hs; [|discriminate]. intros [= <-]. right.
    by exists (LMain ml).
  - destruct (answer _ (world y)) as [r w']. destruct (deliver_step controller r (sess y)) as [s'|] eqn:Hs;
      [|discriminate]. intros [= <-]. right. by exists (LDeliver r).
  - intros [= <-]. left. split; [by eexists | done].
Qed.

Lemma system_run_session ls y y' :
  system_run ls y = Some y' ->
  exists ls', run decode controller MaxBatchEvents ls' (sess y) = Some (sess y') /\
    received_in ls' = system_receives ls.
Proof.
  revert y. induction ls as [|l ls IH]; intros y; simpl.
  - intros [= <-]. by exists [].
  - destruct (system_step l y) as [y1|] eqn:Hs; [|discriminate]. simpl. intros Hr.
    destruct (IH _ Hr) as (ls' & Hrun & Hrec). unfold system_receives. simpl.
    destruct (system_step_session _ _ _ Hs) as [[[f ->] He]|(l' & Hl & Hr')].
    + exists ls'. by rewrite He in Hrun.
    + exists (l' :: ls'). simpl. rewrite Hl, Hrun. split; [done|]. unfold received_in in *. simpl.
      by rewrite Hr', Hrec.
Qed.

Hypothesis schedule_permutes : forall l, schedule l ≡ₚ l.
Hypothesis names_distinct : NoDup (map Name sinks).

Definition admitted (evs : list CDCEvent) : list CDCEvent :=
  filter (fun e => isTableExcluded ExcludedTables (Schema e) (Table e) = false) evs.

(** What a sink has accepted, by the record of its calls. *)
Definition holds (sk : Sink W) (w : TW) : list CDCEvent := delivered (calls_of (Name sk) w.1).

(** A batch is accepted by every sink, or fails with a prefix of it accepted by each. *)
Lemma handler_holds evs w r w' :
  handler evs w = (r, w') ->
  forall sk, sk ∈ sinks -> exists got, holds sk w' = holds sk w ++ got /\
    match r with None => got = admitted evs | Some _ => got `prefix_of` admitted evs end.
Proof using schedule_permutes names_distinct.
  destruct w as [book w], w' as [book' w']. unfold handler, bind, get. intros H sk Hsk.
  destruct (handleBatch_tagged _ _ _ _ _ _ _ _ _ _ _ _ schedule_permutes names_distinct H) as (ext & -> & Hr).
  exists (delivered (calls_of (Name sk) ext)). unfold holds. simpl. rewrite calls_of_app, delivered_app.
  split; [done|]. fold (admitted evs) in Hr. destruct r as [e|].
  - destruct Hr as [[Hall _]|[_ ->]]; [|by apply prefix_nil]. destruct (Hall sk Hsk) as ([err|] & [Ha _]).
    + destruct Ha as (pre & p & -> & Hp). rewrite delivered_app. unfold delivered at 2. simpl.
      by rewrite app_nil_r.
    + rewrite Ha. done.
  - by destruct (Hr sk Hsk) as [-> _].
Qed.

(** After a session started where the sinks held [before], each holds that, every
    admitted event handled so far in order, and at most a prefix of the batch that
    failed. *)
Definition Held (w0 : TW) (y : system) : Prop :=
  forall sk, sk ∈ sinks -> exists extra,
    holds sk (world y) = holds sk w0 ++ admitted (handled (log (sess y))) ++ extra /\
    match delivering (sess y) with
    | GExited (Some d) => extra `prefix_of` admitted (events d)
    | _ => extra = []
    end.

Lemma main_step_handled ml (s s' : session DS C) :
  main_step decode controller MaxBatchEvents ml s = Some s' ->
  handled (log s') = handled (log s) /\ delivering s' = delivering s.
Proof using Type.
  unfold main_step, loop_top, sub_step, main_op, received, take_watermark, take_event, keepalive, leave, flush.
  intros H. repeat case_match; simplify_eq; done.
Qed.

Lemma Held_step w0 l y y' : Held w0 y -> system_step l y = Some y' -> Held w0 y'.
Proof using schedule_permutes names_distinct.
  intros Hh. destruct l as [ml| |f]; simpl.
  - destruct (main_step _ _ _ ml (sess y)) as [s'|] eqn:Hs; [|discriminate]. intros [= <-].
    destruct (main_step_handled _ _ _ Hs) as [E1 E2]. unfold Held. simpl. rewrite E1, E2. exact Hh.
  - unfold deliver_step, Held in *. destruct (delivering (sess y)) as [|d|d|d|l| |x] eqn:Hg.
    2: { simpl. destruct (events d) as [|e es] eqn:Hev; simpl.
         { intros [= <-]. exact Hh. }
         rewrite <- Hev. destruct (handler (events d) (world y)) as [[err|] w'] eqn:Hw;
           intros [= <-] sk Hsk; simpl; destruct (handler_holds _ _ _ _ Hw sk Hsk) as (got & -> & Hgot);
           destruct (Hh sk Hsk) as (extra & -> & ->); simpl.
         - exists got. by rewrite app_nil_r, app_assoc.
         - exists []. rewrite Hgot, !app_nil_r, <- app_assoc. unfold admitted. rewrite filter_app. done. }
    { destruct (queue (shared (sess y))); [destruct (smode (sess y))|]; intros [= <-]; exact Hh. }
    { destruct (watermark d), controller; intros [= <-]; exact Hh. }
    { intros [= <-]. simpl. destruct (decide _); [destruct (confirms _ _)|]; exact Hh. }
    { intros [= <-]. exact Hh. }
    { intros [= <-]. exact Hh. }
    discriminate.
  - intros [= <-]. exact Hh.
Qed.

Lemma Held_run w0 ls y y' : Held w0 y -> system_run ls y = Some y' -> Held w0 y'.
Proof using schedule_permutes names_distinct.
  revert y. induction ls as [|l ls IH]; intros y Hh; simpl; [by intros [= <-]|].
  destruct (system_step l y) as [y1|] eqn:Hs; [|discriminate]. simpl. apply IH. by eapply Held_step.
Qed.

(** The system a session starts as. *)
Definition begin_session (start : Z) (d : DS) (c : C) (w : TW) : system :=
  {| sess := initial controller start d c; world := w |}.

Lemma Held_initial start d c w : Held w (begin_session start d c w).
Proof using Type. intros sk _. exists []. by rewrite !app_nil_r. Qed.

(** What the sinks and the environment keep of the world, every run keeps. *)
Definition obeys (environment : W -> W -> Prop) (l : system_label W) : Prop :=
  match l with PWorld f => forall w, environment w (f w) | _ => True end.

Lemma system_run_keeps (I : TW -> Prop) environment ls y y' :
  Forall (keeps I) (map tagged sinks) ->
  (forall book w w', environment w w' -> I (book, w) -> I (book, w')) ->
  Forall (obeys environment) ls -> system_run ls y = Some y' -> I (world y) -> I (world y').
Proof using schedule_permutes.
  intros Hs He Hls. revert y. induction Hls as [|l ls Hl Hls IH]; intros y; simpl; [by intros [= <-]|].
  destruct (system_step l y) as [y1|] eqn:Hst; [|discriminate]. simpl. intros Hr Hi. apply (IH y1 Hr).
  destruct l as [ml| |f]; simpl in Hst.
  - destruct (main_step _ _ _ ml (sess y)); [|discriminate]. by injection Hst as <-.
  - assert (Ha : I (answer (delivering (sess y)) (world y)).2).
    { destruct (delivering (sess y)) as [|d| | | | |]; try done. simpl. destruct (events d); [done|].
      unfold handler, bind, get. by apply handleBatch_keeps. }
    destruct (answer _ (world y)) as [r w']. destruct (deliver_step controller r (sess y)); [|discriminate].
    by injection Hst as <-.
  - injection Hst as <-. simpl. destruct (world y) as [book w]. by apply (He book w).
Qed.

(** *** Catching up *)
Context (ready : W -> Prop).
Hypothesis ready_open : forall w, ready w -> shutdown_closed w = false.
Hypothesis sinks_accept : Forall (accepting ready) sinks.

Lemma answer_accepts g w : ready w.2 -> (answer g w).1 = None /\ ready (answer g w).2.2.
Proof using schedule_permutes ready_open sinks_accept.
  intros Hw. destruct g as [|d| | | | |]; try done. simpl. destruct (events d) as [|e es]; [done|].
  unfold handler, bind, get. rewrite (ready_open _ Hw).
  apply (handleBatch_accepts (fun w : TW => ready w.2)); [done | | done].
  apply Forall_map. eapply Forall_impl; [exact sinks_accept|]. intros s. apply tagged_accepting.
Qed.

(** A smooth stretch of the session is one of the composed system. *)
Lemma smooth_lifts ls s' y :
  Forall smooth ls -> run decode controller MaxBatchEvents ls (sess y) = Some s' -> ready (world y).2 ->
  exists ls' y', system_run ls' y = Some y' /\ sess y' = s' /\ system_receives ls' = [].
Proof using schedule_permutes ready_open sinks_accept.
  revert y. induction ls as [|l ls IH]; intros y; simpl.
  - intros _ [= <-] _. by exists [], y.
  - inversion_clear 1 as [|? ? Hl Hls]. destruct (step _ _ _ l (sess y)) as [s1|] eqn:Hs; [|discriminate].
    intros Hr Hw. destruct l as [ml|r]; simpl in Hs, Hl.
    + destruct (IH {| sess := s1; world := world y |} Hls Hr Hw) as (ls' & y' & Hrun & He & Hrec).
      exists (PMain ml :: ls'), y'. simpl. rewrite Hs. split_and!; [done..|]. unfold system_receives in *.
      cbn [map concat]. rewrite Hrec, app_nil_r. by destruct ml.
    + subst r. destruct (answer_accepts (delivering (sess y)) (world y) Hw) as [H1 H2].
      destruct (IH {| sess := s1; world := (answer (delivering (sess y)) (world y)).2 |} Hls Hr H2)
        as (ls' & y' & Hrun & He & Hrec).
      exists (PDeliver :: ls'), y'. simpl. destruct (answer _ (world y)) as [r w']. simpl in H1, Hrun. subst r.
      rewrite Hs. by split_and!.
Qed.

(** C10: The whole gateway catches up.  From any state of a running session that is
    between two messages and has met no failure, when no further message arrives and
    the sinks accept what they are given, some run of the two goroutines ends with
    every sink holding exactly what it held when the session began and then every
    admitted event decoded since (with the rows of backfill chunks), in order, and
    with a reported position that covers every acknowledged one. *)
Theorem accepting_sinks_catch_up start d c w0 ls y :
  system_run ls (begin_session start d c w0) = Some y ->
  between [] (sess y) -> ready (world y).2 ->
  exists ls' y', system_run ls' y = Some y' /\ system_receives ls' = [] /\ between [] (sess y') /\
    (forall sk, sk ∈ sinks ->
       holds sk (world y') = holds sk w0 ++ admitted (emitted (log (sess y)))) /\
    exists p, list.last (sent (log (sess y'))) = Some p /\
      forall lsn n, (lsn, n) ∈ acks (log (sess y)) -> (lsn <= p)%Z.
Proof using schedule_permutes names_distinct ready_open sinks_accept.
  intros Hrun Hb Hw. destruct (system_run_session _ _ _ Hrun) as (ls0 & Hsess & _).
  destruct (reachable_live decode controller MaxBatchEvents start d c _ (ex_intro _ ls0 Hsess)) as [Hl HI].
  destruct (catches_up decode controller MaxBatchEvents start _ Hl HI Hb)
    as (s' & [(ls1 & Hsm & Hr1) Hm Hf He Ha] & Hb' & Hh & Hc & Hlast).
  destruct (smooth_lifts _ _ _ Hsm Hr1 Hw) as (ls' & y' & Hrun' & <- & Hrec).
  exists ls', y'. split_and!; [done..| |].
  - intros sk Hsk.
    assert (Hheld : Held w0 y')
      by (eapply Held_run, Hrun'; eapply Held_run, Hrun; apply Held_initial).
    destruct (Hheld sk Hsk) as (extra & -> & Hx). rewrite Hh, He.
    destruct (stretch_live decode controller MaxBatchEvents start (sess y) (sess y')) as [Hl' _];
      [by constructor; eauto | done|].
    pose proof (lv_exit _ Hl' (proj1 Hb') (proj1 (proj2 Hb'))) as Hne.
    destruct (delivering (sess y')) as [| | | | | |[dd|]]; subst; rewrite ?app_nil_r; try done.
    by destruct (Hne (Some dd)).
  - eexists. split; [exact Hlast|]. intros lsn n Hin. apply Hc. rewrite Ha. apply list_elem_of_fmap. by exists (lsn, n).
Qed.
End composed.

(** ** What the server sends *)

(** A committed transaction: the end of its commit record, and its row changes with
    their positions. *)
Record Txn := { t_end : Z; t_changes : list (Z * Message) }.

(** The row changes of a message, and the events they stand for: identifier and kind,
    one per row, and one per table of a TRUNCATE. *)
Definition row_change (m : Message) : bool :=
  match m with
  | InsertMessageV2 _ _ | UpdateMessageV2 _ _ _ | DeleteMessageV2 _ _ | TruncateMessageV2 _ => true
  | _ => false
  end.

Section server.
Context (LSN_String : Z -> string).
Context (TypeForOID : Z -> option (string * (string -> res any))).
Context (ParsePrimaryKeepaliveMessage : string -> res PrimaryKeepaliveMessage).
Context (ParseXLogData : string -> res XLogData).
Context (ParseV2 : string -> res Message).

Abbreviation decode := (Decode LSN_String TypeForOID ParsePrimaryKeepaliveMessage ParseXLogData ParseV2).
Abbreviation parse := (parsed ParseXLogData ParseV2).

Definition marks_of (c : Z * Message) : list (string * Operation) :=
  let '(lsn, m) := c in
  match m with
  | InsertMessageV2 _ _ => [(LSN_String lsn, OperationInsert)]
  | UpdateMessageV2 _ _ _ => [(LSN_String lsn, OperationUpdate)]
  | DeleteMessageV2 _ _ => [(LSN_String lsn, OperationDelete)]
  | TruncateMessageV2 ids =>
      imap (fun i _ => ((LSN_String lsn +:+ "-" +:+ pretty i)%string, OperationTruncate)) ids
  | _ => []
  end.
Definition marks (t : Txn) : list (string * Operation) := concat (map marks_of (t_changes t)).
Definition mark (e : CDCEvent) : string * Operation := (ID e, Op e).

(** The row change a raw message carries, if any, with its position. *)
Definition change_of (m : BackendMessage) : option (Z * Message) :=
  match m, parse m with
  | CopyData (String _ data), Some msg =>
      if row_change msg then
        match ParseXLogData data with inl xld => Some (xld_WALStart xld, msg) | inr _ => None end
      else None
  | _, _ => None
  end.

Definition is_begin (m : BackendMessage) : Prop := exists l t x, parse m = Some (BeginMessage l t x).
Definition is_commit (m : BackendMessage) (lsn : Z) : Prop := parse m = Some (CommitMessage lsn).
Definition inside (m : BackendMessage) : Prop := ~ is_begin m /\ forall lsn, ~ is_commit m lsn.

(** The server's WAL position a keepalive carries. *)
Definition keepalive_end (m : BackendMessage) : option Z :=
  match m with
  | CopyData (String b data) =>
      if decide (b = PrimaryKeepaliveMessageByteID) then
        match ParsePrimaryKeepaliveMessage data with inl k => Some (pkm_ServerWALEnd k) | inr _ => None end
      else None
  | _ => None
  end.

(** The messages of a transaction: Begin, its changes in order among descriptions of
    relations, logical messages and keepalives, and Commit with its end. *)
Definition carries (t : Txn) (ms : list BackendMessage) : Prop :=
  exists b body c, ms = b :: body ++ [c] /\ is_begin b /\ is_commit c (t_end t) /\
    Forall inside body /\ omap change_of body = t_changes t.

(** What the server sends from a position whose later transactions are [ts]: whole
    transactions in commit order, the last one perhaps cut, and in between messages
    that carry no change; a keepalive's position is before the end of every
    transaction not yet sent. *)
Inductive serves : list Txn -> list BackendMessage -> Prop :=
  | serves_nothing ts : serves ts []
  | serves_idle m ts ms :
      inside m -> change_of m = None ->
      (forall p, keepalive_end m = Some p -> Forall (fun t => p < t_end t)%Z ts) ->
      serves ts ms -> serves ts (m :: ms)
  | serves_txn t ts tms ms : carries t tms -> serves ts ms -> serves (t :: ts) (tms ++ ms)
  | serves_cut t ts tms ms : carries t tms -> ms `prefix_of` tms -> serves (t :: ts) ms.

(** The order in which transactions committed. *)
Definition before (t t' : Txn) : Prop := (t_end t < t_end t')%Z.

Lemma results_decode_all d raws :
  results decode d raws
    = decode_all LSN_String TypeForOID ParsePrimaryKeepaliveMessage ParseXLogData ParseV2 d raws.
Proof.
  revert d. induction raws as [|m raws IH]; intros d; [done|]. cbn [results decode_all].
  destruct (decode d m) as [[r| |] d1]; [|done..]. by rewrite IH.
Qed.

Lemma truncate_marks d lsn i ids evs :
  truncate_loop LSN_String d lsn i ids = Ok evs ->
  map mark evs =
    imap (fun j _ => ((LSN_String lsn +:+ "-" +:+ pretty (i + j))%string, OperationTruncate)) ids.
Proof.
  revert i evs. induction ids as [|id ids IH]; intros i evs; simpl; [by intros [= <-]|].
  unfold obind. destruct (relation d id) as [rel| |]; [|discriminate..].
  destruct (truncate_loop LSN_String d lsn (S i) ids) as [evs1| |] eqn:Hl; [|discriminate..].
  intros [= <-]. cbn [map]. rewrite (IH _ _ Hl), Nat.add_0_r. f_equal. apply imap_ext.
  intros j x _. simpl. by rewrite Nat.add_succ_r.
Qed.

Lemma decodeMessage_marks d msg lsn r d' :
  decodeMessage LSN_String TypeForOID d msg lsn = (Ok r, d') ->
  map mark (Events r) = marks_of (lsn, msg).
Proof.
  unfold marks_of.
  destruct msg as [| | | | | |ids| | |]; simpl; intros [= Hr Hd]; unfold obind in *; subst;
    try done; try (repeat case_match; simplify_eq; done).
  destruct (truncate_loop LSN_String d' lsn 0 ids) as [evs| |] eqn:Hl; [|discriminate..].
  injection Hr as <-. simpl. by rewrite (truncate_marks _ _ _ _ _ Hl).
Qed.

(** The events of a message are those its row change stands for. *)
Lemma Decode_marks d m r d' :
  decode d m = (Ok r, d') -> map mark (Events r) = from_option marks_of [] (change_of m).
Proof.
  destruct m as [[|b data]|]; simpl; [discriminate | | by intros [= <- _]].
  unfold parsed. destruct (decide (b = PrimaryKeepaliveMessageByteID)) as [->|].
  - rewrite decide_False by discriminate. destruct (ParsePrimaryKeepaliveMessage data); [|discriminate].
    by intros [= <- _].
  - destruct (decide (b = XLogDataByteID)); [|by intros [= <- _]].
    destruct (ParseXLogData data) as [xld|]; [|discriminate]. unfold decodeWALData.
    destruct (ParseV2 (xld_WALData xld)) as [msg|]; [|intros [=]].
    destruct (decodeMessage _ _ d msg _) as [[r1| |] d1] eqn:Hm; intros [= <- _]. simpl.
    rewrite (decodeMessage_marks _ _ _ _ _ Hm). by destruct msg.
Qed.

Lemma results_marks d ms :
  length (results decode d ms).1 = length ms ->
  map mark (decoded (results decode d ms).1) = concat (map marks_of (omap change_of ms)).
Proof.
  revert d. induction ms as [|m ms IH]; intros d; [done|]. cbn [results].
  destruct (decode d m) as [[r| |] d1] eqn:Hd; [|discriminate..].
  specialize (IH d1). destruct (results decode d1 ms) as [rs d2]. simpl in *. intros [= Hlen].
  unfold decoded in *. simpl. rewrite map_app, IH by done. rewrite (Decode_marks _ _ _ _ Hd).
  by destruct (change_of m).
Qed.

Lemma carries_marks t ms d :
  carries t ms -> length (results decode d ms).1 = length ms ->
  map mark (decoded (results decode d ms).1) = marks t.
Proof.
  intros (b & body & c & -> & (l & ti & x & Hb) & Hc & _ & Hch) Hlen.
  rewrite results_marks by done. unfold marks. rewrite <- Hch.
  assert (change_of b = None) as Eb.
  { unfold change_of. destruct b as [[|? ?]|]; [done | by rewrite Hb | done]. }
  assert (change_of c = None) as Ec.
  { unfold change_of. unfold is_commit in Hc. destruct c as [[|? ?]|]; [done | by rewrite Hc | done]. }
  cbn [omap list_omap]. rewrite Eb, omap_app. cbn [omap list_omap]. by rewrite Ec, app_nil_r.
Qed.

Lemma inside_opens m o : inside m -> opens ParseXLogData ParseV2 o m = o.
Proof.
  intros [Hb Hc]. unfold opens, is_begin, is_commit in *. destruct (parse m) as [[]|] eqn:E; try done.
  - exfalso. eauto.
  - exfalso. by eapply Hc.
Qed.

Lemma Decode_commit d m r d' lsn :
  is_commit m lsn -> decode d m = (Ok r, d') -> AckLSN r = lsn.
Proof.
  unfold is_commit, parsed. destruct m as [[|b data]|]; simpl; try discriminate.
  destruct (decide (b = XLogDataByteID)) as [->|]; [|discriminate]. rewrite decide_False by discriminate.
  destruct (ParseXLogData data) as [xld|]; [|discriminate]. unfold decodeWALData.
  destruct (ParseV2 (xld_WALData xld)) as [msg|]; [|discriminate]. intros [= ->]. simpl. by intros [= <- _].
Qed.

(** A message that opens and closes no transaction acknowledges its keepalive
    position or nothing. *)
Lemma Decode_inside_ack d m r d' :
  inside m -> decode d m = (Ok r, d') -> AckLSN r <> 0%Z -> keepalive_end m = Some (AckLSN r).
Proof.
  intros Hin Hd Ha. revert Hd. destruct m as [[|b data]|]; simpl; [discriminate | | by intros [= <- _]].
  destruct (decide (b = PrimaryKeepaliveMessageByteID)).
  - destruct (ParsePrimaryKeepaliveMessage data); [|discriminate]. intros [= <- _]. simpl in *.
    by destruct (inTxn (txn d)).
  - destruct (decide (b = XLogDataByteID)) as [->|]; [|by intros [= <- _]]. unfold decodeWALData.
    destruct (ParseXLogData data) as [xld|] eqn:Hx; [|discriminate].
    destruct (ParseV2 (xld_WALData xld)) as [msg|] eqn:Hv; [|intros [=]].
    destruct (decodeMessage _ _ d msg _) as [[r1| |] d1] eqn:Hm; intros [= <- _]. simpl in *.
    destruct (decodeMessage_ack _ _ _ _ _ _ _ Hm Ha) as [_ [l ->]].
    exfalso. apply (proj2 Hin l). unfold is_commit, parsed. rewrite decide_True by done. by rewrite Hx, Hv.
Qed.

(** Within a transaction's messages only the Commit acknowledges, and its end. *)
Lemma carries_acks t tms ms d k r :
  carries t tms -> ms `prefix_of` tms -> (results decode d ms).1 !! k = Some r -> AckLSN r <> 0%Z ->
  ms = tms /\ S k = length tms /\ AckLSN r = t_end t.
Proof.
  intros (b & body & c & -> & Hb & Hc & Hbody & _) [post Hpre] Hk Ha. rewrite results_decode_all in Hk.
  destruct (decode_all _ _ _ _ _ d ms) as [rs d'] eqn:Hr. simpl in Hk.
  destruct (decode_all_lookup _ _ _ _ _ (fun d => inTxn (txn d)) (opens ParseXLogData ParseV2)
              _ _ _ _ _ _ (Decode_inTxn _ _ _ _ _) Hr Hk) as (m & d1 & d2 & Hm & Hd & Hopen).
  destruct (Decode_ack _ _ _ _ _ _ _ _ _ Hd Ha) as [_ Hout].
  pose proof (Decode_inTxn _ _ _ _ _ _ _ _ _ Hd) as Hin. rewrite Hout, Hopen in Hin. clear Hout Hopen.
  pose proof (lookup_lt_Some _ _ _ Hm) as Hlt.
  assert (Hm' : (b :: body ++ [c]) !! k = Some m) by (by rewrite Hpre, lookup_app_l).
  assert (Htake : take k ms = take k (b :: body ++ [c])) by (rewrite Hpre, take_app_le by lia; done).
  rewrite Htake in Hin. destruct k as [|k].
  { simpl in *. injection Hm' as <-. destruct Hb as (l & ti & x & Hb). unfold opens in Hin. by rewrite Hb in Hin. }
  simpl in Hm', Hin. assert (Hopens : opens ParseXLogData ParseV2 (inTxn (txn d)) b = true).
  { destruct Hb as (l & ti & x & Hb). unfold opens. by rewrite Hb. }
  rewrite Hopens in Hin. clear Hopens.
  assert (Hfold : forall l, Forall inside l -> foldl (opens ParseXLogData ParseV2) true l = true).
  { induction l as [|a l IH]; [done|]. inversion 1; subst. simpl. rewrite inside_opens; auto. }
  destruct (decide (k < length body)) as [Hkl|Hkl].
  { exfalso. rewrite lookup_app_l in Hm' by done. rewrite take_app_le, Hfold in Hin by (by try lia; apply Forall_take).
    rewrite inside_opens in Hin; [done|]. by eapply Forall_lookup_1. }
  assert (k = length body) as ->.
  { apply lookup_lt_Some in Hm'. rewrite length_app in Hm'. simpl in Hm'. lia. }
  rewrite list_lookup_middle in Hm' by done. injection Hm' as <-.
  assert (post = []) as ->.
  { apply (f_equal length) in Hpre. rewrite length_app in Hpre. simpl in Hpre. rewrite length_app in Hpre.
    simpl in Hpre. destruct post; [done|]. simpl in Hpre. lia. }
  rewrite app_nil_r in Hpre. subst ms. split_and!; [done | simpl; rewrite length_app; simpl; lia |].
  by eapply Decode_commit.
Qed.

(** Where an acknowledgement is decoded, every transaction up to it has been received
    whole. *)
Definition received_whole (t : Txn) (raws : list BackendMessage) (k : nat) : Prop :=
  exists pre ms post, raws = pre ++ ms ++ post /\ carries t ms /\ length (pre ++ ms) <= k.

Lemma received_whole_app t a raws k :
  received_whole t raws k -> received_whole t (a ++ raws) (length a + k).
Proof.
  intros (pre & ms & post & -> & Hc & Hle). exists (a ++ pre), ms, post.
  rewrite <- !app_assoc. rewrite !length_app in *. split_and!; [done.. | lia].
Qed.

Lemma acks_cover ts raws d k r t :
  serves ts raws -> StronglySorted before ts ->
  (results decode d raws).1 !! k = Some r -> AckLSN r <> 0%Z ->
  t ∈ ts -> (t_end t <= AckLSN r)%Z -> received_whole t raws (S k).
Proof.
  intros Hs. revert d k. induction Hs as [ts|m ts ms Hin Hch Hka Hs IH|t0 ts tms ms Hc Hs IH|t0 ts tms ms Hc Hp];
    intros d k Hsort Hk Ha Ht Hle.
  - simpl in Hk. by rewrite lookup_nil in Hk.
  - cbn [results] in Hk. destruct (decode d m) as [[r1| |] d1] eqn:Hd; [|simpl in Hk; by rewrite lookup_nil in Hk..].
    specialize (IH d1). destruct (results decode d1 ms) as [rs d2]. simpl in *.
    destruct k as [|k]; simpl in Hk.
    + injection Hk as ->. pose proof (Decode_inside_ack _ _ _ _ Hin Hd Ha) as Hkeep.
      specialize (Hka _ Hkeep). rewrite Forall_forall in Hka. specialize (Hka _ Ht). lia.
    + apply (received_whole_app t [m] ms (S k)). by apply IH.
  - inversion_clear Hsort as [|? ? Hsort' Hall].
    assert (Hwhole : forall j, length tms <= j -> received_whole t0 (tms ++ ms) j).
    { intros j Hj. by exists [], tms, ms. }
    destruct (decide (length tms <= k)) as [Hlk|Hlk].
    + pose proof (lookup_lt_Some _ _ _ Hk) as Hlt.
      destruct (results_app decode d tms ms ltac:(lia)) as [Hlen Happ]. rewrite Happ in Hk.
      rewrite lookup_app_r in Hk by lia. apply elem_of_cons in Ht as [->|Ht]; [apply Hwhole; lia|].
      replace (S k) with (length tms + S (k - length tms)) by lia. apply received_whole_app.
      apply (IH (results decode d tms).2); [done | by rewrite <- Hlen | done..].
    + assert (Hk' : (results decode d tms).1 !! k = Some r) by (apply (results_prefix decode d tms ms); [done | lia]).
      destruct (carries_acks _ _ _ _ _ _ Hc (reflexivity _) Hk' Ha) as (_ & Hlast & Hend).
      apply elem_of_cons in Ht as [->|Ht]; [apply Hwhole; lia|].
      rewrite Forall_forall in Hall. specialize (Hall _ Ht). unfold before in Hall. lia.
  - destruct (carries_acks _ _ _ _ _ _ Hc Hp Hk Ha) as (-> & Hlast & Hend).
    inversion_clear Hsort as [|? ? Hsort' Hall].
    apply elem_of_cons in Ht as [->|Ht]; [exists [], tms, []; rewrite app_nil_r; split_and!; [done.. | simpl; lia]|].
    rewrite Forall_forall in Hall. specialize (Hall _ Ht). unfold before in Hall. lia.
Qed.
End server.

Lemma ordered_filter (P : Txn -> Prop) `{!forall t, Decision (P t)} l :
  StronglySorted before l -> StronglySorted before (filter P l).
Proof.
  induction 1 as [|t l Hs IH Hall]; [constructor|].
  rewrite filter_cons. destruct (decide _); [|done]. constructor; [done|].
  rewrite Forall_forall in *. intros x [_ Hx]%list_elem_of_filter. by apply Hall.
Qed.

(** ** The reconnecting gateway *)
Section lifetime.
Context (LSN_String : Z -> string).
Context (TypeForOID : Z -> option (string * (string -> res any))).
Context (ParsePrimaryKeepaliveMessage : string -> res PrimaryKeepaliveMessage).
Context (ParseXLogData : string -> res XLogData).
Context (ParseV2 : string -> res Message).
Context {C W : Type} `{!World W} (controller : option (Controller C)) (MaxBatchEvents : Z).
Context (ParallelSinks : bool) (ExcludedTables : gset string).
Context (schedule : list (nat * Sink (list (string * call) * W)) -> list (nat * Sink (list (string * call) * W))).
Context (shutdown_closed : W -> bool) (deliverCtx : Ctx) (sinks : list (Sink W)).
(** The transactions of the server's log, in commit order. *)
Context (environment : W -> W -> Prop) (WAL : list Txn).

Abbreviation decode := (Decode LSN_String TypeForOID ParsePrimaryKeepaliveMessage ParseXLogData ParseV2).
Abbreviation TW := (list (string * call) * W)%type.
Abbreviation sys_run := (system_run decode controller MaxBatchEvents ParallelSinks ExcludedTables schedule
                           shutdown_closed deliverCtx sinks).

(** The transactions after a position. *)
Definition after (pos : Z) : list Txn := filter (fun t => pos < t_end t)%Z WAL.

(** The lifetime of a gateway from the slot's position [pos0]: the slot's confirmed
    position, the decoder's and the controller's state and the world, after any number
    of sessions.  A session starts at the confirmed position, receives what the server
    sends from there, and may be cut at any point; the server then has confirmed the
    position it started from or one the session reported.  Between sessions the
    process may restart, losing everything but what the sinks hold.  What others do
    to the world meanwhile, and a restart, is any change [environment] allows. *)
Inductive lifetime (pos0 : Z) (w0 : TW) : Z -> Decoder -> C -> TW -> Prop :=
  | life_begins d c : lifetime pos0 w0 pos0 d c w0
  | life_session pos d c w ls y pos' :
      lifetime pos0 w0 pos d c w ->
      sys_run ls (begin_session controller pos d c w) = Some y ->
      serves ParsePrimaryKeepaliveMessage ParseXLogData ParseV2 (after pos) (system_receives ls) ->
      Forall (obeys environment) ls ->
      pos' ∈ pos :: sent (log (sess y)) ->
      lifetime pos0 w0 pos' (decoder (main (sess y))) (ctrl (shared (sess y))) (world y)
  | life_restart pos d c w d' c' w' :
      lifetime pos0 w0 pos d c w -> environment w.2 w' -> lifetime pos0 w0 pos d' c' (w.1, w').

(** A sink has accepted a transaction: some session decoded the transaction's messages
    into one event per changed row, and the sink accepted, in order, those of the
    tables that are not excluded. *)
Definition accepted (t : Txn) (sk : Sink W) (w : TW) : Prop :=
  exists evs, map mark evs = marks LSN_String t /\
    (exists d ms, carries ParseXLogData ParseV2 t ms /\ evs = decoded (results decode d ms).1) /\
    admitted ExcludedTables evs `sublist_of` holds sk w.

Hypothesis schedule_permutes : forall l, schedule l ≡ₚ l.
Hypothesis names_distinct : NoDup (map Name sinks).
Hypothesis WAL_ordered : StronglySorted before WAL.

Lemma after_ordered pos : StronglySorted before (after pos).
Proof using WAL_ordered. by apply ordered_filter. Qed.

Lemma accepted_mono t sk w w' :
  accepted t sk w -> holds sk w `prefix_of` holds sk w' -> accepted t sk w'.
Proof using Type.
  intros (evs & Hm & Hd & Hs) [rest Hw]. exists evs. split_and!; [done..|].
  rewrite Hw. by apply sublist_inserts_r.
Qed.

Lemma session_grows ls pos d c w y sk :
  sys_run ls (begin_session controller pos d c w) = Some y -> sk ∈ sinks ->
  holds sk w `prefix_of` holds sk (world y) /\
  admitted ExcludedTables (handled (log (sess y))) `sublist_of` holds sk (world y).
Proof using schedule_permutes names_distinct.
  intros Hr Hsk.
  destruct (Held_run _ _ _ _ _ _ _ _ _ schedule_permutes names_distinct _ _ _ _
              (Held_initial _ _ _ pos d c w) Hr sk Hsk) as (extra & -> & _).
  split; [by eexists|]. apply sublist_inserts_l. by apply sublist_inserts_r.
Qed.

Lemma admitted_sublist a b : a `sublist_of` b -> admitted ExcludedTables a `sublist_of` admitted ExcludedTables b.
Proof using Type.
  unfold admitted. induction 1 as [|x l1 l2 H IH|x l1 l2 H IH]; [constructor|..];
    rewrite ?(filter_cons _ x); destruct (decide _); by try constructor.
Qed.

(** Everything of the transactions up to a reported position was accepted by every
    sink during the session. *)
Lemma session_delivers ls pos d c w y pos' t sk :
  sys_run ls (begin_session controller pos d c w) = Some y ->
  serves ParsePrimaryKeepaliveMessage ParseXLogData ParseV2 (after pos) (system_receives ls) ->
  pos' ∈ sent (log (sess y)) -> t ∈ WAL -> (pos < t_end t <= pos')%Z -> sk ∈ sinks ->
  accepted t sk (world y).
Proof using schedule_permutes names_distinct WAL_ordered.
  intros Hr Hserves Hsent Ht Hpos Hsk. destruct (session_grows _ _ _ _ _ _ _ Hr Hsk) as [_ Hholds].
  destruct (system_run_session _ _ _ _ _ _ _ _ _ _ _ _ Hr) as (ls' & Hrun & Hrec). simpl in Hrun.
  pose proof (inv_run decode controller MaxBatchEvents pos _ _ _ (inv_initial controller pos d c) Hrun) as HI.
  destruct (inv_sent _ _ HI _ Hsent) as [->|(n & Hn & Hle & Heq)]; [lia|].
  destruct (Traced_run decode controller MaxBatchEvents d [] _ _ _ (Traced_initial _ _ pos d c) Hrun)
    as [_ Hacked]. simpl in Hacked. rewrite Hrec in Hacked.
  destruct (Hacked _ _ Hn) as (Hp & _ & k & r & Hk & Ha & Hsub).
  assert (Hin : t ∈ after pos) by (apply list_elem_of_filter; split; [lia | done]).
  destruct (acks_cover _ _ _ _ _ _ _ d k r t Hserves (after_ordered pos) Hk ltac:(lia) Hin ltac:(lia))
    as (pre & ms & post & Hraws & Hc & Hlen). rewrite Hraws in Hk, Hsub.
  pose proof (lookup_lt_Some _ _ _ Hk) as Hlt. rewrite app_assoc in Hk, Hsub, Hlt.
  destruct (results_app decode d (pre ++ ms) post ltac:(lia)) as [Hl1 Happ].
  destruct (results_app decode d pre ms ltac:(rewrite Hl1, length_app; lia)) as [Hl2 Happ'].
  exists (decoded (results decode (results decode d pre).2 ms).1). split_and!.
  - apply carries_marks; [done|]. apply (f_equal length) in Happ'. rewrite !length_app, Hl1, length_app in Happ'. lia.
  - eauto.
  - etrans; [|exact Hholds]. apply admitted_sublist. rewrite <- Heq in Hsub.
    etrans; [|apply sublist_take]. etrans; [|exact Hsub]. rewrite Happ, Happ'.
    rewrite take_app_ge by (rewrite <- Happ', Hl1; lia). rewrite !decoded_app.
    apply sublist_inserts_r. by apply sublist_inserts_l.
Qed.

Lemma lifetime_accepts pos0 w0 pos d c w t sk :
  lifetime pos0 w0 pos d c w -> t ∈ WAL -> (pos0 < t_end t <= pos)%Z -> sk ∈ sinks ->
  accepted t sk w.
Proof using schedule_permutes names_distinct WAL_ordered.
  intros Hlife Ht Hpos Hsk.
  induction Hlife as [d c|pos d c w ls y pos' Hl IH Hr Hserves Hob Hin|pos d c w d' c' w' Hl IH He].
  - lia.
  - destruct (decide (t_end t <= pos)%Z) as [Hle|Hgt].
    + eapply accepted_mono; [apply IH; lia|]. by eapply session_grows.
    + apply elem_of_cons in Hin as [->|Hin]; [lia|]. eapply session_delivers; [exact Hr | exact Hserves | exact Hin | done | lia | done].
  - eapply accepted_mono; [by apply IH | done].
Qed.

(** What the sinks and the environment keep of the world lasts. *)
Lemma lifetime_keeps (I : TW -> Prop) pos0 w0 pos d c w :
  Forall (keeps I) (map tagged sinks) ->
  (forall book w w', environment w w' -> I (book, w) -> I (book, w')) ->
  lifetime pos0 w0 pos d c w -> I w0 -> I w.
Proof using schedule_permutes.
  intros Hs He Hlife Hi.
  induction Hlife as [d c|pos d c w ls y pos' Hl IH Hr Hserves Hob Hin|pos d c w d' c' w' Hl IH Hw]; [done| |].
  - eapply (system_run_keeps _ _ _ _ _ _ _ _ _ schedule_permutes I environment); [done.. | exact Hr | exact IH].
  - destruct w as [book w]. by apply (He book w).
Qed.

(** C3: No committed change is lost.  However often the stream breaks or the process
    restarts, whatever the sinks answer and in whatever order the goroutines run: every
    transaction of the server's log that ended after the position the slot started
    from and up to the position the server now holds as confirmed has been accepted by
    every sink, as one event per changed row, in order, less the excluded tables.  What
    is used of PostgreSQL is that it sends the transactions after the start position
    whole and in commit order, and that a keepalive sent between transactions does
    not name a position beyond a transaction still to be sent. *)
Theorem no_committed_change_is_lost pos0 w0 pos d c w t sk :
  lifetime pos0 w0 pos d c w -> t ∈ WAL -> (pos0 < t_end t <= pos)%Z -> sk ∈ sinks ->
  accepted t sk w.
Proof using schedule_permutes names_distinct WAL_ordered. exact (lifetime_accepts pos0 w0 pos d c w t sk). Qed.
End lifetime.

(** A lifetime with a stricter environment is one with a laxer one. *)
Lemma lifetime_mono {C W} `{!World W} types oid keep xlog parse (controller : option (Controller C)) max par excl
    sched shut ctx sinks (E E' : W -> W -> Prop) WAL pos0 w0 pos d c w :
  (forall x y, E x y -> E' x y) ->
  lifetime types oid keep xlog parse controller max par excl sched shut ctx sinks E WAL pos0 w0 pos d c w ->
  lifetime types oid keep xlog parse controller max par excl sched shut ctx sinks E' WAL pos0 w0 pos d c w.
Proof.
  intros HE. induction 1 as [d c|pos d c w ls y pos' Hl IH Hr Hserves Hob Hin|pos d c w d' c' w' Hl IH He].
  - constructor.
  - eapply life_session; [exact IH | exact Hr | exact Hserves | | exact Hin].
    eapply Forall_impl; [exact Hob|]. intros [| |f]; simpl; auto.
  - eapply life_restart; [exact IH | by apply HE].
Qed.

(** ** A gateway that loses its first connection *)

(** One transaction of two inserts; the first session is cut inside it and the process
    restarts; the second session receives it whole, delivers it to two sinks and
    reports its end. *)
Definition demo_txn : Txn :=
  {| t_end := 120; t_changes := [(100%Z, InsertMessageV2 1 (Some (demo_tuple "1")));
                                 (100%Z, InsertMessageV2 1 (Some (demo_tuple "2")))] |}.
Definition receive {W} (raw : string) (ops : nat) : list (system_label W) :=
  map PMain ([MLoop false false; MStep; MReceived (CopyData raw)] ++ replicate ops MStep).
Definition cut_session {W} : list (system_label W) :=
  receive "wB" 1 ++ receive "wR" 1 ++ receive "w1" 2.
Definition whole_session {W} : list (system_label W) :=
  receive "wB" 1 ++ receive "wR" 1 ++ receive "w1" 2 ++ receive "k" 1 ++ receive "w2" 2 ++ receive "wC" 1 ++
  map PMain [MLoop true true; MStep; MStep; MSend; MStep] ++ replicate 6 PDeliver ++
  map PMain [MKeepalive None; MTimeout].

(** Nothing else happens in these sessions, so they obey any environment. *)
Lemma main_obeys {W} (environment : W -> W -> Prop) ls : Forall (obeys environment) (map PMain ls).
Proof. by apply Forall_map, Forall_true. Qed.
Lemma sessions_obey {W} (environment : W -> W -> Prop) :
  Forall (obeys environment) cut_session /\ Forall (obeys environment) whole_session.
Proof.
  unfold cut_session, whole_session, receive.
  split; repeat (apply Forall_app; split); try apply main_obeys. by apply Forall_replicate.
Qed.

Definition demo_messages : list BackendMessage :=
  map (fun s => CopyData s) ["wB"; "wR"; "w1"; "k"; "w2"; "wC"].

Lemma demo_carries : carries demo_xlog demo_parse demo_txn demo_messages.
Proof.
  assert (Hin : forall s, s ∈ ["wR"; "w1"; "k"; "w2"] -> inside demo_xlog demo_parse (CopyData s)).
  { intros s Hs. split; [intros (l & t & x & H) | intros l H]; unfold is_commit in *;
      rewrite !elem_of_cons, elem_of_nil in Hs; destruct_or?; subst; vm_compute in H; done. }
  exists (CopyData "wB"), (map (fun s => CopyData s) ["wR"; "w1"; "k"; "w2"]), (CopyData "wC").
  split_and!; [done | by eexists _, _, _ | done | | vm_compute; reflexivity].
  repeat (apply Forall_cons; split; [apply Hin; set_solver|]). constructor.
Qed.

Lemma no_committed_change_is_lost_witness :
  exists w, lifetime pretty demo_types demo_keepalive demo_xlog demo_parse (None : option (Controller unit)) 10
      false ∅ (fun l => l) (fun _ => false) Background two_sinks (fun _ _ => True) [demo_txn] 50 ([], tt) 120
      w.1.1 w.1.2 w.2 /\
    accepted pretty demo_types demo_keepalive demo_xlog demo_parse ∅ demo_txn (ok_sink "b" 0) w.2.
Proof.
  assert (Hlife : exists d c w, lifetime pretty demo_types demo_keepalive demo_xlog demo_parse
      (None : option (Controller unit)) 10 false ∅ (fun l => l) (fun _ => false) Background two_sinks
      (fun _ _ => True) [demo_txn] 50 ([], tt) 120 d c w).
  { do 3 eexists. eapply (life_session _ _ _ _ _ _ _ _ _ _ _ _ _ _ _ _ _ 50 NewDecoder tt _ whole_session).
    - eapply (life_restart _ _ _ _ _ _ _ _ _ _ _ _ _ _ _ _ _ 50 _ _ _ NewDecoder tt tt); [|exact I].
      eapply (life_session _ _ _ _ _ _ _ _ _ _ _ _ _ _ _ _ _ 50 NewDecoder tt _ cut_session).
      + apply life_begins.
      + vm_compute. reflexivity.
      + eapply serves_cut; [apply demo_carries|]. by eexists.
      + apply sessions_obey.
      + apply list_elem_of_here.
    - vm_compute. reflexivity.
    - apply (serves_txn _ _ _ demo_txn [] demo_messages []); [apply demo_carries | constructor].
    - apply sessions_obey.
    - right. apply list_elem_of_here. }
  destruct Hlife as (d & c & w & Hlife). exists (d, c, w). split; [exact Hlife|].
  eapply (no_committed_change_is_lost pretty demo_types demo_keepalive demo_xlog demo_parse
    (None : option (Controller unit)) 10 false ∅ (fun l => l) (fun _ => false) Background two_sinks (fun _ _ => True) [demo_txn]);
    [done | | | exact Hlife | apply list_elem_of_here | done | right; apply list_elem_of_here].
  - apply NoDup_cons; split; [set_solver | apply NoDup_singleton].
  - repeat constructor.
Defined.

(** The same transaction, decoded and not yet delivered. *)
Definition decoded_session : list (system_label unit) :=
  receive "wB" 1 ++ receive "wR" 1 ++ receive "w1" 2 ++ receive "k" 1 ++ receive "w2" 2 ++ receive "wC" 1.
Abbreviation demo_system_run :=
  (system_run (Decode pretty demo_types demo_keepalive demo_xlog demo_parse) (@None (Controller unit)) 10
     false ∅ (fun l => l) (fun _ => false) Background two_sinks).
Abbreviation demo_start := (begin_session (@None (Controller unit)) 50 NewDecoder tt (W := unit) ([], tt)).
Definition demo_decoded : system := default demo_start (demo_system_run decoded_session demo_start).

Lemma accepting_sinks_catch_up_witness :
  exists ls' y', demo_system_run decoded_session demo_start = Some demo_decoded /\
    holds (ok_sink "a" 1) (world demo_decoded) = [] /\
    demo_system_run ls' demo_decoded = Some y' /\
    map mark (holds (ok_sink "a" 1) (world y')) = marks pretty demo_txn.
Proof.
  assert (Hnd : NoDup (map Name two_sinks)) by (apply NoDup_cons; split; [set_solver | apply NoDup_singleton]).
  assert (Hacc : Forall (accepting (fun _ => True)) two_sinks) by (repeat constructor).
  assert (Hb : between [] (sess demo_decoded)) by (repeat split; vm_compute; reflexivity).
  assert (Hrun : demo_system_run decoded_session demo_start = Some demo_decoded) by (vm_compute; reflexivity).
  pose proof (accepting_sinks_catch_up (Decode pretty demo_types demo_keepalive demo_xlog demo_parse)
    (@None (Controller unit)) 10 false ∅ (fun l => l) (fun _ => false) Background two_sinks
    (fun l => reflexivity l) Hnd (fun _ => True) (fun _ _ => eq_refl) Hacc 50 NewDecoder tt ([], tt)
    decoded_session demo_decoded) as H.
  destruct (H Hrun Hb I) as (ls' & y' & Hr & _ & _ & Hh & _).
  exists ls', y'. split; [exact Hrun|]. split; [vm_compute; reflexivity|]. split; [exact Hr|].
  rewrite (Hh (ok_sink "a" 1)) by apply list_elem_of_here. vm_compute. reflexivity.
Defined.
