(* ===== verification/Resilience.v ===== *)
(** * Retries and the circuit breaker
      (src/internal/infrastructure/resilience/circuit_breaker.go)

    A decorator that retries a batch with exponential backoff inside a circuit
    breaker.  The breaker itself is gobreaker: its state and the two halves of its
    [Execute] (admitting a request, recording its outcome) are parameters, with what
    the decorator relies on, the errors a refusal returns, as a hypothesis. *)

From Stdlib Require Import ZArith Lia Ascii String.
From stdpp Require Import base list gmap strings pretty.
From S2P Require Import Prelude Domain.

Open Scope go_scope.
Set Warnings "-clear-no-such-hyp".
Set Default Proof Using "Type".

Record ResilienceConfig := {
  AttemptTimeout : Z;
  MaxRetries : Z;
  InitialBackoff : Z;
  MaxBackoff : Z;
  CircuitOpenDuration : Z;
  FailureThreshold : Z;
}.

Definition DefaultResilienceConfig : ResilienceConfig :=
  {| AttemptTimeout := 30 * 1000000000; MaxRetries := 3; InitialBackoff := 100 * 1000000;
     MaxBackoff := 5 * 1000000000; CircuitOpenDuration := 30 * 1000000000; FailureThreshold := 5 |}.

(** gobreaker: the state, what a request is admitted with, and the two halves of
    [Execute]. *)
Record Breaker (B G : Type) := {
  beforeRequest : Z -> B -> res G * B;
  afterRequest : Z -> G -> bool -> B -> B;
}.
Arguments beforeRequest {B G}. Arguments afterRequest {B G}.

(** [Settings.IsSuccessful]: what counts as a destination failure. *)
Definition IsSuccessful (err : option error) : bool :=
  match err with None => true | Some e => IsPermanent e || Is e Canceled end.

(** [Settings.ReadyToTrip], on the count of consecutive failures. *)
Definition ReadyToTrip (cfg : ResilienceConfig) (consecutiveFailures : Z) : bool :=
  bool_decide (FailureThreshold cfg <= consecutiveFailures)%Z.

Inductive breaker_state := StateClosed | StateHalfOpen | StateOpen.
Definition breakerStateValue (s : breaker_state) : Z :=
  match s with StateClosed => 0 | StateHalfOpen => 1 | StateOpen => 2 end.

Section resilient.
Context {B G W : Type} `{!World W}.
Context (breaker : Breaker B G) (cfg : ResilienceConfig).
(** [select] between the context and [time.After]: whether the context was first. *)
Context (wait : Ctx -> Z -> ST W bool).

Definition attempt (sink : Sink W) (c : Ctx) (events : list CDCEvent) : ST W (option error) :=
  if decide (AttemptTimeout cfg <= 0)%Z then Process sink c events
  else
    let! w := get in
    Process sink (WithTimeout c w (AttemptTimeout cfg)) events.

(** The retry loop, with [left] iterations after this one; [lastErr] is what the last
    attempt returned. *)
Fixpoint retry_from (sink : Sink W) (c : Ctx) (events : list CDCEvent) (left : nat) (backoff : Z)
    : ST W (option error) :=
  let! lastErr := attempt sink c events in
  match lastErr with
  | None => ret None
  | Some e =>
      let! w := get in
      match left with
      | 0 => ret (Some e)
      | S left' =>
          if IsPermanent e || isSome (ctx_err c w) then ret (Some e)
          else
            let! done := wait c backoff in
            if (done : bool) then ret (Some e)
            else retry_from sink c events left' (Z.min (Duration (backoff * 2)) (MaxBackoff cfg))
      end
  end.

(** [processWithRetry]: a negative [MaxRetries] makes the loop empty. *)
Definition processWithRetry (sink : Sink W) (c : Ctx) (events : list CDCEvent) : ST W (option error) :=
  if decide (MaxRetries cfg < 0)%Z then ret None
  else retry_from sink c events (Z.to_nat (MaxRetries cfg)) (InitialBackoff cfg).

(** [breaker.Execute]. *)
Definition Execute (req : ST W (option error)) : ST (B * W) (option error) :=
  fun '(b, w) =>
    match beforeRequest breaker (now w) b with
    | (inr e, b1) => (Some e, (b1, w))
    | (inl g, b1) =>
        let '(r, w') := req w in
        (r, (afterRequest breaker (now w') g (IsSuccessful r) b1, w'))
    end.

Definition Resilient_Process (sink : Sink W) (c : Ctx) (events : list CDCEvent)
    : ST (B * W) (option error) :=
  match events with
  | [] => ret None
  | _ =>
      let! err := Execute (processWithRetry sink c events) in
      ret match err with
          | Some e =>
              if Is e ErrOpenState || Is e ErrTooManyRequests
              then Some (EWrap "" (ESentinel ErrCircuitOpen) (": " +:+ Error e)%string)
              else Some e
          | None => None
          end
  end.

Definition ResilientSink (sink : Sink W) : Sink (B * W) :=
  {| Name := Name sink;
     Initialize := inner (Initialize sink);
     Process := Resilient_Process sink;
     Shutdown := inner (Shutdown sink);
     HealthCheck := inner (HealthCheck sink);
     batch_limiter := Some (MaxBatchEvents sink);
     router := Some (Wants sink) |}.
End resilient.

(** ** The attempts a batch gets *)
Section attempts.
Context {B G W : Type} `{!World W}.
Context (breaker : Breaker B G) (cfg : ResilienceConfig).
Context (wait : Ctx -> Z -> ST W bool).

(** Waiting on the logged world leaves the log alone. *)
Definition logged_wait (c : Ctx) (d : Z) : ST (list call * W) bool := inner (wait c d).

(** A failed attempt that is worth another one. *)
Definition transient (c : call) : Prop := exists e, c.2 = Some e /\ IsPermanent e = false.

(** The calls of one batch: all with the whole batch, every one but the last failed
    with a transient error, and the last gives the result. *)
Definition attempts_ok (events : list CDCEvent) (max : nat) (r : option error) (cs : list call) : Prop :=
  exists pre, cs = pre ++ [(events, r)] /\ length cs <= max /\
    Forall (fun c => c.1 = events /\ transient c) pre.

Lemma attempt_logged sink c events log w :
  exists r w', attempt cfg (logged sink) c events (log, w) = (r, (log ++ [(events, r)], w')).
Proof.
  unfold attempt. destruct (decide _).
  - simpl. destruct (Process sink c events w) as [r w']. eauto.
  - unfold bind, get. simpl. destruct (Process sink _ events w) as [r w']. eauto.
Qed.

Lemma retry_from_logged sink c events left backoff log w :
  exists cs r w', retry_from cfg logged_wait (logged sink) c events left backoff (log, w)
                    = (r, (log ++ cs, w')) /\ attempts_ok events (S left) r cs.
Proof.
  revert backoff log w. induction left as [|left IH]; intros backoff log w; simpl; unfold bind at 1;
    destruct (attempt_logged sink c events log w) as (r & w1 & ->).
  - exists [(events, r)], r, w1. split; [by destruct r|]. exists []. split_and!; [done | simpl; lia | constructor].
  - destruct r as [e|]; cycle 1.
    { exists [(events, None)], None, w1. split; [done|]. exists []. split_and!; [done | simpl; lia | constructor]. }
    unfold bind, get. destruct (IsPermanent e || isSome (ctx_err c (log ++ [(events, Some e)], w1))) eqn:Hp.
    { exists [(events, Some e)], (Some e), w1. split; [done|].
      exists []. split_and!; [done | simpl; lia | constructor]. }
    unfold logged_wait at 1. simpl. destruct (wait c backoff w1) as [[|] w2].
    { exists [(events, Some e)], (Some e), w2. split; [done|].
      exists []. split_and!; [done | simpl; lia | constructor]. }
    destruct (IH (Z.min (Duration (backoff * 2)) (MaxBackoff cfg)) (log ++ [(events, Some e)]) w2)
      as (cs & r & w3 & -> & pre & -> & Hlen & Hf).
    exists ((events, Some e) :: pre ++ [(events, r)]), r, w3. rewrite <- app_assoc. split; [done|].
    exists ((events, Some e) :: pre). split_and!; [done | simpl in *; lia |].
    constructor; [|done]. split; [done|]. exists e. split; [done|].
    by apply orb_false_iff in Hp as [? _].
Qed.

(** Only the last call can have delivered anything. *)
Lemma attempts_delivered events r (pre : list call) :
  Forall (fun c => c.1 = events /\ transient c) pre ->
  delivered (pre ++ [(events, r)]) = match r with None => events | Some _ => [] end.
Proof.
  intros Hf. rewrite delivered_app. assert (delivered pre = []) as ->.
  { induction Hf as [|[es o] pre [_ (e & He & _)] Hf IH]; [done|].
    unfold delivered in *. simpl in *. by rewrite He, IH. }
  unfold delivered. simpl. destruct r; [done | apply app_nil_r].
Qed.

(** A batch is attempted at least once and at most MaxRetries + 1 times, always
    whole, until the first success, permanent error or done context; the result is
    the last attempt's, so it succeeds exactly when the sink accepted the batch, and
    then it was accepted once. *)
Theorem retries_are_bounded_and_faithful sink c events w :
  (0 <= MaxRetries cfg)%Z ->
  let '(r, (log, _)) := processWithRetry cfg logged_wait (logged sink) c events ([], w) in
  attempts_ok events (S (Z.to_nat (MaxRetries cfg))) r log /\
  delivered log = match r with None => events | Some _ => [] end.
Proof.
  intros Hm. unfold processWithRetry. rewrite decide_False by lia.
  destruct (retry_from_logged sink c events (Z.to_nat (MaxRetries cfg)) (InitialBackoff cfg) [] w)
    as (cs & r & w' & -> & pre & -> & Hlen & Hf).
  simpl. split; [by exists pre | by apply attempts_delivered].
Qed.

(** What gobreaker documents: a request is refused with one of its two errors. *)
Definition breaker_refusals : Prop :=
  forall t b e b', beforeRequest breaker t b = (inr e, b') ->
    e = ESentinel ErrOpenState \/ e = ESentinel ErrTooManyRequests.

(** While the breaker refuses requests the sink is not called at all and the
    error is the domain's circuit-open error, which the dead-letter queue treats as an
    outage; a request it admits is recorded as a failure of the destination exactly
    when its result is an error that is neither permanent nor a cancellation. *)
Theorem open_circuit_fails_fast sink c events b w :
  breaker_refusals -> events <> [] ->
  let '(r, (b', (log, w'))) := Resilient_Process breaker cfg logged_wait (logged sink) c events (b, ([], w)) in
  match beforeRequest breaker (now w) b with
  | (inr _, b1) => log = [] /\ w' = w /\ b' = b1 /\
      exists e, r = Some e /\ Is e ErrCircuitOpen = true /\ IsPermanent e = false
  | (inl g, b1) =>
      let '(r0, (log0, w0)) := processWithRetry cfg logged_wait (logged sink) c events ([], w) in
      log = log0 /\ w' = w0 /\ isSome r = isSome r0 /\
      b' = afterRequest breaker (now w0) g (IsSuccessful r0) b1
  end.
Proof.
  intros Hb He. unfold Resilient_Process. destruct events as [|ev evs]; [done|].
  unfold bind, Execute. simpl now. destruct (beforeRequest breaker (now w) b) as [[g|e] b1] eqn:Hbr.
  - destruct (processWithRetry _ _ _ _ _ _) as [r0 [log0 w0]]. simpl.
    split_and!; [done.. | | done]. destruct r0 as [e|]; [|done]. by destruct (_ || _).
  - destruct (Hb _ _ _ _ Hbr) as [-> | ->]; simpl; split_and!; try done; eexists; split_and!; reflexivity.
Qed.
End attempts.

(** ** A concrete breaker: open once tripped *)
Definition toy_breaker : Breaker bool unit :=
  {| beforeRequest := fun _ (b : bool) => if b then (inr (ESentinel ErrOpenState), b) else (inl tt, b);
     afterRequest := fun _ _ ok b => b || negb ok |}.
Definition toy_resilience : ResilienceConfig :=
  {| AttemptTimeout := 0; MaxRetries := 2; InitialBackoff := 1; MaxBackoff := 4;
     CircuitOpenDuration := 1; FailureThreshold := 1 |}.
Definition toy_wait (c : Ctx) (d : Z) : ST unit bool := ret false.
Definition down_sink : Sink unit := constant_sink "s" (fun _ => Some (EMsg "down")).

Lemma retries_are_bounded_and_faithful_witness :
  exists log, processWithRetry toy_resilience (logged_wait toy_wait) (logged down_sink) Background
                [sample_insert "1"] ([], tt) = (Some (EMsg "down"), (log, tt)) /\
    length log = 3 /\ delivered log = [].
Proof.
  eexists. split; [vm_compute; reflexivity|]. split; [reflexivity|].
  assert (Hm : (0 <= MaxRetries toy_resilience)%Z) by (vm_compute; discriminate).
  exact (proj2 (retries_are_bounded_and_faithful toy_resilience toy_wait down_sink Background
                  [sample_insert "1"] tt Hm)).
Defined.

Lemma open_circuit_fails_fast_witness :
  exists r, Resilient_Process toy_breaker toy_resilience (logged_wait toy_wait) (logged down_sink) Background
              [sample_insert "1"] (true, ([], tt)) = (r, (true, ([], tt))) /\
    exists e, r = Some e /\ Is e ErrCircuitOpen = true.
Proof.
  eexists. split; [vm_compute; reflexivity|].
  assert (Hb : breaker_refusals toy_breaker).
  { intros t [|] e b' H; simpl in H; [injection H as <- <-; by left | discriminate]. }
  assert (Hne : [sample_insert "1"] <> []) by discriminate.
  destruct (open_circuit_fails_fast toy_breaker toy_resilience toy_wait down_sink Background
              [sample_insert "1"] true tt Hb Hne) as (_ & _ & _ & e & He & Hi & _).
  exists e. split; [exact He | exact Hi].
Defined.
