(* ===== verification/Transform.v ===== *)
(** * Per-sink transforms (src/internal/infrastructure/transform/transform.go, sink.go)

    A chain of steps, each an optional CEL filter, columns to drop and columns to
    mask, applied to an event before its sink.  The CEL compiler and evaluator are
    third-party and the digests opaque: parameters.  A row's data is a Go map shared
    with the other sinks of the batch, so [Apply] runs on a heap of maps and its
    theorem states that no shared map changes and that it computes [apply_spec], the
    same transformation on values. *)

From Stdlib Require Import ZArith Lia Ascii String.
From stdpp Require Import base list gmap strings pretty.
From S2P Require Import Prelude Domain DeadLetter.

Open Scope go_scope.
Set Warnings "-clear-no-such-hyp".
Set Default Proof Using "Type".

(** A transform as configured (config/sinks.go). *)
Record TransformSpec := {
  spec_Filter : string;
  spec_DropColumns : list string;
  spec_Mask : gmap string string;
}.

Definition IsZero (s : TransformSpec) : bool :=
  bool_decide (spec_Filter s = "") && bool_decide (spec_DropColumns s = []) &&
  bool_decide (spec_Mask s = ∅).

(** ** Mask strategies *)

(** The characters of a valid UTF-8 string. *)
Fixpoint runes_fuel (fuel : nat) (s : list ascii) : list (list ascii) :=
  match fuel, s with
  | 0, _ | _, [] => []
  | S fuel', b :: _ =>
      let n := nat_of_ascii b in
      let len := if decide (n < 128) then 1 else if decide (n < 224) then 2
                 else if decide (n < 240) then 3 else 4 in
      take len s :: runes_fuel fuel' (drop len s)
  end.
Definition runes (s : string) : list (list ascii) :=
  runes_fuel (String.length s) (string_to_list s).

Definition last4 (v : any) : any :=
  let rs := runes (fmtV v) in
  if decide (length rs <= 4) then AStr "****"
  else AStr (list_to_string (replicate (length rs - 4) "*"%char ++ concat (drop (length rs - 4) rs))).

Section transform.
(** [hex(sha256(s))] and [hex(hmac-sha256(key, s))]. *)
Context (sha256hex : string -> string) (hmac256hex : string -> string -> string).

(** [maskStrategies] *)
Definition maskStrategies (name : string) : option (any -> any) :=
  if decide (name = "redact") then Some (fun _ => AStr "[REDACTED]")
  else if decide (name = "null") then Some (fun _ => ANil)
  else if decide (name = "sha256") then Some (fun v => AStr (sha256hex (fmtV v)))
  else if decide (name = "last4") then Some last4
  else None.

Definition strategyFunc (name HMACKey : string) : res (any -> any) :=
  match maskStrategies name with
  | Some fn => inl fn
  | None =>
      if decide (name = "hmac256") then
        if decide (HMACKey = "") then
          inr (EMsg "mask strategy hmac256 requires CDC_MASK_HMAC_KEY to be set")
        else inl (fun v => AStr (hmac256hex HMACKey (fmtV v)))
      else inr (EMsg ("unknown mask strategy " +:+ quoted name
                        +:+ " (valid: redact, null, sha256, hmac256, last4)")%string)
  end.

(** ** Compilation *)

(** CEL: expressions, their compilation, and what evaluating one gives. *)
Context {Ast Program : Type}.
Inductive cel_value := CBool (b : bool) | CUnknown | COther (type_name : string).
Context (celEnv : option error) (cel_Compile : string -> res Ast) (OutputType : Ast -> string).
Context (cel_Program cel_PartialProgram : Ast -> res Program).
Context (Eval : Program -> string * string * string * columns * columns -> res cel_value).
Context (PartialEval : Program -> string * string * string -> res cel_value).

Record compiledSpec := {
  cs_filter : option Program;
  cs_partial : option Program;
  cs_drop : gset string;
  cs_mask : gmap string (any -> any);
}.
(** A nil [*Chain] applies nothing. *)
Definition Chain : Type := option (list compiledSpec).

(** The filter's two programs. *)
Definition compile_filter (filter : string) : res (option Program * option Program) :=
  if decide (filter = "") then inl (None, None)
  else match celEnv with
  | Some e => inr (EWrap "create CEL environment: " e "")
  | None =>
      match cel_Compile filter with
      | inr e => inr (EWrap ("compile filter " +:+ quoted filter +:+ ": ")%string e "")
      | inl ast =>
          if decide (OutputType ast <> "bool") then
            inr (EMsg ("filter " +:+ quoted filter +:+ " must evaluate to a boolean, got "
                         +:+ OutputType ast)%string)
          else match cel_Program ast with
          | inr e => inr (EWrap ("build filter program " +:+ quoted filter +:+ ": ")%string e "")
          | inl prg =>
              match cel_PartialProgram ast with
              | inr e => inr (EWrap ("build partial filter program " +:+ quoted filter +:+ ": ")%string e "")
              | inl partial => inl (Some prg, Some partial)
              end
          end
      end
  end.

(** The loop over the masked columns, in the map's order. *)
Fixpoint compile_mask (HMACKey : string) (cols : list (string * string))
    : res (gmap string (any -> any)) :=
  match cols with
  | [] => inl ∅
  | (col, strategy) :: rest =>
      match strategyFunc strategy HMACKey with
      | inr e => inr (EWrap ("mask for column " +:+ quoted col +:+ ": ")%string e "")
      | inl fn =>
          match compile_mask HMACKey rest with
          | inr e => inr e
          | inl m => inl (<[col := fn]> m)
          end
      end
  end.

Fixpoint compile_steps (HMACKey : string) (specs : list TransformSpec) : res (list compiledSpec) :=
  match specs with
  | [] => inl []
  | spec :: rest =>
      if IsZero spec then compile_steps HMACKey rest
      else match compile_filter (spec_Filter spec) with
      | inr e => inr e
      | inl (prg, partial) =>
          match compile_mask HMACKey (map_to_list (spec_Mask spec)) with
          | inr e => inr e
          | inl mask =>
              match compile_steps HMACKey rest with
              | inr e => inr e
              | inl steps =>
                  inl ({| cs_filter := prg; cs_partial := partial;
                          cs_drop := list_to_set (spec_DropColumns spec); cs_mask := mask |} :: steps)
              end
          end
      end
  end.

Definition CompileWithOptions (HMACKey : string) (specs : list TransformSpec) : res Chain :=
  match compile_steps HMACKey specs with
  | inr e => inr e
  | inl [] => inl None
  | inl steps => inl (Some steps)
  end.

(** ** Applying a chain *)
Definition evalFilter (prg : Program) (event : CDCEvent) : res bool :=
  match Eval prg (Operation_String (Op event), Schema event, Table event,
                  default ∅ (NewData event), default ∅ (OldData event)) with
  | inr e => inr (EWrap ("evaluate filter for " +:+ Schema event +:+ "." +:+ Table event +:+ ": ")%string e "")
  | inl (CBool keep) => inl keep
  | inl CUnknown => inr (EMsg ("filter for " +:+ Schema event +:+ "." +:+ Table event
                                 +:+ " returned *types.Unknown, expected bool")%string)
  | inl (COther ty) => inr (EMsg ("filter for " +:+ Schema event +:+ "." +:+ Table event
                                    +:+ " returned " +:+ ty +:+ ", expected bool")%string)
  end.

(** [maskColumn] on the map it is given. *)
Definition maskColumn (m : columns) (col : string) (fn : any -> any) : columns :=
  match m !! col with
  | None => m
  | Some v => if is_nil v then m else <[col := fn v]> m
  end.

Definition step_idle (st : compiledSpec) : bool :=
  bool_decide (cs_drop st = ∅) && bool_decide (dom (cs_mask st) = ∅).

(** What a step does to one map: every dropped column, then every masked one. *)
Definition rewrite_map (st : compiledSpec) (m : columns) : columns :=
  foldl (fun m p => maskColumn m p.1 p.2)
    (foldl (fun m col => delete col m) m (elements (cs_drop st))) (map_to_list (cs_mask st)).

(** *** On a heap of maps

    [ev]'s own data fields are not used: [new] and [old] refer to its maps. *)
Abbreviation heap := (gmap nat (gmap string any)).
Record hevent := { h_event : CDCEvent; h_new : option nat; h_old : option nat }.

Definition deref (h : heap) (p : option nat) : data :=
  match p with Some l => h !! l | None => None end.

(** The event with its maps read from the heap. *)
Definition view (h : heap) (e : hevent) : CDCEvent :=
  set_OldData (deref h (h_old e)) (set_NewData (deref h (h_new e)) (h_event e)).

(** [cloneMap] *)
Definition cloneMap (p : option nat) (h : heap) : option nat * heap :=
  match p with
  | None => (None, h)
  | Some l => let l' := fresh (dom h : gset nat) in (Some l', <[l' := default ∅ (h !! l)]> h)
  end.

(** Updating a map in place; a nil map has nothing to delete or mask. *)
Definition in_place (f : columns -> columns) (p : option nat) (h : heap) : heap :=
  match p with Some l => alter f l h | None => h end.

(** One column dropped from, or masked in, the new and then the old map. *)
Definition in_both (f : columns -> columns) (e : hevent) (h : heap) : heap :=
  in_place f (h_old e) (in_place f (h_new e) h).
Definition drop_column (e : hevent) (h : heap) (col : string) : heap := in_both (delete col) e h.
Definition mask_column (e : hevent) (h : heap) (p : string * (any -> any)) : heap :=
  in_both (fun m => maskColumn m p.1 p.2) e h.

Fixpoint apply_steps (steps : list compiledSpec) (cloned : bool) (e : hevent) (h : heap)
    : hevent * bool * option error * heap :=
  match steps with
  | [] => (e, true, None, h)
  | st :: rest =>
      match match cs_filter st with Some prg => evalFilter prg (view h e) | None => inl true end with
      | inr err => (e, false, Some err, h)
      | inl false => (e, false, None, h)
      | inl true =>
          if step_idle st then apply_steps rest cloned e h
          else
            let '(e1, h1) :=
              if cloned then (e, h)
              else
                let '(n, h1) := cloneMap (h_new e) h in
                let '(o, h2) := cloneMap (h_old e) h1 in
                ({| h_event := h_event e; h_new := n; h_old := o |}, h2) in
            let h2 := foldl (drop_column e1) h1 (elements (cs_drop st)) in
            let h3 := foldl (mask_column e1) h2 (map_to_list (cs_mask st)) in
            apply_steps rest true e1 h3
      end
  end.

Definition Apply (c : Chain) (e : hevent) (h : heap) : hevent * bool * option error * heap :=
  match c with None => (e, true, None, h) | Some steps => apply_steps steps false e h end.

(** *** On values *)
Fixpoint spec_steps (steps : list compiledSpec) (e : CDCEvent) : CDCEvent * bool * option error :=
  match steps with
  | [] => (e, true, None)
  | st :: rest =>
      match match cs_filter st with Some prg => evalFilter prg e | None => inl true end with
      | inr err => (e, false, Some err)
      | inl false => (e, false, None)
      | inl true =>
          if step_idle st then spec_steps rest e
          else spec_steps rest
                 (set_OldData (rewrite_map st <$> OldData e) (set_NewData (rewrite_map st <$> NewData e) e))
      end
  end.
Definition apply_spec (c : Chain) (e : CDCEvent) : CDCEvent * bool * option error :=
  match c with None => (e, true, None) | Some steps => spec_steps steps e end.

(** [RejectsAll] *)
Fixpoint rejects_steps (steps : list compiledSpec) (schema table : string) (op : Operation) : bool :=
  match steps with
  | [] => false
  | st :: rest =>
      match cs_partial st with
      | None => rejects_steps rest schema table op
      | Some prg =>
          match PartialEval prg (Operation_String op, schema, table) with
          | inl (CBool false) => true
          | _ => rejects_steps rest schema table op
          end
      end
  end.
Definition RejectsAll (c : Chain) (schema table : string) (op : Operation) : bool :=
  match c with None => false | Some steps => rejects_steps steps schema table op end.

(** ** The decorator (sink.go) *)
Record transform_sink := { ts_global : Chain; ts_tables : gmap string (list compiledSpec) }.

Definition tableChain (s : transform_sink) (schema table : string) : Chain :=
  match ts_tables s !! (schema +:+ "." +:+ table)%string with
  | Some c => Some c
  | None => ts_tables s !! table
  end.

Definition transform_Wants {W} (s : transform_sink) (inner : Sink W) (schema table : string)
    (op : Operation) : bool :=
  if RejectsAll (ts_global s) schema table op then false
  else if RejectsAll (tableChain s schema table) schema table op then false
  else Wants inner schema table op.

(** One event through both chains. *)
Definition transform_event (s : transform_sink) (e : CDCEvent) : CDCEvent * bool * option error :=
  match apply_spec (ts_global s) e with
  | (e1, true, None) => apply_spec (tableChain s (Schema e1) (Table e1)) e1
  | r => r
  end.

(** The loop of [Process]: the events to hand over, or the first error. *)
Fixpoint transform_batch (s : transform_sink) (events : list CDCEvent) : res (list CDCEvent) :=
  match events with
  | [] => inl []
  | e :: rest =>
      match transform_event s e with
      | (_, _, Some err) => inr (EPermanent err)
      | (e', keep, None) =>
          match transform_batch s rest with
          | inr err => inr err
          | inl out => inl (if keep then e' :: out else out)
          end
      end
  end.

Definition transform_Process {W} (s : transform_sink) (inner : Sink W) (c : Ctx) (events : list CDCEvent)
    : ST W (option error) :=
  match transform_batch s events with
  | inr err => ret (Some err)
  | inl [] => ret None
  | inl out => Process inner c out
  end.

Definition TransformSink {W} (s : transform_sink) (inner : Sink W) : Sink W :=
  {| Name := Name inner;
     Initialize := Initialize inner;
     Process := transform_Process s inner;
     Shutdown := Shutdown inner;
     HealthCheck := HealthCheck inner;
     batch_limiter := Some (MaxBatchEvents inner);
     router := Some (transform_Wants s inner) |}.

(** [NewSink]: compile, and wrap only when there is something to do. *)
Fixpoint compile_tables (HMACKey sink : string) (tables : list (string * TransformSpec))
    : res (gmap string (list compiledSpec)) :=
  match tables with
  | [] => inl ∅
  | (name, spec) :: rest =>
      match CompileWithOptions HMACKey [spec] with
      | inr e => inr (EWrap ("sink " +:+ sink +:+ ", table " +:+ name +:+ " transform: ")%string e "")
      | inl chain =>
          match compile_tables HMACKey sink rest with
          | inr e => inr e
          | inl m => inl (match chain with Some steps => <[name := steps]> m | None => m end)
          end
      end
  end.

Definition NewSink {W} (inner : Sink W) (HMACKey : string) (global : option TransformSpec)
    (tables : gmap string TransformSpec) : res (Sink W) :=
  match (match global with None => inl None | Some g => CompileWithOptions HMACKey [g] end) with
  | inr e => inr (EWrap ("sink " +:+ Name inner +:+ " transform: ")%string e "")
  | inl globalChain =>
      match compile_tables HMACKey (Name inner) (map_to_list tables) with
      | inr e => inr e
      | inl tableChains =>
          if negb (isSome globalChain) && bool_decide (dom tableChains = ∅) then inl inner
          else inl (TransformSink {| ts_global := globalChain; ts_tables := tableChains |} inner)
      end
  end.

(** ** Shared maps are never written *)
Definition apart (e : hevent) : Prop := forall l, h_new e = Some l -> h_old e <> Some l.

Lemma in_place_lookup f p h l :
  in_place f p h !! l = if decide (p = Some l) then f <$> h !! l else h !! l.
Proof.
  unfold in_place. destruct p as [l'|]; [|by rewrite decide_False].
  destruct (decide (Some l' = Some l)) as [[= ->]|Hn]; [apply lookup_alter_eq|].
  apply lookup_alter_ne. congruence.
Qed.

Lemma in_both_foldl {X} (F : X -> columns -> columns) e xs h l :
  apart e ->
  foldl (fun h x => in_both (F x) e h) h xs !! l =
    if decide (h_new e = Some l \/ h_old e = Some l)
    then (fun m => foldl (fun m x => F x m) m xs) <$> h !! l else h !! l.
Proof.
  intros Ha. revert h. induction xs as [|x xs IH]; intros h; simpl.
  - destruct (decide _); [|done]. by destruct (h !! l).
  - rewrite IH. unfold in_both. rewrite !in_place_lookup.
    destruct (decide (h_new e = Some l \/ h_old e = Some l)) as [Hor|Hor].
    + destruct (decide (h_old e = Some l)) as [Ho|Ho].
      * rewrite decide_False by (intros Hn; by apply (Ha l)). by destruct (h !! l).
      * rewrite decide_True by tauto. by destruct (h !! l).
    + rewrite !decide_False by tauto. done.
Qed.

(** The maps of [e] are its own: fresh since [h0], and distinct. *)
Record owned (h0 : heap) (e : hevent) (h : heap) : Prop := {
  ow_apart : apart e;
  ow_new : forall l, h_new e = Some l -> h0 !! l = None /\ is_Some (h !! l);
  ow_old : forall l, h_old e = Some l -> h0 !! l = None /\ is_Some (h !! l);
}.

Definition unchanged (h0 h : heap) : Prop := forall l m, h0 !! l = Some m -> h !! l = Some m.
Definition valid (e : hevent) (h : heap) : Prop :=
  (forall l, h_new e = Some l -> is_Some (h !! l)) /\ (forall l, h_old e = Some l -> is_Some (h !! l)).

Lemma cloneMap_spec p h p' h' :
  cloneMap p h = (p', h') -> (forall l, p = Some l -> is_Some (h !! l)) ->
  deref h' p' = deref h p /\ unchanged h h' /\
  (forall l, p' = Some l -> h !! l = None /\ is_Some (h' !! l)).
Proof.
  unfold cloneMap. destruct p as [l|]; intros [= <- <-] Hv.
  - assert (Hf : h !! fresh (dom h : gset nat) = None) by (apply (not_elem_of_dom (D := gset nat)); apply is_fresh).
    split_and!.
    + simpl. rewrite lookup_insert_eq. destruct (Hv l eq_refl) as [m ->]. done.
    + intros l0 m Hl. rewrite lookup_insert_ne; [done|]. intros <-. congruence.
    + intros l0 [= <-]. split; [done|]. rewrite lookup_insert_eq. eauto.
  - split_and!; [done | by intros l m | done].
Qed.

Lemma view_ext h h' e e' :
  h_event e' = h_event e -> deref h' (h_new e') = deref h (h_new e) ->
  deref h' (h_old e') = deref h (h_old e) -> view h' e' = view h e.
Proof. unfold view. by intros -> -> ->. Qed.

(** One rewriting step on owned maps. *)
Lemma rewrite_owned h0 e h st :
  owned h0 e h -> unchanged h0 h ->
  let h' := foldl (mask_column e) (foldl (drop_column e) h (elements (cs_drop st))) (map_to_list (cs_mask st)) in
  owned h0 e h' /\ unchanged h0 h' /\
  view h' e = set_OldData (rewrite_map st <$> OldData (view h e))
                (set_NewData (rewrite_map st <$> NewData (view h e)) (view h e)).
Proof.
  intros [Ha Hn Ho] Hu h'.
  assert (Hl : forall l, h' !! l = if decide (h_new e = Some l \/ h_old e = Some l)
                                 then rewrite_map st <$> h !! l else h !! l).
  { intros l. subst h'. unfold mask_column, drop_column.
    rewrite (in_both_foldl (fun p m => maskColumn m p.1 p.2)) by done.
    rewrite (in_both_foldl (fun col m => delete col m)) by done.
    destruct (decide _); [|done]. by destruct (h !! l). }
  assert (Hdn : deref h' (h_new e) = rewrite_map st <$> deref h (h_new e)).
  { destruct (h_new e) as [l|] eqn:E; [|done]. simpl. rewrite Hl, decide_True by (by left). done. }
  assert (Hdo : deref h' (h_old e) = rewrite_map st <$> deref h (h_old e)).
  { destruct (h_old e) as [l|] eqn:E; [|done]. simpl. rewrite Hl, decide_True by (by right). done. }
  split_and!.
  - constructor; [done | |]; intros l E; [destruct (Hn l E) as [? [m Hm]] | destruct (Ho l E) as [? [m Hm]]];
      (split; [done|]); rewrite Hl, Hm; destruct (decide _); eauto.
  - intros l m Hm. rewrite Hl. rewrite decide_False; [by apply Hu|].
    intros [E|E]; [destruct (Hn l E) | destruct (Ho l E)]; congruence.
  - unfold view. rewrite Hdn, Hdo. destruct (h_event e). reflexivity.
Qed.

Lemma apply_steps_refines h0 steps cloned e h :
  unchanged h0 h -> valid e h -> (cloned = true -> owned h0 e h) ->
  let '(e', keep, err, h') := apply_steps steps cloned e h in
  (view h' e', keep, err) = spec_steps steps (view h e) /\ unchanged h0 h'.
Proof.
  revert cloned e h. induction steps as [|st steps IH]; intros cloned e h Hu Hv Hc;
    cbn [apply_steps spec_steps]; [done|].
  destruct (match cs_filter st with Some prg => evalFilter prg (view h e) | None => inl true end)
    as [[|]|err]; [| done | done].
  destruct (step_idle st); [by apply IH|].
  assert (Hclone : exists e1 h1, (if cloned then (e, h) else
      let '(n, h1) := cloneMap (h_new e) h in
      let '(o, h2) := cloneMap (h_old e) h1 in
      ({| h_event := h_event e; h_new := n; h_old := o |}, h2)) = (e1, h1) /\
    owned h0 e1 h1 /\ unchanged h0 h1 /\ view h1 e1 = view h e).
  { destruct cloned; [exists e, h; auto|]. destruct Hv as [Hvn Hvo].
    destruct (cloneMap (h_new e) h) as [n h1] eqn:E1.
    destruct (cloneMap_spec _ _ _ _ E1 Hvn) as (Hd1 & Hu1 & Hf1).
    assert (Hvo1 : forall l, h_old e = Some l -> is_Some (h1 !! l)).
    { intros l El. destruct (Hvo l El) as [m Hm]. exists m. by apply Hu1. }
    destruct (cloneMap (h_old e) h1) as [o h2] eqn:E2.
    destruct (cloneMap_spec _ _ _ _ E2 Hvo1) as (Hd2 & Hu2 & Hf2).
    assert (Hnone : forall hh l, unchanged h0 hh -> hh !! l = None -> h0 !! l = None).
    { intros hh l Hh Hl. destruct (h0 !! l) as [m|] eqn:E; [|done]. rewrite (Hh l m E) in Hl. done. }
    eexists _, h2. split; [done|]. split_and!.
    - constructor; simpl.
      + intros l En Eo. simpl in En, Eo. destruct (Hf1 l En) as [_ [m Hm]]. destruct (Hf2 l Eo). congruence.
      + intros l El. destruct (Hf1 l El) as [Hl [m Hm]]. split; [by apply (Hnone h)|]. exists m. by apply Hu2.
      + intros l El. destruct (Hf2 l El) as [Hl Hs]. split; [|done].
        apply (Hnone h1); [|done]. intros l0 m0 Hm0. by apply Hu1, Hu.
    - intros l m Hm. by apply Hu2, Hu1, Hu.
    - apply view_ext; simpl; [done | | ].
      + rewrite <- Hd1. destruct n as [l|]; [|done]. simpl. destruct (Hf1 l eq_refl) as [_ [m Hm]].
        rewrite Hm. by apply Hu2.
      + rewrite Hd2. destruct (h_old e) as [l|] eqn:El; [|done]. simpl. destruct (Hvo l eq_refl) as [m Hm].
        rewrite Hm. by apply Hu1. }
  destruct Hclone as (e1 & h1 & -> & Hown & Hu1 & Hview).
  destruct (rewrite_owned h0 e1 h1 st Hown Hu1) as (Hown' & Hu' & Hview'). rewrite <- Hview.
  rewrite <- Hview'. apply IH; [done | | done].
  destruct Hown' as [_ Hn Ho]. split; intros l E; [apply (Hn l E) | apply (Ho l E)].
Qed.

(** C17: Transforming an event for one sink never writes to the row maps it shares
    with the other sinks, whatever the chain drops or masks, and gives the event,
    verdict and error of the transformation on values. *)
Theorem apply_leaves_shared_rows_alone c e h :
  valid e h ->
  let '(e', keep, err, h') := Apply c e h in
  (view h' e', keep, err) = apply_spec c (view h e) /\
  (forall l m, h !! l = Some m -> h' !! l = Some m).
Proof.
  intros Hv. unfold Apply, apply_spec. destruct c as [steps|]; [|done].
  apply (apply_steps_refines h); [by intros l m | done | done].
Qed.


(** ** What a chain hides *)
Lemma drop_fold_lookup cols m col :
  foldl (fun m c => delete c m) m cols !! col = (if decide (col ∈ cols) then None else (m : columns) !! col).
Proof.
  revert m. induction cols as [|c cols IH]; intros m; simpl; [done|]. rewrite IH.
  destruct (decide (col ∈ cols)) as [Hin|Hin]; [by rewrite decide_True by (by right)|].
  destruct (decide (col = c)) as [->|Hne].
  - rewrite decide_True by (by left). apply lookup_delete_eq.
  - rewrite decide_False by (intros [?|?]%elem_of_cons; done). by apply lookup_delete_ne.
Qed.

(** A mask leaves nil alone. *)
Definition masked_value (fn : any -> any) (v : any) : any := if is_nil v then v else fn v.

Lemma maskColumn_lookup m col fn c :
  maskColumn m col fn !! c = if decide (col = c) then masked_value fn <$> m !! c else m !! c.
Proof.
  unfold maskColumn. destruct (m !! col) as [v|] eqn:Hv.
  - unfold masked_value. destruct (decide (col = c)) as [<-|Hne].
    + destruct (is_nil v) eqn:Hn; [rewrite Hv; simpl; by rewrite Hn|].
      rewrite lookup_insert_eq, Hv. simpl. by rewrite Hn.
    + destruct (is_nil v); [done|]. by apply lookup_insert_ne.
  - destruct (decide (col = c)) as [<-|]; [by rewrite Hv | done].
Qed.

Lemma mask_fold_lookup l m c :
  NoDup l.*1 ->
  foldl (fun m p => maskColumn m p.1 p.2) m l !! c =
  match (list_to_map l : gmap string (any -> any)) !! c with
  | Some fn => masked_value fn <$> m !! c
  | None => m !! c
  end.
Proof.
  revert m. induction l as [|[col fn] l IH]; intros m Hnd; simpl; [by rewrite lookup_empty|].
  inversion_clear Hnd as [|? ? Hn Hnd']. rewrite IH by done. rewrite maskColumn_lookup.
  destruct (decide (col = c)) as [<-|Hne].
  - rewrite lookup_insert_eq. by rewrite (not_elem_of_list_to_map_1 l col Hn).
  - by rewrite lookup_insert_ne.
Qed.

Lemma rewrite_map_lookup st m c :
  rewrite_map st m !! c =
  if decide (c ∈ cs_drop st) then None
  else match cs_mask st !! c with Some fn => masked_value fn <$> m !! c | None => m !! c end.
Proof.
  unfold rewrite_map. rewrite mask_fold_lookup by apply NoDup_fst_map_to_list.
  rewrite list_to_map_to_list, drop_fold_lookup.
  destruct (decide (c ∈ cs_drop st)) as [Hin|Hin].
  - rewrite decide_True by (by apply elem_of_elements). by destruct (cs_mask st !! c).
  - by rewrite decide_False by (by rewrite elem_of_elements).
Qed.

(** A column's value in a row that may be nil. *)
Definition column (d : data) (c : string) : option any := match d with Some m => m !! c | None => None end.

Lemma column_rewrite st d c :
  column (rewrite_map st <$> d) c =
  if decide (c ∈ cs_drop st) then None
  else match cs_mask st !! c with Some fn => masked_value fn <$> column d c | None => column d c end.
Proof.
  destruct d as [m|]; simpl; [apply rewrite_map_lookup|].
  destruct (decide _); [done|]. by destruct (cs_mask st !! c).
Qed.

(** A property of a column's value that every step keeps holds at the end. *)
Lemma spec_steps_keeps (P : option any -> Prop) c steps e e' :
  (forall st d, st ∈ steps -> P (column d c) -> P (column (rewrite_map st <$> d) c)) ->
  spec_steps steps e = (e', true, None) ->
  (P (column (NewData e) c) -> P (column (NewData e') c)) /\
  (P (column (OldData e) c) -> P (column (OldData e') c)).
Proof.
  revert e. induction steps as [|st steps IH]; intros e Hstep; simpl; [by intros [= <-]|].
  destruct (match cs_filter st with Some _ => _ | None => _ end) as [[|]|]; try discriminate.
  assert (Hrest : forall st d, st ∈ steps -> P (column d c) -> P (column (rewrite_map st <$> d) c))
    by (intros; apply Hstep; [by right | done]).
  destruct (step_idle st); [by apply IH|].
  intros H. destruct (IH _ Hrest H) as [Hn Ho]. simpl in Hn, Ho.
  split; intros HP; [apply Hn | apply Ho]; apply Hstep; [by left | done | by left | done].
Qed.

Lemma step_idle_false st c :
  c ∈ cs_drop st \/ is_Some (cs_mask st !! c) -> step_idle st = false.
Proof.
  intros H. unfold step_idle. apply andb_false_iff. destruct H as [H|H].
  - left. apply bool_decide_eq_false. intros E. rewrite E in H. by apply elem_of_empty in H.
  - right. apply bool_decide_eq_false. intros E. apply elem_of_dom in H. rewrite E in H.
    by apply elem_of_empty in H.
Qed.

(** A property one step establishes and the others keep holds at the end. *)
Lemma spec_steps_establishes (P : option any -> Prop) c steps e e' st :
  st ∈ steps -> step_idle st = false ->
  (forall d, P (column (rewrite_map st <$> d) c)) ->
  (forall st d, st ∈ steps -> P (column d c) -> P (column (rewrite_map st <$> d) c)) ->
  spec_steps steps e = (e', true, None) ->
  P (column (NewData e') c) /\ P (column (OldData e') c).
Proof.
  intros Hin Hidle Hset Hkeep. revert e. induction steps as [|st' steps IH]; intros e; simpl;
    [by apply not_elem_of_nil in Hin|].
  destruct (match cs_filter st' with Some _ => _ | None => _ end) as [[|]|]; try discriminate.
  assert (Hrest : forall st d, st ∈ steps -> P (column d c) -> P (column (rewrite_map st <$> d) c))
    by (intros; apply Hkeep; [by right | done]).
  apply elem_of_cons in Hin as [->|Hin].
  - rewrite Hidle. intros H. destruct (spec_steps_keeps P c steps _ _ Hrest H) as [Hn Ho].
    simpl in Hn, Ho. split; [apply Hn | apply Ho]; apply Hset.
  - destruct (step_idle st'); by apply IH.
Qed.

(** What passes the value-level chain. *)
Lemma spec_hides steps e e' st c :
  st ∈ steps -> spec_steps steps e = (e', true, None) ->
  (c ∈ cs_drop st -> column (NewData e') c = None /\ column (OldData e') c = None) /\
  (is_Some (cs_mask st !! c) -> forall v,
     column (NewData e') c = Some v \/ column (OldData e') c = Some v ->
     is_nil v = true \/ exists st' fn u, st' ∈ steps /\ cs_mask st' !! c = Some fn /\ v = fn u).
Proof.
  intros Hin Happ. split.
  - intros Hc. apply (spec_steps_establishes (fun o => o = None) c steps e e' st); auto.
    + by apply (step_idle_false st c); left.
    + intros d. rewrite column_rewrite. by rewrite decide_True.
    + intros st' d _ Hd. rewrite column_rewrite, Hd. destruct (decide _); [done|]. by destruct (cs_mask st' !! c).
  - intros [fn Hfn].
    set (tame := fun v => is_nil v = true \/
      exists st' fn u, st' ∈ steps /\ cs_mask st' !! c = Some fn /\ v = fn u).
    assert (Hmask : forall st' fn' o v, st' ∈ steps -> cs_mask st' !! c = Some fn' ->
      masked_value fn' <$> o = Some v -> tame v).
    { intros st' fn' [u|] v Hst' Hf; simpl; [|discriminate]. intros [= <-]. unfold masked_value.
      destruct (is_nil u) eqn:Hu; [by left | right; eauto 6]. }
    destruct (spec_steps_establishes (fun o => forall v, o = Some v -> tame v) c steps e e' st) as [Hn Ho]; auto.
    + apply (step_idle_false st c). right. eauto.
    + intros d v. rewrite column_rewrite, Hfn. destruct (decide _); [discriminate|]. by eapply Hmask.
    + intros st' d Hst' Hd v. rewrite column_rewrite. destruct (decide _); [discriminate|].
      destruct (cs_mask st' !! c) as [fn'|] eqn:Hf; [by eapply Hmask | apply Hd].
    + intros v [Hv|Hv]; [by apply Hn | by apply Ho].
Qed.

(** An event that passes a chain carries none of the columns any of its steps
    drops, in the new or the old row, and of every column a step masks it carries
    either null or the output of a mask the chain configures for that column. *)
Theorem hidden_columns_never_pass steps e h e' h' st c :
  valid e h -> Apply (Some steps) e h = (e', true, None, h') -> st ∈ steps ->
  (c ∈ cs_drop st -> column (deref h' (h_new e')) c = None /\ column (deref h' (h_old e')) c = None) /\
  (is_Some (cs_mask st !! c) -> forall v,
     column (deref h' (h_new e')) c = Some v \/ column (deref h' (h_old e')) c = Some v ->
     is_nil v = true \/ exists st' fn u, st' ∈ steps /\ cs_mask st' !! c = Some fn /\ v = fn u).
Proof.
  intros Hv Happ Hin. pose proof (apply_steps_refines h steps false e h) as Href.
  simpl in Happ. rewrite Happ in Href. destruct Href as [Hspec _]; [by intros l m | done | done |].
  symmetry in Hspec. exact (spec_hides steps (view h e) (view h' e') st c Hin Hspec).
Qed.

(** ** Routing *)

(** What CEL documents of partial evaluation: a definite result with the row unknown
    is the result for every row. *)
Definition partial_eval_sound (prg partial : Program) : Prop :=
  forall op schema table b, PartialEval partial (op, schema, table) = inl (CBool b) ->
    forall new old, Eval prg (op, schema, table, new, old) = inl (CBool b).
Definition chain_sound (c : Chain) : Prop :=
  forall steps st partial, c = Some steps -> st ∈ steps -> cs_partial st = Some partial ->
    exists prg, cs_filter st = Some prg /\ partial_eval_sound prg partial.

Lemma rejects_steps_sound steps e :
  (forall st partial, st ∈ steps -> cs_partial st = Some partial ->
     exists prg, cs_filter st = Some prg /\ partial_eval_sound prg partial) ->
  rejects_steps steps (Schema e) (Table e) (Op e) = true ->
  (spec_steps steps e).1.2 = false.
Proof.
  revert e. induction steps as [|st steps IH]; intros e Hs; simpl; [done|].
  assert (Hrest : forall st partial, st ∈ steps -> cs_partial st = Some partial ->
     exists prg, cs_filter st = Some prg /\ partial_eval_sound prg partial)
    by (intros; apply Hs; [by right | done]).
  assert (Hgo : rejects_steps steps (Schema e) (Table e) (Op e) = true ->
    (match match cs_filter st with Some prg => evalFilter prg e | None => inl true end with
     | inl true => if step_idle st then spec_steps steps e
        else spec_steps steps (set_OldData (rewrite_map st <$> OldData e) (set_NewData (rewrite_map st <$> NewData e) e))
     | inl false => (e, false, None)
     | inr err => (e, false, Some err)
     end).1.2 = false).
  { intros Hr. destruct (match cs_filter st with Some _ => _ | None => _ end) as [[|]|]; try done.
    destruct (step_idle st); by apply IH. }
  destruct (cs_partial st) as [partial|] eqn:Hp; [|exact Hgo].
  destruct (PartialEval partial _) as [[[|]| |]|] eqn:Hpe; try exact Hgo.
  intros _. destruct (Hs st partial ltac:(by left) Hp) as (prg & -> & Hsound).
  unfold evalFilter. by rewrite (Hsound _ _ _ _ Hpe).
Qed.

(** When a sink's transforms say it wants no event of a table and operation, no
    such event ever passes them, whatever its row: leaving those events out of a
    backfill or a route loses nothing the sink would have received. *)
Theorem unwanted_events_never_pass {W} (s : transform_sink) (inner : Sink W) e :
  chain_sound (ts_global s) -> chain_sound (tableChain s (Schema e) (Table e)) ->
  Wants inner (Schema e) (Table e) (Op e) = true ->
  transform_Wants s inner (Schema e) (Table e) (Op e) = false ->
  (transform_event s e).1.2 = false.
Proof.
  intros Hg Ht Hi. unfold transform_Wants, transform_event.
  assert (Hsame : forall steps e0, Schema (spec_steps steps e0).1.1 = Schema e0 /\
    Table (spec_steps steps e0).1.1 = Table e0 /\ Op (spec_steps steps e0).1.1 = Op e0 /\
    (isSome (spec_steps steps e0).2 = true -> (spec_steps steps e0).1.2 = false)).
  { clear. induction steps as [|st steps IH]; intros e0; simpl; [done|].
    destruct (match cs_filter st with Some _ => _ | None => _ end) as [[|]|]; try done.
    destruct (step_idle st); [apply IH|].
    destruct (IH (set_OldData (rewrite_map st <$> OldData e0) (set_NewData (rewrite_map st <$> NewData e0) e0)))
      as (-> & -> & -> & ?). done. }
  destruct (RejectsAll (ts_global s) _ _ _) eqn:Hrg.
  - intros _. destruct (ts_global s) as [steps|] eqn:Eg; [|discriminate]. simpl in Hrg.
    pose proof (rejects_steps_sound steps e ltac:(intros; by eapply Hg) Hrg) as Hf. simpl.
    destruct (spec_steps steps e) as [[e1 keep] err]. simpl in Hf. by subst keep.
  - destruct (RejectsAll (tableChain s _ _) _ _ _) eqn:Hrt; [|congruence]. intros _.
    assert (Hglob : exists e1 keep err, apply_spec (ts_global s) e = (e1, keep, err) /\
      Schema e1 = Schema e /\ Table e1 = Table e /\ Op e1 = Op e /\ (isSome err = true -> keep = false)).
    { destruct (ts_global s) as [steps|]; simpl; [|eauto 9]. specialize (Hsame steps e).
      destruct (spec_steps steps e) as [[e1 keep] err]. exists e1, keep, err. split; [done|]. exact Hsame. }
    destruct Hglob as (e1 & [|] & [err|] & -> & Es & Et & Eo & Hke); try done; [by apply Hke|].
    rewrite Es, Et. destruct (tableChain s (Schema e) (Table e)) as [steps|]; [|discriminate]. simpl in *.
    apply rejects_steps_sound; [intros; by eapply Ht|]. by rewrite Es, Et, Eo.
Qed.

(** ** The decorator in the delivery pipeline *)

(** The gateway puts a sink's transforms outside its dead-letter queue, so an event
    whose filter fails to evaluate makes the whole batch fail with an error marked
    permanent and reaches neither the sink nor the queue: delivering it again gives
    the same result. *)
Theorem filter_errors_bypass_the_dead_letter_queue {W} `{!World W} (s : transform_sink)
    (sink : Sink W) (store : Store W) c events e err m w :
  e ∈ events -> (transform_event s e).2 = Some err ->
  exists err', IsPermanent err' = true /\
    Process (TransformSink s (DLQ_Sink store sink)) c events (m, w) = (Some err', (m, w)).
Proof.
  intros Hin Herr. simpl. unfold transform_Process.
  assert (Hb : exists err', IsPermanent err' = true /\ transform_batch s events = inr err').
  { clear m w. induction events as [|e0 events IH]; [by apply not_elem_of_nil in Hin|]. simpl.
    destruct (transform_event s e0) as [[e1 keep] [err1|]] eqn:E0; [by exists (EPermanent err1)|].
    apply elem_of_cons in Hin as [->|Hin]; [rewrite E0 in Herr; discriminate|].
    destruct (IH Hin) as (err' & Hp & ->). eauto. }
  destruct Hb as (err' & Hp & ->). eauto.
Qed.

End transform.

(** ** A concrete chain

    Programs are the expressions themselves; the evaluator knows two of them. *)
Definition toy_eval (prg : string) (env : string * string * string * columns * columns) : res cel_value :=
  let '(op, _, _, new, _) := env in
  if decide (prg = "op == INSERT") then inl (CBool (bool_decide (op = "INSERT")))
  else if decide (prg = "new.email != null") then
    match new !! "email" with
    | Some v => inl (CBool (negb (is_nil v)))
    | None => inr (EMsg "no such key: email")
    end
  else inl (CBool true).
Definition toy_partial (prg : string) (env : string * string * string) : res cel_value :=
  let '(op, _, _) := env in
  if decide (prg = "op == INSERT") then inl (CBool (bool_decide (op = "INSERT"))) else inl CUnknown.

Definition toy_step (filter : string) : compiledSpec (Program := string) :=
  {| cs_filter := Some filter; cs_partial := Some filter; cs_drop := {[ "password" ]};
     cs_mask := {[ "email" := fun _ => AStr "[REDACTED]" ]} |}.

Definition toy_row : columns := {[ "id" := AStr "1"; "password" := AStr "secret"; "email" := AStr "a@b" ]}.
Definition toy_insert : CDCEvent := sample_event "0/1" "public" "users" OperationInsert None (Some toy_row).
Definition toy_delete : CDCEvent :=
  sample_event "0/2" "public" "users" OperationDelete (Some {[ "id" := AStr "1" ]}) None.

Lemma apply_leaves_shared_rows_alone_witness :
  let h : gmap nat (gmap string any) := {[ 0 := toy_row ]} in
  let e := {| h_event := toy_insert; h_new := Some 0; h_old := None |} in
  (let '(e', keep, err, h') := Apply toy_eval (Some [toy_step "op == INSERT"]) e h in
   keep = true /\ view h' e' <> view h e) /\
  (let '(e', keep, err, h') := Apply toy_eval (Some [toy_step "op == INSERT"]) e h in
   (view h' e', keep, err) = apply_spec toy_eval (Some [toy_step "op == INSERT"]) (view h e) /\
   (forall l m, h !! l = Some m -> h' !! l = Some m)).
Proof.
  intros h e. split; [split; [vm_compute; reflexivity | vm_compute; discriminate]|].
  apply (apply_leaves_shared_rows_alone toy_eval (Some [toy_step "op == INSERT"]) e h).
  split; [intros l [= <-]; exists toy_row; apply lookup_singleton_eq | discriminate].
Defined.

Lemma hidden_columns_never_pass_witness :
  let h : gmap nat (gmap string any) := {[ 0 := toy_row ]} in
  let e := {| h_event := toy_insert; h_new := Some 0; h_old := None |} in
  let r := Apply toy_eval (Some [toy_step "op == INSERT"]) e h in
  r.1.1.2 = true /\ r.1.2 = None /\
    column (deref r.2 (h_new r.1.1.1)) "email" = Some (AStr "[REDACTED]") /\
    column (deref r.2 (h_new r.1.1.1)) "password" = None.
Proof.
  intros h e r. assert (Hk : r.1.1.2 = true) by (vm_compute; reflexivity).
  assert (He : r.1.2 = None) by (vm_compute; reflexivity).
  split; [exact Hk|]. split; [exact He|]. split; [vm_compute; reflexivity|].
  assert (Hr : r = (r.1.1.1, true, None, r.2))
    by (clearbody r; destruct r as [[[e' k] err] h']; simpl in *; congruence).
  apply (hidden_columns_never_pass toy_eval [toy_step "op == INSERT"] e h r.1.1.1 r.2
           (toy_step "op == INSERT") "password"); [| exact Hr | apply list_elem_of_here | by apply elem_of_singleton].
  split; [intros l [= <-]; exists toy_row; apply lookup_singleton_eq | discriminate].
Defined.

Definition toy_transform (filter : string) : transform_sink (Program := string) :=
  {| ts_global := Some [toy_step filter]; ts_tables := ∅ |}.

Lemma unwanted_events_never_pass_witness :
  transform_Wants toy_partial (toy_transform "op == INSERT") (constant_sink "s" (fun _ => None))
    "public" "users" OperationDelete = false /\
  (transform_event toy_eval (toy_transform "op == INSERT") toy_delete).1.2 = false.
Proof.
  split; [vm_compute; reflexivity|].
  apply (unwanted_events_never_pass toy_eval toy_partial (toy_transform "op == INSERT")
           (constant_sink "s" (fun _ => None))); [| | reflexivity | vm_compute; reflexivity].
  - intros steps st partial [= <-] ->%list_elem_of_singleton [= <-]. eexists. split; [reflexivity|].
    intros op schema table b Hp new old. exact Hp.
  - intros steps st partial H. discriminate.
Defined.

Definition empty_store : Store unit :=
  {| st_Park := fun _ _ => ret None; st_Get := fun _ _ => ret (inr (ESentinel ErrNotFound));
     st_List := fun _ _ => ret (inl []); st_Remove := fun _ _ => ret None; st_Len := fun _ => ret (inl 0%Z) |}.

Lemma filter_errors_bypass_the_dead_letter_queue_witness :
  exists err', IsPermanent err' = true /\
    Process (TransformSink toy_eval toy_partial (toy_transform "new.email != null")
               (DLQ_Sink empty_store (constant_sink "s" (fun _ => None)))) Background [toy_delete]
               (NewManager 3 0, tt) = (Some err', (NewManager 3 0, tt)).
Proof.
  eapply (filter_errors_bypass_the_dead_letter_queue toy_eval toy_partial (toy_transform "new.email != null")
            (constant_sink "s" (fun _ => None)) empty_store Background [toy_delete] toy_delete _
            (NewManager 3 0) tt);
    [apply list_elem_of_here | vm_compute; reflexivity].
Defined.
