(* ===== verification/Meili.v ===== *)
(** * The Meilisearch sink
      (src/internal/adapters/secondary/meilisearch and the Meilisearch part of
      src/internal/infrastructure/config/sinks.go)

    A batch becomes a plan: per index, runs of consecutive events of one kind, each a
    single task whose documents are deduplicated by primary key.  The tasks are
    enqueued, then awaited by polling, and a batch whose wait was interrupted resumes
    it.  The server is a parameter: its documents and the effect of a succeeded task
    are the operations of a class with the documented laws, against which the
    equivalence of the plan with applying the events one by one is proved; a map of
    documents is an instance. *)

From Stdlib Require Import ZArith Lia Ascii String.
From stdpp Require Import base list gmap strings pretty.
From S2P Require Import Prelude Domain Transform.

Open Scope go_scope.
Set Warnings "-clear-no-such-hyp".

(** ** Configuration *)
Record MeiliTableConfig := {
  mt_Index : string;
  mt_PrimaryKey : string;
  mt_SearchableAttributes : list string;
  mt_FilterableAttributes : list string;
  mt_TransformSpec : TransformSpec;
}.
Record MeiliIndexSettings := {
  mi_PrimaryKey : string;
  mi_SearchableAttributes : list string;
  mi_FilterableAttributes : list string;
}.
#[export] Instance MeiliIndexSettings_eq_dec : EqDecision MeiliIndexSettings.
Proof. solve_decision. Defined.

Definition DefaultMeiliPrimaryKey : string := "id".

(** The tables of a [MeilisearchSinkConfig]. *)
Abbreviation meili_tables := (gmap string MeiliTableConfig).

Definition full_name (schema table : string) : string := (schema +:+ "." +:+ table)%string.

Definition meili_table (cfg : meili_tables) (schema table : string) : option MeiliTableConfig :=
  match cfg !! full_name schema table with
  | Some tc => Some tc
  | None => cfg !! table
  end.

Definition GetIndex (cfg : meili_tables) (schema table : string) : option string :=
  let named (tc : MeiliTableConfig) := if decide (mt_Index tc = "") then None else Some (mt_Index tc) in
  match cfg !! full_name schema table with
  | Some tc => named tc
  | None => match cfg !! table with Some tc => named tc | None => None end
  end.

Definition GetPrimaryKey (cfg : meili_tables) (schema table : string) : string :=
  match meili_table cfg schema table with
  | Some tc => if decide (mt_PrimaryKey tc = "") then DefaultMeiliPrimaryKey else mt_PrimaryKey tc
  | None => DefaultMeiliPrimaryKey
  end.

Definition table_settings (tc : MeiliTableConfig) : MeiliIndexSettings :=
  {| mi_PrimaryKey := if decide (mt_PrimaryKey tc = "") then DefaultMeiliPrimaryKey else mt_PrimaryKey tc;
     mi_SearchableAttributes := mt_SearchableAttributes tc;
     mi_FilterableAttributes := mt_FilterableAttributes tc |}.

Definition sameIndexSettings (a b : MeiliIndexSettings) : bool :=
  bool_decide (mi_PrimaryKey a = mi_PrimaryKey b) &&
  bool_decide (mi_SearchableAttributes a = mi_SearchableAttributes b) &&
  bool_decide (mi_FilterableAttributes a = mi_FilterableAttributes b).

Fixpoint settings_loop (tables : list (string * MeiliTableConfig))
    (out : gmap string MeiliIndexSettings) (owner : gmap string string)
    : res (gmap string MeiliIndexSettings) :=
  match tables with
  | [] => inl out
  | (name, tc) :: rest =>
      if decide (mt_Index tc = "") then settings_loop rest out owner
      else
        let settings := table_settings tc in
        match out !! mt_Index tc with
        | Some prev =>
            if sameIndexSettings prev settings then settings_loop rest out owner
            else inr (EMsg ("meilisearch index " +:+ quoted (mt_Index tc) +:+ ": tables "
                              +:+ default "" (owner !! mt_Index tc) +:+ " and " +:+ name
                              +:+ " set different index settings")%string)
        | None => settings_loop rest (<[mt_Index tc := settings]> out) (<[mt_Index tc := name]> owner)
        end
  end.
Definition IndexSettings (cfg : meili_tables) : res (gmap string MeiliIndexSettings) :=
  settings_loop (map_to_list cfg) ∅ ∅.

(** Accepted settings agree with every table that feeds the index. *)
Lemma settings_loop_agree tables out owner out' :
  settings_loop tables out owner = inl out' ->
  (forall idx s, out !! idx = Some s -> out' !! idx = Some s) /\
  (forall name tc, (name, tc) ∈ tables -> mt_Index tc <> "" ->
     exists s, out' !! mt_Index tc = Some s /\ mi_PrimaryKey s = mi_PrimaryKey (table_settings tc)).
Proof.
  revert out owner. induction tables as [|[name tc] tables IH]; intros out owner; simpl.
  { intros [= <-]. split; [done|]. by intros ? ? []%not_elem_of_nil. }
  destruct (decide (mt_Index tc = "")) as [He|He].
  { intros H. destruct (IH _ _ H) as [Hk Ha]. split; [done|].
    intros n t [[= -> ->]|Hin]%elem_of_cons Hne; [done | by eapply Ha]. }
  destruct (out !! mt_Index tc) as [prev|] eqn:Hprev.
  - destruct (sameIndexSettings prev (table_settings tc)) eqn:Hs; [|discriminate].
    intros H. destruct (IH _ _ H) as [Hk Ha]. split; [done|].
    intros n t [[= -> ->]|Hin]%elem_of_cons Hne; [|by eapply Ha].
    exists prev. split; [by apply Hk|]. unfold sameIndexSettings in Hs.
    apply andb_prop in Hs as [Hs _]. apply andb_prop in Hs as [Hs _]. by apply bool_decide_eq_true in Hs.
  - intros H. destruct (IH _ _ H) as [Hk Ha]. split.
    + intros idx s Hidx. apply Hk. rewrite lookup_insert_ne; [done | congruence].
    + intros n t [[= -> ->]|Hin]%elem_of_cons Hne; [|by eapply Ha].
      eexists. split; [apply Hk, lookup_insert_eq | done].
Qed.

(** What the sink relies on once it started: tables of one index share its key. *)
Definition key_per_index (cfg : meili_tables) (pk_of : string -> string) : Prop :=
  forall schema table idx, GetIndex cfg schema table = Some idx -> GetPrimaryKey cfg schema table = pk_of idx.

Definition index_key (settings : gmap string MeiliIndexSettings) (idx : string) : string :=
  match settings !! idx with Some s => mi_PrimaryKey s | None => DefaultMeiliPrimaryKey end.

Lemma IndexSettings_key_per_index cfg settings :
  IndexSettings cfg = inl settings -> key_per_index cfg (index_key settings).
Proof.
  intros [_ Ha]%settings_loop_agree schema table idx. unfold GetIndex, GetPrimaryKey, meili_table, index_key.
  assert (Hgo : forall n tc, cfg !! n = Some tc -> mt_Index tc <> "" ->
    (if decide (mt_PrimaryKey tc = "") then DefaultMeiliPrimaryKey else mt_PrimaryKey tc) =
    match settings !! mt_Index tc with Some s => mi_PrimaryKey s | None => DefaultMeiliPrimaryKey end).
  { intros n tc Hn Hne. destruct (Ha n tc) as (s & -> & ->); [by apply elem_of_map_to_list | done | done]. }
  destruct (cfg !! full_name schema table) as [tc|] eqn:Hf; [|destruct (cfg !! table) as [tc|] eqn:Ht; [|done]];
    destruct (decide (mt_Index tc = "")); try done; intros [= <-]; by eapply Hgo.
Qed.

(** ** The plan *)
Inductive runKind := runReplace | runPartial | runDelete | runClear.
#[export] Instance runKind_eq_dec : EqDecision runKind.
Proof. solve_decision. Defined.

Definition runKind_String (k : runKind) : string :=
  match k with
  | runReplace => "add documents"
  | runPartial => "update documents"
  | runDelete => "delete documents"
  | runClear => "delete all documents"
  end.

Record run := {
  r_kind : runKind;
  r_primaryKey : string;
  r_docs : list columns;
  r_ids : list string;
  r_pos : gmap string nat; (* primary key value to index into docs or ids *)
  r_eventIDs : list string;
}.
Record batchPlan := { p_order : list string; p_runs : gmap string (list run) }.

(** The runs of an index; none when the map has no entry. *)
Definition runs_of (p : batchPlan) (idx : string) : list run := default [] (p_runs p !! idx).

Definition new_run (kind : runKind) (primaryKey : string) : run :=
  {| r_kind := kind; r_primaryKey := primaryKey; r_docs := []; r_ids := []; r_pos := ∅; r_eventIDs := [] |}.

(** Later fields win, fields only the earlier document has survive. *)
Definition addDoc (id : string) (d : columns) (r : run) : run :=
  match r_pos r !! id with
  | Some at_ =>
      let merged := match r_kind r with
                    | runPartial => d ∪ default ∅ (r_docs r !! at_)
                    | _ => d
                    end in
      {| r_kind := r_kind r; r_primaryKey := r_primaryKey r; r_docs := <[at_ := merged]> (r_docs r);
         r_ids := r_ids r; r_pos := r_pos r; r_eventIDs := r_eventIDs r |}
  | None =>
      {| r_kind := r_kind r; r_primaryKey := r_primaryKey r; r_docs := r_docs r ++ [d];
         r_ids := r_ids r; r_pos := <[id := length (r_docs r)]> (r_pos r); r_eventIDs := r_eventIDs r |}
  end.

Definition addID (id : string) (r : run) : run :=
  match r_pos r !! id with
  | Some _ => r
  | None =>
      {| r_kind := r_kind r; r_primaryKey := r_primaryKey r; r_docs := r_docs r;
         r_ids := r_ids r ++ [id]; r_pos := <[id := length (r_ids r)]> (r_pos r); r_eventIDs := r_eventIDs r |}
  end.

Definition add_event (id : string) (r : run) : run :=
  {| r_kind := r_kind r; r_primaryKey := r_primaryKey r; r_docs := r_docs r; r_ids := r_ids r;
     r_pos := r_pos r; r_eventIDs := r_eventIDs r ++ [id] |}.

(** [runFor] with what the caller then does to the run it returns: the index's
    trailing run when it has the same kind, or a new one. *)
Definition runFor (idx : string) (kind : runKind) (primaryKey : string) (fill : run -> run) (p : batchPlan)
    : batchPlan :=
  let order := match p_runs p !! idx with Some _ => p_order p | None => p_order p ++ [idx] end in
  let runs := runs_of p idx in
  match last runs with
  | Some r =>
      if decide (r_kind r = kind /\ kind <> runClear) then
        {| p_order := order; p_runs := <[idx := <[length runs - 1 := fill r]> runs]> (p_runs p) |}
      else {| p_order := order; p_runs := <[idx := runs ++ [fill (new_run kind primaryKey)]]> (p_runs p) |}
  | None => {| p_order := order; p_runs := <[idx := runs ++ [fill (new_run kind primaryKey)]]> (p_runs p) |}
  end.

(** The key of a document: [fmt.Sprint] of a non-null field. *)
Definition doc_id (primaryKey : string) (d : columns) : option string :=
  match d !! primaryKey with
  | Some v => if is_nil v then None else Some (fmtV v)
  | None => None
  end.

(** What the documents of an event ask of its index. *)
Inductive change :=
  | CNone
  | CDoc (kind : runKind) (id : string) (d : columns)
  | CDelete (id : string)
  | CClear
  | CInvalid (err : error).

Definition event_change (primaryKey : string) (e : CDCEvent) : change :=
  let upsert kind :=
    match NewData e with
    | None => CNone
    | Some row =>
        match doc_id primaryKey row with
        | Some id => CDoc kind id row
        | None => CInvalid (EPermanent (EMsg ("event " +:+ ID e +:+ " for " +:+ FullTableName e
                    +:+ " has no value for meilisearch primary key " +:+ quoted primaryKey)%string))
        end
    end in
  match Op e with
  | OperationInsert | OperationRead => upsert runReplace
  | OperationUpdate => upsert runPartial
  | OperationDelete =>
      match OldData e with
      | None => CNone
      | Some row => match doc_id primaryKey row with Some id => CDelete id | None => CNone end
      end
  | OperationTruncate => CClear
  | OperationInvalid _ => CNone
  end.

(** One iteration of [plan]'s loop. *)
Definition plan_event (cfg : meili_tables) (p : batchPlan) (e : CDCEvent) : res batchPlan :=
  match GetIndex cfg (Schema e) (Table e) with
  | None => inl p
  | Some idx =>
      let primaryKey := GetPrimaryKey cfg (Schema e) (Table e) in
      match event_change primaryKey e with
      | CNone => inl p
      | CDoc kind id d => inl (runFor idx kind primaryKey (fun r => add_event (ID e) (addDoc id d r)) p)
      | CDelete id => inl (runFor idx runDelete primaryKey (fun r => add_event (ID e) (addID id r)) p)
      | CClear => inl (runFor idx runClear primaryKey (add_event (ID e)) p)
      | CInvalid err => inr err
      end
  end.

Fixpoint plan_loop (cfg : meili_tables) (events : list CDCEvent) (p : batchPlan) : res batchPlan :=
  match events with
  | [] => inl p
  | e :: rest => match plan_event cfg p e with inl p' => plan_loop cfg rest p' | inr err => inr err end
  end.
Definition plan (cfg : meili_tables) (events : list CDCEvent) : res batchPlan :=
  plan_loop cfg events {| p_order := []; p_runs := ∅ |}.

(** The tasks in the order they are enqueued. *)
Definition plan_tasks (p : batchPlan) : list (string * run) :=
  concat (map (fun idx => map (pair idx) (runs_of p idx)) (p_order p)).

(** ** The server's side

    An index and the effect of a succeeded task on it, observed through the documents
    it holds. *)
Class MeiliIndex (I : Type) := {
  doc : string -> I -> option columns;
  AddDocuments : string -> list columns -> I -> I;
  UpdateDocuments : string -> list columns -> I -> I;
  DeleteDocuments : list string -> I -> I;
  DeleteAllDocuments : I -> I;
}.

(** Documents a task takes: each has a key, no two the same. *)
Definition keyed (primaryKey : string) (docs : list columns) : Prop :=
  Forall (fun d => is_Some (doc_id primaryKey d)) docs /\ NoDup (map (doc_id primaryKey) docs).

(** The documented behaviour: adding replaces documents, updating merges fields into
    them, deleting is by key, and other documents stay. *)
Class MeiliLaws (I : Type) `{!MeiliIndex I} := {
  add_hit pk docs (i : I) id d :
    keyed pk docs -> d ∈ docs -> doc_id pk d = Some id -> doc id (AddDocuments pk docs i) = Some d;
  add_miss pk docs (i : I) id :
    keyed pk docs -> Forall (fun d => doc_id pk d <> Some id) docs -> doc id (AddDocuments pk docs i) = doc id i;
  update_hit pk docs (i : I) id d :
    keyed pk docs -> d ∈ docs -> doc_id pk d = Some id ->
    doc id (UpdateDocuments pk docs i) = Some (d ∪ default ∅ (doc id i));
  update_miss pk docs (i : I) id :
    keyed pk docs -> Forall (fun d => doc_id pk d <> Some id) docs -> doc id (UpdateDocuments pk docs i) = doc id i;
  delete_documents ids (i : I) id :
    doc id (DeleteDocuments ids i) = if decide (id ∈ ids) then None else doc id i;
  delete_all (i : I) id : doc id (DeleteAllDocuments i) = None;
}.

Section server.
Context {I : Type} `{!MeiliIndex I}.

(** Two indexes are the same when they hold the same documents. *)
#[export] Instance index_equiv : Equiv I := fun i j => forall id, doc id i = doc id j.

(** The task of a run ([enqueue]'s switch), once it succeeded. *)
Definition enqueue (r : run) (i : I) : I :=
  match r_kind r with
  | runReplace => AddDocuments (r_primaryKey r) (r_docs r) i
  | runPartial => UpdateDocuments (r_primaryKey r) (r_docs r) i
  | runDelete => DeleteDocuments (r_ids r) i
  | runClear => DeleteAllDocuments i
  end.

(** The server applies an index's tasks in enqueue order. *)
Definition execute (tasks : list (string * run)) (idx : string) (i : I) : I :=
  foldl (fun i t => if decide (t.1 = idx) then enqueue t.2 i else i) i tasks.

(** The specification: an event is one operation on its own row's document. *)
Definition apply_change (primaryKey : string) (ch : change) (i : I) : I :=
  match ch with
  | CDoc runPartial _ d => UpdateDocuments primaryKey [d] i
  | CDoc _ _ d => AddDocuments primaryKey [d] i
  | CDelete id => DeleteDocuments [id] i
  | CClear => DeleteAllDocuments i
  | CNone | CInvalid _ => i
  end.
Definition apply_event (cfg : meili_tables) (idx : string) (i : I) (e : CDCEvent) : I :=
  if decide (GetIndex cfg (Schema e) (Table e) = Some idx)
  then apply_change (GetPrimaryKey cfg (Schema e) (Table e))
         (event_change (GetPrimaryKey cfg (Schema e) (Table e)) e) i
  else i.
End server.

(** ** Runs hold one document per key *)
Section runs.
Context (pk : string).

Record docs_ok (r : run) : Prop := {
  dk_key : r_primaryKey r = pk;
  dk_ids : Forall (fun d => is_Some (doc_id pk d)) (r_docs r);
  dk_pos : forall id n, r_pos r !! id = Some n <-> exists d, r_docs r !! n = Some d /\ doc_id pk d = Some id;
}.
Definition ids_ok (r : run) : Prop := forall id, is_Some (r_pos r !! id) <-> id ∈ r_ids r.
Definition run_ok (r : run) : Prop :=
  match r_kind r with runReplace | runPartial => docs_ok r | runDelete => ids_ok r | runClear => True end.

Definition run_doc (r : run) (id : string) : option columns := n ← r_pos r !! id; r_docs r !! n.

Lemma new_run_ok kind : run_ok (new_run kind pk).
Proof.
  assert (Hd : docs_ok (new_run kind pk)).
  { split; simpl; [done | constructor |]. intros id n. rewrite lookup_empty. split; [done|]. intros (d & [=] & _). }
  unfold run_ok. destruct kind; simpl; try done. intros id. simpl. rewrite lookup_empty.
  split; [intros [? [=]] | intros []%not_elem_of_nil].
Qed.

Lemma docs_ok_keyed r : docs_ok r -> keyed (r_primaryKey r) (r_docs r).
Proof.
  intros [Hk Hf Hp]. rewrite Hk. split; [done|]. apply NoDup_alt. intros n m o Hn Hm.
  change (map (doc_id pk) (r_docs r)) with (doc_id pk <$> r_docs r) in *.
  apply list_lookup_fmap_Some in Hn as (d & Hdn & Hd). apply list_lookup_fmap_Some in Hm as (d' & Hdm & Hd').
  destruct (Forall_lookup_1 _ _ _ _ Hf Hd) as [id Hid].
  assert (r_pos r !! id = Some n) by (apply Hp; eauto).
  assert (r_pos r !! id = Some m) by (apply Hp; exists d'; split; [done | congruence]). congruence.
Qed.

Lemma run_doc_Some r id d : docs_ok r -> run_doc r id = Some d -> d ∈ r_docs r /\ doc_id pk d = Some id.
Proof.
  intros [_ _ Hp]. unfold run_doc. destruct (r_pos r !! id) as [n|] eqn:Hn; simpl; [|done]. intros Hd.
  split; [by eapply list_elem_of_lookup_2|]. apply Hp in Hn as (d' & Hd' & Hid). congruence.
Qed.
Lemma run_doc_None r id : docs_ok r -> run_doc r id = None -> Forall (fun d => doc_id pk d <> Some id) (r_docs r).
Proof.
  intros [_ _ Hp] Hn. apply Forall_forall. intros d [n Hd]%list_elem_of_lookup Hid. unfold run_doc in Hn.
  assert (Hpos : r_pos r !! id = Some n) by (apply Hp; eauto). rewrite Hpos in Hn. simpl in Hn. congruence.
Qed.

(** What [addDoc] does to the documents by key. *)
Definition merged (kind : runKind) (d : columns) (old : option columns) : columns :=
  match kind, old with runPartial, Some o => d ∪ o | _, _ => d end.

Lemma doc_id_union d o id : doc_id pk d = Some id -> doc_id pk (d ∪ o) = Some id.
Proof.
  unfold doc_id. destruct (d !! pk) as [v|] eqn:Hv; [|done]. by rewrite (lookup_union_Some_l d o pk v Hv).
Qed.

Lemma addDoc_ok r id d :
  docs_ok r -> doc_id pk d = Some id ->
  docs_ok (addDoc id d r) /\ r_kind (addDoc id d r) = r_kind r /\
  forall id', run_doc (addDoc id d r) id' =
    if decide (id' = id) then Some (merged (r_kind r) d (run_doc r id)) else run_doc r id'.
Proof.
  intros [Hk Hf Hp] Hid. unfold addDoc, run_doc. destruct (r_pos r !! id) as [n|] eqn:Hn.
  - destruct (proj1 (Hp id n) Hn) as (o & Ho & Hoid). simpl. rewrite Ho. simpl.
    set (m := match r_kind r with runPartial => d ∪ o | _ => d end).
    assert (Hm : doc_id pk m = Some id) by (subst m; destruct (r_kind r); try done; by apply doc_id_union).
    assert (Hlen : n < length (r_docs r)) by (by eapply lookup_lt_Some).
    split; [split; simpl | split; [done|]].
    + exact Hk.
    + apply Forall_insert; [done | eauto].
    + intros id' n'. rewrite Hp. destruct (decide (n' = n)) as [->|Hne].
      * rewrite list_lookup_insert_eq by done. split; intros (d' & Hd' & Hdid).
        -- exists m. split; [done | congruence].
        -- exists o. split; [done | congruence].
      * by rewrite list_lookup_insert_ne.
    + intros id'. simpl. destruct (decide (id' = id)) as [->|Hne].
      * rewrite Hn. simpl. rewrite list_lookup_insert_eq by done. done.
      * destruct (r_pos r !! id') as [n'|] eqn:Hn'; simpl; [|done].
        rewrite list_lookup_insert_ne; [done|]. intros ->. apply Hp in Hn' as (o' & Ho' & Hoid').
        congruence.
  - split; [split; simpl | split; [done|]].
    + exact Hk.
    + apply Forall_app. split; [done|]. constructor; [eauto | constructor].
    + intros id' n'. destruct (decide (id' = id)) as [->|Hne].
      * rewrite lookup_insert_eq. split.
        -- intros [= <-]. exists d. split; [by apply list_lookup_middle | done].
        -- intros (d' & Hd' & Hdid). apply lookup_app_Some in Hd' as [Hd'|[Hge Hd']].
           ++ assert (r_pos r !! id = Some n') by (apply Hp; eauto). congruence.
           ++ apply list_lookup_singleton_Some in Hd' as [Hz _]. f_equal. lia.
      * rewrite lookup_insert_ne by done. rewrite Hp. split; intros (d' & Hd' & Hdid); exists d'; split; try done.
        -- by apply lookup_app_l_Some.
        -- apply lookup_app_Some in Hd' as [Hd'|[_ Hd']]; [done|].
           apply list_lookup_singleton_Some in Hd' as [_ <-]. congruence.
    + intros id'. simpl. destruct (decide (id' = id)) as [->|Hne].
      * rewrite lookup_insert_eq. simpl. rewrite list_lookup_middle by done. by destruct (r_kind r).
      * rewrite lookup_insert_ne by done. destruct (r_pos r !! id') as [n'|] eqn:Hn'; simpl; [|done].
        apply Hp in Hn' as (o' & Ho' & _). rewrite Ho'. by apply lookup_app_l_Some.
Qed.

Lemma addID_ok r id : ids_ok r -> ids_ok (addID id r) /\ r_kind (addID id r) = r_kind r /\
  forall id', id' ∈ r_ids (addID id r) <-> id' = id \/ id' ∈ r_ids r.
Proof.
  intros Hr. unfold addID. destruct (r_pos r !! id) as [n|] eqn:Hn.
  - split_and!; [done..|]. intros id'. split; [by right|]. intros [->|]; [|done]. apply Hr. by eauto.
  - split_and!; [|done|].
    + intros id'. simpl. rewrite elem_of_app, list_elem_of_singleton. destruct (decide (id' = id)) as [->|Hne].
      * rewrite lookup_insert_eq. split; eauto.
      * rewrite lookup_insert_ne by done. rewrite (Hr id'). split; [by left | intros [?|?]; done].
    + intros id'. simpl. rewrite elem_of_app, list_elem_of_singleton. split; intros [?|?]; auto.
Qed.
End runs.

(** ** A task has the effect of its events *)
Section effects.
Context {I : Type} `{!MeiliIndex I, !MeiliLaws I}.

#[export] Instance index_equivalence : Equivalence (≡@{I}).
Proof. split; [by intros i id | by intros i j H id | by intros i j k H1 H2 id; rewrite (H1 id)]. Qed.

Lemma enqueue_doc pk r (i : I) id : docs_ok pk r ->
  doc id (enqueue r i) =
    match r_kind r, run_doc r id with
    | runReplace, Some d => Some d
    | runPartial, Some d => Some (d ∪ default ∅ (doc id i))
    | runReplace, None | runPartial, None => doc id i
    | runDelete, _ => if decide (id ∈ r_ids r) then None else doc id i
    | runClear, _ => None
    end.
Proof.
  intros Hr. pose proof (docs_ok_keyed _ _ Hr) as Hk. pose proof (dk_key _ _ Hr) as Hpk. unfold enqueue.
  destruct (r_kind r).
  - destruct (run_doc r id) as [d|] eqn:Hd.
    + destruct (run_doc_Some _ _ _ _ Hr Hd). apply add_hit; [done | done | by rewrite Hpk].
    + apply add_miss; [done | rewrite Hpk; by apply run_doc_None].
  - destruct (run_doc r id) as [d|] eqn:Hd.
    + destruct (run_doc_Some _ _ _ _ Hr Hd). apply update_hit; [done | done | by rewrite Hpk].
    + apply update_miss; [done | rewrite Hpk; by apply run_doc_None].
  - apply delete_documents.
  - apply delete_all.
Qed.

Lemma enqueue_delete r (i : I) id : r_kind r = runDelete ->
  doc id (enqueue r i) = if decide (id ∈ r_ids r) then None else doc id i.
Proof. intros Hk. unfold enqueue. rewrite Hk. apply delete_documents. Qed.
Lemma enqueue_clear r (i : I) id : r_kind r = runClear -> doc id (enqueue r i) = None.
Proof. intros Hk. unfold enqueue. rewrite Hk. apply delete_all. Qed.

Lemma enqueue_proper pk r (i j : I) : run_ok pk r -> i ≡ j -> enqueue r i ≡ enqueue r j.
Proof.
  intros Hr Hij id. unfold run_ok in Hr. destruct (r_kind r) eqn:Hk.
  - rewrite !(enqueue_doc pk), Hk by done. by destruct (run_doc r id).
  - rewrite !(enqueue_doc pk), Hk by done. by rewrite (Hij id).
  - rewrite !enqueue_delete by done. by rewrite (Hij id).
  - by rewrite !enqueue_clear.
Qed.

Lemma keyed_one pk d id : doc_id pk d = Some id -> keyed pk [d].
Proof. intros Hd. split; [constructor; [eauto | constructor] | apply NoDup_singleton]. Qed.

Lemma apply_doc pk kind id d (i : I) id' : doc_id pk d = Some id ->
  doc id' (apply_change pk (CDoc kind id d) i) =
    if decide (id' = id)
    then Some (match kind with runPartial => d ∪ default ∅ (doc id' i) | _ => d end) else doc id' i.
Proof.
  intros Hd. pose proof (keyed_one _ _ _ Hd) as Hk. destruct (decide (id' = id)) as [->|Hne].
  - destruct kind; simpl; first [apply add_hit; try done; by apply list_elem_of_singleton
      | apply update_hit; try done; by apply list_elem_of_singleton].
  - assert (Hf : Forall (fun d => doc_id pk d <> Some id') [d]) by (constructor; [congruence | constructor]).
    destruct kind; simpl; first [by apply add_miss | by apply update_miss].
Qed.

(** Changes that make sense for a run of [kind]. *)
Definition fits (pk : string) (ch : change) (kind : runKind) (fill : run -> run) : Prop :=
  match ch with
  | CDoc k id d => kind = k /\ (k = runReplace \/ k = runPartial) /\ doc_id pk d = Some id /\
      forall r, r_kind (fill r) = r_kind r /\ r_primaryKey (fill r) = r_primaryKey r /\
        r_docs (fill r) = r_docs (addDoc id d r) /\ r_pos (fill r) = r_pos (addDoc id d r)
  | CDelete id => kind = runDelete /\
      forall r, r_kind (fill r) = r_kind r /\ r_ids (fill r) = r_ids (addID id r) /\ r_pos (fill r) = r_pos (addID id r)
  | CClear => kind = runClear /\ forall r, r_kind (fill r) = r_kind r
  | CNone | CInvalid _ => False
  end.

Lemma apply_change_proper pk ch kind fill (i j : I) :
  fits pk ch kind fill -> i ≡ j -> apply_change pk ch i ≡ apply_change pk ch j.
Proof.
  intros Hf Hij id. destruct ch as [|k id0 d|id0| |]; try done.
  - destruct Hf as (_ & _ & Hd & _). rewrite !apply_doc by done. by rewrite (Hij id).
  - simpl. by rewrite !delete_documents, (Hij id).
  - simpl. by rewrite !delete_all.
Qed.

(** Filling a run has the change's effect after the run's. *)
Lemma fill_effect pk ch kind fill r :
  fits pk ch kind fill -> run_ok pk r -> r_kind r = kind ->
  run_ok pk (fill r) /\ r_kind (fill r) = kind /\
  (kind <> runClear -> forall i : I, enqueue (fill r) i ≡ apply_change pk ch (enqueue r i)) /\
  (kind = runClear -> forall i : I, enqueue (fill r) i ≡ apply_change pk ch i).
Proof.
  intros Hf Hr Hk. destruct ch as [|k id d|id| |]; try done; simpl in Hf.
  - destruct Hf as (-> & Hkind & Hd & Hfill). destruct (Hfill r) as (Ek & Ep & Ed & Epos).
    assert (Hdocs : docs_ok pk r) by (unfold run_ok in Hr; rewrite Hk in Hr; by destruct Hkind as [-> | ->]).
    destruct (addDoc_ok pk r id d Hdocs Hd) as ([Ak Af Ap] & Akind & Adoc).
    assert (Hok : docs_ok pk (fill r)).
    { split; [rewrite Ep; apply (dk_key _ _ Hdocs) | by rewrite Ed | intros id' n; by rewrite Epos, Ed]. }
    assert (Hdoc : forall id', run_doc (fill r) id' = run_doc (addDoc id d r) id').
    { intros id'. unfold run_doc. by rewrite Epos, Ed. }
    split_and!; [unfold run_ok; rewrite Ek, Hk; by destruct Hkind as [-> | ->] | congruence | |
                 intros Hc; destruct Hkind; congruence].
    intros _ i id'. rewrite (enqueue_doc pk), apply_doc, (enqueue_doc pk), Ek, Hdoc, Adoc, Hk by done.
    destruct (decide (id' = id)) as [->|Hne]; [|by destruct Hkind as [-> | ->]].
    destruct Hkind as [-> | ->]; [done|]. simpl. f_equal. destruct (run_doc r id) as [o|]; simpl; [|done].
    by rewrite (assoc_L (∪)).
  - destruct Hf as (-> & Hfill). destruct (Hfill r) as (Ek & Eids & Epos).
    assert (Hids : ids_ok r) by (unfold run_ok in Hr; by rewrite Hk in Hr).
    destruct (addID_ok r id Hids) as (Aok & _ & Aids).
    split_and!; [unfold run_ok; rewrite Ek, Hk; intros id'; by rewrite Epos, Eids | congruence | | done].
    intros _ i id'. rewrite enqueue_delete by congruence. simpl. rewrite delete_documents, enqueue_delete by done.
    rewrite Eids. specialize (Aids id'). rewrite <- (list_elem_of_singleton id' id) in Aids.
    repeat case_decide; tauto.
  - destruct Hf as (-> & Hfill). split_and!; [unfold run_ok; by rewrite (Hfill r), Hk | by rewrite (Hfill r) | done |].
    intros _ i id'. rewrite enqueue_clear by (by rewrite (Hfill r)). simpl. by rewrite delete_all.
Qed.
End effects.

(** ** The plan has the effect of the batch *)
Section planning.
Context {I : Type} `{!MeiliIndex I, !MeiliLaws I}.
Context (cfg : meili_tables) (pk_of : string -> string).

Definition run_all (rs : list run) (i : I) : I := foldl (fun i r => enqueue r i) i rs.

Record plan_ok (p : batchPlan) : Prop := {
  pk_runs : forall idx, Forall (run_ok (pk_of idx)) (runs_of p idx);
  pk_order : NoDup (p_order p);
  pk_listed : forall idx, idx ∈ p_order p <-> is_Some (p_runs p !! idx);
}.

Lemma run_all_proper pk rs (i j : I) : Forall (run_ok pk) rs -> i ≡ j -> run_all rs i ≡ run_all rs j.
Proof.
  intros Hrs. revert i j. induction Hrs as [|r rs Hr Hrs IH]; intros i j Hij; [done|].
  apply IH. by eapply enqueue_proper.
Qed.

Lemma new_run_effect pk kind (i : I) : kind <> runClear -> enqueue (new_run kind pk) i ≡ i.
Proof.
  intros Hk id. pose proof (new_run_ok pk kind) as Hr. destruct kind; try done.
  - rewrite (enqueue_doc pk); done.
  - rewrite (enqueue_doc pk); done.
  - rewrite enqueue_delete by done. rewrite decide_False; [done | apply not_elem_of_nil].
Qed.

(** The runs [runFor] leaves for an index. *)
Definition filled (rs rs' : list run) (fill : run -> run) (kind : runKind) (pk : string) : Prop :=
  (exists init r, rs = init ++ [r] /\ r_kind r = kind /\ kind <> runClear /\ rs' = init ++ [fill r]) \/
  rs' = rs ++ [fill (new_run kind pk)].

Lemma runFor_other idx kind pk fill p idx' :
  idx' <> idx -> p_runs (runFor idx kind pk fill p) !! idx' = p_runs p !! idx'.
Proof.
  intros Hne. unfold runFor. destruct (last (runs_of p idx)) as [r|]; [destruct (decide _)|];
    simpl; by rewrite lookup_insert_ne.
Qed.
Lemma runFor_order idx kind pk fill p :
  p_order (runFor idx kind pk fill p) =
    match p_runs p !! idx with Some _ => p_order p | None => p_order p ++ [idx] end /\
  is_Some (p_runs (runFor idx kind pk fill p) !! idx).
Proof.
  unfold runFor. destruct (last (runs_of p idx)) as [r|]; [destruct (decide _)|];
    simpl; rewrite lookup_insert_eq; eauto.
Qed.
Lemma runFor_filled idx kind pk fill p :
  filled (runs_of p idx) (runs_of (runFor idx kind pk fill p) idx) fill kind pk.
Proof.
  unfold runFor. destruct (last (runs_of p idx)) as [r|] eqn:Hl;
    [destruct (decide (r_kind r = kind /\ kind <> runClear)) as [[Hk Hc]|]|];
    unfold runs_of at 2; simpl; rewrite lookup_insert_eq; simpl; [left | by right | by right].
  apply last_Some in Hl as [init ->]. exists init, r. split_and!; [done..|].
  rewrite length_app. simpl. replace (length init + 1 - 1) with (length init + 0) by lia.
  by rewrite insert_app_r.
Qed.

Lemma filled_effect rs rs' fill kind pk ch :
  fits pk ch kind fill -> Forall (run_ok pk) rs -> filled rs rs' fill kind pk ->
  Forall (run_ok pk) rs' /\ forall i : I, run_all rs' i ≡ apply_change pk ch (run_all rs i).
Proof.
  intros Hf Hrs [(init & r & -> & Hk & Hc & ->)| ->].
  - apply Forall_app in Hrs as [Hinit [Hr _]%Forall_cons]. destruct (fill_effect (I := I) pk ch kind fill r Hf Hr Hk) as (Hok & _ & Heff & _).
    split; [by apply Forall_app; split; [|constructor]|]. intros i. unfold run_all. rewrite !foldl_app.
    by apply Heff.
  - pose proof (new_run_ok pk kind) as Hr.
    destruct (fill_effect (I := I) pk ch kind fill (new_run kind pk) Hf Hr eq_refl) as (Hok & _ & Heff & Hcl).
    split; [by apply Forall_app; split; [|constructor]|]. intros i. unfold run_all. rewrite foldl_app. simpl.
    destruct (decide (kind = runClear)) as [Hc|Hc]; [by apply Hcl|].
    rewrite (Heff Hc). eapply apply_change_proper; [done|]. by apply new_run_effect.
Qed.

Lemma runFor_ok idx kind fill ch p :
  fits (pk_of idx) ch kind fill -> plan_ok p -> plan_ok (runFor idx kind (pk_of idx) fill p).
Proof.
  intros Hf [Hruns Hord Hlist]. destruct (runFor_order idx kind (pk_of idx) fill p) as [Ho Hs]. split.
  - intros idx'. destruct (decide (idx' = idx)) as [->|Hne].
    + by apply (filled_effect _ _ _ _ _ ch Hf (Hruns idx) (runFor_filled idx kind (pk_of idx) fill p)).
    + unfold runs_of. rewrite runFor_other by done. apply Hruns.
  - rewrite Ho. destruct (p_runs p !! idx) eqn:Hp; [done|]. apply NoDup_app. split_and!; [done | | apply NoDup_singleton].
    intros x Hx ->%list_elem_of_singleton. apply Hlist in Hx as [? ?]. congruence.
  - intros idx'. rewrite Ho. destruct (decide (idx' = idx)) as [->|Hne].
    + split; [done|]. intros _. destruct (p_runs p !! idx) eqn:Hp; [apply Hlist; eauto|].
      apply elem_of_app. right. by apply list_elem_of_singleton.
    + rewrite runFor_other by done. rewrite <- Hlist. destruct (p_runs p !! idx); [done|].
      rewrite elem_of_app, list_elem_of_singleton. tauto.
Qed.

Context (Hkeys : key_per_index cfg pk_of).

Lemma event_doc_keyed idx e kind id d :
  event_change (pk_of idx) e = CDoc kind id d ->
  doc_id (pk_of idx) d = Some id /\ (kind = runReplace \/ kind = runPartial).
Proof.
  unfold event_change.
  destruct (Op e), (NewData e) as [nd|], (OldData e) as [od|]; try done;
    try (destruct (doc_id (pk_of idx) nd) eqn:?; [|done]); try (destruct (doc_id (pk_of idx) od); done);
    intros [= <- <- <-]; auto.
Qed.

Lemma apply_events_proper idx events (i j : I) :
  i ≡ j -> foldl (apply_event cfg idx) i events ≡ foldl (apply_event cfg idx) j events.
Proof.
  revert i j. induction events as [|e events IH]; intros i j Hij; [done|]. simpl. apply IH. unfold apply_event.
  destruct (decide _) as [Hg|]; [|done]. rewrite (Hkeys _ _ _ Hg). intros id.
  destruct (event_change (pk_of idx) e) as [|kind id0 d|id0| |] eqn:Hch; try apply Hij.
  - destruct (event_doc_keyed _ _ _ _ _ Hch) as [Hd _]. rewrite !apply_doc by done. by rewrite (Hij id).
  - simpl. by rewrite !delete_documents, (Hij id).
  - simpl. by rewrite !delete_all.
Qed.

Lemma plan_event_effect p e p' idx (i : I) :
  plan_ok p -> plan_event cfg p e = inl p' ->
  plan_ok p' /\ run_all (runs_of p' idx) i ≡ apply_event cfg idx (run_all (runs_of p idx) i) e.
Proof.
  intros Hp. unfold plan_event, apply_event. destruct (GetIndex cfg (Schema e) (Table e)) as [idx0|] eqn:Hg.
  2: { intros [= <-]. split; [done|]. by rewrite decide_False. }
  rewrite (Hkeys _ _ _ Hg). set (ch := event_change (pk_of idx0) e).
  assert (Hgo : forall kind fill, fits (pk_of idx0) ch kind fill ->
    inl (runFor idx0 kind (pk_of idx0) fill p) = inl (B:=error) p' ->
    plan_ok p' /\ run_all (runs_of p' idx) i ≡
      (if decide (Some idx0 = Some idx) then apply_change (pk_of idx0) ch (run_all (runs_of p idx) i)
       else run_all (runs_of p idx) i)).
  { intros kind fill Hf [= <-]. split; [by eapply runFor_ok|].
    destruct (decide (Some idx0 = Some idx)) as [[= ->]|Hne].
    - by apply (filled_effect _ _ _ _ _ ch Hf (pk_runs _ Hp idx) (runFor_filled idx kind (pk_of idx) fill p)).
    - unfold runs_of. by rewrite runFor_other by congruence. }
  destruct ch as [|kind id d|id| |err] eqn:Hch; try done.
  - intros [= <-]. split; [done|]. by destruct (decide _).
  - destruct (event_doc_keyed _ _ _ _ _ Hch) as [Hd Hk]. apply Hgo. simpl. split_and!; [done..|].
    intros r. split_and!; try done; unfold add_event, addDoc; simpl; by destruct (r_pos r !! id).
  - apply Hgo. split; [done|]. intros r. split_and!; try done. unfold add_event, addID. simpl.
    by destruct (r_pos r !! id).
  - by apply Hgo.
Qed.

Lemma plan_loop_effect events p p' idx (i : I) :
  plan_ok p -> plan_loop cfg events p = inl p' ->
  plan_ok p' /\ run_all (runs_of p' idx) i ≡ foldl (apply_event cfg idx) (run_all (runs_of p idx) i) events.
Proof.
  revert p. induction events as [|e events IH]; intros p Hp; simpl.
  - by intros [= <-].
  - destruct (plan_event cfg p e) as [p1|] eqn:He; [|done]. intros Hl.
    destruct (plan_event_effect p e p1 idx i Hp He) as [Hp1 Heff].
    destruct (IH p1 Hp1 Hl) as [Hp' Hall]. split; [done|]. rewrite Hall. by apply apply_events_proper.
Qed.

(** Executing every index's tasks runs, on one index, its own runs. *)
Lemma execute_own idx rs (i : I) : execute (map (pair idx) rs) idx i = run_all rs i.
Proof.
  unfold execute, run_all. revert i. induction rs as [|r rs IH]; intros i; [done|]. simpl.
  by rewrite decide_True.
Qed.
Lemma execute_other idx idx' rs (i : I) : idx' <> idx -> execute (map (pair idx') rs) idx i = i.
Proof.
  intros Hne. unfold execute. revert i. induction rs as [|r rs IH]; intros i; [done|]. simpl.
  by rewrite decide_False.
Qed.
Lemma execute_app ts ts' idx (i : I) : execute (ts ++ ts') idx i = execute ts' idx (execute ts idx i).
Proof. apply foldl_app. Qed.

Lemma execute_indexes p order idx (i : I) :
  NoDup order ->
  execute (concat (map (fun x => map (pair x) (runs_of p x)) order)) idx i =
    if decide (idx ∈ order) then run_all (runs_of p idx) i else i.
Proof.
  revert i. induction order as [|x order IH]; intros i Hnd; simpl.
  - done.
  - inversion_clear Hnd as [|? ? Hx Hnd']. rewrite execute_app, IH by done.
    destruct (decide (x = idx)) as [->|Hne].
    + rewrite execute_own. rewrite decide_False by done. by rewrite decide_True by left.
    + rewrite execute_other by done. destruct (decide (idx ∈ order)) as [Hin|Hin].
      * by rewrite decide_True by (by right).
      * rewrite decide_False; [done|]. intros [Heq|?]%elem_of_cons; congruence.
Qed.

Lemma plan_tasks_effect p idx (i : I) : plan_ok p -> execute (plan_tasks p) idx i = run_all (runs_of p idx) i.
Proof.
  intros [_ Hord Hlist]. unfold plan_tasks. rewrite execute_indexes by done.
  destruct (decide (idx ∈ p_order p)) as [|Hn]; [done|]. unfold runs_of.
  destruct (p_runs p !! idx) eqn:He; [|done]. destruct Hn. apply Hlist. eauto.
Qed.

Lemma empty_plan_ok : plan_ok {| p_order := []; p_runs := ∅ |}.
Proof.
  split; simpl; [by intros idx; unfold runs_of; simpl; rewrite lookup_empty | constructor |].
  intros idx. rewrite lookup_empty. split; [intros []%not_elem_of_nil | by intros [? [=]]].
Qed.
End planning.

(** C18: Whatever the batch, the few deduplicated tasks it is planned into leave every
    index with exactly the documents that applying its events one at a time, in
    order, would leave: replacing, merging, deleting and clearing included, also when
    several tables feed one index. *)
Theorem plan_equals_one_by_one {I} `{!MeiliIndex I, !MeiliLaws I} cfg settings events p idx (i : I) :
  IndexSettings cfg = inl settings -> plan cfg events = inl p ->
  forall id, doc id (execute (plan_tasks p) idx i) = doc id (foldl (apply_event cfg idx) i events).
Proof.
  intros Hs Hp. pose proof (IndexSettings_key_per_index _ _ Hs) as Hkeys.
  destruct (plan_loop_effect cfg _ Hkeys events _ p idx i (empty_plan_ok _) Hp) as [Hok Heff].
  rewrite (plan_tasks_effect _ p idx i Hok). intros id. rewrite (Heff id).
  unfold runs_of. simpl. by rewrite lookup_empty.
Qed.

(** ** Enqueuing a batch and waiting for it *)
Inductive taskStatus := TaskEnqueued | TaskProcessing | TaskSucceeded | TaskFailed | TaskCanceled.
Record Task := {
  t_UID : Z;
  t_Status : taskStatus;
  t_ErrorType : string;
  t_ErrorMessage : string;
  t_ErrorCode : string;
}.
Record enqueuedTask := { et_uid : Z; et_index : string; et_run : run }.
Record inflight := { if_key : string; if_tasks : list enqueuedTask }.

Definition taskStatus_String (s : taskStatus) : string :=
  match s with
  | TaskEnqueued => "enqueued"
  | TaskProcessing => "processing"
  | TaskSucceeded => "succeeded"
  | TaskFailed => "failed"
  | TaskCanceled => "canceled"
  end.

(** Milliseconds of [taskPollInterval], in nanoseconds. *)
Definition taskPollInterval : Z := 20 * 1000000.

(** What a wait ends with: the result, the panic on a task nobody asked for, or, in
    the model only, too little fuel. *)
Inductive waited := Returned (err : option error) | Panicked | Waiting.

(** The failed task with the smaller UID. *)
Definition worse (failed : option Task) (t : Task) : option Task :=
  match failed with
  | None => Some t
  | Some f => if decide (t_UID t < t_UID f)%Z then Some t else Some f
  end.

(** The loop over a poll's results: how many finished, and the first failure. *)
Fixpoint scan (results : list Task) (finished : nat) (failed : option Task) : nat * option Task :=
  match results with
  | [] => (finished, failed)
  | t :: rest =>
      match t_Status t with
      | TaskSucceeded => scan rest (S finished) failed
      | TaskFailed | TaskCanceled => scan rest (S finished) (worse failed t)
      | TaskEnqueued | TaskProcessing => scan rest finished failed
      end
  end.

(** [byUID]: a later task of the same UID overwrites. *)
Definition byUID (tasks : list enqueuedTask) : gmap Z enqueuedTask :=
  foldl (fun m t => <[et_uid t := t]> m) ∅ tasks.

Definition nat_text (n : nat) : string := pretty (Z.of_nat n).

Definition task_error (t : enqueuedTask) (failed : Task) : error :=
  let err := EWrap "" (ESentinel ErrTaskFailed)
    (": task " +:+ pretty (t_UID failed) +:+ " (" +:+ runKind_String (r_kind (et_run t)) +:+ " on "
       +:+ quoted (et_index t) +:+ ", " +:+ nat_text (length (r_eventIDs (et_run t))) +:+ " events) "
       +:+ taskStatus_String (t_Status failed) +:+ ": " +:+ t_ErrorMessage failed
       +:+ " (" +:+ t_ErrorCode failed +:+ ")")%string in
  if decide (t_ErrorType failed = "invalid_request") then EPermanent err else err.

(** What one poll decides; [None] is to poll again. *)
Definition poll_result (tasks : list enqueuedTask) (results : list Task) : option waited :=
  let n := length tasks in
  if decide (length results < n) then
    Some (Returned (Some (EWrap "" (ESentinel ErrTasksLost)
      (": " +:+ nat_text (n - length results) +:+ " of " +:+ nat_text n +:+ " tasks not found")%string)))
  else
    let '(finished, failed) := scan results 0 None in
    if decide (finished = n) then
      Some match failed with
           | None => Returned None
           | Some f => match byUID tasks !! t_UID f with
                       | Some t => Returned (Some (task_error t f))
                       | None => Panicked
                       end
           end
    else None.

(** [batchKey] *)
Definition batchKey (events : list CDCEvent) : string :=
  let id o := match o with Some e => ID e | None => "" end in
  (nat_text (length events) +:+ unit_sep +:+ id (head events) +:+ unit_sep +:+ id (last events))%string.

Section process.
Context {W : Type} `{!World W} (cfg : meili_tables).
(** The client: enqueuing a run's task, querying tasks by UID, the HTTP status an API
    error carries, and the select between the context and the ticker. *)
Context (Enqueue : Ctx -> string -> run -> ST W (res Z)).
Context (GetTasks : Ctx -> list Z -> ST W (res (list Task))).
Context (StatusCode : error -> option Z).
Context (wait : Ctx -> Z -> ST W bool).

Definition classifyAPIError (e : error) : error :=
  match StatusCode e with
  | Some s => if decide (400 <= s < 500 /\ s <> 408 /\ s <> 429 /\ s <> 401 /\ s <> 403)%Z
              then EPermanent e else e
  | None => e
  end.

Definition resumable (key : string) (pending : option inflight) : option (list enqueuedTask) :=
  match pending with
  | Some f => if decide (if_key f = key) then Some (if_tasks f) else None
  | None => None
  end.
Definition remember (key : string) (tasks : list enqueuedTask) (_ : option inflight) : option inflight :=
  Some {| if_key := key; if_tasks := tasks |}.
Definition forget (key : string) (pending : option inflight) : option inflight :=
  match pending with
  | Some f => if decide (if_key f = key) then None else Some f
  | None => None
  end.

(** The receive from [ticker.C]. The ticker fires at every multiple of the interval
    from [start] on and its channel buffers one tick: when a tick has fired since the
    last one received, the [last]-th, it is received at once and those it hid are
    dropped; otherwise the receive waits for the next. *)
Definition next_tick (start last t : Z) : Z * Z :=
  let fired := ((t - start) / taskPollInterval)%Z in
  if decide (last < fired)%Z then (0%Z, fired)
  else ((start + (last + 1) * taskPollInterval - t)%Z, (last + 1)%Z).

Fixpoint poll_loop (fuel : nat) (c : Ctx) (tasks : list enqueuedTask) (start last : Z) : ST W waited :=
  match fuel with
  | 0 => ret Waiting
  | S fuel' =>
      let! r := GetTasks c (map et_uid tasks) in
      match r with
      | inr e => ret (Returned (Some (EWrap "poll meilisearch tasks: " e "")))
      | inl results =>
          match poll_result tasks results with
          | Some out => ret out
          | None =>
              let! w := get in
              let '(rest, tick) := next_tick start last (now w) in
              let! done := wait c rest in
              if (done : bool) then
                let! w := get in
                ret (Returned (Some (EWrap "wait for meilisearch tasks: "
                                       (default (EMsg "<nil>") (ctx_err c w)) "")))
              else poll_loop fuel' c tasks start tick
          end
      end
  end.
Definition awaitTasks (fuel : nat) (c : Ctx) (tasks : list enqueuedTask) : ST W waited :=
  let! w := get in
  poll_loop fuel c tasks (now w) 0.

(** The two loops that enqueue the plan. *)
Fixpoint enqueue_tasks (c : Ctx) (todo : list (string * run)) : ST W (res (list enqueuedTask)) :=
  match todo with
  | [] => ret (inl [])
  | (idx, r) :: rest =>
      let! res := Enqueue c idx r in
      match res with
      | inr e => ret (inr (EWrap ("meilisearch " +:+ runKind_String (r_kind r) +:+ " on " +:+ quoted idx
                                    +:+ ": ")%string (classifyAPIError e) ""))
      | inl uid =>
          let! ts := enqueue_tasks c rest in
          ret match ts with
              | inl ts => inl ({| et_uid := uid; et_index := idx; et_run := r |} :: ts)
              | inr e => inr e
              end
      end
  end.

(** Waiting, and forgetting the batch unless its wait was interrupted. *)
Definition await_batch (fuel : nat) (c : Ctx) (key : string) (tasks : list enqueuedTask)
    : ST (option inflight * W) waited :=
  let! out := inner (awaitTasks fuel c tasks) in
  seq! own (modify (match out with
                    | Returned None => forget key
                    | Returned (Some e) => if Is e ErrTaskFailed || Is e ErrTasksLost then forget key else id
                    | _ => id
                    end)) in
  ret out.

Definition Meili_Process (fuel : nat) (c : Ctx) (events : list CDCEvent) : ST (option inflight * W) waited :=
  match events with
  | [] => ret (Returned None)
  | _ =>
      let key := batchKey events in
      let! st := get in
      match resumable key st.1 with
      | Some tasks => await_batch fuel c key tasks
      | None =>
          match plan cfg events with
          | inr e => ret (Returned (Some e))
          | inl p =>
              match p_order p with
              | [] => ret (Returned None)
              | _ =>
                  let! r := inner (enqueue_tasks c (plan_tasks p)) in
                  match r with
                  | inr e => ret (Returned (Some e))
                  | inl tasks =>
                      seq! own (modify (remember key tasks)) in
                      await_batch fuel c key tasks
                  end
              end
          end
      end
  end.

(** What the server documents of a query by UID: only tasks asked for, each once. *)
Definition query_answers : Prop :=
  forall c uids w results w', GetTasks c uids w = (inl results, w') ->
    NoDup (map t_UID results) /\ forall r, r ∈ results -> t_UID r ∈ uids.

Lemma worse_Some failed t : exists f, worse failed t = Some f /\ (f = t \/ failed = Some f).
Proof. unfold worse. destruct failed; [destruct (decide _)|]; eauto. Qed.

Lemma scan_spec results n failed :
  exists k, scan results n failed = (n + k, (scan results n failed).2) /\ k <= length results /\
  ((scan results n failed).2 = None -> k = length results -> failed = None /\
     Forall (fun t => t_Status t = TaskSucceeded) results) /\
  (forall f, (scan results n failed).2 = Some f -> failed = Some f \/ f ∈ results).
Proof.
  revert n failed. induction results as [|t rest IH]; intros n failed; simpl.
  { exists 0. rewrite Nat.add_0_r. split_and!; [done | lia | by intros -> | by left]. }
  destruct (t_Status t) eqn:Hs.
  1-2: destruct (IH n failed) as (k & Hk & Hle & Hall & Hf); exists k; split_and!; [done | lia | lia |];
    intros f Hff; destruct (Hf f Hff); [by left | right; by right].
  2-3: destruct (worse_Some failed t) as (f0 & -> & Hf0), (IH (S n) (Some f0)) as (k & Hk & Hle & Hall & Hf);
    exists (S k); split_and!; [by rewrite Nat.add_succ_r | lia |
      intros Hnone Hlen; destruct (Hall Hnone) as [[=] _]; lia |
      intros f Hff; destruct (Hf f Hff) as [[= <-]|]; [|right; by right]; destruct Hf0 as [->|];
        [right; left | by left]].
  destruct (IH (S n) failed) as (k & Hk & Hle & Hall & Hf). exists (S k).
  split_and!; [by rewrite Nat.add_succ_r | lia | |].
  - intros Hnone Hlen. destruct (Hall Hnone) as [-> Hrest]; [lia|]. split; [done | by constructor].
  - intros f Hff. destruct (Hf f Hff); [by left | right; by right].
Qed.

(** A batch's tasks, all of them reported as succeeded by one poll. *)
Definition all_succeeded (tasks : list enqueuedTask) (results : list Task) : Prop :=
  forall t, t ∈ tasks -> exists r, r ∈ results /\ t_UID r = et_uid t /\ t_Status r = TaskSucceeded.

Lemma poll_success tasks results :
  NoDup (map t_UID results) -> (forall r, r ∈ results -> t_UID r ∈ map et_uid tasks) ->
  poll_result tasks results = Some (Returned None) -> all_succeeded tasks results.
Proof.
  intros Hnd Hin. unfold poll_result. destruct (decide _) as [|Hge]; [done|].
  destruct (scan_spec results 0 None) as (k & -> & Hk & Hall & _).
  assert (Hincl : incl (map t_UID results) (map et_uid tasks)).
  { intros u Hu%list_elem_of_In. change (map t_UID results) with (t_UID <$> results) in Hu.
    apply list_elem_of_fmap in Hu as (r & -> & Hr). by apply list_elem_of_In, Hin. }
  assert (Hle : length results <= length tasks).
  { rewrite <- (length_map t_UID results), <- (length_map et_uid tasks).
    apply List.NoDup_incl_length; [by apply NoDup_ListNoDup | done]. }
  destruct (decide (0 + k = length tasks)) as [Hfin|]; [|done].
  destruct ((scan results 0 None).2) as [f|]; [by destruct (byUID tasks !! t_UID f)|]. intros _.
  destruct Hall as [_ Hsucc]; [done | lia |]. intros t Ht.
  assert (Hu : et_uid t ∈ map t_UID results).
  { apply list_elem_of_In. 
    assert (Hback : incl (map et_uid tasks) (map t_UID results)).
    { apply List.NoDup_length_incl; [by apply NoDup_ListNoDup | rewrite !length_map; lia | done]. }
    apply Hback, List.in_map. by apply list_elem_of_In. }
  change (map t_UID results) with (t_UID <$> results) in Hu. apply list_elem_of_fmap in Hu as (r & He & Hr).
  exists r. split_and!; [done | done |]. by apply (proj1 (Forall_forall _ _) Hsucc).
Qed.

Lemma poll_loop_success fuel c tasks start last w w' :
  query_answers -> poll_loop fuel c tasks start last w = (Returned None, w') ->
  exists results w1, GetTasks c (map et_uid tasks) w1 = (inl results, w') /\ all_succeeded tasks results.
Proof.
  intros Hq. revert last w. induction fuel as [|fuel IH]; intros last w; cbn [poll_loop]; [done|]. unfold bind, ret, get.
  destruct (GetTasks c (map et_uid tasks) w) as [[results|e] w1] eqn:Hg; [|done].
  destruct (poll_result tasks results) as [out|] eqn:Hp.
  - intros [= -> <-]. exists results, w. split; [done|]. destruct (Hq _ _ _ _ _ Hg). by apply poll_success.
  - destruct (next_tick start last (now w1)) as [rest tick]. destruct (wait c rest w1) as [[|] w2]; [done|]. apply IH.
Qed.

Lemma awaitTasks_success fuel c tasks w w' :
  query_answers -> awaitTasks fuel c tasks w = (Returned None, w') ->
  exists results w1, GetTasks c (map et_uid tasks) w1 = (inl results, w') /\ all_succeeded tasks results.
Proof. apply poll_loop_success. Qed.

Lemma forget_key key p : resumable key (forget key p) = None.
Proof. destruct p as [f|]; simpl; [|done]. destruct (decide _) eqn:Hd; simpl; [done|]. by rewrite Hd. Qed.

Lemma await_batch_success fuel c key tasks p w p' w' :
  query_answers -> await_batch fuel c key tasks (p, w) = (Returned None, (p', w')) ->
  resumable key p' = None /\
  exists results w1, GetTasks c (map et_uid tasks) w1 = (inl results, w') /\ all_succeeded tasks results.
Proof.
  intros Hq. unfold await_batch. run_st. destruct (awaitTasks fuel c tasks w) as [out w1] eqn:Ha.
  intros [= -> <- <-]. split; [apply forget_key | by eapply awaitTasks_success].
Qed.

Lemma await_batch_interrupted fuel c key tasks p w e p' w' :
  await_batch fuel c key tasks (p, w) = (Returned (Some e), (p', w')) ->
  Is e ErrTaskFailed = false -> Is e ErrTasksLost = false -> p' = p.
Proof.
  unfold await_batch. run_st. destruct (awaitTasks fuel c tasks w) as [out w1].
  intros [= -> <- <-] Hf Hl. by rewrite Hf, Hl.
Qed.

Lemma enqueue_tasks_spec c todo w ts w' :
  enqueue_tasks c todo w = (inl ts, w') -> map (fun t => (et_index t, et_run t)) ts = todo.
Proof.
  revert w ts w'. induction todo as [|[idx r] todo IH]; intros w ts w'; simpl.
  - by intros [= <- _].
  - unfold bind, ret. destruct (Enqueue c idx r w) as [[uid|e] w1]; [|done].
    destruct (enqueue_tasks c todo w1) as [[ts1|e] w2] eqn:He; [|done]. intros [= <- _]. simpl. f_equal. by eapply IH.
Qed.

(** C19: A batch the sink reports as delivered has nothing left to do in Meilisearch:
    either no event of it concerns an index, or the last poll found every task of its
    plan, enqueued by this call or by the interrupted call it resumes, succeeded; and
    the batch is forgotten. *)
Theorem success_means_every_task_succeeded fuel c events pending w pending' w' :
  query_answers -> events <> [] ->
  Meili_Process fuel c events (pending, w) = (Returned None, (pending', w')) ->
  (exists p, plan cfg events = inl p /\ plan_tasks p = []) \/
  exists tasks results w1,
    (pending = Some {| if_key := batchKey events; if_tasks := tasks |} \/
     exists p, plan cfg events = inl p /\ map (fun t => (et_index t, et_run t)) tasks = plan_tasks p) /\
    GetTasks c (map et_uid tasks) w1 = (inl results, w') /\ all_succeeded tasks results /\
    resumable (batchKey events) pending' = None.
Proof.
  intros Hq Hne. unfold Meili_Process. destruct events as [|e0 es]; [done|]. clear Hne.
  set (events := e0 :: es). unfold bind at 1, get.
  change ((pending, w).1) with pending.
  destruct (resumable (batchKey events) pending) as [tasks|] eqn:Hres.
  - intros Haw. destruct (await_batch_success _ _ _ _ _ _ _ _ Hq Haw) as (Hr & results & w1 & Hg & Hall).
    right. exists tasks, results, w1. split_and!; [left | done..].
    unfold resumable in Hres. destruct pending as [[k ts]|]; [|done]. simpl in Hres.
    destruct (decide (k = batchKey events)) as [->|]; [|done]. by injection Hres as ->.
  - destruct (plan cfg events) as [p|e] eqn:Hp; [|done]. destruct (p_order p) as [|o os] eqn:Ho.
    + intros _. left. exists p. split; [done|]. unfold plan_tasks. by rewrite Ho.
    + unfold bind at 1. simpl. destruct (enqueue_tasks c (plan_tasks p) w) as [[tasks|e] w2] eqn:He; [|done].
      unfold bind at 1. simpl. intros Haw.
      destruct (await_batch_success _ _ _ _ _ _ _ _ Hq Haw) as (Hr & results & w1 & Hg & Hall).
      right. exists tasks, results, w1. split_and!; [right | done..]. exists p. split; [done|].
      by eapply enqueue_tasks_spec.
Qed.

(** What the client and the clock give the wait: time does not run backwards, a query
    under a finished context fails, and waiting for an instant the ticker has still to
    reach takes the time until then. *)
Record client_time : Prop := {
  ct_enqueue : forall c idx r w, (now w <= now (Enqueue c idx r w).2)%Z;
  ct_query : forall c uids w, (now w <= now (GetTasks c uids w).2)%Z;
  ct_done : forall c uids w results w', GetTasks c uids w = (inl results, w') -> ctx_err c w = None;
  ct_tick : forall c d w w', (0 <= d)%Z -> wait c d w = (false, w') -> (now w + d <= now w')%Z;
}.

(** The ticks received are distinct and none comes early, buffered or not. *)
Lemma next_tick_spec start last t rest tick :
  next_tick start last t = (rest, tick) -> (start + last * taskPollInterval <= t)%Z ->
  (0 <= rest /\ last < tick /\ start + tick * taskPollInterval <= t + rest)%Z.
Proof.
  unfold next_tick. assert (Hpos : (0 < taskPollInterval)%Z) by reflexivity.
  generalize dependent taskPollInterval. intros i Hi Hn Hl.
  pose proof (Z.div_mod (t - start) i ltac:(lia)) as Hd.
  pose proof (Z.mod_pos_bound (t - start) i Hi) as Hm.
  destruct (decide _) as [Hlt|Hge]; injection Hn as <- <-; split_and!; nia.
Qed.

Lemma poll_loop_ends n c tasks start last w d :
  client_time -> deadline c = Some d -> (start + last * taskPollInterval <= now w)%Z ->
  (d - (start + last * taskPollInterval) <= Z.of_nat n * taskPollInterval)%Z ->
  (poll_loop (S n) c tasks start last w).1 <> Waiting.
Proof.
  intros Ht Hd. revert last w. induction n as [|n IH]; intros last w Hl Hn; cbn [poll_loop]; unfold bind, ret, get;
    pose proof (ct_query Ht c (map et_uid tasks) w) as Hm;
    destruct (GetTasks c (map et_uid tasks) w) as [[results|e] w1] eqn:Hg; try done.
  - apply (ct_done Ht) in Hg. unfold ctx_err in Hg. rewrite Hd in Hg.
    destruct (cancelled w); [done|]. rewrite decide_True in Hg by lia. done.
  - destruct (poll_result tasks results) as [out|] eqn:Hp.
    + unfold poll_result in Hp. repeat case_match; simplify_eq; done.
    + simpl in Hm. destruct (next_tick start last (now w1)) as [rest tick] eqn:Htk.
      apply next_tick_spec in Htk as (Hrest & Htick & Hat); [|lia].
      destruct (wait c rest w1) as [[|] w2] eqn:Hw; [done|]. apply (ct_tick Ht) in Hw; [|done].
      assert (0 < taskPollInterval)%Z by reflexivity. apply IH; nia.
Qed.

Lemma awaitTasks_ends n c tasks w d :
  client_time -> deadline c = Some d -> (d - now w <= Z.of_nat n * taskPollInterval)%Z ->
  (awaitTasks (S n) c tasks w).1 <> Waiting.
Proof. intros Ht Hd Hn. apply (poll_loop_ends n c tasks (now w) 0 w d); [done | done | lia | lia]. Qed.

Lemma await_batch_ends n c key tasks p w d :
  client_time -> deadline c = Some d -> (d - now w <= Z.of_nat n * taskPollInterval)%Z ->
  (await_batch (S n) c key tasks (p, w)).1 <> Waiting.
Proof.
  intros Ht Hd Hn. unfold await_batch. pose proof (awaitTasks_ends n c tasks w d Ht Hd Hn) as Ha.
  remember (S n) as fuel. run_st. by destruct (awaitTasks fuel c tasks w) as [out w1].
Qed.

Lemma enqueue_tasks_time c todo w : client_time -> (now w <= now (enqueue_tasks c todo w).2)%Z.
Proof.
  intros Ht. revert w. induction todo as [|[idx r] todo IH]; intros w; simpl; [lia|]. unfold bind, ret.
  pose proof (ct_enqueue Ht c idx r w). destruct (Enqueue c idx r w) as [[uid|e] w1]; simpl in *; [|lia].
  pose proof (IH w1). destruct (enqueue_tasks c todo w1) as [[ts|e] w2]; simpl in *; lia.
Qed.

(** C35: Under a deadline a call ends: once the deadline is at most n poll intervals
    away, it returns within n + 1 polls, whatever the tasks' state and however slow the
    queries are. The ticker is the one the wait creates: a slow query leaves a tick
    buffered that the next receive takes at once, but no tick is received twice or
    early. *)
Theorem waiting_for_tasks_ends n c events pending w d :
  client_time -> deadline c = Some d -> (d - now w <= Z.of_nat n * taskPollInterval)%Z ->
  (Meili_Process (S n) c events (pending, w)).1 <> Waiting.
Proof.
  intros Ht Hd Hn. unfold Meili_Process. destruct events as [|e0 es]; [done|]. unfold bind at 1, get.
  destruct (resumable _ _) as [tasks|]; [by eapply await_batch_ends|].
  destruct (plan cfg (e0 :: es)) as [p|e]; [|done]. destruct (p_order p) as [|o os]; [done|].
  unfold bind at 1. simpl. pose proof (enqueue_tasks_time c (plan_tasks p) w Ht) as Hm.
  destruct (enqueue_tasks c (plan_tasks p) w) as [[tasks|e] w1]; [|done]. simpl in Hm.
  unfold bind at 1. simpl. apply (await_batch_ends n _ _ _ _ _ d); [done | done | lia].
Qed.
End process.

(** When the wait for a batch is interrupted, neither a failed nor a lost task, the
    next call with the same batch enqueues nothing: it only waits for the tasks the
    first call enqueued, and any client would do for it. *)
Theorem interrupted_batches_resume {W} `{!World W} cfg Enqueue Enqueue' GetTasks StatusCode wait
    fuel c events pending w p tasks w1 e pending' w' :
  resumable (batchKey events) pending = None -> plan cfg events = inl p -> plan_tasks p <> [] ->
  enqueue_tasks Enqueue StatusCode c (plan_tasks p) w = (inl tasks, w1) ->
  Meili_Process cfg Enqueue GetTasks StatusCode wait fuel c events (pending, w) = (Returned (Some e), (pending', w')) ->
  Is e ErrTaskFailed = false -> Is e ErrTasksLost = false ->
  forall fuel' c' w2,
    Meili_Process cfg Enqueue' GetTasks StatusCode wait fuel' c' events (pending', w2) =
    await_batch (W := W) GetTasks wait fuel' c' (batchKey events) tasks (pending', w2).
Proof.
  intros Hres Hp Hne Hen. unfold Meili_Process. destruct events as [|e0 es]; [by injection Hp as <-|].
  set (events := e0 :: es) in *. unfold bind at 1, get. change ((pending, w).1) with pending. rewrite Hres, Hp.
  destruct (p_order p) as [|o os] eqn:Ho; [by unfold plan_tasks in Hne; rewrite Ho in Hne|].
  unfold bind at 1. simpl. rewrite Hen. unfold bind at 1. simpl. intros Haw Hf Hl fuel' c' w2.
  rewrite (await_batch_interrupted _ _ _ _ _ _ _ _ _ _ _ Haw Hf Hl). unfold bind at 1. simpl. by rewrite decide_True.
Qed.

(** ** A server that keeps its documents in a map *)
#[export] Instance map_index : MeiliIndex (gmap string columns) := {|
  doc := fun id i => i !! id;
  AddDocuments := fun pk docs i =>
    foldl (fun i d => match doc_id pk d with Some id => <[id := d]> i | None => i end) i docs;
  UpdateDocuments := fun pk docs i =>
    foldl (fun i d => match doc_id pk d with
                      | Some id => <[id := d ∪ default ∅ (i !! id)]> i
                      | None => i
                      end) i docs;
  DeleteDocuments := fun ids i => foldl (fun i id => delete id i) i ids;
  DeleteAllDocuments := fun _ => ∅;
|}.

Lemma fold_keyed (f : columns -> option columns -> columns) pk docs (i : gmap string columns) id :
  NoDup (map (doc_id pk) docs) ->
  foldl (fun i d => match doc_id pk d with Some id => <[id := f d (i !! id)]> i | None => i end) i docs !! id =
    match list_find (fun d => doc_id pk d = Some id) docs with
    | Some (_, d) => Some (f d (i !! id))
    | None => i !! id
    end.
Proof.
  revert i. induction docs as [|d docs IH]; intros i Hnd; [done|]. simpl in *.
  inversion_clear Hnd as [|? ? Hd Hnd']. rewrite IH by done. destruct (decide (doc_id pk d = Some id)) as [He|Hne].
  - rewrite He, lookup_insert_eq. destruct (list_find _ docs) as [[n d']|] eqn:Hf; [|done].
    apply list_find_Some in Hf as (Hn & Hid & _). destruct Hd. rewrite He, <- Hid.
    apply list_elem_of_fmap. exists d'. split; [done | by eapply list_elem_of_lookup_2].
  - assert (Hsame : match doc_id pk d with Some id0 => <[id0 := f d (i !! id0)]> i | None => i end !! id = i !! id).
    { destruct (doc_id pk d) as [id0|]; [|done]. apply lookup_insert_ne. congruence. }
    rewrite Hsame. by destruct (list_find _ docs) as [[? ?]|].
Qed.

Lemma find_hit pk docs id d :
  keyed pk docs -> d ∈ docs -> doc_id pk d = Some id ->
  snd <$> list_find (fun d => doc_id pk d = Some id) docs = Some d.
Proof.
  intros [_ Hnd] Hin Hid. destruct (list_find _ docs) as [[n d']|] eqn:Hf; simpl.
  - apply list_find_Some in Hf as (Hn & Hid' & _). f_equal.
    apply (NoDup_map_elem_inj (doc_id pk) docs); [done | by eapply list_elem_of_lookup_2 | done | congruence].
  - apply list_find_None in Hf. rewrite Forall_forall in Hf. by destruct (Hf _ Hin).
Qed.
Lemma find_miss pk docs id :
  Forall (fun d => doc_id pk d <> Some id) docs -> list_find (fun d => doc_id pk d = Some id) docs = None.
Proof. intros Hf. by apply list_find_None. Qed.

#[export] Instance map_index_laws : MeiliLaws (gmap string columns).
Proof.
  split; simpl.
  - intros pk docs i id d Hk Hin Hid. pose proof (find_hit _ _ _ _ Hk Hin Hid) as Hf. destruct Hk as [_ Hnd].
    rewrite (fold_keyed (fun d _ => d)) by done. destruct (list_find _ docs) as [[? ?]|]; simpl in Hf; congruence.
  - intros pk docs i id [_ Hnd] Hf. rewrite (fold_keyed (fun d _ => d)) by done. by rewrite find_miss.
  - intros pk docs i id d Hk Hin Hid. pose proof (find_hit _ _ _ _ Hk Hin Hid) as Hf. destruct Hk as [_ Hnd].
    rewrite (fold_keyed (fun d o => d ∪ default ∅ o)) by done.
    destruct (list_find _ docs) as [[? ?]|]; simpl in Hf; congruence.
  - intros pk docs i id [_ Hnd] Hf. rewrite (fold_keyed (fun d o => d ∪ default ∅ o)) by done. by rewrite find_miss.
  - intros ids. induction ids as [|x ids IH]; intros i id; simpl; [done|]. rewrite IH.
    destruct (decide (id = x)) as [->|Hne].
    + rewrite lookup_delete_eq. rewrite (decide_True (P := x ∈ x :: ids)) by left. by destruct (decide _).
    + rewrite lookup_delete_ne by done. destruct (decide (id ∈ ids)) as [Hin|Hin].
      * by rewrite decide_True by (by right).
      * rewrite decide_False; [done|]. by intros [?|?]%elem_of_cons.
  - intros i id. apply lookup_empty.
Qed.

(** ** A concrete batch *)
Definition meili_cfg : meili_tables :=
  {[ "public.users" := {| mt_Index := "users"; mt_PrimaryKey := ""; mt_SearchableAttributes := [];
                          mt_FilterableAttributes := [];
                          mt_TransformSpec := {| spec_Filter := ""; spec_DropColumns := []; spec_Mask := ∅ |} |} ]}.
Definition user (id name : string) : columns := {[ "id" := AStr id; "name" := AStr name ]}.
Definition meili_batch : list CDCEvent :=
  [sample_event "1" "public" "users" OperationInsert None (Some (user "a" "x"));
   sample_event "2" "public" "users" OperationInsert None (Some (user "b" "y"));
   sample_event "3" "public" "users" OperationInsert None (Some (user "a" "z"));
   sample_event "4" "public" "users" OperationUpdate None (Some {[ "id" := AStr "b"; "age" := AInt 3 ]});
   sample_event "5" "public" "users" OperationDelete (Some {[ "id" := AStr "a" ]}) None].

Definition meili_plan : batchPlan :=
  match plan meili_cfg meili_batch with inl p => p | inr _ => {| p_order := []; p_runs := ∅ |} end.
Definition meili_settings : gmap string MeiliIndexSettings :=
  match IndexSettings meili_cfg with inl s => s | inr _ => ∅ end.

Lemma plan_equals_one_by_one_witness :
  length (plan_tasks meili_plan) = 3 /\
  doc "b" (execute (plan_tasks meili_plan) "users" (∅ : gmap string columns)) =
    Some {[ "id" := AStr "b"; "name" := AStr "y"; "age" := AInt 3 ]}.
Proof.
  split; [vm_compute; reflexivity|].
  assert (Hs : IndexSettings meili_cfg = inl meili_settings) by (vm_compute; reflexivity).
  assert (Hp : plan meili_cfg meili_batch = inl meili_plan) by (vm_compute; reflexivity).
  rewrite (plan_equals_one_by_one meili_cfg meili_settings meili_batch meili_plan "users" ∅ Hs Hp "b").
  vm_compute. reflexivity.
Defined.

(** A client over a clock: task UIDs are times, and tasks have the given status. *)
#[local] Instance World_clock : World Z := {| now := fun w => w; cancelled := fun _ => false |}.
Definition clock_Enqueue (c : Ctx) (idx : string) (r : run) : ST Z (res Z) := fun w => (inl w, (w + 1)%Z).
Definition clock_GetTasks (s : taskStatus) (c : Ctx) (uids : list Z) : ST Z (res (list Task)) :=
  fun w => (match ctx_err c w with
            | Some e => inr e
            | None => inl (map (fun u => {| t_UID := u; t_Status := s; t_ErrorType := "";
                                            t_ErrorMessage := ""; t_ErrorCode := "" |}) (remove_dups uids))
            end, w).
Definition clock_wait (c : Ctx) (d : Z) : ST Z bool := fun w => (false, (w + d)%Z).

Abbreviation clock_process s := (Meili_Process meili_cfg clock_Enqueue (clock_GetTasks s) (fun _ => None) clock_wait).

Lemma clock_answers s : query_answers (clock_GetTasks s).
Proof.
  intros c uids w results w'. unfold clock_GetTasks. destruct (ctx_err c w); [done|]. intros [= <- <-].
  rewrite map_map. simpl. rewrite map_id. split; [apply NoDup_remove_dups|].
  intros r (u & -> & Hu)%list_elem_of_fmap. simpl. by apply elem_of_remove_dups.
Qed.

Lemma success_means_every_task_succeeded_witness :
  exists tasks results w1, map (fun t => (et_index t, et_run t)) tasks = plan_tasks meili_plan /\
    clock_GetTasks TaskSucceeded Background (map et_uid tasks) w1 = (inl results, 3%Z) /\
    all_succeeded tasks results.
Proof.
  assert (Hplan : plan meili_cfg meili_batch = inl meili_plan) by (vm_compute; reflexivity).
  assert (Hne : meili_batch <> []) by discriminate.
  assert (Hrun : exists p', clock_process TaskSucceeded 1 Background meili_batch (None, 0%Z)
    = (Returned None, (p', 3%Z))) by (eexists; vm_compute; reflexivity).
  destruct Hrun as [p' Hrun].
  destruct (success_means_every_task_succeeded meili_cfg clock_Enqueue (clock_GetTasks TaskSucceeded)
    (fun _ => None) clock_wait 1 Background meili_batch None 0%Z p' 3%Z (clock_answers _) Hne Hrun)
    as [(p & Hp & Ht)|(tasks & results & w1 & [Hpend|(p & Hp & Ht)] & Hg & Hall & _)].
  - exfalso. rewrite Hplan in Hp. assert (p = meili_plan) as -> by congruence. vm_compute in Ht. discriminate Ht.
  - discriminate Hpend.
  - exists tasks, results, w1. rewrite Hplan in Hp. assert (p = meili_plan) as -> by congruence. split_and!; [exact Ht | exact Hg | exact Hall].
Defined.

Lemma waiting_for_tasks_ends_witness :
  (clock_process TaskProcessing 4 {| deadline := Some 60000000%Z |} meili_batch (None, 0%Z)).1 <> Waiting.
Proof.
  apply (waiting_for_tasks_ends meili_cfg clock_Enqueue (clock_GetTasks TaskProcessing) (fun _ => None) clock_wait
    3 _ meili_batch None 0%Z 60000000%Z); [|reflexivity | vm_compute; discriminate].
  split.
  - intros c idx r w. simpl. lia.
  - intros c uids w. simpl. lia.
  - intros c uids w results w'. unfold clock_GetTasks. by destruct (ctx_err c w).
  - intros c d w w' _ [= <-]. simpl. lia.
Defined.

Lemma interrupted_batches_resume_witness :
  exists e tasks p' w', clock_process TaskProcessing 4 {| deadline := Some 60000000%Z |} meili_batch (None, 0%Z)
      = (Returned (Some e), (p', w')) /\
    forall fuel' c' w2, clock_process TaskProcessing fuel' c' meili_batch (p', w2)
      = await_batch (clock_GetTasks TaskProcessing) clock_wait fuel' c' (batchKey meili_batch) tasks (p', w2).
Proof.
  assert (Hrun : exists e p' w', clock_process TaskProcessing 4 {| deadline := Some 60000000%Z |} meili_batch
    (None, 0%Z) = (Returned (Some e), (p', w')) /\ Is e ErrTaskFailed = false /\ Is e ErrTasksLost = false)
    by (do 3 eexists; split; [vm_compute; reflexivity | split; reflexivity]).
  assert (Hen : exists tasks w1, enqueue_tasks clock_Enqueue (fun _ => None) {| deadline := Some 60000000%Z |}
    (plan_tasks meili_plan) 0%Z = (inl tasks, w1)) by (do 2 eexists; vm_compute; reflexivity).
  destruct Hrun as (e & p' & w' & Hrun & Hf & Hl), Hen as (tasks & w1 & Hen).
  exists e, tasks, p', w'. split; [exact Hrun|].
  apply (interrupted_batches_resume meili_cfg clock_Enqueue clock_Enqueue (clock_GetTasks TaskProcessing)
    (fun _ => None) clock_wait 4 {| deadline := Some 60000000%Z |} meili_batch None 0%Z meili_plan tasks w1 e p' w');
    [reflexivity | vm_compute; reflexivity | vm_compute; discriminate | exact Hen | exact Hrun | exact Hf | exact Hl].
Defined.
