(* ===== verification/Triage.v ===== *)
(** * Retrying a parked change

    The dead-letter manager, its Redis store and the Meilisearch sink put together, on
    a change whose key is a large integer: what the store hands back for a retry is
    what JSON makes of the row, where every number is a float. *)

From Stdlib Require Import ZArith Lia Ascii String.
From stdpp Require Import base list gmap strings pretty.
From S2P Require Import Prelude Domain DeadLetter DLQStore Meili.

Open Scope go_scope.

(** A Meilisearch that applies each task at once and reports it as succeeded. *)
Definition docs_Enqueue (c : Ctx) (index : string) (r : run) : ST (gmap string columns) (res Z) :=
  fun i => (inl 7%Z, execute [(index, r)] "users" i).
Definition docs_GetTasks (c : Ctx) (uids : list Z) : ST (gmap string columns) (res (list Task)) :=
  ret (inl (map (fun uid => {| t_UID := uid; t_Status := TaskSucceeded; t_ErrorType := ""; t_ErrorMessage := ""; t_ErrorCode := "" |}) uids)).

#[local] Instance World_docs : World (gmap string columns) := {| now := fun _ => 0%Z; cancelled := fun _ => false |}.

(** The Meilisearch sink over it, beside the Redis of the dead-letter store. *)
Abbreviation docs_world := (redis_keys * (option inflight * gmap string columns))%type.
Definition docs_Process (c : Ctx) (events : list CDCEvent) : ST (option inflight * gmap string columns) (option error) :=
  let! out := Meili_Process meili_cfg docs_Enqueue docs_GetTasks (fun _ => None) (fun _ _ => ret false) 3 c events in
  ret match out with Returned err => err | _ => Some (EMsg "waiting") end.
Definition docs_sink : Sink docs_world :=
  {| Name := "meilisearch"; Initialize := ret None; Process := fun c events => inner (docs_Process c events);
     Shutdown := ret None; HealthCheck := ret None; batch_limiter := None; router := None |}.
Definition docs_store : Store docs_world :=
  redisStore 0 (fun i => (None, i)) (fun i => ((true, None), i)) no_marshal_err.

(** A row deleted by its key, and the index that holds its document. *)
Definition big_delete : CDCEvent :=
  sample_event "0/9" "public" "users" OperationDelete (Some {[ "id" := AInt 2000000 ]}) None.
Definition big_docs : gmap string columns := {[ "2000000" := {[ "id" := AInt 2000000 ]} ]}.

Definition triage_manager : Manager docs_world :=
  {| m_threshold := 3; m_retryTimeout := 10; m_failures := ∅;
     m_sinks := {[ "meilisearch" := docs_sink ]} |}.

(** Parking the event and retrying its entry. *)
Definition park_then_retry : ST (Manager docs_world * docs_world) (option error * option error) :=
  let! parked := park docs_store Background "meilisearch" big_delete (EMsg "boom") 1 0 in
  let! retried := Retry docs_store Background "meilisearch:0/9" in
  ret (parked, retried).

(** A parked DELETE of a row whose integer key has seven digits is retried, reported
    as a success and taken off the queue, and the document it was to delete is still
    there: the key comes back from the store as a float and prints as 2e+06.
    Delivered directly, the same event deletes the document. *)
Example retry_misses_large_integer_keys :
  (let '(r, (m, (k, (_, docs)))) := park_then_retry (triage_manager, (empty_keys, (None, big_docs))) in
   r = (None, None) /\ rd_hash k = ∅ /\ docs = big_docs) /\
  docs_Process Background [big_delete] (None, big_docs) = (None, (None, ∅)) /\
  event_change "id" (event_json_rt big_delete) = CDelete "2e+06".
Proof.
  split; [|split; vm_compute; reflexivity].
  assert (H1 : (park_then_retry (triage_manager, (empty_keys, (None, big_docs)))).1 = (None, None)) by (vm_compute; reflexivity).
  assert (H2 : rd_hash (park_then_retry (triage_manager, (empty_keys, (None, big_docs)))).2.2.1 = ∅)
    by (vm_compute; reflexivity).
  assert (H3 : (park_then_retry (triage_manager, (empty_keys, (None, big_docs)))).2.2.2.2 = big_docs)
    by (vm_compute; reflexivity).
  by destruct (park_then_retry _) as [r [m [k [f docs]]]].
Qed.
