(* ===== verification/Keys.v ===== *)
(** * Keys of rows in keyed sinks
      (src/internal/adapters/secondary/redis/key_template.go and the KeyedSinkConfig of
      src/internal/infrastructure/config/sinks.go)

    The key of an event is a template rendered over its names and columns.  The
    template engine (text/template on patterns the operator writes) is a parameter;
    which pattern applies, the fields it sees and the cache of parsed patterns are the
    code's.  The cache is transparent: a key is the same whether it was used or not. *)

From Stdlib Require Import ZArith Lia Ascii String.
From stdpp Require Import base list gmap strings pretty.
From S2P Require Import Prelude Domain Transform.

Open Scope go_scope.

(** ** Which tables, which patterns *)
Record TableConfig := { tc_Key : string; tc_TransformSpec : TransformSpec }.
Record KeyedSinkConfig := {
  SyncAll : bool;
  DefaultKeyPattern : string;
  ks_Transform : option TransformSpec;
  ks_Tables : gmap string TableConfig;
}.

Definition Keyed_ShouldProcess (c : KeyedSinkConfig) (schema table : string) : bool :=
  if isSome (ks_Tables c !! (schema +:+ "." +:+ table)%string) then true
  else if isSome (ks_Tables c !! table) then true
  else SyncAll c.

Definition GetKeyPattern (c : KeyedSinkConfig) (schema table : string) : string :=
  let key_of (tc : option TableConfig) :=
    match tc with Some tc => if decide (tc_Key tc = "") then None else Some (tc_Key tc) | None => None end in
  match key_of (ks_Tables c !! (schema +:+ "." +:+ table)%string) with
  | Some k => k
  | None => match key_of (ks_Tables c !! table) with Some k => k | None => DefaultKeyPattern c end
  end.

Definition TableTransforms (c : KeyedSinkConfig) : gmap string TransformSpec :=
  omap (fun tc => if IsZero (tc_TransformSpec tc) then None else Some (tc_TransformSpec tc)) (ks_Tables c).

(** ** Templates *)
Record KeyTemplateContext := {
  kc_Prefix : string;
  kc_Schema : string;
  kc_Table : string;
  kc_Operation : string;
  kc_ID : string;
  kc_newData : data;
  kc_oldData : data;
}.

Definition NewKeyTemplateContext (prefix : string) (event : CDCEvent) : KeyTemplateContext :=
  {| kc_Prefix := prefix; kc_Schema := Schema event; kc_Table := Table event;
     kc_Operation := Operation_String (Op event); kc_ID := ID event;
     kc_newData := NewData event; kc_oldData := OldData event |}.

Definition formatFieldValue (val : any) : string := if is_nil val then "null" else fmtV val.

(** The new row's column, or the old row's, or nothing. *)
Definition Field (c : KeyTemplateContext) (name : string) : string :=
  match kc_newData c ≫= lookup name with
  | Some v => formatFieldValue v
  | None => match kc_oldData c ≫= lookup name with Some v => formatFieldValue v | None => "" end
  end.

Definition DefaultStreamKeyPattern : string := "{{.Prefix}}:{{.Schema}}:{{.Table}}".

Section keys.
Context {Template : Type} (Parse : string -> res Template).
Context (Render : Template -> KeyTemplateContext -> res string).

Record KeyTemplate := { kt_pattern : string; kt_template : Template }.

Definition ParseKeyTemplate (pattern : string) : res KeyTemplate :=
  match Parse pattern with
  | inr e => inr (EWrap ("invalid key pattern " +:+ quoted pattern +:+ ": ")%string e "")
  | inl t => inl {| kt_pattern := pattern; kt_template := t |}
  end.

Definition Template_Execute (kt : KeyTemplate) (c : KeyTemplateContext) : res string :=
  match Render (kt_template kt) c with
  | inr e => inr (EWrap "failed to execute key template: " e "")
  | inl s => inl s
  end.

(** The resolver: where patterns and the table filter come from, and the cache. *)
Record KeyResolver := {
  kr_pattern : string -> string -> string;
  kr_filter : option (string -> string -> bool);
  kr_prefixTemplate : KeyTemplate;
  kr_defaultPattern : string;
  kr_templateCache : gmap string KeyTemplate;
}.

Definition NewKeyResolver (pattern : string -> string -> string) (filter : option (string -> string -> bool))
    (prefix defaultPattern : string) : res KeyResolver :=
  match ParseKeyTemplate prefix with
  | inr e => inr (EWrap "invalid prefix template: " e "")
  | inl t =>
      inl {| kr_pattern := pattern; kr_filter := filter; kr_prefixTemplate := t;
             kr_defaultPattern := if decide (defaultPattern = "") then DefaultStreamKeyPattern else defaultPattern;
             kr_templateCache := ∅ |}
  end.

Definition Resolver_ShouldProcess (kr : KeyResolver) (schema table : string) : bool :=
  match kr_filter kr with None => true | Some f => f schema table end.

Definition cachedTemplate (pattern : string) (event : CDCEvent) : ST KeyResolver (res KeyTemplate) :=
  fun kr =>
    match kr_templateCache kr !! pattern with
    | Some t => (inl t, kr)
    | None =>
        match ParseKeyTemplate pattern with
        | inr e => (inr (EWrap ("invalid pattern for " +:+ Schema event +:+ "." +:+ Table event +:+ ": ")%string e ""), kr)
        | inl t =>
            (inl t, {| kr_pattern := kr_pattern kr; kr_filter := kr_filter kr;
                       kr_prefixTemplate := kr_prefixTemplate kr; kr_defaultPattern := kr_defaultPattern kr;
                       kr_templateCache := <[pattern := t]> (kr_templateCache kr) |})
        end
    end.

Definition GenerateKey (event : CDCEvent) : ST KeyResolver (res string) :=
  let! kr := get in
  match Template_Execute (kr_prefixTemplate kr) (NewKeyTemplateContext "" event) with
  | inr e => ret (inr (EWrap "failed to resolve prefix: " e ""))
  | inl prefix =>
      let pattern0 := kr_pattern kr (Schema event) (Table event) in
      let pattern := if decide (pattern0 = "") then kr_defaultPattern kr else pattern0 in
      let! t := cachedTemplate pattern event in
      match t with
      | inr e => ret (inr e)
      | inl tmpl => ret (Template_Execute tmpl (NewKeyTemplateContext prefix event))
      end
  end.

(** ** The cache is transparent *)

(** The key of an event, from the patterns alone. *)
Definition key_of (kr : KeyResolver) (event : CDCEvent) : res string :=
  match Template_Execute (kr_prefixTemplate kr) (NewKeyTemplateContext "" event) with
  | inr e => inr (EWrap "failed to resolve prefix: " e "")
  | inl prefix =>
      let pattern0 := kr_pattern kr (Schema event) (Table event) in
      let pattern := if decide (pattern0 = "") then kr_defaultPattern kr else pattern0 in
      match ParseKeyTemplate pattern with
      | inr e => inr (EWrap ("invalid pattern for " +:+ Schema event +:+ "." +:+ Table event +:+ ": ")%string e "")
      | inl tmpl => Template_Execute tmpl (NewKeyTemplateContext prefix event)
      end
  end.

Definition cache_ok (kr : KeyResolver) : Prop :=
  map_Forall (fun pattern t => ParseKeyTemplate pattern = inl t) (kr_templateCache kr).

(** Resolvers that differ in their caches only. *)
Definition same_keys (kr kr' : KeyResolver) : Prop :=
  kr_pattern kr' = kr_pattern kr /\ kr_filter kr' = kr_filter kr /\
  kr_prefixTemplate kr' = kr_prefixTemplate kr /\ kr_defaultPattern kr' = kr_defaultPattern kr.

#[export] Instance same_keys_preorder : PreOrder same_keys.
Proof. split; [done|]. intros a b c (? & ? & ? & ?) (? & ? & ? & ?). unfold same_keys. split_and!; congruence. Qed.

Lemma same_keys_key_of kr kr' e : same_keys kr kr' -> key_of kr' e = key_of kr e.
Proof. intros (Hp & _ & Ht & Hd). unfold key_of. by rewrite Hp, Ht, Hd. Qed.

Lemma GenerateKey_spec e kr :
  cache_ok kr -> exists kr', GenerateKey e kr = (key_of kr e, kr') /\ cache_ok kr' /\ same_keys kr kr'.
Proof.
  intros Hc. unfold GenerateKey, key_of, bind, get, ret.
  destruct (Template_Execute _ _) as [prefix|err]; [|by exists kr].
  set (pattern := if decide (kr_pattern kr (Schema e) (Table e) = "") then _ else _).
  unfold cachedTemplate. destruct (kr_templateCache kr !! pattern) as [t|] eqn:Ht.
  - rewrite (Hc _ _ Ht). by exists kr.
  - destruct (ParseKeyTemplate pattern) as [t|err] eqn:Hp; [|by exists kr].
    eexists. split; [done|]. split; [by apply map_Forall_insert_2 | done].
Qed.
End keys.
