(* ===== verification/RedisSinks.v ===== *)
(** * The Redis sinks
      (src/internal/adapters/secondary/redis/base.go and sink.go, redisjson/sink.go,
      outbox/sink.go and exclude.go)

    Each turns a batch into one pipeline of commands in stream order: stream entries,
    JSON documents, or outbox messages whose rows are then deleted.  Redis, PostgreSQL
    and the JSON encoder are parameters. *)

From Stdlib Require Import ZArith Lia Ascii String.
From stdpp Require Import base list gmap strings pretty.
From S2P Require Import Prelude Domain Transform Keys.

Open Scope go_scope.

Inductive command :=
  | XADD (stream : string) (maxLen : Z) (values : list (string * string))
  | JSON_SET (key doc : string)
  | JSON_MERGE (key doc : string)
  | DEL (key : string).

(** A row's map as a value; a nil map or slice encodes as null. *)
Definition data_any (d : data) : any := match d with Some m => AMap (map_to_list m) | None => ANil end.
Definition strings_any (l : list string) : any := match l with [] => ANil | _ => AArr (map AStr l) end.

(** The payload of a stream entry. *)
Definition stream_payload (time_any : Z -> any) (event : CDCEvent) : any :=
  AMap [("operation", AStr (Operation_String (Op event)));
        ("schema", AStr (Schema event));
        ("table", AStr (Table event));
        ("old_data", data_any (OldData event));
        ("new_data", data_any (NewData event));
        ("unchanged_toast_columns", strings_any (UnchangedToastColumns event));
        ("metadata", AMap [("LSN", AStr (LSN (Metadata event)));
                           ("TransactionID", AInt (TransactionID (Metadata event)));
                           ("Timestamp", time_any (Timestamp (Metadata event)))])].

Section keyed_sinks.
Context {Template W : Type} (Parse : string -> res Template).
Context (Render : Template -> KeyTemplateContext -> res string).
Context (Marshal : any -> res string) (time_any : Z -> any).
(** A pipeline's round trip. *)
Context (Exec : list command -> ST W (option error)).
Context (maxStreamLen : Z).
Abbreviation resolver := (KeyResolver (Template := Template)).

(** [BaseSink.GenerateKey] *)
Definition Base_GenerateKey (event : CDCEvent) : ST resolver (res string) :=
  let! k := GenerateKey Parse Render event in
  ret match k with inr e => inr (EWrap "generate key: " e "") | inl key => inl key end.

(** The command of one event in the stream sink: none when the table is not its. *)
Definition stream_command (event : CDCEvent) : ST resolver (res (option command)) :=
  let! kr := get in
  if negb (Resolver_ShouldProcess kr (Schema event) (Table event)) then ret (inl None)
  else
    let! k := Base_GenerateKey event in
    ret match k with
        | inr e => inr e
        | inl streamKey =>
            match Marshal (stream_payload time_any event) with
            | inr e => inr (EWrap ("marshal payload for event " +:+ ID event +:+ ": ")%string e "")
            | inl payload =>
                inl (Some (XADD streamKey maxStreamLen [("event_id", ID event); ("payload", payload)]))
            end
        end.

(** The command of one event in the JSON sink. *)
Definition json_command (event : CDCEvent) : ST resolver (res (option command)) :=
  let! kr := get in
  if negb (Resolver_ShouldProcess kr (Schema event) (Table event)) then ret (inl None)
  else match Op event with
  | OperationInsert | OperationUpdate | OperationRead =>
      match NewData event with
      | None => ret (inl None)
      | Some row =>
          let! k := Base_GenerateKey event in
          ret match k with
              | inr e => inr e
              | inl key =>
                  match Marshal (data_any (NewData event)) with
                  | inr e => inr (EWrap ("marshal data for event " +:+ ID event +:+ ": ")%string e "")
                  | inl jsonData =>
                      inl (Some (if decide (Op event = OperationUpdate /\ UnchangedToastColumns event <> [])
                                 then JSON_MERGE key jsonData else JSON_SET key jsonData))
                  end
              end
      end
  | OperationDelete =>
      let! k := Base_GenerateKey event in
      ret match k with inr e => inr e | inl key => inl (Some (DEL key)) end
  | OperationTruncate | OperationInvalid _ => ret (inl None)
  end.

(** The loop of both sinks, up to the first error. *)
Fixpoint queue_loop (cmd : CDCEvent -> ST resolver (res (option command))) (events : list CDCEvent)
    : ST resolver (res (list command)) :=
  match events with
  | [] => ret (inl [])
  | e :: rest =>
      let! c := cmd e in
      match c with
      | inr err => ret (inr err)
      | inl c =>
          let! cs := queue_loop cmd rest in
          ret match cs with
              | inr err => inr err
              | inl cs => inl (match c with Some c => c :: cs | None => cs end)
              end
      end
  end.

Definition pipeline_process (cmd : CDCEvent -> ST resolver (res (option command))) (before after : string)
    (events : list CDCEvent) : ST (resolver * W) (option error) :=
  let! q := own (queue_loop cmd events) in
  match q with
  | inr err => ret (Some (EPermanent err))
  | inl [] => ret None
  | inl cmds =>
      let! err := inner (Exec cmds) in
      ret ((fun e => EWrap (before +:+ pretty (Z.of_nat (length cmds)) +:+ after)%string e "") <$> err)
  end.

Definition Stream_Process (events : list CDCEvent) : ST (resolver * W) (option error) :=
  pipeline_process stream_command "append " " stream entries: " events.
Definition JSON_Process (events : list CDCEvent) : ST (resolver * W) (option error) :=
  pipeline_process json_command "write " " json commands: " events.

(** ** What a batch asks of Redis *)

(** The resolver with nothing cached. *)
Definition uncached (kr : resolver) : resolver :=
  {| kr_pattern := kr_pattern kr; kr_filter := kr_filter kr; kr_prefixTemplate := kr_prefixTemplate kr;
     kr_defaultPattern := kr_defaultPattern kr; kr_templateCache := ∅ |}.

Fixpoint batch_commands (f : CDCEvent -> res (option command)) (events : list CDCEvent) : res (list command) :=
  match events with
  | [] => inl []
  | e :: rest =>
      match f e, batch_commands f rest with
      | inr err, _ => inr err
      | inl _, inr err => inr err
      | inl (Some c), inl cs => inl (c :: cs)
      | inl None, inl cs => inl cs
      end
  end.

Lemma uncached_ok kr : cache_ok Parse (uncached kr).
Proof. apply map_Forall_empty. Qed.
Lemma uncached_same kr kr' : same_keys kr kr' -> uncached kr' = uncached kr.
Proof. intros (Hp & Hf & Ht & Hd). unfold uncached. by rewrite Hp, Hf, Ht, Hd. Qed.

(** A sink's command for an event does not depend on what is cached. *)
Definition stable (cmd : CDCEvent -> ST resolver (res (option command))) : Prop :=
  forall e kr, cache_ok Parse kr ->
    exists kr', cmd e kr = ((cmd e (uncached kr)).1, kr') /\ cache_ok Parse kr' /\ same_keys kr kr'.

Lemma Base_GenerateKey_stable e kr : cache_ok Parse kr ->
  exists kr', Base_GenerateKey e kr = ((Base_GenerateKey e (uncached kr)).1, kr') /\
    cache_ok Parse kr' /\ same_keys kr kr'.
Proof.
  intros Hc. destruct (GenerateKey_spec Parse Render e kr Hc) as (kr' & Hg & Hrest).
  destruct (GenerateKey_spec Parse Render e (uncached kr) (uncached_ok kr)) as (kr2 & Hg2 & _).
  unfold Base_GenerateKey, bind, ret. rewrite Hg, Hg2. exists kr'. split; [|done]. simpl.
  by rewrite (same_keys_key_of Parse Render (uncached kr) kr e).
Qed.

Ltac stable_key e kr Hc :=
  destruct (Base_GenerateKey_stable e kr Hc) as (kr' & Hk & Hrest); rewrite Hk; simpl;
  destruct (Base_GenerateKey e (uncached kr)) as [k kr2]; simpl; by exists kr'.

Lemma stream_stable : stable stream_command.
Proof.
  intros e kr Hc. unfold stream_command, bind, get, ret.
  change (Resolver_ShouldProcess (uncached kr)) with (Resolver_ShouldProcess kr).
  destruct (Resolver_ShouldProcess kr _ _); simpl; [|by exists kr]. stable_key e kr Hc.
Qed.
Lemma json_stable : stable json_command.
Proof.
  intros e kr Hc. unfold json_command, bind, get, ret.
  change (Resolver_ShouldProcess (uncached kr)) with (Resolver_ShouldProcess kr).
  destruct (Resolver_ShouldProcess kr _ _); simpl; [|by exists kr].
  destruct (Op e), (NewData e) as [row|]; first [by exists kr | stable_key e kr Hc].
Qed.

Lemma queue_loop_spec cmd events kr : stable cmd -> cache_ok Parse kr ->
  exists kr', queue_loop cmd events kr = (batch_commands (fun e => (cmd e (uncached kr)).1) events, kr') /\
    cache_ok Parse kr' /\ same_keys kr kr'.
Proof.
  intros Hs. revert kr. induction events as [|e events IH]; intros kr Hc; simpl; [by exists kr|].
  unfold bind, ret. destruct (Hs e kr Hc) as (kr1 & -> & Hc1 & Hk1).
  destruct ((cmd e (uncached kr)).1) as [c|err]; [|by exists kr1].
  destruct (IH kr1 Hc1) as (kr2 & Hl & Hc2 & Hk2). rewrite Hl. exists kr2.
  rewrite (uncached_same _ _ Hk1). split; [|split; [done | by etransitivity]].
  destruct c, (batch_commands _ events); done.
Qed.

(** What a pipelined sink does with a batch, from its commands. *)
Definition pipelined (cmds : res (list command)) (before after : string) (r : option error) (w w' : W) : Prop :=
  match cmds with
  | inr err => r = Some (EPermanent err) /\ w' = w
  | inl [] => r = None /\ w' = w
  | inl cmds => exists r0, Exec cmds w = (r0, w') /\
      r = (fun e => EWrap (before +:+ pretty (Z.of_nat (length cmds)) +:+ after)%string e "") <$> r0
  end.

Lemma pipeline_process_spec cmd before after events kr w : stable cmd -> cache_ok Parse kr ->
  let '(r, (kr', w')) := pipeline_process cmd before after events (kr, w) in
  pipelined (batch_commands (fun e => (cmd e (uncached kr)).1) events) before after r w w' /\
  cache_ok Parse kr' /\ same_keys kr kr'.
Proof.
  intros Hs Hc. unfold pipeline_process, bind at 1, own.
  destruct (queue_loop_spec cmd events kr Hs Hc) as (kr' & -> & Hrest).
  destruct (batch_commands _ events) as [[|c cs]|err]; simpl; [done | | done].
  unfold bind, inner, ret. destruct (Exec (c :: cs) w) as [r0 w'] eqn:He. split; [|done]. by exists r0.
Qed.

(** C24: A batch of the stream or the JSON sink is one pipeline: the commands of its
    events, in order, each with the key its own pattern gives whatever templates are
    cached.  It is sent whole, only when there is something to send, and not at all
    when an event cannot be rendered, in which case the error is permanent; a failed
    round trip is not. *)
Theorem pipelines_are_whole_and_in_order events kr w :
  cache_ok Parse kr ->
  (let '(r, (kr', w')) := Stream_Process events (kr, w) in
   pipelined (batch_commands (fun e => (stream_command e (uncached kr)).1) events)
     "append " " stream entries: " r w w' /\ cache_ok Parse kr' /\ same_keys kr kr') /\
  (let '(r, (kr', w')) := JSON_Process events (kr, w) in
   pipelined (batch_commands (fun e => (json_command e (uncached kr)).1) events)
     "write " " json commands: " r w w' /\ cache_ok Parse kr' /\ same_keys kr kr').
Proof.
  intros Hc. split; apply pipeline_process_spec; auto using stream_stable, json_stable.
Qed.
End keyed_sinks.

(** ** The outbox *)
Record OutboxColumns := { oc_ID : string; oc_Topic : string; oc_Key : string; oc_Payload : string; oc_EventType : string }.
Record OutboxConfig := {
  ob_Table : string;
  ob_StreamPrefix : string;
  ob_DefaultTopic : string;
  ob_DeleteAfterPublish : bool;
  ob_Columns : OutboxColumns;
}.

Definition Enabled (c : OutboxConfig) : bool := negb (bool_decide (ob_Table c = "")).

Definition or_default (s d : string) : string := if decide (s = "") then d else s.
Definition applyDefaults (c : OutboxConfig) : OutboxConfig :=
  {| ob_Table := ob_Table c; ob_StreamPrefix := or_default (ob_StreamPrefix c) "events";
     ob_DefaultTopic := ob_DefaultTopic c; ob_DeleteAfterPublish := ob_DeleteAfterPublish c;
     ob_Columns := {| oc_ID := or_default (oc_ID (ob_Columns c)) "id";
                      oc_Topic := or_default (oc_Topic (ob_Columns c)) "topic";
                      oc_Key := or_default (oc_Key (ob_Columns c)) "aggregate_id";
                      oc_Payload := or_default (oc_Payload (ob_Columns c)) "payload";
                      oc_EventType := or_default (oc_EventType (ob_Columns c)) "event_type" |} |}.

(** The table's name up to its first dot, and after it. *)
Fixpoint split_dot (s : string) : option (string * string) :=
  match s with
  | EmptyString => None
  | String c rest =>
      if decide (c = "."%char) then Some (EmptyString, rest)
      else match split_dot rest with Some (a, b) => Some (String c a, b) | None => None end
  end.
Definition SchemaTable (c : OutboxConfig) : string * string :=
  match split_dot (ob_Table c) with Some p => p | None => ("public", ob_Table c) end.

(** The sink's own configuration. *)
Record Outbox := {
  ox_Schema : string;
  ox_Table : string;
  ox_StreamPrefix : string;
  ox_DefaultTopic : string;
  ox_DeleteAfterPublish : bool;
  ox_Columns : OutboxColumns;
  ox_MaxStreamLen : Z;
}.

Definition stringValue (v : any) : string := if is_nil v then "" else fmtV v.
(** [row[col]] of a possibly nil map. *)
Definition cell (row : data) (col : string) : any := default ANil (row ≫= lookup col).

Section outbox.
Context {W : Type} (cfg : Outbox) (Marshal : any -> res string).
Context (Exec : list command -> ST W (option error)) (Delete : list string -> ST W (option error)).

Definition payloadString (payload : any) : res string :=
  match payload with
  | AStr s => inl s
  | ABytes b => inl b
  | p => Marshal p
  end.

(** An optional field, present when it has a value. *)
Definition add_field (name v : string) (fields : gmap string string) : gmap string string :=
  if decide (v = "") then fields else <[name := v]> fields.

Definition buildMessage (event : CDCEvent) : res (string * gmap string string) :=
  let cols := ox_Columns cfg in
  let row := NewData event in
  let topic := or_default (stringValue (cell row (oc_Topic cols))) (ox_DefaultTopic cfg) in
  if decide (topic = "") then
    inr (EMsg ("outbox row has no " +:+ quoted (oc_Topic cols)
                 +:+ " value and no default_topic is configured (event " +:+ ID event +:+ ")")%string)
  else
    let payload := cell row (oc_Payload cols) in
    if is_nil payload then
      inr (EMsg ("outbox row has no " +:+ quoted (oc_Payload cols) +:+ " value (event " +:+ ID event +:+ ")")%string)
    else match payloadString payload with
    | inr e => inr (EWrap ("outbox: serialize payload (event " +:+ ID event +:+ "): ")%string e "")
    | inl payloadStr =>
        let id := or_default (stringValue (cell row (oc_ID cols))) (ID event) in
        inl ((ox_StreamPrefix cfg +:+ ":" +:+ topic)%string,
             add_field "key" (stringValue (cell row (oc_Key cols)))
               (add_field "type" (stringValue (cell row (oc_EventType cols)))
                  (<[ "payload" := payloadStr ]> {[ "id" := id ]})))
    end.

(** Whether an event is a message: an insert into the outbox table. *)
Definition is_message (event : CDCEvent) : bool :=
  bool_decide (Schema event = ox_Schema cfg) && bool_decide (Table event = ox_Table cfg) &&
  bool_decide (Op event = OperationInsert).

(** The loop: the messages and the ids of their rows. *)
Fixpoint outbox_loop (events : list CDCEvent) : res (list command * list any) :=
  match events with
  | [] => inl ([], [])
  | event :: rest =>
      if negb (is_message event) then outbox_loop rest
      else match buildMessage event with
      | inr e => inr e
      | inl (streamKey, fields) =>
          match outbox_loop rest with
          | inr e => inr e
          | inl (cmds, published) =>
              let id := cell (NewData event) (oc_ID (ox_Columns cfg)) in
              inl (XADD streamKey (ox_MaxStreamLen cfg) (map_to_list fields) :: cmds,
                   if is_nil id then published else id :: published)
          end
      end
  end.

(** The delete's error is only logged. *)
Definition deleteRows (ids : list any) : ST W unit := let! _ := Delete (map fmtV ids) in ret tt.

Definition Outbox_Process (events : list CDCEvent) : ST W (option error) :=
  match outbox_loop events with
  | inr e => ret (Some (EPermanent e))
  | inl ([], _) => ret None
  | inl (cmds, published) =>
      let! err := Exec cmds in
      match err with
      | Some e => ret (Some (EWrap ("outbox: publish " +:+ pretty (Z.of_nat (length cmds)) +:+ " messages: ")%string e ""))
      | None =>
          match ox_DeleteAfterPublish cfg, published with
          | true, _ :: _ => seq! deleteRows published in ret None
          | _, _ => ret None
          end
      end
  end.

Definition Outbox_Wants (schema table : string) (op : Operation) : bool :=
  bool_decide (schema = ox_Schema cfg) && bool_decide (table = ox_Table cfg) && bool_decide (op = OperationInsert).
End outbox.

(** ** Keeping the outbox table from the other sinks (exclude.go) *)
Section exclude.
Context {W : Type} (schema table : string) (sink : Sink W).

Definition excluded (e : CDCEvent) : bool := bool_decide (Schema e = schema) && bool_decide (Table e = table).

(** The loop to the first excluded event, and the copy from there. *)
Fixpoint exclude_from (events : list CDCEvent) (i : nat) (rest : list CDCEvent) : list CDCEvent :=
  match rest with
  | [] => events
  | e :: rest' =>
      if excluded e then take i events ++ filter (fun e => excluded e = false) (drop (S i) events)
      else exclude_from events (S i) rest'
  end.

Definition Exclude_Process (c : Ctx) (events : list CDCEvent) : ST W (option error) :=
  match exclude_from events 0 events with
  | [] => ret None
  | kept => Process sink c kept
  end.

Definition ExcludeTable : Sink W :=
  {| Name := Name sink; Initialize := Initialize sink; Process := Exclude_Process; Shutdown := Shutdown sink;
     HealthCheck := HealthCheck sink; batch_limiter := Some (MaxBatchEvents sink);
     router := Some (fun s t op => if decide (s = schema /\ t = table) then false else Wants sink s t op) |}.

Lemma filter_all (l : list CDCEvent) :
  Forall (fun e => excluded e = false) l -> filter (fun e => excluded e = false) l = l.
Proof. induction 1 as [|e l He Hl IH]; [done|]. rewrite filter_cons, decide_True by done. by rewrite IH. Qed.

Lemma exclude_from_spec pre rest :
  Forall (fun e => excluded e = false) pre ->
  exclude_from (pre ++ rest) (length pre) rest = filter (fun e => excluded e = false) (pre ++ rest).
Proof.
  revert pre. induction rest as [|e rest IH]; intros pre Hf; cbn [exclude_from].
  - rewrite app_nil_r. by rewrite filter_all.
  - destruct (excluded e) eqn:He.
    + rewrite take_app_length, filter_app, (filter_all pre) by done. f_equal.
      rewrite filter_cons, decide_False by congruence.
      by rewrite drop_app_ge, Nat.sub_succ_l, Nat.sub_diag by lia.
    + specialize (IH (pre ++ [e])). rewrite length_app in IH. simpl in IH.
      rewrite cons_middle, app_assoc. replace (S (length pre)) with (length pre + 1) by lia.
      apply IH. apply Forall_app. split; [done | by constructor].
Qed.

Lemma exclude_filter events : exclude_from events 0 events = filter (fun e => excluded e = false) events.
Proof. apply (exclude_from_spec []). constructor. Qed.
End exclude.

(** ** What the outbox publishes and deletes *)
Section outbox_log.
Context {W : Type} (cfg : Outbox) (Marshal : any -> res string).
Context (Exec : list command -> ST W (option error)) (Delete : list string -> ST W (option error)).

Inductive outbox_obs := Published (cmds : list command) (r : option error) | Deleted (keys : list string).

Definition logged_Exec (cmds : list command) : ST (list outbox_obs * W) (option error) :=
  fun '(log, w) => let '(r, w') := Exec cmds w in (r, (log ++ [Published cmds r], w')).
Definition logged_Delete (keys : list string) : ST (list outbox_obs * W) (option error) :=
  fun '(log, w) => let '(r, w') := Delete keys w in (r, (log ++ [Deleted keys], w')).

(** The message of one row, and the row's id when it has one. *)
Definition message_of (e : CDCEvent) (c : command) : Prop :=
  exists key fields, buildMessage cfg Marshal e = inl (key, fields) /\
    c = XADD key (ox_MaxStreamLen cfg) (map_to_list fields).
Definition row_id (e : CDCEvent) : option string :=
  let id := cell (NewData e) (oc_ID (ox_Columns cfg)) in if is_nil id then None else Some (fmtV id).

Lemma outbox_loop_spec events cmds published :
  outbox_loop cfg Marshal events = inl (cmds, published) ->
  let rows := filter (fun e => is_message cfg e = true) events in
  Forall2 message_of rows cmds /\ map fmtV published = omap row_id rows.
Proof.
  revert cmds published. induction events as [|e events IH]; intros cmds published; simpl.
  - intros [= <- <-]. split; [constructor | done].
  - destruct (is_message cfg e) eqn:Hm; simpl; cycle 1.
    + intros H. rewrite filter_cons, decide_False by congruence. by apply IH.
    + destruct (buildMessage cfg Marshal e) as [[key fields]|err] eqn:Hb; [|done].
      destruct (outbox_loop cfg Marshal events) as [[cs ps]|err]; [|done]. intros [= <- <-].
      destruct (IH cs ps eq_refl) as [Hf Hp]. rewrite filter_cons, decide_True by done. split.
      * constructor; [|done]. by exists key, fields.
      * cbn [omap list_omap]. unfold row_id at 1. destruct (is_nil _); [exact Hp|]. simpl. f_equal. exact Hp.
Qed.

(** C25: The outbox sink publishes the messages of the batch's outbox inserts, all of
    them in one pipeline and in order, or none when one cannot be built; it reports
    success only if the pipeline was accepted; and it deletes rows only after that,
    only when configured to, and exactly rows it published. *)
Theorem outbox_deletes_only_what_it_published events w :
  let rows := filter (fun e => is_message cfg e = true) events in
  let '(r, (log, _)) := Outbox_Process cfg Marshal logged_Exec logged_Delete events ([], w) in
  match r with
  | Some e => log = [] /\ IsPermanent e = true \/ exists cmds e0, log = [Published cmds (Some e0)]
  | None =>
      match log with
      | [] => rows = []
      | [Published cmds None] => Forall2 message_of rows cmds /\
          (ox_DeleteAfterPublish cfg = true -> omap row_id rows = [])
      | [Published cmds None; Deleted keys] => Forall2 message_of rows cmds /\
          ox_DeleteAfterPublish cfg = true /\ keys = omap row_id rows
      | _ => False
      end
  end.
Proof.
  simpl. unfold Outbox_Process. destruct (outbox_loop cfg Marshal events) as [[cmds published]|e] eqn:Hl.
  2: { simpl. by left. }
  destruct (outbox_loop_spec _ _ _ Hl) as [Hf Hp]. destruct cmds as [|c cs].
  - simpl. by inversion Hf.
  - unfold bind at 1. unfold logged_Exec. destruct (Exec (c :: cs) w) as [[e|] w1]; simpl.
    + right. by eexists _, _.
    + destruct (ox_DeleteAfterPublish cfg) eqn:Hd; [|done]. destruct published as [|p ps]; [done|].
      unfold deleteRows, bind, ret, logged_Delete. destruct (Delete _ w1) as [r2 w2]. simpl. done.
Qed.
End outbox_log.

(** ** A concrete batch, with an engine that appends the row's id to the pattern *)
Definition toy_Parse (pattern : string) : res string := inl pattern.
Definition toy_Render (t : string) (c : KeyTemplateContext) : res string :=
  inl (t +:+ ":" +:+ Field c "id")%string.
Definition toy_Marshal (v : any) : res string := inl (fmtV v).
Definition toy_resolver : KeyResolver (Template := string) :=
  {| kr_pattern := fun _ _ => "rows"; kr_filter := None;
     kr_prefixTemplate := {| kt_pattern := "p"; kt_template := "p" |}; kr_defaultPattern := "d";
     kr_templateCache := {[ "rows" := {| kt_pattern := "rows"; kt_template := "rows" |} ]} |}.
(** A server that remembers its pipelines. *)
Definition toy_Exec (cmds : list command) : ST (list (list command)) (option error) := fun w => (None, w ++ [cmds]).

Lemma pipelines_are_whole_and_in_order_witness :
  exists kr', JSON_Process toy_Parse toy_Render toy_Marshal toy_Exec
      [sample_insert "1"; sample_event "2" "public" "users" OperationDelete (Some {[ "id" := AStr "1" ]}) None]
      (toy_resolver, []) = (None, (kr', [[JSON_SET "rows:1" "map[id:1]"; DEL "rows:1"]])) /\
    cache_ok toy_Parse kr'.
Proof.
  assert (Hc : cache_ok toy_Parse toy_resolver) by (by apply map_Forall_singleton).
  exists toy_resolver. split; [vm_compute; reflexivity|].
  exact (proj1 (proj2 (proj2 (pipelines_are_whole_and_in_order toy_Parse toy_Render toy_Marshal (fun _ => ANil)
    toy_Exec 0
    [sample_insert "1"; sample_event "2" "public" "users" OperationDelete (Some {[ "id" := AStr "1" ]}) None]
    toy_resolver [] Hc)))).
Defined.
