(* ===== verification/Publish.v ===== *)
(** * The NATS and webhook sinks
      (src/internal/adapters/secondary/nats/sink.go and webhook/sink.go)

    Both publish a batch message by message: to NATS in windows of pipelined publishes
    that are all awaited before the next window, or as one flushed run; to a webhook as
    one signed request per event.  The NATS client, HTTP, the JSON encoder and the
    HMAC are parameters; logging versions of the clients let the theorems speak of
    what was published and acknowledged. *)

From Stdlib Require Import ZArith Lia Ascii String.
From stdpp Require Import base list gmap strings pretty.
From S2P Require Import Prelude Domain Keys RedisSinks.

Open Scope go_scope.

(** The payload both sinks send. *)
Definition event_payload (time_any : Z -> any) (event : CDCEvent) : any :=
  AMap [("event_id", AStr (ID event));
        ("operation", AStr (Operation_String (Op event)));
        ("schema", AStr (Schema event));
        ("table", AStr (Table event));
        ("old_data", data_any (OldData event));
        ("new_data", data_any (NewData event));
        ("unchanged_toast_columns", strings_any (UnchangedToastColumns event));
        ("metadata", AMap [("lsn", AStr (LSN (Metadata event)));
                           ("transaction_id", AInt (TransactionID (Metadata event)));
                           ("timestamp", time_any (Timestamp (Metadata event)))])].

(** ** Subjects *)

(** Wildcards and whitespace: tab, line feed, carriage return, space, star, greater. *)
Definition forbidden (c : ascii) : bool :=
  let n := nat_of_ascii c in
  bool_decide (n = 42) || bool_decide (n = 62) || bool_decide (n = 32) ||
  bool_decide (n = 9) || bool_decide (n = 10) || bool_decide (n = 13).

(** On the bytes of a valid UTF-8 string, whose other characters stay. *)
Fixpoint SanitizeSubject (s : string) : string :=
  match s with
  | EmptyString => EmptyString
  | String c rest => String (if forbidden c then "_"%char else c) (SanitizeSubject rest)
  end.

(** A subject without wildcards or white space: what [SanitizeSubject] is for.  NATS
    refuses an empty subject or token too; those it leaves alone. *)
Fixpoint literal_subject (s : string) : Prop :=
  match s with EmptyString => True | String c rest => forbidden c = false /\ literal_subject rest end.

Lemma SanitizeSubject_literal s : literal_subject (SanitizeSubject s).
Proof. induction s as [|c s IH]; simpl; [done|]. split; [|done]. by destruct (forbidden c) eqn:Hc. Qed.
Lemma SanitizeSubject_id s : literal_subject s -> SanitizeSubject s = s.
Proof. induction s as [|c s IH]; simpl; [done|]. intros [-> Hs]. by rewrite IH. Qed.

(** ** NATS *)
Record Msg := { msg_Subject : string; msg_Data : string }.
Definition publishWindow_size : nat := 1024.

(** How waiting for one acknowledgement ends. *)
Inductive ack_result := AckOk | AckErr (e : error) | AckDone.

Section nats.
Context {Template W F : Type} `{!World W} (Parse : string -> res Template).
Context (Render : Template -> KeyTemplateContext -> res string).
Context (Marshal : any -> res string) (time_any : Z -> any).
Context (SubjectPrefix : string) (Timeout : Z) (JetStream : bool).
(** The client: a core publish and flush, an asynchronous publish and its future. *)
Context (PublishMsg : Msg -> ST W (option error)) (Flush : Ctx -> ST W (option error)).
Context (PublishMsgAsync : Msg -> string -> ST W (res F)) (AwaitAck : Ctx -> F -> ST W ack_result).
(** The resolver is nil without a sinks configuration. *)
Abbreviation maybe_resolver := (option (KeyResolver (Template := Template))).

Definition on_resolver {A} (none : A) (some : ST (KeyResolver (Template := Template)) A) : ST maybe_resolver A :=
  fun kr => match kr with
            | None => (none, None)
            | Some r => let '(a, r') := some r in (a, Some r')
            end.

Definition nats_subject (event : CDCEvent) : ST maybe_resolver (res string) :=
  on_resolver (inl (SanitizeSubject (SubjectPrefix +:+ "." +:+ Schema event +:+ "." +:+ Table event)))
    (let! k := GenerateKey Parse Render event in
     ret match k with
         | inr e => inr (EWrap ("build subject for " +:+ FullTableName event +:+ ": ")%string e "")
         | inl s => inl (SanitizeSubject s)
         end).

Definition message (event : CDCEvent) : ST maybe_resolver (res Msg) :=
  let! s := nats_subject event in
  ret match s with
      | inr e => inr e
      | inl subject =>
          match Marshal (event_payload time_any event) with
          | inr e => inr (EWrap ("marshal payload for event " +:+ ID event +:+ ": ")%string e "")
          | inl data => inl {| msg_Subject := subject; msg_Data := data |}
          end
      end.

(** The loop that builds the messages, each with its event's id. *)
Fixpoint message_loop (events : list CDCEvent) : ST maybe_resolver (res (list (Msg * string))) :=
  match events with
  | [] => ret (inl [])
  | event :: rest =>
      let! kr := get in
      if match kr with Some r => negb (Resolver_ShouldProcess r (Schema event) (Table event)) | None => false end
      then message_loop rest
      else
        let! m := message event in
        match m with
        | inr e => ret (inr e)
        | inl msg =>
            let! ms := message_loop rest in
            ret match ms with inr e => inr e | inl ms => inl ((msg, ID event) :: ms) end
        end
  end.

(** The first loop of [publishWindow]. *)
Fixpoint publish_loop (msgs : list (Msg * string)) : ST W (res (list F)) :=
  match msgs with
  | [] => ret (inl [])
  | (msg, id) :: rest =>
      let! f := PublishMsgAsync msg id in
      match f with
      | inr e => ret (inr (EWrap ("publish " +:+ msg_Subject msg +:+ ": ")%string e ""))
      | inl f =>
          let! fs := publish_loop rest in
          ret match fs with inr e => inr e | inl fs => inl (f :: fs) end
      end
  end.

(** The second: the future of each message. *)
Fixpoint await_loop (c : Ctx) (fs : list F) (msgs : list (Msg * string)) : ST W (option error) :=
  match fs, msgs with
  | f :: fs', (msg, id) :: rest =>
      let! a := AwaitAck c f in
      match a with
      | AckOk => await_loop c fs' rest
      | AckErr e => ret (Some (EWrap ("publish " +:+ msg_Subject msg +:+ " (event " +:+ id +:+ "): ")%string e ""))
      | AckDone =>
          let! w := get in
          ret (Some (EWrap "await publish acks: " (default (EMsg "<nil>") (ctx_err c w)) ""))
      end
  | _, _ => ret None
  end.

Definition publishWindow (c0 : Ctx) (msgs : list (Msg * string)) : ST W (option error) :=
  let! w := get in
  let c := WithTimeout c0 w Timeout in
  let! fs := publish_loop msgs in
  match fs with
  | inr e => ret (Some e)
  | inl fs => await_loop c fs msgs
  end.

(** Core NATS: every message, then one flush. *)
Definition core_publish (c0 : Ctx) (msgs : list (Msg * string)) : ST W (option error) :=
  try! for_each (fun m =>
         let! e := PublishMsg m.1 in
         ret ((fun e => EWrap ("publish " +:+ msg_Subject m.1 +:+ ": ")%string e "") <$> e)) msgs in
  let! w := get in
  let! e := Flush (WithTimeout c0 w Timeout) in
  ret ((fun e => EWrap ("flush " +:+ pretty (Z.of_nat (length msgs)) +:+ " messages: ")%string e "") <$> e).

Definition Nats_Process (c : Ctx) (events : list CDCEvent) : ST (maybe_resolver * W) (option error) :=
  let! ms := own (message_loop events) in
  match ms with
  | inr e => ret (Some (EPermanent e))
  | inl [] => ret None
  | inl msgs =>
      if JetStream then inner (for_each (publishWindow c) (slices publishWindow_size msgs))
      else inner (core_publish c msgs)
  end.

Definition Nats_Wants (kr : maybe_resolver) (schema table : string) (_ : Operation) : bool :=
  match kr with None => true | Some r => Resolver_ShouldProcess r schema table end.

(** No message's subject has a wildcard or white space. *)
Lemma message_literal e kr m kr' : message e kr = (inl m, kr') -> literal_subject (msg_Subject m).
Proof.
  unfold message, bind, ret. destruct (nats_subject e kr) as [[s|err] kr1] eqn:Hs; [|done].
  destruct (Marshal _); [|done]. intros [= <- _]. simpl. revert Hs.
  unfold nats_subject, on_resolver, bind, ret. destruct kr as [r|].
  - destruct (GenerateKey Parse Render e r) as [[key|err] r']; [|done]. intros [= <- _].
    apply SanitizeSubject_literal.
  - intros [= <- _]. apply SanitizeSubject_literal.
Qed.
Lemma message_loop_literal events kr ms kr' :
  message_loop events kr = (inl ms, kr') -> Forall (fun m => literal_subject (msg_Subject m.1)) ms.
Proof.
  revert kr ms kr'. induction events as [|e events IH]; intros kr ms kr'; simpl.
  - intros [= <- _]. constructor.
  - unfold bind, get, ret. destruct (match kr with Some r => _ | None => _ end); [by apply IH|].
    destruct (message e kr) as [[m|err] kr1] eqn:Hm; [|done].
    destruct (message_loop events kr1) as [[ms1|err] kr2] eqn:Hl; [|done]. intros [= <- _].
    constructor; [by eapply message_literal | by eapply IH].
Qed.
End nats.

(** ** What a NATS batch publishes *)
Section nats_log.
Context {Template W F : Type} `{!World W} (Parse : string -> res Template).
Context (Render : Template -> KeyTemplateContext -> res string).
Context (Marshal : any -> res string) (time_any : Z -> any).
Context (SubjectPrefix : string) (Timeout : Z).
Context (PublishMsg : Msg -> ST W (option error)) (Flush : Ctx -> ST W (option error)).
Context (PublishMsgAsync : Msg -> string -> ST W (res F)) (AwaitAck : Ctx -> F -> ST W ack_result).

(** The client's successes: a message sent (with its id), acknowledged, or flushed. *)
Inductive nats_obs := Sent (m : Msg) (id : string) | Acked (m : Msg) (id : string) | SentCore (m : Msg) | Flushed.
Abbreviation nlog := (list nats_obs).

Definition log_async (m : Msg) (id : string) : ST (nlog * W) (res (Msg * string * F)) :=
  fun '(log, w) => match PublishMsgAsync m id w with
                   | (inl f, w') => (inl (m, id, f), (log ++ [Sent m id], w'))
                   | (inr e, w') => (inr e, (log, w'))
                   end.
Definition log_await (c : Ctx) (f : Msg * string * F) : ST (nlog * W) ack_result :=
  fun '(log, w) => match AwaitAck c f.2 w with
                   | (AckOk, w') => (AckOk, (log ++ [Acked f.1.1 f.1.2], w'))
                   | (a, w') => (a, (log, w'))
                   end.
Definition log_publish (m : Msg) : ST (nlog * W) (option error) :=
  fun '(log, w) => match PublishMsg m w with
                   | (None, w') => (None, (log ++ [SentCore m], w'))
                   | (e, w') => (e, (log, w'))
                   end.
Definition log_flush (c : Ctx) : ST (nlog * W) (option error) :=
  fun '(log, w) => match Flush c w with
                   | (None, w') => (None, (log ++ [Flushed], w'))
                   | (e, w') => (e, (log, w'))
                   end.

Definition sent_log (msgs : list (Msg * string)) : nlog := map (fun m => Sent m.1 m.2) msgs.
Definition acked_log (msgs : list (Msg * string)) : nlog := map (fun m => Acked m.1 m.2) msgs.

(** A whole batch: window by window, sent and then acknowledged; or sent and flushed. *)
Definition batch_log (JetStream : bool) (msgs : list (Msg * string)) : nlog :=
  if JetStream then concat (map (fun win => sent_log win ++ acked_log win) (slices publishWindow_size msgs))
  else map (fun m => SentCore m.1) msgs ++ [Flushed].

(** A step that logs [full] when it succeeds and a prefix of it when it fails. *)
Definition logs {A} (m : ST (nlog * W) A) (ok : A -> bool) (full : nlog) : Prop :=
  forall log w, let '(a, (log', _)) := m (log, w) in
    exists ext, log' = log ++ ext /\ ext `prefix_of` full /\ (ok a = true -> ext = full).

Definition no_error (r : option error) : bool := negb (isSome r).

Lemma logs_for_each {X} (f : X -> ST (nlog * W) (option error)) (g : X -> nlog) (l : list X) :
  (forall x, logs (f x) no_error (g x)) -> logs (for_each f l) no_error (concat (map g l)).
Proof.
  intros Hf. induction l as [|x l IH]; intros log w; simpl.
  { exists []. rewrite app_nil_r. split_and!; done. }
  unfold guard, bind. specialize (Hf x log w). destruct (f x (log, w)) as [[e|] [log1 w1]].
  - destruct Hf as (ext & -> & Hp & _). exists ext. split_and!; [done | by apply prefix_app_r | done].
  - destruct Hf as (ext & -> & _ & Hall). rewrite (Hall eq_refl). specialize (IH (log ++ g x) w1).
    destruct (for_each f l (log ++ g x, w1)) as [r [log2 w2]]. destruct IH as (ext2 & -> & Hp & Hall2).
    exists (g x ++ ext2). rewrite app_assoc. split_and!; [done | by apply prefix_app |].
    intros Hr. by rewrite Hall2.
Qed.

Lemma publish_loop_logs msgs log w :
  let '(r, (log', _)) := publish_loop log_async msgs (log, w) in
  exists ext, log' = log ++ ext /\ ext `prefix_of` sent_log msgs /\
    forall fs, r = inl fs -> ext = sent_log msgs /\ map fst fs = msgs.
Proof.
  revert log w. induction msgs as [|[m id] msgs IH]; intros log w; simpl.
  { exists []. rewrite app_nil_r. split_and!; [done | done |]. by intros fs [= <-]. }
  unfold bind, ret. unfold log_async at 1. destruct (PublishMsgAsync m id w) as [[f|e] w1].
  - specialize (IH (log ++ [Sent m id]) w1).
    destruct (publish_loop log_async msgs (log ++ [Sent m id], w1)) as [r [log2 w2]].
    destruct IH as (ext & -> & Hp & Hall). exists (Sent m id :: ext). rewrite <- app_assoc.
    split_and!; [done | by apply prefix_cons |]. intros fs. destruct r as [fs1|]; [|done]. intros [= <-].
    destruct (Hall fs1 eq_refl) as [-> Hfs]. split; [done|]. simpl. by rewrite Hfs.
  - exists []. rewrite app_nil_r. split_and!; [done | apply prefix_nil | done].
Qed.

Lemma await_loop_logs c fs msgs :
  map fst fs = msgs -> logs (await_loop log_await c fs msgs) no_error (acked_log msgs).
Proof.
  intros <-. induction fs as [|[[m id] f] fs IH]; intros log w; simpl.
  { exists []. rewrite app_nil_r. split_and!; done. }
  unfold bind, get, ret. unfold log_await at 1. simpl. destruct (AwaitAck c f w) as [[|e|] w1].
  - specialize (IH (log ++ [Acked m id]) w1).
    destruct (await_loop log_await c fs (map fst fs) (log ++ [Acked m id], w1)) as [r [log2 w2]].
    destruct IH as (ext & -> & Hp & Hall). exists (Acked m id :: ext). rewrite <- app_assoc.
    split_and!; [done | by apply prefix_cons |]. intros Hr. by rewrite Hall.
  - exists []. rewrite app_nil_r. split_and!; [done | apply prefix_nil | done].
  - exists []. rewrite app_nil_r. split_and!; [done | apply prefix_nil | done].
Qed.

Lemma window_logs c msgs :
  logs (publishWindow Timeout log_async log_await c msgs) no_error (sent_log msgs ++ acked_log msgs).
Proof.
  intros log w. unfold publishWindow. unfold bind at 1, get. unfold bind at 1.
  pose proof (publish_loop_logs msgs log w) as Hp.
  destruct (publish_loop log_async msgs (log, w)) as [[fs|e] [log1 w1]]; destruct Hp as (ext & -> & Hpre & Hall).
  - destruct (Hall fs eq_refl) as [-> Hfs].
    pose proof (await_loop_logs (WithTimeout c (log, w) Timeout) fs msgs Hfs (log ++ sent_log msgs) w1) as Ha.
    destruct (await_loop _ _ _ _ _) as [r [log2 w2]]. destruct Ha as (ext2 & -> & Hp2 & Hall2).
    exists (sent_log msgs ++ ext2). rewrite app_assoc. split_and!; [done | by apply prefix_app |].
    intros Hr. by rewrite Hall2.
  - exists ext. split_and!; [done | by apply prefix_app_r | done].
Qed.

Lemma concat_singletons {X Y} (g : X -> Y) (l : list X) : concat (map (fun x => [g x]) l) = map g l.
Proof. induction l; simpl; [done | by f_equal]. Qed.

Lemma core_logs c msgs :
  logs (core_publish Timeout log_publish log_flush c msgs) no_error (map (fun m => SentCore m.1) msgs ++ [Flushed]).
Proof.
  intros log w. unfold core_publish, guard. unfold bind at 1.
  assert (Hone : forall m : Msg * string, logs (let! e := log_publish m.1 in
      ret ((fun e => EWrap ("publish " +:+ msg_Subject m.1 +:+ ": ")%string e "") <$> e)) no_error [SentCore m.1]).
  { intros m log0 w0. unfold bind, ret, log_publish. destruct (PublishMsg m.1 w0) as [[e|] w1]; simpl.
    - exists []. rewrite app_nil_r. split_and!; [done | apply prefix_nil | done].
    - by exists [SentCore m.1]. }
  pose proof (logs_for_each _ (fun m : Msg * string => [SentCore m.1]) msgs Hone log w) as Hl.
  destruct (for_each _ msgs (log, w)) as [[e|] [log1 w1]]; destruct Hl as (ext & -> & Hp & Hall).
  - exists ext. split_and!; [done | | done]. apply prefix_app_r. by rewrite concat_singletons in Hp.
  - rewrite (Hall eq_refl), (concat_singletons (fun m : Msg * string => SentCore m.1)). unfold bind, get, ret, log_flush. destruct (Flush _ w1) as [[e|] w2]; simpl.
    + exists (map (fun m => SentCore m.1) msgs). split_and!; [done | by apply prefix_app_r | done].
    + eexists. split_and!; [by rewrite <- app_assoc | done | done].
Qed.

(** C26: A NATS batch is reported as delivered only when every message of it was sent
    and, with JetStream, acknowledged as stored, or, without, flushed: in order, in
    windows of at most 1024 outstanding messages, each window acknowledged before the
    next is sent.  A failed batch has sent a prefix of that.  No subject has a wildcard
    or white space in it, whatever the identifiers and the pattern; an empty subject or
    token is passed on as it is.  An event that cannot be rendered sends nothing and is
    permanent. *)
Theorem nats_success_means_acknowledged JetStream c events kr w :
  let '(ms, kr1) := message_loop Parse Render Marshal time_any SubjectPrefix events kr in
  let '(r, (kr', (log, _))) := Nats_Process Parse Render Marshal time_any SubjectPrefix Timeout JetStream
      log_publish log_flush log_async log_await c events (kr, ([], w)) in
  match ms with
  | inr e => r = Some (EPermanent e) /\ log = []
  | inl [] => r = None /\ log = []
  | inl msgs =>
      log `prefix_of` batch_log JetStream msgs /\ (r = None -> log = batch_log JetStream msgs) /\
      Forall (fun m => literal_subject (msg_Subject m.1)) msgs /\
      Forall (fun win => length win <= publishWindow_size) (slices publishWindow_size msgs) /\
      concat (slices publishWindow_size msgs) = msgs
  end.
Proof.
  destruct (message_loop Parse Render Marshal time_any SubjectPrefix events kr) as [ms kr1] eqn:Hm.
  unfold Nats_Process. unfold bind at 1, own. rewrite Hm. destruct ms as [[|m ms]|e]; [done | | done].
  pose proof (message_loop_literal _ _ _ _ _ _ _ _ _ Hm) as Hpub. set (msgs := m :: ms) in *.
  assert (Hlogs : logs (if JetStream
      then for_each (publishWindow Timeout log_async log_await c) (slices publishWindow_size msgs)
      else core_publish Timeout log_publish log_flush c msgs) no_error (batch_log JetStream msgs)).
  { destruct JetStream; [|apply core_logs]. apply logs_for_each. intros win. apply window_logs. }
  specialize (Hlogs [] w). unfold inner.
  destruct JetStream;
    [destruct (for_each _ _ _) as [r [log w']] | destruct (core_publish _ _ _ _ _ _) as [r [log w']]];
    destruct Hlogs as (ext & -> & Hp & Hall);
    (split_and!; [exact Hp | intros ->; by apply Hall | exact Hpub | apply slices_length | by apply slices_concat]).
Qed.
End nats_log.

(** ** Webhooks *)
Record request := { rq_headers : list (string * string); rq_body : string }.
Record response := { rs_StatusCode : Z; rs_Status : string; rs_body : string }.

Section webhook.
Context {W : Type} `{!World W} (Marshal : any -> res string) (time_any : Z -> any).
Context (hmac256hex : string -> string -> string) (TrimSpace : string -> string).
Context (filter : option (string -> string -> bool)) (AuthHeader SigningSecret : string).
(** [http.NewRequestWithContext]'s error, for the configured URL, and the round trip. *)
Context (request_err : option error) (Do : Ctx -> request -> ST W (res response)).

(** [Sign]: over the timestamp, a dot and the body. *)
Definition Sign (secret timestamp body : string) : string :=
  ("sha256=" +:+ hmac256hex secret (timestamp +:+ "." +:+ body))%string.

Definition webhook_wanted (event : CDCEvent) : bool :=
  match filter with None => true | Some f => f (Schema event) (Table event) end.

(** The request of an event at a time, in seconds. *)
Definition webhook_request (unix : Z) (event : CDCEvent) (body : string) : request :=
  let timestamp := pretty unix in
  {| rq_headers :=
       [("Content-Type", "application/json"); ("User-Agent", "gtc"); ("X-GTC-Event-Id", ID event);
        ("X-GTC-Table", FullTableName event); ("X-GTC-Operation", Operation_String (Op event))] ++
       (if decide (AuthHeader = "") then [] else [("Authorization", AuthHeader)]) ++
       (if decide (SigningSecret = "") then []
        else [("X-GTC-Timestamp", timestamp); ("X-GTC-Signature", Sign SigningSecret timestamp body)]);
     rq_body := body |}.

Definition errorBodyLimit : nat := 512.

(** What a response means for the event. *)
Definition webhook_result (event : CDCEvent) (resp : response) : option error :=
  if decide (rs_StatusCode resp < 200 \/ 299 < rs_StatusCode resp)%Z then
    let detail := TrimSpace (list_to_string (take errorBodyLimit (string_to_list (rs_body resp)))) in
    let err := EMsg ("webhook returned " +:+ rs_Status resp +:+ " for event " +:+ ID event +:+ ": " +:+ detail)%string in
    if decide (rs_StatusCode resp = 400 \/ rs_StatusCode resp = 413 \/ rs_StatusCode resp = 422)%Z
    then Some (EPermanent err) else Some err
  else None.

Definition Webhook_deliver (c : Ctx) (event : CDCEvent) : ST W (option error) :=
  match Marshal (event_payload time_any event) with
  | inr e => ret (Some (EPermanent (EWrap ("marshal payload for event " +:+ ID event +:+ ": ")%string e "")))
  | inl body =>
      match request_err with
      | Some e => ret (Some (EWrap "build request: " e ""))
      | None =>
          let! w := get in
          let! r := Do c (webhook_request (now w / 1000000000)%Z event body) in
          ret match r with
              | inr e => Some (EWrap ("post event " +:+ ID event +:+ ": ")%string e "")
              | inl resp => webhook_result event resp
              end
      end
  end.

Fixpoint Webhook_Process (c : Ctx) (events : list CDCEvent) : ST W (option error) :=
  match events with
  | [] => ret None
  | event :: rest =>
      if negb (webhook_wanted event) then Webhook_Process c rest
      else guard (Webhook_deliver c event) (Webhook_Process c rest)
  end.

Definition Webhook_MaxBatchEvents : Z := 1.
End webhook.

(** ** What a webhook batch posts *)
Section webhook_log.
Context {W : Type} `{!World W} (Marshal : any -> res string) (time_any : Z -> any).
Context (hmac256hex : string -> string -> string) (TrimSpace : string -> string).
Context (filter : option (string -> string -> bool)) (AuthHeader SigningSecret : string).
Context (request_err : option error) (Do : Ctx -> request -> ST W (res response)).

(** Every request with its response. *)
Definition log_Do (c : Ctx) (r : request) : ST (list (request * res response) * W) (res response) :=
  fun '(log, w) => let '(resp, w') := Do c r w in (resp, (log ++ [(r, resp)], w')).

Abbreviation deliver_logged := (Webhook_deliver Marshal time_any hmac256hex TrimSpace AuthHeader SigningSecret
                                  request_err log_Do).
Abbreviation process_logged := (Webhook_Process Marshal time_any hmac256hex TrimSpace filter AuthHeader SigningSecret
                                  request_err log_Do).

(** The request that delivered an event, signed at some time, and its 2xx response. *)
Definition accepted_by (e : CDCEvent) (p : request * res response) : Prop :=
  exists unix body resp, Marshal (event_payload time_any e) = inl body /\
    p = (webhook_request hmac256hex AuthHeader SigningSecret unix e body, inl resp) /\
    (200 <= rs_StatusCode resp <= 299)%Z.

(** Why a delivery failed, and whether resending could help. *)
Definition rejected_by (e : CDCEvent) (err : error) (ps : list (request * res response)) : Prop :=
  match ps with
  | [] => (exists e0, Marshal (event_payload time_any e) = inr e0 /\ IsPermanent err = true) \/
          (exists e0, request_err = Some e0 /\ IsPermanent err = IsPermanent e0)
  | [(_, inr e0)] => IsPermanent err = IsPermanent e0
  | [(_, inl resp)] => ~ (200 <= rs_StatusCode resp <= 299)%Z /\
      (IsPermanent err = true <-> rs_StatusCode resp = 400 \/ rs_StatusCode resp = 413 \/ rs_StatusCode resp = 422)%Z
  | _ => False
  end.

Lemma deliver_logs c e log w :
  let '(r, (log', _)) := deliver_logged c e (log, w) in
  match r with
  | None => exists p, log' = log ++ [p] /\ accepted_by e p
  | Some err => exists ps, log' = log ++ ps /\ rejected_by e err ps
  end.
Proof.
  unfold Webhook_deliver. destruct (Marshal (event_payload time_any e)) as [body|e0] eqn:Hm; cycle 1.
  { simpl. exists []. rewrite app_nil_r. split; [done|]. left. eauto. }
  destruct request_err as [e0|] eqn:Hr.
  { simpl. exists []. rewrite app_nil_r. split; [done|]. right. eauto. }
  unfold bind, get, ret, log_Do. destruct (Do c _ w) as [[resp|e0] w1] eqn:Hd; simpl; cycle 1.
  { eexists. split; [done|]. done. }
  unfold webhook_result. destruct (decide (rs_StatusCode resp < 200 \/ 299 < rs_StatusCode resp)%Z) as [Hbad|Hok].
  - destruct (decide (rs_StatusCode resp = 400 \/ _)%Z) as [Hp|Hp].
    + eexists. split; [done|]. split; [lia | done].
    + eexists. split; [done|]. split; [lia | done].
  - eexists. split; [done|]. do 3 eexists. split_and!; [done | done | lia | lia].
Qed.

(** C27: A webhook batch is one request per event of the sink's tables, in order, each
    carrying that event's id and signature, up to the first that is not answered with
    a 2xx status; the batch succeeds exactly when all are, and a failure is permanent
    only if the event cannot be encoded or the receiver answered 400, 413 or 422. *)
Theorem webhook_posts_in_order c events log w :
  let wanted := base.filter (fun e => webhook_wanted filter e = true) events in
  let '(r, (log', _)) := process_logged c events (log, w) in
  match r with
  | None => exists ps, log' = log ++ ps /\ Forall2 accepted_by wanted ps
  | Some err => exists before e after ps qs, wanted = before ++ e :: after /\
      log' = log ++ ps ++ qs /\ Forall2 accepted_by before ps /\ rejected_by e err qs
  end.
Proof.
  simpl. revert log w. induction events as [|e events IH]; intros log w; simpl.
  { exists []. rewrite app_nil_r. split; [done | constructor]. }
  rewrite filter_cons. destruct (webhook_wanted filter e) eqn:Hw; simpl; cycle 1.
  { apply IH. }
  unfold guard, bind. pose proof (deliver_logs c e log w) as Hd.
  destruct (deliver_logged c e (log, w)) as [[err|] [log1 w1]].
  - destruct Hd as (ps & -> & Hrej). exists [], e. eexists _, [], ps. split_and!; [done | done | constructor | done].
  - destruct Hd as (p & -> & Hacc). specialize (IH (log ++ [p]) w1).
    destruct (process_logged c events (log ++ [p], w1)) as [[err|] [log2 w2]].
    + destruct IH as (before & e1 & after & ps & qs & -> & -> & Hf & Hr).
      exists (e :: before), e1, after, (p :: ps), qs. rewrite <- app_assoc. split_and!; [done | done | by constructor | done].
    + destruct IH as (ps & -> & Hf). exists (p :: ps). rewrite <- app_assoc. split; [done | by constructor].
Qed.
End webhook_log.
