(* ===== verification/MeiliSetup.v ===== *)
(** * Preparing the Meilisearch indexes
      (src/internal/adapters/secondary/meilisearch/sink.go, from [applyIndexSettings]
      on, its constructor and life cycle, and mapper.go)

    At startup the sink creates the configured indexes and brings their settings up
    to date, waiting for each task.  The server is an interface, [MeiliAdmin], whose
    laws say what its documentation says: a query tells the index's state, and an
    accepted change is in force once its task succeeded.  The theorem is proved
    against the laws, for every such server and every order in which Go ranges over
    the settings. *)

From Stdlib Require Import ZArith Lia Ascii String.
From stdpp Require Import base list gmap strings pretty.
From S2P Require Import Prelude Domain Transform Meili.

Open Scope go_scope.
Set Warnings "-clear-no-such-hyp".

(** ** The table mapper (mapper.go) *)
Record IndexResolver := {
  ir_GetIndex : string -> string -> option string;
  ir_GetPrimaryKey : string -> string -> string;
  ir_IndexSettings : res (gmap string MeiliIndexSettings);
}.
Record TableMapper := { tm_resolver : IndexResolver }.
Definition NewTableMapper (r : IndexResolver) : TableMapper := {| tm_resolver := r |}.
Definition Mapper_GetIndex (m : TableMapper) (schema table : string) : option string :=
  ir_GetIndex (tm_resolver m) schema table.
Definition Mapper_ShouldProcess (m : TableMapper) (schema table : string) : bool :=
  isSome (Mapper_GetIndex m schema table).
Definition Mapper_PrimaryKey (m : TableMapper) (schema table : string) : string :=
  ir_GetPrimaryKey (tm_resolver m) schema table.
Definition Mapper_IndexSettings (m : TableMapper) : res (gmap string MeiliIndexSettings) :=
  ir_IndexSettings (tm_resolver m).

(** The resolver the gateway passes: the sinks configuration's Meilisearch part. *)
Definition config_resolver (cfg : gmap string MeiliTableConfig) : IndexResolver :=
  {| ir_GetIndex := GetIndex cfg; ir_GetPrimaryKey := GetPrimaryKey cfg; ir_IndexSettings := IndexSettings cfg |}.

#[export] Instance taskStatus_eq_dec : EqDecision taskStatus.
Proof. solve_decision. Defined.

(** ** The server's administration *)
Class MeiliAdmin (W : Type) := {
  Health : ST W (option error);
  GetIndexInfo : string -> ST W (res string);  (* its primary key, empty when none is set *)
  CreateIndex : string -> string -> ST W (res Z);
  GetSearchableAttributes : string -> ST W (res (option (list string)));
  UpdateSearchableAttributes : string -> list string -> ST W (res Z);
  GetFilterableAttributes : string -> ST W (res (option (list any)));
  UpdateFilterableAttributes : string -> list any -> ST W (res Z);
  WaitForTask : Z -> ST W (res Task);
  APIStatus : error -> option Z;
  CloseClient : ST W unit;
}.

(** [sameFilterable] *)
Fixpoint same_names (current : list any) (want : list string) : bool :=
  match current, want with
  | [], _ => true
  | AStr name :: current', w :: want' => bool_decide (name = w) && same_names current' want'
  | _, _ => false
  end.
Definition sameFilterable (current : option (list any)) (want : list string) : bool :=
  match current with
  | None => false
  | Some cur => if decide (length cur = length want) then same_names cur want else false
  end.

Section startup.
Context {W : Type} `{!MeiliAdmin W}.
(** The order in which Go ranges over a map. *)
Context (range : gmap string MeiliIndexSettings -> list (string * MeiliIndexSettings)).

Definition awaitTask (uid : Z) : ST W (option error) :=
  let! r := WaitForTask uid in
  ret match r with
      | inr e => Some (EWrap "wait for meilisearch task: " e "")
      | inl task =>
          if decide (t_Status task = TaskSucceeded) then None
          else Some (EMsg ("meilisearch task " +:+ pretty (t_UID task) +:+ " failed: "
                             +:+ t_ErrorMessage task +:+ " (" +:+ t_ErrorCode task +:+ ")")%string)
      end.

Definition ensureIndex (indexName primaryKey : string) : ST W (option error) :=
  let! existing := GetIndexInfo indexName in
  match existing with
  | inl pk =>
      ret (if decide (pk <> "" /\ pk <> primaryKey)
           then Some (EMsg ("meilisearch index " +:+ quoted indexName +:+ " has primary key " +:+ quoted pk
                              +:+ ", config wants " +:+ quoted primaryKey)%string)
           else None)
  | inr e =>
      if decide (APIStatus e = Some 404%Z) then
        let! task := CreateIndex indexName primaryKey in
        match task with
        | inr e => ret (Some (EWrap ("create meilisearch index " +:+ quoted indexName +:+ ": ")%string e ""))
        | inl uid => awaitTask uid
        end
      else ret (Some (EWrap ("get meilisearch index " +:+ quoted indexName +:+ ": ")%string e ""))
  end.

Definition apply_searchable (indexName : string) (want : list string) : ST W (option error) :=
  match want with
  | [] => ret None
  | _ =>
      let! current := GetSearchableAttributes indexName in
      match current with
      | inr e => ret (Some (EWrap ("get searchable attributes of " +:+ quoted indexName +:+ ": ")%string e ""))
      | inl current =>
          if decide (current = Some want) then ret None
          else
            let! task := UpdateSearchableAttributes indexName want in
            match task with
            | inr e => ret (Some (EWrap ("update searchable attributes of " +:+ quoted indexName +:+ ": ")%string e ""))
            | inl uid => awaitTask uid
            end
      end
  end.

Definition apply_filterable (indexName : string) (want : list string) : ST W (option error) :=
  match want with
  | [] => ret None
  | _ =>
      let! current := GetFilterableAttributes indexName in
      match current with
      | inr e => ret (Some (EWrap ("get filterable attributes of " +:+ quoted indexName +:+ ": ")%string e ""))
      | inl current =>
          if sameFilterable current want then ret None
          else
            let! task := UpdateFilterableAttributes indexName (map AStr want) in
            match task with
            | inr e => ret (Some (EWrap ("update filterable attributes of " +:+ quoted indexName +:+ ": ")%string e ""))
            | inl uid => awaitTask uid
            end
      end
  end.

(** The body of the loop over the settings. *)
Definition apply_index (p : string * MeiliIndexSettings) : ST W (option error) :=
  try! ensureIndex p.1 (mi_PrimaryKey p.2) in
  try! apply_searchable p.1 (mi_SearchableAttributes p.2) in
  apply_filterable p.1 (mi_FilterableAttributes p.2).

Definition applyIndexSettings (mapper : TableMapper) : ST W (option error) :=
  match Mapper_IndexSettings mapper with
  | inr e => ret (Some e)
  | inl settings => for_each apply_index (range settings)
  end.

Definition Meili_Initialize (mapper : TableMapper) : ST W (option error) :=
  try! Health in applyIndexSettings mapper.
Definition Meili_Shutdown : ST W (option error) := seq! CloseClient in ret None.
Definition Meili_HealthCheck : ST W (option error) := Health.
End startup.

(** ** What the server promises *)
Record index_state := {
  ix_PrimaryKey : string;
  ix_Searchable : option (list string);
  ix_Filterable : option (list any);
}.

(** An accepted change whose task succeeded turns [view] into [next]. *)
Definition in_force {W} `{!MeiliAdmin W} (view : W -> gmap string index_state) (change : ST W (res Z))
    (next : gmap string index_state -> gmap string index_state -> Prop) : Prop :=
  forall w uid w1 t w2, change w = (inl uid, w1) -> WaitForTask uid w1 = (inl t, w2) ->
    t_Status t = TaskSucceeded -> next (view w) (view w2).

Class MeiliAdminLaws (W : Type) `{!MeiliAdmin W} (view : W -> gmap string index_state) : Prop := {
  health_reads w : view (Health w).2 = view w;
  index_reads idx w : view (GetIndexInfo idx w).2 = view w;
  searchable_reads idx w : view (GetSearchableAttributes idx w).2 = view w;
  filterable_reads idx w : view (GetFilterableAttributes idx w).2 = view w;
  index_tells idx w :
    match (GetIndexInfo idx w).1 with
    | inl pk => exists s, view w !! idx = Some s /\ ix_PrimaryKey s = pk
    | inr e => APIStatus e = Some 404%Z -> view w !! idx = None
    end;
  searchable_tells idx w cur s :
    (GetSearchableAttributes idx w).1 = inl cur -> view w !! idx = Some s -> cur = ix_Searchable s;
  filterable_tells idx w cur s :
    (GetFilterableAttributes idx w).1 = inl cur -> view w !! idx = Some s -> cur = ix_Filterable s;
  create_takes idx pk :
    in_force view (CreateIndex idx pk) (fun v v' => exists s, ix_PrimaryKey s = pk /\ v' = <[idx := s]> v);
  searchable_takes idx attrs :
    in_force view (UpdateSearchableAttributes idx attrs) (fun v v' => forall s, v !! idx = Some s ->
      v' = <[idx := {| ix_PrimaryKey := ix_PrimaryKey s; ix_Searchable := Some attrs;
                       ix_Filterable := ix_Filterable s |}]> v);
  filterable_takes idx attrs :
    in_force view (UpdateFilterableAttributes idx attrs) (fun v v' => forall s, v !! idx = Some s ->
      v' = <[idx := {| ix_PrimaryKey := ix_PrimaryKey s; ix_Searchable := ix_Searchable s;
                       ix_Filterable := Some attrs |}]> v);
}.

(** An index is as configured. *)
Definition key_ready (pk : string) (s : index_state) : Prop := ix_PrimaryKey s = "" \/ ix_PrimaryKey s = pk.
Definition ready_index (want : MeiliIndexSettings) (s : index_state) : Prop :=
  key_ready (mi_PrimaryKey want) s /\
  (mi_SearchableAttributes want <> [] -> ix_Searchable s = Some (mi_SearchableAttributes want)) /\
  (mi_FilterableAttributes want <> [] -> ix_Filterable s = Some (map AStr (mi_FilterableAttributes want))).
Definition ready (view : gmap string index_state) (p : string * MeiliIndexSettings) : Prop :=
  exists s, view !! p.1 = Some s /\ ready_index p.2 s.

Lemma same_names_spec cur want :
  length cur = length want -> same_names cur want = true <-> cur = map AStr want.
Proof.
  revert want. induction cur as [|a cur IH]; intros [|w want]; simpl; try done. intros [= Hl].
  destruct a; try done; rewrite andb_true_iff, bool_decide_eq_true, (IH want Hl); naive_solver.
Qed.

Lemma sameFilterable_spec cur want : sameFilterable cur want = true <-> cur = Some (map AStr want).
Proof.
  unfold sameFilterable. destruct cur as [cur|]; [|done]. destruct (decide _) as [Hl|Hl].
  - rewrite same_names_spec by done. naive_solver.
  - split; [done|]. intros [= ->]. by rewrite length_map in Hl.
Qed.

Section prepared.
Context {W : Type} `{!MeiliAdmin W} (view : W -> gmap string index_state) `{!MeiliAdminLaws W view}.

(** A change that was accepted and awaited without an error is in force. *)
Lemma awaited change next w uid w1 w2 :
  in_force view change next -> change w = (inl uid, w1) -> awaitTask uid w1 = (None, w2) ->
  next (view w) (view w2).
Proof.
  intros Hf Hc. unfold awaitTask, bind, ret. destruct (WaitForTask uid w1) as [[t|e] w'] eqn:Hw; [|done].
  destruct (decide _) as [Hs|]; [|done]. intros [= <-]. eauto.
Qed.

Lemma ensureIndex_prepares idx pk w w' :
  ensureIndex idx pk w = (None, w') ->
  (exists s, view w' !! idx = Some s /\ key_ready pk s) /\ (forall j, j <> idx -> view w' !! j = view w !! j).
Proof.
  unfold ensureIndex, bind, ret. pose proof (index_tells idx w) as Ht. pose proof (index_reads idx w) as Hr.
  destruct (GetIndexInfo idx w) as [[k|e] w1]; simpl in *.
  - destruct (decide _) as [|Hk]; [done|]. intros [= <-]. rewrite Hr. split; [|done].
    destruct Ht as (s & Hs & <-). exists s. split; [done|]. unfold key_ready.
    destruct (decide (ix_PrimaryKey s = "")); [by left | right].
    destruct (decide (ix_PrimaryKey s = pk)); [done|]. tauto.
  - destruct (decide _); [|done]. destruct (CreateIndex idx pk w1) as [[uid|e'] w2] eqn:Hc; [|done].
    intros Ha. destruct (awaited _ _ _ _ _ _ (create_takes idx pk) Hc Ha) as (s & Hs & ->). rewrite Hr.
    split; [|intros j Hj; by rewrite lookup_insert_ne].
    exists s. rewrite lookup_insert_eq. split; [done | by right].
Qed.

(** A settings change keeps the rest of the index and the other indexes. *)
Lemma apply_searchable_prepares idx want w w' s :
  view w !! idx = Some s -> apply_searchable idx want w = (None, w') ->
  (exists s', view w' !! idx = Some s' /\ ix_PrimaryKey s' = ix_PrimaryKey s /\
     (want <> [] -> ix_Searchable s' = Some want)) /\
  (forall j, j <> idx -> view w' !! j = view w !! j).
Proof.
  intros Hs. unfold apply_searchable, bind, ret. destruct want as [|a want0]; [by intros [= <-]; split; [exists s|]|].
  set (want := a :: want0) in *. pose proof (searchable_reads idx w) as Hr.
  pose proof (fun cur => searchable_tells idx w cur s) as Ht.
  destruct (GetSearchableAttributes idx w) as [[cur|e] w1]; [|done]. simpl in *.
  specialize (Ht cur eq_refl Hs). destruct (decide _) as [He|He].
  - intros [= <-]. rewrite Hr. split; [|done]. exists s. split_and!; [done..|]. intros _. congruence.
  - destruct (UpdateSearchableAttributes idx want w1) as [[uid|e] w2] eqn:Hc; [|done]. intros Ha.
    pose proof (awaited _ _ _ _ _ _ (searchable_takes idx want) Hc Ha s) as Hv. rewrite Hr in Hv.
    rewrite (Hv Hs). split; [|intros j Hj; by rewrite lookup_insert_ne].
    eexists. rewrite lookup_insert_eq. done.
Qed.

Lemma apply_filterable_prepares idx want w w' s :
  view w !! idx = Some s -> apply_filterable idx want w = (None, w') ->
  (exists s', view w' !! idx = Some s' /\ ix_PrimaryKey s' = ix_PrimaryKey s /\
     ix_Searchable s' = ix_Searchable s /\ (want <> [] -> ix_Filterable s' = Some (map AStr want))) /\
  (forall j, j <> idx -> view w' !! j = view w !! j).
Proof.
  intros Hs. unfold apply_filterable, bind, ret. destruct want as [|a want0]; [by intros [= <-]; split; [exists s|]|].
  set (want := a :: want0) in *. pose proof (filterable_reads idx w) as Hr.
  pose proof (fun cur => filterable_tells idx w cur s) as Ht.
  destruct (GetFilterableAttributes idx w) as [[cur|e] w1]; [|done]. cbn [fst snd] in *.
  specialize (Ht cur eq_refl Hs). destruct (sameFilterable cur want) eqn:He.
  - apply sameFilterable_spec in He. intros [= <-]. rewrite Hr. split; [|done]. exists s.
    split_and!; [done..|]. intros _. rewrite <- Ht. exact He.
  - destruct (UpdateFilterableAttributes idx (map AStr want) w1) as [[uid|e] w2] eqn:Hc; [|done]. intros Ha.
    pose proof (awaited _ _ _ _ _ _ (filterable_takes idx (map AStr want)) Hc Ha s) as Hv. rewrite Hr in Hv.
    rewrite (Hv Hs). split; [|intros j Hj; by rewrite lookup_insert_ne].
    eexists. rewrite lookup_insert_eq. done.
Qed.

(** Readiness of one index is a fact about that index only. *)
Lemma apply_index_prepares p w w' :
  apply_index p w = (None, w') ->
  ready (view w') p /\ (forall j, j <> p.1 -> view w' !! j = view w !! j).
Proof.
  unfold apply_index, guard, bind. intros H.
  destruct (ensureIndex p.1 (mi_PrimaryKey p.2) w) as [[e|] w1] eqn:H1; [done|].
  destruct (apply_searchable p.1 (mi_SearchableAttributes p.2) w1) as [[e|] w2] eqn:H2; [done|].
  destruct (ensureIndex_prepares _ _ _ _ H1) as [(s1 & Hs1 & Hk) F1].
  destruct (apply_searchable_prepares _ _ _ _ _ Hs1 H2) as [(s2 & Hs2 & Hk2 & Ha2) F2].
  destruct (apply_filterable_prepares _ _ _ _ _ Hs2 H) as [(s3 & Hs3 & Hk3 & Ha3 & Hf3) F3].
  split; [|intros j Hj; by rewrite F3, F2, F1]. exists s3. split; [done|].
  split_and!; [|intros Hne; by rewrite Ha3, Ha2 | exact Hf3]. unfold key_ready in *. by rewrite Hk3, Hk2.
Qed.

Lemma ready_frame v v' p : v' !! p.1 = v !! p.1 -> ready v p -> ready v' p.
Proof. intros Heq (s & Hs & Hr). exists s. by rewrite Heq. Qed.

Lemma settings_prepare l w w' :
  NoDup l.*1 -> for_each apply_index l w = (None, w') ->
  Forall (ready (view w')) l /\ (forall j, j ∉ l.*1 -> view w' !! j = view w !! j).
Proof.
  revert w. induction l as [|p l IH]; intros w Hnd; simpl; [by intros [= <-]|].
  inversion_clear Hnd as [|? ? Hp Hnd']. unfold guard, bind.
  destruct (apply_index p w) as [[e|] w1] eqn:H1; [done|]. intros H2.
  destruct (apply_index_prepares _ _ _ H1) as [R1 F1]. destruct (IH w1 Hnd' H2) as [R2 F2].
  split.
  - constructor; [|done]. eapply ready_frame; [|exact R1]. by apply F2.
  - intros j [Hj1 Hj2]%not_elem_of_cons.
    rewrite F2 by done. by apply F1.
Qed.
End prepared.

(** ** Observing what the sink changes *)
Inductive change := Created (idx pk : string) | SetSearchable (idx : string) | SetFilterable (idx : string).

Definition noting {W A} (c : change) (m : ST W A) : ST (list change * W) A :=
  fun '(log, w) => let '(a, w') := m w in (a, (log ++ [c], w')).

(** The same server, with every change asked of it in a log. *)
Definition noted_admin {W} `{!MeiliAdmin W} : MeiliAdmin (list change * W) :=
  {| Health := inner Health; GetIndexInfo := fun idx => inner (GetIndexInfo idx);
     CreateIndex := fun idx pk => noting (Created idx pk) (CreateIndex idx pk);
     GetSearchableAttributes := fun idx => inner (GetSearchableAttributes idx);
     UpdateSearchableAttributes := fun idx a => noting (SetSearchable idx) (UpdateSearchableAttributes idx a);
     GetFilterableAttributes := fun idx => inner (GetFilterableAttributes idx);
     UpdateFilterableAttributes := fun idx a => noting (SetFilterable idx) (UpdateFilterableAttributes idx a);
     WaitForTask := fun uid => inner (WaitForTask uid);
     APIStatus := APIStatus; CloseClient := inner CloseClient |}.

Section quiet.
Context {W : Type} `{!MeiliAdmin W} (view : W -> gmap string index_state) `{!MeiliAdminLaws W view}.

(** Nothing was asked of the server and its indexes are as they were. *)
Definition unchanged (w w' : list change * W) : Prop := w'.1 = w.1 /\ view w'.2 = view w.2.

#[export] Instance unchanged_trans : Transitive unchanged.
Proof. intros a b c [L1 V1] [L2 V2]. split; congruence. Qed.

Definition keeps {E} (m : ST (list change * W) (option E)) (w : list change * W) : Prop := unchanged w (m w).2.

Lemma keeps_guard {E} (m k : ST (list change * W) (option E)) w :
  keeps m w -> (forall w', unchanged w w' -> keeps k w') -> keeps (guard m k) w.
Proof.
  unfold keeps, guard, bind. intros Hm Hk. destruct (m w) as [[e|] w1]; [done|].
  etrans; [exact Hm | by apply Hk].
Qed.

Abbreviation apply_noted := (apply_index (MeiliAdmin0 := noted_admin)).

Lemma ensure_quiet idx pk log w s :
  view w !! idx = Some s -> key_ready pk s -> keeps (ensureIndex (MeiliAdmin0 := noted_admin) idx pk) (log, w).
Proof.
  intros Hs Hk. unfold keeps, ensureIndex, bind, ret. simpl.
  pose proof (index_tells idx w) as Ht. pose proof (index_reads idx w) as Hr.
  destruct (GetIndexInfo idx w) as [[k|e] w1]; simpl in *; [done|].
  destruct (decide _) as [H404|]; [|done]. rewrite (Ht H404) in Hs. discriminate.
Qed.

Lemma searchable_quiet idx want log w s :
  view w !! idx = Some s -> (want <> [] -> ix_Searchable s = Some want) ->
  keeps (apply_searchable (MeiliAdmin0 := noted_admin) idx want) (log, w).
Proof.
  intros Hs Ha. unfold keeps, apply_searchable, bind, ret. destruct want as [|a want]; [done|]. simpl.
  pose proof (fun cur => searchable_tells idx w cur s) as Ht. pose proof (searchable_reads idx w) as Hr.
  destruct (GetSearchableAttributes idx w) as [[cur|e] w1]; simpl in *; [|done].
  rewrite (Ht cur eq_refl Hs), (Ha ltac:(discriminate)), decide_True by done. done.
Qed.

Lemma filterable_quiet idx want log w s :
  view w !! idx = Some s -> (want <> [] -> ix_Filterable s = Some (map AStr want)) ->
  keeps (apply_filterable (MeiliAdmin0 := noted_admin) idx want) (log, w).
Proof.
  intros Hs Ha. unfold keeps, apply_filterable, bind, ret. destruct want as [|a want]; [done|]. cbn -[sameFilterable].
  pose proof (fun cur => filterable_tells idx w cur s) as Ht. pose proof (filterable_reads idx w) as Hr.
  destruct (GetFilterableAttributes idx w) as [[cur|e] w1]; cbn -[sameFilterable map] in *; [|done].
  rewrite (Ht cur eq_refl Hs), (Ha ltac:(discriminate)), (proj2 (sameFilterable_spec _ _) eq_refl). done.
Qed.

Lemma apply_index_quiet p log w : ready (view w) p -> keeps (apply_noted p) (log, w).
Proof.
  intros (s & Hs & Hk & Ha & Hf). unfold apply_index.
  apply keeps_guard; [|intros [l1 w1] [E1 V1]; simpl in *; apply keeps_guard; [|intros [l2 w2] [E2 V2]; simpl in *]].
  - by apply ensure_quiet with s.
  - apply searchable_quiet with s; [by rewrite V1 | done].
  - apply filterable_quiet with s; [by rewrite V2, V1 | done].
Qed.

Lemma settings_quiet l log w : Forall (ready (view w)) l -> keeps (for_each apply_noted l) (log, w).
Proof.
  revert log w. induction l as [|p l IH]; intros log w; simpl; [done|].
  inversion_clear 1 as [|? ? Hp Hl]. apply keeps_guard; [by apply apply_index_quiet|].
  intros [log' w'] [_ Hv]. simpl in *. apply IH. by rewrite Hv.
Qed.
End quiet.

(** C28: When the Meilisearch sink reports that it is initialized, every configured
    index exists with the configured primary key (or none yet) and with exactly the
    configured searchable and filterable attributes, and no other index was touched;
    and initializing again, on a server whose indexes are still so, asks for no change
    at all: a restart does not trigger a reindex. *)
Theorem meili_startup_is_idempotent {W} `{!MeiliAdmin W} (view : W -> gmap string index_state)
    `{!MeiliAdminLaws W view} range mapper w w' :
  (forall m, range m ≡ₚ map_to_list m) ->
  Meili_Initialize range mapper w = (None, w') ->
  exists settings, Mapper_IndexSettings mapper = inl settings /\
    (forall idx want, settings !! idx = Some want -> ready (view w') (idx, want)) /\
    (forall idx, settings !! idx = None -> view w' !! idx = view w !! idx) /\
    forall log w2, view w2 = view w' ->
      (Meili_Initialize (MeiliAdmin0 := noted_admin) range mapper (log, w2)).2.1 = log.
Proof.
  intros Hrange. unfold Meili_Initialize, applyIndexSettings. intros H. unfold guard, bind in H.
  pose proof (health_reads w) as Hh. destruct (Health w) as [[e|] w1]; [done|]. simpl in Hh.
  destruct (Mapper_IndexSettings mapper) as [settings|e] eqn:Hm; [|done]. exists settings. split; [done|].
  assert (Hnd : NoDup (range settings).*1) by (rewrite Hrange; apply NoDup_fst_map_to_list).
  destruct (settings_prepare view _ _ _ Hnd H) as [Hr Hf].
  split_and!.
  - intros idx want Hi. apply (proj1 (Forall_forall _ _) Hr). rewrite Hrange. by apply elem_of_map_to_list.
  - intros idx Hi. rewrite Hf, Hh; [done|]. rewrite Hrange. intros ([i want] & -> & Hin)%list_elem_of_fmap.
    apply elem_of_map_to_list in Hin. simpl in *. congruence.
  - intros log w2 Hv. rewrite <- Hv in Hr.
    refine (proj1 (keeps_guard view _ _ (log, w2) _ _)); simpl.
    + unfold keeps. simpl. pose proof (health_reads w2) as Hh2. by destruct (Health w2).
    + intros [l3 w3] [E3 V3]. simpl in *. subst l3. apply settings_quiet; [done|]. by rewrite V3.
Qed.

(** A server that applies every change at once. *)
Definition toy_update (f : index_state -> index_state) (idx : string) : ST (gmap string index_state) (res Z) :=
  fun v => match v !! idx with Some s => (inl 1%Z, <[idx := f s]> v) | None => (inr (EMsg "no such index"), v) end.
Definition toy_get {A} (f : index_state -> A) (idx : string) : ST (gmap string index_state) (res A) :=
  fun v => (match v !! idx with Some s => inl (f s) | None => inr (EMsg "index_not_found") end, v).

#[export] Instance toy_admin : MeiliAdmin (gmap string index_state) :=
  {| Health := ret None; GetIndexInfo := toy_get ix_PrimaryKey;
     CreateIndex := fun idx pk v =>
       (inl 1%Z, <[idx := {| ix_PrimaryKey := pk; ix_Searchable := Some ["*"]; ix_Filterable := Some [] |}]> v);
     GetSearchableAttributes := toy_get ix_Searchable;
     UpdateSearchableAttributes := fun idx a => toy_update (fun s =>
       {| ix_PrimaryKey := ix_PrimaryKey s; ix_Searchable := Some a; ix_Filterable := ix_Filterable s |}) idx;
     GetFilterableAttributes := toy_get ix_Filterable;
     UpdateFilterableAttributes := fun idx a => toy_update (fun s =>
       {| ix_PrimaryKey := ix_PrimaryKey s; ix_Searchable := ix_Searchable s; ix_Filterable := Some a |}) idx;
     WaitForTask := fun uid => ret (inl {| t_UID := uid; t_Status := TaskSucceeded; t_ErrorType := "";
                                            t_ErrorMessage := ""; t_ErrorCode := "" |});
     APIStatus := fun e => match e with EMsg t => if decide (t = "index_not_found") then Some 404%Z else None | _ => None end;
     CloseClient := ret tt |}.

#[export] Instance toy_admin_laws : MeiliAdminLaws (gmap string index_state) id.
Proof.
  constructor; try done.
  - intros idx w. unfold GetIndexInfo. simpl. unfold toy_get. simpl. destruct (w !! idx) eqn:Hw; simpl; eauto.
  - intros idx w cur s. unfold GetSearchableAttributes. simpl. unfold toy_get. simpl.
    intros H1 H2. unfold id in H2. rewrite H2 in H1. simpl in H1. congruence.
  - intros idx w cur s. unfold GetFilterableAttributes. simpl. unfold toy_get. simpl.
    intros H1 H2. unfold id in H2. rewrite H2 in H1. simpl in H1. congruence.
  - intros idx pk w uid w1 t w2 [= <- <-] [= _ <-] _. cbv beta. unfold id. eexists. split; [|reflexivity]; reflexivity.
  - intros idx attrs w uid w1 t w2. simpl. unfold toy_update, id. intros H [= _ <-] _ s Hs. rewrite Hs in H.
    by simplify_eq.
  - intros idx attrs w uid w1 t w2. simpl. unfold toy_update, id. intros H [= _ <-] _ s Hs. rewrite Hs in H.
    by simplify_eq.
Qed.

Definition toy_mapper : TableMapper :=
  NewTableMapper (config_resolver {[ "public.users" :=
    {| mt_Index := "users"; mt_PrimaryKey := "uid"; mt_SearchableAttributes := ["name"];
       mt_FilterableAttributes := ["team"];
       mt_TransformSpec := {| spec_Filter := ""; spec_DropColumns := []; spec_Mask := ∅ |} |} ]}).

(** The index is created, configured, and left alone the second time. *)
Lemma meili_startup_is_idempotent_witness :
  exists v, Meili_Initialize map_to_list toy_mapper (∅ : gmap string index_state) = (None, v) /\
    v !! "users" = Some {| ix_PrimaryKey := "uid"; ix_Searchable := Some ["name"];
                           ix_Filterable := Some [AStr "team"] |} /\
    (Meili_Initialize (MeiliAdmin0 := noted_admin) map_to_list toy_mapper ([], v)).2.1 = [].
Proof.
  set (run := Meili_Initialize map_to_list toy_mapper (∅ : gmap string index_state)).
  assert (Hr : run.1 = None) by (vm_compute; reflexivity).
  assert (Hrun : run = (None, run.2)) by (rewrite <- Hr; apply surjective_pairing).
  assert (Hu : run.2 !! "users" = Some {| ix_PrimaryKey := "uid"; ix_Searchable := Some ["name"];
                                          ix_Filterable := Some [AStr "team"] |}) by (vm_compute; reflexivity).
  destruct (meili_startup_is_idempotent id map_to_list toy_mapper _ run.2 (fun m => reflexivity _) Hrun)
    as (settings & _ & _ & _ & Hquiet).
  exists run.2. split; [exact Hrun|]. split; [exact Hu | by apply Hquiet].
Defined.
