(* ===== verification/Sinks.v ===== *)
(** * Constructing, starting and stopping the destinations
      (src/internal/adapters/secondary: redis/base.go and sink.go, redisjson/sink.go,
      webhook/sink.go, nats/sink.go, outbox/sink.go)

    The constructors put the [Process] functions of [RedisSinks] and [Publish] behind
    the [Sink] interface with their names, routers, health checks and life cycles.
    Clients of Redis, NATS and PostgreSQL are interfaces.  Two theorems: a router
    only turns away events its sink would do nothing with, so routing is transparent;
    and a failed start closes what it opened. *)

From Stdlib Require Import ZArith Lia Ascii String.
From stdpp Require Import base list gmap strings pretty.
From S2P Require Import Prelude Domain Transform Keys RedisSinks Publish Resilience Config Meili MeiliSetup.

Open Scope go_scope.
Set Warnings "-clear-no-such-hyp".

(** ** Redis: the base of the keyed sinks *)
Record RedisClient (W : Type) := {
  rc_Ping : ST W (option error);
  rc_Exec : list command -> ST W (option error);
  rc_Close : ST W (option error);
}.
Arguments rc_Ping {W}. Arguments rc_Exec {W}. Arguments rc_Close {W}.

Section redis.
Context {Template W Options : Type} (Parse : string -> res Template).
Context (Render : Template -> KeyTemplateContext -> res string).
Context (Marshal : any -> res string) (time_any : Z -> any).
Context (ParseURL : string -> res Options) (NewClient : Options -> RedisClient W).
Abbreviation resolver := (KeyResolver (Template := Template)).

Record BaseSink := { bs_Client : RedisClient W; bs_Prefix : string; bs_KeyResolver : resolver; bs_name : string }.

Definition NewBaseSink (name url prefix : string) (kr : resolver) : res BaseSink :=
  match ParseURL url with
  | inr e => inr (EWrap "invalid redis URL: " e "")
  | inl opts => inl {| bs_Client := NewClient opts; bs_Prefix := prefix; bs_KeyResolver := kr; bs_name := name |}
  end.

Definition Base_Initialize (s : BaseSink) : ST W (option error) := rc_Ping (bs_Client s).
Definition Base_Shutdown (s : BaseSink) : ST W (option error) := rc_Close (bs_Client s).
Definition Base_HealthCheck (s : BaseSink) : ST W (option error) := rc_Ping (bs_Client s).
Definition Base_Wants (s : BaseSink) (schema table : string) (_ : Operation) : bool :=
  Resolver_ShouldProcess (bs_KeyResolver s) schema table.

(** A keyed sink: the base with its own [Process]; the resolver's cache is the part of
    its state that changes. *)
Definition base_sink (s : BaseSink) (process : list CDCEvent -> ST (resolver * W) (option error))
    : Sink (resolver * W) :=
  {| Name := bs_name s; Initialize := inner (Base_Initialize s); Process := fun _ events => process events;
     Shutdown := inner (Base_Shutdown s); HealthCheck := inner (Base_HealthCheck s);
     batch_limiter := None; router := Some (Base_Wants s) |}.

Definition NewStreamSink (cfg : RedisConfig) (kr : resolver) : res (Sink (resolver * W)) :=
  match NewBaseSink "redis-stream" (rd_URL cfg) (rd_StreamPrefix cfg) kr with
  | inr e => inr e
  | inl base => inl (base_sink base (Stream_Process Parse Render Marshal time_any (rc_Exec (bs_Client base))
                                       (rd_MaxStreamLen cfg)))
  end.

Definition NewJSONSink (cfg : RedisJSONConfig) (kr : resolver) : res (Sink (resolver * W)) :=
  match NewBaseSink "redis-json" (rj_URL cfg) (rj_Prefix cfg) kr with
  | inr e => inr e
  | inl base => inl (base_sink base (JSON_Process Parse Render Marshal (rc_Exec (bs_Client base))))
  end.
End redis.

(** ** Webhook *)
Section webhook_sink.
Context {W : Type} `{!World W} (Marshal : any -> res string) (time_any : Z -> any).
Context (hmac256hex : string -> string -> string) (TrimSpace : string -> string).
Context (request_err : option error) (Do : Ctx -> request -> ST W (res response)).
Context (CloseIdleConnections : ST W unit).

Definition Webhook_Wants (filter : option (string -> string -> bool)) (schema table : string) (_ : Operation) : bool :=
  match filter with None => true | Some f => f schema table end.

Definition NewWebhookSink (cfg : WebhookConfig) (filter : option (string -> string -> bool)) : Sink W :=
  {| Name := "webhook"; Initialize := ret None;
     Process := Webhook_Process Marshal time_any hmac256hex TrimSpace filter (wh_AuthHeader cfg)
                  (wh_SigningSecret cfg) request_err Do;
     Shutdown := seq! CloseIdleConnections in ret None; HealthCheck := ret None;
     batch_limiter := Some Webhook_MaxBatchEvents; router := Some (Webhook_Wants filter) |}.
End webhook_sink.

(** ** NATS *)
Inductive nats_option :=
  | OptName (s : string) | OptTimeout (d : Z) | OptMaxReconnects (n : Z)
  | OptUserCredentials (s : string) | OptToken (s : string).
Record StreamConfig := { sg_Name : string; sg_Subjects : list string; sg_FileStorage : bool; sg_Duplicates : Z }.

Record NatsClient (W Conn JS : Type) := {
  nc_Connect : string -> list nats_option -> ST W (res Conn);
  nc_JetStream : Conn -> Z -> ST W (res JS);
  nc_CreateOrUpdateStream : JS -> Ctx -> StreamConfig -> ST W (option error);
  nc_NameInUse : error -> bool; (* errors.Is(err, jetstream.ErrStreamNameAlreadyInUse) *)
  nc_FlushTimeout : Conn -> Z -> ST W (option error);
  nc_IsConnected : Conn -> W -> bool;
  nc_Close : Conn -> ST W unit;
}.
Arguments nc_Connect {W Conn JS}. Arguments nc_JetStream {W Conn JS}.
Arguments nc_CreateOrUpdateStream {W Conn JS}. Arguments nc_NameInUse {W Conn JS}.
Arguments nc_FlushTimeout {W Conn JS}. Arguments nc_IsConnected {W Conn JS}. Arguments nc_Close {W Conn JS}.

(** [strings.Contains] *)
Definition contains (sub s : string) : bool := isSome (String.index 0 sub s).

(** The sink's fields that its start sets. *)
Record NatsState (Conn JS : Type) := { nt_conn : option Conn; nt_js : option JS }.
Arguments nt_conn {Conn JS}. Arguments nt_js {Conn JS}.

Section nats_sink.
Context {W Conn JS : Type} `{!World W} (client : NatsClient W Conn JS) (cfg : NATSConfig).
Abbreviation NW := (NatsState Conn JS * W)%type.

Definition nats_options : list nats_option :=
  [OptName "gtc"; OptTimeout (na_Timeout cfg); OptMaxReconnects (-1)] ++
  (if decide (na_Credentials cfg = "") then [] else [OptUserCredentials (na_Credentials cfg)]) ++
  (if decide (na_Token cfg = "") then [] else [OptToken (na_Token cfg)]).

(** The subjects the stream captures. *)
Definition stream_subject : string := (SanitizeSubject (na_SubjectPrefix cfg) +:+ ".>")%string.
Definition stream_config : StreamConfig :=
  {| sg_Name := na_Stream cfg; sg_Subjects := [stream_subject]; sg_FileStorage := true;
     sg_Duplicates := 2 * 60 * 1000000000 |}.

Definition ensureStream (c0 : Ctx) (js : JS) : ST W (option error) :=
  if negb (na_AutoCreateStream cfg) then ret None
  else
    let! w := get in
    let! err := nc_CreateOrUpdateStream client js (WithTimeout c0 w (na_Timeout cfg)) stream_config in
    ret match err with
        | None => None
        | Some e => if nc_NameInUse client e || contains "overlap" (Error e) then None
                    else Some (EWrap ("ensure jetstream stream " +:+ quoted (na_Stream cfg) +:+ ": ")%string e "")
        end.

Definition set_conn (conn : Conn) (s : NatsState Conn JS) : NatsState Conn JS :=
  {| nt_conn := Some conn; nt_js := nt_js s |}.
Definition set_js (js : JS) (s : NatsState Conn JS) : NatsState Conn JS :=
  {| nt_conn := nt_conn s; nt_js := Some js |}.

Definition Nats_Initialize (c : Ctx) : ST NW (option error) :=
  let! r := inner (nc_Connect client (na_URL cfg) nats_options) in
  match r with
  | inr e => ret (Some (EWrap "connect to NATS: " e ""))
  | inl conn =>
      seq! own (modify (set_conn conn)) in
      if negb (na_JetStream cfg) then ret None
      else
        let! j := inner (nc_JetStream client conn (2 * Z.of_nat publishWindow_size)) in
        match j with
        | inr e => seq! inner (nc_Close client conn) in ret (Some (EWrap "initialize JetStream: " e ""))
        | inl js =>
            seq! own (modify (set_js js)) in
            let! err := inner (ensureStream c js) in
            match err with
            | Some e => seq! inner (nc_Close client conn) in ret (Some e)
            | None => ret None
            end
        end
  end.

Definition Nats_Shutdown : ST NW (option error) :=
  let! s := get in
  match nt_conn s.1 with
  | None => ret None
  | Some conn =>
      let! _ := inner (nc_FlushTimeout client conn (na_Timeout cfg)) in (* a failed flush is only logged *)
      seq! inner (nc_Close client conn) in ret None
  end.

Definition Nats_HealthCheck : ST NW (option error) :=
  let! s := get in
  ret match nt_conn s.1 with
      | Some conn => if nc_IsConnected client conn s.2 then None else Some (EMsg "not connected to NATS")
      | None => Some (EMsg "not connected to NATS")
      end.
End nats_sink.

Section nats_packed.
Context {Template W Conn JS F : Type} `{!World W} (Parse : string -> res Template).
Context (Render : Template -> KeyTemplateContext -> res string).
Context (Marshal : any -> res string) (time_any : Z -> any).
Context (client : NatsClient W Conn JS) (cfg : NATSConfig).
(** The open connection's publishing calls. *)
Context (PublishMsg : Msg -> ST W (option error)) (Flush : Ctx -> ST W (option error)).
Context (PublishMsgAsync : Msg -> string -> ST W (res F)) (AwaitAck : Ctx -> F -> ST W ack_result).
Abbreviation NW := (NatsState Conn JS * W)%type.
Abbreviation maybe_resolver := (option (KeyResolver (Template := Template))).

(** [Process] publishes through JetStream when the start set it up. *)
Definition NewNATSSink (kr : maybe_resolver) : Sink (maybe_resolver * NW) :=
  {| Name := "nats";
     Initialize := inner (Nats_Initialize client cfg Background);
     Process := fun c events => let! s := get in
       Nats_Process Parse Render Marshal time_any (na_SubjectPrefix cfg) (na_Timeout cfg) (isSome (nt_js s.2.1))
         (fun m => inner (PublishMsg m)) (fun c => inner (Flush c)) (fun m id => inner (PublishMsgAsync m id))
         (fun c f => inner (AwaitAck c f)) c events;
     Shutdown := inner (Nats_Shutdown client cfg); HealthCheck := inner (Nats_HealthCheck client);
     batch_limiter := None; router := Some (Nats_Wants kr) |}.
End nats_packed.

(** ** Outbox *)
Record PgClient (W P : Type) := {
  pc_New : string -> ST W (res P);
  pc_IDType : P -> string -> string -> ST W (res string); (* the type of a column, by format_type *)
  pc_Exec : P -> string -> list string -> ST W (option error);
  pc_Close : P -> ST W unit;
}.
Arguments pc_New {W P}. Arguments pc_IDType {W P}. Arguments pc_Exec {W P}. Arguments pc_Close {W P}.

Record OutboxState (P : Type) := { os_pool : option P; os_deleteSQL : string }.
Arguments os_pool {P}. Arguments os_deleteSQL {P}.

Section outbox_sink.
Context {W P Options : Type} (Marshal : any -> res string).
Context (ParseURL : string -> res Options) (NewClient : Options -> RedisClient W).
Context (pg : PgClient W P) (Sanitize : list string -> string) (cfg : Outbox) (DatabaseURL : string).
Abbreviation OW := (OutboxState P * W)%type.

Definition delete_sql (idType : string) : string :=
  ("DELETE FROM " +:+ Sanitize [ox_Schema cfg; ox_Table cfg] +:+ " WHERE " +:+ Sanitize [oc_ID (ox_Columns cfg)]
     +:+ " = ANY($1::text[]::" +:+ idType +:+ "[])")%string.

Definition Outbox_Initialize (client : RedisClient W) : ST OW (option error) :=
  let! e := inner (rc_Ping client) in
  match e with
  | Some e => ret (Some (EWrap "outbox: redis ping failed: " e ""))
  | None =>
      if negb (ox_DeleteAfterPublish cfg) then ret None
      else
        let! p := inner (pc_New pg DatabaseURL) in
        match p with
        | inr e => ret (Some (EWrap "outbox: connect for delete-after-publish: " e ""))
        | inl pool =>
            seq! own (modify (fun s => {| os_pool := Some pool; os_deleteSQL := os_deleteSQL s |})) in
            let! t := inner (pc_IDType pg pool (Sanitize [ox_Schema cfg; ox_Table cfg]) (oc_ID (ox_Columns cfg))) in
            match t with
            | inr e =>
                seq! inner (pc_Close pg pool) in
                ret (Some (EWrap ("outbox: resolve type of id column " +:+ quoted (oc_ID (ox_Columns cfg)) +:+ ": ")%string e ""))
            | inl idType =>
                seq! own (modify (fun s => {| os_pool := os_pool s; os_deleteSQL := delete_sql idType |})) in
                ret None
            end
        end
  end.

(** The delete of [deleteRows], on the pool the start opened; it is reached only when
    rows are deleted after publishing, and a start that succeeded has then set it. *)
Definition Outbox_Delete (keys : list string) : ST OW (option error) :=
  let! s := get in
  match os_pool s.1 with
  | Some pool => inner (pc_Exec pg pool (os_deleteSQL s.1) keys)
  | None => ret None
  end.

Definition Outbox_Shutdown (client : RedisClient W) : ST OW (option error) :=
  let! s := get in
  seq! match os_pool s.1 with Some pool => inner (pc_Close pg pool) | None => ret tt end in
  inner (rc_Close client).

Definition NewOutboxSink (RedisURL : string) : res (Sink OW) :=
  if decide (RedisURL = "") then inr (EMsg "outbox sink requires REDIS_URL to be set")
  else match ParseURL RedisURL with
  | inr e => inr (EWrap "outbox: invalid redis URL: " e "")
  | inl opts =>
      let client := NewClient opts in
      inl {| Name := "outbox"; Initialize := Outbox_Initialize client;
             Process := fun _ events => Outbox_Process cfg Marshal (fun cmds => inner (rc_Exec client cmds)) Outbox_Delete events;
             Shutdown := Outbox_Shutdown client; HealthCheck := inner (rc_Ping client);
             batch_limiter := None; router := Some (Outbox_Wants cfg) |}
  end.
End outbox_sink.

(** The Meilisearch sink's router. *)
Definition Meili_Wants (mapper : TableMapper) (schema table : string) (_ : Operation) : bool :=
  isSome (Mapper_GetIndex mapper schema table).

(** The Meilisearch sink as constructed: its state is the batch whose wait was
    interrupted.  [patience] is how many polls the model follows a wait for; a call that
    panicked or is still waiting has accepted nothing. *)
Section meili_packed.
Context {W : Type} `{!World W, !MeiliAdmin W}.
Context (range : gmap string MeiliIndexSettings -> list (string * MeiliIndexSettings)).
Context (Enqueue : Ctx -> string -> Meili.run -> ST W (res Z)).
Context (GetTasks : Ctx -> list Z -> ST W (res (list Task))).
Context (StatusCode : error -> option Z) (wait : Ctx -> Z -> ST W bool) (patience : nat).

Definition settled (out : waited) : option error :=
  match out with
  | Returned err => err
  | Panicked => Some (EMsg "panic: nil task")
  | Waiting => Some (EMsg "still waiting")
  end.

Definition NewMeiliSink (tables : meili_tables) : Sink (option inflight * W) :=
  let mapper := NewTableMapper (config_resolver tables) in
  {| Name := "meilisearch";
     Initialize := inner (Meili_Initialize range mapper);
     Process := fun c events => let! out := Meili_Process tables Enqueue GetTasks StatusCode wait patience c events in
                                ret (settled out);
     Shutdown := inner Meili_Shutdown; HealthCheck := inner Meili_HealthCheck;
     batch_limiter := None; router := Some (Meili_Wants mapper) |}.
End meili_packed.

(** ** Routers are honest

    [Wants] decides which tables a backfill skips, so a sink must do nothing with an
    event it does not want.  [ok] is what the sink's own state keeps. *)
Definition sink_wants {W} (s : Sink W) (e : CDCEvent) : Prop := Wants s (Schema e) (Table e) (Op e) = true.
#[export] Instance wanted_dec {W} (s : Sink W) e : Decision (sink_wants s e).
Proof. unfold sink_wants. apply _. Defined.

Class HonestRouter {W} (ok : W -> Prop) (s : Sink W) : Prop := {
  honest c events w : ok w -> Process s c events w = Process s c (filter (sink_wants s) events) w;
  idle c w : ok w -> Process s c [] w = (None, w);
}.

Section resolver_filter.
Context {Template : Type} (Parse : string -> res Template).
Context (Render : Template -> KeyTemplateContext -> res string).
Abbreviation resolver := (KeyResolver (Template := Template)).

(** Generating keys only fills the cache. *)
Definition same_filter (kr kr' : resolver) : Prop := kr_filter kr' = kr_filter kr.

Lemma GenerateKey_filter e kr : same_filter kr (GenerateKey Parse Render e kr).2.
Proof.
  unfold same_filter, GenerateKey, bind, get, ret, cachedTemplate.
  repeat case_match; simplify_eq; done.
Qed.
End resolver_filter.

Lemma filter_cons_if {A} (P : A -> Prop) `{forall x, Decision (P x)} x l :
  filter P (x :: l) = if decide (P x) then x :: filter P l else filter P l.
Proof. apply filter_cons. Qed.

Section honest_keyed.
Context {Template W Options : Type} (Parse : string -> res Template).
Context (Render : Template -> KeyTemplateContext -> res string).
Context (Marshal : any -> res string) (time_any : Z -> any).
Abbreviation resolver := (KeyResolver (Template := Template)).

(** A command that is none for a table the resolver filters out, and that keeps the
    resolver's filter. *)
Definition routed (cmd : CDCEvent -> ST resolver (res (option command))) : Prop :=
  forall e kr,
    (Resolver_ShouldProcess kr (Schema e) (Table e) = false -> cmd e kr = (inl None, kr)) /\
    same_filter kr (cmd e kr).2.

Lemma Base_GenerateKey_filter e kr : same_filter kr (Base_GenerateKey Parse Render e kr).2.
Proof.
  pose proof (GenerateKey_filter Parse Render e kr) as H. unfold Base_GenerateKey, bind, ret.
  by destruct (GenerateKey Parse Render e kr) as [[k|err] kr'].
Qed.

Lemma stream_routed maxLen : routed (stream_command Parse Render Marshal time_any maxLen).
Proof.
  intros e kr. unfold stream_command, bind, get, ret.
  pose proof (Base_GenerateKey_filter e kr) as H.
  destruct (Resolver_ShouldProcess kr _ _); simpl; [|done]. split; [done|].
  by destruct (Base_GenerateKey Parse Render e kr) as [[k|err] kr'].
Qed.

Lemma json_routed : routed (json_command Parse Render Marshal).
Proof.
  intros e kr. unfold json_command, bind, get, ret.
  pose proof (Base_GenerateKey_filter e kr) as H.
  destruct (Resolver_ShouldProcess kr _ _); simpl; [|done]. split; [done|].
  destruct (Op e), (NewData e); simpl; try done;
    by destruct (Base_GenerateKey Parse Render e kr) as [[k|err] kr'].
Qed.

Lemma queue_loop_routed cmd (kr0 : resolver) (P : CDCEvent -> Prop) `{forall e, Decision (P e)} events kr :
  routed cmd -> (forall e, P e <-> Resolver_ShouldProcess kr0 (Schema e) (Table e) = true) ->
  same_filter kr0 kr -> queue_loop cmd events kr = queue_loop cmd (filter P events) kr.
Proof.
  intros Hc HP. revert kr. induction events as [|e events IH]; intros kr Hf; [done|].
  rewrite filter_cons_if. destruct (Hc e kr) as [Hskip Hkeep]. destruct (decide (P e)) as [Hp|Hp]; simpl.
  - unfold bind. destruct (cmd e kr) as [[c|err] kr']; [|done]. rewrite IH; [done|].
    unfold same_filter in *. simpl in Hkeep. congruence.
  - unfold bind. rewrite Hskip.
    + rewrite IH by done. unfold ret. by destruct (queue_loop cmd (filter P events) kr) as [[cs|err] kr'].
    + rewrite HP in Hp. unfold Resolver_ShouldProcess in *. unfold same_filter in Hf. rewrite Hf.
      by apply not_true_iff_false.
Qed.

Lemma base_sink_honest (base : BaseSink (Template := Template) (W := W)) cmd before after :
  routed cmd ->
  HonestRouter (fun rw => same_filter (bs_KeyResolver base) rw.1)
    (base_sink base (pipeline_process (rc_Exec (bs_Client base)) cmd before after)).
Proof.
  intros Hc. split; [|by intros c [kr w] _]. intros c events [kr w] Hf. set (s := base_sink _ _).
  assert (Hl : queue_loop cmd events kr = queue_loop cmd (filter (sink_wants s) events) kr)
    by (by apply queue_loop_routed with (bs_KeyResolver base)).
  simpl. unfold pipeline_process, own, bind. by rewrite Hl.
Qed.
End honest_keyed.

(** Webhook: the loop skips the filtered tables. *)
Lemma webhook_honest {W} `{!World W} Marshal time_any hmac TrimSpace request_err Do Close cfg filter :
  HonestRouter (fun _ : W => True)
    (NewWebhookSink Marshal time_any hmac TrimSpace request_err Do Close cfg filter).
Proof.
  split; [|done]. intros c events w _. simpl. revert w. induction events as [|e events IH]; intros w; [done|].
  rewrite filter_cons_if. destruct (decide _) as [Hw|Hw]; unfold sink_wants, Wants in Hw; simpl in Hw.
  - simpl. unfold webhook_wanted. unfold Webhook_Wants in Hw. rewrite Hw. simpl.
    unfold guard, bind. destruct (Webhook_deliver _ _ _ _ _ _ _ _ _ _ _) as [[err|] w']; [done | apply IH].
  - rewrite <- IH. simpl. unfold webhook_wanted. unfold Webhook_Wants in Hw.
    by apply not_true_iff_false in Hw as ->.
Qed.

(** Outbox: only inserts into its table are messages. *)
Lemma outbox_loop_routed cfg Marshal (P : CDCEvent -> Prop) `{forall e, Decision (P e)} events :
  (forall e, P e <-> is_message cfg e = true) -> outbox_loop cfg Marshal events = outbox_loop cfg Marshal (filter P events).
Proof.
  intros HP. induction events as [|e events IH]; [done|]. rewrite filter_cons_if.
  destruct (decide (P e)) as [Hp|Hp]; simpl; rewrite HP in Hp.
  - rewrite Hp, IH. done.
  - apply not_true_iff_false in Hp as ->. exact IH.
Qed.

Lemma outbox_honest {W P Options} Marshal ParseURL NewClient pg Sanitize cfg db url (s : Sink (OutboxState P * W)) :
  NewOutboxSink (Options := Options) Marshal ParseURL NewClient pg Sanitize cfg db url = inl s ->
  HonestRouter (fun _ => True) s.
Proof.
  unfold NewOutboxSink. repeat case_match; try discriminate. intros [= <-]. split; [|done]. intros c events w _.
  match goal with |- Process ?x _ _ _ = _ => set (s := x) end.
  assert (Hl : outbox_loop cfg Marshal events = outbox_loop cfg Marshal (filter (sink_wants s) events))
    by (by apply outbox_loop_routed).
  simpl. unfold Outbox_Process. by rewrite Hl.
Qed.

(** NATS: the message loop skips the filtered tables. *)
Section honest_nats.
Context {Template W Conn JS F : Type} `{!World W} (Parse : string -> res Template).
Context (Render : Template -> KeyTemplateContext -> res string).
Context (Marshal : any -> res string) (time_any : Z -> any) (prefix : string).
Abbreviation maybe_resolver := (option (KeyResolver (Template := Template))).

Definition same_route (kr kr' : maybe_resolver) : Prop :=
  forall schema table op, Nats_Wants kr' schema table op = Nats_Wants kr schema table op.

Lemma message_route e kr : same_route kr (message Parse Render Marshal time_any prefix e kr).2.
Proof.
  unfold message, nats_subject, on_resolver, bind, ret. destruct kr as [r|]; simpl; [|by repeat case_match].
  pose proof (GenerateKey_filter Parse Render e r) as H.
  destruct (GenerateKey Parse Render e r) as [[k|err] r']; simpl in *; repeat case_match; simplify_eq;
    intros schema table op; simpl; unfold Resolver_ShouldProcess; by rewrite H.
Qed.

Lemma message_loop_routed kr0 (P : CDCEvent -> Prop) `{forall e, Decision (P e)} events kr :
  (forall e, P e <-> Nats_Wants kr0 (Schema e) (Table e) (Op e) = true) -> same_route kr0 kr ->
  message_loop Parse Render Marshal time_any prefix events kr =
  message_loop Parse Render Marshal time_any prefix (filter P events) kr.
Proof.
  intros HP. revert kr. induction events as [|e events IH]; intros kr Hr; [done|].
  rewrite filter_cons_if. specialize (Hr (Schema e) (Table e) (Op e)) as He.
  assert (Hskip : match kr with Some r => negb (Resolver_ShouldProcess r (Schema e) (Table e)) | None => false end
                  = negb (Nats_Wants kr0 (Schema e) (Table e) (Op e))) by (rewrite <- He; by destruct kr).
  destruct (decide (P e)) as [Hp|Hp]; rewrite HP in Hp; simpl; unfold bind, get.
  - rewrite Hskip, Hp. simpl. pose proof (message_route e kr) as Hm.
    destruct (message Parse Render Marshal time_any prefix e kr) as [[m|err] kr']; [|done].
    rewrite IH; [done|]. intros schema table op. simpl in Hm. by rewrite Hm, Hr.
  - apply not_true_iff_false in Hp. rewrite Hskip, Hp. simpl. by apply IH.
Qed.
End honest_nats.

Lemma nats_honest {Template W Conn JS F} `{!World W} Parse Render Marshal time_any (client : NatsClient W Conn JS) cfg
    PublishMsg Flush PublishMsgAsync AwaitAck (kr : option (KeyResolver (Template := Template))) :
  HonestRouter (fun rw => same_route kr rw.1)
    (NewNATSSink (F := F) Parse Render Marshal time_any client cfg PublishMsg Flush PublishMsgAsync AwaitAck kr).
Proof.
  split; [|by intros c [kr' w] _]. intros c events [kr' w] Hr. set (s := NewNATSSink _ _ _ _ _ _ _ _ _ _ _).
  assert (Hl : message_loop Parse Render Marshal time_any (na_SubjectPrefix cfg) events kr' =
               message_loop Parse Render Marshal time_any (na_SubjectPrefix cfg) (filter (sink_wants s) events) kr')
    by (by apply message_loop_routed with kr).
  simpl. unfold Nats_Process, own, bind, get. by rewrite Hl.
Qed.

(** The excluding decorator keeps its sink's router honest. *)
Lemma exclude_honest {W} (ok : W -> Prop) (s : Sink W) schema table :
  HonestRouter ok s -> HonestRouter ok (ExcludeTable schema table s).
Proof.
  intros Hs. split; [|done]. intros c events w Hok. simpl. unfold Exclude_Process. rewrite !exclude_filter.
  set (kept := filter (fun e => excluded schema table e = false) events).
  assert (Hf : filter (fun e => excluded schema table e = false) (filter (sink_wants (ExcludeTable schema table s)) events)
               = filter (sink_wants s) kept).
  { unfold kept. rewrite !list_filter_filter. apply list_filter_iff. intros e. unfold sink_wants at 1, Wants at 1. simpl.
    unfold excluded. destruct (decide (Schema e = schema /\ Table e = table)) as [[-> ->]|Hn].
    - rewrite !bool_decide_eq_true_2 by done. simpl. naive_solver.
    - unfold sink_wants. naive_solver. }
  rewrite Hf. destruct (decide (kept = [])) as [->|Hne]; [done|].
  transitivity (Process s c kept w); [by destruct kept|].
  rewrite (honest c kept w Hok). destruct (filter (sink_wants s) kept) eqn:He; [by apply idle | done].
Qed.

(** Meilisearch: the plan passes over the tables without an index. *)
Lemma plan_loop_routed cfg (P : CDCEvent -> Prop) `{forall e, Decision (P e)} events p :
  (forall e, P e <-> isSome (GetIndex cfg (Schema e) (Table e)) = true) ->
  plan_loop cfg events p = plan_loop cfg (filter P events) p.
Proof.
  intros HP. revert p. induction events as [|e events IH]; intros p; [done|]. rewrite filter_cons_if.
  destruct (decide (P e)) as [Hp|Hp]; simpl.
  - destruct (plan_event cfg p e); [apply IH | done].
  - rewrite HP in Hp. unfold plan_event. destruct (GetIndex cfg _ _); [by destruct Hp | apply IH].
Qed.

(** The batch a wait is remembered under is its own, so a batch and its wanted events
    are the same call as long as neither resumes an interrupted one. *)
Lemma await_batch_key {W} `{!World W} GetTasks wait fuel c key key' tasks p p' (w : W) :
  let out := await_batch GetTasks wait fuel c key tasks (p, w) in
  let out' := await_batch GetTasks wait fuel c key' tasks (p', w) in
  out.1 = out'.1 /\ out.2.2 = out'.2.2.
Proof.
  cbn zeta. unfold await_batch. run_st. by destruct (awaitTasks GetTasks wait fuel c tasks w) as [out w1].
Qed.

Lemma meili_routed {W} `{!World W} cfg Enqueue GetTasks StatusCode wait fuel c (P : CDCEvent -> Prop)
    `{forall e, Decision (P e)} events pending (w : W) :
  (forall e, P e <-> isSome (GetIndex cfg (Schema e) (Table e)) = true) ->
  resumable (batchKey events) pending = None -> resumable (batchKey (filter P events)) pending = None ->
  let process l := Meili_Process cfg Enqueue GetTasks StatusCode wait fuel c l (pending, w) in
  (process events).1 = (process (filter P events)).1 /\ (process events).2.2 = (process (filter P events)).2.2.
Proof.
  intros HP Hr Hr'. cbn zeta. pose proof (plan_loop_routed cfg P events {| p_order := []; p_runs := ∅ |} HP) as Hplan.
  destruct events as [|e0 es]; [done|]. set (events := e0 :: es) in *.
  assert (Hstep : forall l, l <> [] -> resumable (batchKey l) pending = None ->
    Meili_Process cfg Enqueue GetTasks StatusCode wait fuel c l (pending, w) =
    match plan cfg l with
    | inr e => (Returned (Some e), (pending, w))
    | inl p => match p_order p with
               | [] => (Returned None, (pending, w))
               | _ => match enqueue_tasks Enqueue StatusCode c (plan_tasks p) w with
                      | (inr e, w1) => (Returned (Some e), (pending, w1))
                      | (inl tasks, w1) => await_batch GetTasks wait fuel c (batchKey l) tasks
                                             (remember (batchKey l) tasks pending, w1)
                      end
               end
    end).
  { intros [|x l] Hne Hl; [done|]. unfold Meili_Process. unfold bind at 1, get. cbn [fst]. rewrite Hl.
    destruct (plan cfg (x :: l)) as [p|]; [|done]. destruct (p_order p); [done|].
    unfold bind at 1, inner. destruct (enqueue_tasks _ _ _ _ w) as [[tasks|e] w1]; [|done]. reflexivity. }
  rewrite (Hstep events) by done. unfold plan in *.
  destruct (decide (filter P events = [])) as [Hf|Hf].
  - rewrite Hplan, Hf. done.
  - rewrite (Hstep (filter P events)) by done. rewrite <- Hplan.
    destruct (plan_loop cfg events _) as [p|]; [|by split]. destruct (p_order p); [by split|].
    destruct (enqueue_tasks _ _ _ _ w) as [[tasks|e] w1]; [|done]. apply await_batch_key.
Qed.

Lemma meili_sink_routed {W} `{!World W, !MeiliAdmin W} range Enqueue GetTasks StatusCode wait patience tables
    c events pending (w : W) :
  let s := NewMeiliSink range Enqueue GetTasks StatusCode wait patience tables in
  let wanted := filter (sink_wants s) events in
  resumable (batchKey events) pending = None -> resumable (batchKey wanted) pending = None ->
  (Process s c events (pending, w)).1 = (Process s c wanted (pending, w)).1 /\
  (Process s c events (pending, w)).2.2 = (Process s c wanted (pending, w)).2.2.
Proof.
  intros s wanted Hr Hr'. destruct (meili_routed tables Enqueue GetTasks StatusCode wait patience c (sink_wants s)
    events pending w ltac:(intros e; reflexivity) Hr Hr') as [H1 H2].
  simpl. unfold bind, ret. fold wanted in H1, H2.
  destruct (Meili_Process _ _ _ _ _ _ c events _) as [o1 [p1 w1]], (Meili_Process _ _ _ _ _ _ c wanted _) as [o2 [p2 w2]].
  simpl in *. by subst.
Qed.

Lemma unwanted_only {W} (s : Sink W) (events : list CDCEvent) :
  Forall (fun e => Wants s (Schema e) (Table e) (Op e) = false) events -> filter (sink_wants s) events = [].
Proof.
  induction 1 as [|e events He Hf IH]; [done|]. rewrite filter_cons_if, decide_False; [done|].
  unfold sink_wants. by rewrite He.
Qed.

(** A batch an honest router wants nothing of leaves everything alone. *)
Lemma unwanted_do_nothing {W} (ok : W -> Prop) (s : Sink W) `{!HonestRouter ok s} c events w :
  ok w -> Forall (fun e => Wants s (Schema e) (Table e) (Op e) = false) events ->
  Process s c events w = (None, w).
Proof. intros Hok Hf. rewrite (honest c events w Hok), unwanted_only by done. by apply idle. Qed.

(** C23: A destination's router never turns away an event its sink would use.  For the
    stream, JSON, webhook, NATS and outbox sinks, and for any of them behind the outbox
    exclusion, processing a batch is processing the events of it the router wants, and
    a batch it wants nothing of leaves everything alone.  The Meilisearch sink returns
    the same and asks the same of its server for a batch as for the wanted events of
    it, when neither resumes an interrupted wait: it remembers an interrupted batch by
    all its events, so the two may differ in what they remember. *)
Theorem routing_is_transparent {Template W Conn JS F P Options} `{!World W}
    (Parse : string -> res Template) Render Marshal time_any
    (ParseURL : string -> res Options) (NewClient : Options -> RedisClient W)
    (client : NatsClient W Conn JS) (pg : PgClient W P) :
  (forall cfg kr s, NewStreamSink Parse Render Marshal time_any ParseURL NewClient cfg kr = inl s ->
     HonestRouter (fun rw => same_filter kr rw.1) s) /\
  (forall cfg kr s, NewJSONSink Parse Render Marshal ParseURL NewClient cfg kr = inl s ->
     HonestRouter (fun rw => same_filter kr rw.1) s) /\
  (forall hmac TrimSpace request_err Do Close cfg f,
     HonestRouter (fun _ : W => True) (NewWebhookSink Marshal time_any hmac TrimSpace request_err Do Close cfg f)) /\
  (forall cfg PublishMsg Flush PublishMsgAsync AwaitAck kr,
     HonestRouter (fun rw => same_route kr rw.1)
       (NewNATSSink (F := F) Parse Render Marshal time_any client cfg PublishMsg Flush PublishMsgAsync AwaitAck kr)) /\
  (forall Sanitize cfg db url s, NewOutboxSink Marshal ParseURL NewClient pg Sanitize cfg db url = inl s ->
     HonestRouter (fun _ => True) s) /\
  (forall `{!MeiliAdmin W} range Enqueue GetTasks StatusCode wait patience tables c events pending w,
     let s := NewMeiliSink range Enqueue GetTasks StatusCode wait patience tables in
     let wanted := filter (sink_wants s) events in
     resumable (batchKey events) pending = None -> resumable (batchKey wanted) pending = None ->
     (Process s c events (pending, w)).1 = (Process s c wanted (pending, w)).1 /\
     (Process s c events (pending, w)).2.2 = (Process s c wanted (pending, w)).2.2) /\
  (forall W' (ok : W' -> Prop) (s : Sink W') schema table,
     HonestRouter ok s -> HonestRouter ok (ExcludeTable schema table s)) /\
  (forall W' (ok : W' -> Prop) (s : Sink W') c events w,
     HonestRouter ok s -> ok w ->
     Forall (fun e => Wants s (Schema e) (Table e) (Op e) = false) events ->
     Process s c events w = (None, w)).
Proof.
  split_and!.
  - intros cfg kr s. unfold NewStreamSink, NewBaseSink. destruct (ParseURL _); [|discriminate].
    intros [= <-]. exact (base_sink_honest (Build_BaseSink _ _ kr _) _ _ _ (stream_routed Parse Render Marshal time_any _)).
  - intros cfg kr s. unfold NewJSONSink, NewBaseSink. destruct (ParseURL _); [|discriminate].
    intros [= <-]. exact (base_sink_honest (Build_BaseSink _ _ kr _) _ _ _ (json_routed Parse Render Marshal)).
  - intros. apply webhook_honest.
  - intros. apply nats_honest.
  - intros. by eapply outbox_honest.
  - intros. by apply meili_sink_routed.
  - intros. by apply exclude_honest.
  - intros. by eapply unwanted_do_nothing.
Qed.

(** ** Starting *)

(** Opening and closing connections, observed. *)
Inductive conn_obs (C : Type) := Opened (c : C) | Closed (c : C).
Arguments Opened {C}. Arguments Closed {C}.

Definition open_noted {C W} (m : ST W (res C)) : ST (list (conn_obs C) * W) (res C) :=
  fun '(log, w) => let '(r, w') := m w in
    (r, (match r with inl c => log ++ [Opened c] | inr _ => log end, w')).
Definition close_noted {C W} (c : C) (m : ST W unit) : ST (list (conn_obs C) * W) unit :=
  fun '(log, w) => let '(r, w') := m w in (r, (log ++ [Closed c], w')).

Definition noted_nats {W Conn JS} (n : NatsClient W Conn JS) : NatsClient (list (conn_obs Conn) * W) Conn JS :=
  {| nc_Connect := fun url opts => open_noted (nc_Connect n url opts);
     nc_JetStream := fun c p => inner (nc_JetStream n c p);
     nc_CreateOrUpdateStream := fun js c g => inner (nc_CreateOrUpdateStream n js c g);
     nc_NameInUse := nc_NameInUse n;
     nc_FlushTimeout := fun c d => inner (nc_FlushTimeout n c d);
     nc_IsConnected := fun c w => nc_IsConnected n c w.2;
     nc_Close := fun c => close_noted c (nc_Close n c) |}.

Definition noted_pg {W P} (p : PgClient W P) : PgClient (list (conn_obs P) * W) P :=
  {| pc_New := fun url => open_noted (pc_New p url);
     pc_IDType := fun c t col => inner (pc_IDType p c t col);
     pc_Exec := fun c q keys => inner (pc_Exec p c q keys);
     pc_Close := fun c => close_noted c (pc_Close p c) |}.

Definition noted_redis {O W} (r : RedisClient W) : RedisClient (list O * W) :=
  {| rc_Ping := inner (rc_Ping r); rc_Exec := fun cmds => inner (rc_Exec r cmds); rc_Close := inner (rc_Close r) |}.

(** Nothing is left open. *)
Definition nothing_open {C} (log : list (conn_obs C)) : Prop :=
  log = [] \/ exists c, log = [Opened c; Closed c].

(** *** The stream's subjects *)

(** Tokens of a subject, and NATS's wildcard matching on them. *)
Fixpoint tokens (s : string) : list string :=
  match s with
  | EmptyString => [""]
  | String c rest =>
      if decide (c = "."%char) then "" :: tokens rest
      else match tokens rest with t :: ts => String c t :: ts | [] => [String c ""] end
  end.

Fixpoint token_match (pat subj : list string) : bool :=
  match pat, subj with
  | [], [] => true
  | p :: pat', t :: subj' =>
      if decide (p = ">" /\ pat' = []) then true
      else (bool_decide (p = "*") || bool_decide (p = t)) && token_match pat' subj'
  | _, _ => false
  end.
Definition captures (pattern subject : string) : bool := token_match (tokens pattern) (tokens subject).

Lemma tokens_nonempty s : tokens s <> [].
Proof. destruct s as [|c s]; simpl; [done|]. destruct (decide _); [done|]. by destruct (tokens s). Qed.

Lemma tokens_dot a b : tokens (a +:+ String "."%char b) = tokens a ++ tokens b.
Proof.
  induction a as [|c a IH]; [done|]. simpl. rewrite IH. destruct (decide _); [done|].
  pose proof (tokens_nonempty a). by destruct (tokens a).
Qed.

Lemma sanitize_app a b : SanitizeSubject (a +:+ b) = (SanitizeSubject a +:+ SanitizeSubject b)%string.
Proof. induction a as [|c a IH]; [done|]. simpl. by rewrite IH. Qed.

(** Literal tokens match themselves up to the final wildcard. *)
Lemma token_match_prefix ts rest : rest <> [] ->
  Forall (fun t => t <> ">") ts -> token_match (ts ++ [">"]) (ts ++ rest) = true.
Proof.
  intros Hr Hf. induction Hf as [|t ts Ht Hf IH]; simpl; [by destruct rest|].
  rewrite decide_False by tauto. rewrite IH, (bool_decide_eq_true_2 (t = t)) by done. by rewrite orb_true_r.
Qed.

Lemma tokens_literal s : literal_subject s -> Forall (fun t => t <> ">") (tokens s).
Proof.
  induction s as [|c s IH]; simpl; [by repeat constructor|]. intros [Hc Hs]. specialize (IH Hs).
  destruct (decide _); [by constructor|]. pose proof (tokens_nonempty s).
  destruct (tokens s) as [|t ts]; [done|]. inversion_clear IH as [|? ? Ht Hts]. constructor; [|done].
  intros [= -> ->]. discriminate Hc.
Qed.

(** The stream created at startup captures the subject of every table. *)
Lemma default_subjects_are_captured cfg schema table :
  captures (stream_subject cfg)
    (SanitizeSubject (na_SubjectPrefix cfg +:+ "." +:+ schema +:+ "." +:+ table)) = true.
Proof.
  unfold captures, stream_subject. rewrite sanitize_app.
  change (".>"%string) with (String "."%char ">"). simpl SanitizeSubject at 3.
  change (SanitizeSubject ("." +:+ schema +:+ "." +:+ table)%string)
    with (String "."%char (SanitizeSubject (schema +:+ "." +:+ table)%string)).
  rewrite !tokens_dot. apply token_match_prefix; [apply tokens_nonempty..|].
  apply tokens_literal, SanitizeSubject_literal.
Qed.

(** A destination's start opens at most one connection and never leaves it open
    when it fails.  A NATS start that succeeds holds its connection, and JetStream
    when configured, with a stream that captures the subject of every table; an
    outbox start that succeeds holds a pool exactly when published rows are deleted,
    with the statement that deletes them by an id of the column's type. *)
Theorem failed_start_leaks_nothing {W Conn JS P} `{!World W} (client : NatsClient W Conn JS) (cfg : NATSConfig)
    (redis : RedisClient W) (pg : PgClient W P) Sanitize ob db c ns os w :
  (let '(r, (ns', (log, _))) := Nats_Initialize (noted_nats client) cfg c (ns, ([], w)) in
   match r with
   | None => exists conn, log = [Opened conn] /\ nt_conn ns' = Some conn /\
       (na_JetStream cfg = true -> isSome (nt_js ns') = true) /\
       forall schema table, captures (stream_subject cfg)
         (SanitizeSubject (na_SubjectPrefix cfg +:+ "." +:+ schema +:+ "." +:+ table)) = true
   | Some _ => nothing_open log
   end) /\
  (let '(r, (os', (log, _))) := Outbox_Initialize (noted_pg pg) Sanitize ob db (noted_redis redis) (os, ([], w)) in
   match r with
   | None => if ox_DeleteAfterPublish ob
             then exists pool idType, log = [Opened pool] /\ os_pool os' = Some pool /\
                    os_deleteSQL os' = delete_sql Sanitize ob idType
             else log = []
   | Some _ => nothing_open log
   end).
Proof.
  unfold nothing_open. split.
  - unfold Nats_Initialize, ensureStream, bind, inner, own, modify, ret, get. simpl.
    destruct (nc_Connect client _ _ w) as [[conn|e] w1]; [|by left]. simpl.
    destruct (na_JetStream cfg); simpl; [|exists conn; split_and!; [done.. | apply default_subjects_are_captured]].
    destruct (nc_JetStream client _ _ w1) as [[js|e] w2]; simpl.
    2: { destruct (nc_Close client conn w2). right. by exists conn. }
    destruct (na_AutoCreateStream cfg); simpl; [|exists conn; split_and!; [done.. | apply default_subjects_are_captured]].
    destruct (nc_CreateOrUpdateStream client _ _ _ w2) as [[e|] w3]; simpl;
      [|exists conn; split_and!; [done.. | apply default_subjects_are_captured]].
    destruct (nc_NameInUse client e || _); simpl; [exists conn; split_and!; [done.. | apply default_subjects_are_captured]|].
    destruct (nc_Close client conn w3). right. by exists conn.
  - unfold Outbox_Initialize, bind, inner, own, modify, ret. simpl.
    destruct (rc_Ping redis w) as [[e|] w1]; [by left|]. simpl.
    destruct (ox_DeleteAfterPublish ob); simpl; [|done].
    destruct (pc_New pg db w1) as [[pool|e] w2]; [|by left]. simpl.
    destruct (pc_IDType pg pool _ _ w2) as [[t|e] w3]; simpl; [by exists pool, t|].
    destruct (pc_Close pg pool w3). right. by exists pool.
Qed.
