(* ===== verification/Gateway.v ===== *)
(** * The composition root (src/cmd/gateway/modules.go)

    How the parts are put together from the configuration: which sinks exist and in
    which order they are wrapped, which tables are left out where, and in which order
    the parts start and stop.  The constructors of the destinations' clients are
    arguments; the layers around them are those of [Resilience], [DeadLetter],
    [Transform] and [RedisSinks].

    The sinks run in the world [Manager * (breakers * W)]: the dead-letter manager,
    one circuit breaker per sink, and the world of the destinations. *)

From Stdlib Require Import ZArith Lia Ascii String.
From stdpp Require Import base list gmap strings pretty.
From S2P Require Import Prelude Domain SchemaChange Decoder Reader ReaderSetup Backfill DBLog BackfillDB.
From S2P Require Import DeadLetter Resilience Transform Meili Keys RedisSinks Service Config.

Open Scope go_scope.
Set Warnings "-clear-no-such-hyp".

Notation "'ok!' x := m 'in' k" := (match m with inl x => k | inr e => inr e end)
  (at level 10, x pattern, m at level 200, k at level 200) : go_scope.

(** ** One breaker per sink *)
Section breakers.
Context {B W : Type} (b0 : B).

(** A computation on one sink's breaker, fresh until the sink is first used. *)
Definition at_breaker {A} (name : string) (m : ST (B * W) A) : ST (gmap string B * W) A :=
  fun '(bs, w) =>
    let '(a, (b, w')) := m (default b0 (bs !! name), w) in (a, (<[name := b]> bs, w')).

Definition breaker_sink (s : Sink (B * W)) : Sink (gmap string B * W) :=
  {| Name := Name s;
     Initialize := at_breaker (Name s) (Initialize s);
     Process := fun c events => at_breaker (Name s) (Process s c events);
     Shutdown := at_breaker (Name s) (Shutdown s);
     HealthCheck := at_breaker (Name s) (HealthCheck s);
     batch_limiter := batch_limiter s;
     router := router s |}.
End breakers.

(** A sink that does not use the first half of the world. *)
Definition inner_sink {S W} (s : Sink W) : Sink (S * W) :=
  {| Name := Name s; Initialize := inner (Initialize s);
     Process := fun c events => inner (Process s c events);
     Shutdown := inner (Shutdown s); HealthCheck := inner (HealthCheck s);
     batch_limiter := batch_limiter s; router := router s |}.

(** ** Settings handed to the parts *)
Definition resilience_config (cfg : Config) : Resilience.ResilienceConfig :=
  {| AttemptTimeout := cfg_ProcessTimeout cfg;
     MaxRetries := rc_MaxRetries (cfg_Resilience cfg);
     InitialBackoff := rc_RetryBackoffInitial (cfg_Resilience cfg);
     MaxBackoff := rc_RetryBackoffMax (cfg_Resilience cfg);
     CircuitOpenDuration := rc_CircuitBreakerTimeout (cfg_Resilience cfg);
     FailureThreshold := rc_CircuitBreakerThreshold (cfg_Resilience cfg) |}.

(** The reader's configuration; the reconnection bounds are left at their defaults. *)
Definition wal_config (cfg : Config) : ReaderSetup.Config :=
  {| ReaderSetup.SlotName := cfg_SlotName cfg;
     ReaderSetup.PublicationName := cfg_PublicationName cfg;
     ReaderSetup.ReconnectBackoff := 0;
     ReaderSetup.MaxReconnectBackoff := 0;
     ReaderSetup.AutoCreateSlot := cfg_AutoCreateSlot cfg;
     ReaderSetup.AutoCreatePub := cfg_AutoCreatePub cfg;
     ReaderSetup.SlotRetryInterval := cfg_SlotRetryInterval cfg;
     ReaderSetup.SlotRetryTimeout := cfg_SlotRetryTimeout cfg |}.

(** The reader and whether its stream-started hook queues the initial backfill. *)
Record WALReaderSetup := { wr_config : ReaderSetup.Config; wr_maxBatchEvents : Z; wr_linger : Z;
                           wr_standby : Z; wr_controlled : bool; wr_auto : bool }.
Definition newWALReader (cfg : Config) (coordinator : bool) : WALReaderSetup :=
  {| wr_config := wal_config cfg; wr_maxBatchEvents := bc_MaxEvents (cfg_Batch cfg);
     wr_linger := bc_Linger (cfg_Batch cfg); wr_standby := cfg_StandbyTimeout cfg;
     wr_controlled := coordinator;
     wr_auto := coordinator && bool_decide (bk_Mode (cfg_Backfill cfg) = "auto") |}.

(** [walCfg.StreamStarted]: the state is whether the [sync.Once] has run; the result
    whether [EnqueueAll] is started. *)
Definition StreamStarted (slotCreated : bool) : ST bool bool :=
  if negb slotCreated then ret false
  else fun once => if once then (false, true) else (true, true).

(** The tables [newCDCService] leaves out of every batch. *)
Definition service_excluded (cfg : Config) : gset string :=
  if decide (bk_Mode (cfg_Backfill cfg) <> "off" /\ bk_StateTable (cfg_Backfill cfg) <> "")
  then cfg_ExcludedTables cfg ∪ {[ bk_StateTable (cfg_Backfill cfg) ]}
  else cfg_ExcludedTables cfg.

(** The tables a backfill leaves out: those and the outbox. *)
Definition backfill_excluded (cfg : Config) (sinksCfg : SinksConfig) : gset string :=
  if Enabled (sc_Outbox sinksCfg)
  then let '(schema, table) := SchemaTable (sc_Outbox sinksCfg) in
       cfg_ExcludedTables cfg ∪ {[ (schema +:+ "." +:+ table)%string ]}
  else cfg_ExcludedTables cfg.

(** [newBackfillCoordinator]: nothing when backfill is off; otherwise the database is
    opened and the coordinator gets its configuration, with a table wanted when some
    sink takes its READ rows. *)
Definition newBackfillCoordinator {W DB} (NewDB : string -> string -> Z -> res DB) (cfg : Config)
    (sinksCfg : SinksConfig) (sinks : list (Sink W)) : res (option (DB * Backfill.BackfillConfig)) :=
  if decide (bk_Mode (cfg_Backfill cfg) = "off") then inl None
  else
    ok! db := NewDB (cfg_DatabaseURL cfg) (bk_StateTable (cfg_Backfill cfg)) (bk_Lanes (cfg_Backfill cfg)) in
    inl (Some (db, Backfill.with_defaults
      {| Backfill.bf_SlotName := cfg_SlotName cfg;
         Backfill.bf_PublicationName := cfg_PublicationName cfg;
         Backfill.bf_ChunkSize := bk_ChunkSize (cfg_Backfill cfg);
         Backfill.bf_ChunkDelay := bk_ChunkDelay (cfg_Backfill cfg);
         Backfill.bf_Lanes := bk_Lanes (cfg_Backfill cfg);
         Backfill.bf_ExcludedTables := backfill_excluded cfg sinksCfg;
         Backfill.bf_Wanted := Some (fun schema table =>
           existsb (fun sink => Wants sink schema table OperationRead) sinks) |})).

(** [newDLQManager]: nothing unless it is enabled and Redis is configured. *)
Definition newDLQManager {W} (NewRedisStore : string -> string -> Z -> res (Store W)) (env : Env)
    (cfg : Config) : res (option (Store W * Manager W)) :=
  let rc := Redis_LoadConfig env in
  if negb (dc_Enabled (cfg_DLQ cfg)) || bool_decide (rd_URL rc = "") then inl None
  else
    ok! store := NewRedisStore (rd_URL rc) (rd_StreamPrefix rc) (dc_MaxEntries (cfg_DLQ cfg)) in
    inl (Some (store, NewManager (dc_Threshold (cfg_DLQ cfg)) (cfg_ProcessTimeout cfg))).

(** [newSchemaObserver]: the recorder, then the publisher when Redis is configured and
    schema events are on. *)
Definition newSchemaObserver {O} (recorder : O) (NewRedisPublisher : string -> string -> Z -> res O)
    (env : Env) (cfg : Config) : res (list O) :=
  let rc := Redis_LoadConfig env in
  if rd_Enabled rc && cfg_SchemaEvents cfg then
    ok! publisher := NewRedisPublisher (rd_URL rc) (rd_StreamPrefix rc) (rd_MaxStreamLen rc) in
    inl [recorder; publisher]
  else inl [recorder].

(** ** The sinks *)
Section sinks.
(** gobreaker, waiting, the digests, CEL and templates, as in the layers' own files. *)
Context {B G W : Type} `{!World W} (breaker : Breaker B G) (b0 : B) (wait : Ctx -> Z -> ST W bool).
Context (sha256hex : string -> string) (hmac256hex : string -> string -> string).
Context {Ast Program : Type} (celEnv : option error) (cel_Compile : string -> res Ast) (OutputType : Ast -> string).
Context (cel_Program cel_PartialProgram : Ast -> res Program).
Context (Eval : Program -> string * string * string * columns * columns -> res cel_value).
Context (PartialEval : Program -> string * string * string -> res cel_value).
Context {Template : Type} (Parse : string -> res Template).

Abbreviation BW := (gmap string B * W)%type.
Abbreviation GW := (Manager BW * BW)%type.
Abbreviation resolver := (KeyResolver (Template := Template)).

(** The constructors of the destinations' own sinks. *)
Record Destinations := {
  new_stream : RedisConfig -> resolver -> res (Sink W);
  new_json : RedisJSONConfig -> resolver -> res (Sink W);
  new_webhook : WebhookConfig -> KeyedSinkConfig -> Sink W;
  new_nats : NATSConfig -> resolver -> Sink W;
  new_meili : MeiliConfig -> MeilisearchSinkConfig -> Sink W;
  new_outbox : Outbox -> string -> string -> res (Sink W);
}.

(** What is built so far: the manager with the sinks it may retry, and the list. *)
Definition built : Type := option (Store BW * Manager BW) * list (Sink GW).

Definition wrapResilienceAndDLQ (cfg : Config) (sink : Sink W) (dlq : option (Store BW * Manager BW))
    : option (Store BW * Manager BW) * Sink GW :=
  let wrapped := breaker_sink b0 (ResilientSink breaker (resilience_config cfg) wait sink) in
  match dlq with
  | None => (None, inner_sink wrapped)
  | Some (store, manager) =>
      let '(manager', s) := WrapSink store wrapped manager in (Some (store, manager'), s)
  end.

Definition addSink (cfg : Config) (outbox : OutboxConfig) (sink : Sink W) (global : option TransformSpec)
    (tables : gmap string TransformSpec) (acc : built) : res built :=
  let '(dlq, sinks) := acc in
  let '(dlq', s) := wrapResilienceAndDLQ cfg sink dlq in
  ok! wrapped := NewSink sha256hex hmac256hex celEnv cel_Compile OutputType cel_Program cel_PartialProgram
                   Eval PartialEval s (cfg_MaskHMACKey cfg) global tables in
  let '(schema, table) := SchemaTable outbox in
  inl (dlq', sinks ++ [if Enabled outbox then ExcludeTable schema table wrapped else wrapped]).

(** [redissink.NewKeyResolver] over a keyed sink's own table of patterns. *)
Definition keyed_resolver (sink : KeyedSinkConfig) (prefix defaultPattern : string) : res resolver :=
  NewKeyResolver Parse (GetKeyPattern sink) (Some (Keyed_ShouldProcess sink)) prefix defaultPattern.

Definition DefaultJSONKeyPattern : string :=
  "{{.Prefix}}:{{.Schema}}:{{.Table}}:{{.Field " +:+ quoted "id" +:+ "}}".
Definition DefaultSubjectPattern : string := "{{.Prefix}}.{{.Schema}}.{{.Table}}".

(** The blocks of [newSinks], each skipped when its destination is not configured. *)
Section blocks.
Context (env : Env) (cfg : Config) (sinksCfg : SinksConfig) (dest : Destinations).
Abbreviation add := (addSink cfg (sc_Outbox sinksCfg)).

Definition add_stream (acc : built) : res built :=
  let rc := Redis_LoadConfig env in
  if rd_Enabled rc then
    ok! resolver := keyed_resolver (sc_RedisStream sinksCfg) (rd_StreamPrefix rc) DefaultStreamKeyPattern in
    ok! sink := new_stream dest rc resolver in
    add sink (ks_Transform (sc_RedisStream sinksCfg)) (TableTransforms (sc_RedisStream sinksCfg)) acc
  else inl acc.

Definition add_json (acc : built) : res built :=
  let jc := RedisJSON_LoadConfig env in
  if rj_Enabled jc then
    ok! resolver := keyed_resolver (sc_RedisJSON sinksCfg) (rj_Prefix jc) DefaultJSONKeyPattern in
    ok! sink := new_json dest jc resolver in
    add sink (ks_Transform (sc_RedisJSON sinksCfg)) (TableTransforms (sc_RedisJSON sinksCfg)) acc
  else inl acc.

Definition add_webhook (acc : built) : res built :=
  let wc := Webhook_LoadConfig env in
  if wh_Enabled wc then
    add (new_webhook dest wc (sc_Webhook sinksCfg)) (ks_Transform (sc_Webhook sinksCfg))
        (TableTransforms (sc_Webhook sinksCfg)) acc
  else inl acc.

Definition add_nats (acc : built) : res built :=
  let nc := NATS_LoadConfig env in
  if na_Enabled nc then
    ok! resolver := keyed_resolver (sc_NATS sinksCfg) (na_SubjectPrefix nc) DefaultSubjectPattern in
    add (new_nats dest nc resolver) (ks_Transform (sc_NATS sinksCfg)) (TableTransforms (sc_NATS sinksCfg)) acc
  else inl acc.

Definition add_meili (acc : built) : res built :=
  let mc := Meili_LoadConfig env in
  if me_Enabled mc then
    add (new_meili dest mc (sc_Meilisearch sinksCfg)) (ms_Transform (sc_Meilisearch sinksCfg))
        (Meili_TableTransforms (sc_Meilisearch sinksCfg)) acc
  else inl acc.

(** The outbox has no transforms and is not excluded from itself. *)
Definition add_outbox (NonReplicationURL : string -> string) (acc : built) : res built :=
  let ob := sc_Outbox sinksCfg in
  if Enabled ob then
    let rc := Redis_LoadConfig env in
    let '(schema, table) := SchemaTable ob in
    ok! sink := new_outbox dest
      {| ox_Schema := schema; ox_Table := table; ox_StreamPrefix := ob_StreamPrefix ob;
         ox_DefaultTopic := ob_DefaultTopic ob; ox_DeleteAfterPublish := ob_DeleteAfterPublish ob;
         ox_Columns := ob_Columns ob; ox_MaxStreamLen := rd_MaxStreamLen rc |}
      (rd_URL rc) (NonReplicationURL (cfg_DatabaseURL cfg)) in
    let '(dlq, sinks) := acc in
    let '(dlq', s) := wrapResilienceAndDLQ cfg sink dlq in
    inl (dlq', sinks ++ [s])
  else inl acc.

Definition newSinks (NonReplicationURL : string -> string) (dlq : option (Store BW * Manager BW)) : res built :=
  ok! a := add_stream (dlq, []) in
  ok! a := add_json a in
  ok! a := add_webhook a in
  ok! a := add_nats a in
  ok! a := add_meili a in
  add_outbox NonReplicationURL a.
End blocks.
End sinks.

(** ** What the layers let through

    [touches R m]: every run of [m] relates the world before to the world after by [R],
    a preorder: what a log gains, or what is kept. *)
Definition touches {W A} (R : W -> W -> Prop) (m : ST W A) : Prop :=
  forall w a w', m w = (a, w') -> R w w'.

(** A relation on the second half of a world. *)
Definition on_second {S W} (R : W -> W -> Prop) : S * W -> S * W -> Prop := fun a b => R a.2 b.2.
#[export] Instance on_second_preorder {S W} (R : W -> W -> Prop) : PreOrder R -> PreOrder (on_second (S := S) R).
Proof. intros [Hr Ht]. split; [intros x; apply Hr | intros x y z; apply Ht]. Qed.

(** The log [lg] reads only grows, by entries that satisfy [P]. *)
Definition adds {W} (lg : W -> list obs) (P : obs -> Prop) : W -> W -> Prop :=
  fun w w' => exists new, lg w' = lg w ++ new /\ Forall P new.
#[export] Instance adds_preorder {W} (lg : W -> list obs) P : PreOrder (adds lg P).
Proof.
  split.
  - intros w. exists []. by rewrite app_nil_r.
  - intros x y z (n1 & E1 & F1) (n2 & E2 & F2). exists (n1 ++ n2).
    rewrite E2, E1, app_assoc. split; [done | by apply Forall_app].
Qed.

Section touches.
Context {W : Type} {R : W -> W -> Prop} `{!PreOrder R}.

Lemma touches_ret {A} (a : A) : touches R (ret a).
Proof using PreOrder0. by intros w a' w' [= _ <-]. Qed.
Lemma touches_get : touches R get.
Proof using PreOrder0. by intros w a' w' [= _ <-]. Qed.

Lemma touches_bind {A A'} (m : ST W A) (k : A -> ST W A') :
  touches R m -> (forall a, touches R (k a)) -> touches R (bind m k).
Proof using PreOrder0.
  intros Hm Hk w a w' H. unfold bind in H. destruct (m w) as [a1 w1] eqn:Hm1.
  etrans; [exact (Hm _ _ _ Hm1) | exact (Hk _ _ _ _ H)].
Qed.

Lemma touches_guard {E} (m k : ST W (option E)) :
  touches R m -> touches R k -> touches R (guard m k).
Proof using PreOrder0. intros Hm Hk. apply touches_bind; [done|]. intros [e|]; [apply touches_ret | done]. Qed.

Lemma touches_for_each {E X} (f : X -> ST W (option E)) (l : list X) :
  (forall x, x ∈ l -> touches R (f x)) -> touches R (for_each f l).
Proof using PreOrder0.
  induction l as [|x l IH]; intros Hf; [apply touches_ret|]. apply touches_guard.
  - apply Hf. by left.
  - apply IH. intros y Hy. apply Hf. by right.
Qed.

Lemma touches_inner {S A} (m : ST W A) : touches R m -> touches (on_second (S := S) R) (inner m).
Proof.
  intros Hm [s w] a [s' w'] H. unfold inner in H. destruct (m w) as [a1 w1] eqn:Hm1.
  injection H as <- <- <-. exact (Hm _ _ _ Hm1).
Qed.

Lemma touches_own {S A} (m : ST S A) : touches (on_second (S := S) R) (own m).
Proof using PreOrder0.
  intros [s w] a [s' w'] H. unfold own in H. destruct (m s) as [a1 s1]. injection H as _ _ <-. by unfold on_second.
Qed.

Lemma touches_at_breaker {B A} (b0 : B) name (m : ST (B * W) A) :
  touches (on_second R) m -> touches (on_second R) (at_breaker b0 name m).
Proof.
  intros Hm [bs w] a [bs' w'] H. unfold at_breaker in H.
  destruct (m _) as [a1 [b1 w1]] eqn:Hm1. injection H as <- <- <-. exact (Hm _ _ _ Hm1).
Qed.
End touches.

Create HintDb touches.
#[export] Hint Extern 1 (touches _ _) => apply touches_ret : touches.
#[export] Hint Extern 1 (touches _ _) => apply touches_get : touches.
#[export] Hint Extern 1 (touches _ _) => apply touches_own : touches.
#[export] Hint Extern 2 (touches _ _) => apply touches_bind : touches.
#[export] Hint Extern 2 (touches _ _) => apply touches_guard : touches.
#[export] Hint Extern 2 (touches _ _) => apply touches_inner : touches.
#[export] Hint Extern 2 (touches _ _) => apply touches_at_breaker : touches.

(** A store whose operations do so on the entries of events that satisfy [keep]. *)
Definition store_touches {W} (R : W -> W -> Prop) (keep : CDCEvent -> Prop) (st : Store W) : Prop :=
  (forall c entry, keep (dl_Event entry) -> touches R (st_Park st c entry)) /\
  (forall c, touches R (st_Len st c)).

(** A sink that does so on batches of such events. *)
Definition sink_touches {W} (R : W -> W -> Prop) (keep : CDCEvent -> Prop) (s : Sink W) : Prop :=
  forall c events, Forall keep events -> touches R (Process s c events).

Section layers.
Context {W : Type} `{!World W} {R : W -> W -> Prop} `{!PreOrder R} (keep : CDCEvent -> Prop).

Lemma resilient_touches {B G} (breaker : Breaker B G) cfg wait (s : Sink W) :
  (forall c d, touches R (wait c d)) -> sink_touches R keep s ->
  sink_touches (on_second R) keep (ResilientSink breaker cfg wait s).
Proof using Type*.
  intros Hw Hs c events Hk. simpl. unfold Resilient_Process.
  destruct events as [|e events]; [auto with touches|]. set (evs := e :: events) in *.
  apply touches_bind; [|auto with touches].
  assert (Hr : touches R (processWithRetry cfg wait s c evs)).
  { unfold processWithRetry. destruct (decide _); [auto with touches|].
    generalize (InitialBackoff cfg). induction (Z.to_nat (MaxRetries cfg)) as [|k IH]; intros backoff;
      (apply touches_bind;
        [unfold attempt; destruct (decide _); [by apply Hs | apply touches_bind; [auto with touches | intros; by apply Hs]] |]);
      intros [err|]; auto with touches; (apply touches_bind; [auto with touches|]); intros w; auto with touches.
    destruct (_ || _); [auto with touches|]. apply touches_bind; [apply Hw|]. intros []; auto with touches. }
  intros [b w] a [b' w'] H. unfold Execute in H.
  destruct (beforeRequest breaker (now w) b) as [[g|er] b1].
  - destruct (processWithRetry _ _ _ _ _ w) as [r w1] eqn:Hp. injection H as <- <- <-. exact (Hr _ _ _ Hp).
  - injection H as _ _ <-. by unfold on_second.
Qed.

Lemma breaker_touches {B} (b0 : B) (s : Sink (B * W)) :
  sink_touches (on_second R) keep s -> sink_touches (on_second R) keep (breaker_sink b0 s).
Proof using Type*. intros Hs c events Hk. apply touches_at_breaker, Hs, Hk. Qed.

Lemma park_touches (store : Store W) (s : Sink W) c e err :
  store_touches R keep store -> keep e ->
  touches (on_second R) (Sink_park store s c e err).
Proof using Type*.
  intros [Hp Hl] He. unfold Sink_park. apply touches_bind; [auto with touches|]. intros [m w].
  destruct (failureInfo _ _ _ _) as [att ff]. apply touches_bind; [|auto with touches].
  unfold park. apply touches_bind; [auto with touches|]. intros [m1 w1].
  apply touches_guard; [apply touches_inner, Hp, He|].
  apply touches_bind; [auto with touches|]. intros _. apply touches_bind; [|auto with touches].
  apply touches_inner. unfold updateDepthGauge. apply touches_bind; auto with touches.
Qed.

Section dlq.
Context (store : Store W) (s : Sink W).
Context (Hst : store_touches R keep store) (Hs : sink_touches R keep s).
Abbreviation mR := (on_second (S := Manager W) R).

(** One half of a batch, given how the recursive call behaves. *)
Lemma half_touches c half (rec : error -> ST (Manager W * W) (option error)) :
  Forall keep half -> (forall herr, touches mR (rec herr)) ->
  touches mR
    (let! herr := inner (Process s c half) in
     match herr with
     | None => seq! own (modify (clearFailures (Name s) half)) in ret None
     | Some herr => let! '(_, w) := get in if stalls c herr w then ret (Some herr) else rec herr
     end).
Proof using Type*.
  intros Hh Hr. apply touches_bind; [apply touches_inner, Hs, Hh|].
  intros [herr|]; (apply touches_bind; [auto with touches|]); [|auto with touches].
  intros [m w]. destruct (stalls _ _ _); auto with touches.
Qed.

Lemma isolate_touches fuel c events err :
  Forall keep events -> touches mR (isolate_fuel store s fuel c events err).
Proof using Type*.
  revert events err. induction fuel as [|fuel IH]; intros events err Hk; [apply touches_ret|].
  cbn [isolate_fuel].
  destruct events as [|e [|e2 rest]]; [| apply park_touches; [done | by inversion Hk] |];
    apply touches_for_each; intros half Hin;
    (assert (Forall keep half) as Hh;
      [apply elem_of_cons in Hin as [->|Hin%list_elem_of_singleton]; [|subst half];
        [by apply Forall_take | by apply Forall_drop]
      | apply half_touches; [exact Hh | intros herr; by apply IH]]).
Qed.

Lemma dlq_touches : sink_touches mR keep (DLQ_Sink store s).
Proof using Type*.
  intros c events Hk. simpl. unfold DLQ_Process. destruct events as [|first rest]; [auto with touches|].
  apply half_touches; [exact Hk|]. intros err. unfold isolate.
  destruct (IsPermanent err); [by apply isolate_touches|].
  intros [m w] a [m' w'] H. unfold bind, recordFailure in H.
  destruct (bool_decide _); [exact (isolate_touches _ _ _ _ Hk _ _ _ H)|].
  injection H as _ _ <-. by unfold on_second.
Qed.
End dlq.
End layers.

(** ** Both chains of a sink as one *)
Section chains.
Context {Program : Type} (Eval : Program -> string * string * string * columns * columns -> res cel_value).

Definition chain_steps (c : Chain (Program := Program)) : list compiledSpec := default [] c.

Lemma apply_spec_steps c e : apply_spec Eval c e = spec_steps Eval (chain_steps c) e.
Proof. by destruct c. Qed.

Lemma spec_steps_app a b e :
  spec_steps Eval (a ++ b) e =
  match spec_steps Eval a e with (e1, true, None) => spec_steps Eval b e1 | r => r end.
Proof.
  revert e. induction a as [|st a IH]; intros e; simpl; [done|].
  destruct (match cs_filter st with Some _ => _ | None => _ end) as [[]|]; try done.
  destruct (step_idle st); apply IH.
Qed.

Lemma spec_steps_names steps e :
  let e' := (spec_steps Eval steps e).1.1 in Schema e' = Schema e /\ Table e' = Table e.
Proof.
  revert e. induction steps as [|st steps IH]; intros e; simpl; [done|].
  destruct (match cs_filter st with Some _ => _ | None => _ end) as [[]|]; try done.
  destruct (step_idle st); [apply IH|].
  match goal with |- context [spec_steps Eval steps ?e1] => destruct (IH e1) as [-> ->] end. done.
Qed.

(** The steps an event of a table goes through. *)
Definition event_steps (s : transform_sink (Program := Program)) (schema table : string) : list compiledSpec :=
  chain_steps (ts_global s) ++ chain_steps (tableChain s schema table).

Lemma transform_event_steps s e :
  transform_event Eval s e = spec_steps Eval (event_steps s (Schema e) (Table e)) e.
Proof.
  unfold transform_event, event_steps. rewrite spec_steps_app, apply_spec_steps.
  pose proof (spec_steps_names (chain_steps (ts_global s)) e) as [Hs Ht].
  destruct (spec_steps Eval (chain_steps (ts_global s)) e) as [[e1 []] [err|]]; try done. simpl in Hs, Ht.
  by rewrite Hs, Ht, apply_spec_steps.
Qed.

(** Whatever a batch hands over came through those steps. *)
Lemma transform_batch_elem s events out e' :
  transform_batch Eval s events = inl out -> e' ∈ out ->
  exists e, e ∈ events /\ Schema e' = Schema e /\ Table e' = Table e /\
    spec_steps Eval (event_steps s (Schema e) (Table e)) e = (e', true, None).
Proof.
  revert out. induction events as [|e events IH]; simpl; intros out; [intros [= <-] []%not_elem_of_nil|].
  pose proof (spec_steps_names (event_steps s (Schema e) (Table e)) e) as Hn.
  rewrite transform_event_steps.
  destruct (spec_steps _ _ e) as [[e1 keep] [err|]] eqn:He; [discriminate|].
  destruct (transform_batch Eval s events) as [rest|]; [|discriminate]. intros [= <-] Hin.
  assert (Hrest : e' ∈ rest -> exists e0, e0 ∈ e :: events /\ Schema e' = Schema e0 /\ Table e' = Table e0 /\
    spec_steps Eval (event_steps s (Schema e0) (Table e0)) e0 = (e', true, None)).
  { intros Hr. destruct (IH rest eq_refl Hr) as (e0 & H0 & Hn0). exists e0. split; [by right | done]. }
  destruct keep; [|by apply Hrest]. apply elem_of_cons in Hin as [->|Hr]; [|by apply Hrest].
  exists e. split; [by left | split_and!; try apply Hn; done].
Qed.
End chains.

(** ** What a configured sink may see *)
Section clean.
Context (sha256hex : string -> string) (hmac256hex : string -> string -> string) (key : string).
Context (global : option TransformSpec) (tables : gmap string TransformSpec).
Abbreviation strategy_of name := (strategyFunc sha256hex hmac256hex name key).

(** The specs that are configured for a table: the sink's own and the table's, by its
    full name or else by its bare name. *)
Definition configured (schema table : string) (spec : TransformSpec) : Prop :=
  global = Some spec \/ tables !! (schema +:+ "." +:+ table)%string = Some spec \/
  (tables !! (schema +:+ "." +:+ table)%string = None /\ tables !! table = Some spec).

(** No dropped column in either row; a masked column is null or the output of a mask
    configured for it. *)
Definition clean (e : CDCEvent) : Prop :=
  forall spec col, configured (Schema e) (Table e) spec ->
  (col ∈ spec_DropColumns spec -> column (NewData e) col = None /\ column (OldData e) col = None) /\
  (is_Some (spec_Mask spec !! col) -> forall v,
     column (NewData e) col = Some v \/ column (OldData e) col = Some v ->
     is_nil v = true \/ exists name fn u, strategy_of name = inl fn /\ v = fn u).

Context {Ast Program : Type} (celEnv : option error) (cel_Compile : string -> res Ast) (OutputType : Ast -> string).
Context (cel_Program cel_PartialProgram : Ast -> res Program).

Lemma compile_mask_lookup cols m col :
  compile_mask sha256hex hmac256hex key cols = inl m ->
  (forall fn, m !! col = Some fn -> exists name, strategy_of name = inl fn) /\
  (col ∈ cols.*1 -> is_Some (m !! col)).
Proof.
  revert m. induction cols as [|[c n] cols IH]; simpl; intros m.
  { intros [= <-]. split; [intros fn; by rewrite lookup_empty | by intros ?%not_elem_of_nil]. }
  destruct (strategy_of n) as [fn0|] eqn:Hn; [|discriminate].
  destruct (compile_mask _ _ _ cols) as [m0|] eqn:Hm; [|discriminate]. intros [= <-].
  destruct (IH m0 eq_refl) as [IH1 IH2]. destruct (decide (c = col)) as [->|Hne].
  - rewrite lookup_insert_eq. split; [intros fn [= <-]; eauto | by eauto].
  - rewrite lookup_insert_ne by done. split; [exact IH1|]. intros Hin. apply IH2. set_solver.
Qed.

(** A spec compiles to one step that drops and masks what it says. *)
Lemma compile_one spec chain :
  CompileWithOptions sha256hex hmac256hex celEnv cel_Compile OutputType cel_Program cel_PartialProgram
    key [spec] = inl chain ->
  (IsZero spec = true /\ chain = None) \/
  exists st, chain = Some [st] /\ (forall col, col ∈ spec_DropColumns spec -> col ∈ cs_drop st) /\
    (forall col, is_Some (spec_Mask spec !! col) -> is_Some (cs_mask st !! col)) /\
    (forall col fn, cs_mask st !! col = Some fn -> exists name, strategy_of name = inl fn).
Proof.
  unfold CompileWithOptions. cbn [compile_steps]. destruct (IsZero spec); [intros [= <-]; auto|].
  destruct (compile_filter _ _ _ _ _ _) as [[prg partial]|]; [|discriminate].
  destruct (compile_mask _ _ _ _) as [mask|] eqn:Hm; [|discriminate]. intros [= <-].
  right. eexists. split; [reflexivity|]. simpl. split_and!.
  - intros col Hin. by apply elem_of_list_to_set.
  - intros col [n Hn]. apply (compile_mask_lookup _ _ _ Hm). apply list_elem_of_fmap.
    exists (col, n). split; [done | by apply elem_of_map_to_list].
  - intros col. apply (compile_mask_lookup _ _ _ Hm).
Qed.
(** The compiled chain of each table is that of its own spec. *)
Lemma compile_tables_lookup sink l m :
  NoDup l.*1 ->
  compile_tables sha256hex hmac256hex celEnv cel_Compile OutputType cel_Program cel_PartialProgram
    key sink l = inl m ->
  forall name, match (list_to_map l : gmap string TransformSpec) !! name with
               | None => m !! name = None
               | Some spec => CompileWithOptions sha256hex hmac256hex celEnv cel_Compile OutputType
                                cel_Program cel_PartialProgram key [spec] = inl (m !! name)
               end.
Proof.
  revert m. induction l as [|[n spec] l IH]; simpl; intros m Hnd.
  { intros [= <-] name. by rewrite lookup_empty. }
  inversion_clear Hnd as [|? ? Hn Hnd'].
  destruct (CompileWithOptions _ _ _ _ _ _ _ _ [spec]) as [chain|] eqn:Hc; [|discriminate].
  destruct (compile_tables _ _ _ _ _ _ _ _ _ l) as [m0|]; [|discriminate]. intros [= <-] name.
  specialize (IH m0 Hnd' eq_refl). destruct (decide (n = name)) as [->|Hne].
  - rewrite lookup_insert_eq. rewrite Hc. f_equal.
    specialize (IH name). rewrite not_elem_of_list_to_map_1 in IH by exact Hn.
    destruct chain; [by rewrite lookup_insert_eq | done].
  - rewrite lookup_insert_ne by done. specialize (IH name).
    destruct chain; [by rewrite lookup_insert_ne | exact IH].
Qed.

(** A compiled step of a configured spec. *)
Definition step_for (st : compiledSpec (Program := Program)) (spec : TransformSpec) : Prop :=
  (forall col, col ∈ spec_DropColumns spec -> col ∈ cs_drop st) /\
  (forall col, is_Some (spec_Mask spec !! col) -> is_Some (cs_mask st !! col)).
Definition known_masks (st : compiledSpec (Program := Program)) : Prop :=
  forall col fn, cs_mask st !! col = Some fn -> exists name, strategy_of name = inl fn.

(** Steps that cover every configured spec that says anything make an event clean. *)
Lemma steps_clean Eval steps e e' :
  (forall spec, configured (Schema e) (Table e) spec ->
     IsZero spec = true \/ exists st, st ∈ steps /\ step_for st spec) ->
  Forall known_masks steps ->
  spec_steps Eval steps e = (e', true, None) -> Schema e' = Schema e -> Table e' = Table e -> clean e'.
Proof.
  intros Hcov Hknown Hs Hsc Htb spec col Hcfg. rewrite Hsc, Htb in Hcfg.
  destruct (Hcov spec Hcfg) as [Hz|(st & Hin & Hdrop & Hmask)].
  - unfold IsZero in Hz. apply andb_true_iff in Hz as [[_ Hd]%andb_true_iff Hm].
    apply bool_decide_eq_true in Hd, Hm. rewrite Hd, Hm. split.
    + by intros ?%not_elem_of_nil.
    + rewrite lookup_empty. by intros [? [=]].
  - destruct (spec_hides Eval steps e e' st col Hin Hs) as [H1 H2]. split; [by intros Hc; apply H1, Hdrop|].
    intros Hc v Hv. destruct (H2 (Hmask _ Hc) v Hv) as [Hn|(st' & fn & u & Hin' & Hfn & ->)]; [by left|].
    right. rewrite Forall_forall in Hknown. destruct (Hknown _ Hin' _ _ Hfn) as [name Hname]. eauto.
Qed.
End clean.

(** ** The transforming and excluding layers *)
Section outer_layers.
Context {W : Type} {R : W -> W -> Prop} `{!PreOrder R} (keep : string -> string -> Prop).
Abbreviation named := (fun e => keep (Schema e) (Table e)).

Lemma transform_touches {Program} Eval PartialEval (t : transform_sink (Program := Program)) (s : Sink W)
    (keep' : CDCEvent -> Prop) :
  (forall e e', named e -> Schema e' = Schema e -> Table e' = Table e ->
     spec_steps Eval (event_steps t (Schema e) (Table e)) e = (e', true, None) -> keep' e') ->
  sink_touches R keep' s -> sink_touches R named (TransformSink Eval PartialEval t s).
Proof using Type*.
  intros Hk Hs c events Hev. simpl. unfold transform_Process.
  destruct (transform_batch Eval t events) as [out|err] eqn:Hb; [|apply touches_ret].
  assert (Hout : Forall keep' out).
  { apply Forall_forall. intros e' Hin. destruct (transform_batch_elem Eval _ _ _ _ Hb Hin)
      as (e & He & Hsc & Htb & Hst). rewrite Forall_forall in Hev. eauto. }
  destruct out as [|e' out]; [apply touches_ret | by apply Hs].
Qed.

Lemma exclude_touches schema table (s : Sink W) :
  sink_touches R (fun e => named e /\ (Schema e, Table e) <> (schema, table)) s ->
  sink_touches R named (ExcludeTable schema table s).
Proof using Type*.
  intros Hs c events Hev. simpl. unfold Exclude_Process. rewrite exclude_filter.
  assert (Hout : Forall (fun e => named e /\ (Schema e, Table e) <> (schema, table))
                   (filter (fun e => excluded schema table e = false) events)).
  { apply Forall_forall. intros e [Hx Hin]%list_elem_of_filter. rewrite Forall_forall in Hev.
    split; [by apply Hev|]. intros [= Hsc Htb]. unfold excluded in Hx. rewrite Hsc, Htb in Hx.
    rewrite !bool_decide_eq_true_2 in Hx by done. discriminate Hx. }
  destruct (filter _ events); [apply touches_ret | by apply Hs].
Qed.
End outer_layers.

Section new_sink.
Context (sha256hex : string -> string) (hmac256hex : string -> string -> string) (key : string).
Context {Ast Program : Type} (celEnv : option error) (cel_Compile : string -> res Ast) (OutputType : Ast -> string).
Context (cel_Program cel_PartialProgram : Ast -> res Program).
Context (Eval : Program -> string * string * string * columns * columns -> res cel_value).
Context (PartialEval : Program -> string * string * string -> res cel_value).
Context (global : option TransformSpec) (tables : gmap string TransformSpec).

Abbreviation compile := (CompileWithOptions sha256hex hmac256hex celEnv cel_Compile OutputType cel_Program
                        cel_PartialProgram key).
Abbreviation clean_event := (clean sha256hex hmac256hex key global tables).
Abbreviation masks_known := (known_masks sha256hex hmac256hex key).

Definition compiled (t : transform_sink (Program := Program)) : Prop :=
  match global with None => ts_global t = None | Some g => compile [g] = inl (ts_global t) end /\
  forall name, match tables !! name with
               | None => ts_tables t !! name = None
               | Some spec => compile [spec] = inl (ts_tables t !! name)
               end.

(** A compiled chain's only step is the spec's. *)
Lemma compile_covers spec chain :
  compile [spec] = inl chain ->
  Forall masks_known (chain_steps chain) /\
  (IsZero spec = true \/ exists st, st ∈ chain_steps chain /\ step_for st spec).
Proof.
  intros H. destruct (compile_one _ _ _ _ _ _ _ _ _ _ H) as [[Hz ->]|(st & -> & Hd & Hm & Hk)].
  - split; [constructor | by left].
  - split; [by constructor|]. right. exists st. split; [by left | done].
Qed.

Lemma compiled_covers t schema table :
  compiled t ->
  Forall masks_known (event_steps t schema table) /\
  (forall spec, configured global tables schema table spec ->
     IsZero spec = true \/ exists st, st ∈ event_steps t schema table /\ step_for st spec).
Proof.
  intros [Hg Ht]. unfold event_steps.
  assert (Htc : match tables !! (schema +:+ "." +:+ table)%string with
                | Some spec => exists chain, compile [spec] = inl chain /\
                    (chain = None \/ tableChain t schema table = chain)
                | None => match tables !! table with
                          | Some spec => compile [spec] = inl (tableChain t schema table)
                          | None => tableChain t schema table = None
                          end
                end).
  { unfold tableChain. pose proof (Ht (schema +:+ "." +:+ table)%string) as Hf. pose proof (Ht table) as Hb.
    destruct (tables !! (schema +:+ "." +:+ table)%string) as [spec|].
    - eexists. split; [exact Hf|]. destruct (ts_tables t !! _); auto.
    - rewrite Hf. by destruct (tables !! table). }
  assert (Hall : forall name, Forall masks_known (chain_steps (ts_tables t !! name))).
  { intros name. specialize (Ht name). destruct (tables !! name); [by apply compile_covers in Ht as [? _]|].
    rewrite Ht. constructor. }
  split.
  - apply Forall_app. split.
    + destruct global; [by apply compile_covers in Hg as [? _] | rewrite Hg; constructor].
    + unfold tableChain. pose proof (Hall (schema +:+ "." +:+ table)%string) as Hf.
      destruct (ts_tables t !! _) as [c|] eqn:E; [exact Hf | apply Hall].
  - intros spec [Hgl|[Hfull|[Hnone Hbare]]].
    + rewrite Hgl in Hg. apply compile_covers in Hg as [_ [?|(st & ? & ?)]]; [by left|].
      right. exists st. split; [by apply elem_of_app; left | done].
    + rewrite Hfull in Htc. destruct Htc as (chain & Hc & Hor). apply compile_covers in Hc as [_ [?|(st & Hin & ?)]];
        [by left|]. right. exists st. split; [apply elem_of_app; right | done].
      destruct Hor as [Hor|Hor]; [rewrite Hor in Hin; by apply not_elem_of_nil in Hin | by rewrite Hor].
    + rewrite Hnone, Hbare in Htc. apply compile_covers in Htc as [_ [?|(st & ? & ?)]]; [by left|].
      right. exists st. split; [by apply elem_of_app; right | done].
Qed.

(** What [NewSink] wraps sees only clean events. *)
Lemma new_sink_touches {W} {R : W -> W -> Prop} `{!PreOrder R} (keep : string -> string -> Prop) (inner s : Sink W) :
  NewSink sha256hex hmac256hex celEnv cel_Compile OutputType cel_Program cel_PartialProgram Eval PartialEval
    inner key global tables = inl s ->
  sink_touches R (fun e => keep (Schema e) (Table e) /\ clean_event e) inner ->
  sink_touches R (fun e => keep (Schema e) (Table e)) s.
Proof.
  unfold NewSink. intros H Hin.
  destruct (match global with None => _ | Some _ => _ end) as [chain|] eqn:Hg; [|discriminate].
  destruct (compile_tables _ _ _ _ _ _ _ _ _ _) as [m|] eqn:Hm; [|discriminate].
  assert (Hc : compiled {| ts_global := chain; ts_tables := m |}).
  { split; [destruct global; simpl; congruence|]. intros name. simpl.
    pose proof (compile_tables_lookup _ _ _ _ _ _ _ _ _ _ _ (NoDup_fst_map_to_list tables) Hm name) as Hl.
    by rewrite list_to_map_to_list in Hl. }
  pose proof (fun schema table => compiled_covers _ schema table Hc) as Hcov.
  destruct (negb _ && _) eqn:Hidle; injection H as <-.
  - apply andb_true_iff in Hidle as [Hn He]. apply bool_decide_eq_true, dom_empty_inv_L in He as ->.
    destruct chain; [discriminate|]. intros c events Hev. apply Hin.
    eapply Forall_impl; [exact Hev|]. intros e He. split; [exact He|].
    destruct (Hcov (Schema e) (Table e)) as [Hk Hs].
    assert (Hnil : event_steps (Program := Program) {| ts_global := None; ts_tables := ∅ |} (Schema e) (Table e) = [])
      by (unfold event_steps, tableChain; simpl; by rewrite !lookup_empty).
    rewrite Hnil in Hk, Hs. by eapply (steps_clean _ _ _ _ _ Eval []).
  - eapply transform_touches; [|exact Hin]. intros e e' Hk Hsc Htb Hst. split; [by rewrite Hsc, Htb|].
    destruct (Hcov (Schema e) (Table e)) as [Hkn Hs]. by eapply steps_clean.
Qed.
End new_sink.

(** ** The gateway under observation

    Every destination and the dead-letter store log what they are given. *)
Section observed.
Context {B G W : Type} `{!World W} (breaker : Breaker B G) (b0 : B) (wait : Ctx -> Z -> ST W bool).
Context (sha256hex : string -> string) (hmac256hex : string -> string -> string).
Context {Ast Program : Type} (celEnv : option error) (cel_Compile : string -> res Ast) (OutputType : Ast -> string).
Context (cel_Program cel_PartialProgram : Ast -> res Program).
Context (Eval : Program -> string * string * string * columns * columns -> res cel_value).
Context (PartialEval : Program -> string * string * string -> res cel_value).
Context {Template : Type} (Parse : string -> res Template).

Abbreviation OW := (list obs * W)%type.
Abbreviation OBW := (gmap string B * OW)%type.
Abbreviation OGW := (Manager OBW * OBW)%type.

Definition observe (r : res (Sink W)) : res (Sink OW) :=
  match r with inl s => inl (obs_sink s) | inr e => inr e end.
Definition observed (d : Destinations (W := W) (Template := Template))
    : Destinations (W := OW) (Template := Template) :=
  {| new_stream rc r := observe (new_stream d rc r);
     new_json jc r := observe (new_json d jc r);
     new_webhook wc f := obs_sink (new_webhook d wc f);
     new_nats nc r := obs_sink (new_nats d nc r);
     new_meili mc c := obs_sink (new_meili d mc c);
     new_outbox cfg r u := observe (new_outbox d cfg r u) |}.

Definition inner_store {S W} (st : Store W) : Store (S * W) :=
  {| st_Park c entry := inner (st_Park st c entry); st_Get c id := inner (st_Get st c id);
     st_List c n := inner (st_List st c n); st_Remove c id := inner (st_Remove st c id);
     st_Len c := inner (st_Len st c) |}.

(** The log of the whole gateway, and the events of an entry of it. *)
Definition gateway_log (w : OGW) : list obs := w.2.2.1.
Definition obs_events (o : obs) : list CDCEvent :=
  match o with Called _ events _ => events | Parked entry _ => [dl_Event entry] end.
Definition shows (keep : CDCEvent -> Prop) (o : obs) : Prop := Forall keep (obs_events o).

Lemma obs_sink_touches keep (s : Sink W) : sink_touches (adds fst (shows keep)) keep (obs_sink s).
Proof.
  intros c events Hk [log w] a [log' w'] H. simpl in H. destruct (Process s c events w) as [r w1].
  injection H as <- <- <-. exists [Called (Name s) events r]. split; [done | by constructor].
Qed.

Lemma inner_store_touches {S X} (R : X -> X -> Prop) keep (st : Store X) :
  store_touches R keep st -> store_touches (on_second (S := S) R) keep (inner_store st).
Proof. intros [Hp Hl]. split; [intros c entry Hk; by apply touches_inner, Hp | intros c; apply touches_inner, Hl]. Qed.

Lemma obs_store_touches keep (st : Store W) : store_touches (adds fst (shows keep)) keep (obs_store st).
Proof.
  split.
  - intros c entry Hk [log w] a [log' w'] H. simpl in H. destruct (st_Park st c entry w) as [r w1].
    injection H as <- <- <-. exists [Parked entry r]. split; [done|]. constructor; [by constructor | done].
  - intros c [log w] a [log' w'] H. simpl in H. unfold inner in H. destruct (st_Len st c w) as [r w1].
    injection H as _ <- _. exists []. by rewrite app_nil_r.
Qed.

Definition observed_wait (c : Ctx) (d : Z) : ST OW bool := inner (wait c d).
Lemma observed_wait_touches P c d : touches (adds fst P) (observed_wait c d).
Proof.
  intros [log w] a [log' w'] H. unfold observed_wait, inner in H. destruct (wait c d w) as [r w1].
  injection H as _ <- _. exists []. by rewrite app_nil_r.
Qed.

(** The dead-letter queue is absent, or its store is observed. *)
Definition dlq_observed (dlq : option (Store OBW * Manager OBW)) : Prop :=
  match dlq with None => True | Some (store, _) => exists st, store = inner_store (obs_store st) end.

Abbreviation wrap := (wrapResilienceAndDLQ breaker b0 observed_wait).

(** The layers around a destination relate worlds as the destination, the store and the
    waits do. *)
Lemma wrap_touches (R : OW -> OW -> Prop) `{!PreOrder R} keep cfg (sink : Sink OW) dlq dlq' s :
  (forall c d, touches R (observed_wait c d)) -> sink_touches R keep sink ->
  match dlq with None => True | Some (store, _) => exists st, store = inner_store st /\ store_touches R keep st end ->
  wrap cfg sink dlq = (dlq', s) -> sink_touches (on_second (on_second R)) keep s.
Proof using Type*.
  intros Hwait Hs Hst Hw. unfold wrapResilienceAndDLQ in Hw.
  assert (Hb : sink_touches (on_second R) keep
    (breaker_sink b0 (ResilientSink breaker (resilience_config cfg) observed_wait sink)))
    by (by apply breaker_touches, resilient_touches).
  destruct dlq as [[store m]|].
  - destruct Hst as (st & -> & Hst). injection Hw as <- <-.
    exact (dlq_touches _ _ _ (inner_store_touches _ _ _ Hst) Hb).
  - injection Hw as <- <-. intros c events Hk. apply touches_inner, Hb, Hk.
Qed.

Lemma wrap_observed cfg (sink : Sink OW) dlq dlq' s :
  dlq_observed dlq -> wrap cfg sink dlq = (dlq', s) -> dlq_observed dlq'.
Proof.
  unfold wrapResilienceAndDLQ. destruct dlq as [[store m]|]; [|by intros _ [= <- _]].
  intros [st ->] [= <- _]. by exists st.
Qed.

Lemma wrapped_touches keep cfg (sink : Sink W) dlq dlq' s :
  dlq_observed dlq -> wrap cfg (obs_sink sink) dlq = (dlq', s) ->
  sink_touches (adds gateway_log (shows keep)) keep s.
Proof.
  intros Hd Hw. eapply (wrap_touches (adds fst (shows keep)));
    [intros; apply observed_wait_touches | apply obs_sink_touches | | exact Hw].
  destruct dlq as [[store m]|]; [|done]. destruct Hd as [st ->]. exists (obs_store st).
  split; [done | apply obs_store_touches].
Qed.

Section blocks.
Context (env : Env) (cfg : Config) (sinksCfg : SinksConfig) (dest : Destinations (W := W) (Template := Template)).
Context (NonReplicationURL : string -> string).

(** What a mirroring sink with these transforms may be given: events it would call
    clean, and none of the outbox table. *)
Definition admissible (transforms : option TransformSpec * gmap string TransformSpec) (e : CDCEvent) : Prop :=
  clean sha256hex hmac256hex (cfg_MaskHMACKey cfg) transforms.1 transforms.2 e /\
  (Enabled (sc_Outbox sinksCfg) = true -> (Schema e, Table e) <> SchemaTable (sc_Outbox sinksCfg)).

Definition guarded (transforms : option TransformSpec * gmap string TransformSpec) (s : Sink OGW) : Prop :=
  forall c events, touches (adds gateway_log (shows (admissible transforms))) (Process s c events).

Abbreviation add := (addSink breaker b0 observed_wait sha256hex hmac256hex celEnv cel_Compile OutputType
  cel_Program cel_PartialProgram Eval PartialEval cfg (sc_Outbox sinksCfg)).

Lemma addSink_guarded (sink : Sink W) global tables dlq sinks dlq' sinks' :
  dlq_observed dlq -> add (obs_sink sink) global tables (dlq, sinks) = inl (dlq', sinks') ->
  dlq_observed dlq' /\ exists s, sinks' = sinks ++ [s] /\ guarded (global, tables) s.
Proof.
  intros Hd H. unfold addSink in H.
  destruct (wrap cfg (obs_sink sink) dlq) as [dlq1 s] eqn:Hw.
  pose proof (fun keep => wrapped_touches keep _ _ _ _ _ Hd Hw) as Hwt.
  destruct (NewSink _ _ _ _ _ _ _ _ _ s _ _ _) as [wrapped|] eqn:Hn; [|discriminate].
  destruct (SchemaTable (sc_Outbox sinksCfg)) as [sc tb] eqn:Hst. injection H as <- <-.
  split; [by eapply wrap_observed|]. eexists. split; [reflexivity|]. unfold guarded, admissible. rewrite Hst.
  pose proof (fun keep => new_sink_touches _ _ _ _ _ _ _ _ _ _ _ _
    (R := adds gateway_log (shows (admissible (global, tables)))) keep _ _ Hn) as Hns. unfold admissible in Hns. rewrite Hst in Hns.
  assert (Hin : forall keep : string -> string -> Prop,
    (forall e, keep (Schema e) (Table e) -> Enabled (sc_Outbox sinksCfg) = true -> (Schema e, Table e) <> (sc, tb)) ->
    sink_touches (adds gateway_log (shows (fun e => clean sha256hex hmac256hex (cfg_MaskHMACKey cfg) global tables e /\
        (Enabled (sc_Outbox sinksCfg) = true -> (Schema e, Table e) <> (sc, tb)))))
      (fun e => keep (Schema e) (Table e) /\
                clean sha256hex hmac256hex (cfg_MaskHMACKey cfg) global tables e) s).
  { intros keep Hk c events Hev. apply (Hwt (fun e => _ /\ _)). eapply Forall_impl; [exact Hev|].
    intros e [He Hc]. split; [exact Hc | by apply Hk]. }
  intros c events. destruct (Enabled (sc_Outbox sinksCfg)) eqn:He.
  - apply (exclude_touches (fun _ _ => True)).
    + intros c' ev' Hev'. apply (Hns (fun a b => True /\ (a, b) <> (sc, tb))); [|exact Hev'].
      apply (Hin (fun a b => True /\ (a, b) <> (sc, tb))). by intros e [_ Hne] _.
    + by apply Forall_true.
  - apply (Hns (fun _ _ => True)); [by apply (Hin (fun _ _ => True)) | by apply Forall_true].
Qed.

(** The transforms of the destinations that are configured, in the order of their
    blocks. *)
Definition enabled_transforms : list (option TransformSpec * gmap string TransformSpec) :=
  let keyed (k : KeyedSinkConfig) := [(ks_Transform k, TableTransforms k)] in
  (if rd_Enabled (Redis_LoadConfig env) then keyed (sc_RedisStream sinksCfg) else []) ++
  (if rj_Enabled (RedisJSON_LoadConfig env) then keyed (sc_RedisJSON sinksCfg) else []) ++
  (if wh_Enabled (Webhook_LoadConfig env) then keyed (sc_Webhook sinksCfg) else []) ++
  (if na_Enabled (NATS_LoadConfig env) then keyed (sc_NATS sinksCfg) else []) ++
  (if me_Enabled (Meili_LoadConfig env)
   then [(ms_Transform (sc_Meilisearch sinksCfg), Meili_TableTransforms (sc_Meilisearch sinksCfg))] else []).

Abbreviation obs_add_stream := (add_stream breaker b0 observed_wait sha256hex hmac256hex celEnv cel_Compile OutputType
  cel_Program cel_PartialProgram Eval PartialEval).
Abbreviation obs_add_json := (add_json breaker b0 observed_wait sha256hex hmac256hex celEnv cel_Compile OutputType
  cel_Program cel_PartialProgram Eval PartialEval).
Abbreviation obs_add_webhook := (add_webhook breaker b0 observed_wait sha256hex hmac256hex celEnv cel_Compile OutputType
  cel_Program cel_PartialProgram Eval PartialEval).
Abbreviation obs_add_nats := (add_nats breaker b0 observed_wait sha256hex hmac256hex celEnv cel_Compile OutputType
  cel_Program cel_PartialProgram Eval PartialEval).
Abbreviation obs_add_meili := (add_meili breaker b0 observed_wait sha256hex hmac256hex celEnv cel_Compile OutputType
  cel_Program cel_PartialProgram Eval PartialEval).
Abbreviation obs_newSinks := (newSinks breaker b0 observed_wait sha256hex hmac256hex celEnv cel_Compile OutputType
  cel_Program cel_PartialProgram Eval PartialEval).

(** *** The blocks, for any property of their sinks

    [D] is what is known of the destinations' own sinks, [DQ] of the dead-letter queue
    they share; [Q] is what [addSink] establishes of a mirroring sink with given
    transforms, [QO] what the bare layers establish of the outbox's. *)
Record DestinationsAre (D : Sink W -> Prop) : Prop := {
  are_stream r s : keyed_resolver Parse (sc_RedisStream sinksCfg) (rd_StreamPrefix (Redis_LoadConfig env))
      DefaultStreamKeyPattern = inl r -> new_stream dest (Redis_LoadConfig env) r = inl s -> D s;
  are_json r s : keyed_resolver Parse (sc_RedisJSON sinksCfg) (rj_Prefix (RedisJSON_LoadConfig env))
      DefaultJSONKeyPattern = inl r -> new_json dest (RedisJSON_LoadConfig env) r = inl s -> D s;
  are_webhook : D (new_webhook dest (Webhook_LoadConfig env) (sc_Webhook sinksCfg));
  are_nats r : keyed_resolver Parse (sc_NATS sinksCfg) (na_SubjectPrefix (NATS_LoadConfig env))
      DefaultSubjectPattern = inl r -> D (new_nats dest (NATS_LoadConfig env) r);
  are_meili : D (new_meili dest (Meili_LoadConfig env) (sc_Meilisearch sinksCfg));
  are_outbox cfg r u s : new_outbox dest cfg r u = inl s -> D s;
}.
Lemma any_destinations : DestinationsAre (fun _ => True).
Proof. by split. Qed.

Section each_block.
Context (DQ : option (Store OBW * Manager OBW) -> Prop) (D : Sink W -> Prop).
Context (Q : option TransformSpec * gmap string TransformSpec -> Sink OGW -> Prop) (QO : Sink OGW -> Prop).
Hypothesis dest_D : DestinationsAre D.
Hypothesis add_Q : forall (sink : Sink W) global tables dlq sinks dlq' sinks',
  D sink -> DQ dlq -> add (obs_sink sink) global tables (dlq, sinks) = inl (dlq', sinks') ->
  DQ dlq' /\ exists s, sinks' = sinks ++ [s] /\ Q (global, tables) s.
Hypothesis wrap_Q : forall (sink : Sink W) dlq dlq' s,
  D sink -> DQ dlq -> wrap cfg (obs_sink sink) dlq = (dlq', s) -> QO s.

(** A block adds one such sink, or none when its destination is not configured. *)
Definition block_ok (on : bool) transforms (block : built -> res built) : Prop :=
  forall dlq sinks dlq' sinks', DQ dlq -> block (dlq, sinks) = inl (dlq', sinks') ->
  DQ dlq' /\ exists new, sinks' = sinks ++ new /\
    Forall2 Q (if on then [transforms] else []) new.

Lemma addSink_block sink global tables :
  D sink -> block_ok true (global, tables) (add (obs_sink sink) global tables).
Proof using dest_D add_Q.
  intros HD dlq sinks dlq' sinks' Hd H. destruct (add_Q _ _ _ _ _ _ _ HD Hd H) as (Hd' & s & -> & Hs).
  split; [exact Hd'|]. exists [s]. split; [done | by repeat constructor].
Qed.
Lemma skip_block transforms : block_ok false transforms inl.
Proof using Type. intros dlq sinks dlq' sinks' Hd [= <- <-]. split; [done|]. exists []. by rewrite app_nil_r. Qed.
Lemma fail_block on transforms e : block_ok on transforms (fun _ => inr e).
Proof using Type. intros ? ? ? ? _ [=]. Qed.

Lemma stream_block :
  block_ok (rd_Enabled (Redis_LoadConfig env)) (ks_Transform (sc_RedisStream sinksCfg), TableTransforms (sc_RedisStream sinksCfg))
    (obs_add_stream Parse env cfg sinksCfg (observed dest)).
Proof using dest_D add_Q.
  unfold add_stream. destruct (rd_Enabled _); [|apply skip_block].
  destruct (keyed_resolver _ _ _ _) as [r|] eqn:Hr; [|apply fail_block]. cbn.
  destruct (new_stream dest _ r) eqn:Hs; [by eapply addSink_block, are_stream | apply fail_block].
Qed.
Lemma json_block :
  block_ok (rj_Enabled (RedisJSON_LoadConfig env)) (ks_Transform (sc_RedisJSON sinksCfg), TableTransforms (sc_RedisJSON sinksCfg))
    (obs_add_json Parse env cfg sinksCfg (observed dest)).
Proof using dest_D add_Q.
  unfold add_json. destruct (rj_Enabled _); [|apply skip_block].
  destruct (keyed_resolver _ _ _ _) as [r|] eqn:Hr; [|apply fail_block]. cbn.
  destruct (new_json dest _ r) eqn:Hs; [by eapply addSink_block, are_json | apply fail_block].
Qed.
Lemma webhook_block :
  block_ok (wh_Enabled (Webhook_LoadConfig env)) (ks_Transform (sc_Webhook sinksCfg), TableTransforms (sc_Webhook sinksCfg))
    (obs_add_webhook env cfg sinksCfg (observed dest)).
Proof using dest_D add_Q. unfold add_webhook. destruct (wh_Enabled _); [by apply addSink_block, are_webhook | apply skip_block]. Qed.
Lemma nats_block :
  block_ok (na_Enabled (NATS_LoadConfig env)) (ks_Transform (sc_NATS sinksCfg), TableTransforms (sc_NATS sinksCfg))
    (obs_add_nats Parse env cfg sinksCfg (observed dest)).
Proof using dest_D add_Q.
  unfold add_nats. destruct (na_Enabled _); [|apply skip_block].
  destruct (keyed_resolver _ _ _ _) as [r|] eqn:Hr; [by apply addSink_block, are_nats | apply fail_block].
Qed.
Lemma meili_block :
  block_ok (me_Enabled (Meili_LoadConfig env))
    (ms_Transform (sc_Meilisearch sinksCfg), Meili_TableTransforms (sc_Meilisearch sinksCfg))
    (obs_add_meili env cfg sinksCfg (observed dest)).
Proof using dest_D add_Q. unfold add_meili. destruct (me_Enabled _); [by apply addSink_block, are_meili | apply skip_block]. Qed.

Lemma newSinks_blocks dlq dlq' sinks :
  DQ dlq ->
  obs_newSinks Parse env cfg sinksCfg (observed dest) NonReplicationURL dlq = inl (dlq', sinks) ->
  exists mirrors outbox, sinks = mirrors ++ outbox /\
    length outbox = (if Enabled (sc_Outbox sinksCfg) then 1 else 0) /\ Forall QO outbox /\
    Forall2 Q enabled_transforms mirrors.
Proof using dest_D add_Q wrap_Q.
  intros Hd H. unfold newSinks in H.
  destruct (obs_add_stream _ _ _ _ _ _) as [[d1 s1]|] eqn:E1; [|discriminate].
  destruct (obs_add_json _ _ _ _ _ _) as [[d2 s2]|] eqn:E2; [|discriminate].
  destruct (obs_add_webhook _ _ _ _ _) as [[d3 s3]|] eqn:E3; [|discriminate].
  destruct (obs_add_nats _ _ _ _ _ _) as [[d4 s4]|] eqn:E4; [|discriminate].
  destruct (obs_add_meili _ _ _ _ _) as [[d5 s5]|] eqn:E5; [|discriminate].
  apply stream_block in E1 as (Hd1 & n1 & -> & F1); [|done].
  apply json_block in E2 as (Hd2 & n2 & -> & F2); [|done].
  apply webhook_block in E3 as (Hd3 & n3 & -> & F3); [|done].
  apply nats_block in E4 as (Hd4 & n4 & -> & F4); [|done].
  apply meili_block in E5 as (Hd5 & n5 & -> & F5); [|done].
  assert (Hout : exists outbox, sinks = ((((([] ++ n1) ++ n2) ++ n3) ++ n4) ++ n5) ++ outbox /\
    length outbox = (if Enabled (sc_Outbox sinksCfg) then 1 else 0) /\ Forall QO outbox).
  { unfold add_outbox in H. destruct (Enabled _); [|injection H as _ <-; exists []; by rewrite app_nil_r].
    destruct (SchemaTable _). cbn in H. destruct (new_outbox _ _ _ _) as [ob|] eqn:Hob; [|discriminate].
    simpl in H. destruct (wrap cfg (obs_sink ob) d5) as [d6 s6] eqn:Hw. injection H as _ <-.
    exists [s6]. split_and!; [done..|]. constructor; [by eapply wrap_Q, Hw; [eapply are_outbox|] | constructor]. }
  destruct Hout as (outbox & -> & Hl & Ho). eexists _, outbox. split; [reflexivity|]. split_and!; [done..|].
  unfold enabled_transforms. rewrite app_nil_l, <- !app_assoc. by repeat apply Forall2_app.
Qed.
End each_block.

(** C9: Of everything the gateway hands to a mirroring destination or parks in its
    dead-letter queue - through retries, bisection and parking - every event is clean
    of the columns its transforms drop or mask, and none is of the outbox table.  There
    is one such sink per configured destination, in order, and the outbox's own. *)
Theorem destinations_see_only_admissible_events dlq dlq' sinks :
  dlq_observed dlq ->
  obs_newSinks Parse env cfg sinksCfg (observed dest) NonReplicationURL dlq = inl (dlq', sinks) ->
  exists mirrors outbox, sinks = mirrors ++ outbox /\
    length outbox = (if Enabled (sc_Outbox sinksCfg) then 1 else 0) /\
    Forall2 guarded enabled_transforms mirrors.
Proof.
  intros Hd H.
  destruct (newSinks_blocks dlq_observed (fun _ => True) guarded (fun _ => True) any_destinations
    (fun sink gl tb d l d' l' _ => addSink_guarded sink gl tb d l d' l') (fun _ _ _ _ _ _ _ => I) _ _ _ Hd H) as (mirrors & outbox & -> & Hl & _ & Hf). eauto.
Qed.
End blocks.
End observed.

(** ** Starting and stopping ([run]) *)
Section lifecycle.
Context {W : Type}.

(** What [run] drives; the coordinator is absent when backfill is off. *)
Record Parts := {
  p_coordinator : option (ST W unit * ST W unit);   (* Start and Close *)
  p_service_Start : ST W unit;                      (* in a goroutine *)
  p_server_Start : ST W unit;                       (* in a goroutine *)
  p_StartHealthMonitor : ST W (ST W unit);          (* returns its stop function *)
  p_cancel : ST W unit;
  p_service_Stop : ST W (option error);
  p_server_Stop : ST W (option error);
}.

(** What the goroutines do when their part returns: whether the process shuts down. *)
Definition service_exit (err : option error) : bool :=
  match err with None => false | Some e => negb (Is e Canceled) end.
Definition server_exit (err : option error) : bool := isSome err.

Definition OnStart (p : Parts) : ST W (ST W unit) :=
  seq! (match p_coordinator p with Some (start, _) => start | None => ret tt end) in
  seq! p_service_Start p in
  seq! p_server_Start p in
  p_StartHealthMonitor p.

(** [stopMonitor] is nil when [OnStart] has not run.  The server's error is logged, the
    service's is returned. *)
Definition OnStop (p : Parts) (stopMonitor : option (ST W unit)) : ST W (option error) :=
  seq! (match stopMonitor with Some stop => stop | None => ret tt end) in
  seq! p_cancel p in
  let! err := p_service_Stop p in
  seq! p_server_Stop p in
  seq! (match p_coordinator p with Some (_, close) => close | None => ret tt end) in
  ret err.
End lifecycle.

(** ** A loaded configuration gives every part usable settings *)
Section loaded.
Context {V : Validation} {L : ValidationLaws V}.

Lemma loaded_well_formed env cfg : Load env = inl cfg -> WellFormed cfg.
Proof. intros H. by apply load_well_formed in H as [_ H]. Qed.

(** With a configuration that loaded, a sink's success means that the destination
    accepted the whole batch (the retry loop is never empty), every attempt has a
    deadline, the dead-letter threshold, the backfill's chunk size and lanes and the
    reader's batch size are at least one, and the progress table's changes are in no
    batch a sink is given. *)
Theorem loaded_settings_are_usable env cfg {W} `{!World W} wait (sink : Sink W) c events w :
  Load env = inl cfg ->
  (let '(r, (log, _)) := processWithRetry (resilience_config cfg) (logged_wait wait) (logged sink) c events ([], w) in
   delivered log = match r with None => events | Some _ => [] end /\ log <> []) /\
  (Second <= AttemptTimeout (resilience_config cfg))%Z /\
  (forall NewStore store m, newDLQManager (W := W) NewStore env cfg = inl (Some (store, m)) ->
     1 <= m_threshold m /\ Second <= m_retryTimeout m)%Z /\
  (forall (DB : Type) NewDB sinksCfg (sinks : list (Sink W)) (db : DB) bc,
     newBackfillCoordinator NewDB cfg sinksCfg sinks = inl (Some (db, bc)) ->
     1 <= bf_ChunkSize bc /\ 1 <= bf_Lanes bc)%Z /\
  wr_maxBatchEvents (newWALReader cfg true) = Z.of_nat (maxBatch (wr_maxBatchEvents (newWALReader cfg true))) /\
  (forall e, e ∈ admit_events (service_excluded cfg) events -> bk_Mode (cfg_Backfill cfg) <> "off" ->
     bk_StateTable (cfg_Backfill cfg) <> "" -> Table e <> bk_StateTable (cfg_Backfill cfg)).
Proof.
  intros Hl. pose proof (loaded_well_formed _ _ Hl) as [].
  split; [|split; [|split; [|split; [|split]]]].
  - unfold processWithRetry. rewrite decide_False by (simpl; lia).
    destruct (retry_from_logged (resilience_config cfg) wait sink c events
      (Z.to_nat (MaxRetries (resilience_config cfg))) (InitialBackoff (resilience_config cfg)) [] w)
      as (cs & r & w' & -> & pre & -> & _ & Hf). simpl.
    split; [by rewrite (attempts_delivered events) | by destruct pre].
  - exact wf_process.
  - intros NewStore store m. unfold newDLQManager. destruct (_ || _); [discriminate|].
    destruct (NewStore _ _ _); [|discriminate]. intros [= _ <-]. simpl. unfold Second in *.
    split; destruct (decide _); lia.
  - intros DB NewDB sinksCfg sinks db bc. unfold newBackfillCoordinator. destruct (decide _); [discriminate|].
    destruct (NewDB _ _ _); [|discriminate]. intros [= _ <-]. simpl. unfold DefaultChunkSize, DefaultLanes.
    split; destruct (decide _); lia.
  - simpl. unfold maxBatch. rewrite decide_False by lia. lia.
  - intros e Hin Hm Hs. rewrite admit_filter in Hin. apply list_elem_of_filter in Hin as [Hx _].
    intros Ht. unfold service_excluded in Hx. rewrite decide_True in Hx by done.
    unfold isTableExcluded in Hx. rewrite Ht in Hx.
    rewrite decide_False in Hx by set_solver. rewrite decide_True in Hx by set_solver. discriminate Hx.
Qed.
End loaded.

(** ** A small gateway *)
Definition demo_env : Env := fun key =>
  if decide (key = "REDIS_URL") then "redis://localhost" else
  if decide (key = "WEBHOOK_URL") then "http://localhost" else "".
Definition demo_sinks : SinksConfig :=
  {| sc_RedisStream := {| SyncAll := true; DefaultKeyPattern := "";
       ks_Transform := Some {| spec_Filter := ""; spec_DropColumns := ["password"]; spec_Mask := {[ "email" := "redact" ]} |};
       ks_Tables := ∅ |};
     sc_RedisJSON := zero_keyed; sc_Meilisearch := {| ms_Transform := None; ms_Tables := ∅ |};
     sc_Webhook := {| SyncAll := true; DefaultKeyPattern := ""; ks_Transform := None; ks_Tables := ∅ |};
     sc_NATS := zero_keyed;
     sc_Outbox := applyDefaults {| ob_Table := "outbox"; ob_StreamPrefix := ""; ob_DefaultTopic := "";
       ob_DeleteAfterPublish := false; ob_Columns := ob_Columns zero_outbox |} |}.
Definition demo_destination (name : string) : Sink unit := constant_sink name (fun _ => None).
Definition demo_destinations : Destinations (W := unit) (Template := string) :=
  {| new_stream _ _ := inl (demo_destination "redis-stream"); new_json _ _ := inl (demo_destination "redis-json");
     new_webhook _ _ := demo_destination "webhook"; new_nats _ _ := demo_destination "nats";
     new_meili _ _ := demo_destination "meilisearch"; new_outbox _ _ _ := inl (demo_destination "outbox") |}.
Definition demo_wait (c : Ctx) (d : Z) : ST unit bool := ret false.
Definition demo_cel (prg : string) (_ : string * string * string * columns * columns) : res cel_value := inl (CBool true).
Definition demo_partial (prg : string) (_ : string * string * string) : res cel_value := inl CUnknown.
Definition demo_gateway (dlq : option (Store (gmap string bool * (list obs * unit)) *
                                       Manager (gmap string bool * (list obs * unit)))) :=
  newSinks toy_breaker false (observed_wait demo_wait) (fun s => s) (fun _ s => s) None (fun s => inl s)
    (fun _ => "bool") (fun s => inl s) (fun s => inl s) demo_cel demo_partial toy_Parse
    demo_env (read_config demo_env) demo_sinks (observed demo_destinations) (fun u => u) dlq.

(** Two mirrors and the outbox; a row is handed on without its password, masked, and
    the outbox's row is not. *)
Example demo_gateway_runs :
  match demo_gateway None with
  | inl (_, [redis; webhook; outbox]) =>
      gateway_log (Process redis Background
        [sample_event "1" "public" "users" OperationInsert None
           (Some {[ "id" := AInt 1; "email" := AStr "a@b"; "password" := AStr "x" ]});
         sample_event "2" "public" "outbox" OperationInsert None (Some {[ "id" := AInt 2 ]})]
        (NewManager 3 0, (∅, ([], tt)))).2 =
      [Called "redis-stream" [sample_event "1" "public" "users" OperationInsert None
                 (Some {[ "id" := AInt 1; "email" := AStr "[REDACTED]" ]})] None]
  | _ => False
  end.
Proof. vm_compute. reflexivity. Qed.

Lemma destinations_see_only_admissible_events_witness :
  exists dlq' sinks, demo_gateway None = inl (dlq', sinks) /\ length sinks = 3 /\
  exists mirrors outbox, sinks = mirrors ++ outbox /\ length outbox = 1 /\
    Forall2 (guarded (B := bool) (W := unit) (fun s => s) (fun _ s => s) (read_config demo_env) demo_sinks)
      (enabled_transforms demo_env demo_sinks) mirrors.
Proof.
  assert (Hl : match demo_gateway None with inl (_, s) => length s = 3 | inr _ => False end)
    by (vm_compute; reflexivity).
  destruct (demo_gateway None) as [[dlq' sinks]|e] eqn:E; [|destruct Hl].
  exists dlq', sinks. split; [reflexivity|]. split; [exact Hl|].
  eapply (destinations_see_only_admissible_events toy_breaker false demo_wait (fun s => s) (fun _ s => s)
      None (fun s => inl s) (fun _ => "bool") (fun s => inl s) (fun s => inl s) demo_cel demo_partial toy_Parse
      demo_env (read_config demo_env) demo_sinks demo_destinations (fun u => u) None); [exact I | exact E].
Defined.

Lemma loaded_settings_are_usable_witness :
  exists cfg, Load demo_env = inl cfg /\ (Second <= AttemptTimeout (resilience_config cfg))%Z /\
  (let '(r, (log, _)) := processWithRetry (resilience_config cfg) (logged_wait demo_wait)
     (logged (demo_destination "redis")) Background [sample_insert "1"] ([], tt) in
   delivered log = match r with None => [sample_insert "1"] | Some _ => [] end /\ log <> []).
Proof.
  assert (Hl : Load demo_env = inl (read_config demo_env)) by (vm_compute; reflexivity).
  exists (read_config demo_env). split; [exact Hl|].
  destruct (loaded_settings_are_usable demo_env (read_config demo_env) demo_wait (demo_destination "redis")
    Background [sample_insert "1"] tt Hl) as (H1 & H2 & _). split; assumption.
Defined.

(** ** Two settings that do not fit together *)
Definition zero_lanes_env : Env := fun key => if decide (key = "CDC_BACKFILL_CONCURRENCY") then "0" else "".

(** A concurrency of zero loads and means four lanes to the coordinator, but the pool
    those lanes share is sized for none: two connections instead of eight. *)
Lemma zero_concurrency_undersizes_the_pool :
  exists cfg, Load zero_lanes_env = inl cfg /\
  exists bc, newBackfillCoordinator (W := unit) (fun _ _ lanes => inl (pool_MaxConns lanes)) cfg demo_sinks [] =
    inl (Some (2%Z, bc)) /\ bf_Lanes bc = 4%Z /\ pool_MaxConns (bf_Lanes bc) = 8%Z.
Proof.
  exists (read_config zero_lanes_env). split; [vm_compute; reflexivity|].
  eexists. split; [reflexivity|]. split; vm_compute; reflexivity.
Qed.

(** With the defaults the initial backfill queues its own progress table when the
    publication has it, although every row it reads is then left out of the batches. *)
Lemma backfill_reads_its_own_progress :
  exists cfg, Load no_env = inl cfg /\
  exists bc, newBackfillCoordinator (W := unit) (fun _ _ _ => inl tt) cfg zero_sinks
      [demo_destination "redis"] = inl (Some (tt, bc)) /\
  enqueue_candidates bc [("public", "gtc_backfill_state")] NewCoordinator =
    [{| tr_Schema := "public"; tr_Table := "gtc_backfill_state" |}] /\
  admit_events (service_excluded cfg)
    [sample_event "1" "public" "gtc_backfill_state" OperationRead None None] = [].
Proof.
  exists (read_config no_env). split; [vm_compute; reflexivity|].
  eexists. split; [reflexivity|]. split; vm_compute; reflexivity.
Qed.

(** ** The command line (src/cmd/gateway/main.go) *)
Inductive log_level := LevelDebug | LevelInfo | LevelWarn | LevelError.

Definition upper_char (c : ascii) : ascii :=
  let n := nat_of_ascii c in if decide (97 <= n <= 122) then ascii_of_nat (n - 32) else c.
Fixpoint ToUpper (s : string) : string :=
  match s with EmptyString => EmptyString | String c rest => String (upper_char c) (ToUpper rest) end.

Definition newLogger (env : Env) : log_level :=
  let level := ToUpper (env "LOG_LEVEL") in
  if decide (level = "DEBUG") then LevelDebug
  else if decide (level = "WARN") then LevelWarn
  else if decide (level = "ERROR") then LevelError
  else LevelInfo.

(** What the process does with its arguments: print and return, check and exit with
    the doctor's code, or run the gateway; the .env file is read in between. *)
Inductive action := PrintVersion (text : string) | Exit (code : Z) | Serve (level : log_level).

Definition main_action (version : string) (godotenv : Env -> Env) (doctor : Env -> Z) (args : list string) (env : Env)
    : action :=
  if existsb (fun arg => bool_decide (arg = "--version") || bool_decide (arg = "-v")) args
  then PrintVersion ("gtc " +:+ version)
  else
    let env := godotenv env in
    match args with
    | first :: _ => if decide (first = "doctor") then Exit (doctor env) else Serve (newLogger env)
    | [] => Serve (newLogger env)
    end.

(** Only the word doctor in the first place starts the checks, and asking for the
    version in any place wins over everything. *)
Lemma main_dispatch version godotenv doctor args env :
  match main_action version godotenv doctor args env with
  | PrintVersion t => t = ("gtc " +:+ version)%string /\ ("--version" ∈ args \/ "-v" ∈ args)
  | Exit code => head args = Some "doctor" /\ code = doctor (godotenv env) /\ ("--version" ∉ args) /\ ("-v" ∉ args)
  | Serve l => head args <> Some "doctor" /\ l = newLogger (godotenv env)
  end.
Proof.
  unfold main_action. destruct (existsb _ args) eqn:He.
  - apply existsb_exists in He as (a & Hin & Ha). apply list_elem_of_In in Hin.
    apply orb_true_iff in Ha as [<-%bool_decide_eq_true|<-%bool_decide_eq_true]; auto.
  - assert (Hno : ("--version" ∉ args) /\ ("-v" ∉ args)).
    { split; intros Hin; apply list_elem_of_In in Hin; apply not_true_iff_false in He; apply He, existsb_exists;
        eexists; (split; [exact Hin|]); done. }
    destruct args as [|first rest]; [done|]. destruct (decide (first = "doctor")) as [->|Hn]; [naive_solver|].
    split; [|done]. simpl. congruence.
Qed.
