(* ===== verification/Assembly.v ===== *)
(** * The assembled sinks account for every event
      (the layers [newSinks] of src/cmd/gateway/modules.go puts around a destination)

    [Gateway] shows that a destination is given nothing it must not see; here is the
    converse: nothing it must see is lost between the service and the destination.
    Around a destination come retries with a circuit breaker, the dead-letter queue, the
    transforms and the exclusion of the outbox table.  A batch the assembled sink accepts
    is exactly, in order, what the destination accepted and what was parked, once the
    outbox's rows and those a filter drops are left out and the rest is transformed. *)

From Stdlib Require Import ZArith Lia Ascii String.
From stdpp Require Import base list gmap strings pretty.
From S2P Require Import Prelude Domain DeadLetter Resilience Transform RedisSinks Service Config Gateway.

Open Scope go_scope.
Set Warnings "-clear-no-such-hyp".
Set Default Proof Using "Type".

(** A sink that, of a batch, accounts for [f] of it. *)
Definition sink_accounts {W} (lg : W -> list obs) (f : list CDCEvent -> list CDCEvent) (s : Sink W) : Prop :=
  forall c events, accounts_for lg (Process s c events) (f events).

(** ** Layer by layer *)
Section layers.
Context {W : Type} `{!World W} (lg : W -> list obs).

Lemma whole_accounts (s : Sink W) : whole_sink lg s -> sink_accounts lg (fun l => l) s.
Proof.
  intros Hs c events w r w' H. destruct (Hs _ _ _ _ _ H) as (new & E & Hacc). exists new. split; [done|].
  destruct r; simpl; rewrite Hacc; [apply prefix_nil | done].
Qed.

Lemma takes_whole_inner {S} m events :
  takes_whole lg m events -> takes_whole (fun sw : S * W => lg sw.2) (inner m) events.
Proof.
  intros Hm [s w] r [s' w'] H. unfold inner in H. destruct (m w) as [a w1] eqn:E. injection H as <- <- <-.
  exact (Hm _ _ _ E).
Qed.

(** A retried batch is taken whole by the attempt that succeeds, or not at all. *)
Lemma retry_whole cfg wait (s : Sink W) c events left backoff :
  (forall c d w, lg (wait c d w).2 = lg w) -> whole_sink lg s ->
  takes_whole lg (retry_from cfg wait s c events left backoff) events.
Proof.
  intros Hwait Hs. revert backoff. induction left as [|left IH]; intros backoff w r w' H;
    simpl in H; unfold bind in H at 1.
  all: assert (Ha : takes_whole lg (attempt cfg s c events) events)
    by (unfold attempt; destruct (decide _); [apply Hs | intros w0; apply (Hs _ _ w0)]).
  all: destruct (attempt cfg s c events w) as [[e|] w1] eqn:Hat; destruct (Ha _ _ _ Hat) as (new & E & Hacc).
  all: try (injection H as <- <-; exists new; done).
  unfold bind, get in H. destruct (_ || _); [injection H as <- <-; exists new; done|].
  pose proof (Hwait c backoff w1) as Hw. destruct (wait c backoff w1) as [[] w2]; simpl in Hw.
  - injection H as <- <-. exists new. split; [congruence | done].
  - destruct (IH _ _ _ _ H) as (new2 & E2 & Hacc2). exists (new ++ new2).
    rewrite E2, Hw, E, accepted_app, Hacc, app_assoc. done.
Qed.

Lemma resilient_whole {B G} (breaker : Breaker B G) cfg wait (s : Sink W) :
  (0 <= MaxRetries cfg)%Z -> (forall c d w, lg (wait c d w).2 = lg w) -> whole_sink lg s ->
  whole_sink (fun bw : B * W => lg bw.2) (ResilientSink breaker cfg wait s).
Proof.
  intros Hm Hwait Hs c events [b w] r [b' w'] H. simpl in H. unfold Resilient_Process in H.
  destruct events as [|e events]; [injection H as <- <- <-; exists []; by rewrite app_nil_r|].
  unfold bind, Execute in H. destruct (beforeRequest breaker (now w) b) as [[g|er] b1].
  - unfold processWithRetry in H. rewrite decide_False in H by lia.
    destruct (retry_from cfg wait s c (e :: events) _ _ w) as [r0 w0] eqn:Hr.
    destruct (retry_whole _ _ _ _ _ _ _ Hwait Hs _ _ _ Hr) as (new & E & Hacc). exists new.
    destruct r0 as [e0|]; [destruct (_ || _)|]; injection H as <- <- <-; simpl; done.
  - exists []. destruct (_ || _); injection H as <- <- <-; simpl; by rewrite app_nil_r.
Qed.

Lemma breaker_whole {B} (b0 : B) (s : Sink (B * W)) :
  whole_sink (fun bw => lg bw.2) s -> whole_sink (fun bw => lg bw.2) (breaker_sink b0 s).
Proof.
  intros Hs c events [bs w] r [bs' w'] H. simpl in H. unfold at_breaker in H.
  destruct (Process s c events _) as [a [b1 w1]] eqn:E. injection H as <- <- <-. exact (Hs _ _ _ _ _ E).
Qed.

Lemma inner_sink_accounts {S} f (s : Sink W) :
  sink_accounts lg f s -> sink_accounts (fun sw : S * W => lg sw.2) f (inner_sink s).
Proof.
  intros Hs c events [x w] r [x' w'] H. simpl in H. unfold inner in H.
  destruct (Process s c events w) as [a w1] eqn:E. injection H as <- <- <-. exact (Hs _ _ _ _ _ E).
Qed.

Lemma dlq_sink_accounts (store : Store W) (s : Sink W) :
  whole_store lg (Name s) store -> whole_sink lg s ->
  sink_accounts (fun mw : Manager W * W => lg mw.2) (fun l => l) (DLQ_Sink store s).
Proof. intros Hst Hs c events. by apply process_accounts. Qed.

Lemma exclude_accounts f schema table (s : Sink W) :
  f [] = [] -> sink_accounts lg f s ->
  sink_accounts lg (fun l => f (filter (fun e => excluded schema table e = false) l)) (ExcludeTable schema table s).
Proof.
  intros Hnil Hs c events. simpl. unfold Exclude_Process. rewrite exclude_filter.
  destruct (filter _ events); [rewrite Hnil; apply accounts_for_nil | apply Hs].
Qed.

(** What a sink's transforms let through of a batch. *)
Definition survivor {Program} (Eval : Program -> string * string * string * columns * columns -> res cel_value)
    (t : transform_sink) (e : CDCEvent) : option CDCEvent :=
  match transform_event Eval t e with (e', true, None) => Some e' | _ => None end.

Lemma transform_batch_survivors {Program} Eval (t : transform_sink (Program := Program)) events out :
  transform_batch Eval t events = inl out -> out = omap (survivor Eval t) events.
Proof.
  revert out. induction events as [|e events IH]; intros out; [by intros [= <-]|].
  change (omap (survivor Eval t) (e :: events)) with
    (match survivor Eval t e with Some y => y :: omap (survivor Eval t) events | None => omap (survivor Eval t) events end).
  cbn [transform_batch]. unfold survivor at 1. destruct (transform_event Eval t e) as [[e' keep] [err|]]; [discriminate|].
  destruct (transform_batch Eval t events) as [rest|]; [|discriminate]. intros [= <-].
  rewrite <- (IH rest eq_refl). by destruct keep.
Qed.

Lemma transform_accounts {Program} Eval PartialEval (t : transform_sink (Program := Program)) (s : Sink W) :
  sink_accounts lg (fun l => l) s -> sink_accounts lg (omap (survivor Eval t)) (TransformSink Eval PartialEval t s).
Proof.
  intros Hs c events. simpl. unfold transform_Process. destruct (transform_batch Eval t events) as [out|err] eqn:Hb.
  - rewrite <- (transform_batch_survivors _ _ _ _ Hb). destruct out; [apply accounts_for_nil | apply Hs].
  - intros w r w' [= <- <-]. exists []. rewrite app_nil_r. split; [done | apply prefix_nil].
Qed.
End layers.

(** ** The transforming layer as [NewSink] builds it *)
Section new_sink.
Context (sha256hex : string -> string) (hmac256hex : string -> string -> string) (key : string).
Context {Ast Program : Type} (celEnv : option error) (cel_Compile : string -> res Ast) (OutputType : Ast -> string).
Context (cel_Program cel_PartialProgram : Ast -> res Program).
Context (Eval : Program -> string * string * string * columns * columns -> res cel_value).
Context (PartialEval : Program -> string * string * string -> res cel_value).
Context (global : option TransformSpec) (tables : gmap string TransformSpec).

Abbreviation is_compiled := (compiled sha256hex hmac256hex key celEnv cel_Compile OutputType cel_Program
                               cel_PartialProgram global tables).

Lemma survivor_idle (l : list CDCEvent) :
  omap (survivor (Program := Program) Eval {| ts_global := None; ts_tables := ∅ |}) l = l.
Proof.
  set (f := survivor _ _). induction l as [|e l IH]; [done|].
  change (omap f (e :: l)) with (match f e with Some y => y :: omap f l | None => omap f l end).
  rewrite IH. unfold f, survivor, transform_event, tableChain. simpl. by rewrite !lookup_empty.
Qed.

Lemma new_sink_accounts {W} (lg : W -> list obs) (inner s : Sink W) :
  NewSink sha256hex hmac256hex celEnv cel_Compile OutputType cel_Program cel_PartialProgram Eval PartialEval
    inner key global tables = inl s ->
  sink_accounts lg (fun l => l) inner ->
  Name s = Name inner /\ exists t, is_compiled t /\ sink_accounts lg (omap (survivor Eval t)) s.
Proof.
  unfold NewSink. intros H Hin.
  destruct (match global with None => _ | Some _ => _ end) as [chain|] eqn:Hg; [|discriminate].
  destruct (compile_tables _ _ _ _ _ _ _ _ _ _) as [m|] eqn:Hm; [|discriminate].
  split; [destruct (negb _ && _); by injection H as <-|].
  exists {| ts_global := chain; ts_tables := m |}. split.
  { split; [destruct global; simpl; congruence|]. intros name. simpl.
    pose proof (compile_tables_lookup _ _ _ _ _ _ _ _ _ _ _ (NoDup_fst_map_to_list tables) Hm name) as Hl.
    by rewrite list_to_map_to_list in Hl. }
  destruct (negb _ && _) eqn:Hidle; injection H as <-; [|by apply transform_accounts].
  apply andb_true_iff in Hidle as [Hn He]. apply bool_decide_eq_true, dom_empty_inv_L in He as ->.
  destruct chain; [discriminate|]. intros c events. rewrite survivor_idle. apply Hin.
Qed.
End new_sink.

(** ** The sinks of a gateway *)
Section gateway.
Context {B G W : Type} `{!World W} (breaker : Breaker B G) (b0 : B) (wait : Ctx -> Z -> ST W bool).
Context (sha256hex : string -> string) (hmac256hex : string -> string -> string).
Context {Ast Program : Type} (celEnv : option error) (cel_Compile : string -> res Ast) (OutputType : Ast -> string).
Context (cel_Program cel_PartialProgram : Ast -> res Program).
Context (Eval : Program -> string * string * string * columns * columns -> res cel_value).
Context (PartialEval : Program -> string * string * string -> res cel_value).
Context {Template : Type} (Parse : string -> res Template).
Context (env : Env) (cfg : Config) (sinksCfg : SinksConfig) (dest : Destinations (W := W) (Template := Template)).
Context (NonReplicationURL : string -> string).

Abbreviation OW := (list obs * W)%type.
Abbreviation OBW := (gmap string B * OW)%type.
Abbreviation OGW := (Manager OBW * OBW)%type.
Abbreviation wrap := (wrapResilienceAndDLQ breaker b0 (observed_wait wait)).
Abbreviation is_compiled := (compiled sha256hex hmac256hex (cfg_MaskHMACKey cfg) celEnv cel_Compile OutputType
                               cel_Program cel_PartialProgram).

Hypothesis retries_nonnegative : (0 <= rc_MaxRetries (cfg_Resilience cfg))%Z.

Lemma inner_store_whole {S X} (lg : X -> list obs) name (st : Store X) :
  whole_store lg name st -> whole_store (fun sx : S * X => lg sx.2) name (inner_store st).
Proof.
  intros [Hp Hl]. split.
  - intros c entry Hn. by apply takes_whole_inner, Hp.
  - intros c [s x]. simpl. unfold inner. specialize (Hl c x). by destruct (st_Len st c x).
Qed.

(** What the gateway's log says of one sink: what its destination was given and
    answered, and what was parked for it. *)
Definition sink_log (name : string) (w : OGW) : list obs := of_sink name (gateway_log w).

(** Retries, breaker and dead-letter queue around a destination. *)
Lemma wrap_accounts (sink : Sink W) dlq dlq' s :
  dlq_observed dlq -> wrap cfg (obs_sink sink) dlq = (dlq', s) ->
  Name s = Name sink /\ sink_accounts (sink_log (Name sink)) (fun l => l) s.
Proof using retries_nonnegative.
  intros Hd Hw. unfold wrapResilienceAndDLQ in Hw. set (n := Name sink).
  assert (Hb : whole_sink (fun bw : OBW => of_sink n bw.2.1)
    (breaker_sink b0 (ResilientSink breaker (resilience_config cfg) (observed_wait wait) (obs_sink sink)))).
  { apply (breaker_whole (fun w => of_sink n w.1)). apply (resilient_whole (fun w => of_sink n w.1));
      [done | | apply obs_sink_whole, logs_own].
    intros c d [log w]. unfold observed_wait, inner. by destruct (wait c d w). }
  destruct dlq as [[store m]|].
  - destruct Hd as [st ->]. injection Hw as <- <-. split; [done|].
    apply (dlq_sink_accounts (fun bw : OBW => of_sink n bw.2.1));
      [apply (inner_store_whole (fun w => of_sink n w.1)), obs_store_whole, logs_own | exact Hb].
  - injection Hw as <- <-. split; [done|].
    apply (inner_sink_accounts (fun bw : OBW => of_sink n bw.2.1)). by apply whole_accounts.
Qed.

(** What a mirroring destination is to get for an event of the service: nothing for a
    row of the outbox table or one its transforms drop, else the rewritten event. *)
Definition wanted (t : transform_sink (Program := Program)) (e : CDCEvent) : option CDCEvent :=
  let '(schema, table) := SchemaTable (sc_Outbox sinksCfg) in
  if Enabled (sc_Outbox sinksCfg) && excluded schema table e then None else survivor Eval t e.

(** The sink loses nothing: of a batch, its destination and its dead letters together
    account for what is wanted of every event, through transforms compiled from these
    specs. *)
Definition complete (transforms : option TransformSpec * gmap string TransformSpec) (s : Sink OGW) : Prop :=
  exists t, is_compiled transforms.1 transforms.2 t /\ sink_accounts (sink_log (Name s)) (omap (wanted t)) s.
Definition complete_outbox (s : Sink OGW) : Prop := sink_accounts (sink_log (Name s)) (fun l => l) s.

Lemma omap_ext_all {A C} (f g : A -> option C) (l : list A) : (forall x, f x = g x) -> omap f l = omap g l.
Proof using Type.
  intros H. induction l as [|x l IH]; [done|]. cbn [omap list_omap] in *. rewrite <- H.
  destruct (f x); [f_equal|]; exact IH.
Qed.

Lemma wanted_filter t (l : list CDCEvent) :
  omap (wanted t) l =
    omap (survivor Eval t)
      (let '(schema, table) := SchemaTable (sc_Outbox sinksCfg) in
       if Enabled (sc_Outbox sinksCfg) then filter (fun e => excluded schema table e = false) l else l).
Proof using Type.
  unfold wanted. destruct (SchemaTable _) as [sc tb]. destruct (Enabled _); [|by apply omap_ext_all].
  induction l as [|e l IH]; [done|]. rewrite filter_cons. cbn [andb] in *.
  destruct (excluded sc tb e) eqn:He; [rewrite decide_False by done | rewrite decide_True by done];
    cbn [omap list_omap] in *; rewrite He.
  - exact IH.
  - destruct (survivor Eval t e); [f_equal|]; exact IH.
Qed.

Lemma addSink_complete (sink : Sink W) global tables dlq sinks dlq' sinks' :
  dlq_observed dlq ->
  addSink breaker b0 (observed_wait wait) sha256hex hmac256hex celEnv cel_Compile OutputType cel_Program
    cel_PartialProgram Eval PartialEval cfg (sc_Outbox sinksCfg) (obs_sink sink) global tables (dlq, sinks)
    = inl (dlq', sinks') ->
  dlq_observed dlq' /\ exists s, sinks' = sinks ++ [s] /\ complete (global, tables) s.
Proof using retries_nonnegative.
  intros Hd H. unfold addSink in H. destruct (wrap cfg (obs_sink sink) dlq) as [dlq1 s] eqn:Hw.
  destruct (wrap_accounts _ _ _ _ Hd Hw) as [Hname Hacc]. rewrite <- Hname in Hacc.
  pose proof (wrap_observed breaker b0 wait _ _ _ _ _ Hd Hw) as Hd'.
  destruct (NewSink _ _ _ _ _ _ _ _ _ s _ _ _) as [wrapped|] eqn:Hn; [|discriminate].
  destruct (new_sink_accounts _ _ _ _ _ _ _ _ _ _ _ _ (sink_log (Name s)) _ _ Hn Hacc) as (Hname' & t & Ht & Hs).
  destruct (SchemaTable (sc_Outbox sinksCfg)) as [sc tb] eqn:Hst. injection H as <- <-.
  split; [done|]. eexists. split; [reflexivity|]. exists t. split; [done|]. intros c events.
  rewrite wanted_filter, Hst. destruct (Enabled (sc_Outbox sinksCfg)).
  - simpl Name. rewrite Hname'. by apply (exclude_accounts (sink_log (Name s)) (omap (survivor Eval t))).
  - rewrite Hname'. apply Hs.
Qed.

Lemma wrap_complete (sink : Sink W) dlq dlq' s :
  dlq_observed dlq -> wrap cfg (obs_sink sink) dlq = (dlq', s) -> complete_outbox s.
Proof using retries_nonnegative.
  intros Hd Hw. destruct (wrap_accounts _ _ _ _ Hd Hw) as [Hn Hs]. unfold complete_outbox. by rewrite Hn.
Qed.

(** C8: Nothing is lost between the service and a destination.  In the gateway built
    from a configuration with a non-negative retry count there is, in order, one sink
    per configured destination and the outbox's; when such a sink accepts a batch, then
    across its retries, its circuit breaker, the bisection of its dead-letter queue and
    its transforms, what its destination accepted and what was parked under its name
    is exactly, once and in order, the batch's events that are not of the outbox table and that the
    transforms, compiled from the destination's own specs, keep, as they rewrite them;
    and when it fails, an initial segment of those. *)
Theorem assembled_sinks_lose_nothing dlq dlq' sinks :
  dlq_observed dlq ->
  newSinks breaker b0 (observed_wait wait) sha256hex hmac256hex celEnv cel_Compile OutputType cel_Program
    cel_PartialProgram Eval PartialEval Parse env cfg sinksCfg (observed dest) NonReplicationURL dlq
    = inl (dlq', sinks) ->
  exists mirrors outbox, sinks = mirrors ++ outbox /\
    length outbox = (if Enabled (sc_Outbox sinksCfg) then 1 else 0) /\
    Forall complete_outbox outbox /\
    Forall2 complete (enabled_transforms env sinksCfg) mirrors.
Proof using retries_nonnegative.
  intros Hd H.
  exact (newSinks_blocks breaker b0 wait sha256hex hmac256hex celEnv cel_Compile OutputType cel_Program
    cel_PartialProgram Eval PartialEval Parse env cfg sinksCfg dest NonReplicationURL dlq_observed
    (fun _ => True) complete complete_outbox (any_destinations _ _ _ _)
    (fun sink gl tb d l d' l' _ => addSink_complete sink gl tb d l d' l')
    (fun sink d d' s _ => wrap_complete sink d d' s) _ _ _ Hd H).
Qed.
End gateway.

(** The gateway of [Gateway]'s example, with a dead-letter queue. *)
Definition demo_dlq : Store (gmap string bool * (list obs * unit)) * Manager (gmap string bool * (list obs * unit)) :=
  (inner_store (obs_store open_store), NewManager 3 0).

Lemma assembled_sinks_lose_nothing_witness :
  exists dlq' sinks, demo_gateway (Some demo_dlq) = inl (dlq', sinks) /\ length sinks = 3 /\
  exists mirrors outbox, sinks = mirrors ++ outbox /\ length outbox = 1 /\
    Forall (complete_outbox (B := bool) (W := unit)) outbox.
Proof.
  assert (Hl : match demo_gateway (Some demo_dlq) with inl (_, s) => length s = 3 | inr _ => False end)
    by (vm_compute; reflexivity).
  destruct (demo_gateway (Some demo_dlq)) as [[dlq' sinks]|e] eqn:E; [|destruct Hl].
  exists dlq', sinks. split; [reflexivity|]. split; [exact Hl|].
  destruct (assembled_sinks_lose_nothing toy_breaker false demo_wait (fun s => s) (fun _ s => s)
      None (fun s => inl s) (fun _ => "bool") (fun s => inl s) (fun s => inl s) demo_cel demo_partial toy_Parse
      demo_env (read_config demo_env) demo_sinks demo_destinations (fun u => u)
      ltac:(vm_compute; discriminate) (Some demo_dlq) dlq' sinks) as (mirrors & outbox & H1 & H2 & H3 & _).
  - by exists open_store.
  - exact E.
  - exists mirrors, outbox. split_and!; [exact H1 | exact H2 | exact H3].
Defined.
