(* ===== verification/Metrics.v ===== *)
(** * Metrics and what is read back from them
      (src/internal/infrastructure/metrics/metrics.go, server/history.go and server/stats.go)

    The metric vectors with their label names, the families the Prometheus registry
    gathers (a parameter, as data), the sampler's ring of history points, and the
    aggregation behind /api/stats.  Counter and gauge values are whole numbers here:
    the code only adds counts and byte differences, which a float64 holds exactly below
    2^53. *)

From Stdlib Require Import ZArith Lia Ascii String Sorting.
From stdpp Require Import base list gmap strings pretty sorting.
From S2P Require Import Prelude Domain SchemaChange Decoder Reader Backfill.

Open Scope go_scope.
Set Warnings "-clear-no-such-hyp".

(** ** The metric vectors *)
Inductive metric_kind := Counter | Gauge | Histogram.
Record metric_vec := { mv_namespace : string; mv_name : string; mv_kind : metric_kind; mv_labels : list string }.
Definition cdc (kind : metric_kind) (name : string) (labels : list string) : metric_vec :=
  {| mv_namespace := "cdc"; mv_name := name; mv_kind := kind; mv_labels := labels |}.
(** The name a vector is gathered under. *)
Definition fq_name (m : metric_vec) : string := (mv_namespace m +:+ "_" +:+ mv_name m)%string.

Definition EventsReceived := cdc Counter "events_received_total" ["schema"; "table"; "operation"].
Definition EventsProcessed := cdc Counter "events_processed_total" ["sink"; "status"].
Definition SinkBatchDuration := cdc Histogram "sink_batch_duration_seconds" ["sink"].
Definition BatchSize := cdc Histogram "batch_events" [].
Definition SinkErrors := cdc Counter "sink_errors_total" ["sink"; "error_type"].
Definition CircuitBreakerState := cdc Gauge "circuit_breaker_state" ["sink"].
Definition WALLagBytes := cdc Gauge "wal_lag_bytes" [].
Definition ActiveSinks := cdc Gauge "active_sinks" [].
Definition RetryAttempts := cdc Counter "retry_attempts_total" ["sink"].
Definition EventsExcluded := cdc Counter "events_excluded_total" ["schema"; "table"].
Definition InFlightEvents := cdc Gauge "inflight_events" [].
Definition LastProcessedLSN := cdc Gauge "last_processed_lsn" [].
Definition EventsFiltered := cdc Counter "events_filtered_total" ["sink"; "schema"; "table"].
Definition BackfillRowsTotal := cdc Counter "backfill_rows_total" ["schema"; "table"].
Definition DLQEntries := cdc Gauge "dlq_entries" [].
Definition DLQParkedTotal := cdc Counter "dlq_parked_total" ["sink"].
Definition DLQRetriedTotal := cdc Counter "dlq_retried_total" ["sink"; "status"].
Definition SchemaChangesTotal := cdc Counter "schema_changes_total" ["schema"; "table"; "kind"].
Definition SchemaPublishErrors := cdc Counter "schema_publish_errors_total" ["target"].

(** ** Gathered families *)
Record Metric := { me_labels : list (string * string); me_counter : option Z; me_gauge : option Z }.
Record MetricFamily := { fam_name : string; fam_metrics : list Metric }.

(** The labels as a map; a later label of the same name wins. *)
Definition labelMap (m : Metric) : gmap string string :=
  foldl (fun out l => <[l.1 := l.2]> out) ∅ (me_labels m).
Definition label (m : Metric) (name : string) : string := default "" (labelMap m !! name).

Definition metricValue (m : Metric) : Z :=
  match me_counter m with Some v => v | None => default 0%Z (me_gauge m) end.

Definition singleValue (fam : MetricFamily) : Z :=
  match fam_metrics fam with [] => 0 | m :: _ => metricValue m end.

Definition sum_values (ms : list Metric) : Z := foldl (fun acc m => acc + metricValue m)%Z 0%Z ms.

(** ** The sampler *)
Record sample := { sm_T : Z; sm_EventsTotal : Z; sm_WALLagBytes : Z; sm_Inflight : Z; sm_DLQEntries : Z }.
Definition samplerInterval : Z := 5 * 1000000000.
Definition samplerCapacity : nat := 360.
Record sampler := { sp_samples : list sample; sp_stopped : bool }.
Definition newSampler : sampler := {| sp_samples := []; sp_stopped := false |}.

(** One family into the point being built. *)
Definition collect_family (point : sample) (fam : MetricFamily) : sample :=
  if decide (fam_name fam = "cdc_events_received_total") then
    {| sm_T := sm_T point;
       sm_EventsTotal := foldl (fun acc m => acc + metricValue m)%Z (sm_EventsTotal point) (fam_metrics fam);
       sm_WALLagBytes := sm_WALLagBytes point; sm_Inflight := sm_Inflight point; sm_DLQEntries := sm_DLQEntries point |}
  else if decide (fam_name fam = "cdc_wal_lag_bytes") then
    {| sm_T := sm_T point; sm_EventsTotal := sm_EventsTotal point; sm_WALLagBytes := singleValue fam;
       sm_Inflight := sm_Inflight point; sm_DLQEntries := sm_DLQEntries point |}
  else if decide (fam_name fam = "cdc_inflight_events") then
    {| sm_T := sm_T point; sm_EventsTotal := sm_EventsTotal point; sm_WALLagBytes := sm_WALLagBytes point;
       sm_Inflight := singleValue fam; sm_DLQEntries := sm_DLQEntries point |}
  else if decide (fam_name fam = "cdc_dlq_entries") then
    {| sm_T := sm_T point; sm_EventsTotal := sm_EventsTotal point; sm_WALLagBytes := sm_WALLagBytes point;
       sm_Inflight := sm_Inflight point; sm_DLQEntries := singleValue fam |}
  else point.

Definition sample_of (unixMilli : Z) (families : list MetricFamily) : sample :=
  foldl collect_family
    {| sm_T := unixMilli; sm_EventsTotal := 0; sm_WALLagBytes := 0; sm_Inflight := 0; sm_DLQEntries := 0 |}
    families.

(** [collect]: nothing when gathering fails. *)
Definition collect (unixMilli : Z) (gathered : res (list MetricFamily)) (s : sampler) : sampler :=
  match gathered with
  | inr _ => s
  | inl families =>
      let samples := sp_samples s ++ [sample_of unixMilli families] in
      {| sp_samples := if decide (samplerCapacity < length samples)
                       then drop (length samples - samplerCapacity) samples else samples;
         sp_stopped := sp_stopped s |}
  end.
Definition snapshot (s : sampler) : list sample := sp_samples s.

(** [run]: a collection at once and one per tick, until [close]. *)
Inductive sampler_event := Tick (unixMilli : Z) (gathered : res (list MetricFamily)) | Stop.
Definition sampler_step (s : sampler) (e : sampler_event) : sampler :=
  if sp_stopped s then s
  else match e with
       | Tick t g => collect t g s
       | Stop => {| sp_samples := sp_samples s; sp_stopped := true |}
       end.
Definition sampler_run (events : list sampler_event) : sampler := foldl sampler_step newSampler events.

(** The points of the ticks up to the stop. *)
Fixpoint points (events : list sampler_event) : list sample :=
  match events with
  | [] => []
  | Stop :: _ => []
  | Tick t (inl fams) :: rest => sample_of t fams :: points rest
  | Tick _ (inr _) :: rest => points rest
  end.

Lemma sampler_run_spec events s acc :
  sp_stopped s = false -> sp_samples s = keep_last samplerCapacity acc ->
  sp_samples (foldl sampler_step s events) = keep_last samplerCapacity (acc ++ points events).
Proof.
  revert s acc. induction events as [|e events IH]; intros s acc Hs Ha; simpl; [by rewrite app_nil_r|].
  unfold sampler_step at 2. rewrite Hs. destruct e as [t [fams|err]|].
  - assert (Happ : acc ++ points (Tick t (inl fams) :: events) = (acc ++ [sample_of t fams]) ++ points events)
      by (by rewrite <- app_assoc). simpl in Happ |- *. rewrite Happ. apply IH; [done|].
    simpl. rewrite Ha. apply (keep_last_snoc samplerCapacity).
  - by apply IH.
  - rewrite app_nil_r, <- Ha. clear. induction events as [|e events IH]; [done|]. exact IH.
Qed.

(** Whatever ticks, gathering failures and stop the sampler sees, its history is
    the most recent 360 of the points collected before the stop, oldest first: nothing
    is reordered, dropped in between or collected afterwards. *)
Theorem history_is_the_latest_samples events :
  snapshot (sampler_run events) = keep_last samplerCapacity (points events) /\
  length (snapshot (sampler_run events)) <= 360.
Proof.
  unfold snapshot, sampler_run. rewrite (sampler_run_spec events newSampler []) by done.
  split; [done|]. apply keep_last_length.
Qed.

(** ** The statistics document *)
Record sinkStats := {
  ss_Name : string; ss_Healthy : bool; ss_BreakerState : Z; ss_Succeeded : Z; ss_Failed : Z;
  ss_Filtered : Z; ss_Retries : Z; ss_ErrorsByType : gmap string Z;
}.
Record tableStats := {
  ts_Name : string; ts_Insert : Z; ts_Update : Z; ts_Delete : Z; ts_Read : Z; ts_Truncate : Z; ts_Total : Z;
}.
Record dlqStats := { ds_Enabled : bool; ds_Entries : Z; ds_ParkedTotal : Z; ds_RetriedTotal : Z }.
Record statsResponse := {
  st_UptimeSeconds : Z; st_Version : string; st_SlotName : string; st_Publication : string;
  st_Ready : bool; st_Streaming : bool; st_CurrentLSN : string;
  st_WALLagBytes : Z; st_Inflight : Z; st_EventsTotal : Z; st_Operations : gmap string Z;
  st_Sinks : list sinkStats; st_Tables : list tableStats; st_Backfill : list BackfillTableStatus;
  st_DLQ : dlqStats;
}.

(** What the loop over the families builds: the two maps of pointers and the totals. *)
Record stats_acc := {
  sa_sinks : gmap string sinkStats;
  sa_tables : gmap string tableStats;
  sa_Operations : gmap string Z;
  sa_EventsTotal : Z; sa_WALLagBytes : Z; sa_Inflight : Z; sa_Parked : Z; sa_Retried : Z;
}.

Definition zero_sink (name : string) : sinkStats :=
  {| ss_Name := name; ss_Healthy := false; ss_BreakerState := 0; ss_Succeeded := 0; ss_Failed := 0;
     ss_Filtered := 0; ss_Retries := 0; ss_ErrorsByType := ∅ |}.
Definition zero_table (name : string) : tableStats :=
  {| ts_Name := name; ts_Insert := 0; ts_Update := 0; ts_Delete := 0; ts_Read := 0; ts_Truncate := 0; ts_Total := 0 |}.

Definition set_sinks v a := {| sa_sinks := v; sa_tables := sa_tables a; sa_Operations := sa_Operations a;
  sa_EventsTotal := sa_EventsTotal a; sa_WALLagBytes := sa_WALLagBytes a; sa_Inflight := sa_Inflight a;
  sa_Parked := sa_Parked a; sa_Retried := sa_Retried a |}.
(** [sink(name)] and an assignment through the pointer it returns. *)
Definition upd_sink (name : string) (f : sinkStats -> sinkStats) (a : stats_acc) : stats_acc :=
  set_sinks (<[name := f (default (zero_sink name) (sa_sinks a !! name))]> (sa_sinks a)) a.

Definition add_op (op : string) (v : Z) (t : tableStats) : tableStats :=
  let t := {| ts_Name := ts_Name t; ts_Insert := ts_Insert t; ts_Update := ts_Update t; ts_Delete := ts_Delete t;
              ts_Read := ts_Read t; ts_Truncate := ts_Truncate t; ts_Total := ts_Total t + v |} in
  let bump o x := if decide (op = o) then (x + v)%Z else x in
  {| ts_Name := ts_Name t; ts_Insert := bump "INSERT" (ts_Insert t); ts_Update := bump "UPDATE" (ts_Update t);
     ts_Delete := bump "DELETE" (ts_Delete t); ts_Read := bump "READ" (ts_Read t);
     ts_Truncate := bump "TRUNCATE" (ts_Truncate t); ts_Total := ts_Total t |}.

Definition add_received (a : stats_acc) (m : Metric) : stats_acc :=
  let name := (label m "schema" +:+ "." +:+ label m "table")%string in
  let v := metricValue m in
  let op := label m "operation" in
  {| sa_sinks := sa_sinks a;
     sa_tables := <[name := add_op op v (default (zero_table name) (sa_tables a !! name))]> (sa_tables a);
     sa_Operations := <[op := (default 0 (sa_Operations a !! op) + v)%Z]> (sa_Operations a);
     sa_EventsTotal := sa_EventsTotal a + v; sa_WALLagBytes := sa_WALLagBytes a; sa_Inflight := sa_Inflight a;
     sa_Parked := sa_Parked a; sa_Retried := sa_Retried a |}.

Definition add_processed (a : stats_acc) (m : Metric) : stats_acc :=
  let v := metricValue m in
  let ok := bool_decide (label m "status" = "success") in
  upd_sink (label m "sink") (fun s =>
    {| ss_Name := ss_Name s; ss_Healthy := ss_Healthy s; ss_BreakerState := ss_BreakerState s;
       ss_Succeeded := if ok then ss_Succeeded s + v else ss_Succeeded s;
       ss_Failed := if ok then ss_Failed s else ss_Failed s + v;
       ss_Filtered := ss_Filtered s; ss_Retries := ss_Retries s; ss_ErrorsByType := ss_ErrorsByType s |}) a.
Definition add_filtered (a : stats_acc) (m : Metric) : stats_acc :=
  upd_sink (label m "sink") (fun s =>
    {| ss_Name := ss_Name s; ss_Healthy := ss_Healthy s; ss_BreakerState := ss_BreakerState s;
       ss_Succeeded := ss_Succeeded s; ss_Failed := ss_Failed s; ss_Filtered := ss_Filtered s + metricValue m;
       ss_Retries := ss_Retries s; ss_ErrorsByType := ss_ErrorsByType s |}) a.
Definition add_retries (a : stats_acc) (m : Metric) : stats_acc :=
  upd_sink (label m "sink") (fun s =>
    {| ss_Name := ss_Name s; ss_Healthy := ss_Healthy s; ss_BreakerState := ss_BreakerState s;
       ss_Succeeded := ss_Succeeded s; ss_Failed := ss_Failed s; ss_Filtered := ss_Filtered s;
       ss_Retries := ss_Retries s + metricValue m; ss_ErrorsByType := ss_ErrorsByType s |}) a.
Definition set_breaker (a : stats_acc) (m : Metric) : stats_acc :=
  upd_sink (label m "sink") (fun s =>
    {| ss_Name := ss_Name s; ss_Healthy := ss_Healthy s; ss_BreakerState := metricValue m;
       ss_Succeeded := ss_Succeeded s; ss_Failed := ss_Failed s; ss_Filtered := ss_Filtered s;
       ss_Retries := ss_Retries s; ss_ErrorsByType := ss_ErrorsByType s |}) a.
Definition add_error (a : stats_acc) (m : Metric) : stats_acc :=
  let ty := label m "error_type" in
  upd_sink (label m "sink") (fun s =>
    {| ss_Name := ss_Name s; ss_Healthy := ss_Healthy s; ss_BreakerState := ss_BreakerState s;
       ss_Succeeded := ss_Succeeded s; ss_Failed := ss_Failed s; ss_Filtered := ss_Filtered s;
       ss_Retries := ss_Retries s;
       ss_ErrorsByType := <[ty := (default 0 (ss_ErrorsByType s !! ty) + metricValue m)%Z]> (ss_ErrorsByType s) |}) a.
Definition set_health (a : stats_acc) (p : string * bool) : stats_acc :=
  upd_sink p.1 (fun s =>
    {| ss_Name := ss_Name s; ss_Healthy := p.2; ss_BreakerState := ss_BreakerState s;
       ss_Succeeded := ss_Succeeded s; ss_Failed := ss_Failed s; ss_Filtered := ss_Filtered s;
       ss_Retries := ss_Retries s; ss_ErrorsByType := ss_ErrorsByType s |}) a.
Definition set_gauges (lag inflight parked retried : Z) (a : stats_acc) : stats_acc :=
  {| sa_sinks := sa_sinks a; sa_tables := sa_tables a; sa_Operations := sa_Operations a;
     sa_EventsTotal := sa_EventsTotal a; sa_WALLagBytes := lag; sa_Inflight := inflight;
     sa_Parked := parked; sa_Retried := retried |}.

(** The switch over a family's name. *)
Definition stats_family (a : stats_acc) (fam : MetricFamily) : stats_acc :=
  let each (f : stats_acc -> Metric -> stats_acc) := foldl f a (fam_metrics fam) in
  let n := fam_name fam in
  if decide (n = "cdc_wal_lag_bytes") then set_gauges (singleValue fam) (sa_Inflight a) (sa_Parked a) (sa_Retried a) a
  else if decide (n = "cdc_inflight_events") then set_gauges (sa_WALLagBytes a) (singleValue fam) (sa_Parked a) (sa_Retried a) a
  else if decide (n = "cdc_events_received_total") then each add_received
  else if decide (n = "cdc_events_processed_total") then each add_processed
  else if decide (n = "cdc_events_filtered_total") then each add_filtered
  else if decide (n = "cdc_retry_attempts_total") then each add_retries
  else if decide (n = "cdc_circuit_breaker_state") then each set_breaker
  else if decide (n = "cdc_sink_errors_total") then each add_error
  else if decide (n = "cdc_dlq_parked_total") then
    set_gauges (sa_WALLagBytes a) (sa_Inflight a) (sa_Parked a + sum_values (fam_metrics fam)) (sa_Retried a) a
  else if decide (n = "cdc_dlq_retried_total") then
    set_gauges (sa_WALLagBytes a) (sa_Inflight a) (sa_Parked a) (sa_Retried a + sum_values (fam_metrics fam)) a
  else a.

Definition zero_acc : stats_acc :=
  {| sa_sinks := ∅; sa_tables := ∅; sa_Operations := ∅; sa_EventsTotal := 0; sa_WALLagBytes := 0;
     sa_Inflight := 0; sa_Parked := 0; sa_Retried := 0 |}.

(** Every backfilled table is listed, with zeros when nothing was received. *)
Definition list_backfilled (tables : gmap string tableStats) (b : BackfillTableStatus) : gmap string tableStats :=
  let name := (bs_Schema b +:+ "." +:+ bs_Table b)%string in
  match tables !! name with Some _ => tables | None => <[name := zero_table name]> tables end.

(** The orders of the two listings: sinks by name, tables by total and then by name. *)
Definition sink_le (a b : sinkStats) : Prop := String.leb (ss_Name a) (ss_Name b) = true.
Definition table_le (a b : tableStats) : Prop :=
  (ts_Total b < ts_Total a)%Z \/ (ts_Total a = ts_Total b /\ String.leb (ts_Name a) (ts_Name b) = true).
#[export] Instance sink_le_dec : RelDecision sink_le. Proof. intros a b. unfold sink_le. apply _. Defined.
#[export] Instance table_le_dec : RelDecision table_le. Proof. intros a b. unfold table_le. apply _. Defined.
#[export] Instance sink_le_total : Total sink_le. Proof. intros a b. apply String.leb_total. Qed.
#[export] Instance table_le_total : Total table_le.
Proof.
  intros a b. unfold table_le. destruct (String.leb_total (ts_Name a) (ts_Name b)) as [H|H];
    destruct (Z.lt_total (ts_Total a) (ts_Total b)) as [?|[?|?]]; auto.
Qed.

(** What a server has behind the handler; absent parts are [None]. *)
Record stats_sources := {
  so_uptime : Z; so_version : string; so_slot : string; so_publication : string;
  so_checker : option (bool * gmap string bool);
  so_wal : option (bool * string);
  so_backfill : option (list BackfillTableStatus);
  so_dlq : option (res Z);
  so_gathered : res (list MetricFamily);
}.

Definition gathered_acc (src : stats_sources) : stats_acc :=
  let a := match so_checker src with
           | Some (_, statuses) => foldl set_health zero_acc (map_to_list statuses)
           | None => zero_acc
           end in
  match so_gathered src with inl families => foldl stats_family a families | inr _ => a end.

Definition handleStats (src : stats_sources) : statsResponse :=
  let backfill := default [] (so_backfill src) in
  let a := gathered_acc src in
  {| st_UptimeSeconds := so_uptime src; st_Version := so_version src; st_SlotName := so_slot src;
     st_Publication := so_publication src;
     st_Ready := match so_checker src with Some (ready, _) => ready | None => false end;
     st_Streaming := match so_wal src with Some (streaming, _) => streaming | None => false end;
     st_CurrentLSN := match so_wal src with Some (_, lsn) => lsn | None => "" end;
     st_WALLagBytes := sa_WALLagBytes a; st_Inflight := sa_Inflight a; st_EventsTotal := sa_EventsTotal a;
     st_Operations := sa_Operations a;
     st_Sinks := merge_sort sink_le (map snd (map_to_list (sa_sinks a)));
     st_Tables := merge_sort table_le (map snd (map_to_list (foldl list_backfilled (sa_tables a) backfill)));
     st_Backfill := backfill;
     st_DLQ := {| ds_Enabled := isSome (so_dlq src);
                  ds_Entries := match so_dlq src with Some (inl n) => n | _ => 0 end;
                  ds_ParkedTotal := sa_Parked a; ds_RetriedTotal := sa_Retried a |} |}.

(** ** The document adds up *)
Definition zsum (l : list Z) : Z := foldr Z.add 0%Z l.
Definition msum {A} (f : A -> Z) (m : gmap string A) : Z := zsum (map (fun p => f p.2) (map_to_list m)).

#[export] Instance zsum_perm : Proper (Permutation ==> eq) zsum.
Proof. induction 1; simpl; lia. Qed.

Lemma msum_insert_None {A} (f : A -> Z) m k v :
  m !! k = None -> msum f (<[k := v]> m) = (f v + msum f m)%Z.
Proof. intros Hk. unfold msum. rewrite map_to_list_insert by done. reflexivity. Qed.

Lemma msum_insert {A} (f : A -> Z) m k v :
  msum f (<[k := v]> m) = (msum f m - default 0 (f <$> m !! k) + f v)%Z.
Proof.
  destruct (m !! k) as [v0|] eqn:Hk; simpl.
  - rewrite <- insert_delete_eq, msum_insert_None by apply lookup_delete_eq.
    rewrite <- (insert_delete_id m k v0 Hk) at 2. rewrite msum_insert_None by apply lookup_delete_eq. lia.
  - rewrite msum_insert_None by done. lia.
Qed.

(** The operations of the domain, as the counter's label has them. *)
Definition known_operations : list string :=
  map Operation_String [OperationInsert; OperationUpdate; OperationDelete; OperationRead; OperationTruncate].
Definition counted_operations (families : list MetricFamily) : Prop :=
  forall fam m, fam ∈ families -> fam_name fam = fq_name EventsReceived -> m ∈ fam_metrics fam ->
    label m "operation" ∈ known_operations.
Definition splits (t : tableStats) : Prop :=
  ts_Total t = (ts_Insert t + ts_Update t + ts_Delete t + ts_Read t + ts_Truncate t)%Z.

(** What the loop keeps: totals agree, every entry is under its own name. *)
Record acc_ok (a : stats_acc) : Prop := {
  ok_tables : sa_EventsTotal a = msum ts_Total (sa_tables a);
  ok_ops : sa_EventsTotal a = msum id (sa_Operations a);
  ok_table_names : map_Forall (fun k t => ts_Name t = k) (sa_tables a);
  ok_sink_names : map_Forall (fun k s => ss_Name s = k) (sa_sinks a);
}.

Lemma upd_sink_ok name f a :
  acc_ok a -> (forall s, ss_Name (f s) = ss_Name s) -> acc_ok (upd_sink name f a).
Proof.
  intros [H1 H2 H3 H4] Hf. split; try done. simpl. apply map_Forall_insert_2; [|done]. rewrite Hf.
  destruct (sa_sinks a !! name) as [s|] eqn:Hs; [exact (H4 _ _ Hs) | done].
Qed.

Lemma add_received_ok a m : acc_ok a -> acc_ok (add_received a m).
Proof.
  intros [H1 H2 H3 H4]. unfold add_received.
  set (name := (label m "schema" +:+ "." +:+ label m "table")%string). split; simpl; [| | |done].
  - rewrite msum_insert, H1. destruct (sa_tables a !! name) as [t|]; simpl; lia.
  - rewrite msum_insert, H2. destruct (sa_Operations a !! _) as [n|]; simpl; unfold id; lia.
  - apply map_Forall_insert_2; [|done]. simpl. destruct (sa_tables a !! name) as [t|] eqn:Ht; [exact (H3 _ _ Ht) | done].
Qed.

Lemma foldl_ok {X} (f : stats_acc -> X -> stats_acc) l a :
  (forall a x, acc_ok a -> acc_ok (f a x)) -> acc_ok a -> acc_ok (foldl f a l).
Proof. intros Hf. revert a. induction l as [|x l IH]; simpl; auto. Qed.

Lemma stats_family_ok a fam : acc_ok a -> acc_ok (stats_family a fam).
Proof.
  intros Ha. unfold stats_family. pose proof Ha as [H1 H2 H3 H4].
  repeat match goal with |- context [decide ?P] => destruct (decide P) end; try done;
    apply foldl_ok; try done; intros a0 m Ha0; try (by apply add_received_ok); by apply upd_sink_ok.
Qed.

Lemma gathered_acc_ok src : acc_ok (gathered_acc src).
Proof.
  assert (H0 : acc_ok zero_acc) by (split; done). unfold gathered_acc.
  assert (Hc : forall a, acc_ok a -> acc_ok match so_gathered src with
    | inl families => foldl stats_family a families | inr _ => a end).
  { intros a Ha. destruct (so_gathered src); [|done]. apply foldl_ok; [apply stats_family_ok | done]. }
  apply Hc. destruct (so_checker src) as [[r st]|]; [|done]. apply foldl_ok; [|done].
  intros a p Ha. by apply upd_sink_ok.
Qed.

(** Listing the backfilled tables adds empty entries only. *)
Lemma list_backfilled_spec (bs : list BackfillTableStatus) tables :
  map_Forall (fun k t => ts_Name t = k) tables ->
  let out := foldl list_backfilled tables bs in
  map_Forall (fun k t => ts_Name t = k) out /\ msum ts_Total out = msum ts_Total tables /\
  (forall k t, tables !! k = Some t -> out !! k = Some t) /\
  (forall b, b ∈ bs -> is_Some (out !! (bs_Schema b +:+ "." +:+ bs_Table b)%string)) /\
  (forall k t, out !! k = Some t -> tables !! k = Some t \/ t = zero_table k).
Proof.
  revert tables. induction bs as [|b bs IH]; intros tables Hn; simpl.
  { split_and!; try done; [by intros b ?%not_elem_of_nil | auto]. }
  set (name := (bs_Schema b +:+ "." +:+ bs_Table b)%string).
  assert (Hstep : let t' := list_backfilled tables b in
    map_Forall (fun k t => ts_Name t = k) t' /\ msum ts_Total t' = msum ts_Total tables /\
    (forall k t, tables !! k = Some t -> t' !! k = Some t) /\ is_Some (t' !! name) /\
    (forall k t, t' !! k = Some t -> tables !! k = Some t \/ t = zero_table k)).
  { unfold list_backfilled. fold name. destruct (tables !! name) as [t|] eqn:Ht; [split_and!; eauto|].
    split_and!.
    - by apply map_Forall_insert_2.
    - by rewrite msum_insert_None.
    - intros k t Hk. rewrite lookup_insert_ne; [done | congruence].
    - rewrite lookup_insert_eq. eauto.
    - intros k t. destruct (decide (name = k)) as [<-|Hne]; [rewrite lookup_insert_eq; intros [= <-]; auto|].
      rewrite lookup_insert_ne by done. auto. }
  destruct Hstep as (S1 & S2 & S3 & S4 & S5). destruct (IH _ S1) as (I1 & I2 & I3 & I4 & I5).
  split_and!; [done | by rewrite I2 | by auto | |].
  - intros b' [->|Hin]%elem_of_cons; [|by apply I4]. destruct S4 as [t Ht]. eauto.
  - intros k t [H|H]%I5; [by apply S5 | by right].
Qed.

(** The rows of a listing of a map are its values, once each. *)
Lemma rows_listing_spec {A} (R : A -> A -> Prop) `{!RelDecision R, !Total R} (name : A -> string) (m : gmap string A) :
  map_Forall (fun k x => name x = k) m ->
  let l := merge_sort R (map snd (map_to_list m)) in
  Sorted R l /\ NoDup (map name l) /\ (forall x, x ∈ l <-> m !! name x = Some x).
Proof.
  intros Hn l.
  assert (Hp : l ≡ₚ map snd (map_to_list m)) by apply merge_sort_Permutation.
  assert (Hkeys : map name (map snd (map_to_list m)) = (map_to_list m).*1).
  { rewrite map_map. apply list_fmap_ext. intros i [k x] Hi. simpl. apply Hn.
    apply elem_of_map_to_list. by eapply list_elem_of_lookup_2. }
  split_and!; [apply (Sorted_merge_sort R)| |].
  - rewrite Hp, Hkeys. apply NoDup_fst_map_to_list.
  - intros x. rewrite Hp. split.
    + intros ([k y] & -> & Hin)%list_elem_of_fmap. apply elem_of_map_to_list in Hin. simpl. by rewrite (Hn _ _ Hin).
    + intros Hx. apply list_elem_of_fmap. exists (name x, x). split; [done | by apply elem_of_map_to_list].
Qed.

(** The received events of a gathering. *)
Definition received (families : list MetricFamily) : list Metric :=
  concat (map fam_metrics (filter (fun f => fam_name f = fq_name EventsReceived) families)).

Lemma foldl_total {X} (f : stats_acc -> X -> stats_acc) (v : X -> Z) l a :
  (forall a x, sa_EventsTotal (f a x) = (sa_EventsTotal a + v x)%Z) ->
  sa_EventsTotal (foldl f a l) = (sa_EventsTotal a + zsum (map v l))%Z.
Proof. intros Hf. revert a. induction l as [|x l IH]; intros a; simpl; [lia|]. rewrite IH, Hf. lia. Qed.

Lemma zsum_app l1 l2 : zsum (l1 ++ l2) = (zsum l1 + zsum l2)%Z.
Proof. induction l1; simpl; lia. Qed.
Lemma zsum_zero {X} (l : list X) : zsum (map (fun _ => 0%Z) l) = 0%Z.
Proof. induction l; simpl; lia. Qed.

Lemma stats_family_total a fam :
  sa_EventsTotal (stats_family a fam) =
  (sa_EventsTotal a + if decide (fam_name fam = fq_name EventsReceived)
                      then zsum (map metricValue (fam_metrics fam)) else 0)%Z.
Proof.
  change (fq_name EventsReceived) with "cdc_events_received_total". unfold stats_family.
  repeat match goal with |- context [decide (fam_name fam = ?n)] => destruct (decide (fam_name fam = n)) end;
    try congruence; simpl; try lia;
    first [ apply foldl_total; intros; reflexivity
          | rewrite (foldl_total _ (fun _ => 0%Z)); [rewrite zsum_zero; lia | intros; simpl; lia] ].
Qed.

Lemma stats_families_total families a :
  sa_EventsTotal (foldl stats_family a families) = (sa_EventsTotal a + zsum (map metricValue (received families)))%Z.
Proof.
  revert a. induction families as [|fam fams IH]; intros a; simpl; [lia|].
  rewrite IH, stats_family_total. unfold received. rewrite filter_cons.
  destruct (decide _); [|lia]. simpl. rewrite map_app, zsum_app. lia.
Qed.

(** A table's total is the sum over the operations, when all of them are known. *)
Lemma add_op_splits op v t : op ∈ known_operations -> splits t -> splits (add_op op v t).
Proof.
  unfold splits. intros Hop Ht. unfold add_op. simpl.
  repeat (apply elem_of_cons in Hop as [->|Hop]; [simpl; lia|]). by apply not_elem_of_nil in Hop.
Qed.

Definition tables_split (a : stats_acc) : Prop := map_Forall (fun _ t => splits t) (sa_tables a).

Lemma stats_family_splits a fam :
  (fam_name fam = fq_name EventsReceived -> Forall (fun m => label m "operation" ∈ known_operations) (fam_metrics fam)) ->
  tables_split a -> tables_split (stats_family a fam).
Proof.
  change (fq_name EventsReceived) with "cdc_events_received_total". intros Hk Ha.
  assert (Hkeep : forall {f : stats_acc -> Metric -> stats_acc} l a, (forall a m, sa_tables (f a m) = sa_tables a) ->
    tables_split a -> tables_split (foldl f a l)).
  { intros f l. induction l as [|m l IH]; intros a0 Hf Ha0; simpl; [done|]. apply IH; [done|].
    unfold tables_split. by rewrite Hf. }
  unfold stats_family.
  repeat match goal with |- context [decide (fam_name fam = ?n)] => destruct (decide (fam_name fam = n)) end;
    try done; try (by apply Hkeep).
  specialize (Hk ltac:(done)). revert a Ha. induction (fam_metrics fam) as [|m ms IH]; intros a Ha; simpl; [done|].
  inversion_clear Hk as [|? ? Hm Hms]. apply IH; [done|]. apply map_Forall_insert_2; [|done].
  apply add_op_splits; [done|]. destruct (sa_tables a !! _) as [t|] eqn:Ht; [exact (Ha _ _ Ht) | done].
Qed.

Lemma gathered_splits src families :
  so_gathered src = inl families -> counted_operations families -> tables_split (gathered_acc src).
Proof.
  intros Hg Hc. unfold gathered_acc. rewrite Hg.
  assert (H0 : tables_split match so_checker src with
    | Some (_, statuses) => foldl set_health zero_acc (map_to_list statuses) | None => zero_acc end).
  { assert (Hz : forall l a, tables_split a -> tables_split (foldl set_health a l))
      by (induction l as [|p l IH]; intros a Ha; simpl; [done | by apply IH]).
    destruct (so_checker src) as [[r st]|]; [by apply Hz | done]. }
  revert H0. generalize (match so_checker src with
    | Some (_, statuses) => foldl set_health zero_acc (map_to_list statuses) | None => zero_acc end).
  assert (Hall : Forall (fun fam => fam_name fam = fq_name EventsReceived ->
    Forall (fun m => label m "operation" ∈ known_operations) (fam_metrics fam)) families).
  { apply Forall_forall. intros fam Hin Hn. apply Forall_forall. intros m Hm. by eapply Hc. }
  clear Hg Hc. induction Hall as [|fam fams Hf Hfs IH]; intros a Ha; simpl; [done|].
  by apply IH, stats_family_splits.
Qed.

(** The statistics document adds up: the events total is the sum of the gathered
    counters, of the tables' totals and of the operations' totals; each table has one
    row, the busiest first, and a row for every backfilled table; when every counted
    operation is one of the domain's, a row's total is the sum of its five columns;
    each sink has one row, by name. *)
Theorem stats_add_up src :
  let r := handleStats src in
  st_EventsTotal r = zsum (map ts_Total (st_Tables r)) /\
  st_EventsTotal r = msum id (st_Operations r) /\
  (forall families, so_gathered src = inl families ->
     st_EventsTotal r = zsum (map metricValue (received families)) /\
     (counted_operations families -> Forall splits (st_Tables r))) /\
  Sorted table_le (st_Tables r) /\ NoDup (map ts_Name (st_Tables r)) /\
  (forall b, b ∈ st_Backfill r -> (bs_Schema b +:+ "." +:+ bs_Table b)%string ∈ map ts_Name (st_Tables r)) /\
  Sorted sink_le (st_Sinks r) /\ NoDup (map ss_Name (st_Sinks r)).
Proof.
  pose proof (gathered_acc_ok src) as [H1 H2 H3 H4].
  destruct (list_backfilled_spec (default [] (so_backfill src)) _ H3) as (L1 & L2 & L3 & L4 & L5).
  destruct (rows_listing_spec table_le ts_Name _ L1) as (T1 & T2 & T3).
  destruct (rows_listing_spec sink_le ss_Name _ H4) as (S1 & S2 & _).
  cbn zeta. unfold handleStats. simpl. split_and!; try done.
  - rewrite H1, <- L2. unfold msum. rewrite merge_sort_Permutation, map_map. reflexivity.
  - intros families Hg. split.
    + unfold gathered_acc. rewrite Hg, stats_families_total.
      assert (Hz : forall l a, sa_EventsTotal (foldl set_health a l) = sa_EventsTotal a)
        by (induction l as [|p l IH]; intros a; simpl; [done | by rewrite IH]).
      destruct (so_checker src) as [[b st]|]; [rewrite Hz|]; simpl; lia.
    + intros Hc. pose proof (gathered_splits src families Hg Hc) as Hs.
      apply Forall_forall. intros t Ht. apply T3, L5 in Ht as [Ht|Ht]; [exact (Hs _ _ Ht) | by rewrite Ht].
  - intros b Hb. destruct (L4 b Hb) as [t Ht]. apply list_elem_of_fmap. exists t.
    pose proof (L1 _ _ Ht) as Hn. simpl in Hn. split; [done|]. apply T3. by rewrite Hn.
Qed.
