(* ===== verification/Server.v ===== *)
(** * The HTTP API (src/internal/infrastructure/server/server.go, health.go and schema.go)

    The managers' interfaces of core/ports as records, with the coordinator and the
    dead-letter manager as their instances; every handler as a function from a request
    to a response and the managers' next state; and the health monitor that decides
    readiness.  Decoding a request's JSON body and encoding a response's are
    parameters: a body is the value that is encoded. *)

From Stdlib Require Import ZArith Lia Ascii String.
From stdpp Require Import base list gmap strings pretty.
From S2P Require Import Prelude Domain DeadLetter SchemaChange Decoder Reader Backfill Service Config Metrics.

Open Scope go_scope.
Set Warnings "-clear-no-such-hyp".

(** ** The managers' interfaces (core/ports) *)
Record BackfillManager (W : Type) := {
  bm_EnqueueTable : string -> string -> ST W (option error);
  bm_EnqueueAll : ST W (option error);
  bm_ReplayAll : ST W (res Z);
  bm_Status : W -> list BackfillTableStatus;
}.
Arguments bm_EnqueueTable {W}. Arguments bm_EnqueueAll {W}. Arguments bm_ReplayAll {W}. Arguments bm_Status {W}.

Record DLQManager (W : Type) := {
  dm_List : Ctx -> Z -> ST W (res (list DeadLetterEntry));
  dm_Len : Ctx -> ST W (res Z);
  dm_Retry : Ctx -> string -> ST W (option error);
  dm_RetryAll : Ctx -> ST W (RetryResult * option error);
  dm_Discard : Ctx -> string -> ST W (option error);
}.
Arguments dm_List {W}. Arguments dm_Len {W}. Arguments dm_Retry {W}. Arguments dm_RetryAll {W}.
Arguments dm_Discard {W}.

(** [Coordinator.Status]: the map's values, in its iteration order. *)
Definition Status (c : Coordinator) : list BackfillTableStatus := map snd (map_to_list (status c)).

Definition coordinator_manager {W} `{!World W} (cfg : Backfill.BackfillConfig) (db : DB W)
    : BackfillManager (Coordinator * W) :=
  {| bm_EnqueueTable := EnqueueTable db cfg; bm_EnqueueAll := EnqueueAll db cfg;
     bm_ReplayAll := ReplayAll db cfg; bm_Status := fun w => Status w.1 |}.

(** [Manager.List] and [Manager.Len] are the store's. *)
Definition Manager_List {W} (store : Store W) (c : Ctx) (limit : Z) : ST (Manager W * W) (res (list DeadLetterEntry)) :=
  inner (st_List store c limit).
Definition Manager_Len {W} (store : Store W) (c : Ctx) : ST (Manager W * W) (res Z) := inner (st_Len store c).

Definition dead_letter_manager {W} `{!World W} (store : Store W) : DLQManager (Manager W * W) :=
  {| dm_List := Manager_List store; dm_Len := Manager_Len store; dm_Retry := Retry store;
     dm_RetryAll := RetryAll store; dm_Discard := Discard store |}.

(** ** Requests and responses *)
Definition StatusOK : Z := 200.
Definition StatusAccepted : Z := 202.
Definition StatusBadRequest : Z := 400.
Definition StatusConflict : Z := 409.
Definition StatusInternalServerError : Z := 500.
Definition StatusNotImplemented : Z := 501.
Definition StatusServiceUnavailable : Z := 503.

Inductive response_body :=
  | BodyStatus (s : string)
  | BodyError (msg : string)
  | BodyErrorResult (msg : string) (result : RetryResult)
  | BodyEntries (total : Z) (entries : list DeadLetterEntry)
  | BodyResult (result : RetryResult)
  | BodyTables (tables : list BackfillTableStatus)
  | BodyQueued (tables : Z)
  | BodyStats (stats : statsResponse)
  | BodyHistory (interval_seconds : Z) (samples : list sample)
  | BodySchema (total : nat) (changes : list (SchemaChange * bool * string)).
Record response := { rs_status : Z; rs_body : response_body }.
Definition reply (status : Z) (body : response_body) : response := {| rs_status := status; rs_body := body |}.
Definition respond {W} (status : Z) (body : response_body) : ST W response := ret (reply status body).

(** The decoded body of a triage or backfill request; absent members are zero. *)
Record request := { rq_ID : string; rq_Table : string; rq_All : bool }.

Section handlers.
Context {W : Type} (dlq : option (DLQManager W)) (backfill : option (BackfillManager W)).
(** [json.NewDecoder(r.Body).Decode(&req)] *)
Context (decode : string -> option request).

Definition dlq_disabled : response_body := BodyError "dead-letter queue is disabled".
Definition backfill_disabled : response_body := BodyError "backfill is disabled".

(** The limit of a listing: a positive number, or 100. *)
Definition list_limit (v : string) : Z :=
  if decide (v = "") then 100
  else match Atoi v with Some n => if decide (0 < n)%Z then n else 100 | None => 100 end.

Definition handleDLQList (c : Ctx) (limit : string) : ST W response :=
  match dlq with
  | None => respond StatusNotImplemented dlq_disabled
  | Some d =>
      let! entries := dm_List d c (list_limit limit) in
      match entries with
      | inr err => respond StatusInternalServerError (BodyError (Error err))
      | inl entries =>
          let! total := dm_Len d c in
          respond StatusOK (BodyEntries (match total with inl n => n | inr _ => 0 end) entries)
      end
  end.

Definition handleDLQRetry (c : Ctx) (body : string) : ST W response :=
  match dlq with
  | None => respond StatusNotImplemented dlq_disabled
  | Some d =>
      match decode body with
      | None => respond StatusBadRequest (BodyError "invalid JSON body")
      | Some req =>
          if rq_All req then
            let! '(result, err) := dm_RetryAll d c in
            match err with
            | Some e => respond StatusInternalServerError (BodyErrorResult (Error e) result)
            | None => respond StatusOK (BodyResult result)
            end
          else if decide (rq_ID req <> "") then
            let! err := dm_Retry d c (rq_ID req) in
            match err with
            | Some e => respond StatusConflict (BodyError (Error e))
            | None => respond StatusOK (BodyStatus "retried")
            end
          else respond StatusBadRequest (BodyError "provide an id or all")
      end
  end.

Definition handleDLQDiscard (c : Ctx) (body : string) : ST W response :=
  match dlq with
  | None => respond StatusNotImplemented dlq_disabled
  | Some d =>
      match decode body with
      | None => respond StatusBadRequest (BodyError "provide an id")
      | Some req =>
          if decide (rq_ID req = "") then respond StatusBadRequest (BodyError "provide an id")
          else
            let! err := dm_Discard d c (rq_ID req) in
            match err with
            | Some e => respond StatusConflict (BodyError (Error e))
            | None => respond StatusOK (BodyStatus "discarded")
            end
      end
  end.

Definition handleBackfillStatus : ST W response :=
  match backfill with
  | None => respond StatusNotImplemented backfill_disabled
  | Some b => let! w := get in respond StatusOK (BodyTables (bm_Status b w))
  end.

(** The schema and table of a request: split at the first dot unless it comes first. *)
Definition request_table (name : string) : string * string :=
  match splitTableName name with
  | Some ref => if decide (tr_Schema ref = "") then ("public", name) else (tr_Schema ref, tr_Table ref)
  | None => ("public", name)
  end.

Definition writeBackfillError (err : error) : ST W response := respond StatusConflict (BodyError (Error err)).

Definition handleBackfillTrigger (body : string) : ST W response :=
  match backfill with
  | None => respond StatusNotImplemented backfill_disabled
  | Some b =>
      match decode body with
      | None => respond StatusBadRequest (BodyError "invalid JSON body")
      | Some req =>
          if rq_All req then
            let! queued := bm_ReplayAll b in
            match queued with
            | inr err => writeBackfillError err
            | inl n => respond StatusAccepted (BodyQueued n)
            end
          else if decide (rq_Table req <> "") then
            let '(schema, table) := request_table (rq_Table req) in
            let! err := bm_EnqueueTable b schema table in
            match err with
            | Some e => writeBackfillError e
            | None => respond StatusAccepted (BodyStatus "enqueued")
            end
          else respond StatusBadRequest (BodyError "provide a table or all")
      end
  end.
End handlers.

(** [handleSchema]: the history with what the dashboard derives from each change. *)
Definition schemaChangeResponse (change : SchemaChange) : SchemaChange * bool * string :=
  (change, Breaking change, Summary change).
Definition handleSchema (recorder : option Recorder) : response :=
  let changes := match recorder with Some r => map schemaChangeResponse (History r) | None => [] end in
  reply StatusOK (BodySchema (length changes) changes).

Definition handleHistory (s : sampler) : response :=
  reply StatusOK (BodyHistory (samplerInterval / 1000000000) (snapshot s)).

(** ** Health (health.go) *)
Record HealthStatus := { hs_ready : bool; hs_sinkStatus : gmap string bool }.
Definition NewHealthStatus : HealthStatus := {| hs_ready := false; hs_sinkStatus := ∅ |}.
Definition SetReady (ready : bool) (h : HealthStatus) : HealthStatus :=
  {| hs_ready := ready; hs_sinkStatus := hs_sinkStatus h |}.
Definition UpdateSinkStatus (statuses : gmap string bool) (h : HealthStatus) : HealthStatus :=
  {| hs_ready := hs_ready h; hs_sinkStatus := statuses |}.
Definition IsReady (h : HealthStatus) : bool := hs_ready h.
Definition SinkStatuses (h : HealthStatus) : gmap string bool := hs_sinkStatus h.

(** [check]'s loop over the results. *)
Definition check_result (acc : gmap string bool * bool) (p : string * option error) : gmap string bool * bool :=
  let healthy := negb (isSome p.2) in
  (<[p.1 := healthy]> acc.1, if healthy then acc.2 else false).

Definition check {W} (HealthCheckAll : ST W (gmap string (option error))) (walHealthy : ST W bool)
    : ST (HealthStatus * W) unit :=
  let! results := inner HealthCheckAll in
  let '(statuses, allHealthy) := foldl check_result (∅, true) (map_to_list results) in
  seq! own (modify (UpdateSinkStatus statuses)) in
  if allHealthy then
    let! live := inner walHealthy in
    own (modify (SetReady live))
  else own (modify (SetReady false)).

(** The monitor: a check at once and one per tick. *)
Fixpoint monitor {W} (HealthCheckAll : ST W (gmap string (option error))) (walHealthy : ST W bool) (ticks : nat)
    : ST (HealthStatus * W) unit :=
  seq! check HealthCheckAll walHealthy in
  match ticks with 0 => ret tt | S n => monitor HealthCheckAll walHealthy n end.

Definition handleHealth : response := reply StatusOK (BodyStatus "healthy").
Definition handleReadiness (checker : option HealthStatus) : response :=
  match checker with
  | Some h => if IsReady h then reply StatusOK (BodyStatus "ready")
              else reply StatusServiceUnavailable (BodyStatus "not_ready")
  | None => reply StatusServiceUnavailable (BodyStatus "not_ready")
  end.

(** ** Routes *)
Inductive route :=
  | RHealth | RReadiness | RMetrics | RBackfillStatus | RBackfillTrigger | RDLQList | RDLQRetry | RDLQDiscard
  | RStats | RHistory | RSchema | RProfiler | RUI.

(** [registerRoutes]: fixed paths by method, the metrics for any method, the profiler
    and the dashboard when they are on; a fixed path goes before the wildcard. *)
Definition registerRoutes (pprof ui : bool) (method path : string) : option route :=
  let get := bool_decide (method = "GET") in
  let post := bool_decide (method = "POST") in
  if decide (path = "/metrics") then Some RMetrics
  else if get && bool_decide (path = "/health") then Some RHealth
  else if get && bool_decide (path = "/readiness") then Some RReadiness
  else if get && bool_decide (path = "/backfill") then Some RBackfillStatus
  else if post && bool_decide (path = "/backfill") then Some RBackfillTrigger
  else if get && bool_decide (path = "/dlq") then Some RDLQList
  else if post && bool_decide (path = "/dlq/retry") then Some RDLQRetry
  else if post && bool_decide (path = "/dlq/discard") then Some RDLQDiscard
  else if get && bool_decide (path = "/api/stats") then Some RStats
  else if get && bool_decide (path = "/api/history") then Some RHistory
  else if get && bool_decide (path = "/api/schema") then Some RSchema
  else if pprof && isSome (strip_prefix "/debug" path) then Some RProfiler
  else if ui && get then Some RUI
  else None.

(** [handleUI]: the file of the path, or the index for client-side routes. *)
Definition handleUI (exists_file : string -> bool) (url_path : string) : string :=
  let path := default url_path (strip_prefix "/" url_path) in
  if negb (bool_decide (path = "")) && exists_file path then url_path else "/".

(** ** Construction and life cycle *)
Record InstanceInfo := { ii_Version : string; ii_SlotName : string; ii_Publication : string }.
Record ServerConfig := { svc_Port : Z; svc_Pprof : bool }.

(** What the server is given; a manager that is [None] is disabled.  [BM] and [DM] are
    the managers, [FS] the dashboard's file system. *)
Record ServerParams (BM DM FS : Type) := {
  pr_Config : ServerConfig; pr_Checker : HealthStatus; pr_Backfill : option BM; pr_DLQ : option DM;
  pr_WAL : bool; pr_UI : option FS; pr_Schema : option Recorder; pr_Info : InstanceInfo;
}.
Arguments pr_Config {BM DM FS}. Arguments pr_Checker {BM DM FS}. Arguments pr_Backfill {BM DM FS}.
Arguments pr_DLQ {BM DM FS}. Arguments pr_WAL {BM DM FS}. Arguments pr_UI {BM DM FS}.
Arguments pr_Schema {BM DM FS}. Arguments pr_Info {BM DM FS}.

(** The [http.Server]'s settings. *)
Record HTTPServer := { hp_Addr : string; hp_ReadTimeout : Z; hp_WriteTimeout : Z; hp_IdleTimeout : Z }.

Record Server (BM DM FS : Type) := {
  srv_pprof : bool; srv_http : HTTPServer; srv_checker : HealthStatus; srv_backfill : option BM;
  srv_dlq : option DM; srv_wal : bool; srv_ui : option FS; srv_startedAt : Z; srv_sampler : sampler;
  srv_info : InstanceInfo; srv_schema : option Recorder;
  srv_routes : string -> string -> option route;
}.
Arguments srv_pprof {BM DM FS}. Arguments srv_http {BM DM FS}. Arguments srv_checker {BM DM FS}.
Arguments srv_backfill {BM DM FS}. Arguments srv_dlq {BM DM FS}. Arguments srv_wal {BM DM FS}.
Arguments srv_ui {BM DM FS}. Arguments srv_startedAt {BM DM FS}. Arguments srv_sampler {BM DM FS}.
Arguments srv_info {BM DM FS}. Arguments srv_schema {BM DM FS}. Arguments srv_routes {BM DM FS}.

Definition New {BM DM FS} (p : ServerParams BM DM FS) (startedAt : Z) : Server BM DM FS :=
  {| srv_pprof := svc_Pprof (pr_Config p);
     srv_http := {| hp_Addr := (":" +:+ pretty (svc_Port (pr_Config p)))%string; hp_ReadTimeout := 10 * Second;
                    hp_WriteTimeout := 10 * Second; hp_IdleTimeout := 60 * Second |};
     srv_checker := pr_Checker p; srv_backfill := pr_Backfill p; srv_dlq := pr_DLQ p; srv_wal := pr_WAL p;
     srv_ui := pr_UI p; srv_startedAt := startedAt; srv_sampler := newSampler; srv_info := pr_Info p;
     srv_schema := pr_Schema p;
     srv_routes := registerRoutes (svc_Pprof (pr_Config p)) (isSome (pr_UI p)) |}.

(** [Start] starts the sampler's goroutine and serves until the listener returns; the
    error of a closed listener is not one. *)
Definition Server_Start {W} (run_sampler : ST W unit) (ListenAndServe : ST W (option error))
    (is_ErrServerClosed : error -> bool) : ST W (option error) :=
  seq! run_sampler in
  let! err := ListenAndServe in
  ret match err with
      | Some e => if is_ErrServerClosed e then None else Some e
      | None => None
      end.

(** [Stop] closes the sampler, then the listener. *)
Definition Server_Stop {W} (Shutdown : ST W (option error)) : ST (sampler * W) (option error) :=
  seq! own (modify (fun s => sampler_step s Stop)) in inner Shutdown.

(** ** Readiness *)
Section readiness.
Context {W : Type} (r : gmap string (Sink W)) (walHealthy : ST W bool).

Definition all_healthy (results : gmap string (option error)) : bool :=
  bool_decide (map_Forall (fun _ e => e = None) results).

Lemma check_results_spec l acc ok :
  NoDup l.*1 ->
  foldl check_result (acc, ok) l =
    (((fun e => negb (isSome e)) <$> (list_to_map l : gmap string (option error))) ∪ acc,
     ok && forallb (fun p => negb (isSome p.2)) l).
Proof.
  revert acc ok. induction l as [|[n e] l IH]; intros acc ok Hnd; simpl.
  { by rewrite fmap_empty, (left_id_L ∅ (∪)), andb_true_r. }
  inversion_clear Hnd as [|? ? Hn Hnd']. unfold check_result at 2. simpl. rewrite IH by done. f_equal.
  - apply map_eq. intros k. rewrite !lookup_union, !lookup_fmap.
    destruct (decide (n = k)) as [->|Hne]; [|by rewrite !lookup_insert_ne].
    rewrite !lookup_insert_eq, not_elem_of_list_to_map_1 by done. simpl. by destruct (acc !! k).
  - by destruct e, ok.
Qed.

Lemma check_results (results : gmap string (option error)) :
  foldl check_result (∅, true) (map_to_list results) =
    ((fun e => negb (isSome e)) <$> results, all_healthy results).
Proof.
  rewrite check_results_spec by apply NoDup_fst_map_to_list.
  rewrite list_to_map_to_list, (right_id_L ∅ (∪)). f_equal. simpl. unfold all_healthy.
  apply eq_true_iff_eq. rewrite bool_decide_eq_true, forallb_forall. split.
  - intros H k e Hk. apply elem_of_map_to_list, list_elem_of_In in Hk. specialize (H _ Hk). by destruct e.
  - intros H [k e] Hk%list_elem_of_In%elem_of_map_to_list. by rewrite (H _ _ Hk).
Qed.

Lemma health_loop_dom (l : list (string * Sink W)) w m w' :
  health_loop l w = (m, w') -> dom m = list_to_set l.*1.
Proof.
  revert w m w'. induction l as [|[n s] l IH]; intros w m w'; simpl; [intros [= <- _]; apply dom_empty_L|].
  unfold bind. destruct (HealthCheck s w) as [e w1]. destruct (health_loop l w1) as [m0 w2] eqn:Hl.
  intros [= <- _]. rewrite dom_insert_L. by rewrite (IH _ _ _ Hl).
Qed.

(** One check, whatever the status was before. *)
Lemma check_spec h w :
  let '(results, w1) := HealthCheckAll r w in
  let '(live, w2) := if all_healthy results then walHealthy w1 else (false, w1) in
  check (HealthCheckAll r) walHealthy (h, w) =
    (tt, ({| hs_ready := live; hs_sinkStatus := (fun e => negb (isSome e)) <$> results |}, w2)) /\
  dom results = dom r.
Proof.
  unfold check, bind, inner. destruct (HealthCheckAll r w) as [results w1] eqn:Hc.
  assert (Hd : dom results = dom r).
  { unfold HealthCheckAll in Hc. rewrite (health_loop_dom _ _ _ _ Hc). apply set_eq. intros k.
    rewrite elem_of_list_to_set, elem_of_dom. split.
    - intros ([k' s] & -> & Hin%elem_of_map_to_list)%list_elem_of_fmap. eauto.
    - intros [s Hs]. apply list_elem_of_fmap. exists (k, s). split; [done | by apply elem_of_map_to_list]. }
  destruct (if all_healthy results then walHealthy w1 else (false, w1)) as [live w2] eqn:Hl.
  split; [|exact Hd]. rewrite check_results.
  destruct (all_healthy results); cbn [own modify]; [rewrite Hl | injection Hl as <- <-]; reflexivity.
Qed.

Lemma monitor_last ticks h w :
  exists h0 w0, monitor (HealthCheckAll r) walHealthy ticks (h, w) = check (HealthCheckAll r) walHealthy (h0, w0).
Proof.
  revert h w. induction ticks as [|n IH]; intros h w; cbn [monitor]; unfold bind.
  - exists h, w. by destruct (check _ _ (h, w)) as [[] s].
  - destruct (check _ _ (h, w)) as [[] [h1 w1]]. apply IH.
Qed.

(** After any number of health checks the readiness endpoint answers 200 exactly
    when the last check found every registered sink healthy and the replication stream
    live, and the statuses it keeps are one per registered sink, each that sink's own
    last result. *)
Theorem readiness_is_exact ticks h w h' w' :
  monitor (HealthCheckAll r) walHealthy ticks (h, w) = (tt, (h', w')) ->
  exists w0 results w1, HealthCheckAll r w0 = (results, w1) /\ dom (SinkStatuses h') = dom r /\
    (forall n, SinkStatuses h' !! n = (fun e => negb (isSome e)) <$> results !! n) /\
    (rs_status (handleReadiness (Some h')) = StatusOK <->
       (forall n e, results !! n = Some e -> e = None) /\ (walHealthy w1).1 = true).
Proof.
  destruct (monitor_last ticks h w) as (h0 & w0 & ->). intros H. pose proof (check_spec h0 w0) as Hs.
  destruct (HealthCheckAll r w0) as [results w1] eqn:Hc. exists w0, results, w1. split; [exact Hc|].
  destruct (if all_healthy results then walHealthy w1 else (false, w1)) as [live w2] eqn:Hl.
  destruct Hs as [Hs Hd]. rewrite Hs in H. injection H as <- _. unfold SinkStatuses. cbn [hs_sinkStatus]. split; [by rewrite dom_fmap_L|].
  split; [intros n; apply lookup_fmap|].
  unfold handleReadiness, IsReady. cbn [hs_ready]. unfold all_healthy in Hl.
  destruct (decide (map_Forall (fun _ e => e = None) results)) as [Ha|Ha].
  - rewrite bool_decide_eq_true_2 in Hl by done. rewrite Hl. simpl.
    destruct live; (split; [intros H; first [discriminate H | by split] | by intros []]).
  - rewrite bool_decide_eq_false_2 in Hl by done. injection Hl as <- <-. split; [discriminate|].
    intros [H _]. by destruct Ha.
Qed.
End readiness.

(** ** What an answer tells the operator *)
Section api.
Context {W : Type} `{!World W} (decode : string -> option request).

(** Why a retry is refused, and what it left behind: the entry could not be read, or its
    sink is not active; the sink refused the event, and the same entry was parked again
    with the new error and one more attempt; or the sink accepted it and the entry could
    not be removed. *)
Inductive not_retried (store : Store W) (c : Ctx) (id : string) (m : Manager W) (w : W) : error -> W -> Prop :=
  | EntryUnreadable e w1 : st_Get store c id w = (inr e, w1) -> not_retried store c id m w e w1
  | SinkInactive entry w1 :
      st_Get store c id w = (inl entry, w1) -> m_sinks m !! dl_SinkName entry = None ->
      not_retried store c id m w (EMsg ("sink " +:+ quoted (dl_SinkName entry) +:+ " is not active in this instance")) w1
  | RetryFailed entry sink w1 pe w2 entry' r w3 :
      st_Get store c id w = (inl entry, w1) -> m_sinks m !! dl_SinkName entry = Some sink ->
      Process sink (WithTimeout c w1 (m_retryTimeout m)) [dl_Event entry] w1 = (Some pe, w2) ->
      dl_ID entry' = dl_ID entry -> dl_SinkName entry' = dl_SinkName entry -> dl_Event entry' = dl_Event entry ->
      dl_Attempts entry' = (dl_Attempts entry + 1)%Z -> dl_Error entry' = Error pe ->
      st_Park store c entry' w2 = (r, w3) ->
      not_retried store c id m w (EWrap "retry failed: " pe "") w3
  | NotRemoved entry sink w1 w2 e w3 :
      st_Get store c id w = (inl entry, w1) -> m_sinks m !! dl_SinkName entry = Some sink ->
      Process sink (WithTimeout c w1 (m_retryTimeout m)) [dl_Event entry] w1 = (None, w2) ->
      st_Remove store c id w2 = (Some e, w3) ->
      not_retried store c id m w (EWrap "retry succeeded but entry removal failed: " e "") w3.

Lemma Retry_outcome (store : Store W) c id m w err m' w' :
  Retry store c id (m, w) = (err, (m', w')) ->
  m' = m /\ match err with
            | None => exists entry sink w1 w2 w3,
                st_Get store c id w = (inl entry, w1) /\ m_sinks m !! dl_SinkName entry = Some sink /\
                Process sink (WithTimeout c w1 (m_retryTimeout m)) [dl_Event entry] w1 = (None, w2) /\
                st_Remove store c id w2 = (None, w3)
            | Some e => not_retried store c id m w e w'
            end.
Proof.
  unfold Retry. run_st. destruct (st_Get store c id w) as [[entry|e] w1] eqn:Hg.
  2: { intros [= <- <- <-]. split; [done | by constructor]. }
  destruct (m_sinks m !! dl_SinkName entry) as [sink|] eqn:Hs.
  2: { intros [= <- <- <-]. split; [done | by econstructor]. }
  destruct (Process sink _ [dl_Event entry] w1) as [[pe|] w2] eqn:Hp.
  - destruct (st_Park store c _ w2) as [r w3] eqn:Hk. intros [= <- <- <-]. split; [done|].
    refine (RetryFailed _ _ _ _ _ _ _ _ _ _ _ _ _ Hg Hs Hp _ _ _ _ _ Hk); done.
  - destruct (st_Remove store c id w2) as [[e|] w3] eqn:Hr.
    + intros [= <- <- <-]. split; [done | by econstructor].
    + unfold updateDepthGauge. run_st. destruct (st_Len store c w3) as [n w4]. intros [= <- <- <-].
      split; [done|]. by exists entry, sink, w1, w2, w3.
Qed.

(** Retrying them all counts what each single retry answered. *)
Definition counted (result : RetryResult) : Prop := Retried result = (Succeeded result + Domain.Failed result)%Z.

Lemma retry_loop_outcome (store : Store W) c entries acc m w res err m' w' :
  counted acc -> retry_loop store c entries acc (m, w) = ((res, err), (m', w')) -> m' = m /\ counted res.
Proof.
  revert acc m w. induction entries as [|entry entries IH]; intros acc m w Hc; cbn [retry_loop]; run_st.
  { by intros [= <- <- <- <-]. }
  destruct (ctx_err c w); [by intros [= <- <- <- <-]|].
  destruct (Retry store c (dl_ID entry) (m, w)) as [e [m1 w1]] eqn:Hr. apply Retry_outcome in Hr as [-> _].
  apply IH. unfold counted in *. destruct e; simpl; lia.
Qed.

Lemma RetryAll_outcome (store : Store W) c m w res err m' w' :
  RetryAll store c (m, w) = ((res, err), (m', w')) -> m' = m /\ counted res.
Proof.
  unfold RetryAll. run_st. destruct (st_List store c 0 w) as [[entries|e] w1]; [by apply retry_loop_outcome|].
  by intros [= <- <- <- <-].
Qed.

Lemma Discard_outcome (store : Store W) c id m w err m' w' :
  Discard store c id (m, w) = (err, (m', w')) ->
  m' = m /\ exists w1, st_Remove store c id w = (err, w1) /\ (isSome err = true -> w' = w1).
Proof.
  unfold Discard. run_st. destruct (st_Remove store c id w) as [[e|] w1].
  - intros [= <- <- <-]. eauto.
  - unfold updateDepthGauge. run_st. destruct (st_Len store c w1) as [n w2]. intros [= <- <- <-].
    split; [done|]. exists w1. by split.
Qed.

Lemma enqueueLocked_queue cfg ref c :
  bq (enqueueLocked cfg ref c) = bq c ++ [ref] /\ running (enqueueLocked cfg ref c) = running c /\
  state (enqueueLocked cfg ref c) = state c.
Proof. unfold enqueueLocked, signal. repeat case_match; done. Qed.

(** Why a table is refused: its error is the reason's. *)
Inductive not_queued (cfg : Backfill.BackfillConfig) (ref : tableRef) (c : Coordinator) : error -> Prop :=
  | TableExcluded : isExcluded cfg ref = true ->
      not_queued cfg ref c (EMsg ("table " +:+ ref_String ref +:+ " is excluded from CDC")%string)
  | TableUnwanted : isExcluded cfg ref = false -> wanted cfg ref = false ->
      not_queued cfg ref c (EMsg ("no sink consumes rows of " +:+ ref_String ref +:+ ", nothing to backfill")%string)
  | TableBusy : isExcluded cfg ref = false -> wanted cfg ref = true -> busy_table ref c = true ->
      not_queued cfg ref c (EMsg ("backfill for " +:+ ref_String ref +:+ " is already running or queued")%string).

(** A table queued with nothing kept of its progress in memory, after the attempt to
    mark its row. *)
Definition queued_afresh (cfg : Backfill.BackfillConfig) (db : DB W) (ref : tableRef) (c : Coordinator) (w : W)
    (c' : Coordinator) (w' : W) : Prop :=
  isExcluded cfg ref = false /\ wanted cfg ref = true /\ busy_table ref c = false /\
  bq c' = bq c ++ [ref] /\ state c' = delete (ref_String ref) (state c) /\
  w' = (db_MarkPending db [ref_String ref] w).2.

Lemma EnqueueTable_outcome cfg (db : DB W) schema table c w err c' w' :
  EnqueueTable db cfg schema table (c, w) = (err, (c', w')) ->
  let ref := {| tr_Schema := schema; tr_Table := table |} in
  match err with
  | None => queued_afresh cfg db ref c w c' w'
  | Some e => not_queued cfg ref c e /\ c' = c /\ w' = w
  end.
Proof.
  unfold EnqueueTable. set (ref := {| tr_Schema := schema; tr_Table := table |}).
  destruct (isExcluded cfg ref) eqn:He; [intros [= <- <- <-]; split; [by constructor | done]|].
  destruct (wanted cfg ref) eqn:Hw; [|intros [= <- <- <-]; split; [by constructor | done]].
  simpl negb. cbv iota. run_st. destruct (busy_table ref c) eqn:Hb; [intros [= <- <- <-]; split; [by constructor | done]|].
  destruct (db_MarkPending db _ w) as [e1 w1] eqn:Hm. unfold requeue. rewrite Hb. intros [= <- <- <-].
  destruct (enqueueLocked_queue cfg ref (set_state (delete (ref_String ref) (state c)) c)) as (Hq & _ & Hs).
  unfold queued_afresh. rewrite Hq, Hs, Hm. done.
Qed.

Lemma replay_loop_busy cfg refs c ref :
  ref ∈ refs \/ busy_table ref c = true -> busy_table ref (replay_loop cfg refs c).2 = true.
Proof.
  assert (Hmono : forall r c, busy_table ref c = true \/ r = ref -> busy_table ref (enqueueLocked cfg r c) = true).
  { intros r c0 H. unfold busy_table in *. destruct (enqueueLocked_queue cfg r c0) as (-> & -> & _).
    rewrite orb_true_iff, !bool_decide_eq_true in *. set_solver. }
  revert c. induction refs as [|r refs IH]; intros c H; simpl.
  { destruct H as [H|H]; [by apply not_elem_of_nil in H | done]. }
  destruct (busy_table r c) eqn:Hb.
  - apply IH. destruct H as [[->|H]%elem_of_cons|H]; auto.
  - specialize (IH (enqueueLocked cfg r (set_state (delete (ref_String r) (state c)) c))).
    destruct (replay_loop cfg refs _) as [n c']. simpl in *. apply IH.
    destruct H as [[->|H]%elem_of_cons|H]; [right; apply Hmono; auto | by left |].
    right. apply Hmono. by left.
Qed.

(** Every published table that is to be replayed is queued or being read afterwards; one
    that could not be listed leaves the coordinator alone. *)
Lemma ReplayAll_outcome cfg (db : DB W) c w r c' w' :
  ReplayAll db cfg (c, w) = (r, (c', w')) ->
  match r, (db_PublicationTables db (bf_PublicationName cfg) w).1 with
  | inl _, inl tables => forall t, t ∈ tables -> isExcluded cfg (to_ref t) = false -> wanted cfg (to_ref t) = true ->
      busy_table (to_ref t) c' = true
  | inr e, inr e' => e = e' /\ c' = c
  | _, _ => False
  end.
Proof.
  unfold ReplayAll. run_st. destruct (db_PublicationTables db _ w) as [[tables|e] w1]; [|by intros [= <- <-]].
  destruct (db_MarkPending db _ w1) as [e2 w2]. cbn [fst].
  destruct (replay_loop cfg (replay_candidates cfg tables c) c) as [n c2] eqn:Hl. intros [= <- <- <-]. simpl.
  intros t Ht He Hw. replace c2 with (replay_loop cfg (replay_candidates cfg tables c) c).2 by (by rewrite Hl).
  apply replay_loop_busy. destruct (busy_table (to_ref t) c) eqn:Hb; [by right | left].
  apply list_elem_of_filter. split; [done|]. apply list_elem_of_fmap. by exists t.
Qed.

(** C30: The triage and backfill endpoints say what happened.  A body that does not parse
    or names nothing is answered 400 and changes nothing.  A retry of one entry is
    answered "retried" only after the entry's sink accepted the parked event and the
    store removed the entry, and 409 for exactly the four reasons it can fail, the
    entry being parked again with its new error when its sink refused it; retrying all
    answers with counts that add up.  A discard is
    answered by what removing the entry returned.  A backfill of one table is refused
    with 409 when the table is excluded, unwanted, or queued or running already, and
    then nothing has changed; accepted, it is at the end of the queue and its progress
    in memory is gone, after an attempt to mark its row whose failure does not show (the
    lane that takes the table reads the row again, so what a failed attempt left there
    counts).  A replay of all leaves every published table that is wanted and not
    excluded queued or running, and is refused only when the tables cannot be listed. *)
Theorem api_answers_are_faithful (store : Store W) cfg (db : DB W) c body m bc w :
  (let '(resp, (m', w')) := handleDLQRetry (Some (dead_letter_manager store)) decode c body (m, w) in
   match decode body with
   | None => resp = reply StatusBadRequest (BodyError "invalid JSON body") /\ (m', w') = (m, w)
   | Some req =>
       if rq_All req then m' = m /\ exists result, counted result /\
         (resp = reply StatusOK (BodyResult result) \/
          exists e, resp = reply StatusInternalServerError (BodyErrorResult (Error e) result))
       else if decide (rq_ID req = "") then resp = reply StatusBadRequest (BodyError "provide an id or all") /\ (m', w') = (m, w)
       else m' = m /\
         ((resp = reply StatusOK (BodyStatus "retried") /\ exists entry sink w1 w2 w3,
             st_Get store c (rq_ID req) w = (inl entry, w1) /\ m_sinks m !! dl_SinkName entry = Some sink /\
             Process sink (WithTimeout c w1 (m_retryTimeout m)) [dl_Event entry] w1 = (None, w2) /\
             st_Remove store c (rq_ID req) w2 = (None, w3)) \/
          exists e, resp = reply StatusConflict (BodyError (Error e)) /\ not_retried store c (rq_ID req) m w e w')
   end) /\
  (let '(resp, (m', w')) := handleDLQDiscard (Some (dead_letter_manager store)) decode c body (m, w) in
   match decode body with
   | None => resp = reply StatusBadRequest (BodyError "provide an id") /\ (m', w') = (m, w)
   | Some req =>
       if decide (rq_ID req = "") then resp = reply StatusBadRequest (BodyError "provide an id") /\ (m', w') = (m, w)
       else m' = m /\ exists w1,
         (resp = reply StatusOK (BodyStatus "discarded") /\ st_Remove store c (rq_ID req) w = (None, w1)) \/
         (exists e, resp = reply StatusConflict (BodyError (Error e)) /\ st_Remove store c (rq_ID req) w = (Some e, w1) /\
            w' = w1)
   end) /\
  (let '(resp, (bc', w')) := handleBackfillTrigger (Some (coordinator_manager cfg db)) decode body (bc, w) in
   match decode body with
   | None => resp = reply StatusBadRequest (BodyError "invalid JSON body") /\ (bc', w') = (bc, w)
   | Some req =>
       if rq_All req then
         match (db_PublicationTables db (bf_PublicationName cfg) w).1 with
         | inl tables => rs_status resp = StatusAccepted /\
             forall t, t ∈ tables -> isExcluded cfg (to_ref t) = false -> wanted cfg (to_ref t) = true ->
               busy_table (to_ref t) bc' = true
         | inr e => resp = reply StatusConflict (BodyError (Error e)) /\ bc' = bc
         end
       else if decide (rq_Table req = "") then
         resp = reply StatusBadRequest (BodyError "provide a table or all") /\ (bc', w') = (bc, w)
       else
         let ref := to_ref (request_table (rq_Table req)) in
         (resp = reply StatusAccepted (BodyStatus "enqueued") /\ queued_afresh cfg db ref bc w bc' w') \/
         exists e, resp = reply StatusConflict (BodyError (Error e)) /\ not_queued cfg ref bc e /\ (bc', w') = (bc, w)
   end).
Proof.
  split_and!.
  - unfold handleDLQRetry. destruct (decode body) as [req|]; [|done]. unfold bind.
    destruct (rq_All req).
    { simpl dm_RetryAll. destruct (RetryAll store c (m, w)) as [[res err] [m' w']] eqn:Hr.
      apply RetryAll_outcome in Hr as [-> Hr]. destruct err as [e|]; simpl; eauto 7. }
    destruct (decide (rq_ID req = "")) as [Hid|Hid];
      [by rewrite decide_False by (intros H; by apply H)|]. rewrite decide_True by done. simpl dm_Retry.
    destruct (Retry store c (rq_ID req) (m, w)) as [err [m' w']] eqn:Hr.
    apply Retry_outcome in Hr as [-> Hr]. destruct err as [e|]; simpl; (split; [done|]); [right; eauto | by left].
  - unfold handleDLQDiscard. destruct (decode body) as [req|]; [|done]. unfold bind.
    destruct (decide (rq_ID req = "")) as [Hid|Hid]; [done|]. simpl dm_Discard.
    destruct (Discard store c (rq_ID req) (m, w)) as [err [m' w']] eqn:Hr.
    apply Discard_outcome in Hr as (-> & w1 & Hr & Hw). destruct err as [e|]; simpl; (split; [done|]); exists w1; [right | by left].
    exists e. by rewrite Hw.
  - unfold handleBackfillTrigger. destruct (decode body) as [req|]; [|done]. unfold bind.
    destruct (rq_All req).
    + simpl bm_ReplayAll. destruct (ReplayAll db cfg (bc, w)) as [r [bc' w']] eqn:Hr. apply ReplayAll_outcome in Hr.
      destruct r as [n|e], (db_PublicationTables db _ w).1; simpl; try done. by destruct Hr as [-> ->].
    + destruct (decide (rq_Table req = "")) as [Ht|Ht];
        [by rewrite decide_False by (intros H; by apply H)|]. rewrite decide_True by done.
      destruct (request_table (rq_Table req)) as [schema table]. simpl bm_EnqueueTable.
      destruct (EnqueueTable db cfg schema table (bc, w)) as [err [bc' w']] eqn:Hr. apply EnqueueTable_outcome in Hr.
      destruct err as [e|]; simpl in *; [right; destruct Hr as (Hr & -> & ->); eauto | by left].
Qed.
End api.

(** ** A small server *)
Definition demo_sink : Sink unit := constant_sink "s" (fun _ => None).
Definition demo_entry : DeadLetterEntry :=
  {| dl_ID := "s:1"; dl_SinkName := "s"; dl_Schema := "public"; dl_Table := "users"; dl_Operation := "INSERT";
     dl_LSN := "0/1"; dl_Error := "down"; dl_Attempts := 3; dl_FirstFailedAt := 0; dl_LastFailedAt := 0;
     dl_Event := sample_insert "1" |}.
Definition demo_store : Store unit :=
  {| st_Park _ _ := ret None; st_Get _ _ := ret (inl demo_entry); st_List _ _ := ret (inl [demo_entry]);
     st_Remove _ _ := ret None; st_Len _ := ret (inl 0%Z) |}.
Definition demo_manager : Manager unit :=
  (WrapSink demo_store demo_sink (NewManager 3 0)).1.
Definition demo_db : DB unit :=
  {| db_EmitWatermark _ := ret None; db_PrimaryKey _ _ := ret (inl ["id"]);
     db_SelectChunk _ _ _ _ _ := ret (inr (EMsg "none")); db_PublicationTables _ := ret (inl []);
     db_EnsureStateTable := ret None; db_LoadState := ret (inl ∅); db_LoadTableState _ := ret (inl None);
     db_SaveState _ _ := ret None; db_MarkPending _ := ret None |}.
Definition demo_backfill : Backfill.BackfillConfig :=
  {| bf_SlotName := "slot"; bf_PublicationName := "pub"; bf_ChunkSize := 10; bf_ChunkDelay := 0; bf_Lanes := 1;
     bf_ExcludedTables := ∅; bf_Wanted := None |}.
Definition demo_decode (body : string) : option request :=
  if decide (body = "") then None else Some {| rq_ID := "s:1"; rq_Table := "app.users"; rq_All := false |}.

Lemma readiness_is_exact_witness :
  exists h' w', monitor (HealthCheckAll {[ "s" := demo_sink ]}) (ret true) 2 (NewHealthStatus, tt) = (tt, (h', w')) /\
  exists w0 results w1, HealthCheckAll {[ "s" := demo_sink ]} w0 = (results, w1) /\
    dom (SinkStatuses h') = dom ({[ "s" := demo_sink ]} : gmap string (Sink unit)) /\
    (forall n, SinkStatuses h' !! n = (fun e => negb (isSome e)) <$> results !! n) /\
    (rs_status (handleReadiness (Some h')) = StatusOK <->
       (forall n e, results !! n = Some e -> e = None) /\ (@ret unit bool true w1).1 = true).
Proof.
  eexists _, tt. split; [vm_compute; reflexivity|].
  eapply (readiness_is_exact {[ "s" := demo_sink ]} (ret true) 2 NewHealthStatus tt). vm_compute. reflexivity.
Defined.

(** An instance with a queue and a coordinator; the table of the request is wanted, and
    asked for twice it is refused. *)
Example api_demo :
  (handleDLQRetry (Some (dead_letter_manager demo_store)) demo_decode Background "body" (demo_manager, tt)).1 =
    reply StatusOK (BodyStatus "retried") /\
  (let '(first, w1) := handleBackfillTrigger (Some (coordinator_manager demo_backfill demo_db)) demo_decode "body" (NewCoordinator, tt) in
   let '(second, _) := handleBackfillTrigger (Some (coordinator_manager demo_backfill demo_db)) demo_decode "body" w1 in
   (rs_status first, rs_status second)) = (StatusAccepted, StatusConflict).
Proof. split; vm_compute; reflexivity. Qed.
