(* ===== verification/Wiring.v ===== *)
(** * The gateway as wired together
      (src/cmd/gateway/modules.go from [newSinkRegistry] on)

    The destinations' own sinks ([Sinks]) in the place of [Gateway]'s constructors, the
    registry and the service over what [newSinks] builds, and what that composition
    guarantees end to end: a committed change the server holds as confirmed has been
    accepted by every configured destination, or parked for it. *)

From Stdlib Require Import ZArith Lia Ascii String.
From stdpp Require Import base list gmap strings pretty sorting.
From S2P Require Import Prelude Domain DeadLetter SchemaChange Decoder Reader Service Pipeline Resilience Transform Meili Keys RedisSinks Publish Config MeiliSetup Sinks Gateway Assembly Metrics Server.

Open Scope go_scope.
Set Warnings "-clear-no-such-hyp".
Set Default Proof Using "Type".

(** ** The sinks' names

    What the registry relies on: a destination's sink has the destination's name. *)
Class NamedDestinations {W Template} (d : Destinations (W := W) (Template := Template)) : Prop := {
  named_stream rc kr s : new_stream d rc kr = inl s -> Name s = "redis-stream";
  named_json jc kr s : new_json d jc kr = inl s -> Name s = "redis-json";
  named_webhook wc f : Name (new_webhook d wc f) = "webhook";
  named_nats nc kr : Name (new_nats d nc kr) = "nats";
  named_meili mc f : Name (new_meili d mc f) = "meilisearch";
  named_outbox cfg r u s : new_outbox d cfg r u = inl s -> Name s = "outbox";
}.

#[export] Instance observed_named {W Template} (d : Destinations (W := W) (Template := Template)) :
  NamedDestinations d -> NamedDestinations (observed d).
Proof.
  intros [H1 H2 H3 H4 H5 H6]. split; simpl; [| |done..|].
  - intros rc kr s. destruct (new_stream d rc kr) as [s0|] eqn:E; [|done]. intros [= <-]. exact (H1 _ _ _ E).
  - intros jc kr s. destruct (new_json d jc kr) as [s0|] eqn:E; [|done]. intros [= <-]. exact (H2 _ _ _ E).
  - intros cfg r u s. destruct (new_outbox d cfg r u) as [s0|] eqn:E; [|done]. intros [= <-]. exact (H6 _ _ _ _ E).
Qed.

Section names.
Context {B G W : Type} `{!World W} (breaker : Breaker B G) (b0 : B) (wait : Ctx -> Z -> ST W bool).
Context (sha256hex : string -> string) (hmac256hex : string -> string -> string).
Context {Ast Program : Type} (celEnv : option error) (cel_Compile : string -> res Ast) (OutputType : Ast -> string).
Context (cel_Program cel_PartialProgram : Ast -> res Program).
Context (Eval : Program -> string * string * string * columns * columns -> res cel_value).
Context (PartialEval : Program -> string * string * string -> res cel_value).
Context {Template : Type} (Parse : string -> res Template).
Context (env : Env) (cfg : Config) (sinksCfg : SinksConfig).
Context (dest : Destinations (W := W) (Template := Template)) `{!NamedDestinations dest}.
Context (NonReplicationURL : string -> string).

Definition mirror_names : list string :=
  (if rd_Enabled (Redis_LoadConfig env) then ["redis-stream"] else []) ++
  (if rj_Enabled (RedisJSON_LoadConfig env) then ["redis-json"] else []) ++
  (if wh_Enabled (Webhook_LoadConfig env) then ["webhook"] else []) ++
  (if na_Enabled (NATS_LoadConfig env) then ["nats"] else []) ++
  (if me_Enabled (Meili_LoadConfig env) then ["meilisearch"] else []).
Definition outbox_names : list string := if Enabled (sc_Outbox sinksCfg) then ["outbox"] else [].

Lemma names_NoDup : NoDup (mirror_names ++ outbox_names).
Proof.
  unfold mirror_names, outbox_names.
  repeat match goal with |- context [if ?b then _ else _] => destruct b end;
    apply (bool_decide_eq_true_1 (NoDup _)); vm_compute; reflexivity.
Qed.

Abbreviation add := (addSink breaker b0 wait sha256hex hmac256hex celEnv cel_Compile OutputType cel_Program
  cel_PartialProgram Eval PartialEval cfg (sc_Outbox sinksCfg)).
Abbreviation wrap := (wrapResilienceAndDLQ breaker b0 wait).

Lemma wrap_name (sink : Sink W) dlq : Name (wrap cfg sink dlq).2 = Name sink.
Proof. unfold wrapResilienceAndDLQ. by destruct dlq as [[store m]|]. Qed.

(** A block of [newSinks] adds a sink of its name, or nothing when it is off. *)
Definition names_block (on : bool) (name : string) (block : @built B W -> res (@built B W)) : Prop :=
  forall acc acc', block acc = inl acc' -> map Name acc'.2 = map Name acc.2 ++ (if on then [name] else []).

Lemma add_names (sink : Sink W) global tables name :
  Name sink = name -> names_block true name (add sink global tables).
Proof.
  intros <- [dlq sinks] [dlq' sinks']. unfold addSink. pose proof (wrap_name sink dlq) as Hw.
  destruct (wrap cfg sink dlq) as [dlq1 s].
  destruct (NewSink _ _ _ _ _ _ _ _ _ s _ _ _) as [wrapped|] eqn:Hn; [|done].
  assert (Name wrapped = Name s).
  { unfold NewSink in Hn. repeat case_match; by simplify_eq. }
  destruct (SchemaTable _) as [sc tb]. intros [= <- <-]. simpl. rewrite map_app. simpl.
  destruct (Enabled _); simpl in *; congruence.
Qed.
Lemma skip_names name : names_block false name inl.
Proof. intros acc acc' [= <-]. by rewrite app_nil_r. Qed.
Lemma fail_names on name e : names_block on name (fun _ => inr e).
Proof. intros acc acc' [=]. Qed.

Abbreviation the_add_stream := (add_stream breaker b0 wait sha256hex hmac256hex celEnv cel_Compile OutputType cel_Program
  cel_PartialProgram Eval PartialEval).
Abbreviation the_add_json := (add_json breaker b0 wait sha256hex hmac256hex celEnv cel_Compile OutputType cel_Program
  cel_PartialProgram Eval PartialEval).
Abbreviation the_add_webhook := (add_webhook breaker b0 wait sha256hex hmac256hex celEnv cel_Compile OutputType cel_Program
  cel_PartialProgram Eval PartialEval).
Abbreviation the_add_nats := (add_nats breaker b0 wait sha256hex hmac256hex celEnv cel_Compile OutputType cel_Program
  cel_PartialProgram Eval PartialEval).
Abbreviation the_add_meili := (add_meili breaker b0 wait sha256hex hmac256hex celEnv cel_Compile OutputType cel_Program
  cel_PartialProgram Eval PartialEval).
Abbreviation the_newSinks := (newSinks breaker b0 wait sha256hex hmac256hex celEnv cel_Compile OutputType cel_Program
  cel_PartialProgram Eval PartialEval).

Lemma stream_names :
  names_block (rd_Enabled (Redis_LoadConfig env)) "redis-stream" (the_add_stream Parse env cfg sinksCfg dest).
Proof using NamedDestinations0.
  unfold add_stream. destruct (rd_Enabled _); [|apply skip_names].
  destruct (keyed_resolver _ _ _ _) as [r|]; [|apply fail_names].
  destruct (new_stream dest _ r) eqn:E; [by eapply add_names, named_stream | apply fail_names].
Qed.
Lemma json_names :
  names_block (rj_Enabled (RedisJSON_LoadConfig env)) "redis-json" (the_add_json Parse env cfg sinksCfg dest).
Proof using NamedDestinations0.
  unfold add_json. destruct (rj_Enabled _); [|apply skip_names].
  destruct (keyed_resolver _ _ _ _) as [r|]; [|apply fail_names].
  destruct (new_json dest _ r) eqn:E; [by eapply add_names, named_json | apply fail_names].
Qed.
Lemma webhook_names :
  names_block (wh_Enabled (Webhook_LoadConfig env)) "webhook" (the_add_webhook env cfg sinksCfg dest).
Proof using NamedDestinations0.
  unfold add_webhook. destruct (wh_Enabled _); [apply add_names, named_webhook | apply skip_names].
Qed.
Lemma nats_names :
  names_block (na_Enabled (NATS_LoadConfig env)) "nats" (the_add_nats Parse env cfg sinksCfg dest).
Proof using NamedDestinations0.
  unfold add_nats. destruct (na_Enabled _); [|apply skip_names].
  destruct (keyed_resolver _ _ _ _) as [r|]; [apply add_names, named_nats | apply fail_names].
Qed.
Lemma meili_names :
  names_block (me_Enabled (Meili_LoadConfig env)) "meilisearch" (the_add_meili env cfg sinksCfg dest).
Proof using NamedDestinations0.
  unfold add_meili. destruct (me_Enabled _); [apply add_names, named_meili | apply skip_names].
Qed.
Lemma outbox_name :
  names_block (Enabled (sc_Outbox sinksCfg)) "outbox" (add_outbox breaker b0 wait env cfg sinksCfg dest NonReplicationURL).
Proof using NamedDestinations0.
  unfold add_outbox. destruct (Enabled _); [|apply skip_names]. destruct (SchemaTable _).
  destruct (new_outbox dest _ _ _) as [ob|] eqn:E; [|apply fail_names]. intros [dlq sinks] [dlq' sinks'].
  pose proof (wrap_name ob dlq) as Hw. destruct (wrap cfg ob dlq) as [d6 s6]. intros [= <- <-].
  simpl in *. by rewrite map_app, <- (named_outbox _ _ _ _ E), <- Hw.
Qed.

(** [newSinks] builds one sink per configured destination, each under its name. *)
Lemma newSinks_names dlq dlq' sinks :
  the_newSinks Parse env cfg sinksCfg dest NonReplicationURL dlq = inl (dlq', sinks) ->
  map Name sinks = mirror_names ++ outbox_names.
Proof using NamedDestinations0.
  unfold newSinks, mirror_names, outbox_names. intros H.
  destruct (the_add_stream _ _ _ _ _ _) as [a1|] eqn:E1; [|discriminate].
  destruct (the_add_json _ _ _ _ _ _) as [a2|] eqn:E2; [|discriminate].
  destruct (the_add_webhook _ _ _ _ _) as [a3|] eqn:E3; [|discriminate].
  destruct (the_add_nats _ _ _ _ _ _) as [a4|] eqn:E4; [|discriminate].
  destruct (the_add_meili _ _ _ _ _) as [a5|] eqn:E5; [|discriminate].
  apply stream_names in E1. apply json_names in E2. apply webhook_names in E3.
  apply nats_names in E4. apply meili_names in E5. apply outbox_name in H. simpl in E1, H.
  by rewrite H, E5, E4, E3, E2, E1, <- !app_assoc.
Qed.
End names.

(** ** The destinations' own sinks

    A sink's fields that change are a part of the destinations' state, absent until the
    sink is first used: the value its constructor was given is then the default. *)
Section held.
Context {S DS W : Type} (get : DS -> option S) (set : S -> DS -> DS) (s0 : S).

Definition held {A} (m : ST (S * W) A) : ST (DS * W) A :=
  fun '(ds, w) => let '(a, (s, w')) := m (default s0 (get ds), w) in (a, (set s ds, w')).
Definition held_sink (s : Sink (S * W)) : Sink (DS * W) :=
  {| Name := Name s; Initialize := held (Initialize s); Process := fun c events => held (Process s c events);
     Shutdown := held (Shutdown s); HealthCheck := held (HealthCheck s);
     batch_limiter := batch_limiter s; router := router s |}.
End held.

(** A sink with two parts of state, as one. *)
Definition paired {S1 S2 W A} (m : ST (S1 * (S2 * W)) A) : ST (S1 * S2 * W) A :=
  fun '((s1, s2), w) => let '(a, (s1', (s2', w'))) := m (s1, (s2, w)) in (a, ((s1', s2'), w')).
Definition paired_sink {S1 S2 W} (s : Sink (S1 * (S2 * W))) : Sink (S1 * S2 * W) :=
  {| Name := Name s; Initialize := paired (Initialize s); Process := fun c events => paired (Process s c events);
     Shutdown := paired (Shutdown s); HealthCheck := paired (HealthCheck s);
     batch_limiter := batch_limiter s; router := router s |}.

Section destinations.
Context {Template W Options Conn JS F P : Type} `{!World W, !MeiliAdmin W}.
Context (Parse : string -> res Template) (Render : Template -> KeyTemplateContext -> res string).
Context (Marshal : any -> res string) (time_any : Z -> any).
(** Redis, HTTP, NATS, PostgreSQL and Meilisearch, as in the sinks' own files. *)
Context (ParseURL : string -> res Options) (NewClient : Options -> RedisClient W).
Context (hmac256hex : string -> string -> string) (TrimSpace : string -> string).
Context (request_err : option error) (Do : Ctx -> Publish.request -> ST W (res Publish.response)) (CloseIdleConnections : ST W unit).
Context (nats : NatsClient W Conn JS).
Context (PublishMsg : Msg -> ST W (option error)) (Flush : Ctx -> ST W (option error)).
Context (PublishMsgAsync : Msg -> string -> ST W (res F)) (AwaitAck : Ctx -> F -> ST W ack_result).
Context (pg : PgClient W P) (Sanitize : list string -> string).
Context (range : gmap string MeiliIndexSettings -> list (string * MeiliIndexSettings)).
Context (Enqueue : Ctx -> string -> Meili.run -> ST W (res Z)).
Context (GetTasks : Ctx -> list Z -> ST W (res (list Task))).
Context (StatusCode : error -> option Z) (wait : Ctx -> Z -> ST W bool) (patience : nat).
Abbreviation resolver := (KeyResolver (Template := Template)).

(** The state of the sinks: the resolvers' caches, the NATS connection, the outbox's
    pool and Meilisearch's interrupted batch. *)
Record DestState := {
  dst_stream : option resolver;
  dst_json : option resolver;
  dst_nats : option (option resolver * NatsState Conn JS);
  dst_outbox : option (OutboxState P);
  dst_meili : option (option inflight);
}.
Definition idle : DestState :=
  {| dst_stream := None; dst_json := None; dst_nats := None; dst_outbox := None; dst_meili := None |}.
Definition set_dst_stream x s := {| dst_stream := Some x; dst_json := dst_json s; dst_nats := dst_nats s;
  dst_outbox := dst_outbox s; dst_meili := dst_meili s |}.
Definition set_dst_json x s := {| dst_stream := dst_stream s; dst_json := Some x; dst_nats := dst_nats s;
  dst_outbox := dst_outbox s; dst_meili := dst_meili s |}.
Definition set_dst_nats x s := {| dst_stream := dst_stream s; dst_json := dst_json s; dst_nats := Some x;
  dst_outbox := dst_outbox s; dst_meili := dst_meili s |}.
Definition set_dst_outbox x s := {| dst_stream := dst_stream s; dst_json := dst_json s; dst_nats := dst_nats s;
  dst_outbox := Some x; dst_meili := dst_meili s |}.
Definition set_dst_meili x s := {| dst_stream := dst_stream s; dst_json := dst_json s; dst_nats := dst_nats s;
  dst_outbox := dst_outbox s; dst_meili := Some x |}.

(** The constructors [newSinks] calls. *)
Definition destinations : Destinations (W := DestState * W) (Template := Template) :=
  {| new_stream rc kr :=
       ok! s := NewStreamSink Parse Render Marshal time_any ParseURL NewClient rc kr in
       inl (held_sink dst_stream set_dst_stream kr s);
     new_json jc kr :=
       ok! s := NewJSONSink Parse Render Marshal ParseURL NewClient jc kr in
       inl (held_sink dst_json set_dst_json kr s);
     new_webhook wc k :=
       inner_sink (NewWebhookSink Marshal time_any hmac256hex TrimSpace request_err Do CloseIdleConnections wc
                     (Some (Keyed_ShouldProcess k)));
     new_nats nc kr :=
       held_sink dst_nats set_dst_nats (Some kr, {| nt_conn := None; nt_js := None |})
         (paired_sink (NewNATSSink Parse Render Marshal time_any nats nc PublishMsg Flush PublishMsgAsync AwaitAck
                         (Some kr)));
     new_meili mc k :=
       held_sink dst_meili set_dst_meili None
         (NewMeiliSink range Enqueue GetTasks StatusCode wait patience (ms_Tables k));
     new_outbox cfg url db :=
       ok! s := NewOutboxSink Marshal ParseURL NewClient pg Sanitize cfg db url in
       inl (held_sink dst_outbox set_dst_outbox {| os_pool := None; os_deleteSQL := "" |} s) |}.

(** The names the sinks give themselves are the registry's. *)
#[export] Instance destinations_named : NamedDestinations destinations.
Proof.
  split; try done; simpl.
  - intros rc kr s. unfold NewStreamSink, NewBaseSink. destruct (ParseURL _); [|done]. by intros [= <-].
  - intros jc kr s. unfold NewJSONSink, NewBaseSink. destruct (ParseURL _); [|done]. by intros [= <-].
  - intros cfg r u s. unfold NewOutboxSink. destruct (decide _); [done|]. destruct (ParseURL r); [|done].
    by intros [= <-].
Qed.
End destinations.

(** ** The registry and the service *)
Definition newSinkRegistry {W} (sinks : list (Sink W)) : sinkRegistry W := NewSinkRegistryWithSinks sinks.

Record CDCServiceConfig := { sv_ParallelSinks : bool; sv_ExcludedTables : gset string }.
Definition newCDCService (cfg : Config) : CDCServiceConfig :=
  {| sv_ParallelSinks := cfg_ParallelSinks cfg; sv_ExcludedTables := service_excluded cfg |}.

(** Sinks of distinct names are all registered. *)
Lemma registry_keeps_all {W} (sinks : list (Sink W)) :
  NoDup (map Name sinks) -> forall s, s ∈ sinks -> s ∈ All (newSinkRegistry sinks).
Proof.
  intros Hnd s Hs. unfold All, newSinkRegistry, NewSinkRegistryWithSinks.
  apply list_elem_of_fmap. exists (Name s, s). split; [done|]. apply elem_of_map_to_list.
  rewrite registry_fold_lookup, lookup_empty.
  destruct (list_find_elem_of (fun s' => Name s' = Name s) sinks s Hs eq_refl) as [[i s'] Hf].
  rewrite Hf. simpl. f_equal. apply list_find_Some in Hf as (Hi & Hn & _).
  apply list_elem_of_lookup in Hs as [j Hj].
  assert (i = j); [|congruence]. apply (NoDup_lookup (map Name sinks) i j (Name s) Hnd);
    rewrite list_lookup_fmap; [rewrite Hi | rewrite Hj]; simpl; congruence.
Qed.

Lemma registered_only {W} (sinks : list (Sink W)) s : s ∈ All (newSinkRegistry sinks) -> s ∈ sinks.
Proof.
  unfold All, newSinkRegistry, NewSinkRegistryWithSinks. intros ([n s'] & -> & Hin)%list_elem_of_fmap.
  apply elem_of_map_to_list in Hin. rewrite registry_fold_lookup, lookup_empty in Hin.
  destruct (list_find _ sinks) as [[i s0]|] eqn:Hf; [|discriminate]. injection Hin as ->.
  apply list_find_Some in Hf as (Hi & _). by eapply list_elem_of_lookup_2.
Qed.

(** ** The HTTP server *)

(** [ui.DistFS]: the embedded dashboard, when a build is present. *)
Definition DistFS {FS} (Sub : FS -> string -> res FS) (Stat : FS -> string -> res unit) (distFS : FS) : option FS :=
  match Sub distFS "dist" with
  | inr _ => None
  | inl sub => match Stat sub "index.html" with inr _ => None | inl _ => Some sub end
  end.

(** A part that is off is passed as a nil interface, not as a nil pointer in one. *)
Definition newHTTPServer {BM DM FS} (version : string) (dist : option FS) (startedAt : Z) (cfg : Config)
    (coordinator : option BM) (dlqManager : option DM) (health : HealthStatus) (schemaRecorder : Recorder)
    : Server BM DM FS :=
  New {| pr_Config := {| svc_Port := cfg_HTTPPort cfg; svc_Pprof := cfg_Pprof cfg |};
         pr_Checker := health; pr_Backfill := coordinator; pr_DLQ := dlqManager; pr_WAL := true;
         pr_UI := dist; pr_Schema := Some schemaRecorder;
         pr_Info := {| ii_Version := version; ii_SlotName := cfg_SlotName cfg;
                       ii_Publication := cfg_PublicationName cfg |} |} startedAt.

Definition healthCheckInterval : Z := 10 * Second.

(** ** The whole composition ([Module])

    The providers in the order their results are needed; the first error stops the
    start. *)
Section module.
Context {V : Validation}.
Context {B G W DB O FS : Type} `{!World W} (breaker : Breaker B G) (b0 : B) (wait : Ctx -> Z -> ST W bool).
Context (sha256hex : string -> string) (hmac256hex : string -> string -> string).
Context {Ast Program : Type} (celEnv : option error) (cel_Compile : string -> res Ast) (OutputType : Ast -> string).
Context (cel_Program cel_PartialProgram : Ast -> res Program).
Context (Eval : Program -> string * string * string * columns * columns -> res cel_value).
Context (PartialEval : Program -> string * string * string -> res cel_value).
Context {Template : Type} (Parse : string -> res Template).
Context (ReadFile : string -> res string) (Unmarshal : string -> SinksConfig -> res SinksConfig).
Context (dest : Destinations (W := W) (Template := Template)) (NonReplicationURL : string -> string).
Abbreviation BW := (gmap string B * W)%type.
Abbreviation GW := (Manager BW * BW)%type.
Context (NewRedisStore : string -> string -> Z -> res (Store BW)) (NewDB : string -> string -> Z -> res DB).
Context (recorder : O) (NewRedisPublisher : string -> string -> Z -> res O).
Context (version : string) (dist : option FS) (startedAt : Z).

Record Gateway := {
  gw_cfg : Config; gw_sinksCfg : SinksConfig; gw_dlq : option (Store BW * Manager BW);
  gw_sinks : list (Sink GW); gw_registry : sinkRegistry GW;
  gw_coordinator : option (DB * Backfill.BackfillConfig); gw_observers : list O; gw_reader : WALReaderSetup;
  gw_service : CDCServiceConfig; gw_health : HealthStatus;
  gw_server : Server (DB * Backfill.BackfillConfig) (Store BW * Manager BW) FS;
}.

Definition Module (env : Env) : res Gateway :=
  ok! cfg := Load env in
  ok! sinksCfg := LoadSinksConfig ReadFile Unmarshal env in
  ok! dlq0 := newDLQManager NewRedisStore env cfg in
  ok! built := newSinks breaker b0 wait sha256hex hmac256hex celEnv cel_Compile OutputType cel_Program
                 cel_PartialProgram Eval PartialEval Parse env cfg sinksCfg dest NonReplicationURL dlq0 in
  let '(dlq, sinks) := built in
  ok! coordinator := newBackfillCoordinator NewDB cfg sinksCfg sinks in
  ok! observers := newSchemaObserver recorder NewRedisPublisher env cfg in
  inl {| gw_cfg := cfg; gw_sinksCfg := sinksCfg; gw_dlq := dlq; gw_sinks := sinks;
         gw_registry := newSinkRegistry sinks; gw_coordinator := coordinator; gw_observers := observers;
         gw_reader := newWALReader cfg (isSome coordinator); gw_service := newCDCService cfg;
         gw_health := NewHealthStatus;
         gw_server := newHTTPServer version dist startedAt cfg coordinator dlq NewHealthStatus NewRecorder |}.

(** What a gateway that started is made of. *)
Lemma Module_parts env gw :
  Module env = inl gw ->
  Load env = inl (gw_cfg gw) /\
  (exists dlq0, newDLQManager NewRedisStore env (gw_cfg gw) = inl dlq0 /\
     newSinks breaker b0 wait sha256hex hmac256hex celEnv cel_Compile OutputType cel_Program cel_PartialProgram
       Eval PartialEval Parse env (gw_cfg gw) (gw_sinksCfg gw) dest NonReplicationURL dlq0
       = inl (gw_dlq gw, gw_sinks gw)) /\
  gw_registry gw = newSinkRegistry (gw_sinks gw) /\ gw_service gw = newCDCService (gw_cfg gw).
Proof.
  unfold Module. intros H. destruct (Load env) as [cfg|]; [|discriminate].
  destruct (LoadSinksConfig _ _ _) as [sinksCfg|]; [|discriminate].
  destruct (newDLQManager _ _ _) as [dlq0|] eqn:Hd; [|discriminate].
  destruct (newSinks _ _ _ _ _ _ _ _ _ _ _ _ _ _ _ _ _ _ _) as [[dlq sinks]|] eqn:Hs; [|discriminate].
  destruct (newBackfillCoordinator _ _ _ _) as [co|]; [|discriminate].
  destruct (newSchemaObserver _ _ _ _) as [ob|]; [|discriminate]. injection H as <-. simpl. eauto 6.
Qed.
End module.

(** ** The ports between the parts (core/ports) *)
Record SinkRegistry (W : Type) := {
  reg_Register : Sink W -> ST (sinkRegistry W * W) (option error);
  reg_Unregister : string -> ST (sinkRegistry W * W) (option error);
  reg_Get : string -> ST (sinkRegistry W * W) (res (Sink W));
  reg_All : ST (sinkRegistry W * W) (list (Sink W));
  reg_InitializeAll : ST (sinkRegistry W * W) (option error);
  reg_ShutdownAll : ST (sinkRegistry W * W) (option error);
  reg_HealthCheckAll : ST (sinkRegistry W * W) (gmap string (option error));
}.
Definition registry_port {W} : SinkRegistry W :=
  {| reg_Register sink := own (Register sink);
     reg_Unregister name := own (Unregister name);
     reg_Get name := let! s := get in ret (Get name s.1);
     reg_All := let! s := get in ret (All s.1);
     reg_InitializeAll := let! s := get in inner (InitializeAll s.1);
     reg_ShutdownAll := let! s := get in inner (ShutdownAll s.1);
     reg_HealthCheckAll := let! s := get in inner (HealthCheckAll s.1) |}.

Record CDCService (W : Type) := {
  cdc_Start : ST W (option error);
  cdc_Stop : ST W (option error);
  cdc_ProcessBatch : Ctx -> list CDCEvent -> ST W (list SinkResult);
}.
Arguments cdc_Start {W}. Arguments cdc_Stop {W}. Arguments cdc_ProcessBatch {W}.

(** [services.NewCDCService]: the service over its reader and registry; its [shutdown]
    channel and the handlers in flight are read and changed through the world. *)
Definition NewCDCService {W} `{!World W} (schedule : list (nat * Sink W) -> list (nat * Sink W))
    (shutdown_closed : W -> bool) (close_shutdown : W -> W) (wait_in_flight : ST W unit)
    (config : CDCServiceConfig) (reader : WALReader) (registry : sinkRegistry W) : CDCService W :=
  {| cdc_Start := service_Start (sv_ParallelSinks config) (sv_ExcludedTables config) schedule shutdown_closed
                    registry reader;
     cdc_Stop := service_Stop close_shutdown wait_in_flight registry reader;
     cdc_ProcessBatch c events := ProcessBatch (sv_ParallelSinks config) schedule c (All registry) events |}.

(** ** [run]: what is started and stopped, and what ends the process *)
Definition run {W} (svc : CDCService W) (srv_Start srv_Stop : ST W (option error)) (StartHealthMonitor : ST W (ST W unit))
    (coordinator : option (ST W unit * ST W unit)) (cancel shutdowner_Shutdown : ST W unit) : Parts :=
  {| p_coordinator := coordinator;
     p_service_Start := (let! err := cdc_Start svc in if service_exit err then shutdowner_Shutdown else ret tt);
     p_server_Start := (let! err := srv_Start in if server_exit err then shutdowner_Shutdown else ret tt);
     p_StartHealthMonitor := StartHealthMonitor;
     p_cancel := cancel; p_service_Stop := cdc_Stop svc; p_server_Stop := srv_Stop |}.

(** ** From the log to the destinations *)

(** What a sink took of the service's calls is in its part of the gateway's log, and
    stays there. *)
Section backed.
Context {X : Type} (full : X -> list obs) (sinks : list (Sink X)).
Abbreviation TX := (list (string * call) * X)%type.

(** A step only adds to the log. *)
Definition grows {A} (m : ST X A) : Prop := forall x, full x `prefix_of` full (m x).2.

Definition Backed (sk : Sink X) (g : CDCEvent -> option CDCEvent) (w : TX) : Prop :=
  omap g (holds sk w) `sublist_of` DeadLetter.accepted (of_sink (Name sk) (full w.2)).

Lemma accepted_prefix l1 l2 : l1 `prefix_of` l2 -> DeadLetter.accepted l1 `prefix_of` DeadLetter.accepted l2.
Proof. intros [k ->]. rewrite accepted_app. by eexists. Qed.

Lemma Backed_grows sk g book x x' :
  full x `prefix_of` full x' -> Backed sk g (book, x) -> Backed sk g (book, x').
Proof.
  unfold Backed, holds. simpl. intros Hp Hb. etrans; [exact Hb|].
  destruct (accepted_prefix _ _ (of_sink_prefix (Name sk) _ _ Hp)) as [k ->]. by apply sublist_inserts_r.
Qed.

Lemma Backed_call sk g (s : Sink X) :
  sink_accounts (fun x => of_sink (Name sk) (full x)) (omap g) sk ->
  (s = sk \/ Name s <> Name sk) -> (forall c events, grows (Process s c events)) ->
  Service.keeps (Backed sk g) (tagged s).
Proof.
  intros Hacc Hs Hgrow c events [book x] Hb. simpl.
  destruct (Process s c events x) as [r x'] eqn:Hp. pose proof (Hgrow c events x) as Hg. rewrite Hp in Hg.
  pose proof (Backed_grows _ _ _ _ _ Hg Hb) as Hb'. unfold Backed, holds in *. simpl in *.
  rewrite calls_of_app, delivered_app, omap_app. destruct Hs as [->|Hne].
  - destruct (Hacc _ _ _ _ _ Hp) as (new & E & Hn).
    change [(Name sk, (events, r))] with (map (pair (Name sk)) [(events, r)]). rewrite calls_of_tag.
    destruct r as [e|]; [unfold delivered at 2; simpl; by rewrite app_nil_r|].
    simpl in Hn. rewrite E, accepted_app, Hn. unfold delivered at 2. simpl. rewrite app_nil_r.
    by apply sublist_app.
  - change [(Name s, (events, r))] with (map (pair (Name s)) [(events, r)]).
    rewrite calls_of_other by congruence. by rewrite app_nil_r.
Qed.

Lemma Backed_keeps sk g :
  NoDup (map Name sinks) -> sk ∈ sinks ->
  sink_accounts (fun x => of_sink (Name sk) (full x)) (omap g) sk ->
  Forall (fun s => forall c events, grows (Process s c events)) sinks ->
  Forall (Service.keeps (Backed sk g)) (map tagged sinks).
Proof.
  intros Hnd Hsk Hacc Hgrow. apply Forall_map, Forall_forall. intros s Hs. simpl.
  rewrite Forall_forall in Hgrow. apply Backed_call; [done | | by apply Hgrow].
  destruct (decide (Name s = Name sk)) as [Heq|]; [left | by right].
  apply list_elem_of_lookup in Hs as [i Hi], Hsk as [j Hj].
  assert (i = j); [|congruence]. apply (NoDup_lookup (map Name sinks) i j (Name sk) Hnd);
    rewrite list_lookup_fmap; [rewrite Hi | rewrite Hj]; simpl; congruence.
Qed.
End backed.

Lemma omap_Some_id {A} (l : list A) : omap Some l = l.
Proof. induction l as [|x l IH]; [done|]. cbn [omap list_omap] in *. f_equal. exact IH. Qed.

Lemma omap_sublist {A C} (g : A -> option C) (l1 l2 : list A) :
  l1 `sublist_of` l2 -> omap g l1 `sublist_of` omap g l2.
Proof.
  induction 1 as [|x l1 l2 _ IH|x l1 l2 _ IH]; [constructor|..]; cbn [omap list_omap] in *;
    destruct (g x); by try constructor.
Qed.

Section gateway.
Context {B G W : Type} `{!World W} (breaker : Breaker B G) (b0 : B) (wait : Ctx -> Z -> ST W bool).
Context (sha256hex : string -> string) (hmac256hex : string -> string -> string).
Context {Ast Program : Type} (celEnv : option error) (cel_Compile : string -> res Ast) (OutputType : Ast -> string).
Context (cel_Program cel_PartialProgram : Ast -> res Program).
Context (Eval : Program -> string * string * string * columns * columns -> res cel_value).
Context (PartialEval : Program -> string * string * string -> res cel_value).
Context {Template : Type} (Parse : string -> res Template).
Context (env : Env) (cfg : Config) (sinksCfg : SinksConfig).
Context (dest : Destinations (W := W) (Template := Template)) `{!NamedDestinations dest}.
Context (NonReplicationURL : string -> string).
(** PostgreSQL's protocol and the rest of the process, as in [Pipeline]. *)
Context (LSN_String : Z -> string).
Context (TypeForOID : Z -> option (string * (string -> res any))).
Context (ParsePrimaryKeepaliveMessage : string -> res PrimaryKeepaliveMessage).
Context (ParseXLogData : string -> res XLogData).
Context (ParseV2 : string -> res Message).
Context {C : Type} (controller : option (Controller C)) (MaxBatchEvents : Z).

Abbreviation OW := (list obs * W)%type.
Abbreviation OBW := (gmap string B * OW)%type.
Abbreviation OGW := (Manager OBW * OBW)%type.
Abbreviation TW := (list (string * call) * OGW)%type.
Context (schedule : list (nat * Sink TW) -> list (nat * Sink TW)).
Context (shutdown_closed : OGW -> bool) (deliverCtx : Ctx).
Context (dlq dlq' : option (Store OBW * Manager OBW)) (sinks : list (Sink OGW)) (WAL : list Txn).

Abbreviation decode := (Decode LSN_String TypeForOID ParsePrimaryKeepaliveMessage ParseXLogData ParseV2).
Abbreviation is_compiled := (compiled sha256hex hmac256hex (cfg_MaskHMACKey cfg) celEnv cel_Compile OutputType
                               cel_Program cel_PartialProgram).
Abbreviation the_sinks := (newSinks breaker b0 (observed_wait wait) sha256hex hmac256hex celEnv cel_Compile
  OutputType cel_Program cel_PartialProgram Eval PartialEval Parse env cfg sinksCfg (observed dest) NonReplicationURL).

(** The rest of the process (the API's retries among it) only adds to the log. *)
Definition log_grows (w w' : OGW) : Prop := gateway_log w `prefix_of` gateway_log w'.

(** The service over the registered sinks, along a lifetime. *)
Abbreviation registered := (All (newSinkRegistry sinks)).
Abbreviation gateway_lifetime :=
  (lifetime LSN_String TypeForOID ParsePrimaryKeepaliveMessage ParseXLogData ParseV2 controller
     MaxBatchEvents (sv_ParallelSinks (newCDCService cfg)) (sv_ExcludedTables (newCDCService cfg))
     schedule shutdown_closed deliverCtx registered log_grows WAL).

Hypothesis retries_nonnegative : (0 <= rc_MaxRetries (cfg_Resilience cfg))%Z.
Hypothesis schedule_permutes : forall l, schedule l ≡ₚ l.
Hypothesis WAL_ordered : StronglySorted before WAL.
Hypothesis dlq_seen : dlq_observed dlq.
Hypothesis built_sinks : the_sinks dlq = inl (dlq', sinks).

Definition grown (s : Sink OGW) : Prop := forall c events, grows gateway_log (Process s c events).

Lemma touches_grown s P : (forall c events, touches (adds gateway_log P) (Process s c events)) -> grown s.
Proof using Type.
  intros H c events x. destruct (Process s c events x) as [a x'] eqn:E.
  destruct (H _ _ _ _ _ E) as (new & Hn & _). exists new. exact Hn.
Qed.

Lemma built_complete :
  exists mirrors outbox, sinks = mirrors ++ outbox /\
    length outbox = (if Enabled (sc_Outbox sinksCfg) then 1 else 0) /\
    Forall (fun s => complete_outbox s /\ grown s) outbox /\
    Forall2 (fun tr s => complete sha256hex hmac256hex celEnv cel_Compile OutputType cel_Program
               cel_PartialProgram Eval cfg sinksCfg tr s /\ grown s) (enabled_transforms env sinksCfg) mirrors.
Proof using retries_nonnegative dlq_seen built_sinks.
  eapply (newSinks_blocks breaker b0 wait sha256hex hmac256hex celEnv cel_Compile OutputType cel_Program
    cel_PartialProgram Eval PartialEval Parse env cfg sinksCfg dest NonReplicationURL
    dlq_observed (fun _ => True) _ _ (any_destinations _ _ _ _)); [| | exact dlq_seen | exact built_sinks].
  - intros sink global tables d l d' l' _ Hd H.
    destruct (addSink_complete _ _ _ _ _ _ _ _ _ _ _ _ _ _ retries_nonnegative _ _ _ _ _ _ _ Hd H)
      as (Hd' & s & -> & Hc). split; [done|]. exists s. split_and!; [done..|].
    destruct (addSink_guarded _ _ _ _ _ _ _ _ _ _ _ _ _ _ _ _ _ _ _ _ _ Hd H) as (_ & s' & Hs & Hg).
    apply app_inj_tail in Hs as [_ <-]. by eapply touches_grown.
  - intros sink d d' s _ Hd H. split; [by eapply wrap_complete|].
    eapply touches_grown. intros c events.
    apply (wrapped_touches breaker b0 wait (fun _ => True) _ _ _ _ _ Hd H). by apply Forall_true.
Qed.
(** A transaction reached the destination of a name: some session decoded its messages
    into one event per changed row, and what [g] makes of those whose tables are not
    excluded was, in order, accepted by the destination or parked for it. *)
Definition reached (name : string) (g : CDCEvent -> option CDCEvent) (t : Txn) (w : TW) : Prop :=
  exists evs, map mark evs = marks LSN_String t /\
    (exists d ms, carries ParseXLogData ParseV2 t ms /\ evs = decoded (results decode d ms).1) /\
    omap g (admitted (sv_ExcludedTables (newCDCService cfg)) evs)
      `sublist_of` DeadLetter.accepted (sink_log name w.2).

Lemma sink_reached sk g x0 pos0 pos d c w t :
  NoDup (map Name sinks) -> Forall grown sinks ->
  sk ∈ sinks -> sink_accounts (sink_log (Name sk)) (omap g) sk ->
  gateway_lifetime pos0 ([], x0) pos d c w -> t ∈ WAL -> (pos0 < t_end t <= pos)%Z ->
  reached (Name sk) g t w.
Proof using schedule_permutes WAL_ordered.
  intros Hnd Hgrow Hsk Hacc Hlife Ht Hpos.
  assert (Hreg : sk ∈ registered) by by apply registry_keeps_all.
  assert (Hndr : NoDup (map Name registered)).
  { apply All_NoDup, registry_fold_ok. intros n s Hn. by rewrite lookup_empty in Hn. }
  destruct (lifetime_accepts _ _ _ _ _ _ _ _ _ _ _ _ _ _ _ schedule_permutes Hndr WAL_ordered
              _ _ _ _ _ _ _ _ Hlife Ht Hpos Hreg) as (evs & Hm & Hd & Hs).
  exists evs. split_and!; [done..|].
  assert (Hb : Backed gateway_log sk g w).
  { eapply (lifetime_keeps _ _ _ _ _ _ _ _ _ _ _ _ _ _ _ schedule_permutes (Backed gateway_log sk g));
      [| | exact Hlife | apply sublist_nil_l].
    - apply Backed_keeps; [done..|]. rewrite Forall_forall in Hgrow |- *. intros s Hin.
      apply Hgrow. by apply registered_only.
    - intros book x x' Hx. by apply Backed_grows. }
  etrans; [|exact Hb]. by apply omap_sublist.
Qed.

Lemma confirmed_changes_reach x0 pos0 pos d c w t :
  gateway_lifetime pos0 ([], x0) pos d c w -> t ∈ WAL -> (pos0 < t_end t <= pos)%Z ->
  Forall2 (fun transforms name => exists chain, is_compiled transforms.1 transforms.2 chain /\
             reached name (wanted Eval sinksCfg chain) t w)
    (enabled_transforms env sinksCfg) (mirror_names env) /\
  Forall (fun name => reached name Some t w) (outbox_names sinksCfg).
Proof using All.
  intros Hlife Ht Hpos. destruct built_complete as (mirrors & outbox & Hs & Hl & Ho & Hm).
  pose proof (newSinks_names _ _ _ _ _ _ _ _ _ _ _ _ _ _ _ _ _ _ _ _ _ built_sinks) as Hnames.
  assert (Hnd : NoDup (map Name sinks)) by (rewrite Hnames; apply names_NoDup).
  assert (Hgrow : Forall grown sinks).
  { rewrite Hs. apply Forall_app. split; [|by eapply Forall_impl; [exact Ho | intros s []]].
    apply Forall_forall. intros s Hin. apply list_elem_of_lookup in Hin as [i Hi].
    destruct (Forall2_lookup_r _ _ _ _ _ Hm Hi) as (tr & _ & _ & Hg). exact Hg. }
  assert (map Name mirrors = mirror_names env /\ map Name outbox = outbox_names sinksCfg) as [E1 E2].
  { rewrite Hs, map_app in Hnames. apply app_inj_2 in Hnames; [done|]. rewrite length_map, Hl.
    unfold outbox_names. by destruct (Enabled _). }
  rewrite <- E1, <- E2. split.
  - apply Forall2_fmap_r, Forall2_same_length_lookup. split; [by eapply Forall2_length|]. intros i tr s Htr Hsk.
    destruct (Forall2_lookup_lr _ _ _ _ _ _ Hm Htr Hsk) as [(chain & Hc & Hacc) _].
    exists chain. split; [done|]. eapply sink_reached; [done.. | | exact Hacc | exact Hlife | done | done].
    rewrite Hs. apply elem_of_app. left. by eapply list_elem_of_lookup_2.
  - apply Forall_map. apply Forall_forall. intros s Hin. rewrite Forall_forall in Ho.
    destruct (Ho _ Hin) as [Hacc _].
    eapply sink_reached; [done.. | | | exact Hlife | done | done].
    + rewrite Hs. apply elem_of_app. by right.
    + intros c' events. rewrite omap_Some_id. apply Hacc.
Qed.
End gateway.

(** ** The gateway that [Module] starts *)

(** The dead-letter store under observation. *)
Definition observed_store {B W} (NewRedisStore : string -> string -> Z -> res (Store W))
    (url prefix : string) (max : Z) : res (Store (gmap string B * (list obs * W))) :=
  ok! st := NewRedisStore url prefix max in inl (inner_store (obs_store st)).

Lemma observed_dlq {B W} (NewRedisStore : string -> string -> Z -> res (Store W)) env cfg dlq :
  newDLQManager (observed_store (B := B) NewRedisStore) env cfg = inl dlq -> dlq_observed dlq.
Proof.
  unfold newDLQManager, observed_store. destruct (_ || _); [by intros [= <-]|].
  destruct (NewRedisStore _ _ _) as [st|]; [|done]. intros [= <-]. by exists st.
Qed.

Section started.
Context {V : Validation} {L : ValidationLaws V}.
Context {B G W DB O FS : Type} `{!World W} (breaker : Breaker B G) (b0 : B) (wait : Ctx -> Z -> ST W bool).
Context (sha256hex : string -> string) (hmac256hex : string -> string -> string).
Context {Ast Program : Type} (celEnv : option error) (cel_Compile : string -> res Ast) (OutputType : Ast -> string).
Context (cel_Program cel_PartialProgram : Ast -> res Program).
Context (Eval : Program -> string * string * string * columns * columns -> res cel_value).
Context (PartialEval : Program -> string * string * string -> res cel_value).
Context {Template : Type} (Parse : string -> res Template).
Context (ReadFile : string -> res string) (Unmarshal : string -> SinksConfig -> res SinksConfig).
Context (dest : Destinations (W := W) (Template := Template)) `{!NamedDestinations dest}.
Context (NonReplicationURL : string -> string).
Context (NewRedisStore : string -> string -> Z -> res (Store W)) (NewDB : string -> string -> Z -> res DB).
Context (recorder : O) (NewRedisPublisher : string -> string -> Z -> res O).
Context (version : string) (dist : option FS) (startedAt : Z).
Context (LSN_String : Z -> string).
Context (TypeForOID : Z -> option (string * (string -> res any))).
Context (ParsePrimaryKeepaliveMessage : string -> res PrimaryKeepaliveMessage).
Context (ParseXLogData : string -> res XLogData).
Context (ParseV2 : string -> res Message).
Context {C : Type} (controller : option (Controller C)).
Abbreviation OBW := (gmap string B * (list obs * W))%type.
Abbreviation OGW := (Manager OBW * OBW)%type.
Abbreviation TW := (list (string * call) * OGW)%type.
Context (schedule : list (nat * Sink TW) -> list (nat * Sink TW)).
Context (shutdown_closed : OGW -> bool) (deliverCtx : Ctx) (WAL : list Txn).

(** C1: Every confirmed change reached every destination.  For a gateway that started
    from its environment, over any number of sessions, failures, retries and restarts, whatever
    the destinations answer: every transaction of the server's log that ended after the
    slot's start and up to the position the server now holds as confirmed was decoded
    into one event per changed row, and for each configured destination, by name, the
    events of the tables that are not excluded, less the outbox's rows and those the
    destination's own transforms drop, as the transforms rewrite them, were in order
    accepted by that destination or parked for it in the dead-letter queue; and the
    outbox's sink, when it is on, so took all of them. *)
Theorem confirmed_changes_reached_their_destinations env gw x0 pos0 pos d c w t :
  Module breaker b0 (observed_wait wait) sha256hex hmac256hex celEnv cel_Compile OutputType cel_Program
    cel_PartialProgram Eval PartialEval Parse ReadFile Unmarshal (observed dest) NonReplicationURL
    (observed_store NewRedisStore) NewDB recorder NewRedisPublisher version dist startedAt env = inl gw ->
  (forall l, schedule l ≡ₚ l) -> StronglySorted before WAL ->
  lifetime LSN_String TypeForOID ParsePrimaryKeepaliveMessage ParseXLogData ParseV2 controller
    (wr_maxBatchEvents (gw_reader gw)) (sv_ParallelSinks (gw_service gw)) (sv_ExcludedTables (gw_service gw))
    schedule shutdown_closed deliverCtx (All (gw_registry gw)) log_grows WAL pos0 ([], x0) pos d c w ->
  t ∈ WAL -> (pos0 < t_end t <= pos)%Z ->
  let reached := reached (gw_cfg gw) LSN_String TypeForOID ParsePrimaryKeepaliveMessage ParseXLogData ParseV2 in
  Forall2 (fun transforms name => exists chain,
             compiled sha256hex hmac256hex (cfg_MaskHMACKey (gw_cfg gw)) celEnv cel_Compile OutputType
               cel_Program cel_PartialProgram transforms.1 transforms.2 chain /\
             reached name (wanted Eval (gw_sinksCfg gw) chain) t w)
    (enabled_transforms env (gw_sinksCfg gw)) (mirror_names env) /\
  Forall (fun name => reached name Some t w) (outbox_names (gw_sinksCfg gw)).
Proof using NamedDestinations0 L.
  intros Hm Hperm Hord Hlife Ht Hpos.
  destruct (Module_parts _ _ _ _ _ _ _ _ _ _ _ _ _ _ _ _ _ _ _ _ _ _ _ _ _ _ Hm)
    as (Hload & (dlq0 & Hd & Hs) & Hr & Hsv). rewrite Hr, Hsv in Hlife.
  destruct (loaded_well_formed _ _ Hload).
  eapply (confirmed_changes_reach breaker b0 wait sha256hex hmac256hex celEnv cel_Compile OutputType cel_Program
    cel_PartialProgram Eval PartialEval Parse); eauto using observed_dlq.
Qed.
End started.

(** A gateway with [Gateway]'s example of a configuration and a dead-letter queue, whose
    first session is cut inside a transaction and whose second, after a restart, confirms
    it. *)
#[export] Instance demo_named : NamedDestinations demo_destinations.
Proof. split; try done; [intros rc kr s H | intros jc kr s H | intros cfg r u s H]; by injection H as <-. Qed.

Definition start_env : Env := fun key => if decide (key = "SINK_CONFIG_FILE") then "sinks.yaml" else demo_env key.
Abbreviation demo_started :=
  (Module toy_breaker false (observed_wait demo_wait) (fun s => s) (fun _ s => s) None (fun s => inl s)
     (fun _ => "bool") (fun s => inl s) (fun s => inl s) demo_cel demo_partial toy_Parse
     (fun _ => inl "sinks: {}") (fun _ _ => inl demo_sinks) (observed demo_destinations) (fun u => u)
     (observed_store (fun _ _ _ => inl open_store)) (fun _ _ _ => inl tt) tt (fun _ _ _ => inl tt)
     "v1" (Some tt) 0%Z start_env).

Abbreviation demo_life gw E :=
  (lifetime pretty demo_types demo_keepalive demo_xlog demo_parse (@None (Controller unit))
     (wr_maxBatchEvents (gw_reader gw)) (sv_ParallelSinks (gw_service gw)) (sv_ExcludedTables (gw_service gw))
     (fun l => l) (fun _ => false) Background (All (gw_registry gw)) E [demo_txn]).

Section demo_sessions.
Context {W : Type} `{!World W}.
Abbreviation world_of := (Manager (gmap string bool * W) * (gmap string bool * W))%type.
Context (gw : @Gateway bool W unit unit unit) (E : world_of -> world_of -> Prop) (w0 : world_of).
Abbreviation demo_run :=
  (system_run (Decode pretty demo_types demo_keepalive demo_xlog demo_parse) (@None (Controller unit))
     (wr_maxBatchEvents (gw_reader gw)) (sv_ParallelSinks (gw_service gw)) (sv_ExcludedTables (gw_service gw))
     (fun l => l) (fun _ => false) Background (All (gw_registry gw))).

(** Both sessions run, and the second reports the transaction's end. *)
Definition demo_sessions : bool :=
  match demo_run cut_session (begin_session None 50 NewDecoder tt ([], w0)) with
  | Some y =>
      match demo_run whole_session (begin_session None 50 NewDecoder tt (world y)) with
      | Some y' => bool_decide (120%Z ∈ sent (log (sess y')))
      | None => false
      end
  | None => false
  end.

Lemma demo_lives :
  (forall w, E w w) -> demo_sessions = true -> exists d c w, demo_life gw E 50 ([], w0) 120 d c w.
Proof.
  unfold demo_sessions. intros HE H.
  destruct (demo_run cut_session _) as [y|] eqn:E1; [|discriminate].
  destruct (demo_run whole_session _) as [y'|] eqn:E2; [|discriminate].
  apply bool_decide_eq_true in H. do 3 eexists.
  eapply (life_session _ _ _ _ _ _ _ _ _ _ _ _ _ _ _ _ _ 50 NewDecoder tt (world y) whole_session).
  - assert (Hw : world y = ((world y).1, (world y).2)) by by destruct (world y). rewrite Hw.
    eapply (life_restart _ _ _ _ _ _ _ _ _ _ _ _ _ _ _ _ _ 50 _ _ (world y) NewDecoder tt (world y).2); [|apply HE].
    eapply (life_session _ _ _ _ _ _ _ _ _ _ _ _ _ _ _ _ _ 50 NewDecoder tt ([], w0) cut_session y).
    + apply life_begins.
    + exact E1.
    + apply (serves_cut _ _ _ demo_txn [] demo_messages); [exact demo_carries|].
      exists (drop 3 demo_messages). vm_compute. reflexivity.
    + apply sessions_obey.
    + apply list_elem_of_here.
  - exact E2.
  - apply (serves_txn _ _ _ demo_txn [] demo_messages []); [exact demo_carries | constructor].
  - apply sessions_obey.
  - by right.
Qed.
End demo_sessions.

Abbreviation demo_gw := (@Gateway bool (list obs * unit) unit unit unit).
Definition demo_world0 : Manager (gmap string bool * (list obs * unit)) * (gmap string bool * (list obs * unit)) :=
  (NewManager 3 0, (∅, ([], tt))).

Lemma confirmed_changes_reached_their_destinations_witness :
  exists (gw : demo_gw) w, demo_started = inl gw /\ mirror_names start_env = ["redis-stream"; "webhook"] /\
    (exists d c, demo_life gw log_grows 50 ([], demo_world0) 120 d c w) /\
    reached (gw_cfg gw) pretty demo_types demo_keepalive demo_xlog demo_parse "outbox" Some demo_txn w.
Proof.
  assert (Hs : match demo_started with
               | inl gw => demo_sessions gw demo_world0 = true /\ outbox_names (gw_sinksCfg gw) = ["outbox"]
               | inr _ => False
               end) by (vm_compute; split; reflexivity).
  destruct demo_started as [gw|e] eqn:E; [|destruct Hs]. destruct Hs as [Hs Ho].
  destruct (demo_lives gw log_grows demo_world0 (fun w => reflexivity (R := prefix) (gateway_log w)) Hs) as (d & c & w & Hlife).
  exists gw, w. split; [reflexivity|]. split; [vm_compute; reflexivity|]. split; [by exists d, c|].
  destruct (confirmed_changes_reached_their_destinations _ _ _ _ _ _ _ _ _ _ _ _ _ _ _ demo_destinations
      _ _ _ _ _ _ _ _ pretty demo_types demo_keepalive demo_xlog demo_parse (@None (Controller unit))
      (fun l => l) (fun _ => false) Background [demo_txn] start_env gw demo_world0 50 120 d c w demo_txn E)
    as [_ Hout].
  - intros l. reflexivity.
  - repeat constructor.
  - exact Hlife.
  - apply list_elem_of_here.
  - split; [reflexivity | vm_compute; discriminate].
  - rewrite Ho in Hout. exact (Forall_inv Hout).
Defined.
