(* ===== verification/Delivered.v ===== *)
(** * Down to the Redis commands
      (the destinations of src/cmd/gateway/modules.go over clients that share one Redis)

    [Wiring] shows that a confirmed change was accepted by every configured destination
    or parked for it.  Here the destinations are the sinks of the program ([Sinks]), over
    arbitrary HTTP, NATS, PostgreSQL and Meilisearch clients and a Redis client whose
    executed commands are recorded: a confirmed change that was not parked is an XADD in
    the Redis of the stream sink, under the key its own pattern gives, and a JSON.SET,
    JSON.MERGE or DEL in that of the JSON sink.

    - [Section clients]: the clients over a world with the record of commands;
    - [Section appends]: no sink takes anything back from the record;
    - [Section written]: what a keyed sink accepts is in the record;
    - [Section destinations]: the program's destinations over those clients;
    - [Section assembled]: what the destinations keep, the sinks built around them keep;
    - [Section along], [Section delivered]: the gateway along a lifetime. *)

From Stdlib Require Import ZArith Lia Ascii String.
From stdpp Require Import base list gmap strings pretty sorting.
From S2P Require Import Prelude Domain DeadLetter SchemaChange Decoder Reader Service Pipeline Resilience Transform Meili Keys RedisSinks Publish Config MeiliSetup Sinks Gateway Assembly Metrics Server Wiring.

Open Scope go_scope.
Set Warnings "-clear-no-such-hyp".
Set Default Proof Using "Type".

(** ** Clients over a recorded Redis *)
Section clients.
Context {O W : Type}.
Abbreviation VW := (list (O * command) * W)%type.

(** A pipeline Redis answered without an error was executed, by the server [opts]
    names. *)
Definition recorded_client (NewClient : O -> RedisClient W) (opts : O) : RedisClient VW :=
  {| rc_Ping := inner (rc_Ping (NewClient opts));
     rc_Exec cmds := fun '(log, w) =>
       let '(r, w') := rc_Exec (NewClient opts) cmds w in
       (r, (match r with None => log ++ map (pair opts) cmds | Some _ => log end, w'));
     rc_Close := inner (rc_Close (NewClient opts)) |}.

(** The other clients do not write to the record. *)
Definition lift_nats {Conn JS} (n : NatsClient W Conn JS) : NatsClient VW Conn JS :=
  {| nc_Connect url opts := inner (nc_Connect n url opts);
     nc_JetStream conn k := inner (nc_JetStream n conn k);
     nc_CreateOrUpdateStream js c cfg := inner (nc_CreateOrUpdateStream n js c cfg);
     nc_NameInUse := nc_NameInUse n;
     nc_FlushTimeout conn d := inner (nc_FlushTimeout n conn d);
     nc_IsConnected conn w := nc_IsConnected n conn w.2;
     nc_Close conn := inner (nc_Close n conn) |}.
Definition lift_pg {P} (p : PgClient W P) : PgClient VW P :=
  {| pc_New url := inner (pc_New p url); pc_IDType pool table col := inner (pc_IDType p pool table col);
     pc_Exec pool sql args := inner (pc_Exec p pool sql args); pc_Close pool := inner (pc_Close p pool) |}.
#[export] Instance lift_admin `{!MeiliAdmin W} : MeiliAdmin VW :=
  {| Health := inner Health; GetIndexInfo i := inner (GetIndexInfo i);
     CreateIndex i k := inner (CreateIndex i k);
     GetSearchableAttributes i := inner (GetSearchableAttributes i);
     UpdateSearchableAttributes i l := inner (UpdateSearchableAttributes i l);
     GetFilterableAttributes i := inner (GetFilterableAttributes i);
     UpdateFilterableAttributes i l := inner (UpdateFilterableAttributes i l);
     WaitForTask u := inner (WaitForTask u); APIStatus := APIStatus; CloseClient := inner CloseClient |}.
End clients.

(** ** The record only grows *)
Definition appends {O W} : list (O * command) * W -> list (O * command) * W -> Prop :=
  fun a b => a.1 `prefix_of` b.1.
#[export] Instance appends_preorder {O W} : PreOrder (appends (O := O) (W := W)).
Proof. split; [intros a; apply (reflexivity (R := prefix)) | intros a b c; apply (transitivity (R := prefix))]. Qed.

Section appends.
Context {O W : Type} `{!World W}.
Abbreviation VW := (list (O * command) * W)%type.
Abbreviation R := (appends (O := O) (W := W)).

Lemma inner_appends {A} (m : ST W A) : touches R (inner m).
Proof.
  intros [log w] a [log' w'] H. unfold inner in H. destruct (m w).
  injection H as _ <- _. exact (reflexivity (R := prefix) log).
Qed.

Lemma recorded_appends NewClient opts cmds : touches R (rc_Exec (recorded_client NewClient opts) cmds).
Proof.
  intros [log w] a [log' w'] H. simpl in H. destruct (rc_Exec (NewClient opts) cmds w) as [[e|] w1];
    injection H as _ <- _; [exact (reflexivity (R := prefix) log) | by eexists].
Qed.

Lemma keyed_appends {Template} (cmd : CDCEvent -> ST (KeyResolver (Template := Template)) (res (option command)))
    Exec before after events :
  (forall cmds, touches R (Exec cmds)) -> touches (on_second R) (pipeline_process (W := VW) Exec cmd before after events).
Proof.
  intros He. unfold pipeline_process. apply touches_bind; [apply touches_own|].
  intros [[|c cs]|err]; [apply touches_ret | | apply touches_ret].
  apply touches_bind; [apply touches_inner, He | intros; apply touches_ret].
Qed.

Lemma webhook_appends Marshal time_any hmac trim filter auth secret err (Do : Ctx -> Publish.request -> ST W _) c events :
  touches R (Webhook_Process Marshal time_any hmac trim filter auth secret err (fun c r => inner (Do c r)) c events).
Proof.
  induction events as [|e events IH]; [apply touches_ret|]. cbn [Webhook_Process].
  destruct (negb _); [exact IH|]. apply touches_guard; [|exact IH]. unfold Webhook_deliver.
  destruct (Marshal _); [|apply touches_ret]. destruct err; [apply touches_ret|].
  apply touches_bind; [apply touches_get|]. intros w.
  apply touches_bind; [apply inner_appends | intros; apply touches_ret].
Qed.

Lemma outbox_appends {S} cfg Marshal Exec Delete events :
  (forall cmds, touches (on_second (S := S) R) (Exec cmds)) -> (forall ids, touches (on_second R) (Delete ids)) ->
  touches (on_second R) (Outbox_Process cfg Marshal Exec Delete events).
Proof.
  intros He Hd. unfold Outbox_Process. destruct (outbox_loop _ _ _) as [[[|c cs] published]|e]; [apply touches_ret| |apply touches_ret].
  apply touches_bind; [apply He|]. intros [e|]; [apply touches_ret|].
  destruct (ox_DeleteAfterPublish cfg), published; try apply touches_ret.
  apply touches_bind; [|intros; apply touches_ret].
  unfold deleteRows. apply touches_bind; [apply Hd | intros; apply touches_ret].
Qed.

Lemma meili_appends tables (Enqueue : Ctx -> string -> Meili.run -> ST W _) (GetTasks : Ctx -> list Z -> ST W _)
    StatusCode (wait : Ctx -> Z -> ST W bool) fuel c events :
  touches (on_second R)
    (Meili_Process (W := VW) tables (fun c i r => inner (Enqueue c i r)) (fun c l => inner (GetTasks c l)) StatusCode
       (fun c d => inner (wait c d)) fuel c events).
Proof.
  assert (Hawait : forall n tasks start last, touches R (poll_loop (W := VW) (fun c l => inner (GetTasks c l))
                     (fun c d => inner (wait c d)) n c tasks start last)).
  { induction n as [|n IH]; intros tasks start last; [apply touches_ret|]. cbn [poll_loop].
    apply touches_bind; [apply inner_appends|]. intros [results|e]; [|apply touches_ret].
    destruct (poll_result _ _); [apply touches_ret|]. apply touches_bind; [apply touches_get|]. intros w.
    destruct (next_tick _ _ _) as [rest tick]. apply touches_bind; [apply inner_appends|].
    intros []; [|apply IH]. apply touches_bind; [apply touches_get | intros; apply touches_ret]. }
  assert (Hbatch : forall key tasks, touches (on_second R) (await_batch (W := VW) (fun c l => inner (GetTasks c l))
                     (fun c d => inner (wait c d)) fuel c key tasks)).
  { intros key tasks. unfold await_batch. apply touches_bind; [apply touches_inner; unfold awaitTasks;
      apply touches_bind; [apply touches_get | intros; apply Hawait]|]. intros out.
    apply touches_bind; [apply touches_own | intros; apply touches_ret]. }
  assert (Hen : forall todo, touches R (enqueue_tasks (W := VW) (fun c i r => inner (Enqueue c i r)) StatusCode c todo)).
  { induction todo as [|[idx r] todo IH]; [apply touches_ret|]. cbn [enqueue_tasks].
    apply touches_bind; [apply inner_appends|]. intros [uid|e]; [|apply touches_ret].
    apply touches_bind; [apply IH | intros; apply touches_ret]. }
  unfold Meili_Process. destruct events as [|e0 es]; [apply touches_ret|].
  apply touches_bind; [apply touches_get|]. intros st. destruct (resumable _ _); [apply Hbatch|].
  destruct (plan _ _) as [p|]; [|apply touches_ret]. destruct (p_order p); [apply touches_ret|].
  apply touches_bind; [apply touches_inner, Hen|]. intros [tasks|e]; [|apply touches_ret].
  apply touches_bind; [apply touches_own | intros; apply Hbatch].
Qed.
End appends.

(** A NATS batch relates worlds as the client's calls do. *)
Lemma nats_touches {Template X F} `{!World X} {R : X -> X -> Prop} `{!PreOrder R} Parse Render Marshal time_any prefix timeout
    JetStream PublishMsg Flush (PublishMsgAsync : Msg -> string -> ST X (res F)) AwaitAck c events :
  (forall m, touches R (PublishMsg m)) -> (forall c, touches R (Flush c)) ->
  (forall m id, touches R (PublishMsgAsync m id)) -> (forall c f, touches R (AwaitAck c f)) ->
  touches (on_second R) (Nats_Process (Template := Template) Parse Render Marshal time_any prefix timeout JetStream
    PublishMsg Flush PublishMsgAsync AwaitAck c events).
Proof.
  intros Hp Hf Ha Hw. unfold Nats_Process. apply touches_bind; [apply touches_own|].
  intros [[|m ms]|e]; [apply touches_ret | | apply touches_ret]. destruct JetStream; apply touches_inner.
  - apply touches_for_each. intros win _. unfold publishWindow. apply touches_bind; [apply touches_get|]. intros w.
    apply touches_bind.
    + induction win as [|[msg id] win IH]; [apply touches_ret|]. cbn [publish_loop].
      apply touches_bind; [apply Ha|]. intros [f|e]; [|apply touches_ret].
      apply touches_bind; [exact IH | intros; apply touches_ret].
    + intros [fs|e]; [|apply touches_ret]. revert win.
      induction fs as [|f fs IH]; intros [|[msg id] win]; try apply touches_ret. cbn [await_loop].
      apply touches_bind; [apply Hw|]. intros [|e|]; [apply IH | apply touches_ret|].
      apply touches_bind; [apply touches_get | intros; apply touches_ret].
  - unfold core_publish. apply touches_guard.
    + apply touches_for_each. intros x _. apply touches_bind; [apply Hp | intros; apply touches_ret].
    + apply touches_bind; [apply touches_get|]. intros w.
      apply touches_bind; [apply Hf | intros; apply touches_ret].
Qed.

(** ** What a keyed sink accepts is in the record *)
Section written.
Context {Template O W Conn JS P : Type} `{!World W}.
Context (Parse : string -> res Template).
Abbreviation resolver := (KeyResolver (Template := Template)).
Abbreviation VW := (list (O * command) * W)%type.
Abbreviation DS := (DestState (Template := Template) (Conn := Conn) (JS := JS) (P := P)).
Abbreviation DW := (DS * VW)%type.

(** The sink: its place in the destinations' state, its name, its server and the
    command it has for an event. *)
Context (field : DS -> option resolver) (set_field : resolver -> DS -> DS).
Context (name : string) (opts : O) (cmd : CDCEvent -> ST resolver (res (option command))) (kr0 : resolver).
Context (NewClient : O -> RedisClient W).
Hypothesis field_set : forall kr ds, field (set_field kr ds) = Some kr.
Hypothesis cmd_stable : stable Parse cmd.

(** The command of an event, with the key of its own pattern, has been executed, or
    the sink does not take the event. *)
Definition command_done (record : list (O * command)) (e : CDCEvent) : Prop :=
  match (cmd e (uncached kr0)).1 with
  | inl (Some c) => (opts, c) ∈ record
  | inl None => True
  | inr _ => False
  end.
Definition resolver_ok (ds : DS) : Prop :=
  cache_ok Parse (default kr0 (field ds)) /\ same_keys kr0 (default kr0 (field ds)).

Lemma command_done_mono r r' e : r `prefix_of` r' -> command_done r e -> command_done r' e.
Proof.
  intros [k ->]. unfold command_done. destruct ((cmd e (uncached kr0)).1) as [[c|]|]; [|done..].
  intros H. apply elem_of_app. by left.
Qed.

Lemma batch_commands_all (f : CDCEvent -> res (option command)) events cs :
  batch_commands f events = inl cs ->
  Forall (fun e => match f e with inl (Some c) => c ∈ cs | inl None => True | inr _ => False end) events.
Proof.
  revert cs. induction events as [|e events IH]; intros cs; simpl; [constructor|].
  destruct (f e) as [[c|]|] eqn:Hf; [| |discriminate]; destruct (batch_commands f events) as [cs'|]; try discriminate;
    intros [= <-]; constructor; rewrite ?Hf; try done.
  - left.
  - eapply Forall_impl; [by apply IH|]. intros x. simpl. destruct (f x) as [[]|]; [by right | done..].
  - by apply IH.
Qed.

Abbreviation process before after events :=
  (pipeline_process (rc_Exec (recorded_client NewClient opts)) cmd before after events).

Lemma keyed_call before after events ds record w r ds' record' w' :
  held field set_field kr0 (process before after events) (ds, (record, w)) = (r, (ds', (record', w'))) ->
  resolver_ok ds ->
  resolver_ok ds' /\ record `prefix_of` record' /\ (r = None -> Forall (command_done record') events).
Proof using field_set cmd_stable.
  unfold held. intros H [Hc Hk]. set (kr := default kr0 (field ds)) in *.
  pose proof (pipeline_process_spec Parse (rc_Exec (recorded_client NewClient opts)) cmd before after events kr
    (record, w) cmd_stable Hc) as Hs.
  destruct (process before after events (kr, (record, w))) as [r1 [kr1 v1]]. injection H as <- <- ->.
  destruct Hs as (Hp & Hc1 & Hk1). unfold resolver_ok. rewrite field_set. simpl.
  split; [split; [done | by etransitivity]|]. rewrite (uncached_same _ _ Hk) in Hp. unfold pipelined in Hp.
  destruct (batch_commands _ events) as [cs|e] eqn:Hb; [|destruct Hp as [-> [= -> ->]]; split; [done | discriminate]].
  pose proof (batch_commands_all _ _ _ Hb) as Hall.
  destruct cs as [|c cs].
  - destruct Hp as [-> [= -> ->]]. split; [done|]. intros _. eapply Forall_impl; [exact Hall|].
    intros e. unfold command_done. destruct ((cmd e (uncached kr0)).1) as [[]|]; [set_solver | done..].
  - destruct Hp as (r0 & He & ->). simpl in He.
    destruct (rc_Exec (NewClient opts) (c :: cs) w) as [[er|] w1]; injection He as <- <- <-;
      [split; [done | discriminate]|].
    split; [by eexists|]. intros _. eapply Forall_impl; [exact Hall|]. intros e. unfold command_done.
    destruct ((cmd e (uncached kr0)).1) as [[c'|]|]; [|done..]. intros Hin. apply elem_of_app. right.
    exact (list_elem_of_fmap_2 (pair opts) (c :: cs) c' Hin).
Qed.

(** Every batch the sink is logged to have accepted is in the record. *)
Definition call_done (record : list (O * command)) (o : obs) : Prop :=
  match o with Called n events None => n = name -> Forall (command_done record) events | _ => True end.
Definition Written (ow : list obs * DW) : Prop :=
  resolver_ok ow.2.1 /\ Forall (call_done ow.2.2.1) ow.1.
Definition keeps_written (a b : list obs * DW) : Prop := Written a -> Written b.
#[export] Instance keeps_written_preorder : PreOrder keeps_written.
Proof. split; [by intros a H | intros a b c Hab Hbc H; by apply Hbc, Hab]. Qed.

Lemma calls_done_mono r r' log : r `prefix_of` r' -> Forall (call_done r) log -> Forall (call_done r') log.
Proof.
  intros Hp H0. eapply Forall_impl; [exact H0|]. intros [n events [e|]|entry r0]; simpl; try done.
  intros H Hn. eapply Forall_impl; [by apply H|]. intros e. by apply command_done_mono.
Qed.

(** A step of another part leaves the sink's field alone and only adds to the record. *)
Definition apart (a b : DW) : Prop := field b.1 = field a.1 /\ appends a.2 b.2.

Lemma apart_written log log' a b :
  apart a b -> (Forall (call_done a.2.1) log -> Forall (call_done a.2.1) log') -> keeps_written (log, a) (log', b).
Proof.
  intros [Hf Hp] Hl [Hr Hc]. split; simpl in *.
  - unfold resolver_ok. by rewrite Hf.
  - eapply calls_done_mono; [exact Hp | by apply Hl].
Qed.

Lemma own_sink_written (s : Sink (resolver * VW)) :
  Name s = name -> (forall c events, exists before after, Process s c events = process before after events) ->
  sink_touches keeps_written (fun _ => True) (obs_sink (held_sink field set_field kr0 s)).
Proof using field_set cmd_stable.
  intros Hn Hp c events _ [log [ds [record w]]] a [log' [ds' [record' w']]] H [Hr Hc]. cbn [fst snd] in Hr, Hc.
  cbn [Process Name obs_sink held_sink] in H. destruct (Hp c events) as (before & after & Ep). rewrite Ep in H.
  destruct (held _ _ _ _ _) as [r [ds1 [record1 w1]]] eqn:E. injection H as <- <- <- <- <-.
  destruct (keyed_call _ _ _ _ _ _ _ _ _ _ E Hr) as (Hr' & Hpre & Hd). split; [exact Hr'|]. simpl.
  apply Forall_app. split; [by eapply calls_done_mono|]. constructor; [|constructor]. simpl.
  destruct r; [done | intros _; by apply Hd].
Qed.

Lemma other_sink_written (s : Sink DW) :
  Name s <> name -> (forall c events, touches apart (Process s c events)) ->
  sink_touches keeps_written (fun _ => True) (obs_sink s).
Proof.
  intros Hn Hp c events _ [log dw] a [log' dw'] H. simpl in H.
  destruct (Process s c events dw) as [r dw1] eqn:E. injection H as <- <- <-.
  apply apart_written; [exact (Hp _ _ _ _ _ E)|]. intros Hc. apply Forall_app. split; [done|].
  constructor; [|constructor]. destruct r; [exact I | by intros Hx; destruct Hn].
Qed.

Lemma inner_apart {A} (m : ST W A) : touches apart (inner (inner m) : ST DW A).
Proof.
  intros [ds [record w]] a [ds' [record' w']] H. unfold inner in H. destruct (m w).
  injection H as _ <- <- _. split; [done | exact (reflexivity (R := prefix) record)].
Qed.
Lemma wait_written (wait : Ctx -> Z -> ST W bool) c d :
  touches keeps_written (observed_wait (fun c d => inner (inner (wait c d)) : ST DW bool) c d).
Proof.
  intros [log dw] a [log' dw'] H. unfold observed_wait, inner at 1 in H.
  destruct (inner _ dw) as [r dw1] eqn:E. injection H as <- <- <-.
  apply apart_written; [exact (inner_apart (wait c d) _ _ _ E) | done].
Qed.
Lemma store_written (st : Store W) :
  store_touches keeps_written (fun _ => True) (obs_store (inner_store (inner_store st)) : Store (list obs * DW)).
Proof.
  split.
  - intros c entry _ [log dw] a [log' dw'] H. simpl in H. destruct (inner _ dw) as [r dw1] eqn:E.
    injection H as <- <- <-. apply apart_written; [exact (inner_apart (st_Park st c entry) _ _ _ E)|].
    intros Hc. apply Forall_app. split; [done|]. by repeat constructor.
  - intros c [log dw] a [log' dw'] H. cbn [st_Len obs_store inner_store] in H. unfold inner at 1 in H.
    destruct (inner (inner (st_Len st c)) dw) as [r dw1] eqn:E. injection H as <- <- <-. apply apart_written; [exact (inner_apart (st_Len st c) _ _ _ E) | done].
Qed.

(** A sink whose state is another field. *)
Lemma held_apart {S} (get : DS -> option S) set s0 (s : Sink (S * VW)) :
  (forall x ds, field (set x ds) = field ds) -> (forall c events, touches (on_second appends) (Process s c events)) ->
  forall c events, touches apart (Process (held_sink get set s0 s) c events).
Proof.
  intros Hf Hs c events [ds v] a [ds' v'] H. simpl in H. unfold held in H.
  destruct (Process s c events _) as [a1 [x v1]] eqn:E. injection H as _ <- <-.
  split; [apply Hf | exact (Hs _ _ _ _ _ E)].
Qed.
Lemma inner_sink_apart (s : Sink VW) :
  (forall c events, touches appends (Process s c events)) ->
  forall c events, touches apart (Process (inner_sink s : Sink DW) c events).
Proof.
  intros Hs c events [ds v] a [ds' v'] H. simpl in H. unfold inner in H.
  destruct (Process s c events v) as [a1 v1] eqn:E. injection H as _ <- <-. split; [done | exact (Hs _ _ _ _ _ E)].
Qed.
End written.

(** ** The destinations over a recorded Redis *)
Section destinations.
Context {Template W0 Options Conn JS F P : Type} `{!World W0, !MeiliAdmin W0}.
Context (Parse : string -> res Template) (Render : Template -> KeyTemplateContext -> res string).
Context (Marshal : any -> res string) (time_any : Z -> any).
Context (ParseURL : string -> res Options) (NewClient : Options -> RedisClient W0).
Context (hmac256hex : string -> string -> string) (TrimSpace : string -> string).
Context (request_err : option error) (Do : Ctx -> Publish.request -> ST W0 (res Publish.response)).
Context (CloseIdleConnections : ST W0 unit) (nats : NatsClient W0 Conn JS).
Context (PublishMsg : Msg -> ST W0 (option error)) (Flush : Ctx -> ST W0 (option error)).
Context (PublishMsgAsync : Msg -> string -> ST W0 (res F)) (AwaitAck : Ctx -> F -> ST W0 ack_result).
Context (pg : PgClient W0 P) (Sanitize : list string -> string).
Context (range : gmap string MeiliIndexSettings -> list (string * MeiliIndexSettings)).
Context (Enqueue : Ctx -> string -> Meili.run -> ST W0 (res Z)).
Context (GetTasks : Ctx -> list Z -> ST W0 (res (list Task))).
Context (StatusCode : error -> option Z) (wait : Ctx -> Z -> ST W0 bool) (patience : nat).
Abbreviation resolver := (KeyResolver (Template := Template)).
Abbreviation VW := (list (Options * command) * W0)%type.
Abbreviation DS := (DestState (Template := Template) (Conn := Conn) (JS := JS) (P := P)).
Abbreviation DW := (DS * VW)%type.

Definition redis_destinations : Destinations (W := DW) (Template := Template) :=
  destinations Parse Render Marshal time_any ParseURL (recorded_client NewClient) hmac256hex TrimSpace request_err
    (fun c r => inner (Do c r)) (inner CloseIdleConnections) (lift_nats nats)
    (fun m => inner (PublishMsg m)) (fun c => inner (Flush c)) (fun m id => inner (PublishMsgAsync m id))
    (fun c f => inner (AwaitAck c f)) (lift_pg pg) Sanitize range
    (fun c i r => inner (Enqueue c i r)) (fun c l => inner (GetTasks c l)) StatusCode
    (fun c d => inner (wait c d)) patience.

Lemma paired_touches {S1 S2 X A} (R : X -> X -> Prop) (m : ST (S1 * (S2 * X)) A) :
  touches (on_second (on_second R)) m -> touches (on_second R) (paired m).
Proof.
  intros Hm [[s1 s2] w] a [[s1' s2'] w'] H. unfold paired in H.
  destruct (m (s1, (s2, w))) as [a1 [x1 [x2 w1]]] eqn:E. injection H as _ _ _ <-. exact (Hm _ _ _ E).
Qed.

Lemma stream_appends opts len events :
  touches (on_second appends)
    (Stream_Process Parse Render Marshal time_any (rc_Exec (recorded_client NewClient opts)) len events).
Proof. apply keyed_appends, recorded_appends. Qed.
Lemma json_appends opts events :
  touches (on_second appends)
    (JSON_Process Parse Render Marshal (rc_Exec (recorded_client NewClient opts)) events).
Proof. apply keyed_appends, recorded_appends. Qed.

Section others.
Context (field : DS -> option resolver).
Abbreviation is_apart s := (forall c events, touches (apart field) (Process s c events)).

Lemma stream_apart rc kr s :
  (forall x ds, field (set_dst_stream x ds) = field ds) -> new_stream redis_destinations rc kr = inl s -> is_apart s.
Proof.
  intros Hf. simpl. unfold NewStreamSink, NewBaseSink. destruct (ParseURL _); [|discriminate]. intros [= <-].
  apply held_apart; [exact Hf | intros; apply stream_appends].
Qed.
Lemma json_apart jc kr s :
  (forall x ds, field (set_dst_json x ds) = field ds) -> new_json redis_destinations jc kr = inl s -> is_apart s.
Proof.
  intros Hf. simpl. unfold NewJSONSink, NewBaseSink. destruct (ParseURL _); [|discriminate]. intros [= <-].
  apply held_apart; [exact Hf | intros; apply json_appends].
Qed.
Lemma webhook_apart wc k : is_apart (new_webhook redis_destinations wc k).
Proof. apply inner_sink_apart. intros. apply webhook_appends. Qed.
Lemma nats_apart nc kr :
  (forall x ds, field (set_dst_nats x ds) = field ds) -> is_apart (new_nats redis_destinations nc kr).
Proof.
  intros Hf. apply held_apart; [exact Hf|]. intros c events. apply paired_touches.
  cbn [Process NewNATSSink]. apply touches_bind; [apply touches_get|]. intros s.
  apply nats_touches; intros; apply touches_inner, inner_appends.
Qed.
Lemma meili_apart mc k :
  (forall x ds, field (set_dst_meili x ds) = field ds) -> is_apart (new_meili redis_destinations mc k).
Proof.
  intros Hf. apply held_apart; [exact Hf|]. intros c events. cbn [Process NewMeiliSink].
  apply touches_bind; [apply meili_appends | intros; apply touches_ret].
Qed.
Lemma outbox_apart cfg r u s :
  (forall x ds, field (set_dst_outbox x ds) = field ds) -> new_outbox redis_destinations cfg r u = inl s -> is_apart s.
Proof.
  intros Hf. simpl. unfold NewOutboxSink. destruct (decide _); [discriminate|].
  destruct (ParseURL _) as [opts|]; [|discriminate]. intros [= <-].
  apply held_apart; [exact Hf|]. intros c events. cbn [Process]. apply outbox_appends.
  - intros cmds. apply touches_inner, recorded_appends.
  - intros ids. unfold Outbox_Delete. apply touches_bind; [apply touches_get|]. intros s.
    destruct (os_pool s.1); [apply touches_inner, inner_appends | apply touches_ret].
Qed.
End others.

(** The keyed sinks' commands and what [Written] says of each of them. *)
Context (env : Env) (sinksCfg : SinksConfig).
Definition stream_cmd : CDCEvent -> ST resolver (res (option command)) :=
  stream_command Parse Render Marshal time_any (rd_MaxStreamLen (Redis_LoadConfig env)).
Definition json_cmd : CDCEvent -> ST resolver (res (option command)) := json_command Parse Render Marshal.
Definition stream_resolver : res resolver :=
  keyed_resolver Parse (sc_RedisStream sinksCfg) (rd_StreamPrefix (Redis_LoadConfig env)) DefaultStreamKeyPattern.
Definition json_resolver : res resolver :=
  keyed_resolver Parse (sc_RedisJSON sinksCfg) (rj_Prefix (RedisJSON_LoadConfig env)) DefaultJSONKeyPattern.
Abbreviation stream_written opts kr := (keeps_written Parse dst_stream "redis-stream" opts stream_cmd kr).
Abbreviation json_written opts kr := (keeps_written Parse dst_json "redis-json" opts json_cmd kr).
Abbreviation are R := (DestinationsAre Parse env sinksCfg redis_destinations
  (fun s => sink_touches R (fun _ => True) (obs_sink s))).

Lemma stream_destinations opts kr :
  ParseURL (rd_URL (Redis_LoadConfig env)) = inl opts -> stream_resolver = inl kr -> are (stream_written opts kr).
Proof.
  intros Ho Hk. split.
  - intros r s Hr. unfold stream_resolver in Hk. rewrite Hk in Hr. injection Hr as <-. simpl.
    unfold NewStreamSink, NewBaseSink. rewrite Ho. intros [= <-].
    eapply own_sink_written; [done | apply stream_stable | done |]. intros. by do 2 eexists.
  - intros r s _ Hs. apply other_sink_written; [|by eapply json_apart].
    by rewrite (named_json (d := redis_destinations) _ _ _ Hs).
  - by apply other_sink_written, webhook_apart.
  - intros r _. by apply other_sink_written, nats_apart.
  - by apply other_sink_written, meili_apart.
  - intros cfg r u s Hs. apply other_sink_written; [|by eapply outbox_apart].
    by rewrite (named_outbox (d := redis_destinations) _ _ _ _ Hs).
Qed.
Lemma json_destinations opts kr :
  ParseURL (rj_URL (RedisJSON_LoadConfig env)) = inl opts -> json_resolver = inl kr -> are (json_written opts kr).
Proof.
  intros Ho Hk. split.
  - intros r s _ Hs. apply other_sink_written; [|by eapply stream_apart].
    by rewrite (named_stream (d := redis_destinations) _ _ _ Hs).
  - intros r s Hr. unfold json_resolver in Hk. rewrite Hk in Hr. injection Hr as <-. simpl.
    unfold NewJSONSink, NewBaseSink. rewrite Ho. intros [= <-].
    eapply own_sink_written; [done | apply json_stable | done |]. intros. by do 2 eexists.
  - by apply other_sink_written, webhook_apart.
  - intros r _. by apply other_sink_written, nats_apart.
  - by apply other_sink_written, meili_apart.
  - intros cfg r u s Hs. apply other_sink_written; [|by eapply outbox_apart].
    by rewrite (named_outbox (d := redis_destinations) _ _ _ _ Hs).
Qed.
End destinations.

(** ** What the destinations keep, the assembled sinks keep *)
Section assembled.
Context {B G W : Type} `{!World W} (breaker : Breaker B G) (b0 : B) (wait : Ctx -> Z -> ST W bool).
Context (sha256hex : string -> string) (hmac256hex : string -> string -> string).
Context {Ast Program : Type} (celEnv : option error) (cel_Compile : string -> res Ast) (OutputType : Ast -> string).
Context (cel_Program cel_PartialProgram : Ast -> res Program).
Context (Eval : Program -> string * string * string * columns * columns -> res cel_value).
Context (PartialEval : Program -> string * string * string -> res cel_value).
Context {Template : Type} (Parse : string -> res Template).
Context (env : Env) (cfg : Config) (sinksCfg : SinksConfig) (dest : Destinations (W := W) (Template := Template)).
Context (NonReplicationURL : string -> string).
Context (R : list obs * W -> list obs * W -> Prop) `{!PreOrder R}.
Abbreviation any_event := (fun _ : CDCEvent => True).
Abbreviation OBW := (gmap string B * (list obs * W))%type.
Abbreviation OGW := (Manager OBW * OBW)%type.

Hypothesis dest_R : DestinationsAre Parse env sinksCfg dest (fun s => sink_touches R any_event (obs_sink s)).
Hypothesis wait_R : forall c d, touches R (observed_wait wait c d).

Definition dlq_keeps (dlq : option (Store OBW * Manager OBW)) : Prop :=
  match dlq with
  | None => True
  | Some (store, _) => exists st, store = inner_store st /\ store_touches R any_event st
  end.
Definition sink_keeps (s : Sink OGW) : Prop := sink_touches (on_second (on_second R)) any_event s.

Lemma sink_touches_any {X} (Q : X -> X -> Prop) keep (s : Sink X) :
  sink_touches Q any_event s -> sink_touches Q keep s.
Proof. intros Hs c events _. apply Hs. by apply Forall_true. Qed.

Lemma addSink_keeps sink global tables dlq sinks dlq' sinks' :
  sink_touches R any_event (obs_sink sink) -> dlq_keeps dlq ->
  addSink breaker b0 (observed_wait wait) sha256hex hmac256hex celEnv cel_Compile OutputType cel_Program
    cel_PartialProgram Eval PartialEval cfg (sc_Outbox sinksCfg) (obs_sink sink) global tables (dlq, sinks)
    = inl (dlq', sinks') ->
  dlq_keeps dlq' /\ exists s, sinks' = sinks ++ [s] /\ sink_keeps s.
Proof using PreOrder0 wait_R.
  intros Hs Hd H. unfold addSink in H.
  destruct (wrapResilienceAndDLQ _ _ _ cfg (obs_sink sink) dlq) as [dlq1 s] eqn:Hw.
  pose proof (wrap_touches breaker b0 wait R any_event cfg _ _ _ _ wait_R Hs Hd Hw) as Hk.
  destruct (NewSink _ _ _ _ _ _ _ _ _ s _ _ _) as [wrapped|] eqn:Hn; [|discriminate].
  pose proof (fun keep => new_sink_touches _ _ _ _ _ _ _ _ _ _ _ _ keep _ _ Hn (sink_touches_any _ _ _ Hk)) as Hns.
  destruct (SchemaTable (sc_Outbox sinksCfg)) as [sc tb]. injection H as <- <-. split.
  - unfold wrapResilienceAndDLQ in Hw. destruct dlq as [[store m]|]; injection Hw as <- _; exact Hd.
  - eexists. split; [reflexivity|]. unfold sink_keeps. destruct (Enabled _); [|apply (Hns (fun _ _ => True))].
    apply (exclude_touches (fun _ _ => True)), sink_touches_any, (Hns (fun _ _ => True)).
Qed.

Lemma newSinks_keeps dlq dlq' sinks :
  dlq_keeps dlq ->
  newSinks breaker b0 (observed_wait wait) sha256hex hmac256hex celEnv cel_Compile OutputType cel_Program
    cel_PartialProgram Eval PartialEval Parse env cfg sinksCfg (observed dest) NonReplicationURL dlq
    = inl (dlq', sinks) ->
  Forall sink_keeps sinks.
Proof using PreOrder0 wait_R dest_R.
  intros Hd H.
  destruct (newSinks_blocks breaker b0 wait sha256hex hmac256hex celEnv cel_Compile OutputType cel_Program
    cel_PartialProgram Eval PartialEval Parse env cfg sinksCfg dest NonReplicationURL dlq_keeps
    _ (fun _ => sink_keeps) sink_keeps dest_R) with (3 := Hd) (4 := H) as (mirrors & outbox & -> & _ & Ho & Hm).
  - intros. by eapply addSink_keeps.
  - intros sink d d' s Hs Hd0 Hw. exact (wrap_touches breaker b0 wait R any_event cfg _ _ _ _ wait_R Hs Hd0 Hw).
  - apply Forall_app. split; [|done]. apply Forall_forall. intros s Hin.
    apply list_elem_of_lookup in Hin as [i Hi]. by destruct (Forall2_lookup_r _ _ _ _ _ Hm Hi) as (tr & _ & Hs).
Qed.
End assembled.

(** ** Along a lifetime *)
Section along.
Context {Template O W0 Conn JS P B : Type} `{!World W0}.
Context (Parse : string -> res Template).
Abbreviation resolver := (KeyResolver (Template := Template)).
Abbreviation VW := (list (O * command) * W0)%type.
Abbreviation DS := (DestState (Template := Template) (Conn := Conn) (JS := JS) (P := P)).
Abbreviation DW := (DS * VW)%type.
Abbreviation OBW := (gmap string B * (list obs * DW))%type.
Abbreviation OGW := (Manager OBW * OBW)%type.
Context (env : Env) (sinksCfg : SinksConfig) (dest : Destinations (W := DW) (Template := Template)).

(** The commands Redis has executed, and the state of the sinks. *)
Definition executed (w : OGW) : list (O * command) := w.2.2.2.2.1.
Definition sinks_state (w : OGW) : DS := w.2.2.2.1.

(** What else may happen to the world: a call of a destination (the API's retries, the
    lanes of a backfill), or anything that parks entries or has commands executed and
    leaves the sinks' state alone or, at a restart, fresh. *)
Definition destination (d : Sink DW) : Prop := forall D, DestinationsAre Parse env sinksCfg dest D -> D d.
Inductive elsewhere (w w' : OGW) : Prop :=
  | elsewhere_called d c events :
      destination d -> w'.2.2 = (Process (obs_sink d) c events w.2.2).2 -> elsewhere w w'
  | elsewhere_aside new more :
      gateway_log w' = gateway_log w ++ new -> Forall (fun o => is_call o = false) new ->
      executed w' = executed w ++ more -> sinks_state w' = sinks_state w \/ sinks_state w' = idle ->
      elsewhere w w'.

Lemma elsewhere_grows w w' : elsewhere w w' -> log_grows w w'.
Proof.
  intros [d c events _ E|new more E _ _ _]; unfold log_grows; [|rewrite E; by eexists].
  unfold gateway_log. rewrite E. simpl. destruct w.2.2 as [log dw]. destruct (Process d c events dw). by eexists.
Qed.

Context (field : DS -> option resolver) (name : string) (opts : O).
Context (cmd : CDCEvent -> ST resolver (res (option command))) (kr0 : resolver).
Abbreviation R := (keeps_written Parse field name opts cmd kr0).
Abbreviation is_written w := (Written Parse field name opts cmd kr0 w).
Hypothesis field_idle : field idle = None.
Hypothesis kr0_ok : cache_ok Parse kr0.
Hypothesis dest_keeps : DestinationsAre Parse env sinksCfg dest
  (fun s => sink_touches R (fun _ => True) (obs_sink s)).

Lemma idle_ok : resolver_ok Parse field kr0 idle.
Proof using field_idle kr0_ok. unfold resolver_ok. rewrite field_idle. by split. Qed.

Lemma elsewhere_written w w' : elsewhere w w' -> is_written w.2.2 -> is_written w'.2.2.
Proof using field_idle kr0_ok dest_keeps.
  intros [d c events Hd E|new more E Hnew Hx Hs] Hw.
  - rewrite E. eapply (Hd _ dest_keeps c events); [by apply Forall_true | by apply surjective_pairing | exact Hw].
  - destruct Hw as [Hr Hc]. unfold gateway_log, executed, sinks_state in *. split.
    + destruct Hs as [->| ->]; [exact Hr | exact idle_ok].
    + rewrite E, Hx. apply Forall_app. split; [by eapply calls_done_mono; [eexists|]|].
      eapply Forall_impl; [exact Hnew|]. by intros [].
Qed.

(** An event the sink's log holds as accepted was parked or is in the record. *)
Definition parked_for (w : OGW) (e : CDCEvent) : Prop :=
  exists entry, Parked entry None ∈ sink_log name w /\ dl_Event entry = e.

Lemma accepted_done (w : OGW) e :
  is_written w.2.2 -> e ∈ DeadLetter.accepted (sink_log name w) ->
  parked_for w e \/ command_done opts cmd kr0 (executed w) e.
Proof.
  intros [_ Hc] He. unfold DeadLetter.accepted in He.
  apply list_elem_of_In, in_concat in He as (l & (o & <- & Ho)%in_map_iff & Hin).
  apply list_elem_of_In in Ho, Hin. destruct o as [n events [er|]|entry [er|]]; simpl in Hin; try by apply not_elem_of_nil in Hin.
  - right. apply list_elem_of_filter in Ho as [Hn Ho]. rewrite Forall_forall in Hc. specialize (Hc _ Ho).
    simpl in Hc, Hn. apply bool_decide_eq_true in Hn. specialize (Hc Hn). rewrite Forall_forall in Hc. by apply Hc.
  - left. exists entry. apply list_elem_of_singleton in Hin. by split.
Qed.
End along.

(** ** The gateway over a recorded Redis *)
Section delivered.
Context {V : Validation} {L : ValidationLaws V}.
Context {B G W0 DB Obs FS : Type} `{!World W0, !MeiliAdmin W0} (breaker : Breaker B G) (b0 : B).
Context (sha256hex : string -> string) (hmac256hex : string -> string -> string).
Context {Ast Program : Type} (celEnv : option error) (cel_Compile : string -> res Ast) (OutputType : Ast -> string).
Context (cel_Program cel_PartialProgram : Ast -> res Program).
Context (Eval : Program -> string * string * string * columns * columns -> res cel_value).
Context (PartialEval : Program -> string * string * string -> res cel_value).
Context (ReadFile : string -> res string) (Unmarshal : string -> SinksConfig -> res SinksConfig).
(** The destinations' clients. *)
Context {Template Options Conn JS F P : Type}.
Context (Parse : string -> res Template) (Render : Template -> KeyTemplateContext -> res string).
Context (Marshal : any -> res string) (time_any : Z -> any).
Context (ParseURL : string -> res Options) (NewClient : Options -> RedisClient W0).
Context (TrimSpace : string -> string) (request_err : option error).
Context (Do : Ctx -> Publish.request -> ST W0 (res Publish.response)).
Context (CloseIdleConnections : ST W0 unit) (nats : NatsClient W0 Conn JS).
Context (PublishMsg : Msg -> ST W0 (option error)) (Flush : Ctx -> ST W0 (option error)).
Context (PublishMsgAsync : Msg -> string -> ST W0 (res F)) (AwaitAck : Ctx -> F -> ST W0 ack_result).
Context (pg : PgClient W0 P) (Sanitize : list string -> string).
Context (range : gmap string MeiliIndexSettings -> list (string * MeiliIndexSettings)).
Context (Enqueue : Ctx -> string -> Meili.run -> ST W0 (res Z)).
Context (GetTasks : Ctx -> list Z -> ST W0 (res (list Task))).
Context (StatusCode : error -> option Z) (wait : Ctx -> Z -> ST W0 bool) (patience : nat).
(** The rest of the process. *)
Context (NonReplicationURL : string -> string).
Context (NewRedisStore : string -> string -> Z -> res (Store W0)) (NewDB : string -> string -> Z -> res DB).
Context (recorder : Obs) (NewRedisPublisher : string -> string -> Z -> res Obs).
Context (version : string) (dist : option FS) (startedAt : Z).
Context (LSN_String : Z -> string).
Context (TypeForOID : Z -> option (string * (string -> res any))).
Context (ParsePrimaryKeepaliveMessage : string -> res PrimaryKeepaliveMessage).
Context (ParseXLogData : string -> res XLogData).
Context (ParseV2 : string -> res Message).
Context {C : Type} (controller : option (Controller C)).
Abbreviation resolver := (KeyResolver (Template := Template)).
Abbreviation VW := (list (Options * command) * W0)%type.
Abbreviation DS := (DestState (Template := Template) (Conn := Conn) (JS := JS) (P := P)).
Abbreviation DW := (DS * VW)%type.
Abbreviation OBW := (gmap string B * (list obs * DW))%type.
Abbreviation OGW := (Manager OBW * OBW)%type.
Abbreviation TW := (list (string * call) * OGW)%type.
Context (schedule : list (nat * Sink TW) -> list (nat * Sink TW)).
Context (shutdown_closed : OGW -> bool) (deliverCtx : Ctx) (WAL : list Txn).

Abbreviation dests := (redis_destinations Parse Render Marshal time_any ParseURL NewClient hmac256hex TrimSpace
  request_err Do CloseIdleConnections nats PublishMsg Flush PublishMsgAsync AwaitAck pg Sanitize range Enqueue
  GetTasks StatusCode wait patience).
Definition sinks_wait (c : Ctx) (d : Z) : ST DW bool := inner (inner (wait c d)).
Definition sinks_store (url prefix : string) (max : Z) : res (Store DW) :=
  ok! st := NewRedisStore url prefix max in inl (inner_store (inner_store st)).
Abbreviation started := (Module breaker b0 (observed_wait sinks_wait) sha256hex hmac256hex celEnv cel_Compile OutputType
  cel_Program cel_PartialProgram Eval PartialEval Parse ReadFile Unmarshal (observed dests) NonReplicationURL
  (observed_store sinks_store) NewDB recorder NewRedisPublisher version dist startedAt).
Abbreviation decode := (Decode LSN_String TypeForOID ParsePrimaryKeepaliveMessage ParseXLogData ParseV2).

(** Of a transaction's events, decoded one per changed row, the form [g] gives of each
    that is not of an excluded table was parked for the sink, or its command, with the
    key of its own pattern, is among those Redis executed. *)
Definition delivered_to (excluded : gset string) (name : string) (opts : Options)
    (cmd : CDCEvent -> ST resolver (res (option command))) (kr : resolver)
    (g : CDCEvent -> option CDCEvent) (t : Txn) (w : TW) : Prop :=
  exists evs, map mark evs = marks LSN_String t /\
    (exists d ms, carries ParseXLogData ParseV2 t ms /\ evs = decoded (results decode d ms).1) /\
    forall e e', e ∈ admitted excluded evs -> g e = Some e' ->
      parked_for name w.2 e' \/ command_done opts cmd kr (executed w.2) e'.

Section gateway.
Context (env : Env) (gw : @Gateway B (list obs * DW) DB Obs FS).
Hypothesis gw_started : started env = inl gw.
Hypothesis schedule_permutes : forall l, schedule l ≡ₚ l.
Hypothesis WAL_ordered : StronglySorted before WAL.
Abbreviation gateway_lifetime := (lifetime LSN_String TypeForOID ParsePrimaryKeepaliveMessage ParseXLogData ParseV2 controller
  (wr_maxBatchEvents (gw_reader gw)) (sv_ParallelSinks (gw_service gw)) (sv_ExcludedTables (gw_service gw))
  schedule shutdown_closed deliverCtx (All (gw_registry gw)) (elsewhere Parse env (gw_sinksCfg gw) dests) WAL).
Abbreviation compiled_for := (compiled sha256hex hmac256hex (cfg_MaskHMACKey (gw_cfg gw)) celEnv cel_Compile OutputType
  cel_Program cel_PartialProgram).

(** A gateway that is up has the resolver and the server of each Redis sink. *)
Lemma stream_configured :
  rd_Enabled (Redis_LoadConfig env) = true ->
  exists opts kr, ParseURL (rd_URL (Redis_LoadConfig env)) = inl opts /\ stream_resolver Parse env (gw_sinksCfg gw) = inl kr.
Proof using gw_started.
  intros He. destruct (Module_parts _ _ _ _ _ _ _ _ _ _ _ _ _ _ _ _ _ _ _ _ _ _ _ _ _ _ gw_started)
    as (_ & (dlq0 & _ & Hs) & _). unfold newSinks, add_stream in Hs. rewrite He in Hs. unfold stream_resolver.
  destruct (keyed_resolver Parse (sc_RedisStream _) _ _) as [kr|]; [|discriminate]. simpl in Hs.
  unfold NewStreamSink, NewBaseSink in Hs. destruct (ParseURL (rd_URL _)) as [opts|]; [|discriminate]. eauto.
Qed.
Lemma json_configured :
  rj_Enabled (RedisJSON_LoadConfig env) = true ->
  exists opts kr, ParseURL (rj_URL (RedisJSON_LoadConfig env)) = inl opts /\ json_resolver Parse env (gw_sinksCfg gw) = inl kr.
Proof using gw_started.
  intros He. destruct (Module_parts _ _ _ _ _ _ _ _ _ _ _ _ _ _ _ _ _ _ _ _ _ _ _ _ _ _ gw_started)
    as (_ & (dlq0 & _ & Hs) & _). unfold newSinks in Hs.
  destruct (add_stream _ _ _ _ _ _ _ _ _ _ _ _ _ _ _ _ _ _) as [a|]; [|discriminate].
  unfold add_json in Hs. rewrite He in Hs. unfold json_resolver.
  destruct (keyed_resolver Parse (sc_RedisJSON _) _ _) as [kr|]; [|discriminate]. simpl in Hs.
  unfold NewJSONSink, NewBaseSink in Hs. destruct (ParseURL (rj_URL _)) as [opts|]; [|discriminate]. eauto.
Qed.

(** A process that has just started with nothing logged. *)
Definition fresh (x : OGW) : Prop := gateway_log x = [] /\ sinks_state x = idle.

Lemma sinks_written field name opts cmd kr x0 pos0 pos d c w :
  field idle = None -> cache_ok Parse kr ->
  DestinationsAre Parse env (gw_sinksCfg gw) dests
    (fun s => sink_touches (keeps_written Parse field name opts cmd kr) (fun _ => True) (obs_sink s)) ->
  fresh x0 -> gateway_lifetime pos0 ([], x0) pos d c w -> Written Parse field name opts cmd kr w.2.2.2.
Proof using gw_started schedule_permutes.
  intros Hf Hk Hd [Hlog Hds] Hlife.
  destruct (Module_parts _ _ _ _ _ _ _ _ _ _ _ _ _ _ _ _ _ _ _ _ _ _ _ _ _ _ gw_started)
    as (_ & (dlq0 & Hq & Hs) & Hr & _).
  eapply (lifetime_keeps _ _ _ _ _ _ _ _ _ _ _ _ _ _ _ schedule_permutes
    (fun tw => Written Parse field name opts cmd kr tw.2.2.2)); [| | exact Hlife |].
  - rewrite Hr. apply Forall_map, Forall_forall. intros s Hin%registered_only c' events [book x] Hw. simpl.
    assert (Hall := newSinks_keeps breaker b0 sinks_wait sha256hex hmac256hex celEnv cel_Compile OutputType cel_Program
      cel_PartialProgram Eval PartialEval Parse env (gw_cfg gw) (gw_sinksCfg gw) dests NonReplicationURL
      (keeps_written Parse field name opts cmd kr) Hd (wait_written Parse field name opts cmd kr wait) dlq0 (gw_dlq gw) (gw_sinks gw)).
    rewrite Forall_forall in Hall. destruct (Process s c' events x) as [r x'] eqn:E.
    refine (Hall _ Hs s Hin c' events _ _ _ _ E Hw); [|by apply Forall_true].
    revert Hq. unfold newDLQManager, observed_store, sinks_store. destruct (_ || _); [by intros [= <-]|].
    destruct (NewRedisStore _ _ _) as [st|]; [|discriminate]. intros [= <-].
    eexists. split; [reflexivity | apply store_written].
  - intros book x x' Hx. by eapply elsewhere_written.
  - unfold gateway_log, sinks_state in *. simpl. split; [rewrite Hds; by apply idle_ok | rewrite Hlog; constructor].
Qed.

Lemma reached_delivered field name opts cmd kr g x0 pos0 pos d c w t :
  field idle = None -> cache_ok Parse kr ->
  DestinationsAre Parse env (gw_sinksCfg gw) dests
    (fun s => sink_touches (keeps_written Parse field name opts cmd kr) (fun _ => True) (obs_sink s)) ->
  fresh x0 -> gateway_lifetime pos0 ([], x0) pos d c w ->
  reached (gw_cfg gw) LSN_String TypeForOID ParsePrimaryKeepaliveMessage ParseXLogData ParseV2 name g t w ->
  delivered_to (sv_ExcludedTables (gw_service gw)) name opts cmd kr g t w.
Proof using gw_started schedule_permutes.
  intros Hf Hk Hd Hx Hlife (evs & Hm & Hdec & Hsub).
  destruct (Module_parts _ _ _ _ _ _ _ _ _ _ _ _ _ _ _ _ _ _ _ _ _ _ _ _ _ _ gw_started) as (_ & _ & _ & Hsv).
  exists evs. split_and!; [done..|]. rewrite Hsv. intros e e' He Hg.
  eapply accepted_done; [by eapply sinks_written|].
  eapply elem_of_sublist; [|exact Hsub]. apply list_elem_of_omap. eauto.
Qed.

Lemma resolver_fresh k prefix pattern (kr : resolver) : keyed_resolver Parse k prefix pattern = inl kr -> cache_ok Parse kr.
Proof.
  unfold keyed_resolver, NewKeyResolver. destruct (ParseKeyTemplate _ _); [|discriminate]. intros [= <-].
  apply map_Forall_empty.
Qed.

(** Which of the assembled sinks the Redis sinks are. *)
Lemma of_stream (Q : option TransformSpec * gmap string TransformSpec -> string -> Prop) (cfg : SinksConfig) :
  rd_Enabled (Redis_LoadConfig env) = true -> Forall2 Q (enabled_transforms env cfg) (mirror_names env) ->
  Q (ks_Transform (sc_RedisStream cfg), TableTransforms (sc_RedisStream cfg)) "redis-stream".
Proof. unfold enabled_transforms, mirror_names. intros ->. cbn [app]. by intros [H _]%Forall2_cons. Qed.
Lemma of_json (Q : option TransformSpec * gmap string TransformSpec -> string -> Prop) (cfg : SinksConfig) :
  rj_Enabled (RedisJSON_LoadConfig env) = true -> Forall2 Q (enabled_transforms env cfg) (mirror_names env) ->
  Q (ks_Transform (sc_RedisJSON cfg), TableTransforms (sc_RedisJSON cfg)) "redis-json".
Proof.
  unfold enabled_transforms, mirror_names. intros ->.
  destruct (rd_Enabled _); cbn [app]; [intros [_ H]%Forall2_cons | intros H]; by apply Forall2_cons in H as [H _].
Qed.

(** C2: Every confirmed change is in Redis.  For a gateway that started from its
    environment, with the program's own sinks over arbitrary clients of all the
    services, over any number of sessions, failures, retries and restarts: of every
    transaction the server holds as confirmed, each event of a table that is not
    excluded and that the stream sink's transforms keep, as they rewrite it, was parked
    for that sink in the dead-letter queue, or the XADD for it, to the stream its own
    key pattern names, was executed by the Redis of the stream sink, unless the sink's
    configuration leaves the table out; and the same of the RedisJSON sink with the
    JSON.SET, JSON.MERGE or DEL of the event's document. *)
Theorem confirmed_changes_are_in_redis x0 pos0 pos d c w t :
  fresh x0 -> gateway_lifetime pos0 ([], x0) pos d c w -> t ∈ WAL -> (pos0 < t_end t <= pos)%Z ->
  let cfg := gw_sinksCfg gw in
  let delivered_to := delivered_to (sv_ExcludedTables (gw_service gw)) in
  (rd_Enabled (Redis_LoadConfig env) = true -> exists opts kr chain,
     ParseURL (rd_URL (Redis_LoadConfig env)) = inl opts /\ stream_resolver Parse env cfg = inl kr /\
     compiled_for (ks_Transform (sc_RedisStream cfg)) (TableTransforms (sc_RedisStream cfg)) chain /\
     delivered_to "redis-stream" opts (stream_cmd Parse Render Marshal time_any env) kr (wanted Eval cfg chain) t w) /\
  (rj_Enabled (RedisJSON_LoadConfig env) = true -> exists opts kr chain,
     ParseURL (rj_URL (RedisJSON_LoadConfig env)) = inl opts /\ json_resolver Parse env cfg = inl kr /\
     compiled_for (ks_Transform (sc_RedisJSON cfg)) (TableTransforms (sc_RedisJSON cfg)) chain /\
     delivered_to "redis-json" opts (json_cmd Parse Render Marshal) kr (wanted Eval cfg chain) t w).
Proof using L gw_started schedule_permutes WAL_ordered.
  intros Hx Hlife Ht Hpos cfg to.
  destruct (Module_parts _ _ _ _ _ _ _ _ _ _ _ _ _ _ _ _ _ _ _ _ _ _ _ _ _ _ gw_started)
    as (Hload & (dlq0 & Hd & Hs) & Hr & Hsv). destruct (loaded_well_formed _ _ Hload).
  pose proof Hlife as Hl. apply (lifetime_mono _ _ _ _ _ _ _ _ _ _ _ _ _ _ log_grows) in Hl; [|apply elsewhere_grows].
  rewrite Hr, Hsv in Hl.
  assert (Hreach := confirmed_changes_reach breaker b0 sinks_wait sha256hex hmac256hex celEnv cel_Compile OutputType
    cel_Program cel_PartialProgram Eval PartialEval Parse env (gw_cfg gw) cfg dests NonReplicationURL).
  edestruct Hreach as [Hall _]; [done | exact schedule_permutes | exact WAL_ordered | by eapply observed_dlq
    | exact Hs | exact Hl | exact Ht | exact Hpos |].
  split.
  - intros He. destruct (stream_configured He) as (opts & kr & Ho & Hk).
    destruct (of_stream _ _ He Hall) as (chain & Hc & Hre). exists opts, kr, chain. split_and!; [done..|].
    by eapply (reached_delivered dst_stream); [| eapply resolver_fresh | apply stream_destinations | ..].
  - intros He. destruct (json_configured He) as (opts & kr & Ho & Hk).
    destruct (of_json _ _ He Hall) as (chain & Hc & Hre). exists opts, kr, chain. split_and!; [done..|].
    by eapply (reached_delivered dst_json); [| eapply resolver_fresh | apply json_destinations | ..].
Qed.
End gateway.
End delivered.

(** ** A gateway whose services all answer *)
Definition ready_redis : RedisClient unit := {| rc_Ping := ret None; rc_Exec _ := ret None; rc_Close := ret None |}.
Definition ready_nats : NatsClient unit unit unit :=
  {| nc_Connect _ _ := ret (inl tt); nc_JetStream _ _ := ret (inl tt); nc_CreateOrUpdateStream _ _ _ := ret None;
     nc_NameInUse _ := false; nc_FlushTimeout _ _ := ret None; nc_IsConnected _ _ := true; nc_Close _ := ret tt |}.
Definition ready_pg : PgClient unit unit :=
  {| pc_New _ := ret (inl tt); pc_IDType _ _ _ := ret (inl "bigint"); pc_Exec _ _ _ := ret None; pc_Close _ := ret tt |}.
#[local] Instance ready_admin : MeiliAdmin unit :=
  {| Health := ret None; GetIndexInfo _ := ret (inl "id"); CreateIndex _ _ := ret (inl 0%Z);
     GetSearchableAttributes _ := ret (inl None); UpdateSearchableAttributes _ _ := ret (inl 0%Z);
     GetFilterableAttributes _ := ret (inl None); UpdateFilterableAttributes _ _ := ret (inl 0%Z);
     WaitForTask _ := ret (inr (EMsg "no task")); APIStatus _ := None; CloseClient := ret tt |}.
Definition ready_http (_ : Ctx) (_ : Publish.request) : ST unit (res Publish.response) := ret (inl {| Publish.rs_StatusCode := 200; Publish.rs_Status := "200 OK"; Publish.rs_body := "" |}).

(** The stream and the JSON sink on servers of their own. *)
Definition two_redis_env : Env := fun key => if decide (key = "REDIS_JSON_URL") then "redis://json" else start_env key.
Definition two_redis_sinks : SinksConfig :=
  {| sc_RedisStream := sc_RedisStream demo_sinks; sc_RedisJSON := sc_Webhook demo_sinks;
     sc_Meilisearch := sc_Meilisearch demo_sinks; sc_Webhook := sc_Webhook demo_sinks; sc_NATS := sc_NATS demo_sinks;
     sc_Outbox := sc_Outbox demo_sinks |}.
Abbreviation ready_destinations :=
  (redis_destinations toy_Parse toy_Render toy_Marshal (fun _ => ANil) (fun url => inl url) (fun _ => ready_redis)
     (fun _ s => s) (fun s => s) None ready_http (ret tt) ready_nats (fun _ => ret None) (fun _ => ret None)
     (fun _ _ => ret (inl tt)) (fun _ _ => ret AckOk) ready_pg (fun l => String.concat "." l) map_to_list
     (fun _ _ _ => ret (inl 0%Z)) (fun _ _ => ret (inl [])) (fun _ => None) demo_wait 0).
Abbreviation ready_started :=
  (Module toy_breaker false (observed_wait (sinks_wait demo_wait)) (fun s => s) (fun _ s => s) None (fun s => inl s)
     (fun _ => "bool") (fun s => inl s) (fun s => inl s) demo_cel demo_partial toy_Parse
     (fun _ => inl "sinks: {}") (fun _ _ => inl two_redis_sinks) (observed ready_destinations)
     (fun u => u) (observed_store (sinks_store (fun _ _ _ => inl open_store)))
     (fun _ _ _ => inl tt) tt (fun _ _ _ => inl tt) "v1" (Some tt) 0%Z two_redis_env).
Abbreviation ready_world := (list obs * (DestState (Template := string) (Conn := unit) (JS := unit) (P := unit) *
  (list (string * command) * unit)))%type.
Abbreviation ready_gw := (@Gateway bool ready_world unit unit unit).
Definition ready_world0 : Manager (gmap string bool * ready_world) * (gmap string bool * ready_world) :=
  (NewManager 3 0, (∅, ([], (idle, ([], tt))))).

Lemma confirmed_changes_are_in_redis_witness :
  exists (gw : ready_gw) w, ready_started = inl gw /\
    (exists d c, demo_life gw (elsewhere toy_Parse two_redis_env (gw_sinksCfg gw) ready_destinations)
                   50 ([], ready_world0) 120 d c w) /\
    exists opts kr chain, json_resolver toy_Parse two_redis_env (gw_sinksCfg gw) = inl kr /\
      delivered_to pretty demo_types demo_keepalive demo_xlog demo_parse (sv_ExcludedTables (gw_service gw))
        "redis-json" opts (json_cmd toy_Parse toy_Render toy_Marshal) kr (wanted demo_cel (gw_sinksCfg gw) chain) demo_txn w.
Proof.
  assert (Hs : match ready_started with inl gw => demo_sessions gw ready_world0 = true | inr _ => False end)
    by (vm_compute; reflexivity).
  destruct ready_started as [gw|e] eqn:E; [|destruct Hs].
  destruct (demo_lives gw (elsewhere toy_Parse two_redis_env (gw_sinksCfg gw) ready_destinations) ready_world0)
    as (d & c & w & Hlife); [|exact Hs|].
  { intros w. apply (elsewhere_aside _ _ _ _ w w [] []);
      [by rewrite app_nil_r | constructor | by rewrite app_nil_r | by left]. }
  exists gw, w. split; [reflexivity|]. split; [by exists d, c|].
  destruct (confirmed_changes_are_in_redis _ _ _ _ _ _ _ _ _ _ _ _ _ _ _ _ _ _ _ _ _ _ _ _ _ _ _ _ _ _
      _ _ _ _ _ _ _ _ _ _ _ _ _ _ pretty demo_types demo_keepalive demo_xlog demo_parse (@None (Controller unit))
      (fun l => l) (fun _ => false) Background [demo_txn] two_redis_env gw E) with (4 := Hlife) (t := demo_txn)
    as [_ Hjson].
  - intros l. reflexivity.
  - repeat constructor.
  - by split.
  - apply list_elem_of_here.
  - split; [reflexivity | vm_compute; discriminate].
  - destruct (Hjson eq_refl) as (opts & kr & chain & _ & Hk & _ & Hd). exists opts, kr, chain. split; [exact Hk | exact Hd].
Defined.

(** The servers that executed the commands of a whole session: an entry per change on the
    stream's, a document per change on the other. *)
Example ready_executed :
  match ready_started with
  | inl gw =>
      match system_run (Decode pretty demo_types demo_keepalive demo_xlog demo_parse) (@None (Controller unit))
              (wr_maxBatchEvents (gw_reader gw)) (sv_ParallelSinks (gw_service gw)) (sv_ExcludedTables (gw_service gw))
              (fun l => l) (fun _ => false) Background (All (gw_registry gw)) whole_session
              (begin_session None 50 NewDecoder tt ([], ready_world0)) with
      | Some y => map fst (executed (world y).2)
      | None => []
      end
  | inr _ => []
  end = ["redis://localhost"; "redis://localhost"; "redis://json"; "redis://json"].
Proof. vm_compute. reflexivity. Qed.
