(* ===== verification/Routing.v ===== *)
(** * Whom a backfill asks
      (src/cmd/gateway/modules.go: the [Wanted] of [newBackfillCoordinator] over the
      sinks of [newSinks])

    A backfill skips a table when no sink wants rows of it, and the sinks it asks are
    the assembled ones: exclusion around transforms around the dead-letter queue around
    retries around the destination.  Skipping loses nothing: had such rows been
    streamed, every destination would have been given none of them, or only rows its
    own router turns away, and it does nothing with those. *)

From Stdlib Require Import ZArith Lia Ascii String.
From stdpp Require Import base list gmap strings pretty.
From S2P Require Import Prelude Domain DeadLetter Backfill Resilience Transform Meili Keys RedisSinks Publish Config MeiliSetup Sinks Gateway Wiring Delivered.

Open Scope go_scope.
Set Warnings "-clear-no-such-hyp".
Set Default Proof Using "Type".

(** ** Filters compiled from a configuration

    What CEL documents of a filter's two programs, built from one expression: when the
    one that does not know the row has a definite result, it is the other's for every
    row. *)
Section filters.
Context {Ast Program : Type} (cel_Program cel_PartialProgram : Ast -> res Program).
Context (Eval : Program -> string * string * string * columns * columns -> res cel_value).
Context (PartialEval : Program -> string * string * string -> res cel_value).

Definition partial_programs_sound : Prop :=
  forall ast prg partial, cel_Program ast = inl prg -> cel_PartialProgram ast = inl partial ->
    partial_eval_sound Eval PartialEval prg partial.
Hypothesis sound : partial_programs_sound.

Context (sha256hex : string -> string) (hmac256hex : string -> string -> string) (key : string).
Context (celEnv : option error) (cel_Compile : string -> res Ast) (OutputType : Ast -> string).
Abbreviation compile := (CompileWithOptions sha256hex hmac256hex celEnv cel_Compile OutputType cel_Program
                        cel_PartialProgram key).

Lemma filter_sound filter prg partial :
  compile_filter celEnv cel_Compile OutputType cel_Program cel_PartialProgram filter = inl (prg, Some partial) ->
  exists p, prg = Some p /\ partial_eval_sound Eval PartialEval p partial.
Proof using sound.
  unfold compile_filter. repeat case_match; try discriminate. intros [= <- <-]. eauto.
Qed.

Lemma compile_sound spec chain : compile [spec] = inl chain -> chain_sound Eval PartialEval chain.
Proof using sound.
  unfold CompileWithOptions. cbn [compile_steps]. destruct (IsZero spec); [intros [= <-]; discriminate|].
  destruct (compile_filter _ _ _ _ _ _) as [[prg partial]|] eqn:Hf; [|discriminate].
  destruct (compile_mask _ _ _ _) as [mask|]; [|discriminate]. intros [= <-] steps st p [= <-].
  intros ->%list_elem_of_singleton. simpl. intros ->. by eapply filter_sound.
Qed.

Lemma compiled_sound global tables t schema table :
  compiled sha256hex hmac256hex key celEnv cel_Compile OutputType cel_Program cel_PartialProgram global tables t ->
  chain_sound Eval PartialEval (ts_global t) /\ chain_sound Eval PartialEval (tableChain t schema table).
Proof using sound.
  intros [Hg Ht].
  assert (Hany : forall name, chain_sound Eval PartialEval (ts_tables t !! name)).
  { intros name. specialize (Ht name). destruct (tables !! name); [by eapply compile_sound|]. by rewrite Ht. }
  split; [destruct global; [by eapply compile_sound | by rewrite Hg]|].
  unfold tableChain. pose proof (Hany (schema +:+ "." +:+ table)%string) as Hf.
  destruct (ts_tables t !! (schema +:+ "." +:+ table)%string); [exact Hf | apply Hany].
Qed.
End filters.

(** ** The layers, asked for an event they do not want *)

(** Events of one table and operation. *)
Definition events_of (schema table : string) (op : Operation) (events : list CDCEvent) : Prop :=
  Forall (fun e => Schema e = schema /\ Table e = table /\ Op e = op) events.
Definition unwanted {W} (d : Sink W) (e : CDCEvent) : Prop := Wants d (Schema e) (Table e) (Op e) = false.

(** [honours R d s]: of events it says it does not want, [s] touches the world as [R]
    allows it to for events [d] does not want. *)
Definition honours {W X} (R : X -> X -> Prop) (d : Sink W) (s : Sink X) : Prop :=
  forall schema table op, Wants s schema table op = false ->
  forall c events, events_of schema table op events -> touches R (Process s c events).

Lemma honours_itself {W X} (R : X -> X -> Prop) (d : Sink W) (s : Sink X) :
  (forall schema table op, Wants s schema table op = Wants d schema table op) ->
  sink_touches R (unwanted d) s -> honours R d s.
Proof.
  intros Hw Hs schema table op Hn c events Hev. apply Hs. eapply Forall_impl; [exact Hev|].
  intros e (Hsc & Htb & Hop). unfold unwanted. by rewrite <- Hw, Hsc, Htb, Hop.
Qed.

Lemma spec_steps_op {Program} Eval (steps : list (compiledSpec (Program := Program))) e :
  Op (spec_steps Eval steps e).1.1 = Op e.
Proof.
  revert e. induction steps as [|st steps IH]; intros e; simpl; [done|].
  destruct (match cs_filter st with Some _ => _ | None => _ end) as [[|]|]; try done.
  destruct (step_idle st); [apply IH|]. by rewrite IH.
Qed.

Section layers.
Context {W X : Type} {R : X -> X -> Prop} `{!PreOrder R} (d : Sink W).

Lemma exclude_honours schema table (s : Sink X) : honours R d s -> honours R d (ExcludeTable schema table s).
Proof using Type*.
  intros Hs schema' table' op Hw c events Hev. simpl. unfold Exclude_Process. rewrite exclude_filter.
  set (kept := filter _ events).
  assert (Hk : events_of schema' table' op kept).
  { apply Forall_forall. intros e [_ Hin]%list_elem_of_filter. unfold events_of in Hev. rewrite Forall_forall in Hev.
    by apply Hev. }
  destruct kept as [|e0 es] eqn:Hkept; [apply touches_ret|]. apply (Hs schema' table' op); [|done].
  unfold Wants in Hw. simpl in Hw. destruct (decide (schema' = schema /\ table' = table)) as [[-> ->]|Hne]; [|done].
  assert (Hin : e0 ∈ kept) by (rewrite Hkept; left). unfold kept in Hin.
  apply list_elem_of_filter in Hin as [Hx _]. inversion_clear Hk as [|? ? (Hsc & Htb & _) _].
  unfold excluded in Hx. rewrite Hsc, Htb, !bool_decide_eq_true_2 in Hx by done. discriminate Hx.
Qed.

Lemma transform_honours {Program} Eval PartialEval (t : transform_sink (Program := Program)) (s : Sink X) :
  (forall schema table, chain_sound Eval PartialEval (ts_global t) /\
                        chain_sound Eval PartialEval (tableChain t schema table)) ->
  honours R d s -> honours R d (TransformSink Eval PartialEval t s).
Proof using Type*.
  intros Hsound Hs schema table op Hw c events Hev. simpl. unfold transform_Process.
  destruct (transform_batch Eval t events) as [out|err] eqn:Hb; [|apply touches_ret].
  assert (Hout : forall e', e' ∈ out -> exists e, Schema e = schema /\ Table e = table /\ Op e = op /\
    Schema e' = schema /\ Table e' = table /\ Op e' = op /\ (transform_event Eval t e).1.2 = true).
  { intros e' Hin. destruct (transform_batch_elem Eval _ _ _ _ Hb Hin) as (e & He & Hsc & Htb & Hst).
    unfold events_of in Hev. rewrite Forall_forall in Hev. destruct (Hev e He) as (<- & <- & <-). exists e.
    pose proof (spec_steps_op Eval (event_steps t (Schema e) (Table e)) e) as Hop.
    rewrite transform_event_steps. rewrite Hst in *. by split_and!. }
  destruct out as [|e' out]; [apply touches_ret|]. apply (Hs schema table op).
  - destruct (Wants s schema table op) eqn:Hi; [|done]. exfalso.
    destruct (Hout e' ltac:(by left)) as (e & <- & <- & <- & _ & _ & _ & Hpass).
    destruct (Hsound (Schema e) (Table e)) as [Hg Ht].
    by rewrite (unwanted_events_never_pass Eval PartialEval t s e Hg Ht Hi Hw) in Hpass.
  - apply Forall_forall. intros x Hx. by destruct (Hout x Hx) as (e & _ & _ & _ & ? & ? & ? & _).
Qed.
End layers.

(** [NewSink] wraps in transforms compiled from the specs, or not at all. *)
Lemma new_sink_cases {Ast Program W} sha256hex hmac256hex (celEnv : option error) (cel_Compile : string -> res Ast)
    OutputType (cel_Program cel_PartialProgram : Ast -> res Program) Eval PartialEval (inner s : Sink W) key global tables :
  NewSink sha256hex hmac256hex celEnv cel_Compile OutputType cel_Program cel_PartialProgram Eval PartialEval
    inner key global tables = inl s ->
  s = inner \/ exists t, s = TransformSink Eval PartialEval t inner /\
    compiled sha256hex hmac256hex key celEnv cel_Compile OutputType cel_Program cel_PartialProgram global tables t.
Proof.
  unfold NewSink. destruct (match global with None => _ | Some _ => _ end) as [chain|] eqn:Hg; [|discriminate].
  destruct (compile_tables _ _ _ _ _ _ _ _ _ _) as [m|] eqn:Hm; [|discriminate].
  destruct (negb _ && _); intros [= <-]; [by left|]. right. eexists. split; [done|].
  split; [destruct global; simpl; congruence|]. intros name. simpl.
  pose proof (compile_tables_lookup _ _ _ _ _ _ _ _ _ _ _ (NoDup_fst_map_to_list tables) Hm name) as Hl.
  by rewrite list_to_map_to_list in Hl.
Qed.

(** ** The assembled sinks *)
Section assembled.
Context {B G W : Type} `{!World W} (breaker : Breaker B G) (b0 : B) (wait : Ctx -> Z -> ST W bool).
Context (sha256hex : string -> string) (hmac256hex : string -> string -> string).
Context {Ast Program : Type} (celEnv : option error) (cel_Compile : string -> res Ast) (OutputType : Ast -> string).
Context (cel_Program cel_PartialProgram : Ast -> res Program).
Context (Eval : Program -> string * string * string * columns * columns -> res cel_value).
Context (PartialEval : Program -> string * string * string -> res cel_value).
Context {Template : Type} (Parse : string -> res Template).
Context (env : Env) (cfg : Config) (sinksCfg : SinksConfig) (dest : Destinations (W := W) (Template := Template)).
Context (NonReplicationURL : string -> string).
Hypothesis sound : partial_programs_sound cel_Program cel_PartialProgram Eval PartialEval.

Abbreviation OGW := (Manager (gmap string B * (list obs * W)) * (gmap string B * (list obs * W)))%type.
Abbreviation wrap := (wrapResilienceAndDLQ breaker b0 (observed_wait wait)).

(** [fronts d s]: [s] has [d] for its destination, and of a table and operation it does
    not want it hands over or parks only events [d] does not want. *)
Definition fronts (d : Sink W) (s : Sink OGW) : Prop :=
  Name s = Name d /\ honours (adds gateway_log (shows (unwanted d))) d s.

Lemma wrap_fronts (d : Sink W) dlq dlq' s :
  dlq_observed dlq -> wrap cfg (obs_sink d) dlq = (dlq', s) -> fronts d s.
Proof using Type.
  intros Hd Hw. split.
  - unfold wrapResilienceAndDLQ in Hw. destruct dlq as [[store m]|]; by injection Hw as <- <-.
  - apply honours_itself; [|by eapply wrapped_touches].
    unfold wrapResilienceAndDLQ in Hw. destruct dlq as [[store m]|]; by injection Hw as <- <-.
Qed.

Lemma addSink_fronts (d : Sink W) global tables dlq sinks dlq' sinks' :
  dlq_observed dlq ->
  addSink breaker b0 (observed_wait wait) sha256hex hmac256hex celEnv cel_Compile OutputType cel_Program
    cel_PartialProgram Eval PartialEval cfg (sc_Outbox sinksCfg) (obs_sink d) global tables (dlq, sinks)
    = inl (dlq', sinks') ->
  dlq_observed dlq' /\ exists s, sinks' = sinks ++ [s] /\ fronts d s.
Proof using sound.
  intros Hd H. unfold addSink in H. destruct (wrap cfg (obs_sink d) dlq) as [dlq1 s] eqn:Hw.
  destruct (wrap_fronts _ _ _ _ Hd Hw) as [Hname Hs]. pose proof (wrap_observed breaker b0 wait _ _ _ _ _ Hd Hw) as Hd'.
  destruct (NewSink _ _ _ _ _ _ _ _ _ s _ _ _) as [wrapped|] eqn:Hn; [|discriminate].
  assert (Hwr : Name wrapped = Name d /\ honours (adds gateway_log (shows (unwanted d))) d wrapped).
  { destruct (new_sink_cases _ _ _ _ _ _ _ _ _ _ _ _ _ _ Hn) as [->|(t & -> & Ht)]; [done|].
    split; [exact Hname|]. apply transform_honours; [|exact Hs]. intros schema table. by eapply compiled_sound. }
  destruct (SchemaTable _) as [sc tb]. injection H as <- <-. split; [done|]. eexists. split; [reflexivity|].
  destruct (Enabled _); [|exact Hwr]. split; [apply Hwr | apply exclude_honours, Hwr].
Qed.

Lemma newSinks_front (D : Sink W -> Prop) dlq dlq' sinks :
  DestinationsAre Parse env sinksCfg dest D -> dlq_observed dlq ->
  newSinks breaker b0 (observed_wait wait) sha256hex hmac256hex celEnv cel_Compile OutputType cel_Program
    cel_PartialProgram Eval PartialEval Parse env cfg sinksCfg (observed dest) NonReplicationURL dlq
    = inl (dlq', sinks) ->
  Forall (fun s => exists d, D d /\ fronts d s) sinks.
Proof using sound.
  intros HD Hd H. set (Q := fun s => exists d, D d /\ fronts d s).
  destruct (newSinks_blocks breaker b0 wait sha256hex hmac256hex celEnv cel_Compile OutputType cel_Program
    cel_PartialProgram Eval PartialEval Parse env cfg sinksCfg dest NonReplicationURL dlq_observed
    D (fun _ => Q) Q HD) with (dlq := dlq) (dlq' := dlq') (sinks := sinks) as (mirrors & outbox & -> & _ & Ho & Hm);
    [| |done|done|].
  - intros d gl tb q l q' l' Hdd Hq Ha. destruct (addSink_fronts _ _ _ _ _ _ _ Hq Ha) as (Hq' & s & -> & Hs).
    split; [done|]. exists s. split; [done|]. by exists d.
  - intros d q q' s Hdd Hq Hw. exists d. split; [done | by eapply wrap_fronts].
  - apply Forall_app. split; [|done]. clear -Hm. induction Hm; by constructor.
Qed.
End assembled.

(** ** The destinations' own sinks *)
Section destinations_ignore.
Context {Template W Options Conn JS F P : Type} `{!World W, !MeiliAdmin W}.
Context (Parse : string -> res Template) (Render : Template -> KeyTemplateContext -> res string).
Context (Marshal : any -> res string) (time_any : Z -> any).
Context (ParseURL : string -> res Options) (NewClient : Options -> RedisClient W).
Context (hmac256hex : string -> string -> string) (TrimSpace : string -> string).
Context (request_err : option error) (Do : Ctx -> Publish.request -> ST W (res Publish.response)) (CloseIdleConnections : ST W unit).
Context (nats : NatsClient W Conn JS).
Context (PublishMsg : Msg -> ST W (option error)) (Flush : Ctx -> ST W (option error)).
Context (PublishMsgAsync : Msg -> string -> ST W (res F)) (AwaitAck : Ctx -> F -> ST W ack_result).
Context (pg : PgClient W P) (Sanitize : list string -> string).
Context (range : gmap string MeiliIndexSettings -> list (string * MeiliIndexSettings)).
Context (Enqueue : Ctx -> string -> Meili.run -> ST W (res Z)).
Context (GetTasks : Ctx -> list Z -> ST W (res (list Task))).
Context (StatusCode : error -> option Z) (wait : Ctx -> Z -> ST W bool) (patience : nat).
Context (env : Env) (sinksCfg : SinksConfig).
Abbreviation resolver := (KeyResolver (Template := Template)).
Abbreviation DS := (DestState (Template := Template) (Conn := Conn) (JS := JS) (P := P)).
Abbreviation the_destinations := (destinations Parse Render Marshal time_any ParseURL NewClient hmac256hex TrimSpace
  request_err Do CloseIdleConnections nats PublishMsg Flush PublishMsgAsync AwaitAck pg Sanitize range Enqueue
  GetTasks StatusCode wait patience).

(** What the sinks' state keeps: the resolvers in use filter as the configured ones. *)
Record as_configured (ds : DS) : Prop := {
  ac_stream kr : keyed_resolver Parse (sc_RedisStream sinksCfg) (rd_StreamPrefix (Redis_LoadConfig env))
    DefaultStreamKeyPattern = inl kr -> same_filter kr (default kr (dst_stream ds));
  ac_json kr : keyed_resolver Parse (sc_RedisJSON sinksCfg) (rj_Prefix (RedisJSON_LoadConfig env))
    DefaultJSONKeyPattern = inl kr -> same_filter kr (default kr (dst_json ds));
  ac_nats kr : keyed_resolver Parse (sc_NATS sinksCfg) (na_SubjectPrefix (NATS_LoadConfig env))
    DefaultSubjectPattern = inl kr ->
    same_route (Some kr) (default (Some kr) (fst <$> dst_nats ds));
}.

(** A batch the sink wants nothing of succeeds and asks nothing of any service, unless
    it resumes the wait for a Meilisearch batch that was interrupted. *)
Definition ignores_unwanted (d : Sink (DS * W)) : Prop :=
  forall c events ds w, as_configured ds -> resumable (batchKey events) (default None (dst_meili ds)) = None ->
    Forall (unwanted d) events -> (Process d c events (ds, w)).1 = None /\ (Process d c events (ds, w)).2.2 = w.

Lemma held_ignores {S} (get : DS -> option S) set s0 (s : Sink (S * W)) (ok : S * W -> Prop) :
  HonestRouter ok s -> (forall ds w, as_configured ds -> ok (default s0 (get ds), w)) ->
  ignores_unwanted (held_sink get set s0 s).
Proof using Type.
  intros Hh Hok c events ds w Hds _ Hun. cbn [Process held_sink]. unfold held.
  rewrite (unwanted_do_nothing ok s c events _ (Hok _ _ Hds)) by exact Hun. done.
Qed.

Lemma paired_honest {S1 S2} (ok : S1 * (S2 * W) -> Prop) (s : Sink (S1 * (S2 * W))) :
  HonestRouter ok s -> HonestRouter (fun x => ok (x.1.1, (x.1.2, x.2))) (paired_sink s).
Proof using Type.
  intros Hs. split.
  - intros c events [[s1 s2] w] Hok. simpl. by rewrite (honest c events _ Hok).
  - intros c [[s1 s2] w] Hok. simpl. by rewrite (Sinks.idle c _ Hok).
Qed.

Lemma inner_ignores (s : Sink W) : HonestRouter (fun _ : W => True) s -> ignores_unwanted (inner_sink s).
Proof using Type.
  intros Hs c events ds w _ _ Hun. simpl. unfold inner. by rewrite (unwanted_do_nothing (fun _ => True) s c events w).
Qed.

Lemma meili_ignores tables :
  ignores_unwanted (held_sink dst_meili set_dst_meili None (NewMeiliSink range Enqueue GetTasks StatusCode wait patience tables)).
Proof using Type.
  intros c events ds w _ Hr Hun. cbn [Process held_sink NewMeiliSink]. unfold held, bind, ret.
  assert (Hplan : plan tables events = inl {| p_order := []; p_runs := ∅ |}).
  { unfold plan. set (s := NewMeiliSink range Enqueue GetTasks StatusCode wait patience tables).
    rewrite (plan_loop_routed tables (sink_wants s)) by (intros e; reflexivity).
    by rewrite (unwanted_only s events Hun). }
  assert (Hp : Meili_Process tables Enqueue GetTasks StatusCode wait patience c events (default None (dst_meili ds), w)
    = (Returned None, (default None (dst_meili ds), w))).
  { destruct events as [|e0 es]; [done|]. unfold Meili_Process. unfold bind at 1, get. cbn [fst]. by rewrite Hr, Hplan. }
  by rewrite Hp.
Qed.

(** Nothing a sink processes changes how its resolver filters. *)
Definition keeps_configured (d : Sink (DS * W)) : Prop :=
  forall c events ds w, as_configured ds -> as_configured (Process d c events (ds, w)).2.1.

Lemma held_keeps {S} (get : DS -> option S) set s0 (s : Sink (S * W)) (good : S -> Prop) :
  (forall c events x w, good x -> good (Process s c events (x, w)).2.1) ->
  (forall ds, as_configured ds -> good (default s0 (get ds))) ->
  (forall ds x, as_configured ds -> good x -> as_configured (set x ds)) ->
  keeps_configured (held_sink get set s0 s).
Proof using Type.
  intros Hs Hget Hset c events ds w Hds. cbn [Process held_sink]. unfold held.
  specialize (Hs c events (default s0 (get ds)) w (Hget _ Hds)).
  destruct (Process s c events _) as [r [x w']]. by apply Hset.
Qed.

Lemma queue_loop_filter cmd events (kr : resolver) :
  routed cmd -> same_filter kr (queue_loop cmd events kr).2.
Proof using Type.
  intros Hc. revert kr. induction events as [|e events IH]; intros kr; [done|]. cbn [queue_loop]. unfold bind, ret.
  pose proof (proj2 (Hc e kr)) as H1. destruct (cmd e kr) as [[o|err] kr1]; [|exact H1].
  specialize (IH kr1). destruct (queue_loop cmd events kr1) as [[cs|err] kr2];
    unfold same_filter in *; simpl in *; congruence.
Qed.

Lemma base_sink_keeps (base : BaseSink (Template := Template) (W := W)) cmd before after (kr0 : resolver) :
  routed cmd -> forall c events kr w, same_filter kr0 kr ->
  same_filter kr0 (Process (base_sink base (pipeline_process (rc_Exec (bs_Client base)) cmd before after)) c events (kr, w)).2.1.
Proof using Type.
  intros Hc c events kr w Hk. simpl. unfold pipeline_process, own, bind, inner, ret.
  pose proof (queue_loop_filter cmd events kr Hc) as Hq. destruct (queue_loop cmd events kr) as [[[|x cs]|err] kr'];
    unfold same_filter in *; simpl in *; try congruence.
  destruct (rc_Exec (bs_Client base) (x :: cs) w) as [err w']. simpl. congruence.
Qed.

Lemma message_loop_route prefix events kr0 (kr : option resolver) :
  same_route kr0 kr -> same_route kr0 (message_loop Parse Render Marshal time_any prefix events kr).2.
Proof using Type.
  revert kr. induction events as [|e events IH]; intros kr Hr; [done|]. cbn [message_loop]. unfold bind, get, ret.
  destruct (match kr with Some r => _ | None => _ end); [by apply IH|].
  pose proof (message_route Parse Render Marshal time_any prefix e kr) as Hm.
  destruct (message Parse Render Marshal time_any prefix e kr) as [[m|err] kr1];
    assert (Hr1 : same_route kr0 kr1) by (intros schema table op; simpl in Hm; by rewrite Hm, Hr); [|exact Hr1].
  specialize (IH kr1 Hr1). by destruct (message_loop _ _ _ _ _ events kr1) as [[ms|err] kr2].
Qed.

Lemma inner_fst {S X A} (m : ST X A) (sx : S * X) : (inner m sx).2.1 = sx.1.
Proof using Type. destruct sx as [s x]. unfold inner. by destruct (m x). Qed.

Lemma Nats_Process_route {X FT} `{!World X} prefix timeout js PublishMsg' Flush' PublishMsgAsync' AwaitAck' c events kr0
    (st : option resolver * X) :
  same_route kr0 st.1 ->
  same_route kr0 (Nats_Process (F := FT) Parse Render Marshal time_any prefix timeout js PublishMsg' Flush'
    PublishMsgAsync' AwaitAck' c events st).2.1.
Proof using Type.
  destruct st as [kr x]. intros Hk. unfold Nats_Process. unfold bind at 1, own at 1.
  pose proof (message_loop_route prefix events kr0 kr Hk) as Hq.
  destruct (message_loop Parse Render Marshal time_any prefix events kr) as [[[|m ms]|err] kr']; try exact Hq.
  destruct js; rewrite inner_fst; exact Hq.
Qed.

Lemma nats_keeps nc (kr0 : option resolver) c events x w :
  same_route kr0 x.1 ->
  same_route kr0 (Process (paired_sink (NewNATSSink Parse Render Marshal time_any nats nc PublishMsg Flush
    PublishMsgAsync AwaitAck kr0)) c events (x, w)).2.1.1.
Proof using Type.
  destruct x as [kr st]. intros Hk. cbn [Process paired_sink NewNATSSink]. unfold paired. unfold bind at 1, get.
  match goal with |- context [Nats_Process ?a ?b ?d ?f ?g ?h ?i ?j ?k ?l ?m ?n ?o ?st] =>
    pose proof (Nats_Process_route g h i j k l m n o kr0 st Hk) as H;
    destruct (Nats_Process a b d f g h i j k l m n o st) as [r [kr' [st' w']]] end.
  exact H.
Qed.

Ltac by_configured :=
  match goal with H : as_configured _ |- _ => destruct H end; split;
  cbn [dst_stream dst_json dst_nats set_dst_stream set_dst_json set_dst_nats set_dst_outbox set_dst_meili];
  try assumption.

(** The sinks [newSinks] is given ignore what they do not want. *)
Lemma destinations_ignore :
  DestinationsAre Parse env sinksCfg the_destinations (fun d => ignores_unwanted d /\ keeps_configured d).
Proof using Type.
  split.
  - intros kr s Hkr. simpl. unfold NewStreamSink, NewBaseSink. destruct (ParseURL _) as [opts|]; [|discriminate].
    intros [= <-]. set (base := Build_BaseSink _ _ kr _). split.
    + eapply held_ignores.
      * exact (base_sink_honest base _ _ _ (stream_routed Parse Render Marshal time_any _)).
      * intros ds w Hds. exact (ac_stream _ Hds kr Hkr).
    + apply (held_keeps dst_stream set_dst_stream kr _ (same_filter kr)).
      * exact (base_sink_keeps base _ _ _ kr (stream_routed Parse Render Marshal time_any _)).
      * intros ds Hds. exact (ac_stream _ Hds kr Hkr).
      * intros ds x Hds Hx. by_configured. intros kr' Hkr'. by assert (kr' = kr) as -> by congruence.
  - intros kr s Hkr. simpl. unfold NewJSONSink, NewBaseSink. destruct (ParseURL _) as [opts|]; [|discriminate].
    intros [= <-]. set (base := Build_BaseSink _ _ kr _). split.
    + eapply held_ignores.
      * exact (base_sink_honest base _ _ _ (json_routed Parse Render Marshal)).
      * intros ds w Hds. exact (ac_json _ Hds kr Hkr).
    + apply (held_keeps dst_json set_dst_json kr _ (same_filter kr)).
      * exact (base_sink_keeps base _ _ _ kr (json_routed Parse Render Marshal)).
      * intros ds Hds. exact (ac_json _ Hds kr Hkr).
      * intros ds x Hds Hx. by_configured. intros kr' Hkr'. by assert (kr' = kr) as -> by congruence.
  - split; [apply inner_ignores, webhook_honest|]. intros c events ds w Hds. simpl. unfold inner.
    by destruct (Webhook_Process _ _ _ _ _ _ _ _ _ c events w).
  - intros kr Hkr. simpl.
    assert (Hget : forall ds : DS, as_configured ds ->
      same_route (Some kr) (default (Some kr, {| nt_conn := None; nt_js := None |}) (dst_nats ds)).1).
    { intros ds Hds. pose proof (ac_nats _ Hds kr Hkr) as H. by destruct (dst_nats ds) as [[? ?]|]. }
    split.
    + eapply held_ignores; [apply paired_honest, nats_honest|]. intros ds w Hds. exact (Hget ds Hds).
    + apply (held_keeps _ _ _ _ (fun x => same_route (Some kr) x.1)); [intros; by apply nats_keeps | exact Hget |].
      intros ds [kr' st] Hds Hx. by_configured. intros kr2 Hkr2. by assert (kr2 = kr) as -> by congruence.
  - split; [apply meili_ignores|]. apply (held_keeps _ _ _ _ (fun _ => True)); [done..|].
    intros ds x Hds _. by_configured.
  - intros cfg r u s. simpl. destruct (NewOutboxSink _ _ _ _ _ _ _ _) as [s0|] eqn:Hs; [|discriminate].
    intros [= <-]. split.
    + eapply held_ignores; [by eapply outbox_honest | done].
    + apply (held_keeps _ _ _ _ (fun _ => True)); [done..|]. intros ds x Hds _. by_configured.
Qed.

Lemma idle_as_configured : as_configured Wiring.idle.
Proof using Type. by split. Qed.

(** ** The question *)
Section asked.
Context {B G DB : Type} (breaker : Breaker B G) (b0 : B) (delay : Ctx -> Z -> ST (DS * W) bool).
Context (sha256hex : string -> string).
Context {Ast Program : Type} (celEnv : option error) (cel_Compile : string -> res Ast) (OutputType : Ast -> string).
Context (cel_Program cel_PartialProgram : Ast -> res Program).
Context (Eval : Program -> string * string * string * columns * columns -> res cel_value).
Context (PartialEval : Program -> string * string * string -> res cel_value).
Context (cfg : Config) (NonReplicationURL : string -> string) (NewDB : string -> string -> Z -> res DB).

End asked.
End destinations_ignore.

(** ** A gateway that skips a table

    The stream takes every table's inserts, the webhook takes orders only: a backfill
    has nobody to read users for, and is asked about orders. *)
#[local] Existing Instance ready_admin.
Definition inserts_only : TransformSpec := {| spec_Filter := "op == INSERT"; spec_DropColumns := []; spec_Mask := ∅ |}.
Definition skipping_sinks : SinksConfig :=
  {| sc_RedisStream := {| SyncAll := true; DefaultKeyPattern := ""; ks_Transform := Some inserts_only; ks_Tables := ∅ |};
     sc_RedisJSON := zero_keyed; sc_Meilisearch := {| ms_Transform := None; ms_Tables := ∅ |};
     sc_Webhook := {| SyncAll := false; DefaultKeyPattern := ""; ks_Transform := None;
                      ks_Tables := {[ "public.orders" := {| tc_Key := ""; tc_TransformSpec := {| spec_Filter := ""; spec_DropColumns := []; spec_Mask := ∅ |} |} ]} |};
     sc_NATS := zero_keyed; sc_Outbox := sc_Outbox demo_sinks |}.
Abbreviation skipping_destinations :=
  (destinations toy_Parse toy_Render toy_Marshal (fun _ => ANil) (fun url => inl url) (fun _ : string => ready_redis)
     (fun _ s => s) (fun s => s) None ready_http (ret tt) ready_nats (fun _ => ret None) (fun _ => ret None)
     (fun _ _ => ret (inl tt)) (fun _ _ => ret AckOk) ready_pg (fun l => String.concat "." l) map_to_list
     (fun _ _ _ => ret (inl 0%Z)) (fun _ _ => ret (inl [])) (fun _ => None) demo_wait 0).
Abbreviation skipping_newSinks :=
  (newSinks toy_breaker false (observed_wait (fun c d => inner (demo_wait c d))) (fun s => s) (fun _ s => s) None
     (fun s => inl s) (fun _ => "bool") (fun s => inl s) (fun s => inl s) toy_eval toy_partial toy_Parse demo_env
     (read_config demo_env) skipping_sinks (observed skipping_destinations) (fun u => u) None).


