(* ===== verification/Doctor.v ===== *)
(** * The doctor (src/internal/infrastructure/doctor/doctor.go)

    [gtc doctor] probes a deployment and reports.  What the probes answer - PostgreSQL's
    settings and catalogs, Redis, Meilisearch, NATS - is a record of answers; the
    checks, their order, their verdicts and the exit code are the code's.  A report
    line keeps its name, its status and its text. *)

From Stdlib Require Import ZArith Lia Ascii String.
From stdpp Require Import base list gmap strings pretty sorting.
From S2P Require Import Prelude Domain SchemaChange Decoder Reader ReaderSetup Backfill DBLog BackfillDB.
From S2P Require Import DeadLetter Resilience Transform Meili Keys RedisSinks Service Config Gateway.

Open Scope go_scope.
Set Warnings "-clear-no-such-hyp".

(** ** The report *)
Inductive check_status := pass | warn | fail | skip.
#[export] Instance check_status_eq_dec : EqDecision check_status.
Proof. solve_decision. Defined.

(** Check mark, exclamation mark, cross and dash, in UTF-8. *)
Definition glyph (s : check_status) : string :=
  match s with
  | pass => bytes [226; 156; 147]%N
  | warn => "!"
  | fail => bytes [226; 156; 151]%N
  | skip => "-"
  end.

Record result := { re_name : string; re_status : check_status; re_detail : string }.
#[export] Instance result_eq_dec : EqDecision result.
Proof. solve_decision. Defined.
Definition line (name : string) (st : check_status) (detail : string) : result :=
  {| re_name := name; re_status := st; re_detail := detail |}.
(** The lines a check adds. *)
Abbreviation report := (list result).

Definition failed (r : report) : bool := existsb (fun x => bool_decide (re_status x = fail)) r.
Definition count (st : check_status) (r : report) : nat := length (filter (fun x => re_status x = st) r).
Definition exit_code (r : report) : Z := if decide (0 < count fail r) then 1 else 0.

(** ** What the probes answer *)
Record PgProbe := {
  pg_connect : option error;
  pg_version : res (Z * string);
  pg_wal_level : string;                        (* empty when the query fails *)
  pg_role : res (string * bool * bool);         (* user, superuser, replication *)
  pg_slots : res (Z * Z);                       (* maximum, used *)
  pg_slot_active : option (option bool);        (* [None]: no such slot *)
  pg_senders : res (Z * Z);
  pg_publication : bool;
  pg_no_primary_key : res (list string);
  pg_replication_connect : option error;
  pg_identify : res (Z * string);               (* timeline, position *)
  pg_sender_timeout : res Z;                    (* milliseconds *)
}.
Record RedisProbe := { rp_parse : res string; rp_ping : option error; rp_json : option error }.
Record NATSProbe := { np_connect : res string; np_jetstream : option error; np_account : option error }.
Record Probes := {
  pb_pg : PgProbe;
  pb_redis : string -> RedisProbe;              (* by URL; [rp_json]: not "redis: nil" *)
  pb_meili : option error;
  pb_nats : NATSProbe;
  pb_url : string -> res (string * string);     (* [url.Parse]: scheme and host *)
}.

Section doctor.
Context {V : Validation} (env : Env) (pb : Probes).
Context (ReadFile : string -> res string) (Unmarshal : string -> SinksConfig -> res SinksConfig).
Context (sha256hex : string -> string) (hmac256hex : string -> string -> string).
Context {Ast Program : Type} (celEnv : option error) (cel_Compile : string -> res Ast) (OutputType : Ast -> string).
Context (cel_Program cel_PartialProgram : Ast -> res Program).

Definition checkConfig : report * option Config :=
  match Load env with
  | inr err => ([line "environment" fail (Error err)], None)
  | inl cfg => ([line "environment" pass ("slot " +:+ quoted (cfg_SlotName cfg) +:+ ", publication "
                                           +:+ quoted (cfg_PublicationName cfg))%string], Some cfg)
  end.

(** *** PostgreSQL *)
Definition check_version (v : Z * string) : report :=
  let '(versionNum, versionText) := v in
  if decide (versionNum < 140000)%Z
  then [line "connection" warn ("PostgreSQL " +:+ versionText +:+ " - GTC needs 14+ (pgoutput protocol v2)")%string]
  else [line "connection" pass ("PostgreSQL " +:+ versionText)%string].

Definition check_wal_level (walLevel : string) : report :=
  if decide (walLevel <> "logical")
  then [line "wal_level" fail (quoted walLevel +:+ " - logical replication needs wal_level=logical")%string]
  else [line "wal_level" pass "logical"].

Definition check_privileges (role : res (string * bool * bool)) : report :=
  match role with
  | inr _ => []
  | inl (user, super, repl) =>
      if super then [line "privileges" pass ("user " +:+ quoted user +:+ " is superuser")%string]
      else if repl : bool then [line "privileges" pass ("user " +:+ quoted user +:+ " has REPLICATION")%string]
      else [line "privileges" warn ("user " +:+ quoted user +:+ " has neither SUPERUSER nor REPLICATION")%string]
  end.

Definition check_slot (cfg : Config) (p : PgProbe) : report :=
  match pg_slots p with
  | inr _ => []
  | inl (slotsMax, slotsUsed) =>
      let slot := quoted (cfg_SlotName cfg) in
      let usage := (" (" +:+ pretty slotsUsed +:+ "/" +:+ pretty slotsMax +:+ " slots in use)")%string in
      match pg_slot_active p with
      | Some (Some true) => [line "replication slot" warn ("slot " +:+ slot +:+ " exists and is ACTIVE")%string]
      | Some _ => [line "replication slot" pass ("slot " +:+ slot +:+ " exists" +:+ usage)%string]
      | None =>
          if decide (slotsMax <= slotsUsed)%Z
          then [line "replication slot" fail ("all " +:+ pretty slotsMax +:+ " replication slots are in use and "
                  +:+ slot +:+ " does not exist")%string]
          else if negb (cfg_AutoCreateSlot cfg)
          then [line "replication slot" fail ("slot " +:+ slot +:+ " does not exist and CDC_AUTO_CREATE_SLOT is false")%string]
          else [line "replication slot" pass ("slot " +:+ slot +:+ " will be auto-created" +:+ usage)%string]
      end
  end.

Definition check_senders (senders : res (Z * Z)) : report :=
  match senders with
  | inr _ => []
  | inl (sendersMax, sendersUsed) =>
      if decide (sendersMax <= sendersUsed)%Z
      then [line "wal senders" fail ("all " +:+ pretty sendersMax +:+ " wal senders are busy")%string]
      else [line "wal senders" pass (pretty sendersUsed +:+ "/" +:+ pretty sendersMax +:+ " in use")%string]
  end.

(** [super] stays false when the role query failed. *)
Definition is_super (p : PgProbe) : bool := match pg_role p with inl (_, super, _) => super | inr _ => false end.

Definition check_publication (cfg : Config) (p : PgProbe) : report :=
  let pub := quoted (cfg_PublicationName cfg) in
  if pg_publication p then [line "publication" pass (pub +:+ " exists")%string]
  else if negb (cfg_AutoCreatePub cfg)
  then [line "publication" fail (pub +:+ " does not exist and CDC_AUTO_CREATE_PUBLICATION is false")%string]
  else if negb (is_super p)
  then [line "publication" fail (pub +:+ " does not exist and auto-creating it FOR ALL TABLES requires superuser")%string]
  else [line "publication" pass (pub +:+ " will be auto-created")%string].

Definition check_identity (noPK : res (list string)) : report :=
  match noPK with
  | inr _ => []
  | inl [] => [line "replica identity" pass "every table has a primary key or replica identity"]
  | inl tables => [line "replica identity" warn
      (pretty (length tables) +:+ " table(s) without a primary key or replica identity: "
         +:+ join ", " (take 5 tables))%string]
  end.

(** A real replication session. *)
Definition check_protocol (p : PgProbe) : report :=
  match pg_replication_connect p with
  | Some err => [line "replication protocol" fail (Error err)]
  | None =>
      match pg_identify p with
      | inr err => [line "replication protocol" fail ("IDENTIFY_SYSTEM: " +:+ Error err)%string]
      | inl (timeline, pos) => [line "replication protocol" pass
          ("IDENTIFY_SYSTEM ok (timeline " +:+ pretty timeline +:+ ", " +:+ pos +:+ ")")%string]
      end
  end.

Definition checkPostgres (cfg : Config) : report :=
  let p := pb_pg pb in
  match pg_connect p with
  | Some err => [line "connection" fail (Error err)]
  | None =>
      match pg_version p with
      | inr err => [line "connection" fail ("query server version: " +:+ Error err)%string]
      | inl v => check_version v ++ check_wal_level (pg_wal_level p) ++ check_privileges (pg_role p) ++
                 check_slot cfg p ++ check_senders (pg_senders p) ++ check_publication cfg p ++
                 check_identity (pg_no_primary_key p) ++ check_protocol p
      end
  end.

(** *** Sinks *)
Definition checkRedis (name rawURL : string) (needJSON : bool) : report :=
  let p := pb_redis pb rawURL in
  match rp_parse p with
  | inr err => [line name fail ("invalid URL: " +:+ Error err)%string]
  | inl addr =>
      match rp_ping p with
      | Some err => [line name fail (Error err)]
      | None =>
          match (if needJSON then rp_json p else None) with
          | Some err => [line name fail ("reachable, but the RedisJSON module is missing (" +:+ Error err +:+ ")")%string]
          | None => [line name pass ("PONG from " +:+ addr)%string]
          end
      end
  end.

Definition checkWebhook (wc : WebhookConfig) : report :=
  match pb_url pb (wh_URL wc) with
  | inr _ => [line "webhook" fail ("invalid WEBHOOK_URL " +:+ quoted (wh_URL wc))%string]
  | inl (scheme, host) =>
      if decide (host = "") then [line "webhook" fail ("invalid WEBHOOK_URL " +:+ quoted (wh_URL wc))%string]
      else if decide (scheme <> "http" /\ scheme <> "https")
      then [line "webhook" fail ("WEBHOOK_URL scheme " +:+ quoted scheme +:+ " must be http or https")%string]
      else if decide (scheme = "http" /\ wh_SigningSecret wc = "")
      then [line "webhook" warn (wh_URL wc +:+ " is plain HTTP and unsigned")%string]
      else if decide (wh_SigningSecret wc = "")
      then [line "webhook" warn (wh_URL wc +:+ " is not signed")%string]
      else [line "webhook" pass (wh_URL wc +:+ " (signed; endpoint is not probed)")%string]
  end.

Definition checkNATS (nc : NATSConfig) : report :=
  match np_connect (pb_nats pb) with
  | inr err => [line "nats" fail (Error err)]
  | inl url =>
      if negb (na_JetStream nc) then
        [line "nats" warn ("connected to " +:+ url +:+ ", but NATS_JETSTREAM=false publishes fire-and-forget")%string]
      else match np_jetstream (pb_nats pb) with
      | Some err => [line "nats" fail ("JetStream unavailable: " +:+ Error err)%string]
      | None =>
          match np_account (pb_nats pb) with
          | Some err => [line "nats" fail ("JetStream is not enabled on " +:+ url +:+ ": " +:+ Error err)%string]
          | None => [line "nats" pass ("JetStream ready at " +:+ url +:+ " (stream " +:+ quoted (na_Stream nc) +:+ ")")%string]
          end
      end
  end.

(** The enabled keyed sinks that select no table, in sorted order. *)
Definition string_le (a b : string) : Prop := String.leb a b = true.
#[local] Instance string_le_dec : RelDecision string_le. Proof. intros a b. unfold string_le. apply _. Defined.

Definition silent_sinks (sinksCfg : SinksConfig) : list string :=
  let enabled := (if rd_Enabled (Redis_LoadConfig env) then [("redis_stream", sc_RedisStream sinksCfg)] else []) ++
                 (if rj_Enabled (RedisJSON_LoadConfig env) then [("redis_json", sc_RedisJSON sinksCfg)] else []) ++
                 (if wh_Enabled (Webhook_LoadConfig env) then [("webhook", sc_Webhook sinksCfg)] else []) ++
                 (if na_Enabled (NATS_LoadConfig env) then [("nats", sc_NATS sinksCfg)] else []) in
  merge_sort string_le (map fst (filter (fun p => SyncAll p.2 = false /\ size (ks_Tables p.2) = 0) enabled)).

Definition checkTableSelection (sinksCfg : SinksConfig) : report :=
  match silent_sinks sinksCfg with
  | [] => []
  | first :: rest => [line "table selection" warn
      (join ", " (first :: rest) +:+ " enabled but selecting no tables - add a `" +:+ first +:+ ":` section")%string]
  end.

Abbreviation compile := (CompileWithOptions sha256hex hmac256hex celEnv cel_Compile OutputType cel_Program
                        cel_PartialProgram).

(** The tables' specs, in the map's order, to the first that does not compile. *)
Fixpoint first_bad (key : string) (tables : list (string * TransformSpec)) : option (string * error) :=
  match tables with
  | [] => None
  | (name, spec) :: rest =>
      match compile key [spec] with inr e => Some (name, e) | inl _ => first_bad key rest end
  end.

(** [compile]: the lines it adds, and whether every spec compiles. *)
Definition compile_scope (key scope : string) (global : option TransformSpec) (tables : gmap string TransformSpec)
    : report * bool :=
  match (match global with Some g => match compile key [g] with inr e => Some e | inl _ => None end | None => None end) with
  | Some err => ([line "transforms" fail (scope +:+ ": " +:+ Error err)%string], false)
  | None =>
      match first_bad key (map_to_list tables) with
      | Some (name, err) => ([line "transforms" fail (scope +:+ ", table " +:+ name +:+ ": " +:+ Error err)%string], false)
      | None => ([], true)
      end
  end.

(** [a && b && c]: a later scope is compiled only when the earlier ones are fine. *)
Definition and_then (a : report * bool) (b : report * bool) : report * bool :=
  if a.2 then (a.1 ++ b.1, b.2) else a.

Definition checkTransforms (cfg : Config) (sinksCfg : SinksConfig) : report :=
  let key := cfg_MaskHMACKey cfg in
  let keyed scope (k : KeyedSinkConfig) := compile_scope key scope (ks_Transform k) (TableTransforms k) in
  let '(lines, ok) :=
    and_then (and_then (keyed "redis_stream" (sc_RedisStream sinksCfg)) (keyed "redis_json" (sc_RedisJSON sinksCfg)))
      (compile_scope key "meilisearch" (ms_Transform (sc_Meilisearch sinksCfg))
         (Meili_TableTransforms (sc_Meilisearch sinksCfg))) in
  if ok : bool then lines ++ [line "transforms" pass "all filters and masks compile"] else lines.

(** One destination: its check when it is configured, a skipped line otherwise. *)
Definition destination (enabled : bool) (name var : string) (check : report) : report :=
  if enabled then check else [line name skip ("not configured (" +:+ var +:+ " unset)")%string].

Definition check_meili (mc : MeiliConfig) : report :=
  match pb_meili pb with
  | Some err => [line "meilisearch" fail (Error err)]
  | None => [line "meilisearch" pass ("healthy at " +:+ me_URL mc)%string]
  end.

Definition checkSinks (cfg : option Config) : report :=
  let loaded := LoadSinksConfig ReadFile Unmarshal env in
  let rc := Redis_LoadConfig env in
  let jc := RedisJSON_LoadConfig env in
  let mc := Meili_LoadConfig env in
  let wc := Webhook_LoadConfig env in
  let nc := NATS_LoadConfig env in
  (match loaded with
   | inr err => [line "sink config" fail (Error err)]
   | inl sinksCfg => match cfg with
                     | Some cfg => checkTransforms cfg sinksCfg ++ checkTableSelection sinksCfg
                     | None => []
                     end
   end) ++
  destination (rd_Enabled rc) "redis stream" "REDIS_URL" (checkRedis "redis stream" (rd_URL rc) false) ++
  destination (rj_Enabled jc) "redisjson" "REDIS_JSON_URL" (checkRedis "redisjson" (rj_URL jc) true) ++
  destination (me_Enabled mc) "meilisearch" "MEILISEARCH_URL" (check_meili mc) ++
  destination (wh_Enabled wc) "webhook" "WEBHOOK_URL" (checkWebhook wc) ++
  destination (na_Enabled nc) "nats" "NATS_URL" (checkNATS nc) ++
  (if rd_Enabled rc || rj_Enabled jc || me_Enabled mc || wh_Enabled wc || na_Enabled nc then []
   else [line "sinks" warn "no sinks configured - GTC will consume WAL but deliver nowhere"]) ++
  (match cfg with
   | Some cfg => if dc_Enabled (cfg_DLQ cfg) && bool_decide (rd_URL rc = "")
                 then [line "dead-letter queue" warn "CDC_DLQ_ENABLED is true but REDIS_URL is unset"] else []
   | None => []
   end) ++
  (match loaded with
   | inl sinksCfg => if Enabled (sc_Outbox sinksCfg) && bool_decide (rd_URL rc = "")
                     then [line "outbox" fail "outbox is configured but REDIS_URL is unset"] else []
   | inr _ => []
   end).

Definition checkPipelineFit (cfg : Config) : report :=
  match pg_connect (pb_pg pb), pg_sender_timeout (pb_pg pb) with
  | None, inl ms =>
      if decide (ms = 0)%Z then [line "keepalive" pass "wal_sender_timeout is disabled"]
      else if decide (Duration (ms * Millisecond) < Duration (cfg_StandbyTimeout cfg * 2))%Z
      then [line "keepalive" warn "CDC_STANDBY_TIMEOUT is more than half of wal_sender_timeout"]
      else [line "keepalive" pass "CDC_STANDBY_TIMEOUT fits within wal_sender_timeout"]
  | _, _ => []
  end.

(** [Run]: the whole report and the exit code. *)
Definition Run : report * Z :=
  let '(lines, cfg) := checkConfig in
  let r := lines ++ (match cfg with Some cfg => checkPostgres cfg | None => [] end) ++ checkSinks cfg ++
           (match cfg with Some cfg => checkPipelineFit cfg | None => [] end) in
  (r, exit_code r).
End doctor.

(** ** What a clean report guarantees *)
Definition no_fail (r : report) : Prop := Forall (fun x => re_status x <> fail) r.

Lemma count_clean r : count fail r = 0 <-> no_fail r.
Proof.
  unfold count, no_fail. induction r as [|x r IH]; [by split; [constructor|]|].
  rewrite filter_cons, Forall_cons. destruct (decide (re_status x = fail)); simpl; [|tauto]. split; [lia | tauto].
Qed.

Lemma exit_code_clean r : exit_code r = 0%Z <-> no_fail r.
Proof.
  rewrite <- count_clean. unfold exit_code. destruct (decide _); split; (discriminate || lia).
Qed.

Lemma no_fail_app a b : no_fail (a ++ b) <-> no_fail a /\ no_fail b.
Proof. apply Forall_app. Qed.
Lemma no_fail_line name st detail : no_fail [line name st detail] -> st <> fail.
Proof. by inversion 1. Qed.

(** Case on a check until its line is known. *)
Ltac clean H :=
  repeat match type of H with
         | no_fail [line _ fail _] => exfalso; by apply no_fail_line in H
         | no_fail ?x => match x with
             | context [match ?y with _ => _ end] =>
                 lazymatch y with context [match _ with _ => _ end] => fail | _ => destruct y eqn:? end
             end
         end.

Section clean_report.
Context {V : Validation} (env : Env) (pb : Probes).
Context (ReadFile : string -> res string) (Unmarshal : string -> SinksConfig -> res SinksConfig).
Context (sha256hex : string -> string) (hmac256hex : string -> string -> string).
Context {Ast Program : Type} (celEnv : option error) (cel_Compile : string -> res Ast) (OutputType : Ast -> string).
Context (cel_Program cel_PartialProgram : Ast -> res Program).

Abbreviation compile := (CompileWithOptions sha256hex hmac256hex celEnv cel_Compile OutputType cel_Program
                        cel_PartialProgram).

(** What the database was found to offer a session of this configuration: a connection,
    logical WAL, the slot or room for it, a free sender, the publication or the right to
    create it, and a replication connection that identifies itself.  The server's
    version is not part of it: one that is too old is only warned about. *)
Definition postgres_ready (cfg : Config) : Prop :=
  let p := pb_pg pb in
  pg_connect p = None /\ pg_wal_level p = "logical" /\
  (forall slotsMax slotsUsed, pg_slots p = inl (slotsMax, slotsUsed) ->
     is_Some (pg_slot_active p) \/ (slotsUsed < slotsMax)%Z /\ cfg_AutoCreateSlot cfg = true) /\
  (forall sendersMax sendersUsed, pg_senders p = inl (sendersMax, sendersUsed) -> (sendersUsed < sendersMax)%Z) /\
  (pg_publication p = true \/ cfg_AutoCreatePub cfg = true /\ is_super p = true) /\
  pg_replication_connect p = None /\ exists ident, pg_identify p = inl ident.

Lemma checkPostgres_clean cfg : no_fail (checkPostgres pb cfg) -> postgres_ready cfg.
Proof.
  unfold checkPostgres, postgres_ready. destruct (pg_connect (pb_pg pb)); [by intros H%no_fail_line|].
  destruct (pg_version (pb_pg pb)); [|by intros H%no_fail_line].
  rewrite !no_fail_app. intros (_ & Hw & _ & Hs & Hse & Hp & _ & Hr).
  split; [done|]. split; [|split; [|split; [|split; [|]]]].
  - unfold check_wal_level in Hw. destruct (decide _) as [|Hl]; [by apply no_fail_line in Hw | by apply dec_stable in Hl].
  - intros sm su Hslots. unfold check_slot in Hs. rewrite Hslots in Hs.
    destruct (pg_slot_active (pb_pg pb)); [by left; eauto|]. right. clean Hs. split; [lia|]. by apply negb_false_iff.
  - intros sm su Hsend. unfold check_senders in Hse. rewrite Hsend in Hse. clean Hse. lia.
  - unfold check_publication in Hp. clean Hp; [by left|]. right. split; by apply negb_false_iff.
  - unfold check_protocol in Hr. clean Hr. split; [done|]. eauto.
Qed.

Lemma checkPostgres_version cfg :
  no_fail (checkPostgres pb cfg) ->
  exists version text, pg_version (pb_pg pb) = inl (version, text) /\
    ((version < 140000)%Z -> line "connection" warn ("PostgreSQL " +:+ text +:+
       " - GTC needs 14+ (pgoutput protocol v2)")%string ∈ checkPostgres pb cfg).
Proof.
  unfold checkPostgres. destruct (pg_connect (pb_pg pb)); [by intros H%no_fail_line|].
  destruct (pg_version (pb_pg pb)) as [[version text]|]; [|by intros H%no_fail_line].
  intros _. exists version, text. split; [done|]. intros Hlt. apply elem_of_app. left.
  unfold check_version. rewrite decide_True by done. by left.
Qed.

(** The specs of a scope compile. *)
Definition scope_compiles (key : string) (global : option TransformSpec) (tables : gmap string TransformSpec) : Prop :=
  (forall g, global = Some g -> exists chain, compile key [g] = inl chain) /\
  (forall name spec, tables !! name = Some spec -> exists chain, compile key [spec] = inl chain).

Abbreviation scope := (compile_scope sha256hex hmac256hex celEnv cel_Compile OutputType cel_Program cel_PartialProgram).

Lemma scope_clean key name global tables :
  no_fail (scope key name global tables).1 -> (scope key name global tables).2 = true /\ scope_compiles key global tables.
Proof.
  unfold compile_scope.
  destruct (match global with Some _ => _ | None => _ end) as [err|] eqn:Hg; [by intros H%no_fail_line|].
  assert (Hfb : forall l, first_bad sha256hex hmac256hex celEnv cel_Compile OutputType cel_Program cel_PartialProgram key l = None ->
    forall n spec, (n, spec) ∈ l -> exists chain, compile key [spec] = inl chain).
  { induction l as [|[n spec] l IH]; simpl; [by intros _ ? ? ?%not_elem_of_nil|].
    destruct (compile key [spec]) eqn:Hc; [|discriminate]. intros Hl n0 s0 [[= -> ->]|Hin]%elem_of_cons; eauto. }
  destruct (first_bad _ _ _ _ _ _ _ key _) as [[n e]|] eqn:Hb; [by intros H%no_fail_line|].
  intros _. split; [done|]. split.
  - intros g ->. destruct (compile key [g]); [eauto | discriminate].
  - intros n spec Hs. eapply Hfb; [exact Hb|]. by apply elem_of_map_to_list.
Qed.

Abbreviation transforms := (checkTransforms sha256hex hmac256hex celEnv cel_Compile OutputType cel_Program cel_PartialProgram).

Lemma checkTransforms_clean cfg sinksCfg :
  no_fail (transforms cfg sinksCfg) ->
  let key := cfg_MaskHMACKey cfg in
  scope_compiles key (ks_Transform (sc_RedisStream sinksCfg)) (TableTransforms (sc_RedisStream sinksCfg)) /\
  scope_compiles key (ks_Transform (sc_RedisJSON sinksCfg)) (TableTransforms (sc_RedisJSON sinksCfg)) /\
  scope_compiles key (ms_Transform (sc_Meilisearch sinksCfg)) (Meili_TableTransforms (sc_Meilisearch sinksCfg)).
Proof.
  cbn zeta. unfold checkTransforms, and_then. intros H.
  pose proof (scope_clean (cfg_MaskHMACKey cfg) "redis_stream" (ks_Transform (sc_RedisStream sinksCfg))
    (TableTransforms (sc_RedisStream sinksCfg))) as H1.
  pose proof (scope_clean (cfg_MaskHMACKey cfg) "redis_json" (ks_Transform (sc_RedisJSON sinksCfg))
    (TableTransforms (sc_RedisJSON sinksCfg))) as H2.
  pose proof (scope_clean (cfg_MaskHMACKey cfg) "meilisearch" (ms_Transform (sc_Meilisearch sinksCfg))
    (Meili_TableTransforms (sc_Meilisearch sinksCfg))) as H3.
  destruct (scope _ "redis_stream" _ _) as [l1 []]; simpl in H, H1; [|by apply H1 in H as [[=] _]].
  destruct (scope _ "redis_json" _ _) as [l2 []]; simpl in H, H2;
    [|apply no_fail_app in H as [_ H]; by apply H2 in H as [[=] _]].
  destruct (scope _ "meilisearch" _ _) as [l3 []]; simpl in H, H3; rewrite !no_fail_app in H.
  - destruct H as [[[L1 L2] L3] _]. apply H1 in L1 as [_ ?]. apply H2 in L2 as [_ ?]. by apply H3 in L3 as [_ ?].
  - destruct H as [_ L3]. by apply H3 in L3 as [[=] _].
Qed.

(** What was found of each configured destination: Redis, Meilisearch and NATS answered,
    RedisJSON with its module and JetStream with its account; of a webhook only that its
    URL is an HTTP one with a host, as its endpoint is not probed. *)
Definition destinations_ready : Prop :=
  (rd_Enabled (Redis_LoadConfig env) = true -> rp_ping (pb_redis pb (rd_URL (Redis_LoadConfig env))) = None) /\
  (rj_Enabled (RedisJSON_LoadConfig env) = true ->
     let p := pb_redis pb (rj_URL (RedisJSON_LoadConfig env)) in rp_ping p = None /\ rp_json p = None) /\
  (me_Enabled (Meili_LoadConfig env) = true -> pb_meili pb = None) /\
  (wh_Enabled (Webhook_LoadConfig env) = true -> exists scheme host,
     pb_url pb (wh_URL (Webhook_LoadConfig env)) = inl (scheme, host) /\ host <> "" /\
     (scheme = "http" \/ scheme = "https")) /\
  (na_Enabled (NATS_LoadConfig env) = true -> exists url, np_connect (pb_nats pb) = inl url /\
     (na_JetStream (NATS_LoadConfig env) = true -> np_account (pb_nats pb) = None)).

Lemma checkSinks_clean cfg :
  no_fail (checkSinks env pb ReadFile Unmarshal sha256hex hmac256hex celEnv cel_Compile OutputType cel_Program
             cel_PartialProgram (Some cfg)) ->
  destinations_ready /\ exists sinksCfg, LoadSinksConfig ReadFile Unmarshal env = inl sinksCfg /\
    no_fail (transforms cfg sinksCfg) /\
    (Enabled (sc_Outbox sinksCfg) = true -> rd_URL (Redis_LoadConfig env) <> "").
Proof.
  unfold checkSinks. rewrite !no_fail_app. intros (Hl & Hr & Hj & Hm & Hw & Hn & _ & _ & Ho). split.
  - unfold destinations_ready, destination in *. split; [|split; [|split; [|split]]]; intros E.
    + rewrite E in Hr. unfold checkRedis in Hr. clean Hr; done.
    + rewrite E in Hj. unfold checkRedis in Hj. clean Hj; done.
    + rewrite E in Hm. unfold check_meili in Hm. clean Hm; done.
    + rewrite E in Hw. unfold checkWebhook in Hw.
      destruct (pb_url pb _) as [[scheme host]|]; [|by apply no_fail_line in Hw]. exists scheme, host. split; [done|].
      destruct (decide (host = "")); [by apply no_fail_line in Hw|]. split; [done|].
      destruct (decide (scheme <> "http" /\ scheme <> "https")) as [|Hd]; [by apply no_fail_line in Hw|].
      destruct (decide (scheme = "http")); [by left|]. right. by apply dec_stable; intros Hx; apply Hd.
    + rewrite E in Hn. unfold checkNATS in Hn. destruct (np_connect _) as [url|]; [|by apply no_fail_line in Hn].
      exists url. split; [done|]. intros Hjs. rewrite Hjs in Hn. simpl in Hn. clean Hn; done.
  - destruct (LoadSinksConfig ReadFile Unmarshal env) as [sinksCfg|]; [|by apply no_fail_line in Hl].
    exists sinksCfg. apply no_fail_app in Hl as [Ht _]. split_and!; try done.
    intros He Hu. rewrite He, bool_decide_eq_true_2 in Ho by done. by apply no_fail_line in Ho.
Qed.

Abbreviation run := (Run env pb ReadFile Unmarshal sha256hex hmac256hex celEnv cel_Compile OutputType cel_Program
                    cel_PartialProgram).

End clean_report.

(** ** The transforms it does not look at *)
Definition healthy_pg : PgProbe :=
  {| pg_connect := None; pg_version := inl (170000%Z, "17.0"); pg_wal_level := "logical";
     pg_role := inl ("gtc", true, true); pg_slots := inl (10, 1)%Z; pg_slot_active := None;
     pg_senders := inl (10, 0)%Z; pg_publication := true; pg_no_primary_key := inl [];
     pg_replication_connect := None; pg_identify := inl (1%Z, "0/1"); pg_sender_timeout := inl 60000%Z |}.
Definition healthy : Probes :=
  {| pb_pg := healthy_pg;
     pb_redis := fun _ => {| rp_parse := inl "localhost:6379"; rp_ping := None; rp_json := None |};
     pb_meili := None;
     pb_nats := {| np_connect := inl "nats://localhost"; np_jetstream := None; np_account := None |};
     pb_url := fun _ => inl ("https", "localhost") |}.

(** A webhook that masks a column by a strategy that does not exist. *)
Definition typo_env : Env := fun key =>
  if decide (key = "WEBHOOK_URL") then "https://localhost" else
  if decide (key = "WEBHOOK_SIGNING_SECRET") then "s" else
  if decide (key = "SINK_CONFIG_FILE") then "sinks.yaml" else "".
Definition typo_sinks : SinksConfig :=
  {| sc_RedisStream := zero_keyed; sc_RedisJSON := zero_keyed;
     sc_Meilisearch := {| ms_Transform := None; ms_Tables := ∅ |};
     sc_Webhook := {| SyncAll := true; DefaultKeyPattern := "";
       ks_Transform := Some {| spec_Filter := ""; spec_DropColumns := []; spec_Mask := {[ "email" := "sha1" ]} |};
       ks_Tables := ∅ |};
     sc_NATS := zero_keyed; sc_Outbox := zero_outbox |}.
Definition typo_run : report * Z :=
  Run typo_env healthy (fun _ => inl "yaml") (fun _ _ => inl typo_sinks) (fun s => s) (fun _ s => s)
    (Ast := string) (Program := string) None (fun s => inl s) (fun _ => "bool") (fun s => inl s) (fun s => inl s).

(** The doctor reports that all filters and masks compile and exits with 0 on a
    configuration whose gateway does not start, because the webhook's transform does
    not compile: it compiles the transforms of three of the five mirroring sinks. *)
Theorem doctor_misses_webhook_transforms :
  typo_run.2 = 0%Z /\ line "transforms" pass "all filters and masks compile" ∈ typo_run.1 /\
  exists cfg sinksCfg err,
    Load typo_env = inl cfg /\
    LoadSinksConfig (fun _ => inl "yaml") (fun _ _ => inl typo_sinks) typo_env = inl sinksCfg /\
    newSinks toy_breaker false demo_wait (fun s => s) (fun _ s => s) (Ast := string) (Program := string) None
      (fun s => inl s) (fun _ => "bool") (fun s => inl s) (fun s => inl s) demo_cel demo_partial toy_Parse
      typo_env cfg sinksCfg demo_destinations (fun u => u) None = inr err.
Proof.
  split; [vm_compute; reflexivity|]. split; [apply (bool_decide_unpack _); vm_compute; exact I|].
  exists (read_config typo_env). eexists _, _. split; [vm_compute; reflexivity|].
  split; [reflexivity|]. vm_compute. reflexivity.
Qed.

(** A server too old for the protocol the reader asks for is healthy. *)
Definition old_server : Probes :=
  {| pb_pg := {| pg_connect := pg_connect healthy_pg; pg_version := inl (130000%Z, "13.0"); pg_wal_level := pg_wal_level healthy_pg;
       pg_role := pg_role healthy_pg; pg_slots := pg_slots healthy_pg; pg_slot_active := pg_slot_active healthy_pg;
       pg_senders := pg_senders healthy_pg; pg_publication := pg_publication healthy_pg;
       pg_no_primary_key := pg_no_primary_key healthy_pg; pg_replication_connect := pg_replication_connect healthy_pg;
       pg_identify := pg_identify healthy_pg; pg_sender_timeout := pg_sender_timeout healthy_pg |};
     pb_redis := pb_redis healthy; pb_meili := pb_meili healthy; pb_nats := pb_nats healthy; pb_url := pb_url healthy |}.
Lemma doctor_passes_old_servers :
  (Run no_env old_server (fun _ => inl "yaml") (fun _ c => inl c) (fun s => s) (fun _ s => s)
    (Ast := string) (Program := string) None (fun s => inl s) (fun _ => "bool") (fun s => inl s) (fun s => inl s)).2 = 0%Z.
Proof. vm_compute. reflexivity. Qed.

(** A timeout too long for a 64-bit duration when doubled passes the keepalive check. *)
Lemma doubled_timeout_wraps :
  exists cfg, cfg_StandbyTimeout cfg = (1500000 * Hour)%Z /\
  checkPipelineFit healthy cfg = [line "keepalive" pass "CDC_STANDBY_TIMEOUT fits within wal_sender_timeout"].
Proof.
  exists (read_config (fun key => if decide (key = "CDC_STANDBY_TIMEOUT") then "1500000h" else "")).
  split; vm_compute; reflexivity.
Qed.

